(* ===== verification/_CoqProject ===== *)
-Q . S2P
Prelude.v
Strings.v
OrderedSet.v
Address.v
SlotCalc.v
Trace.v
Pointer.v
Message.v
Resp.v
Stream.v
Buffer.v
Response.v
SlotMap.v
CommandParser.v
CommandSpec.v
Logic.v
Ends.v
Clean.v
World.v
Kernel.v
Command.v
Server.v
LongConn.v
Client.v
Proxy.v
Concurrence.v
Stats.v
Main.v
Epoll.v
EpollOps.v
Graph.v
Links.v
Frames.v
Quiet.v
Turns.v
Order.v
Output.v
Delivery.v
Wake.v
WakeClient.v
Updaters.v
WakeTurn.v
Safety.v
SafetyServer.v
SafetyLong.v
SafetyGroup.v
SafetyClient.v
SafetyProxy.v
Answers.v
Scenarios.v
Reach.v
Waits.v
Process.v
Responses.v
