(* ===== verification/Prelude.v ===== *)
(** * A verification of redis-cerberus

    redis-cerberus is a proxy in front of a Redis cluster: clients speak to it as to one
    Redis server, it sends each command to the node that holds the slot of its key,
    follows MOVED and ASK errors, splits commands of several keys, and keeps the slot map
    up to date by asking the nodes.  A thread is an epoll loop that runs
    [Proxy::handle_events] on its own objects.

    ** The parts of the program and the files that model them

    - [Prelude]: outcomes (a result, a C++ exception, undefined behaviour, or no fuel left),
      the state monad over them, record updates, integers at their width.
    - [Strings]: utils/string.cpp.  [OrderedSet]: [std::set].  [Address]: utils/address.cpp.
    - [SlotCalc]: core/slot_calc.cpp, with the slot of the Redis cluster specification.
    - [Trace]: backtracpp/*.cpp, the stack traces and crash handlers, and the texts of
      except/exceptions.hpp.  [Pointer]: utils/pointer.h, the owning and the plain pointer
      wrappers on a heap, against variables that hold their objects themselves.
    - [Message]: core/message.hpp, the splitter of RESP messages, a functor of the virtual
      functions of its users (class [SplitterHooks]); iterators are offsets in the buffer, and
      a read outside of it is undefined behaviour.  [Resp]: RESP values, their encoding, and
      what the parser does on an encoding and on any prefix of one.  [Stream]: [split].
    - [Buffer]: core/buffer.cpp over a scripted kernel: reads, and the gathering writes of
      [BufferSet].
    - [Response]: core/response.cpp.  [SlotMap]: parsing in core/slot_map.cpp.
    - [CommandParser]: the parsers of core/command.cpp; [CommandSpec]: what each request
      means, word by word, and the proof that the parsers compute it.
    - [World]: the objects of a thread (clients, servers, groups, commands, long
      connections, slot map updaters, the proxy) in stores indexed by names: a pointer is a
      name, [delete] removes it, and using a name that is not there is the outcome
      [UB (Dangling _)].  [Kernel]: syscalls/*.h, core/fdutil.cpp and the epoll set.
    - [Command], [Server], [LongConn], [Client], [Proxy]: the operations of
      core/command.cpp, server.cpp and slot_map.cpp, subscription.cpp, client.cpp, proxy.cpp
      and acceptor.cpp, up to [handle_events].
    - [Concurrence]: core/concurrence.cpp, the loop of a thread ([thread_turn] is one turn,
      [thread_run] the loop and its ends).  [Stats]: core/stats.cpp, with the printing of a
      [double].  [Main]: main.cpp, from the arguments to the proxies of the threads.
    - [Scenarios]: runs of the whole proxy, evaluated.

    The proofs about the whole program:

    - [Logic]: a weakest precondition [wp] for the monad of [World], in which a use after free
      is a failure.  [Clean]: the parsers never end in a use after free.
    - [Graph]: the pointers between the objects as a graph, a view of the world.  [Links]: the
      invariant of that graph and the changes of it that keep it.  [Frames]: the operations
      that change nothing of it.
    - [Safety], [SafetyServer], [SafetyLong], [SafetyGroup], [SafetyClient], [SafetyProxy]: each
      operation keeps the invariant and uses no deleted object.
    - [Epoll], [EpollOps]: the invariant of the epoll set, kept by each operation.
    - [Quiet]: the operations that change no client and no group.  [Order]: each operation is a
      sequence of steps of a FIFO queue on each client.
    - [Ends]: the splitters end on any bytes without a negative length.  [Turns]: each operation
      ends, or the thread is blocked in one of the ways listed there.
    - [Output]: who owns which buffer, and a client's output as the buffers of its ready groups.
      [Delivery], [Answers]: each operation only takes bytes from the front of an output, puts
      whole responses at its end, and leaves the buffers of the ready groups alone.
    - [Wake], [WakeClient], [WakeTurn]: who is asked to be woken, an invariant that says that output is
      polled for, that requests are handed over or answered, and that closed servers hold nothing.
      [Updaters]: commands that wait for a slot map have an updater that asks for it.
    - [Reach]: the states a thread can reach, and what holds in them.  [Process]: [main] and the
      turns of all threads in any order.  [Responses]: the bytes of a client.  [Waits]: what a
      client with requests waits for.

    ** What is shown

    - Slots: the byte-at-a-time automaton and its CRC table compute the slot of the
      specification for every key, and the slot indexes the slot map.
    - Framing: for any RESP values cut into reads at any point, the two splitters deliver
      exactly those values, in order, each once; for requests, the groups are those of
      [CommandSpec.command_spec].
    - Output: [BufferSet::writev] is a FIFO of bytes whatever the kernel accepts.
    - Texts: CLUSTER NODES, the list of addresses, the configuration and the statistics are
      read back as printed.
    - Every reachable state ([Reach], [Process]): no use after free of a command, group, client,
      server or updater; every command without a response is held once, by one queue; the
      counters of clients and groups are exact; no response is sent early; the objects are
      owned as the code means them to be; the epoll set names live connections.
    - Order: a client refines a FIFO queue of its requests, over any number of turns.
    - Responses: over any number of turns the bytes a client gets are the responses of its
      requests, whole and in their order ([Responses.responses_in_order]), and the response of a
      request is what the nodes answered for its commands ([Responses.answer_is_response]).
    - Wake-ups: in every reachable state a client with requests has output that epoll is asked to
      send, or waits for a command that an open server or an open slot map updater is to answer, or
      is the one case the code forgets ([Waits.requests_wait], [Waits.answered_groups_leave]).
    - Termination: a turn ends unless a peer sent a negative length or does not read what is
      flushed to it ([Turns.turn_ends]).
    - Ownership: an object held by [sptr]s is deleted once, when its last holder lets go of it.
    - Settings: those of the configuration never change, so that a read-only proxy forwards no
      write command.
    - Runs: a pipeline served end to end, a request retried after MOVED, a RENAME between slots.
    - Misbehaviour that the model exhibits: a loop without end and a read past the buffer in
      the parser, the offset that [BufferSet::clear] keeps, a null pointer in the statistics,
      the overflow of addresses in a stack trace, and runs that end in a crash, a use after free of a
      long connection, a leak, or a request that waits for ever ([Scenarios.retried_command_stuck],
      [Scenarios.answered_client_stuck]).

    ** How a state is reached

    [Reach.reachable] starts from [start_proxy] on a kernel with nothing open, and goes on by turns
    of [thread_turn] that return.  Between turns ([meanwhile]) the kernel may learn any new results
    of reads, writes, [accept], [socket], [connect] and the others, as long as none is given the
    descriptor -1 ([descriptors_ok]), and other threads may set the flags and globals they share.  A
    turn is given any connections of the epoll set with any events ([delivers]).  Undefined
    behaviour other than a use after free ([tolerated] in [Logic]) is left to the theorems about
    the parsers and buffers; long connections are left out of the no-use-after-free theorems
    because they are used after free ([Scenarios.subscription_used_after_free]).

    ** Bounds and fuel

    [msg_fuel] (the size of the buffer plus one, for the parser's loops) is enough for every
    stream of RESP values and their prefixes, which the theorems prove by giving results;
    [Ends] proves it enough for all bytes but those with a negative length, and [split_diverges]
    shows bytes for which no fuel is enough.  The other loops recur on the data they consume;
    [acceptor_on_events] on the script of [accept]; [Turns.turn_ends] shows that a whole turn never
    lacks fuel for another reason than a loop of the code that does not end.  Sizes are below 2^63
    where the source has [ssize_t].

    ** What is not modelled

    The texts of log messages and of [strerror] (an argument of [Trace.what]), the usage text, the
    demangler and the two calls of execinfo.h (arguments of [Trace]), the
    descriptions [str()] of connections, which only logging prints, the vendored cppformat and easylogging++ (of which only the abort of [LOG(FATAL)]
    matters); the interleaving of threads inside a turn, and their mutexes.  Durations are exact
    rationals where the source has [double].  The order in which a [std::set] of pointers is
    visited is that of the names.

    ** What could come next

    The progress of requests under fair events, for which [Waits] gives the half that the code alone
    decides: with nodes that answer and clients that read, every request of an open client is answered
    after finitely many turns, but in the two runs of [Scenarios].  The bytes a node receives, as the
    commands of its queue in order. *)

From Stdlib Require Export Ascii.
From stdpp Require Export strings numbers gmap list prelude.

#[global] Set Default Goal Selector "!".

(** ** Bytes and byte strings

    [cerb::byte] is [unsigned char] and [std::string] holds arbitrary bytes;
    both a [Buffer] and a [std::string] are a [list byte]. *)
Abbreviation byte := Ascii.ascii.
Abbreviation bytes := (list Ascii.ascii).

Definition byte_val (b : byte) : Z := Z.of_N (Ascii.N_of_ascii b).
Definition s2b (s : string) : bytes := String.list_ascii_of_string s.

Definition CR : byte := "013"%char.
Definition LF : byte := "010"%char.
Definition crlf : bytes := [CR; LF].

(** A literal such as ["*2\r\n$3\r\nGET\r\n"] is written [crlf_lines ["*2"; "$3"; "GET"]]. *)
Definition crlf_line (s : string) : bytes := s2b s ++ crlf.
Definition crlf_lines (l : list string) : bytes := concat (crlf_line <$> l).

Definition zlen {A} (l : list A) : Z := Z.of_nat (length l).
Arguments zlen : simpl never.

(** ** Machine integers *)

Definition INT_MIN : Z := - 2 ^ 31.
Definition INT_MAX : Z := 2 ^ 31 - 1.

(** Two's complement wrap-around of a signed 64-bit integer ([cerb::rint])
    and of an unsigned 32-bit integer ([cerb::slot]). *)
Definition wrap64 (z : Z) : Z := (z + 2 ^ 63) mod 2 ^ 64 - 2 ^ 63.
Definition wrapu32 (z : Z) : Z := z mod 2 ^ 32.

Definition in_int (z : Z) : Prop := (INT_MIN <= z <= INT_MAX)%Z.
Definition in_rint (z : Z) : Prop := (- 2 ^ 63 <= z < 2 ^ 63)%Z.

Lemma wrap64_id z : in_rint z -> wrap64 z = z.
Proof. unfold in_rint, wrap64. intros H. rewrite Z.mod_small; lia. Qed.

Lemma wrap64_range z : in_rint (wrap64 z).
Proof.
  unfold in_rint, wrap64.
  pose proof (Z.mod_pos_bound (z + 2 ^ 63) (2 ^ 64)). lia.
Qed.

Lemma wrapu32_id z : (0 <= z < 2 ^ 32)%Z -> wrapu32 z = z.
Proof. intros. by apply Z.mod_small. Qed.

Lemma byte_val_range b : (0 <= byte_val b < 256)%Z.
Proof.
  unfold byte_val. pose proof (Ascii.N_ascii_bounded b). lia.
Qed.

Lemma byte_val_inj a b : byte_val a = byte_val b -> a = b.
Proof.
  unfold byte_val. intros H%N2Z.inj.
  rewrite <- (Ascii.ascii_N_embedding a), <- (Ascii.ascii_N_embedding b). by f_equal.
Qed.

(** ** Outcomes and the state-and-exception monad

    A C++ expression returns a value, throws one of the exceptions of
    [except/exceptions.hpp] (or of the standard library), or has undefined
    behaviour (an iterator dereferenced outside its container, an uninitialised
    variable read).  [NoFuel] is the result of a loop of the model whose fuel ran
    out; it stands for "not finished yet" and never for a result of the code. *)
Inductive exn : Type :=
  | MessageInterrupted
  | BadRedisMessage (what : bytes)
  | SystemError (what : bytes) (errcode : Z)
  | UnknownHost (host : bytes)
  | ConnectionHungUp
  | IOError (what : bytes) (errcode : Z)
  | SocketAcceptError (errcode : Z)
  | ConnectionRefused (host : bytes) (port errcode : Z)
  | RuntimeError (what : bytes)
  | BadAlloc.                (* std::bad_alloc *)

#[export] Instance exn_eq_dec : EqDecision exn.
Proof. solve_decision. Defined.

Inductive pointee : Type := ACommand | AGroup | AClient | AServer | ALongConnection | AnUpdater.

Inductive ub : Type :=
  | OutOfRange               (* an iterator or an index outside its container, an uninitialised variable *)
  | NullPointer
  | Overflow                 (* of a signed integer *)
  | Dangling (p : pointee).  (* a pointer to an object that was deleted *)

Inductive outcome (A : Type) : Type :=
  | Ret (a : A)
  | Throw (e : exn)
  | UB (k : ub)
  | NoFuel.
Arguments Ret {A} _.
Arguments Throw {A} _.
Arguments UB {A} _.
Arguments NoFuel {A}.
Abbreviation Undefined := (UB OutOfRange).

#[export] Instance outcome_ret : MRet outcome := @Ret.
#[export] Instance outcome_bind : MBind outcome := fun A B f c =>
  match c with
  | Ret a => f a
  | Throw e => Throw e
  | UB k => UB k
  | NoFuel => NoFuel
  end.

(** Stateful code that may throw: the state reached at the throw is kept, as the
    mutations made before a C++ [throw] are. *)
Definition M (S A : Type) : Type := S -> outcome A * S.

#[export] Instance M_ret S : MRet (M S) := fun A a s => (Ret a, s).
#[export] Instance M_bind S : MBind (M S) := fun A B f c s =>
  match c s with
  | (Ret a, s') => f a s'
  | (Throw e, s') => (Throw e, s')
  | (UB k, s') => (UB k, s')
  | (NoFuel, s') => (NoFuel, s')
  end.

Definition lift {S A} (o : outcome A) : M S A := fun s => (o, s).
Definition throw {S A} (e : exn) : M S A := fun s => (Throw e, s).
Definition undefined {S A} : M S A := fun s => (Undefined, s).
Definition null_pointer {S A} : M S A := fun s => (UB NullPointer, s).
Definition no_fuel {S A} : M S A := fun s => (NoFuel, s).
Definition gets {S A} (f : S -> A) : M S A := fun s => (Ret (f s), s).
Definition modify {S} (f : S -> S) : M S unit := fun s => (Ret tt, f s).

(** [try ... catch (E&) { h }]: the handler runs in the state of the throw. *)
Definition try_catch {S A} (c : M S A) (h : exn -> option (M S A)) : M S A := fun s =>
  match c s with
  | (Throw e, s') => match h e with Some k => k s' | None => (Throw e, s') end
  | r => r
  end.

(** [for (auto x: l) body(x)] *)
Fixpoint for_each {S A} (l : list A) (body : A -> M S unit) : M S unit :=
  match l with
  | [] => mret tt
  | x :: l' => body x ;; for_each l' body
  end.

Definition when {S} (b : bool) (c : M S unit) : M S unit := if b then c else mret tt.

Section MonadLaws.
Context {S : Type}.

Lemma bind_assoc {A B C} (c : M S A) (f : A -> M S B) (g : B -> M S C) s :
  ((c ≫= f) ≫= g) s = (c ≫= (fun a => f a ≫= g)) s.
Proof. unfold mbind, M_bind. destruct (c s) as [[] ?]; done. Qed.

Lemma bind_ext {A B} (c d : M S A) (f g : A -> M S B) s :
  c s = d s -> (forall a s', f a s' = g a s') -> (c ≫= f) s = (d ≫= g) s.
Proof. intros H K. unfold mbind, M_bind. rewrite H. by destruct (d s) as [[] ?]. Qed.

Lemma bind_ext_Ret {A B} (c d : M S A) (f g : A -> M S B) s :
  c s = d s -> (forall a s', d s = (Ret a, s') -> f a s' = g a s') ->
  (c ≫= f) s = (d ≫= g) s.
Proof. intros H K. unfold mbind, M_bind. rewrite H. destruct (d s) as [[] ?]; auto. Qed.

Lemma bind_Ret_inv {A B} (c : M S A) (f : A -> M S B) s b s' :
  (c ≫= f) s = (Ret b, s') -> exists a s1, c s = (Ret a, s1) /\ f a s1 = (Ret b, s').
Proof. unfold mbind, M_bind. destruct (c s) as [[] ?]; naive_solver. Qed.

End MonadLaws.

(** ** Record updates: [r <| f := v |>] *)
Class Settable (R : Type) := settable_eta : R -> R.
Class Setter {R T : Type} (proj : R -> T) := set_field : (T -> T) -> R -> R.
Arguments set_field {R T} proj {_} / _ _.

Ltac build_setter :=
  lazymatch goal with
  | |- @Setter ?R ?T ?proj =>
    let eta := constr:(_ : Settable R) in
    let k := eval cbv delta [settable_eta] in eta in
    let k := eval hnf in k in
    exact (fun (f : T -> T) (x : R) => ltac:(
      let body := eval cbv beta in (k x) in
      let pat := eval pattern (proj x) in body in
      lazymatch pat with
      | ?g _ => let r := eval cbv beta in (g (f (proj x))) in exact r
      end))
  end.
#[export] Hint Extern 1 (Setter _) => build_setter : typeclass_instances.

Declare Scope record_set.
Open Scope record_set.
Notation "x <| f := v |>" := (set_field f (fun _ => v) x)
  (at level 1, f at level 0, left associativity) : record_set.
Notation "x <| f ::= g |>" := (set_field f g x)
  (at level 1, f at level 0, left associativity) : record_set.

(** ** Lengths *)
Create Rewrite HintDb zlen.

Lemma zlen_nil {A} : zlen (@nil A) = 0%Z.
Proof. done. Qed.

Lemma zlen_cons {A} (x : A) l : zlen (x :: l) = (1 + zlen l)%Z.
Proof. unfold zlen. rewrite length_cons. lia. Qed.

Lemma zlen_app {A} (l1 l2 : list A) : zlen (l1 ++ l2) = (zlen l1 + zlen l2)%Z.
Proof. unfold zlen. rewrite length_app. lia. Qed.

Lemma zlen_nonneg {A} (l : list A) : (0 <= zlen l)%Z.
Proof. unfold zlen. lia. Qed.

Lemma zlen_0_inv {A} (l : list A) : zlen l = 0%Z -> l = [].
Proof. unfold zlen. intros. apply length_zero_iff_nil. lia. Qed.

Lemma zlen_crlf : zlen crlf = 2%Z.
Proof. done. Qed.

#[export] Hint Rewrite @zlen_nil @zlen_cons @zlen_app zlen_crlf : zlen.

(** Arithmetic on lengths: push [zlen] to the leaves, recall that it is
    nonnegative, and call [lia]. *)
Ltac pose_zlen_nonneg :=
  repeat match goal with
  | |- context [zlen ?l] =>
    lazymatch goal with
    | _ : (0 <= zlen l)%Z |- _ => fail
    | _ => pose proof (zlen_nonneg l)
    end
  | _ : context [zlen ?l] |- _ =>
    lazymatch goal with
    | _ : (0 <= zlen l)%Z |- _ => fail
    | _ => pose proof (zlen_nonneg l)
    end
  end.
Ltac zlen_lia :=
  subst; autorewrite with zlen in *; pose_zlen_nonneg; lia.

Lemma bind_lift_Ret {S A B} (a : A) (k : A -> M S B) s : (lift (Ret a) ≫= k) s = k a s.
Proof. done. Qed.

Lemma bind_Ret {S A B} (c : M S A) a s' (k : A -> M S B) s :
  c s = (Ret a, s') -> (c ≫= k) s = k a s'.
Proof. intros H. unfold mbind, M_bind. by rewrite H. Qed.

(** Evaluate comparisons of known bytes. *)
Ltac eval_eqb :=
  repeat match goal with
  | |- context [Ascii.eqb ?a ?b] =>
    let r := eval vm_compute in (Ascii.eqb a b) in
    lazymatch r with
    | true => change (Ascii.eqb a b) with true
    | false => change (Ascii.eqb a b) with false
    end
  end; cbv beta iota zeta.

(** Concatenations, associated to the right. *)
Ltac app_norm := repeat progress (cbn [app]; rewrite <- ?app_assoc, ?app_nil_r).
Ltac app_eq := subst; app_norm; done.

(** ** Lists *)

Lemma filter_ext_in {A} (P Q : A -> Prop) `{!forall x, Decision (P x), !forall x, Decision (Q x)} (l : list A) :
  (forall x, x ∈ l -> P x <-> Q x) -> filter P l = filter Q l.
Proof.
  intros Hl. induction l as [|x l IH]; [done|]. rewrite !filter_cons, IH by (intros; apply Hl; by right).
  specialize (Hl x ltac:(left)). repeat case_decide; tauto.
Qed.

Lemma filter_all {A} (P : A -> Prop) `{!forall x, Decision (P x)} (l : list A) :
  (forall x, x ∈ l -> P x) -> filter P l = l.
Proof.
  induction l as [|x l IH]; intros Hl; [done|]. rewrite filter_cons, decide_True by (apply Hl; left).
  by rewrite IH by (intros; apply Hl; by right).
Qed.
