(* ===== verification/Strings.v ===== *)
(** * String utilities: [utils/string.h], [utils/string.cpp]

    [strnieq], [stristartswith], [atoi], [str], [split_str] and [join], with the
    round trips between printing and parsing integers and between joining and
    splitting strings. *)
From S2P Require Import Prelude.
#[local] Open Scope Z_scope.

(** [std::toupper] in the C locale. *)
Definition toupper (b : byte) : byte :=
  if (97 <=? byte_val b) && (byte_val b <=? 122)
  then Ascii.ascii_of_N (Z.to_N (byte_val b - 32))
  else b.

Fixpoint strnieq (lhs rhs : bytes) (n : nat) {struct n} : bool :=
  match n with
  | O => true
  | S n' =>
    match lhs, rhs with
    | [], [] => true
    | [], _ :: _ | _ :: _, [] => false
    | a :: lhs', b :: rhs' =>
      if Ascii.eqb (toupper a) (toupper b) then strnieq lhs' rhs' n' else false
    end
  end.

Definition stristartswith (s pre : bytes) : bool := strnieq s pre (length pre).

(** [std::isspace] in the C locale, as [std::ws] uses it. *)
Definition isspace (b : byte) : bool :=
  (byte_val b =? 32) || ((9 <=? byte_val b) && (byte_val b <=? 13)).

Fixpoint skip_ws (s : bytes) : bytes :=
  match s with
  | [] => []
  | b :: s' => if isspace b then skip_ws s' else s
  end.

Definition is_digit (b : byte) : bool := (48 <=? byte_val b) && (byte_val b <=? 57).
Definition digit_val (b : byte) : Z := byte_val b - 48.

(** The longest run of digits at the front, and what follows it. *)
Fixpoint span_digits (s : bytes) : bytes * bytes :=
  match s with
  | [] => ([], [])
  | b :: s' =>
    if is_digit b then let '(ds, r) := span_digits s' in (b :: ds, r) else ([], s)
  end.

Definition dec_value (acc : Z) (ds : bytes) : Z :=
  foldl (fun a d => a * 10 + digit_val d) acc ds.

(** An optional sign: [(negative, rest)]. *)
Definition span_sign (s : bytes) : bool * bytes :=
  match s with
  | b :: s' =>
    if Ascii.eqb b "-"%char then (true, s')
    else if Ascii.eqb b "+"%char then (false, s') else (false, s)
  | [] => (false, [])
  end.

Definition clamp_int (z : Z) : Z := Z.max INT_MIN (Z.min INT_MAX z).

Definition bad_integer (a : bytes) : exn :=
  BadRedisMessage (s2b "Invalid integer literal: " ++ a).

(** [util::atoi]: [ss >> std::ws >> r >> std::ws], then an error unless the stream
    is at its end.  When nothing is left after the first [std::ws] the stream is
    already at its end, the extraction of [r] does not happen and the
    uninitialised [r] is returned.  An extraction that fails (no digit: [r = 0];
    out of range: [r] saturated) leaves the stream failed, so the second [std::ws]
    skips nothing. *)
Definition atoi (a : bytes) : outcome Z :=
  match skip_ws a with
  | [] => Undefined
  | s =>
    let '(neg, s1) := span_sign s in
    let '(ds, rest) := span_digits s1 in
    let v := if neg then - dec_value 0 ds else dec_value 0 ds in
    let failed := bool_decide (ds = []) || negb (clamp_int v =? v) in
    let at_end := if failed then rest else skip_ws rest in
    match at_end with
    | [] => Ret (clamp_int v)
    | _ :: _ => Throw (bad_integer a)
    end
  end.

(** [util::str] of an integer: the decimal notation an output stream prints. *)
Definition dec_digit (d : Z) : byte := Ascii.ascii_of_N (Z.to_N (48 + d)).

Fixpoint print_loop (fuel : nat) (n : Z) : bytes :=
  match fuel with
  | O => []
  | S f =>
    if n / 10 =? 0 then [dec_digit (n mod 10)]
    else print_loop f (n / 10) ++ [dec_digit (n mod 10)]
  end.

Definition print_nat (n : Z) : bytes := print_loop (S (Z.to_nat (Z.log2 n))) n.

Definition str (i : Z) : bytes :=
  if i <? 0 then "-"%char :: print_nat (- i) else print_nat i.

Definition str_bool (b : bool) : bytes := s2b (if b then "true" else "false").

(** [util::split_str]: [cur] is [str[lastPos..pos)]. *)
Definition is_delim (delimiters : bytes) (b : byte) : bool := bool_decide (b ∈ delimiters).

Definition push_part (trimEmpty : bool) (part : bytes) (r : list bytes) : list bytes :=
  if negb (bool_decide (part = [])) || negb trimEmpty then part :: r else r.

Fixpoint split_loop (delimiters : bytes) (trimEmpty : bool) (cur s : bytes) : list bytes :=
  match s with
  | [] => push_part trimEmpty cur []
  | b :: s' =>
    if is_delim delimiters b
    then push_part trimEmpty cur (split_loop delimiters trimEmpty [] s')
    else split_loop delimiters trimEmpty (cur ++ [b]) s'
  end.

Definition split_str (s delimiters : bytes) (trimEmpty : bool) : list bytes :=
  split_loop delimiters trimEmpty [] s.

Definition join (sep : bytes) (values : list bytes) : bytes :=
  match values with
  | [] => []
  | v :: vs => foldl (fun result w => result ++ sep ++ w) v vs
  end.

(** ** Lemmas: digits and decimal notation *)

Lemma byte_val_of_N n : 0 <= n < 256 -> byte_val (Ascii.ascii_of_N (Z.to_N n)) = n.
Proof. intros H. unfold byte_val. rewrite Ascii.N_ascii_embedding; lia. Qed.

Lemma dec_digit_val d : 0 <= d < 10 -> byte_val (dec_digit d) = 48 + d.
Proof. intros. unfold dec_digit. apply byte_val_of_N. lia. Qed.

Lemma digit_val_dec_digit d : 0 <= d < 10 -> digit_val (dec_digit d) = d.
Proof. intros. unfold digit_val. rewrite dec_digit_val; lia. Qed.

Lemma is_digit_dec_digit d : 0 <= d < 10 -> is_digit (dec_digit d) = true.
Proof. intros. unfold is_digit. rewrite dec_digit_val; lia. Qed.

Lemma is_digit_range b : is_digit b = true <-> 48 <= byte_val b <= 57.
Proof. unfold is_digit. lia. Qed.

Lemma mod10_range n : 0 <= n mod 10 < 10.
Proof. apply Z.mod_pos_bound. lia. Qed.
#[export] Hint Resolve mod10_range : core.

Lemma dec_value_app acc l1 l2 : dec_value acc (l1 ++ l2) = dec_value (dec_value acc l1) l2.
Proof. apply foldl_app. Qed.

Lemma print_loop_value fuel n :
  0 <= n < 10 ^ Z.of_nat fuel -> dec_value 0 (print_loop fuel n) = n.
Proof.
  revert n. induction fuel as [|f IH]; intros n Hn; cbn [print_loop].
  { cbn in *. lia. }
  pose proof (Z.div_mod n 10). destruct (Z.eqb_spec (n / 10) 0).
  - cbn. rewrite digit_val_dec_digit by done. lia.
  - rewrite dec_value_app, IH.
    + cbn. rewrite digit_val_dec_digit by done. lia.
    + rewrite Nat2Z.inj_succ, Z.pow_succ_r in Hn by lia.
      split; [by apply Z.div_pos; lia | apply Z.div_lt_upper_bound; lia].
Qed.

Lemma print_loop_digits fuel n : Forall (fun b => is_digit b = true) (print_loop fuel n).
Proof.
  revert n. induction fuel as [|f IH]; intros n; cbn [print_loop]; [done|].
  destruct (n / 10 =? 0); rewrite ?Forall_app, Forall_singleton;
    auto using is_digit_dec_digit.
Qed.

Lemma print_fuel_enough n : 0 <= n -> 0 <= n < 10 ^ Z.of_nat (S (Z.to_nat (Z.log2 n))).
Proof.
  intros Hn. split; [done|]. rewrite Nat2Z.inj_succ, Z2Nat.id by apply Z.log2_nonneg.
  destruct (decide (n = 0)) as [->|]; [done|].
  pose proof (Z.log2_spec n). pose proof (Z.pow_le_mono_l 2 10 (Z.succ (Z.log2 n))). lia.
Qed.

Lemma print_nat_value n : 0 <= n -> dec_value 0 (print_nat n) = n.
Proof. intros. apply print_loop_value. by apply print_fuel_enough. Qed.

Lemma print_nat_digits n : Forall (fun b => is_digit b = true) (print_nat n).
Proof. apply print_loop_digits. Qed.

Lemma print_nat_ne n : print_nat n <> [].
Proof. unfold print_nat. cbn [print_loop]. case_match; [done|]. by destruct (print_loop _ _). Qed.

Lemma is_digit_not_space b : is_digit b = true -> isspace b = false.
Proof. unfold is_digit, isspace. lia. Qed.

Lemma is_digit_not_char b c : is_digit b = true -> is_digit c = false -> Ascii.eqb b c = false.
Proof. intros H H'. apply Ascii.eqb_neq. by intros ->; rewrite H in H'. Qed.

Lemma span_digits_all ds rest :
  Forall (fun b => is_digit b = true) ds ->
  match rest with [] => True | b :: _ => is_digit b = false end ->
  span_digits (ds ++ rest) = (ds, rest).
Proof.
  intros Hd Hr. induction Hd as [|b ds Hb Hd IH]; cbn.
  - destruct rest as [|c rest]; [done|]. cbn. by rewrite Hr.
  - by rewrite Hb, IH.
Qed.

Lemma span_digits_only ds :
  Forall (fun b => is_digit b = true) ds -> span_digits ds = (ds, []).
Proof. intros H. rewrite <- (app_nil_r ds) at 1. by apply span_digits_all. Qed.

(** ** Round trip of integers *)

Lemma atoi_digits neg ds :
  Forall (fun b => is_digit b = true) ds -> ds <> [] ->
  let v := if neg : bool then - dec_value 0 ds else dec_value 0 ds in
  in_int v ->
  atoi ((if neg then ["-"%char] else []) ++ ds) = Ret v.
Proof.
  intros Hd Hne v Hv. assert (Hc : clamp_int v = v).
  { unfold clamp_int, in_int in *. lia. }
  destruct ds as [|d ds]; [done|]. pose proof (Forall_inv Hd) as Hd1.
  unfold atoi. destruct neg; cbn [app].
  - change (skip_ws ("-"%char :: d :: ds)) with ("-"%char :: d :: ds).
    cbv beta iota zeta.
    change (span_sign ("-"%char :: d :: ds)) with (true, d :: ds). cbv beta iota zeta.
    rewrite span_digits_only by done. fold v. rewrite Hc, Z.eqb_refl.
    by rewrite bool_decide_false.
  - cbn [skip_ws]. rewrite (is_digit_not_space d) by done. unfold span_sign.
    rewrite !is_digit_not_char by done. rewrite span_digits_only by done.
    fold v. rewrite Hc, Z.eqb_refl. by rewrite bool_decide_false.
Qed.

Lemma atoi_str i : in_int i -> atoi (str i) = Ret i.
Proof.
  intros Hi. unfold str. destruct (Z.ltb_spec i 0).
  - pose proof (atoi_digits true (print_nat (- i))) as H1. cbn zeta in H1.
    rewrite print_nat_value in H1 by lia. rewrite Z.opp_involutive in H1.
    by apply H1; [apply print_nat_digits | apply print_nat_ne |].
  - pose proof (atoi_digits false (print_nat i)) as H1. cbn zeta in H1.
    rewrite print_nat_value in H1 by lia.
    by apply H1; [apply print_nat_digits | apply print_nat_ne |].
Qed.

(** ** Prefix tests *)

Lemma strnieq_prefix s pre :
  strnieq s pre (length pre) = true <->
  exists p t, s = p ++ t /\ toupper <$> p = toupper <$> pre.
Proof.
  revert s. induction pre as [|b pre IH]; intros s; cbn.
  { split; [intros _; by exists [], s | done]. }
  destruct s as [|a s].
  { split; [done|]. intros ([|? ?] & t & Hs & Hp); cbn in *; simplify_eq. }
  destruct (Ascii.eqb_spec (toupper a) (toupper b)) as [E|E].
  - rewrite IH. split.
    + intros (p & t & -> & Hp). exists (a :: p), t. cbn. by rewrite E, Hp.
    + intros ([|c p] & t & Hs & Hp); [done|]. cbn in *. simplify_eq. by exists p, t.
  - split; [done|]. intros ([|c p] & t & Hs & Hp); [done|]. cbn in *. simplify_eq.
Qed.

Lemma stristartswith_spec s pre :
  stristartswith s pre = true <->
  exists p t, s = p ++ t /\ toupper <$> p = toupper <$> pre.
Proof. apply strnieq_prefix. Qed.

(** ** Splitting and joining *)

Lemma push_part_keep part r : push_part false part r = part :: r.
Proof. unfold push_part. by rewrite orb_true_r. Qed.

Lemma split_loop_trim d cur s :
  split_loop d true cur s = filter (.≠ []) (split_loop d false cur s).
Proof.
  revert cur. induction s as [|b s IH]; intros cur; cbn [split_loop].
  { unfold push_part. cbn. case_bool_decide; cbn; by case_decide. }
  destruct (is_delim d b); [|apply IH]. rewrite IH. unfold push_part. cbn.
  rewrite orb_true_r, orb_false_r. rewrite filter_cons.
  by case_bool_decide; case_decide.
Qed.

Lemma split_loop_part d t cur v c s :
  Forall (fun b => is_delim d b = false) v -> is_delim d c = true ->
  split_loop d t cur (v ++ c :: s) = push_part t (cur ++ v) (split_loop d t [] s).
Proof.
  intros Hv Hc. revert cur. induction Hv as [|b v Hb Hv IH]; intros cur; cbn.
  - by rewrite Hc, app_nil_r.
  - rewrite Hb, IH. by rewrite <- app_assoc.
Qed.

Lemma split_loop_last d t cur v :
  Forall (fun b => is_delim d b = false) v ->
  split_loop d t cur v = push_part t (cur ++ v) [].
Proof.
  intros Hv. revert cur. induction Hv as [|b v Hb Hv IH]; intros cur; cbn.
  - by rewrite app_nil_r.
  - rewrite Hb, IH. by rewrite <- app_assoc.
Qed.

Lemma join_foldl_app (sep a x : bytes) (vs : list bytes) :
  foldl (fun r w => r ++ sep ++ w) (a ++ x) vs = a ++ foldl (fun r w => r ++ sep ++ w) x vs.
Proof.
  revert x. induction vs as [|v vs IH]; intros x; cbn; [done|].
  by rewrite <- app_assoc, IH.
Qed.

Lemma join_cons sep v w vs : join sep (v :: w :: vs) = v ++ sep ++ join sep (w :: vs).
Proof. cbn. by rewrite app_assoc, join_foldl_app, <- app_assoc. Qed.

Lemma split_loop_ne d cur s : split_loop d false cur s <> [].
Proof.
  revert cur. induction s as [|b s IH]; intros cur; cbn [split_loop]; rewrite ?push_part_keep.
  - done.
  - by case_match.
Qed.

Lemma join_split_loop c cur s :
  join [c] (split_loop [c] false cur s) = cur ++ s.
Proof.
  revert cur. induction s as [|b s IH]; intros cur; cbn [split_loop].
  { rewrite push_part_keep. cbn. by rewrite app_nil_r. }
  unfold is_delim. case_bool_decide as Hb.
  - apply list_elem_of_singleton in Hb as ->. rewrite push_part_keep.
    pose proof (split_loop_ne [c] [] s). specialize (IH []).
    destruct (split_loop [c] false [] s) as [|w ws]; [done|].
    by rewrite join_cons, IH.
  - rewrite IH. by rewrite <- app_assoc.
Qed.

Lemma join_split c s : join [c] (split_str s [c] false) = s.
Proof. apply join_split_loop. Qed.

Lemma split_join d c vs :
  vs <> [] -> is_delim d c = true ->
  Forall (Forall (fun b => is_delim d b = false)) vs ->
  split_str (join [c] vs) d false = vs.
Proof.
  intros Hne Hc Hv. unfold split_str.
  destruct vs as [|v vs]; [done|]. clear Hne.
  revert v Hv. induction vs as [|w vs IH]; intros v [H1 H2]%Forall_cons_1.
  - change (join [c] [v]) with v. by rewrite split_loop_last, push_part_keep.
  - rewrite join_cons. cbn [app]. rewrite split_loop_part by done.
    by rewrite IH, push_part_keep.
Qed.
