(* ===== verification/OrderedSet.v ===== *)
(** * Ordered sets: the part of [std::set] the sources use

    A [std::set] whose iteration order matters is a list sorted by the set's
    [operator<]; [set_insert] keeps an equivalent element that is already there. *)
From Stdlib Require Import Sorted.
From S2P Require Import Prelude.

(** A boolean strict total order, as [operator<] must be for [std::set]. *)
Class StrictOrderB {A : Type} (ltb : A -> A -> bool) : Prop := {
  ltb_irrefl x : ltb x x = false;
  ltb_trans x y z : ltb x y = true -> ltb y z = true -> ltb x z = true;
  ltb_total x y : ltb x y = false -> ltb y x = false -> x = y
}.

Section Sets.
Context {A : Type} (ltb : A -> A -> bool).

Fixpoint set_insert (x : A) (l : list A) : list A :=
  match l with
  | [] => [x]
  | y :: l' =>
    if ltb x y then x :: l
    else if ltb y x then y :: set_insert x l' else l
  end.

Definition set_of (l : list A) : list A := foldl (fun s x => set_insert x s) [] l.

Definition set_sorted (l : list A) : Prop := StronglySorted (fun x y => ltb x y = true) l.

Context `{!StrictOrderB ltb}.

Lemma elem_of_set_insert x y l : y ∈ set_insert x l <-> y = x \/ y ∈ l.
Proof.
  induction l as [|z l IH]; cbn; [set_solver|].
  destruct (ltb x z) eqn:Hxz; [set_solver|].
  destruct (ltb z x) eqn:Hzx; [set_solver|].
  rewrite (ltb_total x z) by done. set_solver.
Qed.

Lemma set_insert_sorted x l : set_sorted l -> set_sorted (set_insert x l).
Proof.
  unfold set_sorted. induction 1 as [|z l Hl IH Hz]; cbn; [by repeat constructor|].
  destruct (ltb x z) eqn:Hxz.
  { repeat constructor; try done. eapply Forall_impl; [exact Hz|].
    cbn. intros. by eapply ltb_trans. }
  destruct (ltb z x) eqn:Hzx; [|by constructor].
  constructor; [done|]. apply Forall_forall. intros y [->|Hy]%elem_of_set_insert; [done|].
  rewrite Forall_forall in Hz. auto.
Qed.

Lemma elem_of_set_of y l : y ∈ set_of l <-> y ∈ l.
Proof.
  unfold set_of. enough (forall s, y ∈ foldl (fun s x => set_insert x s) s l <-> y ∈ s \/ y ∈ l)
    as H by (rewrite H; set_solver).
  induction l as [|x l IH]; intros s; cbn; [set_solver|].
  rewrite IH, elem_of_set_insert. set_solver.
Qed.

Lemma set_of_sorted l : set_sorted (set_of l).
Proof.
  unfold set_of. enough (forall s, set_sorted s -> set_sorted (foldl (fun s x => set_insert x s) s l))
    as H by (apply H; constructor).
  induction l as [|x l IH]; intros s Hs; cbn; [done|]. auto using set_insert_sorted.
Qed.

(** A sorted list is determined by its elements: the representation is canonical. *)
Lemma set_sorted_ext l1 l2 :
  set_sorted l1 -> set_sorted l2 -> (forall x, x ∈ l1 <-> x ∈ l2) -> l1 = l2.
Proof.
  unfold set_sorted. revert l2. induction l1 as [|x l1 IH]; intros l2 H1 H2 He.
  { destruct l2 as [|y l2]; [done|]. specialize (He y). set_solver. }
  destruct l2 as [|y l2]; [specialize (He x); set_solver|].
  apply StronglySorted_inv in H1 as [H1 F1]. apply StronglySorted_inv in H2 as [H2 F2].
  rewrite Forall_forall in F1, F2.
  assert (Hlt : forall a b, ltb a b = true -> ltb b a = true -> False).
  { intros a b Ha Hb. pose proof (ltb_trans _ _ _ Ha Hb). by rewrite ltb_irrefl in *. }
  assert (x = y) as <-.
  { pose proof (He x) as Hx. pose proof (He y) as Hy. rewrite !elem_of_cons in Hx, Hy.
    destruct Hx as [[|Hx] _]; [by left|done|]. destruct Hy as [_ [|Hy]]; [by left|done|].
    exfalso. eauto. }
  f_equal. apply IH; [done..|]. intros z. specialize (He z).
  rewrite !elem_of_cons in He.
  assert (Hz1 : z ∈ l1 -> z <> x) by (intros Hz ->; specialize (F1 _ Hz); by rewrite ltb_irrefl in F1).
  assert (Hz2 : z ∈ l2 -> z <> x) by (intros Hz ->; specialize (F2 _ Hz); by rewrite ltb_irrefl in F2).
  naive_solver.
Qed.
End Sets.

(** Lexicographic order on pairs, [std::pair]'s [operator<]. *)
Definition pair_ltb (p q : Z * Z) : bool :=
  (p.1 <? q.1)%Z || ((p.1 =? q.1)%Z && (p.2 <? q.2)%Z).

#[export] Instance pair_ltb_order : StrictOrderB pair_ltb.
Proof.
  split; unfold pair_ltb.
  - intros [a b]; cbn; lia.
  - intros [a b] [c d] [e f]; cbn; lia.
  - intros [a b] [c d]; cbn; intros. f_equal; lia.
Qed.

(** [std::string]'s [operator<]: bytes compared as [unsigned char]. *)
Fixpoint bytes_ltb (s t : bytes) : bool :=
  match s, t with
  | [], [] => false
  | [], _ :: _ => true
  | _ :: _, [] => false
  | a :: s', b :: t' =>
    (byte_val a <? byte_val b)%Z || ((byte_val a =? byte_val b)%Z && bytes_ltb s' t')
  end.

#[export] Instance bytes_ltb_order : StrictOrderB bytes_ltb.
Proof.
  split.
  - induction x as [|a x IH]; cbn; [done|]. rewrite IH. lia.
  - induction x as [|a x IH]; intros [|b y] [|c z]; cbn; try done.
    rewrite !orb_true_iff, !andb_true_iff, !Z.eqb_eq, !Z.ltb_lt.
    intros [?|[? ?]] [?|[? ?]]; [left; lia..|right]. split; [lia|]. by eapply IH.
  - induction x as [|a x IH]; intros [|b y]; cbn; try done.
    rewrite !orb_false_iff, !andb_false_iff, !Z.eqb_neq, !Z.ltb_ge. intros [? ?] [? ?].
    assert (a = b) as -> by (apply byte_val_inj; lia).
    f_equal. apply IH; naive_solver.
Qed.
