(* ===== verification/Address.v ===== *)
(** * Addresses: [utils/address.hpp], [utils/address.cpp]

    [util::Address], its order (the key order of every [std::set<Address>] and
    [std::map<Address, _>]), its text form and the parsers of it. *)
From S2P Require Import Prelude Strings OrderedSet.
#[local] Open Scope Z_scope.

Record Address : Type := mkAddress { host : bytes; port : Z }.
#[export] Instance eta_Address : Settable Address := fun x => mkAddress (host x) (port x).

#[export] Instance Address_eq_dec : EqDecision Address.
Proof. solve_decision. Defined.

#[export] Instance Address_countable : Countable Address.
Proof.
  apply (inj_countable' (fun a => (host a, port a)) (fun p => mkAddress p.1 p.2)).
  by intros [].
Defined.

(** [operator==] and [operator<] *)
Definition addr_eqb (a b : Address) : bool :=
  bool_decide (host a = host b) && (port a =? port b).

Definition addr_ltb (a b : Address) : bool :=
  if bool_decide (host a = host b) then port a <? port b else bytes_ltb (host a) (host b).

Definition addr_str (a : Address) : bytes := host a ++ ":"%char :: str (port a).

(** [std::string(s.data())]: the text up to the first NUL. *)
Fixpoint c_str (s : bytes) : bytes :=
  match s with
  | [] => []
  | b :: s' => if Ascii.eqb b "000"%char then [] else b :: c_str s'
  end.

Definition from_host_port (addr : bytes) : outcome Address :=
  match split_str addr (s2b ":") false with
  | [h; p] =>
    match split_str p (s2b "@") false with
    | port0 :: _ => n ← atoi (c_str port0); Ret (mkAddress h n)
    | [] => Undefined
    end
  | _ => Throw (RuntimeError (s2b "Invalid address: " ++ addr))
  end.

Fixpoint insert_hosts_ports (res : list Address) (l : list bytes) : outcome (list Address) :=
  match l with
  | [] => Ret res
  | s :: l' =>
    if 0 <? zlen s
    then a ← from_host_port s; insert_hosts_ports (set_insert addr_ltb a res) l'
    else insert_hosts_ports res l'
  end.

Definition from_hosts_ports (addrs : bytes) : outcome (list Address) :=
  res ← insert_hosts_ports [] (split_str addrs (s2b ",") false);
  match res with
  | [] => Throw (RuntimeError (s2b "remote address is empty."))
  | _ :: _ => Ret res
  end.

(** ** The order *)

Lemma addr_eqb_eq a b : addr_eqb a b = true <-> a = b.
Proof.
  unfold addr_eqb. rewrite andb_true_iff, bool_decide_eq_true, Z.eqb_eq.
  destruct a, b; naive_solver.
Qed.

#[export] Instance addr_ltb_order : StrictOrderB addr_ltb.
Proof.
  split; unfold addr_ltb.
  - intros x. rewrite bool_decide_true by done. lia.
  - intros [h p] [h' p'] [h'' p'']; cbn.
    repeat case_bool_decide; subst; try done; try lia; intros L1 L2.
    + pose proof (ltb_trans _ _ _ L1 L2) as L3. by rewrite ltb_irrefl in L3.
    + by eapply ltb_trans.
  - intros [h p] [h' p']; cbn. repeat case_bool_decide; try congruence; intros L1 L2.
    + f_equal; [done|lia].
    + by pose proof (ltb_total h h' L1 L2).
Qed.

(** ** Round trips *)

Definition plain_host (h : bytes) : Prop := (":"%char ∉ h) /\ (","%char ∉ h).

(** What [str] prints holds no separator and no NUL. *)
Lemma str_chars (c : byte) i :
  is_digit c = false -> c <> "-"%char -> c ∉ str i.
Proof.
  intros Hc Hm. assert (forall n, c ∉ print_nat n) as Hn.
  { intros n Hin. pose proof (print_nat_digits n) as Hd. rewrite Forall_forall in Hd.
    specialize (Hd _ Hin). congruence. }
  unfold str. destruct (i <? 0); [|done]. by rewrite not_elem_of_cons.
Qed.

Lemma is_delim_singleton c (s : bytes) :
  c ∉ s -> Forall (fun b => is_delim [c] b = false) s.
Proof.
  intros Hc. apply Forall_forall. intros b Hb. apply bool_decide_false.
  rewrite list_elem_of_singleton. by intros ->.
Qed.

Lemma is_delim_self c : is_delim [c] c = true.
Proof. apply bool_decide_true. by left. Qed.

Lemma split_str_plain c t (s : bytes) : c ∉ s -> split_str s [c] t = push_part t s [].
Proof. intros H. unfold split_str. by rewrite split_loop_last by by apply is_delim_singleton. Qed.

Lemma c_str_plain (s : bytes) : "000"%char ∉ s -> c_str s = s.
Proof.
  induction s as [|b s IH]; [done|]. rewrite not_elem_of_cons. intros [Hb Hs]. cbn.
  destruct (Ascii.eqb_spec b "000"%char); [congruence|]. by rewrite IH.
Qed.

Lemma from_host_port_str a :
  ":"%char ∉ host a -> in_int (port a) -> from_host_port (addr_str a) = Ret a.
Proof.
  intros Hh Hp. unfold from_host_port, addr_str, split_str.
  change (s2b ":") with [":"%char]. change (s2b "@") with ["@"%char].
  rewrite split_loop_part by (by apply is_delim_singleton || by apply is_delim_self).
  rewrite push_part_keep. fold (split_str (str (port a)) [":"%char] false).
  rewrite split_str_plain by by apply str_chars. rewrite push_part_keep.
  fold (split_str (str (port a)) ["@"%char] false).
  rewrite split_str_plain by by apply str_chars. rewrite push_part_keep.
  rewrite c_str_plain by by apply str_chars. cbn. rewrite atoi_str by done. by destruct a.
Qed.

Lemma insert_hosts_ports_str res l :
  Forall (fun a => plain_host (host a) /\ in_int (port a)) l ->
  insert_hosts_ports res (addr_str <$> l) =
  Ret (foldl (fun s a => set_insert addr_ltb a s) res l).
Proof.
  intros H. revert res. induction H as [|a l [[Ha _] Hp] Hl IH]; intros res; [done|].
  cbn. replace (0 <? zlen (addr_str a)) with true.
  - rewrite from_host_port_str by done. apply IH.
  - unfold zlen, addr_str. rewrite length_app, length_cons.
    symmetry. apply Z.ltb_lt. lia.
Qed.

Lemma addr_str_no_comma a : plain_host (host a) -> ","%char ∉ addr_str a.
Proof.
  intros [_ H]. unfold addr_str. rewrite not_elem_of_app, not_elem_of_cons.
  repeat split; [done..|]. by apply str_chars.
Qed.

Lemma set_insert_ne {A} (ltb : A -> A -> bool) x l : set_insert ltb x l <> [].
Proof. destruct l as [|y l]; [done|]. cbn. by repeat case_match. Qed.

Lemma foldl_insert_ne {A} (ltb : A -> A -> bool) l s :
  s <> [] -> foldl (fun s a => set_insert ltb a s) s l <> [].
Proof.
  revert s. induction l as [|x l IH]; intros s Hs; [done|]. cbn. apply IH, set_insert_ne.
Qed.

(** C26. The `node` option round trip: a non-empty list of addresses printed as
    "host1:port1,host2:port2,..." is parsed by [from_hosts_ports] back to exactly
    the set of those addresses (sorted by [operator<], without duplicates). *)
Theorem from_hosts_ports_print l :
  l <> [] ->
  Forall (fun a => plain_host (host a) /\ in_int (port a)) l ->
  from_hosts_ports (join [","%char] (addr_str <$> l)) = Ret (set_of addr_ltb l).
Proof.
  intros Hne Hl. unfold from_hosts_ports. change (s2b ",") with [","%char].
  rewrite split_join.
  - rewrite insert_hosts_ports_str by done. cbn. unfold set_of.
    destruct (foldl _ [] l) eqn:E; [|done].
    destruct l as [|a l]; [done|]. exfalso.
    by apply (foldl_insert_ne addr_ltb l [a]) in E.
  - by destruct l.
  - apply is_delim_self.
  - apply Forall_fmap. eapply Forall_impl; [exact Hl|]. intros a [Ha _].
    by apply is_delim_singleton, addr_str_no_comma.
Qed.

Lemma from_hosts_ports_print_witness :
  from_hosts_ports (s2b "10.0.0.2:7001,10.0.0.1:7000,10.0.0.2:7001") =
  Ret [mkAddress (s2b "10.0.0.1") 7000; mkAddress (s2b "10.0.0.2") 7001].
Proof.
  apply (from_hosts_ports_print
    [mkAddress (s2b "10.0.0.2") 7001; mkAddress (s2b "10.0.0.1") 7000; mkAddress (s2b "10.0.0.2") 7001]).
  - discriminate.
  - repeat constructor; first [vm_compute; discriminate | apply (bool_decide_unpack _); vm_compute; exact I].
Defined.
