(* ===== verification/SlotCalc.v ===== *)
(** * Key slots: [core/slot_calc.hpp], [core/slot_calc.cpp]

    The table-driven CRC16 of the source, the byte-at-a-time automaton
    [KeySlotCalc], and their specification: the bitwise CRC16 (polynomial 0x1021)
    of the key's hash tag, modulo 16384. *)
From S2P Require Import Prelude.
#[local] Open Scope Z_scope.

Definition CLUSTER_SLOT_COUNT : Z := 16384.

Definition CRC16TAB : list Z :=
  [0x0000; 0x1021; 0x2042; 0x3063; 0x4084; 0x50a5; 0x60c6; 0x70e7;
   0x8108; 0x9129; 0xa14a; 0xb16b; 0xc18c; 0xd1ad; 0xe1ce; 0xf1ef;
   0x1231; 0x0210; 0x3273; 0x2252; 0x52b5; 0x4294; 0x72f7; 0x62d6;
   0x9339; 0x8318; 0xb37b; 0xa35a; 0xd3bd; 0xc39c; 0xf3ff; 0xe3de;
   0x2462; 0x3443; 0x0420; 0x1401; 0x64e6; 0x74c7; 0x44a4; 0x5485;
   0xa56a; 0xb54b; 0x8528; 0x9509; 0xe5ee; 0xf5cf; 0xc5ac; 0xd58d;
   0x3653; 0x2672; 0x1611; 0x0630; 0x76d7; 0x66f6; 0x5695; 0x46b4;
   0xb75b; 0xa77a; 0x9719; 0x8738; 0xf7df; 0xe7fe; 0xd79d; 0xc7bc;
   0x48c4; 0x58e5; 0x6886; 0x78a7; 0x0840; 0x1861; 0x2802; 0x3823;
   0xc9cc; 0xd9ed; 0xe98e; 0xf9af; 0x8948; 0x9969; 0xa90a; 0xb92b;
   0x5af5; 0x4ad4; 0x7ab7; 0x6a96; 0x1a71; 0x0a50; 0x3a33; 0x2a12;
   0xdbfd; 0xcbdc; 0xfbbf; 0xeb9e; 0x9b79; 0x8b58; 0xbb3b; 0xab1a;
   0x6ca6; 0x7c87; 0x4ce4; 0x5cc5; 0x2c22; 0x3c03; 0x0c60; 0x1c41;
   0xedae; 0xfd8f; 0xcdec; 0xddcd; 0xad2a; 0xbd0b; 0x8d68; 0x9d49;
   0x7e97; 0x6eb6; 0x5ed5; 0x4ef4; 0x3e13; 0x2e32; 0x1e51; 0x0e70;
   0xff9f; 0xefbe; 0xdfdd; 0xcffc; 0xbf1b; 0xaf3a; 0x9f59; 0x8f78;
   0x9188; 0x81a9; 0xb1ca; 0xa1eb; 0xd10c; 0xc12d; 0xf14e; 0xe16f;
   0x1080; 0x00a1; 0x30c2; 0x20e3; 0x5004; 0x4025; 0x7046; 0x6067;
   0x83b9; 0x9398; 0xa3fb; 0xb3da; 0xc33d; 0xd31c; 0xe37f; 0xf35e;
   0x02b1; 0x1290; 0x22f3; 0x32d2; 0x4235; 0x5214; 0x6277; 0x7256;
   0xb5ea; 0xa5cb; 0x95a8; 0x8589; 0xf56e; 0xe54f; 0xd52c; 0xc50d;
   0x34e2; 0x24c3; 0x14a0; 0x0481; 0x7466; 0x6447; 0x5424; 0x4405;
   0xa7db; 0xb7fa; 0x8799; 0x97b8; 0xe75f; 0xf77e; 0xc71d; 0xd73c;
   0x26d3; 0x36f2; 0x0691; 0x16b0; 0x6657; 0x7676; 0x4615; 0x5634;
   0xd94c; 0xc96d; 0xf90e; 0xe92f; 0x99c8; 0x89e9; 0xb98a; 0xa9ab;
   0x5844; 0x4865; 0x7806; 0x6827; 0x18c0; 0x08e1; 0x3882; 0x28a3;
   0xcb7d; 0xdb5c; 0xeb3f; 0xfb1e; 0x8bf9; 0x9bd8; 0xabbb; 0xbb9a;
   0x4a75; 0x5a54; 0x6a37; 0x7a16; 0x0af1; 0x1ad0; 0x2ab3; 0x3a92;
   0xfd2e; 0xed0f; 0xdd6c; 0xcd4d; 0xbdaa; 0xad8b; 0x9de8; 0x8dc9;
   0x7c26; 0x6c07; 0x5c64; 0x4c45; 0x3ca2; 0x2c83; 0x1ce0; 0x0cc1;
   0xef1f; 0xff3e; 0xcf5d; 0xdf7c; 0xaf9b; 0xbfba; 0x8fd9; 0x9ff8;
   0x6e17; 0x7e36; 0x4e55; 0x5e74; 0x2e93; 0x3eb2; 0x0ed1; 0x1ef0].

(** [CRC16TAB[i]]; [i] is masked to a byte, so it is always in range. *)
Definition crc16_tab (i : Z) : Z := nth (Z.to_nat i) CRC16TAB 0.

(** [slot] is [unsigned int]: the shift drops what leaves 32 bits. *)
Definition crc_next_byte (s : Z) (b : byte) : Z :=
  Z.lxor (wrapu32 (Z.shiftl s 8))
         (crc16_tab (Z.land (Z.lxor (Z.shiftr s 8) (byte_val b)) 0xFF)).

(** The function [_next_byte] currently points to. *)
Inductive next_byte_fn : Type := _direct_byte | _between_braces | _whole_key | _ignore.

Record KeySlotCalc : Type := mkKeySlotCalc {
  _key_slot : Z;
  _key_slot_after_brace : Z;
  _next_byte : next_byte_fn;
  _matched_close_brace : bool;
  _last_byte_is_open_brace : bool
}.
#[export] Instance eta_KeySlotCalc : Settable KeySlotCalc := fun x =>
  mkKeySlotCalc (_key_slot x) (_key_slot_after_brace x) (_next_byte x)
    (_matched_close_brace x) (_last_byte_is_open_brace x).

(** [KeySlotCalc::reset], which is also what the constructor does. *)
Definition reset : KeySlotCalc := mkKeySlotCalc 0 0 _direct_byte false false.

Definition get_slot (sc : KeySlotCalc) : Z :=
  Z.land (if _matched_close_brace sc then _key_slot_after_brace sc else _key_slot sc) 0x3FFF.

Definition direct_byte (sc : KeySlotCalc) (b : byte) : KeySlotCalc :=
  let sc := sc <| _key_slot := crc_next_byte (_key_slot sc) b |> in
  if Ascii.eqb b "{"%char
  then sc <| _last_byte_is_open_brace := true |> <| _next_byte := _between_braces |>
  else sc.

Definition between_braces (sc : KeySlotCalc) (b : byte) : KeySlotCalc :=
  if Ascii.eqb b "}"%char then
    if _last_byte_is_open_brace sc
    then sc <| _key_slot := crc_next_byte (_key_slot sc) b |> <| _next_byte := _whole_key |>
    else sc <| _next_byte := _ignore |> <| _matched_close_brace := true |>
  else
    sc <| _last_byte_is_open_brace := false |>
       <| _key_slot := crc_next_byte (_key_slot sc) b |>
       <| _key_slot_after_brace := crc_next_byte (_key_slot_after_brace sc) b |>.

Definition whole_key (sc : KeySlotCalc) (b : byte) : KeySlotCalc :=
  sc <| _key_slot := crc_next_byte (_key_slot sc) b |>.

Definition next_byte (sc : KeySlotCalc) (b : byte) : KeySlotCalc :=
  match _next_byte sc with
  | _direct_byte => direct_byte sc b
  | _between_braces => between_braces sc b
  | _whole_key => whole_key sc b
  | _ignore => sc
  end.

(** [for (; begin != end; ++begin) slot_calc.next_byte( *begin);] *)
Definition feed (sc : KeySlotCalc) (key : bytes) : KeySlotCalc := foldl next_byte sc key.

(** A fresh calculator fed with a whole key. *)
Definition key_slot (key : bytes) : Z := get_slot (feed reset key).

(** ** Specification

    CRC16 (XMODEM) one bit at a time, and the hash tag of a key as the Redis
    cluster specification defines it. *)
Module Spec.
Definition shift_bit (c : Z) : Z :=
  Z.land (if Z.testbit c 15 then Z.lxor (Z.shiftl c 1) 0x1021 else Z.shiftl c 1) 0xFFFF.

Definition crc16_step (c : Z) (b : byte) : Z :=
  Nat.iter 8 shift_bit (Z.lxor c (Z.shiftl (byte_val b) 8)).

Definition crc16 (s : bytes) : Z := foldl crc16_step 0 s.

(** The text before and after the first [c]. *)
Fixpoint break_at (c : byte) (s : bytes) : option (bytes * bytes) :=
  match s with
  | [] => None
  | b :: s' =>
    if Ascii.eqb b c then Some ([], s')
    else '(u, v) ← break_at c s'; Some (b :: u, v)
  end.

Definition hash_tag (key : bytes) : bytes :=
  match break_at "{"%char key with
  | None => key
  | Some (_, rest) =>
    match break_at "}"%char rest with
    | None | Some ([], _) => key
    | Some (tag, _) => tag
    end
  end.

Definition slot_of (key : bytes) : Z := crc16 (hash_tag key) mod 16384.

Lemma break_at_Some c s u v :
  break_at c s = Some (u, v) -> s = u ++ c :: v /\ c ∉ u.
Proof.
  revert u. induction s as [|b s IH]; intros u; [done|]. cbn.
  destruct (Ascii.eqb_spec b c) as [->|Hne].
  - intros [= <- <-]. split; [done | apply not_elem_of_nil].
  - destruct (break_at c s) as [[u' v']|]; [|done]. cbn. intros [= <- <-].
    destruct (IH u' eq_refl) as [-> ?]. by rewrite not_elem_of_cons.
Qed.

Lemma break_at_None c s : break_at c s = None -> c ∉ s.
Proof.
  induction s as [|b s IH]; cbn; [intros _; apply not_elem_of_nil|].
  destruct (Ascii.eqb_spec b c) as [->|Hne]; [done|].
  destruct (break_at c s) as [[u' v']|]; [done|]. rewrite not_elem_of_cons. auto.
Qed.
End Spec.

(** ** The table and the bitwise CRC agree *)

Definition all_upto (n : nat) (f : Z -> bool) : bool := forallb (fun i => f (Z.of_nat i)) (seq 0 n).

Lemma all_upto_spec n f :
  all_upto n f = true -> forall z, 0 <= z < Z.of_nat n -> f z = true.
Proof.
  unfold all_upto. rewrite forallb_forall. intros H z Hz.
  rewrite <- (Z2Nat.id z) by lia. apply H, in_seq. lia.
Qed.

Lemma tab_word_checked :
  all_upto 256 (fun hi => all_upto 256 (fun lo =>
    let v := 256 * hi + lo in
    Nat.iter 8 Spec.shift_bit v =?
    Z.lxor (Z.shiftl (Z.land v 0xFF) 8) (crc16_tab (Z.shiftr v 8)))) = true.
Proof. vm_compute. reflexivity. Qed.

Lemma tab_byte_checked :
  all_upto 256 (fun i => (0 <=? crc16_tab i) && (crc16_tab i <? 2 ^ 16)) = true.
Proof. vm_compute. reflexivity. Qed.

Lemma shift_word v :
  0 <= v < 65536 ->
  Nat.iter 8 Spec.shift_bit v = Z.lxor (Z.shiftl (Z.land v 0xFF) 8) (crc16_tab (Z.shiftr v 8)).
Proof.
  intros Hv. pose proof (Z.div_mod v 256). pose proof (Z.mod_pos_bound v 256).
  assert (0 <= v / 256 < 256)
    by (split; [apply Z.div_pos; lia | apply Z.div_lt_upper_bound; lia]).
  pose proof (all_upto_spec _ _ tab_word_checked (v / 256) ltac:(lia)) as Hhi.
  pose proof (all_upto_spec _ _ Hhi (v mod 256) ltac:(lia)) as Hlo. cbv beta zeta in Hlo.
  rewrite <- Z.div_mod in Hlo by lia. by apply Z.eqb_eq.
Qed.

Lemma crc16_tab_range i : 0 <= i < 256 -> 0 <= crc16_tab i < 2 ^ 16.
Proof. intros Hi. pose proof (all_upto_spec _ _ tab_byte_checked i). lia. Qed.

Lemma testbit_byte b i : 8 <= i -> Z.testbit (byte_val b) i = false.
Proof.
  intros. rewrite <- (Z.mod_small (byte_val b) (2 ^ 8)) by apply byte_val_range.
  apply Z.mod_pow2_bits_high. lia.
Qed.

Ltac bits_step :=
  repeat first
    [ rewrite Z.lxor_spec | rewrite Z.land_spec
    | rewrite Z.shiftl_spec by lia | rewrite Z.shiftr_spec by lia
    | rewrite Z.mod_pow2_bits_low by lia | rewrite Z.mod_pow2_bits_high by lia ].

Lemma testbit_0xFF i : 0 <= i -> Z.testbit 0xFF i = (i <? 8).
Proof. intros. change 0xFF with (Z.ones 8). rewrite Z.testbit_ones by lia. lia. Qed.

Lemma word_of_range s b :
  0 <= Z.lxor (s mod 2 ^ 16) (Z.shiftl (byte_val b) 8) < 2 ^ 16.
Proof.
  pose proof (byte_val_range b). pose proof (Z.mod_pos_bound s (2 ^ 16)).
  assert (0 <= Z.lxor (s mod 2 ^ 16) (Z.shiftl (byte_val b) 8)).
  { apply Z.lxor_nonneg. rewrite Z.shiftl_nonneg. lia. }
  split; [done|]. apply Z.bounded_iff_bits_nonneg; [lia|done|]. intros l Hl.
  bits_step. by rewrite testbit_byte by lia.
Qed.

Lemma word_of_low s b :
  Z.land (Z.lxor (s mod 2 ^ 16) (Z.shiftl (byte_val b) 8)) 0xFF = Z.land s 0xFF.
Proof.
  apply Z.bits_inj'. intros i Hi. bits_step. rewrite testbit_0xFF by done.
  destruct (Z.ltb_spec i 8); [|by rewrite !andb_false_r].
  bits_step. rewrite (Z.testbit_neg_r (byte_val b)) by lia. by rewrite xorb_false_r.
Qed.

Lemma word_of_high s b :
  Z.shiftr (Z.lxor (s mod 2 ^ 16) (Z.shiftl (byte_val b) 8)) 8 =
  Z.land (Z.lxor (Z.shiftr s 8) (byte_val b)) 0xFF.
Proof.
  apply Z.bits_inj'. intros i Hi. bits_step. rewrite testbit_0xFF by done.
  replace (i + 8 - 8) with i by lia. destruct (Z.ltb_spec i 8); bits_step.
  - by rewrite andb_true_r.
  - rewrite testbit_byte by lia. by rewrite andb_false_r.
Qed.

Lemma tab_index_range x : 0 <= Z.land x 0xFF < 256.
Proof. change 0xFF with (Z.ones 8). rewrite Z.land_ones by lia. by apply Z.mod_pos_bound. Qed.

(** The running 32-bit value agrees with the 16-bit CRC on its low half. *)
Lemma crc_next_byte_low s b :
  crc_next_byte s b mod 2 ^ 16 = Spec.crc16_step (s mod 2 ^ 16) b.
Proof.
  unfold Spec.crc16_step, crc_next_byte, wrapu32.
  rewrite shift_word by apply word_of_range.
  rewrite word_of_low, word_of_high.
  set (T := crc16_tab _). pose proof (crc16_tab_range _ (tab_index_range (Z.lxor (Z.shiftr s 8) (byte_val b)))) as HT.
  fold T in HT. apply Z.bits_inj'. intros i Hi.
  destruct (Z.ltb_spec i 16); bits_step.
  - destruct (Z.ltb_spec i 8); [by rewrite !(Z.testbit_neg_r _ (i - 8)) by lia|].
    bits_step. rewrite testbit_0xFF by lia.
    replace (i - 8 <? 8) with true by lia. by rewrite andb_true_r.
  - rewrite testbit_0xFF by lia. replace (i - 8 <? 8) with false by lia.
    rewrite andb_false_r. symmetry. cbn.
    apply (Z.bounded_iff_bits_nonneg 16 T); lia.
Qed.

Definition crc (s : Z) (key : bytes) : Z := foldl crc_next_byte s key.

Lemma crc_app s k1 k2 : crc s (k1 ++ k2) = crc (crc s k1) k2.
Proof. apply foldl_app. Qed.

Lemma crc_low s key :
  crc s key mod 2 ^ 16 = foldl Spec.crc16_step (s mod 2 ^ 16) key.
Proof.
  revert s. induction key as [|b key IH]; intros s; [done|].
  change (crc s (b :: key)) with (crc (crc_next_byte s b) key).
  by rewrite IH, crc_next_byte_low.
Qed.

Lemma crc_slot key : Z.land (crc 0 key) 0x3FFF = Spec.crc16 key mod 16384.
Proof.
  change 0x3FFF with (Z.ones 14). rewrite Z.land_ones by lia.
  unfold Spec.crc16. pose proof (crc_low 0 key) as H. change (0 mod 2 ^ 16) with 0 in H.
  rewrite <- H. change 16384 with (2 ^ 14).
  apply Z.bits_inj'. intros i Hi. destruct (Z.ltb_spec i 14); by bits_step.
Qed.

(** ** The automaton *)

Lemma feed_app sc k1 k2 : feed sc (k1 ++ k2) = feed (feed sc k1) k2.
Proof. apply foldl_app. Qed.

Lemma feed_direct k a m l key :
  "{"%char ∉ key ->
  feed (mkKeySlotCalc k a _direct_byte m l) key =
  mkKeySlotCalc (crc k key) a _direct_byte m l.
Proof.
  revert k. induction key as [|b key IH]; intros k; [done|].
  rewrite not_elem_of_cons. intros [Hb Hk]. cbn. unfold next_byte, direct_byte. cbn.
  destruct (Ascii.eqb_spec b "{"%char); [congruence|]. by apply IH.
Qed.

Lemma feed_between k a m l key :
  "}"%char ∉ key -> key <> [] ->
  feed (mkKeySlotCalc k a _between_braces m l) key =
  mkKeySlotCalc (crc k key) (crc a key) _between_braces m false.
Proof.
  revert k a l. induction key as [|b key IH]; intros k a l; [done|].
  rewrite not_elem_of_cons. intros [Hb Hk] _. cbn. unfold next_byte, between_braces. cbn.
  destruct (Ascii.eqb_spec b "}"%char); [congruence|].
  destruct key as [|b' key]; [done|]. by apply IH.
Qed.

Lemma feed_whole k a m l key :
  feed (mkKeySlotCalc k a _whole_key m l) key = mkKeySlotCalc (crc k key) a _whole_key m l.
Proof. revert k. induction key as [|b key IH]; intros k; [done|]. apply IH. Qed.

Lemma feed_ignore k a m l key :
  feed (mkKeySlotCalc k a _ignore m l) key = mkKeySlotCalc k a _ignore m l.
Proof. by induction key. Qed.

(** Feeding ["{"] from a direct state enters the braces. *)
Lemma feed_open k a l rest :
  feed (mkKeySlotCalc k a _direct_byte false l) ("{"%char :: rest) =
  feed (mkKeySlotCalc (crc_next_byte k "{"%char) a _between_braces false true) rest.
Proof. done. Qed.

(** The slot of the part of the key after its first ["{"], once in the braces. *)
Lemma feed_braces_slot k rest :
  get_slot (feed (mkKeySlotCalc k 0 _between_braces false true) rest) =
  match Spec.break_at "}"%char rest with
  | None | Some ([], _) => Z.land (crc k rest) 0x3FFF
  | Some (tag, _) => Z.land (crc 0 tag) 0x3FFF
  end.
Proof.
  destruct (Spec.break_at "}"%char rest) as [[tag post]|] eqn:E.
  - apply Spec.break_at_Some in E as [-> Htag]. destruct tag as [|t tag].
    + cbn [app]. change (feed _ ("}"%char :: post)) with
        (feed (mkKeySlotCalc (crc_next_byte k "}"%char) 0 _whole_key false true) post).
      by rewrite feed_whole.
    + rewrite feed_app, feed_between by done.
      change (feed _ ("}"%char :: post)) with
        (feed (mkKeySlotCalc (crc k (t :: tag)) (crc 0 (t :: tag)) _ignore true false) post).
      by rewrite feed_ignore.
  - apply Spec.break_at_None in E. destruct rest as [|r rest]; [done|].
    by rewrite feed_between.
Qed.

Lemma key_slot_spec (key : bytes) : key_slot key = Spec.slot_of key.
Proof.
  unfold key_slot, Spec.slot_of, Spec.hash_tag, reset.
  destruct (Spec.break_at "{"%char key) as [[pre rest]|] eqn:E.
  - apply Spec.break_at_Some in E as [-> Hpre].
    rewrite feed_app, feed_direct, feed_open, feed_braces_slot by done.
    assert (Hkey : crc (crc_next_byte (crc 0 pre) "{"%char) rest = crc 0 (pre ++ "{"%char :: rest))
      by by rewrite crc_app.
    destruct (Spec.break_at "}"%char rest) as [[[|t tag] post]|];
      rewrite ?Hkey; apply crc_slot.
  - apply Spec.break_at_None in E. rewrite feed_direct by done. apply crc_slot.
Qed.

(** C4. For every key, the byte-at-a-time automaton and the CRC table of the
    source compute the slot of the Redis cluster specification: the bitwise
    CRC16 (polynomial 0x1021) of the key's hash tag, modulo 16384. *)
Theorem key_slot_correct (key : bytes) : key_slot key = Spec.slot_of key.
Proof. apply key_slot_spec. Qed.

