(* ===== verification/Trace.v ===== *)
(** * Stack traces: [backtracpp/demangle.cpp], [backtracpp/trace.cpp], [backtracpp/sig-handler.cpp]

    The trace that a [SystemError] carries and that the handlers of SIGSEGV and SIGFPE print:
    each line of [backtrace_symbols] is cut into module, address, function and offset.  A
    reverse iterator into a string is what is left of the reversed string: [rbegin()] is the
    reversed string and [rend()] the empty one.  The demangler of the C++ runtime and the two
    calls of execinfo.h are arguments. *)
From S2P Require Import Prelude Strings OrderedSet Address.
#[local] Open Scope Z_scope.

Record frame : Type := mkFrame { fr_module : bytes; fr_address : Z; fr_func : bytes; fr_offset : Z }.

#[export] Instance frame_eq_dec : EqDecision frame.
Proof. solve_decision. Defined.

(** ** [demangle.cpp] *)

(** [std::find_if(first, str.rend(), ch_finder(c))] *)
Fixpoint find_ch (c : byte) (first : bytes) : bytes :=
  match first with
  | [] => []
  | ch :: rest => if Ascii.eqb c ch then first else find_ch c rest
  end.

(** [it + 1], and [std::string(first, last)] for reverse iterators with [first <= last]. *)
Definition next_iter (it : bytes) : outcome bytes :=
  match it with [] => Undefined | _ :: rest => Ret rest end.

Definition between (first last : bytes) : bytes := take (length first - length last) first.

(** [std::string(reversed.rbegin() + 2, reversed.rend())] *)
Definition unreverse_from2 (reversed : bytes) : outcome bytes :=
  i ← next_iter (reverse reversed); next_iter i.

Definition find_module (s : bytes) : outcome bytes :=
  match find_ch "("%char (reverse s) with
  | [] => Ret []
  | e => first ← next_iter e; Ret (reverse (between first []))
  end.

Definition find_func_name (s : bytes) : outcome bytes :=
  match find_ch "+"%char (reverse s) with
  | [] => Ret []
  | e => first ← next_iter e; Ret (reverse (between first (find_ch "("%char e)))
  end.

Definition find_func_offset (s : bytes) : outcome bytes :=
  let e := find_ch ")"%char (reverse s) in
  match find_ch "+"%char e with
  | [] => Ret []
  | b => first ← next_iter e; unreverse_from2 (between first b)
  end.

Definition find_address (s : bytes) : outcome bytes :=
  let e := find_ch "]"%char (reverse s) in
  let b := find_ch "["%char e in
  first ← next_iter e; unreverse_from2 (between first b).

(** [char] is signed. *)
Definition char_val (b : byte) : Z := if byte_val b <? 128 then byte_val b else byte_val b - 256.

(** The arithmetic of [int]. *)
Definition int_ (z : Z) : outcome Z := if (INT_MIN <=? z) && (z <=? INT_MAX) then Ret z else UB Overflow.

Definition hex_digit_val (b : byte) : Z :=
  if (48 <=? char_val b) && (char_val b <=? 57) then char_val b - 48 else char_val b - 97 + 10.

Fixpoint hex_loop (result : Z) (s : bytes) : outcome Z :=
  match s with
  | [] => Ret result
  | b :: s' => r ← int_ (result * 16); r ← int_ (r + hex_digit_val b); hex_loop r s'
  end.

Definition hex_from_str (s : bytes) : outcome Z := hex_loop 0 s.

(** [std::hex]: an [int] is printed as the [unsigned] of the same bits. *)
Definition hex_digit (d : Z) : byte := Ascii.ascii_of_N (Z.to_N (if d <? 10 then 48 + d else 87 + d)).

Fixpoint hex_digits (fuel : nat) (n : Z) : bytes :=
  match fuel with
  | O => []
  | S f => (if n / 16 =? 0 then [] else hex_digits f (n / 16)) ++ [hex_digit (n mod 16)]
  end.

Definition print_hex (n : Z) : bytes := hex_digits (S (Z.to_nat (Z.log2 n))) n.

Definition frame_str (f : frame) : bytes :=
  join (s2b " ") [fr_module f; print_hex (wrapu32 (fr_address f)); fr_func f; print_hex (wrapu32 (fr_offset f))].

(** What [abi::__cxa_demangle] answers: a name, or the status -1, -2 or -3 and no name. *)
Inductive demangled : Type := Demangled (name : bytes) | NoMemory | NotMangled | BadArgument.

(** ** [trace.cpp] *)

Definition MAX_FRAMES : nat := 256.

(** A stream is the text written to it. *)
Definition ostream : Type := bytes.
Definition endl : bytes := [LF].

Section Trace.
Context (cxa_demangle : bytes -> demangled).

Definition demangle_func_name (name : bytes) : outcome bytes :=
  match cxa_demangle (c_str name) with
  | Demangled n => Ret n
  | NoMemory => Throw BadAlloc
  | NotMangled => Ret name
  | BadArgument => UB NullPointer
  end.

Definition demangle (frame_info : bytes) : outcome frame :=
  module ← find_module frame_info;
  a ← find_address frame_info;
  address ← hex_from_str a;
  name ← find_func_name frame_info;
  func ← demangle_func_name name;
  o ← find_func_offset frame_info;
  offset ← hex_from_str o;
  Ret (mkFrame module address func offset).

Fixpoint package (strings : list bytes) : outcome (list frame) :=
  match strings with
  | [] => Ret []
  | s :: l => f ← demangle s; fs ← package l; Ret (f :: fs)
  end.

(** The return addresses on the stack, innermost first; [backtrace_symbols] may fail. *)
Context (return_addresses : list Z) (backtrace_symbols : list Z -> option (list bytes)).

Definition stacktrace : outcome (list frame) :=
  match backtrace_symbols (take MAX_FRAMES return_addresses) with
  | None => Throw (RuntimeError (s2b "backtrace_symbols error"))
  | Some strings => package strings
  end.

Definition print (frames : list frame) (os : ostream) : ostream :=
  foldl (fun os f => os ++ frame_str f ++ endl) os frames.

Definition print_trace (os : ostream) : outcome ostream := frames ← stacktrace; Ret (print frames os).
Definition print_trace_br (os : ostream) : outcome ostream := os' ← print_trace os; Ret (os' ++ endl).

(** ** [sig-handler.cpp] *)

(** [std::cout] is the stream 0. *)
Definition cout : nat := 0.
Definition SIGFPE : Z := 8.
Definition SIGSEGV : Z := 11.
Definition FPE_INTDIV : Z := 1.

Inductive handler_type : Type := HandleSegv | HandleFpe.

(** The static pointer of [ostream()], the streams, and the actions of [sigaction]. *)
Record Signals : Type := mkSignals { sig_output : nat; sig_streams : gmap nat ostream; sig_actions : gmap Z handler_type }.

Definition set_output (os : nat) (s : Signals) : Signals := mkSignals os (sig_streams s) (sig_actions s).
Definition install (sig : Z) (h : handler_type) (s : Signals) : Signals :=
  mkSignals (sig_output s) (sig_streams s) (<[sig := h]> (sig_actions s)).
Definition trace_on_seg_fault : Signals -> Signals := install SIGSEGV HandleSegv.
Definition trace_on_fpe : Signals -> Signals := install SIGFPE HandleFpe.

(** What is in the stream when the handler calls [std::terminate]. *)
Definition handle_segv (os : ostream) : outcome ostream := print_trace (os ++ s2b "Segmentation fault:" ++ endl).
Definition handle_fpe (si_code : Z) (os : ostream) : outcome ostream :=
  print_trace (os ++ s2b (if si_code =? FPE_INTDIV then "Divided by 0:" else "SIGFPE:") ++ endl).

(** A signal with a handler ends the process with this text in the stream; another has its
    default action. *)
Definition raise_signal (sig si_code : Z) (s : Signals) : option (outcome ostream) :=
  let os := default [] (sig_streams s !! sig_output s) in
  match sig_actions s !! sig with
  | Some HandleSegv => Some (handle_segv os)
  | Some HandleFpe => Some (handle_fpe si_code os)
  | None => None
  end.

(** ** [except/exceptions.hpp]: the texts *)

Context (strerror : Z -> bytes).

(** [what()]; [MessageInterrupted] has none. *)
Definition what (e : exn) : bytes :=
  match e with
  | MessageInterrupted => []
  | BadRedisMessage w => w
  | SystemError w errcode => w ++ s2b " " ++ strerror errcode
  | UnknownHost h => s2b "Unknown host: " ++ (if bool_decide (h = []) then s2b "(empty string)" else h)
  | ConnectionHungUp => s2b "Connection hung up"
  | IOError w errcode => w ++ s2b " " ++ strerror errcode
  | SocketAcceptError errcode => s2b "accept" ++ s2b " " ++ strerror errcode
  | ConnectionRefused h p errcode => strerror errcode ++ s2b " " ++ h ++ s2b ":" ++ str p
  | RuntimeError w => w
  | BadAlloc => s2b "std::bad_alloc"
  end.

(** The constructor of [SystemError] takes the trace: what [throw SystemError(w, errcode)] does. *)
Definition throw_SystemError {A} (w : bytes) (errcode : Z) : outcome A * ostream :=
  match print_trace [] with
  | Ret trace => (Throw (SystemError w errcode), trace)
  | Throw e => (Throw e, [])
  | UB k => (UB k, [])
  | NoFuel => (NoFuel, [])
  end.

End Trace.

(** ** Hexadecimal *)

Lemma int_in z : in_int z -> int_ z = Ret z.
Proof. unfold int_, in_int. intros. by rewrite (proj2 (andb_true_iff _ _)) by lia. Qed.

Lemma int_out z : INT_MAX < z -> int_ z = UB Overflow.
Proof. unfold int_. intros. by rewrite (proj2 (andb_false_iff _ _)) by lia. Qed.

Lemma hex_digit_range d : 0 <= d < 16 ->
  48 <= byte_val (hex_digit d) <= 57 \/ 97 <= byte_val (hex_digit d) <= 102.
Proof. intros. unfold hex_digit. rewrite byte_val_of_N by (case_match; lia). case_match; lia. Qed.

Lemma hex_digit_val_digit d : 0 <= d < 16 -> hex_digit_val (hex_digit d) = d.
Proof.
  intros. unfold hex_digit_val, char_val, hex_digit.
  rewrite byte_val_of_N by (case_match; lia). repeat case_match; lia.
Qed.

Lemma mod16_range n : 0 <= n mod 16 < 16.
Proof. apply Z.mod_pos_bound. lia. Qed.

(** A whole number out of [int]'s range overflows at the latest with its last digit. *)
Lemma hex_loop_digit n rest : 0 <= n ->
  (r ← int_ (n / 16); hex_loop r (hex_digit (n mod 16) :: rest)) = (r ← int_ n; hex_loop r rest).
Proof.
  intros Hn. pose proof (Z.div_mod n 16). pose proof (mod16_range n). pose proof (Z.div_pos n 16).
  destruct (Z.leb_spec n INT_MAX).
  - rewrite (int_in (n / 16)), (int_in n) by (unfold in_int, INT_MIN in *; lia). cbn -[Z.mul hex_digit_val].
    rewrite hex_digit_val_digit, int_in by (unfold in_int, INT_MIN in *; lia). cbn -[Z.mul].
    rewrite int_in by (unfold in_int, INT_MIN in *; lia). cbn. f_equal. lia.
  - rewrite (int_out n) by done. cbn -[hex_loop].
    destruct (Z.leb_spec (n / 16) INT_MAX); [|by rewrite int_out].
    rewrite int_in by (unfold in_int, INT_MIN in *; lia). cbn -[Z.mul hex_digit_val].
    rewrite hex_digit_val_digit by done.
    destruct (Z.leb_spec (n / 16 * 16) INT_MAX); [|by rewrite int_out].
    rewrite int_in by (unfold in_int, INT_MIN in *; lia). cbn -[Z.mul]. by rewrite int_out by lia.
Qed.

Lemma hex_loop_digits fuel n rest : 0 <= n < 16 ^ Z.of_nat fuel ->
  hex_loop 0 (hex_digits fuel n ++ rest) = (r ← int_ n; hex_loop r rest).
Proof.
  revert n rest. induction fuel as [|f IH]; intros n rest Hn; cbn [hex_digits].
  { cbn in Hn. assert (n = 0) as -> by lia. done. }
  rewrite <- hex_loop_digit by lia. destruct (Z.eqb_spec (n / 16) 0) as [->|]; [done|].
  rewrite <- app_assoc, IH; [done|]. rewrite Nat2Z.inj_succ, Z.pow_succ_r in Hn by lia.
  split; [by apply Z.div_pos; lia|apply Z.div_lt_upper_bound; lia].
Qed.

Lemma hex_from_str_print n : 0 <= n -> hex_from_str (print_hex n) = int_ n.
Proof.
  intros Hn. unfold hex_from_str, print_hex. rewrite <- (app_nil_r (hex_digits _ _)), hex_loop_digits.
  - by destruct (int_ n).
  - pose proof (print_fuel_enough n Hn). pose proof (Z.pow_le_mono_l 10 16 (Z.of_nat (S (Z.to_nat (Z.log2 n))))). lia.
Qed.

Lemma print_hex_chars n c : c ∈ print_hex n -> 48 <= byte_val c <= 57 \/ 97 <= byte_val c <= 102.
Proof.
  unfold print_hex. generalize (S (Z.to_nat (Z.log2 n))) as fuel. intros fuel. revert n.
  induction fuel as [|f IH]; intros n; cbn [hex_digits]; [by intros ?%not_elem_of_nil|].
  rewrite elem_of_app, list_elem_of_singleton. intros [Hc| ->]; [|apply hex_digit_range, mod16_range].
  case_match; [by apply not_elem_of_nil in Hc|by apply (IH (n / 16))].
Qed.

(** ** Lines of a trace *)

Lemma between_app p q : between (p ++ q) q = p.
Proof. unfold between. rewrite length_app. by rewrite Nat.add_sub, take_app_length. Qed.

Lemma unreverse_from2_rev a b l : unreverse_from2 (reverse (a :: b :: l)) = Ret l.
Proof. unfold unreverse_from2. by rewrite reverse_involutive. Qed.

(** As [backtrace_symbols] of glibc prints a frame: [module(func+0xoffset) [0xaddress]]. *)
Definition symbol_line (m f : bytes) (o a : Z) : bytes :=
  m ++ s2b "(" ++ f ++ s2b "+" ++ (s2b "0x" ++ print_hex o) ++ s2b ") [" ++ (s2b "0x" ++ print_hex a) ++ s2b "]".

Lemma rev_symbol_line m f o a :
  reverse (symbol_line m f o a) =
  "]"%char :: reverse (s2b "0x" ++ print_hex a) ++ "["%char :: " "%char :: ")"%char :: reverse (s2b "0x" ++ print_hex o) ++ "+"%char :: reverse f ++ "("%char :: reverse m.
Proof. unfold symbol_line. rewrite !reverse_app. cbn. by rewrite <- !app_assoc. Qed.

Lemma not_in_number c n : c ∈ s2b "()+[]" -> c ∉ reverse (s2b "0x" ++ print_hex n).
Proof.
  intros Hc Hn. rewrite elem_of_reverse in Hn.
  apply elem_of_app in Hn as [Hn|Hn%print_hex_chars]; cbn in Hc, Hn; set_unfold in Hc; destruct_or!; subst;
    first [by vm_compute in Hn|set_unfold in Hn; naive_solver].
Qed.

(** The search skips what does not hold the character. *)
Lemma find_ch_skip c p q : c ∉ p -> find_ch c (p ++ q) = find_ch c q.
Proof.
  induction p as [|x p IH]; intros Hp; cbn; [done|].
  apply not_elem_of_cons in Hp as [Hx Hp]. rewrite (proj2 (Ascii.eqb_neq _ _)) by done. auto.
Qed.

Lemma between_to p c q : between (p ++ c :: q) (c :: q) = p.
Proof. apply between_app. Qed.

(** The search on the reversed line, character by character and part by part. *)
Ltac line_search :=
  rewrite ?rev_symbol_line;
  repeat first
    [ rewrite find_ch_skip by (first [apply not_in_number; cbn; set_solver|by rewrite elem_of_reverse])
    | progress cbn [find_ch]; eval_eqb ].

Lemma find_module_line m f o a : "("%char ∉ f -> find_module (symbol_line m f o a) = Ret m.
Proof.
  intros Hf. unfold find_module. line_search. cbn. unfold between.
  by rewrite Nat.sub_0_r, firstn_all, reverse_involutive.
Qed.

Lemma find_func_name_line m f o a : "("%char ∉ f -> find_func_name (symbol_line m f o a) = Ret f.
Proof.
  intros Hf. unfold find_func_name. line_search. cbn [next_iter mbind outcome_bind].
  by rewrite between_to, reverse_involutive.
Qed.

Lemma find_func_offset_line m f o a : find_func_offset (symbol_line m f o a) = Ret (print_hex o).
Proof.
  unfold find_func_offset. line_search. cbn [next_iter mbind outcome_bind].
  rewrite between_to. apply unreverse_from2_rev.
Qed.

Lemma find_address_line m f o a : find_address (symbol_line m f o a) = Ret (print_hex a).
Proof.
  unfold find_address. line_search. cbn [next_iter mbind outcome_bind].
  rewrite between_to. apply unreverse_from2_rev.
Qed.

Lemma demangle_line cxa_demangle m f o a :
  "("%char ∉ f -> 0 <= o -> 0 <= a ->
  demangle cxa_demangle (symbol_line m f o a) =
  if INT_MAX <? a then UB Overflow else
  func ← demangle_func_name cxa_demangle f;
  if INT_MAX <? o then UB Overflow else Ret (mkFrame m a func o).
Proof.
  intros Hf Ho Ha. unfold demangle.
  rewrite find_module_line, find_address_line, find_func_name_line, find_func_offset_line by done.
  cbn [mbind outcome_bind].
  rewrite !hex_from_str_print by done.
  destruct (Z.ltb_spec INT_MAX a); [by rewrite (int_out a)|]. rewrite (int_in a) by (unfold in_int, INT_MIN; lia).
  cbn [mbind outcome_bind]. destruct (demangle_func_name cxa_demangle f); [|done..]. cbn [mbind outcome_bind].
  destruct (Z.ltb_spec INT_MAX o); [by rewrite (int_out o)|]. by rewrite (int_in o) by (unfold in_int, INT_MIN; lia).
Qed.

(** ** Whole traces *)

Record symbol : Type := mkSymbol { sym_module : bytes; sym_func : bytes; sym_offset : Z; sym_address : Z }.

Definition sym_line (s : symbol) : bytes := symbol_line (sym_module s) (sym_func s) (sym_offset s) (sym_address s).
Definition sym_fits (s : symbol) : bool := (sym_address s <=? INT_MAX) && (sym_offset s <=? INT_MAX).
Definition sym_ok (s : symbol) : Prop := ("("%char ∉ sym_func s) /\ 0 <= sym_offset s /\ 0 <= sym_address s.

(** [module address function offset], the numbers in hexadecimal. *)
Definition sym_text (nice : bytes -> bytes) (s : symbol) : bytes :=
  sym_module s ++ s2b " " ++ print_hex (sym_address s) ++ s2b " " ++ nice (sym_func s) ++ s2b " " ++ print_hex (sym_offset s).

Definition sym_frame (nice : bytes -> bytes) (s : symbol) : frame :=
  mkFrame (sym_module s) (sym_address s) (nice (sym_func s)) (sym_offset s).

Section Traces.
Context (cxa_demangle : bytes -> demangled) (nice : bytes -> bytes).
Hypothesis demangles : forall name, demangle_func_name cxa_demangle name = Ret (nice name).

Lemma package_symbols syms : Forall sym_ok syms ->
  package cxa_demangle (sym_line <$> syms) =
  if forallb sym_fits syms then Ret (sym_frame nice <$> syms) else UB Overflow.
Proof using demangles.
  induction 1 as [|s l (Hf & Ho & Ha) Hl IH]; [done|]. rewrite fmap_cons. cbn [package forallb].
  rewrite IH. unfold sym_line. rewrite demangle_line, demangles by done. replace (sym_fits s) with (negb (INT_MAX <? sym_address s) && negb (INT_MAX <? sym_offset s)) by by rewrite <- !Z.leb_antisym.
  destruct (INT_MAX <? sym_address s); [done|]. destruct (INT_MAX <? sym_offset s); [done|].
  cbn. by destruct (forallb sym_fits l).
Qed.

Lemma frame_str_symbol s : sym_ok s -> sym_fits s = true -> frame_str (sym_frame nice s) = sym_text nice s.
Proof.
  intros (_ & Ho & Ha) [H1%Z.leb_le H2%Z.leb_le]%andb_true_iff. unfold frame_str, sym_text, join.
  cbn -[print_hex]. rewrite !wrapu32_id by (unfold INT_MAX in *; lia). app_eq.
Qed.

Lemma print_symbols syms os : Forall sym_ok syms -> forallb sym_fits syms = true ->
  print (sym_frame nice <$> syms) os = os ++ concat ((fun s => sym_text nice s ++ endl) <$> syms).
Proof.
  intros Hs. revert os. induction Hs as [|s l Hs Hl IH]; intros os Hf; [by rewrite app_nil_r|].
  apply andb_true_iff in Hf as [Hf1 Hf2]. rewrite !fmap_cons. unfold print in *. cbn [foldl concat].
  rewrite IH, frame_str_symbol by done. app_eq.
Qed.
End Traces.

(** C32. Whatever the modules and functions on the stack, the trace that a [SystemError] carries and
    that the crash handlers print has one line per frame with exactly the module, address,
    demangled name and offset of the frame; but as soon as one of the (at most 256) frames has an
    address beyond [INT_MAX], as those of shared libraries and position-independent executables
    do, the signed arithmetic of [hex_from_str] overflows, which is undefined behaviour. *)
Theorem print_trace_symbols cxa_demangle nice return_addresses backtrace_symbols syms os :
  (forall name, demangle_func_name cxa_demangle name = Ret (nice name)) ->
  backtrace_symbols (take MAX_FRAMES return_addresses) = Some (sym_line <$> syms) -> Forall sym_ok syms ->
  print_trace cxa_demangle return_addresses backtrace_symbols os =
  if forallb sym_fits syms then Ret (os ++ concat ((fun s => sym_text nice s ++ endl) <$> syms)) else UB Overflow.
Proof.
  intros Hd Hb Hs. unfold print_trace, stacktrace. rewrite Hb, (package_symbols _ nice) by done.
  destruct (forallb sym_fits syms) eqn:Hf; [|done]. cbn. by rewrite (print_symbols nice).
Qed.

Definition ex_symbol (a : Z) : symbol := mkSymbol (s2b "./cerberus") (s2b "main") 26 a.

(** A name as it is, and a stack of one address. *)
Definition ex_trace (a : Z) : outcome ostream :=
  print_trace (fun _ => NotMangled) [a] (fun l => Some ((fun a => sym_line (ex_symbol a)) <$> l)) [].

Lemma ex_demangles name : demangle_func_name (fun _ => NotMangled) name = Ret name.
Proof. done. Qed.

Lemma ex_symbol_ok a : 0 <= a -> Forall sym_ok [ex_symbol a].
Proof. intros. constructor; [|done]. split_and!; cbn; [set_solver|lia|done]. Qed.

Lemma print_trace_symbols_witness :
  ex_trace 4198400 = Ret (s2b "./cerberus 401000 main 1a" ++ endl) /\ ex_trace (127 * 2 ^ 40) = UB Overflow.
Proof.
  split.
  - exact (print_trace_symbols (fun _ => NotMangled) id [4198400] (fun l => Some ((fun a => sym_line (ex_symbol a)) <$> l))
      [ex_symbol 4198400] [] ex_demangles eq_refl (ex_symbol_ok 4198400 ltac:(lia))).
  - exact (print_trace_symbols (fun _ => NotMangled) id [127 * 2 ^ 40] (fun l => Some ((fun a => sym_line (ex_symbol a)) <$> l))
      [ex_symbol (127 * 2 ^ 40)] [] ex_demangles eq_refl (ex_symbol_ok (127 * 2 ^ 40) ltac:(lia))).
Defined.

(** The signal handlers of [main]: a crash writes its kind and the trace to [std::cout]. *)
Lemma crash_is_traced cxa_demangle ras syms si_code text :
  let s := trace_on_fpe (trace_on_seg_fault (mkSignals cout {[ cout := text ]} ∅)) in
  raise_signal cxa_demangle ras syms SIGSEGV si_code s =
    Some (print_trace cxa_demangle ras syms (text ++ s2b "Segmentation fault:" ++ endl)) /\
  raise_signal cxa_demangle ras syms SIGFPE si_code s =
    Some (print_trace cxa_demangle ras syms
      (text ++ s2b (if si_code =? FPE_INTDIV then "Divided by 0:" else "SIGFPE:") ++ endl)).
Proof. done. Qed.
