(* ===== verification/Pointer.v ===== *)
(** * Pointer wrappers: [utils/pointer.h], [utils/pointer.cpp]

    [util::id], the non-owning [sref] and the owning [sptr], on a heap of objects of one type.
    An address is a name that is never given twice; an [sptr] is a variable (or a slot of a
    container) that holds an address or null.  [sptr_owns] is the contract the other components
    rely on when they keep their objects in stores indexed by names: an object lives exactly as
    long as one [sptr] holds it, and is deleted once. *)
From S2P Require Import Prelude Strings OrderedSet Address Trace.
#[local] Open Scope Z_scope.

(** ** [util::id]: a pointer, null is 0 *)
Record id : Type := mkId { _id : Z }.

Definition id_ltb (lhs rhs : id) : bool := _id lhs <? _id rhs.
Definition id_eqb (lhs rhs : id) : bool := _id lhs =? _id rhs.
Definition id_neqb (lhs rhs : id) : bool := negb (id_eqb lhs rhs).

(** [util::str] of a pointer, as the streams of libstdc++ print it. *)
Definition str_pointer (p : Z) : bytes := if p =? 0 then s2b "0" else s2b "0x" ++ print_hex p.
Definition id_str (i : id) : bytes := str_pointer (_id i).

#[export] Instance id_order : StrictOrderB id_ltb.
Proof.
  split; unfold id_ltb.
  - intros x. apply Z.ltb_irrefl.
  - intros x y z. rewrite !Z.ltb_lt. lia.
  - intros [x] [y]; cbn. rewrite !Z.ltb_ge. intros. f_equal. lia.
Qed.

Section Pointers.
Context {A : Type} (p_kind : pointee).

(** A pointer: [None] is null. *)
Abbreviation addr := nat.
Abbreviation pointer := (option nat).
Definition pointer_val (p : pointer) : Z := match p with Some a => 1 + Z.of_nat a | None => 0 end.

(** The live objects, the addresses deleted so far, the next address, and the [sptr]s in scope. *)
Record Heap : Type := mkHeap {
  h_live : gmap addr A;
  h_deleted : list addr;
  h_next : addr;
  h_sptrs : gmap nat pointer
}.
#[local] Instance eta_Heap : Settable Heap := fun x => mkHeap (h_live x) (h_deleted x) (h_next x) (h_sptrs x).

(** [*p] of a raw pointer, and [delete p]. *)
Definition deref (p : pointer) : M Heap A := fun h =>
  match p with
  | None => (UB NullPointer, h)
  | Some a => match h_live h !! a with Some o => (Ret o, h) | None => (UB (Dangling p_kind), h) end
  end.

Definition delete_obj (p : pointer) : M Heap unit :=
  match p with
  | None => mret tt
  | Some a => deref p ;; modify (fun h => h <| h_live ::= delete a |> <| h_deleted ::= cons a |>)
  end.

Definition new_obj (o : A) : M Heap addr :=
  a ← gets h_next; modify (fun h => h <| h_live ::= <[a := o]> |> <| h_next := S a |>) ;; mret a.

(** ** [sref] *)

Record sref : Type := mkSref { _ptr : pointer }.

Section Comparisons.
Context (eqb ltb : A -> A -> bool).

Definition sref_eqb (l r : sref) : M Heap bool := x ← deref (_ptr l); y ← deref (_ptr r); mret (eqb x y).
Definition sref_neqb (l r : sref) : M Heap bool := x ← deref (_ptr l); y ← deref (_ptr r); mret (negb (eqb x y)).
Definition sref_ltb (l r : sref) : M Heap bool := x ← deref (_ptr l); y ← deref (_ptr r); mret (ltb x y).
End Comparisons.

Definition sref_is (l r : sref) : bool := bool_decide (_ptr l = _ptr r).
Definition sref_nul (r : sref) : bool := bool_decide (None = _ptr r).
Definition sref_not_nul (r : sref) : bool := negb (sref_nul r).
Definition sref_id (r : sref) : id := mkId (pointer_val (_ptr r)).
Definition sref_reset (r : sref) : sref := mkSref None.
Definition sref_arrow (r : sref) : M Heap A := deref (_ptr r).
Definition mkref (a : addr) : sref := mkSref (Some a).

(** ** [sptr]: a variable that is not in scope is no program *)

Definition sptr_get (x : nat) : M Heap pointer := fun h =>
  match h_sptrs h !! x with Some p => (Ret p, h) | None => (Undefined, h) end.

Definition declare (x : nat) (p : pointer) : M Heap unit := fun h =>
  match h_sptrs h !! x with Some _ => (Undefined, h) | None => (Ret tt, h <| h_sptrs ::= <[x := p]> |>) end.

(** [release()], [reset(p)] of [std::unique_ptr]: the old object is deleted last. *)
Definition release (x : nat) : M Heap pointer :=
  p ← sptr_get x; modify (fun h => h <| h_sptrs ::= <[x := None]> |>) ;; mret p.

Definition reset (x : nat) (p : pointer) : M Heap unit :=
  old ← sptr_get x; modify (fun h => h <| h_sptrs ::= <[x := p]> |>) ;; delete_obj old.

(** [sptr<T> x(util::mkptr(new T(o)))], [sptr<T> x(nullptr)] *)
Definition mkptr (x : nat) (o : A) : M Heap unit := a ← new_obj o; declare x (Some a).
Definition nullptr (x : nat) : M Heap unit := declare x None.

(** [sptr<T> x(std::move(y))], [x = std::move(y)], the end of [x]'s scope *)
Definition move_construct (x y : nat) : M Heap unit := p ← release y; declare x p.
Definition move_assign (x y : nat) : M Heap unit := p ← release y; reset x p.
Definition destroy (x : nat) : M Heap unit :=
  p ← sptr_get x; modify (fun h => h <| h_sptrs ::= delete x |>) ;; delete_obj p.

(** [*x], [x.id()], [x.str()], [x.nul()], [x->] *)
Definition sptr_ref (x : nat) : M Heap sref := p ← sptr_get x; mret (mkSref p).
Definition sptr_id (x : nat) : M Heap id := p ← sptr_get x; mret (mkId (pointer_val p)).
Definition sptr_str (x : nat) : M Heap bytes := i ← sptr_id x; mret (id_str i).
Definition sptr_nul (x : nat) : M Heap bool := p ← sptr_get x; mret (bool_decide (None = p)).
Definition sptr_not_nul (x : nat) : M Heap bool := b ← sptr_nul x; mret (negb b).
Definition sptr_arrow (x : nat) : M Heap A := p ← sptr_get x; deref p.

(** ** Programs on [sptr]s *)
Inductive sptr_op : Type :=
  | MkPtr (x : nat) (o : A)
  | NullPtr (x : nat)
  | MoveConstruct (x y : nat)
  | MoveAssign (x y : nat)
  | Arrow (x : nat)
  | Destroy (x : nat).

Definition run_op (op : sptr_op) : M Heap unit :=
  match op with
  | MkPtr x o => mkptr x o
  | NullPtr x => nullptr x
  | MoveConstruct x y => move_construct x y
  | MoveAssign x y => move_assign x y
  | Arrow x => sptr_arrow x ;; mret tt
  | Destroy x => destroy x
  end.

Definition run_ops (ops : list sptr_op) : M Heap unit := for_each ops run_op.
Definition empty_heap : Heap := mkHeap ∅ [] 0 ∅.

(** ** The specification: variables that hold objects themselves

    A program with values in place of addresses; nothing is shared and nothing is freed. *)
Abbreviation Values := (gmap nat (option A)).

Definition value_get (x : nat) : M Values (option A) := fun m =>
  match m !! x with Some v => (Ret v, m) | None => (Undefined, m) end.
Definition value_declare (x : nat) (v : option A) : M Values unit := fun m =>
  match m !! x with Some _ => (Undefined, m) | None => (Ret tt, <[x := v]> m) end.
Definition value_take (y : nat) : M Values (option A) := v ← value_get y; modify <[y := None]> ;; mret v.

Definition value_op (op : sptr_op) : M Values unit :=
  match op with
  | MkPtr x o => value_declare x (Some o)
  | NullPtr x => value_declare x None
  | MoveConstruct x y => v ← value_take y; value_declare x v
  | MoveAssign x y => v ← value_take y; value_get x ;; modify <[x := v]>
  | Arrow x => v ← value_get x; match v with Some _ => mret tt | None => null_pointer end
  | Destroy x => value_get x ;; modify (delete x)
  end.

Definition value_ops (ops : list sptr_op) : M Values unit := for_each ops value_op.

(** ** Ownership *)

Record owned (h : Heap) : Prop := {
  own_live p : is_Some (h_live h !! p) <-> exists x, h_sptrs h !! x = Some (Some p);
  own_one x y p : h_sptrs h !! x = Some (Some p) -> h_sptrs h !! y = Some (Some p) -> x = y;
  own_all p : (p < h_next h)%nat <-> is_Some (h_live h !! p) \/ p ∈ h_deleted h;
  own_once : NoDup (h_deleted h);
  own_gone p : p ∈ h_deleted h -> h_live h !! p = None
}.

(** The values the [sptr]s hold. *)
Definition values (h : Heap) : Values := (fun p => p ≫= fun a => h_live h !! a) <$> h_sptrs h.

Lemma owned_empty : owned empty_heap.
Proof.
  split; cbn.
  - intros p. split; [by intros []|by intros []].
  - done.
  - intros p. split; [lia|]. intros [[]|?%not_elem_of_nil]; done.
  - constructor.
  - by intros p ?%not_elem_of_nil.
Qed.

Lemma values_lookup h x : values h !! x = (fun p => p ≫= fun a => h_live h !! a) <$> h_sptrs h !! x.
Proof. apply lookup_fmap. Qed.

(** A new object in a new variable. *)
Lemma owned_new h x o : owned h -> h_sptrs h !! x = None ->
  let h' := h <| h_live ::= <[h_next h := o]> |> <| h_next := S (h_next h) |> <| h_sptrs ::= <[x := Some (h_next h)]> |> in
  owned h' /\ values h' = <[x := Some o]> (values h).
Proof.
  intros [H1 H2 H3 H4 H5] Hx h'. subst h'. assert (Hn : h_live h !! h_next h = None).
  { apply eq_None_not_Some. intros Hl. assert (h_next h < h_next h)%nat by (apply H3; auto). lia. }
  assert (Hf : forall y, h_sptrs h !! y = Some (Some (h_next h)) -> False).
  { intros y Hy. assert (Hs : is_Some (h_live h !! h_next h)) by (apply H1; eauto). rewrite Hn in Hs. by destruct Hs. }
  split; [split; cbn|].
  - intros p. destruct (decide (p = h_next h)) as [->|Hp].
    + rewrite lookup_insert_eq. split; [|done]. intros _. exists x. by rewrite lookup_insert_eq.
    + rewrite lookup_insert_ne, H1 by done. split; intros [y Hy]; exists y.
      * rewrite lookup_insert_ne by (by intros <-; congruence). done.
      * apply lookup_insert_Some in Hy as [[? ?]|[? ?]]; [congruence|done].
  - intros y z p. rewrite !lookup_insert_Some. naive_solver.
  - intros p. destruct (decide (p = h_next h)) as [->|Hp].
    + rewrite lookup_insert_eq. split; [by left|lia].
    + rewrite lookup_insert_ne, <- H3 by done. lia.
  - done.
  - intros p Hp. rewrite lookup_insert_ne; [auto|]. intros <-. assert (h_next h < h_next h)%nat by (apply H3; auto). lia.
  - apply map_eq. intros y. rewrite values_lookup. cbn. destruct (decide (y = x)) as [->|Hy].
    + rewrite !lookup_insert_eq. cbn. by rewrite lookup_insert_eq.
    + rewrite !lookup_insert_ne, values_lookup by done. destruct (h_sptrs h !! y) as [[a|]|] eqn:E; try done. cbn.
      rewrite lookup_insert_ne; [done|]. intros <-. eauto.
Qed.

(** [y]'s pointer moved to [x], which held none. *)
Lemma owned_move h x y q : owned h -> h_sptrs h !! y = Some q -> x <> y ->
  (h_sptrs h !! x = None \/ h_sptrs h !! x = Some None) ->
  let h' := h <| h_sptrs ::= fun m => <[x := q]> (<[y := None]> m) |> in
  owned h' /\ values h' = <[x := q ≫= fun a => h_live h !! a]> (<[y := None]> (values h)).
Proof.
  intros [H1 H2 H3 H4 H5] Hy Hxy Hx h'. subst h'.
  assert (Hl : forall z p, <[x := q]> (<[y := None]> (h_sptrs h)) !! z = Some (Some p) <->
    exists z', h_sptrs h !! z' = Some (Some p) /\ z = if decide (z' = y) then x else z').
  { intros z p. rewrite !lookup_insert_Some. split.
    - intros [[<- ->]|(? & [[? ?]|[? ?]])]; [exists y|done|exists z]; split; try done; case_decide; congruence.
    - intros (z' & Hz & ->). case_decide; subst; naive_solver. }
  split; [split; cbn; try done|].
  - intros p. rewrite H1. setoid_rewrite Hl. naive_solver.
  - intros u v p. rewrite !Hl. intros (u' & ? & ->) (v' & ? & ->). by rewrite (H2 u' v' p).
  - apply map_eq. intros z. rewrite values_lookup. cbn. destruct (decide (z = x)) as [->|Hz]; [by rewrite !lookup_insert_eq|].
    destruct (decide (z = y)) as [->|Hz']; [by rewrite !(lookup_insert_ne _ x), !lookup_insert_eq|].
    by rewrite !lookup_insert_ne, values_lookup by done.
Qed.

(** An object deleted when its [sptr] lets go of it: [m] is the rest of the variables. *)
Lemma owned_delete h x old m : owned h -> h_sptrs h !! x = Some old ->
  (forall z p, m !! z = Some (Some p) <-> z <> x /\ h_sptrs h !! z = Some (Some p)) ->
  exists h', delete_obj old (mkHeap (h_live h) (h_deleted h) (h_next h) m) = (Ret tt, h') /\ owned h' /\ h_sptrs h' = m /\
    forall z p, z <> x -> h_sptrs h !! z = Some p -> p ≫= (fun a => h_live h' !! a) = p ≫= fun a => h_live h !! a.
Proof.
  intros [H1 H2 H3 H4 H5] Hx Hm. destruct old as [a|]; cbn.
  - assert (Ha : is_Some (h_live h !! a)) by (apply H1; eauto). destruct Ha as [o Ha].
    eexists. split; [unfold mbind, M_bind; cbn; by rewrite Ha|]. split_and!; [split|done|]; cbn.
    + intros p. rewrite lookup_delete_is_Some, H1. setoid_rewrite Hm. naive_solver.
    + intros u v p. rewrite !Hm. naive_solver.
    + intros p. rewrite lookup_delete_is_Some, elem_of_cons, H3. destruct (decide (p = a)); naive_solver.
    + constructor; [|done]. intros Hd%H5. congruence.
    + intros p [->|Hp]%elem_of_cons; [by rewrite lookup_delete_eq|]. apply lookup_delete_None. auto.
    + intros z [p|] Hz Hp; [|done]. cbn. rewrite lookup_delete_ne; [done|]. intros <-. naive_solver.
  - eexists. split; [done|]. split_and!; [split|done|done]; cbn; try done.
    + intros p. rewrite H1. setoid_rewrite Hm. naive_solver.
    + intros u v p. rewrite !Hm. naive_solver.
Qed.

(** The heap and the values agree on one operation. *)
Definition agree (r : outcome unit * Heap) (r' : outcome unit * Values) : Prop :=
  match r, r' with
  | (Ret _, h), (Ret _, m) => owned h /\ values h = m
  | (UB k, _), (UB k', _) => k = k'
  | _, _ => False
  end.

Lemma values_None h x : h_sptrs h !! x = None -> values h !! x = None.
Proof. intros Hx. by rewrite values_lookup, Hx. Qed.

Lemma values_Some h x p : h_sptrs h !! x = Some p -> values h !! x = Some (p ≫= fun a => h_live h !! a).
Proof. intros Hx. by rewrite values_lookup, Hx. Qed.

Lemma agree_declare_null h x : owned h -> agree (nullptr x h) (value_declare x None (values h)).
Proof.
  intros Ho. unfold nullptr, declare, value_declare. destruct (h_sptrs h !! x) eqn:E.
  { by erewrite values_Some. }
  rewrite values_None by done. destruct Ho as [H1 H2 H3 H4 H5]. split.
  - split; cbn; try done.
    + intros p. rewrite H1. setoid_rewrite lookup_insert_Some. naive_solver.
    + intros u v p. rewrite !lookup_insert_Some. naive_solver.
  - unfold values. cbn. by rewrite fmap_insert.
Qed.

Lemma agree_mkptr h x o : owned h -> agree (mkptr x o h) (value_declare x (Some o) (values h)).
Proof.
  intros Ho. unfold mkptr, new_obj, declare, value_declare, mbind, M_bind. cbn.
  destruct (h_sptrs h !! x) eqn:E; [by erewrite values_Some|].
  rewrite values_None by done. by apply (owned_new h x o).
Qed.

Lemma agree_move_construct h x y : owned h -> agree (run_op (MoveConstruct x y) h) (value_op (MoveConstruct x y) (values h)).
Proof.
  intros Ho. cbn. unfold move_construct, release, value_take, value_get, sptr_get, declare, value_declare, mbind, M_bind.
  destruct (h_sptrs h !! y) as [q|] eqn:Ey; [|by rewrite values_None].
  erewrite values_Some by done. cbn. destruct (decide (x = y)) as [->|Hxy]; [by rewrite !lookup_insert_eq|].
  rewrite !lookup_insert_ne by done.
  destruct (h_sptrs h !! x) eqn:Ex; [by erewrite values_Some|]. rewrite values_None by done. by apply owned_move; auto.
Qed.

Lemma agree_destroy h x : owned h -> agree (run_op (Destroy x) h) (value_op (Destroy x) (values h)).
Proof.
  intros Ho. cbn. unfold destroy, value_get, sptr_get, mbind, M_bind.
  destruct (h_sptrs h !! x) as [old|] eqn:Ex; [|by rewrite values_None]. erewrite values_Some by done.
  cbn -[delete_obj]. destruct (owned_delete h x old (delete x (h_sptrs h)) Ho Ex) as (h' & -> & Ho' & Hm & Hl).
  { intros z p. rewrite lookup_delete_Some. naive_solver. }
  split; [done|]. apply map_eq. intros z. rewrite values_lookup, Hm. destruct (decide (z = x)) as [->|Hz].
  - by rewrite !lookup_delete_eq.
  - rewrite !lookup_delete_ne, values_lookup by done. destruct (h_sptrs h !! z) as [p|] eqn:Ez; [|done]. cbn. by rewrite (Hl z).
Qed.

(** [delete] does not look at the variables. *)
Lemma delete_obj_frame p h h' m : delete_obj p h = (Ret tt, h') ->
  delete_obj p (h <| h_sptrs := m |>) = (Ret tt, h' <| h_sptrs := m |>).
Proof. destruct p as [a|]; cbn; unfold mbind, M_bind, mret, M_ret, modify; cbn; [destruct (h_live h !! a)|]; intros; by simplify_eq. Qed.

(** Assignment deletes what the target held, then takes over: as if the target had been reset first. *)
Lemma agree_move_assign h x y : owned h -> agree (run_op (MoveAssign x y) h) (value_op (MoveAssign x y) (values h)).
Proof.
  intros Ho. cbn. unfold move_assign, release, reset, value_take, value_get, sptr_get, mbind, M_bind.
  destruct (h_sptrs h !! y) as [q|] eqn:Ey; [|by rewrite values_None].
  erewrite values_Some by done. cbn. destruct (decide (x = y)) as [->|Hxy].
  { rewrite !lookup_insert_eq. cbn. unfold agree. rewrite !insert_insert_eq.
    rewrite !insert_id by (done || by apply values_Some). by destruct h. }
  rewrite !lookup_insert_ne by done.
  destruct (h_sptrs h !! x) as [old|] eqn:Ex; [|by rewrite values_None]. erewrite values_Some by done.
  cbn -[delete_obj]. destruct (owned_delete h x old (<[x := None]> (h_sptrs h)) Ho Ex) as (h' & Hd & Ho' & Hm & Hl).
  { intros z p. rewrite lookup_insert_Some. naive_solver. }
  eapply (delete_obj_frame _ _ _ (<[x := q]> (<[y := None]> (h_sptrs h)))) in Hd. cbn -[delete_obj] in Hd. rewrite Hd.
  destruct (owned_move h' x y q Ho') as [Hh Hv]; [by rewrite Hm, lookup_insert_ne|done|rewrite Hm, lookup_insert_eq; auto|].
  assert (E : <[x := q]> (<[y := None]> (<[x := None]> (h_sptrs h))) = <[x := q]> (<[y := None]> (h_sptrs h))).
  { by rewrite (insert_insert_ne _ y x), insert_insert_eq by done. }
  cbn in Hh. rewrite Hm, E in Hh. split; [done|]. apply map_eq. intros z. rewrite values_lookup. cbn.
  destruct (decide (z = x)) as [->|Hz]; [rewrite !lookup_insert_eq; cbn; by rewrite (Hl y)|].
  rewrite !(lookup_insert_ne _ x) by done. destruct (decide (z = y)) as [->|]; [by rewrite !lookup_insert_eq|].
  rewrite !lookup_insert_ne, values_lookup by done. destruct (h_sptrs h !! z) eqn:Ez; [|done]. cbn. by rewrite (Hl z).
Qed.

Lemma agree_arrow h x : owned h -> agree (run_op (Arrow x) h) (value_op (Arrow x) (values h)).
Proof.
  intros Ho. cbn. unfold sptr_arrow, value_get, sptr_get, mbind, M_bind.
  destruct (h_sptrs h !! x) as [[a|]|] eqn:Ex; [|by rewrite (values_Some _ _ None)|by rewrite values_None].
  erewrite values_Some by done. cbn. assert (Ha : is_Some (h_live h !! a)) by (apply own_live; eauto).
  by destruct Ha as [o ->].
Qed.

Lemma agree_op op h : owned h -> agree (run_op op h) (value_op op (values h)).
Proof.
  destruct op; [apply agree_mkptr|apply agree_declare_null|apply agree_move_construct|apply agree_move_assign
    |apply agree_arrow|apply agree_destroy].
Qed.

Lemma agree_ops ops h : owned h -> agree (run_ops ops h) (value_ops ops (values h)).
Proof.
  revert h. induction ops as [|op ops IH]; intros h Ho; [done|]. pose proof (agree_op op h Ho) as Ha.
  unfold run_ops, value_ops in *. cbn [for_each]. unfold mbind, M_bind.
  destruct (run_op op h) as [[[]|?|?|] h'], (value_op op (values h)) as [[[]|?|?|] m]; try done.
  destruct Ha as [Ho' <-]. by apply IH.
Qed.

(** C16. [sptr] has the semantics of values: for every program of constructions, moves, assignments
    (self-assignment included), uses and ends of scope, the heap gives what the same program
    gives on variables that hold their objects themselves; no address is used or deleted after
    it was deleted, each live object is held by exactly one [sptr], and once every [sptr] is gone
    every object has been deleted, exactly once. *)
Theorem sptr_owns ops :
  agree (run_ops ops empty_heap) (value_ops ops ∅) /\
  forall h, run_ops ops empty_heap = (Ret tt, h) -> h_sptrs h = ∅ -> h_live h = ∅ /\ h_deleted h ≡ₚ seq 0 (h_next h).
Proof.
  assert (Ha : agree (run_ops ops empty_heap) (value_ops ops ∅)) by apply (agree_ops ops), owned_empty.
  split; [done|]. intros h Hh Hs. rewrite Hh in Ha. destruct (value_ops ops ∅) as [[[]|?|?|] m]; try done.
  destruct Ha as [[H1 H2 H3 H4 H5] _].
  assert (Hl : forall p, ~ is_Some (h_live h !! p)) by (intros p; rewrite H1, Hs; by intros [x ?]).
  split; [apply map_empty; intros p; by apply eq_None_not_Some|].
  apply NoDup_Permutation; [done|apply NoDup_seq|]. intros p. rewrite elem_of_seq. specialize (H3 p). specialize (Hl p).
  naive_solver lia.
Qed.
End Pointers.

(** Two objects: the second is assigned over the first, which is deleted, moved on, and
    deleted at the end of its scope. *)
Definition ex_ops : list (@sptr_op Z) :=
  [MkPtr 0 5; MkPtr 1 6; MoveAssign 0 1; MoveAssign 0 0; MoveConstruct 2 0; Arrow 2; Destroy 2; Destroy 1; Destroy 0].

Definition ex_end : @Heap Z := mkHeap ∅ [1; 0]%nat 2 ∅.

Lemma sptr_owns_witness :
  run_ops ACommand ex_ops empty_heap = (Ret tt, ex_end) /\ h_live ex_end = ∅ /\ h_deleted ex_end ≡ₚ seq 0 (h_next ex_end).
Proof.
  assert (E : run_ops ACommand ex_ops empty_heap = (Ret tt, ex_end)) by (vm_compute; reflexivity).
  split; [exact E|]. exact (proj2 (sptr_owns ACommand ex_ops) ex_end E eq_refl).
Defined.

(** Comparing references compares the objects: an order on the objects is one on the live
    references, a null one is undefined behaviour. *)
Lemma sref_ltb_live {A} p_kind (ltb : A -> A -> bool) h a b x y :
  h_live h !! a = Some x -> h_live h !! b = Some y ->
  sref_ltb p_kind ltb (mkref a) (mkref b) h = (Ret (ltb x y), h).
Proof. intros Hx Hy. unfold sref_ltb, mbind, M_bind. cbn. by rewrite Hx, Hy. Qed.
