(* ===== verification/Message.v ===== *)
(** * The message splitter: [core/message.hpp], [core/message.cpp]

    [parse], the CRTP base [MessageSplitterBase], [split_by], [split] and
    [format_command].  An iterator over a buffer is its offset, a [Z]; it may leave
    the buffer, as a C++ pointer may, and dereferencing it there is [Undefined]. *)
From S2P Require Import Prelude Strings.
#[local] Open Scope Z_scope.

Definition LENGTH_OF_CR_LF : Z := 2.

(** [*it] and the range [first, last) of a buffer. *)
Definition deref (buf : bytes) (it : Z) : outcome byte :=
  if 0 <=? it then
    match buf !! Z.to_nat it with Some b => Ret b | None => Undefined end
  else Undefined.

Definition slice (buf : bytes) (first last : Z) : outcome bytes :=
  if (0 <=? first) && (first <=? last) && (last <=? zlen buf)
  then Ret (take (Z.to_nat (last - first)) (drop (Z.to_nat first) buf))
  else Undefined.

(** What is left to read from [it]; [it] must be in [0, length]. *)
Definition tail_at (buf : bytes) (it : Z) : outcome bytes := slice buf it (zlen buf).

(** The loop of [btou]: [rest] is [begin, end), [pos] is [begin]. *)
Fixpoint btou_loop (rest : bytes) (pos i : Z) : outcome (Z * Z) :=
  match rest with
  | [] => Throw MessageInterrupted
  | b :: rest' =>
    if Ascii.eqb b CR then
      match rest' with
      | [] => Throw MessageInterrupted
      | _ :: _ => Ret (i, pos + 2)
      end
    else btou_loop rest' (pos + 1) (wrap64 (i * 10 + (byte_val b - 48)))
  end.

Definition btou (buf : bytes) (begin : Z) : outcome (Z * Z) :=
  rest ← tail_at buf begin; btou_loop rest begin 0.

Definition btoi (buf : bytes) (begin : Z) : outcome (Z * Z) :=
  b ← deref buf begin;
  if Ascii.eqb b "-"%char then
    '(v, next) ← btou buf (begin + 1); Ret (wrap64 (- v), next)
  else btou buf begin.

Fixpoint simple_str_loop (rest : bytes) (pos : Z) : outcome Z :=
  match rest with
  | [] => Throw MessageInterrupted
  | b :: rest' =>
    if Ascii.eqb b CR then
      match rest' with
      | [] => Throw MessageInterrupted
      | _ :: _ => Ret (pos + 2)
      end
    else simple_str_loop rest' (pos + 1)
  end.

Definition parse_simple_str (buf : bytes) (begin : Z) : outcome Z :=
  rest ← tail_at buf begin; simple_str_loop rest begin.

Definition parse_str (buf : bytes) (size begin : Z) : outcome Z :=
  let last := begin + size + LENGTH_OF_CR_LF in
  if zlen buf <? last then Throw MessageInterrupted else Ret last.

(** [pass_nil]: skip three bytes. *)
Fixpoint pass_nil_loop (size : nat) (rest : bytes) (pos : Z) : outcome Z :=
  match size, rest with
  | O, _ => Ret pos
  | S size', _ :: rest' => pass_nil_loop size' rest' (pos + 1)
  | S _, [] => Throw MessageInterrupted
  end.

Definition pass_nil (buf : bytes) (begin : Z) : outcome Z :=
  rest ← tail_at buf begin; pass_nil_loop 3 rest begin.

(** [BadRedisMessage(byte)] *)
Definition format_byte_in (what : byte) : bytes :=
  s2b "Unexpected token " ++ what :: s2b " (" ++ str (byte_val what) ++ s2b ")".
Definition bad_token (b : byte) : exn := BadRedisMessage (format_byte_in b).

(** ** [MessageSplitterBase<Iterator, FinalType>]

    The three members of the base class and the members [final] the derived class
    adds; the hooks are the functions the base calls through
    [static_cast<FinalType*>(this)]. *)
Record Splitter (F : Type) : Type := mkSplitter {
  _interrupted : bool;
  _split_points : list Z;
  _nested_array_element_count : list Z;
  final : F
}.
Arguments mkSplitter {F} _ _ _ _.
Arguments _interrupted {F} _.
Arguments _split_points {F} _.
Arguments _nested_array_element_count {F} _.
Arguments final {F} _.
#[export] Instance eta_Splitter F : Settable (Splitter F) := fun x =>
  mkSplitter (_interrupted x) (_split_points x) (_nested_array_element_count x) (final x).

Class SplitterHooks (F : Type) := {
  on_string : bytes -> Z -> Z -> M (Splitter F) unit;
  on_error : bytes -> Z -> Z -> M (Splitter F) unit;
  on_split_point : bytes -> Z -> M (Splitter F) unit;
  on_array : Z -> M (Splitter F) unit
}.

(** A hook that only touches the members of the derived class. *)
Definition on_final {F} (f : F -> outcome F) : M (Splitter F) unit := fun s =>
  match f (final s) with
  | Ret f' => (Ret tt, s <| final := f' |>)
  | Throw e => (Throw e, s)
  | UB k => (UB k, s)
  | NoFuel => (NoFuel, s)
  end.

(** The counters after one more element, and whether no array is open any more. *)
Fixpoint count_element (counts : list Z) : list Z * bool :=
  match counts with
  | [] => ([], true)
  | c :: outer =>
    let c' := wrap64 (c - 1) in
    if c' =? 0 then count_element outer else (c' :: outer, false)
  end.

Section Splitter.
Context {F : Type} `{!SplitterHooks F}.
Abbreviation MS := (M (Splitter F)).
Implicit Types (buf : bytes) (s : Splitter F).

Definition on_element buf (next : Z) : MS unit :=
  counts ← gets _nested_array_element_count;
  let '(counts', top) := count_element counts in
  modify (fun s => s <| _nested_array_element_count := counts' |>) ;;
  when top
    (on_split_point buf next ;;
     modify (fun s => s <| _split_points ::= (fun l => l ++ [next]) |>)).

Definition on_int buf (next : Z) : MS Z := on_element buf next ;; mret next.

Definition on_sstr buf (begin : Z) : MS Z :=
  next ← lift (parse_simple_str buf begin);
  on_string buf begin (next - LENGTH_OF_CR_LF) ;;
  on_element buf next ;; mret next.

Definition on_lstr buf (size begin : Z) : MS Z :=
  next ← lift (parse_str buf size begin);
  on_string buf begin (next - LENGTH_OF_CR_LF) ;;
  on_element buf next ;; mret next.

Definition on_arr buf (size next : Z) : MS unit :=
  on_array size ;;
  if size =? 0 then on_element buf next
  else modify (fun s => s <| _nested_array_element_count ::= cons size |>).

Definition on_nil buf (next : Z) : MS Z := on_element buf next ;; mret next.

Definition on_err buf (begin : Z) : MS Z :=
  next ← lift (parse_simple_str buf begin);
  on_error buf begin (next - LENGTH_OF_CR_LF) ;;
  on_element buf next ;; mret next.

(** [buffer_begin != buffer_end && *buffer_begin == '-'] *)
Definition at_minus buf (begin : Z) : outcome bool :=
  if begin =? zlen buf then Ret false
  else b ← deref buf begin; Ret (Ascii.eqb b "-"%char).

(** [parse] and its loop over the elements of an array. *)
Fixpoint parse (fuel : nat) buf (begin : Z) {struct fuel} : MS Z :=
  match fuel with
  | O => no_fuel
  | S fuel' =>
    if begin =? zlen buf then mret (zlen buf) else
    b ← lift (deref buf begin);
    let begin := begin + 1 in
    if Ascii.eqb b ":"%char then
      r ← lift (btoi buf begin); on_int buf r.2
    else if Ascii.eqb b "+"%char then on_sstr buf begin
    else if Ascii.eqb b "$"%char then
      nil ← lift (at_minus buf begin);
      if nil : bool then next ← lift (pass_nil buf (begin + 1)); on_nil buf next else
      r ← lift (btou buf begin); on_lstr buf r.1 r.2
    else if Ascii.eqb b "*"%char then
      nil ← lift (at_minus buf begin);
      if nil : bool then next ← lift (pass_nil buf (begin + 1)); on_nil buf next else
      r ← lift (btou buf begin);
      on_arr buf r.1 r.2 ;;
      parse_elements fuel' buf 0 r.1 r.2
    else if Ascii.eqb b "-"%char then on_err buf begin
    else throw (bad_token b)
  end
with parse_elements (fuel : nat) buf (i count begin : Z) {struct fuel} : MS Z :=
  match fuel with
  | O => no_fuel
  | S fuel' =>
    if (i <? count) && negb (begin =? zlen buf)
    then next ← parse fuel' buf begin; parse_elements fuel' buf (i + 1) count next
    else mret begin
  end.

Lemma parse_S fuel' buf begin :
  parse (S fuel') buf begin =
  (if begin =? zlen buf then mret (zlen buf) else
    b ← lift (deref buf begin);
    let begin := begin + 1 in
    if Ascii.eqb b ":"%char then
      r ← lift (btoi buf begin); on_int buf r.2
    else if Ascii.eqb b "+"%char then on_sstr buf begin
    else if Ascii.eqb b "$"%char then
      nil ← lift (at_minus buf begin);
      if nil : bool then next ← lift (pass_nil buf (begin + 1)); on_nil buf next else
      r ← lift (btou buf begin); on_lstr buf r.1 r.2
    else if Ascii.eqb b "*"%char then
      nil ← lift (at_minus buf begin);
      if nil : bool then next ← lift (pass_nil buf (begin + 1)); on_nil buf next else
      r ← lift (btou buf begin);
      on_arr buf r.1 r.2 ;;
      parse_elements fuel' buf 0 r.1 r.2
    else if Ascii.eqb b "-"%char then on_err buf begin
    else throw (bad_token b)).
Proof. done. Qed.

Lemma parse_elements_S fuel buf i count begin :
  parse_elements (S fuel) buf i count begin =
  if (i <? count) && negb (begin =? zlen buf)
  then next ← parse fuel buf begin; parse_elements fuel buf (i + 1) count next
  else mret begin.
Proof. done. Qed.

(** [while (begin != end) begin = parse(begin, end, s);] *)
Fixpoint parse_all (fuel : nat) buf (begin : Z) : MS unit :=
  match fuel with
  | O => no_fuel
  | S fuel' =>
    if begin =? zlen buf then mret tt
    else next ← parse fuel buf begin; parse_all fuel' buf next
  end.

Definition interrupt : MS unit := modify (fun s => s <| _interrupted := true |>).

(** The body of [split_by]: the splitter is the state. *)
Definition split_run (fuel : nat) buf : MS unit :=
  try_catch (parse_all fuel buf 0)
    (fun e => match e with MessageInterrupted => Some interrupt | _ => None end).

(** [split_by]: a splitter is returned by value; an exception other than
    [MessageInterrupted] leaves it. *)
Definition split_by (fuel : nat) buf (s : Splitter F) : outcome (Splitter F) :=
  match split_run fuel buf s with
  | (Ret _, s') => Ret s'
  | (Throw e, _) => Throw e
  | (UB k, _) => UB k
  | (NoFuel, _) => NoFuel
  end.

(** [MessageSplitterBase(begin)] *)
Definition new_splitter (f : F) : Splitter F := mkSplitter false [0] [] f.

Definition finished s : bool :=
  bool_decide (_nested_array_element_count s = []) && negb (_interrupted s).

(** [_split_points.back()]; the constructor pushes the first point. *)
Definition interrupt_point s : Z := default 0 (last (_split_points s)).

(** [size()], and the ranges [MessageIterator] walks: consecutive split points. *)
Definition splitter_size s : Z := zlen (_split_points s) - 1.

Definition message_ranges s : list (Z * Z) :=
  zip (_split_points s) (tail (_split_points s)).
End Splitter.

(** Enough fuel for a buffer of well-formed messages: every call consumes a byte. *)
Definition msg_fuel (buf : bytes) : nat := S (S (length buf)).

(** [MessageSplitter]: the base hooks, which do nothing. *)
#[export] Instance plain_hooks : SplitterHooks unit := {
  on_string _ _ _ := mret tt;
  on_error _ _ _ := mret tt;
  on_split_point _ _ := mret tt;
  on_array _ := mret tt
}.

Definition split (buf : bytes) : outcome (Splitter unit) :=
  split_by (msg_fuel buf) buf (new_splitter tt).

(** [format_command] *)
Definition format_command (command : bytes) (args : list bytes) : bytes :=
  let r := ["*"%char :: str (zlen args + 1); "$"%char :: str (zlen command); command] ++
           concat ((fun s => ["$"%char :: str (zlen s); s]) <$> args) in
  join crlf r ++ crlf.

(** ** Relations every step preserves

    A preorder between splitters that the hooks, [on_element] and the opening of an
    array respect is respected by [parse], whatever the buffer holds and however the
    call ends. *)
Section Preserve.
Context {F : Type} `{!SplitterHooks F}.
Context (R : Splitter F -> Splitter F -> Prop) `{!PreOrder R}.

Definition relates {A} (c : M (Splitter F) A) : Prop := forall s, R s (c s).2.

Hypothesis relates_on_string : forall buf b e, relates (on_string buf b e).
Hypothesis relates_on_error : forall buf b e, relates (on_error buf b e).
Hypothesis relates_on_array : forall n, relates (on_array n).
Hypothesis relates_on_element : forall buf p, relates (on_element buf p).
Hypothesis relates_push :
  forall n, relates (modify (fun s => s <| _nested_array_element_count ::= cons n |>)).

Lemma relates_bind {A B} (c : M (Splitter F) A) (k : A -> M (Splitter F) B) :
  relates c -> (forall a, relates (k a)) -> relates (c ≫= k).
Proof.
  intros Hc Hk s. unfold mbind, M_bind. specialize (Hc s).
  destruct (c s) as [[a| | |] s1]; cbn in *; [|done..]. by etrans; [|apply Hk].
Qed.

Lemma relates_lift {A} (o : outcome A) : relates (lift o).
Proof. intros s. cbn. done. Qed.

Lemma relates_ret {A} (a : A) : relates (mret a).
Proof. intros s. cbn. done. Qed.

Lemma parse_preserves fuel :
  (forall buf p, relates (parse fuel buf p)) /\
  (forall buf i n p, relates (parse_elements fuel buf i n p)).
Proof.
  induction fuel as [|fuel [IH1 IH2]]; [split; intros; intros s; cbn; done|].
  split.
  - intros buf p. cbn [parse]. unfold on_int, on_sstr, on_lstr, on_nil, on_err, on_arr.
    repeat first
      [ apply relates_lift | apply relates_ret | apply relates_on_string
      | apply relates_on_error | apply relates_on_array | apply relates_on_element
      | apply relates_push | apply IH2
      | apply relates_bind; [|intros]
      | match goal with |- relates (if ?b then _ else _) => destruct b end
      | intros s; cbn; done ].
  - intros buf i n p. rewrite parse_elements_S. destruct (_ && _); [|apply relates_ret].
    by apply relates_bind.
Qed.

Lemma parse_all_preserves fuel buf p : relates (parse_all fuel buf p).
Proof.
  revert p. induction fuel as [|fuel IH]; intros p; cbn [parse_all]; [intros s; cbn; done|].
  destruct (p =? zlen buf); [apply relates_ret|].
  apply relates_bind; [apply parse_preserves|done].
Qed.
End Preserve.
