(* ===== verification/Resp.v ===== *)
(** * RESP values: the specification of the message splitter

    A RESP value, its encoding on the wire, and the traversal [walk] a splitter
    owes a value at a given offset: the hook calls it makes, in order.  [parse] of
    an encoded value is exactly that traversal, and [parse] of a proper prefix of
    one is interrupted without a split point. *)
From S2P Require Import Prelude Strings Message.
#[local] Open Scope Z_scope.

#[warnings="-register-all"]
Inductive resp : Type :=
  | RInt (z : Z)
  | RSimple (s : bytes)
  | RError (s : bytes)
  | RBulk (s : bytes)
  | RNull
  | RNullArray
  | RArray (l : list resp).

(** The structural induction principle with the elements' hypotheses. *)
Fixpoint resp_induction (P : resp -> Prop)
    (Hint : forall z, P (RInt z)) (Hsimple : forall s, P (RSimple s))
    (Herror : forall s, P (RError s)) (Hbulk : forall s, P (RBulk s))
    (Hnull : P RNull) (Hnullarr : P RNullArray)
    (Harr : forall l, Forall P l -> P (RArray l)) (m : resp) : P m :=
  match m with
  | RInt z => Hint z
  | RSimple s => Hsimple s
  | RError s => Herror s
  | RBulk s => Hbulk s
  | RNull => Hnull
  | RNullArray => Hnullarr
  | RArray l =>
    Harr l ((fix go l : Forall P l := match l with
                         | [] => Forall_nil_2 _
                         | x :: l' => Forall_cons_2 _ x l'
                             (resp_induction P Hint Hsimple Herror Hbulk Hnull Hnullarr Harr x)
                             (go l')
                         end) l)
  end.

(** The header line of a bulk string or an array. *)
Definition header (c : byte) (n : Z) : bytes := c :: str n ++ crlf.

Fixpoint encode (m : resp) : bytes :=
  match m with
  | RInt z => ":"%char :: str z ++ crlf
  | RSimple s => "+"%char :: s ++ crlf
  | RError s => "-"%char :: s ++ crlf
  | RBulk s => header "$"%char (zlen s) ++ s ++ crlf
  | RNull => s2b "$-1" ++ crlf
  | RNullArray => s2b "*-1" ++ crlf
  | RArray l => header "*"%char (zlen l) ++ flat_map encode l
  end.

(** Simple strings and errors hold no carriage return. *)
Fixpoint wf (m : resp) : bool :=
  match m with
  | RSimple s | RError s => bool_decide (CR ∉ s)
  | RArray l => forallb wf l
  | _ => true
  end.

(** [f] on each element, threading the offset. *)
Section Walk.
Context {A S : Type} (f : A -> Z -> M S Z).
Fixpoint walk_list (l : list A) (pos : Z) : M S Z :=
  match l with
  | [] => mret pos
  | x :: l' => next ← f x pos; walk_list l' next
  end.
End Walk.

Fixpoint walk {F} `{!SplitterHooks F} (buf : bytes) (m : resp) (pos : Z) : M (Splitter F) Z :=
  let next := pos + zlen (encode m) in
  let done := on_element buf next ;; mret next in
  match m with
  | RInt _ | RNull | RNullArray => done
  | RSimple _ => on_string buf (pos + 1) (next - 2) ;; done
  | RError _ => on_error buf (pos + 1) (next - 2) ;; done
  | RBulk s => on_string buf (next - 2 - zlen s) (next - 2) ;; done
  | RArray l =>
    let first := pos + zlen (header "*"%char (zlen l)) in
    on_arr buf (zlen l) first ;; walk_list (walk buf) l first
  end.

(** ** Reading at an offset *)

Lemma slice_spec buf pre x post first last :
  buf = pre ++ x ++ post -> first = zlen pre -> last = zlen pre + zlen x ->
  slice buf first last = Ret x.
Proof.
  intros -> -> ->. unfold slice. pose_zlen_nonneg. autorewrite with zlen in *. pose_zlen_nonneg.
  rewrite !(proj2 (Z.leb_le _ _)) by lia. cbn.
  f_equal. unfold zlen. rewrite Nat2Z.id, drop_app_length.
  replace (Z.to_nat _) with (length x) by lia. apply take_app_length.
Qed.

Lemma tail_at_spec buf pre rest pos :
  buf = pre ++ rest -> pos = zlen pre -> tail_at buf pos = Ret rest.
Proof.
  intros -> ->. unfold tail_at. eapply (slice_spec _ pre rest []); [by rewrite app_nil_r|done|].
  by autorewrite with zlen.
Qed.

Lemma deref_spec buf pre b post pos :
  buf = pre ++ b :: post -> pos = zlen pre -> deref buf pos = Ret b.
Proof.
  intros -> ->. unfold deref. rewrite (proj2 (Z.leb_le _ _)) by apply zlen_nonneg.
  unfold zlen. rewrite Nat2Z.id. by rewrite list_lookup_middle.
Qed.

Lemma at_end_false buf pre b (post : bytes) pos :
  buf = pre ++ b :: post -> pos = zlen pre -> (pos =? zlen buf) = false.
Proof. intros -> ->. apply Z.eqb_neq. zlen_lia. Qed.

Definition wrapped_value (i : Z) (ds : bytes) : Z :=
  foldl (fun a b => wrap64 (a * 10 + (byte_val b - 48))) i ds.

Lemma btou_loop_line ds c post pos i :
  CR ∉ ds ->
  btou_loop (ds ++ CR :: c :: post) pos i = Ret (wrapped_value i ds, pos + zlen ds + 2).
Proof.
  revert pos i. induction ds as [|d ds IH]; intros pos i; [cbn; intros _; do 3 f_equal; unfold zlen; cbn; lia|].
  rewrite not_elem_of_cons. intros [Hd Hds]. cbn [app btou_loop].
  destruct (Ascii.eqb_spec d CR); [congruence|]. rewrite IH by done. do 2 f_equal. zlen_lia.
Qed.

Lemma simple_str_loop_line s c post pos :
  CR ∉ s -> simple_str_loop (s ++ CR :: c :: post) pos = Ret (pos + zlen s + 2).
Proof.
  revert pos. induction s as [|d s IH]; intros pos; [cbn; intros _; do 2 f_equal; unfold zlen; cbn; lia|].
  rewrite not_elem_of_cons. intros [Hd Hs]. cbn [app simple_str_loop].
  destruct (Ascii.eqb_spec d CR); [congruence|]. rewrite IH by done. f_equal. zlen_lia.
Qed.

Lemma digits_no_CR ds : Forall (fun b => is_digit b = true) ds -> CR ∉ ds.
Proof. rewrite Forall_forall. intros H Hin. by specialize (H _ Hin). Qed.

Lemma str_nonneg n : 0 <= n -> str n = print_nat n.
Proof. intros. unfold str. by destruct (Z.ltb_spec n 0); [lia|]. Qed.

Lemma str_no_CR n : CR ∉ str n.
Proof.
  unfold str. destruct (n <? 0).
  - rewrite not_elem_of_cons. split; [done | apply digits_no_CR, print_nat_digits].
  - apply digits_no_CR, print_nat_digits.
Qed.

(** A printed nonnegative number does not start with ['-'] or [CR]. *)
Lemma str_head n : 0 <= n -> exists d ds, str n = d :: ds /\ is_digit d = true.
Proof.
  intros Hn. rewrite str_nonneg by done. pose proof (print_nat_digits n) as Hd.
  pose proof (print_nat_ne n). destruct (print_nat n) as [|d ds]; [done|].
  exists d, ds. split; [done | by apply Forall_inv in Hd].
Qed.

Lemma dec_value_mono acc ds :
  0 <= acc -> Forall (fun b => is_digit b = true) ds -> acc <= dec_value acc ds.
Proof.
  intros Ha Hd. revert acc Ha. induction Hd as [|d ds Hd Hds IH]; intros acc Ha; [done|].
  cbn. apply is_digit_range in Hd. fold (dec_value (acc * 10 + digit_val d) ds).
  specialize (IH (acc * 10 + digit_val d)). unfold digit_val in *. lia.
Qed.

Lemma wrapped_value_small acc ds :
  0 <= acc -> Forall (fun b => is_digit b = true) ds -> dec_value acc ds < 2 ^ 63 ->
  wrapped_value acc ds = dec_value acc ds.
Proof.
  intros Ha Hd. revert acc Ha. induction Hd as [|d ds Hd Hds IH]; intros acc Ha Hv; [done|].
  cbn in *. fold (dec_value (acc * 10 + digit_val d) ds) in *.
  apply is_digit_range in Hd. unfold digit_val in *.
  assert (Hacc : 0 <= acc * 10 + (byte_val d - 48)) by lia.
  pose proof (dec_value_mono _ ds Hacc Hds). rewrite wrap64_id by (unfold in_rint; lia). apply IH; [lia|done].
Qed.

Lemma wrapped_value_str n : 0 <= n < 2 ^ 63 -> wrapped_value 0 (str n) = n.
Proof.
  intros Hn. rewrite str_nonneg by lia.
  rewrite wrapped_value_small; rewrite ?print_nat_value; try lia. apply print_nat_digits.
Qed.

(** ** Headers *)

Lemma btou_line buf pre ds post pos :
  buf = pre ++ ds ++ crlf ++ post -> pos = zlen pre -> CR ∉ ds ->
  btou buf pos = Ret (wrapped_value 0 ds, pos + zlen ds + 2).
Proof.
  intros -> -> Hds. unfold btou.
  rewrite (tail_at_spec _ pre (ds ++ crlf ++ post)) by done. by apply btou_loop_line.
Qed.

Lemma btou_header buf pre c n post pos :
  buf = pre ++ header c n ++ post -> pos = zlen pre + 1 -> 0 <= n < 2 ^ 63 ->
  btou buf pos = Ret (n, zlen pre + zlen (header c n)).
Proof.
  intros -> -> Hn. unfold header.
  rewrite (btou_line _ (pre ++ [c]) (str n) post).
  - rewrite wrapped_value_str by done. do 2 f_equal. zlen_lia.
  - app_eq.
  - zlen_lia.
  - apply str_no_CR.
Qed.

Lemma at_minus_digit buf pre d post pos :
  buf = pre ++ d :: post -> pos = zlen pre -> is_digit d = true ->
  at_minus buf pos = Ret false.
Proof.
  intros Hb Hp Hd. unfold at_minus. rewrite (at_end_false _ _ _ _ _ Hb Hp).
  rewrite (deref_spec _ _ _ _ _ Hb Hp). cbn. by rewrite is_digit_not_char.
Qed.

Lemma at_minus_header buf pre c n post pos :
  buf = pre ++ header c n ++ post -> pos = zlen pre + 1 -> 0 <= n ->
  at_minus buf pos = Ret false.
Proof.
  intros -> -> Hn. destruct (str_head n Hn) as (d & ds & Hs & Hd).
  eapply (at_minus_digit _ (pre ++ [c]) d (ds ++ crlf ++ post)); [|zlen_lia|done].
  unfold header. rewrite Hs. app_eq.
Qed.

Lemma btoi_str buf pre n post pos :
  buf = pre ++ str n ++ crlf ++ post -> pos = zlen pre ->
  exists v, btoi buf pos = Ret (v, pos + zlen (str n) + 2).
Proof.
  intros -> ->. unfold btoi. unfold str. destruct (n <? 0) eqn:Hn.
  - rewrite (deref_spec _ pre "-"%char (print_nat (- n) ++ crlf ++ post)) by done.
    cbn [mbind outcome_bind]. eval_eqb.
    rewrite (btou_line _ (pre ++ ["-"%char]) (print_nat (- n)) post).
    + cbn. eexists. do 2 f_equal. zlen_lia.
    + app_eq.
    + zlen_lia.
    + apply digits_no_CR, print_nat_digits.
  - pose proof (print_nat_digits n) as Hd. pose proof (print_nat_ne n) as Hne.
    rewrite (btou_line _ pre (print_nat n) post (zlen pre)) by
      (done || apply digits_no_CR, print_nat_digits).
    destruct (print_nat n) as [|d ds]; [done|]. apply Forall_inv in Hd.
    rewrite (deref_spec _ pre d (ds ++ crlf ++ post)) by done.
    cbn [mbind outcome_bind]. rewrite is_digit_not_char by done. by eexists.
Qed.

Lemma parse_simple_str_line buf pre s post pos :
  buf = pre ++ s ++ crlf ++ post -> pos = zlen pre -> CR ∉ s ->
  parse_simple_str buf pos = Ret (pos + zlen s + 2).
Proof.
  intros -> -> Hs. unfold parse_simple_str.
  rewrite (tail_at_spec _ pre (s ++ crlf ++ post)) by done. by apply simple_str_loop_line.
Qed.

Lemma encode_ne m : encode m <> [].
Proof. by destruct m. Qed.

Lemma encode_nonempty m : 0 < zlen (encode m).
Proof. destruct m; cbn; try done; unfold header; zlen_lia. Qed.

Section ParseEncode.
Context {F : Type} `{!SplitterHooks F}.
Implicit Types (s : Splitter F).

(** The call of [parse] at a byte of the buffer, [H : buf = pre ++ b :: post]. *)
Ltac at_byte H :=
  cbn [parse];
  rewrite (at_end_false _ _ _ _ _ H eq_refl), (deref_spec _ _ _ _ _ H eq_refl), bind_lift_Ret;
  eval_eqb.

Definition parses_as (m : resp) : Prop := forall buf pre post fuel s,
  buf = pre ++ encode m ++ post -> zlen buf < 2 ^ 63 ->
  (length (encode m) <= fuel)%nat ->
  parse fuel buf (zlen pre) s = walk buf m (zlen pre) s.

Lemma parses_as_int z : parses_as (RInt z).
Proof.
  intros buf pre post [|fuel] s Hb Hl Hf; cbn in Hb, Hf; [lia|].
  assert (H : buf = pre ++ ":"%char :: str z ++ crlf ++ post) by app_eq. at_byte H.
  destruct (btoi_str buf (pre ++ [":"%char]) z post (zlen pre + 1)) as [v Hv];
    [app_eq | zlen_lia |].
  rewrite Hv, bind_lift_Ret. unfold on_int. cbn [walk encode snd].
  replace (zlen pre + 1 + _ + 2) with (zlen pre + zlen (":"%char :: str z ++ crlf)); [done|].
  zlen_lia.
Qed.

(** A line [c s CR LF] whose text is scanned by [parse_simple_str]. *)
Lemma simple_line buf pre c t post :
  buf = pre ++ (c :: t ++ crlf) ++ post -> CR ∉ t ->
  parse_simple_str buf (zlen pre + 1) = Ret (zlen pre + zlen (c :: t ++ crlf)).
Proof.
  intros Hb Ht. rewrite (parse_simple_str_line _ (pre ++ [c]) t post); [|app_eq|zlen_lia|done].
  f_equal. zlen_lia.
Qed.

Lemma parses_as_simple t : CR ∉ t -> parses_as (RSimple t).
Proof.
  intros Ht buf pre post [|fuel] s Hb Hl Hf; cbn in Hb, Hf; [lia|].
  assert (H : buf = pre ++ "+"%char :: t ++ crlf ++ post) by app_eq. at_byte H.
  unfold on_sstr. rewrite (simple_line buf pre "+"%char t post), bind_lift_Ret by done.
  done.
Qed.

Lemma parses_as_error t : CR ∉ t -> parses_as (RError t).
Proof.
  intros Ht buf pre post [|fuel] s Hb Hl Hf; cbn in Hb, Hf; [lia|].
  assert (H : buf = pre ++ "-"%char :: t ++ crlf ++ post) by app_eq. at_byte H.
  unfold on_err. rewrite (simple_line buf pre "-"%char t post), bind_lift_Ret by done.
  done.
Qed.

Lemma parses_as_bulk t : parses_as (RBulk t).
Proof.
  intros buf pre post [|fuel] s Hb Hl Hf; cbn [encode] in Hb, Hf; [cbn in Hf; lia|].
  assert (Hh : buf = pre ++ header "$"%char (zlen t) ++ t ++ crlf ++ post) by app_eq.
  assert (H : buf = pre ++ "$"%char :: str (zlen t) ++ crlf ++ t ++ crlf ++ post)
    by (unfold header in *; app_eq). at_byte H.
  assert (0 <= zlen t < 2 ^ 63) by zlen_lia.
  rewrite (at_minus_header _ _ _ _ _ _ Hh), bind_lift_Ret by lia.
  rewrite (btou_header _ _ _ _ _ _ Hh), bind_lift_Ret by lia. cbn [fst snd].
  unfold on_lstr, parse_str, LENGTH_OF_CR_LF. cbn [walk encode].
  rewrite (proj2 (Z.ltb_ge _ _)) by zlen_lia. rewrite bind_lift_Ret.
  replace (zlen pre + zlen (header "$"%char (zlen t)) + zlen t + 2) with
    (zlen pre + zlen (header "$"%char (zlen t) ++ t ++ crlf)) by zlen_lia.
  replace (zlen pre + zlen (header "$"%char (zlen t))) with
    (zlen pre + zlen (header "$"%char (zlen t) ++ t ++ crlf) - 2 - zlen t) at 1 by zlen_lia.
  done.
Qed.

Lemma pass_nil_spec buf pre (a b c : byte) post pos :
  buf = pre ++ a :: b :: c :: post -> pos = zlen pre -> pass_nil buf pos = Ret (pos + 3).
Proof.
  intros -> ->. unfold pass_nil.
  rewrite (tail_at_spec _ pre (a :: b :: c :: post)) by done. cbn. f_equal. lia.
Qed.

Lemma at_minus_true buf pre post pos :
  buf = pre ++ "-"%char :: post -> pos = zlen pre -> at_minus buf pos = Ret true.
Proof.
  intros Hb Hp. unfold at_minus. rewrite (at_end_false _ _ _ _ _ Hb Hp).
  by rewrite (deref_spec _ _ _ _ _ Hb Hp).
Qed.

Lemma parses_as_null (m : resp) : m = RNull \/ m = RNullArray -> parses_as m.
Proof.
  intros Hm buf pre post [|fuel] s Hb Hl Hf; [destruct Hm; subst; cbn in Hf; lia|].
  destruct Hm as [-> | ->].
  - assert (H : buf = pre ++ "$"%char :: "-"%char :: "1"%char :: CR :: LF :: post) by app_eq.
    at_byte H.
    rewrite (at_minus_true _ (pre ++ ["$"%char]) ("1"%char :: crlf ++ post)), bind_lift_Ret
      by (app_eq || zlen_lia).
    rewrite (pass_nil_spec _ (pre ++ ["$"%char; "-"%char]) "1"%char CR LF post), bind_lift_Ret
      by (app_eq || zlen_lia).
    cbn [walk]. change (zlen (encode RNull)) with 5. by replace (zlen pre + 5) with (zlen pre + 1 + 1 + 3) by lia.
  - assert (H : buf = pre ++ "*"%char :: "-"%char :: "1"%char :: CR :: LF :: post) by app_eq.
    at_byte H.
    rewrite (at_minus_true _ (pre ++ ["*"%char]) ("1"%char :: crlf ++ post)), bind_lift_Ret
      by (app_eq || zlen_lia).
    rewrite (pass_nil_spec _ (pre ++ ["*"%char; "-"%char]) "1"%char CR LF post), bind_lift_Ret
      by (app_eq || zlen_lia).
    cbn [walk]. change (zlen (encode RNullArray)) with 5. by replace (zlen pre + 5) with (zlen pre + 1 + 1 + 3) by lia.
Qed.
(** A traversal that returns, returns the end of the value. *)
Lemma walk_next buf m pos s p s' :
  walk buf m pos s = (Ret p, s') -> p = pos + zlen (encode m).
Proof.
  revert pos s p s'. induction m as [z|t|t|t| | |l IH] using resp_induction; intros pos s p s'.
  1-6: cbn [walk]; intros H; repeat (apply bind_Ret_inv in H as (? & ? & _ & H));
    unfold mret, M_ret in H; by simplify_eq.
  intros (? & s1 & _ & H)%bind_Ret_inv.
  enough (forall l pos s, Forall (fun m => forall pos s p s',
            walk buf m pos s = (Ret p, s') -> p = pos + zlen (encode m)) l ->
          walk_list (walk buf) l pos s = (Ret p, s') ->
          p = pos + zlen (flat_map encode l)) as Hl.
  { apply Hl in H; [|done]. cbn [encode]. rewrite zlen_app. lia. }
  clear. induction l as [|m l IHl]; intros pos s; cbn [walk_list flat_map].
  { intros _ [= -> ->]. rewrite zlen_nil. lia. }
  intros [Hm Hl]%Forall_cons_1 (q & s2 & H1%Hm & H2)%bind_Ret_inv.
  apply IHl in H2; [|done]. rewrite zlen_app. lia.
Qed.

Lemma walk_list_next buf l pos s p s' :
  walk_list (walk buf) l pos s = (Ret p, s') -> p = pos + zlen (flat_map encode l).
Proof.
  revert pos s. induction l as [|x l IH]; intros pos s; cbn [walk_list flat_map].
  - intros [= -> ->]. rewrite zlen_nil. lia.
  - intros (y & s1 & H1%walk_next & H2%IH)%bind_Ret_inv. rewrite zlen_app. lia.
Qed.

(** The loop over the elements of an array, as far as whole elements go. *)
Lemma parse_elements_app buf n l :
  Forall parses_as l -> zlen buf < 2 ^ 63 ->
  forall pre post fuel i s,
    buf = pre ++ flat_map encode l ++ post -> i + zlen l <= n ->
    (1 + length (flat_map encode l) <= fuel)%nat ->
    parse_elements fuel buf i n (zlen pre) s =
    (next ← walk_list (walk buf) l (zlen pre);
     parse_elements (fuel - length l) buf (i + zlen l) n next) s.
Proof.
  intros Hl Hbuf. induction Hl as [|m l Hm Hl IH]; intros pre post [|fuel] i s Hb Hi Hf;
    try (cbn in Hf; lia).
  { cbn [walk_list length]. rewrite zlen_nil, Z.add_0_r. by rewrite Nat.sub_0_r. }
  cbn [flat_map length parse_elements walk_list] in *.
  pose proof (encode_nonempty m) as Hne. rewrite length_app in Hf. unfold zlen in Hne.
  rewrite (proj2 (Z.ltb_lt _ _)) by zlen_lia.
  rewrite (proj2 (Z.eqb_neq _ _)) by (unfold zlen in *; subst; rewrite !length_app; lia).
  cbn [andb negb Nat.sub]. rewrite bind_assoc.
  apply bind_ext_Ret; [apply (Hm buf pre (flat_map encode l ++ post)); [app_eq|done|lia]|].
  intros p s1 ->%walk_next. rewrite <- zlen_app. rewrite (IH (pre ++ encode m) post); [|app_eq | zlen_lia | lia].
  by replace (i + 1 + zlen l) with (i + zlen (m :: l)) by zlen_lia.
Qed.

Lemma length_flat_map_encode l : (length l <= length (flat_map encode l))%nat.
Proof.
  induction l as [|m l IH]; [done|]. cbn. rewrite length_app.
  pose proof (encode_nonempty m) as H. unfold zlen in H. lia.
Qed.

Lemma parses_as_array l : Forall parses_as l -> parses_as (RArray l).
Proof.
  intros Hl buf pre post [|fuel] s Hb Hlen Hf; cbn [encode] in Hb, Hf; [cbn in Hf; lia|].
  assert (Hh : buf = pre ++ header "*"%char (zlen l) ++ flat_map encode l ++ post) by app_eq.
  assert (H : buf = pre ++ "*"%char :: str (zlen l) ++ crlf ++ flat_map encode l ++ post)
    by (unfold header in *; app_eq).
  pose proof (length_flat_map_encode l) as Hle.
  assert (0 <= zlen l < 2 ^ 63) by (unfold zlen in *; subst; rewrite !length_app in Hlen; lia).
  at_byte H.
  rewrite (at_minus_header _ _ _ _ _ _ Hh), bind_lift_Ret by lia.
  rewrite (btou_header _ _ _ _ _ _ Hh), bind_lift_Ret by lia. cbn [fst snd walk].
  apply bind_ext; [done|]. intros [] s'. rewrite <- zlen_app.
  assert (Hfuel : (1 + length (flat_map encode l) <= fuel)%nat).
  { unfold header in Hf. rewrite length_app in Hf. cbn in Hf. rewrite length_app in Hf. cbn in Hf. lia. }
  rewrite (parse_elements_app buf (zlen l) l Hl Hlen _ post); [|app_eq|lia|done].
  unfold mbind, M_bind. destruct (walk_list _ _ _ _) as [[]]; try done.
  destruct (fuel - length l)%nat eqn:E; [lia|]. cbn [parse_elements].
  by rewrite (proj2 (Z.ltb_ge _ _)) by lia.
Qed.

(** [parse] of an encoded value, anywhere in a buffer, is the traversal of the
    value, whatever the hooks of the derived class do. *)
Lemma parse_encode m : wf m = true -> parses_as m.
Proof.
  induction m as [z|t|t|t| | |l IH] using resp_induction; cbn [wf]; intros Hwf.
  - apply parses_as_int.
  - by apply parses_as_simple; apply bool_decide_eq_true in Hwf.
  - by apply parses_as_error; apply bool_decide_eq_true in Hwf.
  - apply parses_as_bulk.
  - by apply parses_as_null; left.
  - by apply parses_as_null; right.
  - apply parses_as_array. rewrite forallb_forall in Hwf.
    rewrite Forall_forall in *. intros m Hm. apply IH, Hwf; [done|]. by apply list_elem_of_In.
Qed.
End ParseEncode.

(** ** What a traversal does to the members of the base class

    [TameHooks]: the hooks of a derived class leave the base members alone and do
    not throw [MessageInterrupted] themselves. *)
Definition same_base {F} (s s' : Splitter F) : Prop :=
  _interrupted s' = _interrupted s /\
  _split_points s' = _split_points s /\
  _nested_array_element_count s' = _nested_array_element_count s.

Definition tame {F A} (c : M (Splitter F) A) : Prop :=
  forall s, same_base s (c s).2 /\ (c s).1 <> Throw MessageInterrupted.

Class TameHooks F `{!SplitterHooks F} : Prop := {
  tame_on_string buf b e : tame (on_string (F := F) buf b e);
  tame_on_error buf b e : tame (on_error (F := F) buf b e);
  tame_on_split_point buf p : tame (on_split_point (F := F) buf p);
  tame_on_array n : tame (on_array (F := F) n)
}.

(** One more element counted at [next]: the innermost open array loses one, an
    array that is complete is one element of the next one, and when none is open
    [next] is a split point. *)
Definition counted {F} (next : Z) (s s' : Splitter F) : Prop :=
  let '(counts, top) := count_element (_nested_array_element_count s) in
  _interrupted s' = _interrupted s /\
  _nested_array_element_count s' = counts /\
  _split_points s' = _split_points s ++ (if top then [next] else []).

(** [TotalHooks]: the hooks always return; [QuietHooks]: the hooks called while a value is
    traversed return, given a range of the buffer. *)
Definition quiet {S A} (c : M S A) : Prop := forall s, exists a s', c s = (Ret a, s').

Class TotalHooks F `{!SplitterHooks F} : Prop := {
  total_on_string buf b e : quiet (on_string (F := F) buf b e);
  total_on_error buf b e : quiet (on_error (F := F) buf b e);
  total_on_split_point buf p : quiet (on_split_point (F := F) buf p);
  total_on_array n : quiet (on_array (F := F) n)
}.

Class QuietHooks F `{!SplitterHooks F} : Prop := {
  quiet_on_string buf b e : 0 <= b <= e -> e <= zlen buf -> quiet (on_string (F := F) buf b e);
  quiet_on_error buf b e : 0 <= b <= e -> e <= zlen buf -> quiet (on_error (F := F) buf b e);
  quiet_on_array n : quiet (on_array (F := F) n)
}.

#[export] Instance total_quiet F `{!SplitterHooks F, !TotalHooks F} : QuietHooks F.
Proof. split; intros; [apply total_on_string | apply total_on_error | apply total_on_array]. Qed.

Lemma quiet_ret {S A} (a : A) : quiet (mret (M := M S) a).
Proof. intros s. by exists a, s. Qed.

Lemma quiet_modify {S} (f : S -> S) : quiet (modify f).
Proof. intros s. by eexists tt, _. Qed.

Lemma quiet_bind {S A B} (c : M S A) (k : A -> M S B) :
  quiet c -> (forall a, quiet (k a)) -> quiet (c ≫= k).
Proof.
  intros Hc Hk s. destruct (Hc s) as (a & s1 & H). destruct (Hk a s1) as (b & s2 & H').
  exists b, s2. by rewrite (bind_Ret _ _ _ _ _ H).
Qed.

Section Total.
Context {F : Type} `{!SplitterHooks F, !TotalHooks F}.

Lemma total_on_element buf p : quiet (on_element (F := F) buf p).
Proof.
  unfold on_element. apply quiet_bind; [by intros s; eexists _, _|]. intros counts.
  destruct (count_element counts) as [c [|]]; cbn [when];
    repeat (apply quiet_bind; [|intros _]); auto using quiet_modify, quiet_ret, total_on_split_point.
Qed.

Lemma total_on_arr buf n p : quiet (on_arr (F := F) buf n p).
Proof.
  unfold on_arr. apply quiet_bind; [apply total_on_array|]. intros _.
  destruct (n =? 0); [apply total_on_element | apply quiet_modify].
Qed.

Lemma total_walk_list {A} (f : A -> Z -> M (Splitter F) Z) l :
  Forall (fun x => forall p, quiet (f x p)) l -> forall p, quiet (walk_list f l p).
Proof.
  induction 1 as [|x l Hx Hl IH]; intros p; cbn [walk_list]; [apply quiet_ret|].
  apply quiet_bind; auto.
Qed.

Lemma total_walk buf m : forall p, quiet (walk (F := F) buf m p).
Proof.
  induction m as [z|t|t|t| | |l IH] using resp_induction; intros p; cbn [walk].
  1-6: repeat (apply quiet_bind; [|intros _]);
       auto using quiet_ret, total_on_element, total_on_string, total_on_error.
  apply quiet_bind; [apply total_on_arr|]. intros _. by apply total_walk_list.
Qed.

Lemma total_walks buf l p : quiet (walk_list (walk (F := F) buf) l p).
Proof. apply total_walk_list, Forall_forall. intros. apply total_walk. Qed.
End Total.

Section Base.
Context {F : Type} `{!SplitterHooks F, !TameHooks F}.
Implicit Types (s : Splitter F).

Lemma tame_Ret {A} (c : M (Splitter F) A) s a s' :
  tame c -> c s = (Ret a, s') -> same_base s s'.
Proof. intros Hc H. specialize (Hc s). rewrite H in Hc. by destruct Hc. Qed.

Lemma same_base_counted next s s1 s' :
  same_base s s1 -> counted next s1 s' -> counted next s s'.
Proof.
  intros (Hi & Hs & Hn). unfold counted. rewrite Hn.
  destruct (count_element _). by rewrite Hi, Hs.
Qed.

Lemma on_element_counted buf next s s' :
  on_element buf next s = (Ret tt, s') -> counted next s s'.
Proof.
  unfold on_element, counted, gets, modify, when.
  unfold mbind, M_bind, mret, M_ret. cbn.
  destruct (count_element (_nested_array_element_count s)) as [counts [|]] eqn:E; cbn.
  - destruct (on_split_point buf next _) as [o s1] eqn:Ho.
    destruct o; try done. intros [= <-].
    destruct (tame_Ret _ _ _ _ (tame_on_split_point buf next) Ho) as (H1 & H2 & H3).
    cbn in *. by rewrite H1, H2, H3.
  - intros [= <-]. by rewrite app_nil_r.
Qed.

Lemma counted_inner c counts next s s' :
  _nested_array_element_count s = c :: counts -> 2 <= c < 2 ^ 63 ->
  counted next s s' ->
  _interrupted s' = _interrupted s /\
  _nested_array_element_count s' = (c - 1) :: counts /\
  _split_points s' = _split_points s.
Proof.
  intros Hn Hc. unfold counted. rewrite Hn. cbn [count_element].
  rewrite wrap64_id by (unfold in_rint; lia). rewrite (proj2 (Z.eqb_neq _ _)) by lia.
  by rewrite app_nil_r.
Qed.

Definition walk_counts (m : resp) : Prop := forall buf pos s p s',
  zlen (encode m) < 2 ^ 63 ->
  walk buf m pos s = (Ret p, s') -> counted p s s'.

(** The first elements of an open array: its counter goes down. *)
Lemma walk_list_inner buf l :
  Forall walk_counts l -> forall pos s p s' c counts,
  zlen (flat_map encode l) < 2 ^ 63 ->
  _nested_array_element_count s = c :: counts -> zlen l < c < 2 ^ 63 ->
  walk_list (walk buf) l pos s = (Ret p, s') ->
  _interrupted s' = _interrupted s /\
  _nested_array_element_count s' = (c - zlen l) :: counts /\
  _split_points s' = _split_points s.
Proof.
  induction 1 as [|m l Hm Hl IH]; intros pos s p s' c counts Hlen Hn Hc; cbn [walk_list].
  { intros [= -> ->]. rewrite zlen_nil. by replace (c - 0) with c by lia. }
  intros (q & s1 & H1 & H2)%bind_Ret_inv. cbn [flat_map] in Hlen.
  apply Hm in H1; [|zlen_lia].
  apply (counted_inner c counts) in H1 as (Hi & Hn1 & Hs); [|done|zlen_lia].
  eapply (IH _ _ _ _ (c - 1) counts) in H2 as (Hi' & Hn' & Hs'); [|zlen_lia|done|zlen_lia].
  rewrite Hi', Hs', Hn', Hi, Hs. repeat split. f_equal. zlen_lia.
Qed.

(** All the elements of an open array: the array counts as one element. *)
Lemma walk_list_all buf l m :
  Forall walk_counts l -> walk_counts m -> forall pos s p s' counts,
  zlen (flat_map encode (l ++ [m])) < 2 ^ 63 -> zlen (l ++ [m]) < 2 ^ 63 ->
  _nested_array_element_count s = zlen (l ++ [m]) :: counts ->
  walk_list (walk buf) (l ++ [m]) pos s = (Ret p, s') ->
  counted p (s <| _nested_array_element_count := counts |>) s'.
Proof.
  induction 1 as [|x l Hx Hl IH]; intros Hm pos s p s' counts Hlen Hlen' Hn; cbn [app walk_list].
  - intros (q & s1 & H1 & [= -> ->])%bind_Ret_inv.
    apply Hm in H1; [|cbn in Hlen; zlen_lia]. unfold counted in *. rewrite Hn in H1. cbn.
    cbn [count_element app] in H1. change (wrap64 (zlen [m] - 1)) with 0 in H1. cbn in H1.
    by destruct (count_element counts).
  - intros (q & s1 & H1 & H2)%bind_Ret_inv. cbn [app flat_map] in Hlen, Hlen', Hn.
    apply Hx in H1; [|zlen_lia].
    apply (counted_inner (zlen (x :: l ++ [m])) counts) in H1 as (Hi & Hn1 & Hs); [|done|zlen_lia].
    assert (counted p (s1 <| _nested_array_element_count := counts |>) s') as Hc.
    { eapply (IH Hm); [zlen_lia | zlen_lia | | exact H2]. rewrite Hn1. f_equal. zlen_lia. }
    revert Hc. unfold counted. cbn. destruct (count_element counts). by rewrite Hi, Hs.
Qed.
Ltac leaf_counts :=
  cbn [walk]; intros H;
  repeat lazymatch type of H with
  | (on_element _ _ ≫= _) _ = _ =>
    apply bind_Ret_inv in H as ([] & ? & ?%on_element_counted & H)
  | (on_string _ _ _ ≫= _) _ = _ =>
    apply bind_Ret_inv in H as (? & ? & ?%(tame_Ret _ _ _ _ (tame_on_string _ _ _)) & H)
  | (on_error _ _ _ ≫= _) _ = _ =>
    apply bind_Ret_inv in H as (? & ? & ?%(tame_Ret _ _ _ _ (tame_on_error _ _ _)) & H)
  end;
  unfold mret, M_ret in H; simplify_eq; eauto using same_base_counted.

(** What [on_arr] does for an array that has elements. *)
Lemma on_arr_pushes buf n next s s' :
  n <> 0 -> on_arr buf n next s = (Ret tt, s') ->
  same_base (s <| _nested_array_element_count ::= cons n |>) s'.
Proof.
  intros Hn. unfold on_arr. rewrite (proj2 (Z.eqb_neq _ _)) by done.
  intros (? & s1 & H1%(tame_Ret _ _ _ _ (tame_on_array n)) & [= <-])%bind_Ret_inv.
  destruct H1 as (H1 & H2 & H3). unfold same_base. cbn. by rewrite H1, H2, H3.
Qed.

Lemma on_arr_empty buf next s s' :
  on_arr buf 0 next s = (Ret tt, s') -> counted next s s'.
Proof.
  unfold on_arr. intros (? & s1 & H1%(tame_Ret _ _ _ _ (tame_on_array 0)) & H2)%bind_Ret_inv.
  apply on_element_counted in H2. by eapply same_base_counted.
Qed.

(** Traversing a value counts it as one element of what encloses it. *)
Lemma walk_counted m : walk_counts m.
Proof.
  induction m as [z|t|t|t| | |l IH] using resp_induction; intros buf pos s p s' Hlen.
  1-6: leaf_counts.
  cbn [walk encode] in *. intros ([] & s1 & H1 & H2)%bind_Ret_inv.
  rewrite zlen_app in Hlen. pose proof (length_flat_map_encode l) as Hle.
  assert (zlen l < 2 ^ 63) by (unfold zlen in *; lia).
  destruct l as [|m l _] using rev_ind.
  { unfold walk_list, mret, M_ret in H2. simplify_eq. by apply on_arr_empty in H1. }
  apply Forall_app in IH as [IHl IHm]. apply Forall_inv in IHm.
  apply on_arr_pushes in H1 as (Hi & Hs & Hn); [|zlen_lia]. cbn in *.
  eapply (walk_list_all _ _ _ IHl IHm) in H2; [|zlen_lia|done|done].
  revert H2. unfold counted. cbn. destruct (count_element _). by rewrite Hi, Hs.
Qed.

Lemma all_walk_counted l : Forall walk_counts l.
Proof. apply Forall_forall. auto using walk_counted. Qed.
End Base.

(** ** Traversals inside an open array

    No split point is reached there, so [QuietHooks] are enough for the traversal to
    return. *)
Section Inner.
Context {F : Type} `{!SplitterHooks F, !TameHooks F, !QuietHooks F}.
Implicit Types (s : Splitter F).

(** One more element does not complete the outermost array. *)
Definition inner s : Prop := (count_element (_nested_array_element_count s)).2 = false.

Lemma inner_base s s' : same_base s s' -> inner s -> inner s'.
Proof. intros (_ & _ & H). unfold inner. by rewrite H. Qed.

Lemma on_element_inner buf p s : inner s -> exists s', on_element buf p s = (Ret tt, s').
Proof.
  unfold inner, on_element, gets, modify, mbind, M_bind, mret, M_ret. cbn.
  destruct (count_element _) as [c []]; cbn; [done|]. intros _. by eexists.
Qed.

Lemma done_inner buf next s :
  inner s -> exists p s', (on_element buf next ;; mret next) s = (Ret p, s').
Proof.
  intros (s1 & H)%(on_element_inner buf next). exists next, s1. by rewrite (bind_Ret _ _ _ _ _ H).
Qed.

(** A leaf: a hook on a range of the buffer, then [on_element]. *)
Lemma leaf_inner buf next (hook : M (Splitter F) unit) s :
  inner s -> tame hook -> quiet hook ->
  exists s', (hook ;; on_element buf next ;; mret next) s = (Ret next, s').
Proof.
  intros Hi Ht Hq. destruct (Hq s) as ([] & s1 & H).
  destruct (on_element_inner buf next s1) as (s2 & H2).
  { by eapply inner_base; [eapply tame_Ret|]. }
  exists s2. by rewrite (bind_Ret _ _ _ _ _ H), (bind_Ret _ _ _ _ _ H2).
Qed.

Definition returns_inner (m : resp) : Prop := forall buf pos s,
  0 <= pos -> pos + zlen (encode m) <= zlen buf -> zlen (encode m) < 2 ^ 63 -> inner s ->
  exists p s', walk buf m pos s = (Ret p, s').

(** [k] elements of an array with [c] elements to come; not the last of the last one. *)
Lemma walk_list_inner_returns buf counts l :
  Forall returns_inner l -> forall c pos s,
  0 <= pos -> pos + zlen (flat_map encode l) <= zlen buf ->
  zlen (flat_map encode l) < 2 ^ 63 -> zlen l <= c < 2 ^ 63 ->
  (zlen l < c \/ (count_element counts).2 = false) ->
  _nested_array_element_count s = c :: counts ->
  exists p s', walk_list (walk buf) l pos s = (Ret p, s').
Proof.
  induction 1 as [|m l Hm Hl IH]; intros c pos s Hpos Hr Hlen Hc Hin Hn; cbn [walk_list].
  { by eexists _, _. }
  cbn [flat_map] in *. rewrite zlen_app in *. rewrite zlen_cons in *. pose_zlen_nonneg.
  destruct (Hm buf pos s) as (p & s1 & Hw1); [lia..| |].
  { unfold inner. rewrite Hn. cbn [count_element].
    rewrite wrap64_id by (unfold in_rint; lia).
    destruct (Z.eqb_spec (c - 1) 0); [|done]. destruct Hin; [lia|done]. }
  rewrite (bind_Ret _ _ _ _ _ Hw1). pose proof (walk_next _ _ _ _ _ _ Hw1) as ->.
  destruct l as [|m' l]; [by eexists _, _|]. rewrite zlen_cons in *. pose_zlen_nonneg.
  apply walk_counted in Hw1; [|lia].
  apply (counted_inner c counts) in Hw1 as (_ & Hn1 & _); [|done|lia].
  eapply (IH (c - 1)); [lia..| |done]. destruct Hin; [left; lia|by right].
Qed.

Lemma walk_inner_returns m : returns_inner m.
Proof.
  induction m as [z|t|t|t| | |l IH] using resp_induction; intros buf pos s Hpos Hr Hlen Hi;
    cbn [walk encode] in *.
  1,5,6: by apply done_inner.
  - eexists. apply leaf_inner; [done|apply tame_on_string|apply quiet_on_string; zlen_lia].
  - eexists. apply leaf_inner; [done|apply tame_on_error|apply quiet_on_error; zlen_lia].
  - eexists. apply leaf_inner; [done|apply tame_on_string|].
    unfold header in *. apply quiet_on_string; zlen_lia.
  - rewrite zlen_app in *. pose proof (length_flat_map_encode l).
    assert (Hl63 : zlen l < 2 ^ 63) by (unfold zlen in *; lia). pose_zlen_nonneg.
    destruct (quiet_on_array (zlen l) s) as ([] & s1 & Hw1).
    pose proof (tame_Ret _ _ _ _ (tame_on_array (zlen l)) Hw1) as Hb.
    unfold on_arr. rewrite bind_assoc, (bind_Ret _ _ _ _ _ Hw1).
    destruct (Z.eqb_spec (zlen l) 0) as [E|E].
    + apply zlen_0_inv in E as ->.
      destruct (on_element_inner buf (pos + zlen (header "*"%char (zlen (@nil resp)))) s1)
        as (s2 & Hw2); [by eapply inner_base|]. rewrite (bind_Ret _ _ _ _ _ Hw2). by eexists _, _.
    + rewrite (bind_Ret _ tt (s1 <| _nested_array_element_count ::= cons (zlen l) |>)) by done.
      eapply (walk_list_inner_returns _ (_nested_array_element_count s1) l IH (zlen l));
        [lia..| |done]. right. by eapply inner_base.
Qed.

Lemma all_inner_returns l : Forall returns_inner l.
Proof. apply Forall_forall. auto using walk_inner_returns. Qed.
End Inner.

(** ** Interrupted values

    [cut m p]: [p] is a proper non-empty prefix of [encode m] (see
    [prefix_is_cut]) that does not end right after the [':'] of an integer. *)
Definition strict_prefix (p q : bytes) : Prop := exists r, r <> [] /\ q = p ++ r.

Inductive cut : resp -> bytes -> Prop :=
  | cut_int z p : p <> [] -> strict_prefix p (str z ++ crlf) -> cut (RInt z) (":"%char :: p)
  | cut_simple t p : strict_prefix p (t ++ crlf) -> cut (RSimple t) ("+"%char :: p)
  | cut_error t p : strict_prefix p (t ++ crlf) -> cut (RError t) ("-"%char :: p)
  | cut_bulk_header t p :
      strict_prefix p (str (zlen t) ++ crlf) -> cut (RBulk t) ("$"%char :: p)
  | cut_bulk_body t p :
      strict_prefix p (t ++ crlf) -> cut (RBulk t) (header "$"%char (zlen t) ++ p)
  | cut_null p : strict_prefix p (s2b "-1" ++ crlf) -> cut RNull ("$"%char :: p)
  | cut_null_array p : strict_prefix p (s2b "-1" ++ crlf) -> cut RNullArray ("*"%char :: p)
  | cut_array_header l p :
      strict_prefix p (str (zlen l) ++ crlf) -> cut (RArray l) ("*"%char :: p)
  | cut_array_between l1 m l2 :
      cut (RArray (l1 ++ m :: l2))
          (header "*"%char (zlen (l1 ++ m :: l2)) ++ flat_map encode l1)
  | cut_array_inside l1 m l2 p :
      cut m p ->
      cut (RArray (l1 ++ m :: l2))
          (header "*"%char (zlen (l1 ++ m :: l2)) ++ flat_map encode l1 ++ p).

(** [marker_cut m p]: the prefix [p] of [encode m] ends with the [':'] of an integer. *)
Inductive marker_cut : resp -> bytes -> Prop :=
  | marker_int z : marker_cut (RInt z) [":"%char]
  | marker_array l1 m l2 p :
      marker_cut m p ->
      marker_cut (RArray (l1 ++ m :: l2))
                 (header "*"%char (zlen (l1 ++ m :: l2)) ++ flat_map encode l1 ++ p).

Lemma strict_prefix_cons c p b q :
  strict_prefix (c :: p) (b :: q) -> c = b /\ strict_prefix p q.
Proof. intros (r & Hr & H). simplify_eq/=. split; [done|]. by exists r. Qed.

(** A strict prefix of [a ++ b] ends inside [a], or inside [b]. *)
Lemma strict_prefix_app p a b :
  strict_prefix p (a ++ b) ->
  strict_prefix p a \/ exists q, p = a ++ q /\ strict_prefix q b.
Proof.
  intros (r & Hr & H). apply app_eq_inv in H as [(k & -> & ->) | (k & -> & ->)].
  - destruct k as [|c k]; [|left; by exists (c :: k)].
    right. exists []. rewrite !app_nil_r. split; [done|]. by exists b.
  - right. exists k. split; [done|]. by exists r.
Qed.

Lemma header_cut c n q p rest :
  strict_prefix p (header c n ++ rest) -> p = c :: q ->
  strict_prefix q (str n ++ crlf) \/ exists q', p = header c n ++ q' /\ strict_prefix q' rest.
Proof.
  intros [H|(q' & Hq & H)]%strict_prefix_app ->; [left|right; by exists q'].
  by apply strict_prefix_cons in H as [_ H].
Qed.

(** A strict prefix of a sequence of values: whole values, then nothing or a
    non-empty strict prefix of the next one. *)
Lemma strict_prefix_values p l :
  strict_prefix p (flat_map encode l) ->
  exists l1 m l2 q, l = l1 ++ m :: l2 /\ p = flat_map encode l1 ++ q /\
    strict_prefix q (encode m).
Proof.
  revert p. induction l as [|m l IH]; intros p; cbn.
  { intros (r & Hr & H). by destruct p, r. }
  intros [H|(q & -> & H)]%strict_prefix_app.
  - by exists [], m, l, p.
  - destruct (IH q H) as (l1 & m' & l2 & q' & -> & -> & Hq).
    exists (m :: l1), m', l2, q'. split; [done|]. split; [cbn; app_eq|done].
Qed.

Lemma prefix_is_cut m p :
  p <> [] -> strict_prefix p (encode m) -> cut m p \/ marker_cut m p.
Proof.
  revert p. induction m as [z|t|t|t| | |l IH] using resp_induction; intros [|c p] Hne Hp; try done.
  - apply strict_prefix_cons in Hp as [-> Hp].
    destruct p as [|d p]; [right; constructor | left; by constructor].
  - apply strict_prefix_cons in Hp as [-> Hp]. left. by constructor.
  - apply strict_prefix_cons in Hp as [-> Hp]. left. by constructor.
  - left. cbn [encode] in Hp. assert (c = "$"%char) as ->.
    { by apply strict_prefix_cons in Hp as [-> _]. }
    destruct (header_cut _ _ _ _ _ Hp eq_refl) as [Hq|(q & -> & Hq)];
      [by constructor 4|by constructor 5].
  - apply strict_prefix_cons in Hp as [-> Hp]. left. by constructor.
  - apply strict_prefix_cons in Hp as [-> Hp]. left. by constructor.
  - cbn [encode] in Hp. assert (c = "*"%char) as ->.
    { by apply strict_prefix_cons in Hp as [-> _]. }
    destruct (header_cut _ _ _ _ _ Hp eq_refl) as [Hq|(q & -> & Hq)]; [left; by constructor|].
    apply strict_prefix_values in Hq as (l1 & m & l2 & q' & -> & -> & Hq).
    apply Forall_app in IH as [_ IH]. apply Forall_inv in IH as IHm.
    destruct q' as [|d q']; [left; rewrite app_nil_r; apply cut_array_between|].
    destruct (IHm (d :: q') ltac:(done) Hq) as [H|H];
      [left; by apply cut_array_inside | right; by apply marker_array].
Qed.

(** ** [parse] of an interrupted value *)

Lemma strict_prefix_nil p : ~ strict_prefix p [].
Proof. intros (r & Hr & H). by destruct p, r. Qed.

(** A strict prefix of [t CR LF] is a prefix of [t], or [t CR]. *)
Lemma btou_loop_cut t p pos i :
  CR ∉ t -> strict_prefix p (t ++ crlf) -> btou_loop p pos i = Throw MessageInterrupted.
Proof.
  revert p pos i. induction t as [|b t IH]; intros [|c p] pos i Ht Hp; try done.
  - apply strict_prefix_cons in Hp as [-> Hp]. destruct p as [|d p]; [done|].
    apply strict_prefix_cons in Hp as [_ []%strict_prefix_nil].
  - apply strict_prefix_cons in Hp as [-> Hp]. apply not_elem_of_cons in Ht as [Hb Ht].
    cbn. destruct (Ascii.eqb_spec b CR); [congruence|]. by apply IH.
Qed.

Lemma simple_str_loop_cut t p pos :
  CR ∉ t -> strict_prefix p (t ++ crlf) -> simple_str_loop p pos = Throw MessageInterrupted.
Proof.
  revert p pos. induction t as [|b t IH]; intros [|c p] pos Ht Hp; try done.
  - apply strict_prefix_cons in Hp as [-> Hp]. destruct p as [|d p]; [done|].
    apply strict_prefix_cons in Hp as [_ []%strict_prefix_nil].
  - apply strict_prefix_cons in Hp as [-> Hp]. apply not_elem_of_cons in Ht as [Hb Ht].
    cbn. destruct (Ascii.eqb_spec b CR); [congruence|]. by apply IH.
Qed.

Section ReadCut.
Context (buf pre p : bytes) (pos : Z) (Hb : buf = pre ++ p) (Hpos : pos = zlen pre).

Lemma btou_cut t :
  CR ∉ t -> strict_prefix p (t ++ crlf) -> btou buf pos = Throw MessageInterrupted.
Proof.
  intros Ht Hp. unfold btou. rewrite (tail_at_spec _ _ _ _ Hb Hpos).
  by apply (btou_loop_cut t).
Qed.

Lemma parse_simple_str_cut t :
  CR ∉ t -> strict_prefix p (t ++ crlf) ->
  parse_simple_str buf pos = Throw MessageInterrupted.
Proof.
  intros Ht Hp. unfold parse_simple_str. rewrite (tail_at_spec _ _ _ _ Hb Hpos).
  by apply (simple_str_loop_cut t).
Qed.

Lemma at_minus_cut n :
  0 <= n -> strict_prefix p (str n ++ crlf) -> at_minus buf pos = Ret false.
Proof.
  intros Hn Hp. destruct p as [|c q] eqn:Ep.
  - unfold at_minus. rewrite app_nil_r in Hb. by rewrite Hpos, Hb, Z.eqb_refl.
  - destruct (str_head n Hn) as (d & ds & Hs & Hd). rewrite Hs in Hp.
    apply strict_prefix_cons in Hp as [-> _]. by eapply at_minus_digit.
Qed.

Lemma btoi_cut z :
  p <> [] -> strict_prefix p (str z ++ crlf) -> btoi buf pos = Throw MessageInterrupted.
Proof.
  intros Hne Hp. unfold btoi. destruct p as [|c q] eqn:Ep; [done|].
  rewrite (deref_spec _ _ _ _ _ Hb Hpos). cbn [mbind outcome_bind].
  unfold str in Hp. destruct (z <? 0).
  - apply strict_prefix_cons in Hp as [-> Hp]. eval_eqb. unfold btou.
    rewrite (tail_at_spec _ (pre ++ ["-"%char]) q) by (app_eq || zlen_lia).
    cbn [mbind outcome_bind]. rewrite (btou_loop_cut (print_nat (- z))); try done.
    apply digits_no_CR, print_nat_digits.
  - pose proof (print_nat_digits z) as Hd. pose proof (print_nat_ne z).
    unfold btou. rewrite (tail_at_spec _ _ _ _ Hb Hpos). cbn [mbind outcome_bind].
    rewrite (btou_loop_cut (print_nat z)) by (done || by apply digits_no_CR).
    destruct (print_nat z) as [|d ds]; [done|]. apply strict_prefix_cons in Hp as [-> _].
    apply Forall_inv in Hd. by rewrite is_digit_not_char.
Qed.

(** Inside ["-1" CR LF]. *)
Lemma nil_cut {F} (k : Z -> M (Splitter F) Z) (k' : Z * Z -> M (Splitter F) Z) s :
  strict_prefix p (s2b "-1" ++ crlf) ->
  (nil ← lift (at_minus buf pos);
   if nil : bool then next ← lift (pass_nil buf (pos + 1)); k next
   else r ← lift (btou buf pos); k' r) s = (Throw MessageInterrupted, s).
Proof.
  intros Hp. destruct p as [|c q] eqn:Ep.
  - unfold at_minus. rewrite app_nil_r in Hb. rewrite Hpos, Hb, Z.eqb_refl, bind_lift_Ret.
    unfold btou. rewrite (tail_at_spec pre pre []) by by rewrite ?app_nil_r. done.
  - apply strict_prefix_cons in Hp as [-> Hp].
    rewrite (at_minus_true _ _ _ _ Hb Hpos), bind_lift_Ret. unfold pass_nil.
    rewrite (tail_at_spec _ (pre ++ ["-"%char]) q) by (app_eq || zlen_lia).
    destruct Hp as (r & Hr & Hq). cbn [mbind outcome_bind].
    destruct q as [|a [|b [|? q]]]; try done.
    exfalso. destruct r; [done|]. destruct q; simplify_eq/=.
Qed.
End ReadCut.

(** [parse] of an interrupted value throws [MessageInterrupted], or stops at the end
    of the buffer with an array still open; in both cases without a split point. *)
Definition stopped {F} `{!SplitterHooks F} (buf : bytes) (s : Splitter F)
    (r : outcome Z * Splitter F) : Prop :=
  match r.1 with
  | Ret p =>
    p = zlen buf /\ _interrupted r.2 = _interrupted s /\
    _split_points r.2 = _split_points s /\ _nested_array_element_count r.2 <> []
  | Throw MessageInterrupted =>
    _interrupted r.2 = _interrupted s /\ _split_points r.2 = _split_points s
  | _ => ~ QuietHooks F
  end.

Section CutParse.
Context {F : Type} `{!SplitterHooks F, !TameHooks F}.
Implicit Types (s : Splitter F).

Lemma stopped_MI buf s : stopped buf s (Throw MessageInterrupted, s).
Proof. done. Qed.

Lemma stopped_from buf s s1 r :
  _interrupted s1 = _interrupted s -> _split_points s1 = _split_points s ->
  stopped buf s1 r -> stopped buf s r.
Proof. intros H1 H2. unfold stopped. by rewrite H1, H2. Qed.

Lemma tame_no_MI {A} (c : M (Splitter F) A) s s' :
  tame c -> c s <> (Throw MessageInterrupted, s').
Proof. intros Hc H. specialize (Hc s). rewrite H in Hc. by destruct Hc. Qed.

(** A computation that is tame up to the point where it returns: if it throws, the
    exception is a hook's. *)
Definition no_MI {A} (c : M (Splitter F) A) : Prop :=
  forall s s', c s <> (Throw MessageInterrupted, s').

Lemma no_MI_bind {A B} (c : M (Splitter F) A) (k : A -> M (Splitter F) B) :
  no_MI c -> (forall a, no_MI (k a)) -> no_MI (c ≫= k).
Proof.
  intros Hc Hk s s'. unfold mbind, M_bind. specialize (Hc s).
  destruct (c s) as [[] s1] eqn:E; [apply Hk|..]; intros ?; simplify_eq; by eapply Hc.
Qed.

Lemma no_MI_on_element buf p : no_MI (on_element (F := F) buf p).
Proof.
  unfold on_element. apply no_MI_bind; [done|]. intros counts.
  destruct (count_element counts) as [c [|]]; cbn [when];
    repeat (apply no_MI_bind; [try done|intros _]); try done.
  intros s s'. apply tame_no_MI, tame_on_split_point.
Qed.

Lemma no_MI_on_arr buf n p : no_MI (on_arr (F := F) buf n p).
Proof.
  unfold on_arr. apply no_MI_bind; [intros s s'; apply tame_no_MI, tame_on_array|].
  intros _. destruct (n =? 0); [apply no_MI_on_element|done].
Qed.

Lemma no_MI_walk_list {A} (f : A -> Z -> M (Splitter F) Z) l :
  Forall (fun x => forall p, no_MI (f x p)) l -> forall p, no_MI (walk_list f l p).
Proof.
  induction 1 as [|x l Hx Hl IH]; intros p; cbn [walk_list]; [done|].
  apply no_MI_bind; auto.
Qed.

Lemma no_MI_walk buf m : forall p, no_MI (walk (F := F) buf m p).
Proof.
  induction m as [z|t|t|t| | |l IH] using resp_induction; intros p; cbn [walk].
  1-6: repeat (apply no_MI_bind; [first [apply no_MI_on_element
         | intros s s'; apply tame_no_MI; (apply tame_on_string || apply tame_on_error)] | intros _]);
       done.
  apply no_MI_bind; [apply no_MI_on_arr|]. intros _. by apply no_MI_walk_list.
Qed.

Lemma stopped_bind {A} buf s (c : M (Splitter F) A) (k : A -> M (Splitter F) Z) :
  no_MI c -> (QuietHooks F -> exists a s1, c s = (Ret a, s1)) ->
  (forall a s1, c s = (Ret a, s1) -> stopped buf s (k a s1)) ->
  stopped buf s ((c ≫= k) s).
Proof.
  intros Hc Hq Hk. unfold mbind, M_bind. specialize (Hc s).
  destruct (c s) as [[a|e| |] s1] eqn:E; [by apply Hk|..].
  2-3: intros (? & ? & H)%Hq; congruence.
  destruct (decide (e = MessageInterrupted)) as [->|He]; [by destruct (Hc s1)|].
  assert (Hn : ~ QuietHooks F) by (intros (? & ? & H)%Hq; congruence).
  unfold stopped. cbn. by destruct e.
Qed.

Ltac at_byte H :=
  cbn [parse];
  rewrite (at_end_false _ _ _ _ _ H eq_refl), (deref_spec _ _ _ _ _ H eq_refl), bind_lift_Ret;
  eval_eqb.

(** The header of an array, its first elements [l1] and the rest [q]. *)
Lemma cut_array_parse buf pre l1 m l2 q fuel s :
  let n := zlen (l1 ++ m :: l2) in
  buf = pre ++ header "*"%char n ++ flat_map encode l1 ++ q ->
  zlen (encode (RArray (l1 ++ m :: l2))) < 2 ^ 63 -> zlen buf < 2 ^ 63 ->
  Forall parses_as l1 ->
  (length (header "*"%char n ++ flat_map encode l1 ++ q) <= fuel)%nat ->
  (forall s1 fuel', (1 + length q < fuel')%nat ->
     _nested_array_element_count s1 <> [] ->
     stopped buf s1 (parse_elements fuel' buf (zlen l1) n
                       (zlen (pre ++ header "*"%char n ++ flat_map encode l1)) s1)) ->
  stopped buf s (parse (S fuel) buf (zlen pre) s).
Proof.
  intros n Hh Hlen Hbuf Hl1 Hf Hrest.
  assert (H : buf = pre ++ "*"%char :: str n ++ crlf ++ flat_map encode l1 ++ q)
    by (unfold header in *; app_eq). at_byte H.
  cbn [encode] in Hlen. rewrite zlen_app in Hlen.
  pose proof (length_flat_map_encode (l1 ++ m :: l2)) as Hle.
  assert (Hn : 0 <= n < 2 ^ 63) by (subst n; unfold zlen in *; lia).
  rewrite (at_minus_header _ _ _ _ _ _ Hh), bind_lift_Ret by lia.
  rewrite (btou_header _ _ _ _ _ _ Hh), bind_lift_Ret by lia. cbn [fst snd].
  assert (zlen l1 < n) by (subst n; zlen_lia).
  apply stopped_bind; [apply no_MI_on_arr| |].
  { intros HQ. unfold on_arr. rewrite (proj2 (Z.eqb_neq n 0)) by zlen_lia.
    apply quiet_bind; [apply quiet_on_array|intros _; apply quiet_modify]. }
  intros [] s1 H1.
  apply on_arr_pushes in H1 as (Hi & Hs & Hc); [|zlen_lia]. cbn in Hi, Hs, Hc.
  apply (stopped_from _ _ s1 _ Hi Hs). rewrite <- zlen_app.
  assert (Hfuel : (3 + length (flat_map encode l1) + length q <= fuel)%nat).
  { unfold header in Hf. rewrite !length_app in Hf. cbn in Hf. rewrite !length_app in Hf. cbn in Hf. lia. }
  rewrite (parse_elements_app buf n l1 Hl1 Hbuf _ q); [|app_eq|lia|lia].
  assert (Hflat : zlen (flat_map encode l1) < 2 ^ 63).
  { rewrite flat_map_app, !zlen_app in Hlen. pose_zlen_nonneg. lia. }
  apply stopped_bind.
  { apply no_MI_walk_list, Forall_forall. intros x _ p0. apply no_MI_walk. }
  { intros HQ. eapply (walk_list_inner_returns _ _ _ (all_inner_returns l1) n);
      [apply zlen_nonneg|rewrite Hh; rewrite !zlen_app; pose_zlen_nonneg; lia|lia|lia|by left|exact Hc]. }
  intros p s2 Hw. pose proof Hw as Hp.
  eapply walk_list_inner in Hw as (Hi2 & Hc2 & Hs2);
    [|apply all_walk_counted|done|exact Hc|lia].
  apply (stopped_from _ _ s2 _ Hi2 Hs2).
  assert (p = zlen (pre ++ header "*"%char n) + zlen (flat_map encode l1)) as ->.
  { by eapply walk_list_next. }
  rewrite <- zlen_app, <- app_assoc. pose proof (length_flat_map_encode l1).
  apply Hrest; [lia|]. by rewrite Hc2.
Qed.
Lemma wf_array_inv l1 m l2 :
  wf (RArray (l1 ++ m :: l2)) = true -> Forall (parses_as (F := F)) l1 /\ wf m = true.
Proof.
  cbn [wf]. rewrite forallb_app. cbn. rewrite !andb_true_iff. intros (H1 & Hm & _).
  split; [|done]. rewrite forallb_forall in H1. apply Forall_forall. intros x Hx.
  apply parse_encode, H1. by apply list_elem_of_In.
Qed.

Lemma encode_elem_len l1 m l2 :
  zlen (encode m) <= zlen (encode (RArray (l1 ++ m :: l2))).
Proof.
  cbn [encode]. rewrite flat_map_app, !zlen_app. cbn [flat_map]. rewrite zlen_app.
  pose_zlen_nonneg. lia.
Qed.

Lemma cut_body_parse t p buf pre fuel s :
  strict_prefix p (t ++ crlf) -> buf = pre ++ header "$"%char (zlen t) ++ p -> zlen buf < 2 ^ 63 -> zlen (encode (RBulk t)) < 2 ^ 63 ->
  stopped buf s (parse (S fuel) buf (zlen pre) s).
Proof.
  intros Hp Hb Hbuf Hlen.
  assert (H : buf = pre ++ "$"%char :: str (zlen t) ++ crlf ++ p) by (unfold header in *; app_eq).
  at_byte H. cbn [encode] in Hlen.
  assert (0 <= zlen t < 2 ^ 63) by zlen_lia.
  rewrite (at_minus_header _ _ _ _ _ _ Hb), bind_lift_Ret by lia.
  rewrite (btou_header _ _ _ _ _ _ Hb), bind_lift_Ret by lia. cbn [fst snd].
  unfold on_lstr, parse_str, LENGTH_OF_CR_LF. destruct Hp as (r & Hr & Hp).
  apply (f_equal zlen) in Hp. rewrite !zlen_app, zlen_crlf in Hp.
  assert (0 < zlen r) by (destruct r; [done|zlen_lia]).
  rewrite (proj2 (Z.ltb_lt _ _)) by zlen_lia. apply stopped_MI.
Qed.

(** An array stops where its element does. *)
Lemma cut_element buf i n pos fuel s :
  (0 < fuel)%nat -> i < n -> pos <> zlen buf -> stopped buf s (parse fuel buf pos s) -> stopped buf s (parse_elements (S fuel) buf i n pos s).
Proof.
  intros Hf Hi Hpos IH. rewrite parse_elements_S, (proj2 (Z.ltb_lt _ _)) by done. rewrite (proj2 (Z.eqb_neq _ _)) by done.
  cbn [andb negb]. unfold mbind, M_bind. unfold stopped in IH |- *.
  destruct (parse fuel buf pos s) as [[q|[]| |] s2]; cbn in IH |- *; try done.
  destruct IH as (-> & Hint & Hs & Hne). destruct fuel as [|fuel]; [lia|].
  rewrite parse_elements_S, Z.eqb_refl, andb_false_r. done.
Qed.

Lemma cut_parse m p :
  cut m p -> wf m = true -> forall buf pre fuel s,
  buf = pre ++ p -> zlen buf < 2 ^ 63 -> zlen (encode m) < 2 ^ 63 -> (length p < fuel)%nat ->
  stopped buf s (parse fuel buf (zlen pre) s).
Proof.
  induction 1 as [z p Hne Hp|t p Hp|t p Hp|t p Hp|t p Hp|p Hp|p Hp|l p Hp|l1 m l2|l1 m l2 p Hm IH];
    intros Hwf buf pre [|fuel] s Hb Hbuf Hlen Hf; try lia.
  - at_byte Hb. rewrite (btoi_cut buf (pre ++ [":"%char]) p (zlen pre + 1) ltac:(app_eq) ltac:(zlen_lia) z) by done.
    apply stopped_MI.
  - at_byte Hb. unfold on_sstr. apply bool_decide_eq_true in Hwf.
    rewrite (parse_simple_str_cut buf (pre ++ ["+"%char]) p (zlen pre + 1) ltac:(app_eq) ltac:(zlen_lia) t) by done.
    apply stopped_MI.
  - at_byte Hb. unfold on_err. apply bool_decide_eq_true in Hwf.
    rewrite (parse_simple_str_cut buf (pre ++ ["-"%char]) p (zlen pre + 1) ltac:(app_eq) ltac:(zlen_lia) t) by done.
    apply stopped_MI.
  - at_byte Hb. rewrite (at_minus_cut buf (pre ++ ["$"%char]) p (zlen pre + 1) ltac:(app_eq) ltac:(zlen_lia) (zlen t)),
      bind_lift_Ret by (done || apply zlen_nonneg).
    rewrite (btou_cut buf (pre ++ ["$"%char]) p (zlen pre + 1) ltac:(app_eq) ltac:(zlen_lia) (str (zlen t)))
      by (done || apply str_no_CR). apply stopped_MI.
  - by apply (cut_body_parse t p).
  - at_byte Hb. rewrite (nil_cut buf (pre ++ ["$"%char]) p (zlen pre + 1) ltac:(app_eq) ltac:(zlen_lia)) by done.
    apply stopped_MI.
  - at_byte Hb. rewrite (nil_cut buf (pre ++ ["*"%char]) p (zlen pre + 1) ltac:(app_eq) ltac:(zlen_lia)) by done.
    apply stopped_MI.
  - at_byte Hb. rewrite (at_minus_cut buf (pre ++ ["*"%char]) p (zlen pre + 1) ltac:(app_eq) ltac:(zlen_lia) (zlen l)),
      bind_lift_Ret by (done || apply zlen_nonneg).
    rewrite (btou_cut buf (pre ++ ["*"%char]) p (zlen pre + 1) ltac:(app_eq) ltac:(zlen_lia) (str (zlen l)))
      by (done || apply str_no_CR). apply stopped_MI.
  - apply wf_array_inv in Hwf as [Hl1 _]. eapply (cut_array_parse _ _ l1 m l2 []);
      [app_eq|done|done|done|rewrite app_nil_r; lia|].
    intros s1 [|fuel'] Hf' Hn; [lia|]. rewrite parse_elements_S.
    rewrite <- Hb, Z.eqb_refl, andb_false_r. done.
  - apply wf_array_inv in Hwf as [Hl1 Hwm]. eapply (cut_array_parse _ _ l1 m l2 p);
      [done|done|done|done|lia|].
    intros s1 [|fuel'] Hf' Hn; [lia|].
    assert (zlen l1 < zlen (l1 ++ m :: l2)) by zlen_lia.
    assert (0 < zlen p) by by (destruct Hm; try zlen_lia; unfold header; zlen_lia).
    pose proof (encode_elem_len l1 m l2). apply cut_element; [lia|done|rewrite Hb, !zlen_app; lia|].
    apply IH; [done|app_eq|done|lia|lia].
Qed.
End CutParse.
