(* ===== verification/Stream.v ===== *)
(** * Splitting a stream of messages

    What [split_by] does with a buffer that holds whole RESP values followed by
    nothing or by an interrupted one: the split points are the ends of the whole
    values, and [finished] tells the two cases apart.  The file ends with inputs on
    which the splitter misbehaves. *)
From S2P Require Import Prelude Strings Message Resp.
#[local] Open Scope Z_scope.

(** The ends of consecutive values that start at [pos]. *)
Fixpoint points (pos : Z) (ms : list resp) : list Z :=
  match ms with
  | [] => []
  | m :: ms' => (pos + zlen (encode m)) :: points (pos + zlen (encode m)) ms'
  end.

Lemma points_last pos ms x :
  last (x :: points pos ms) =
  Some (match ms with [] => x | _ => pos + zlen (flat_map encode ms) end).
Proof.
  revert pos x. induction ms as [|m ms IH]; intros pos x; [done|]. cbn [points].
  rewrite last_cons_cons, IH. cbn [flat_map]. rewrite zlen_app.
  destruct ms; cbn [flat_map]; rewrite ?zlen_nil; f_equal; lia.
Qed.

(** [rest] is nothing, or a value that was interrupted. *)
Definition unfinished (rest : bytes) : Prop :=
  rest = [] \/ exists m, cut m rest /\ wf m = true /\ zlen (encode m) < 2 ^ 63.

Section SplitBy.
Context {F : Type} `{!SplitterHooks F, !TameHooks F}.
Implicit Types (s : Splitter F).

Lemma parse_all_S fuel buf begin :
  parse_all (F := F) (S fuel) buf begin =
  if begin =? zlen buf then mret tt
  else next ← parse (S fuel) buf begin; parse_all fuel buf next.
Proof. done. Qed.

Lemma parse_all_app buf ms :
  Forall (fun m => wf m = true) ms -> zlen buf < 2 ^ 63 ->
  forall pre post fuel s,
    buf = pre ++ flat_map encode ms ++ post -> (length (flat_map encode ms) < fuel)%nat ->
    parse_all fuel buf (zlen pre) s =
    (next ← walk_list (walk buf) ms (zlen pre); parse_all (fuel - length ms) buf next) s.
Proof.
  intros Hwf Hbuf. induction Hwf as [|m ms Hm Hms IH]; intros pre post [|fuel] s Hb Hf;
    try (cbn in Hf; lia).
  { cbn [length]. by rewrite Nat.sub_0_r. }
  cbn [flat_map length walk_list] in *. rewrite length_app in Hf.
  pose proof (encode_nonempty m) as Hne. rewrite parse_all_S, bind_assoc.
  rewrite (proj2 (Z.eqb_neq _ _)) by zlen_lia.
  apply bind_ext_Ret.
  { apply (parse_encode m Hm buf pre (flat_map encode ms ++ post)); [app_eq|done|lia]. }
  intros p s1 ->%walk_next. rewrite <- zlen_app. unfold zlen in Hne.
  apply (IH (pre ++ encode m) post); [app_eq|lia].
Qed.

Lemma walk_list_points buf ms :
  forall pos s p s', zlen (flat_map encode ms) < 2 ^ 63 ->
  _nested_array_element_count s = [] ->
  walk_list (walk buf) ms pos s = (Ret p, s') ->
  _interrupted s' = _interrupted s /\ _nested_array_element_count s' = [] /\
  _split_points s' = _split_points s ++ points pos ms.
Proof.
  induction ms as [|m ms IH]; intros pos s p s' Hl Hn; cbn [walk_list points flat_map] in *.
  { intros [= -> ->]. by rewrite app_nil_r. }
  rewrite zlen_app in Hl. pose_zlen_nonneg.
  intros (q & s1 & H1 & H2)%bind_Ret_inv. pose proof (walk_next _ _ _ _ _ _ H1) as ->.
  apply walk_counted in H1; [|lia]. unfold counted in H1. rewrite Hn in H1.
  destruct H1 as (Hi & Hn1 & Hs). apply IH in H2 as (Hi' & Hn' & Hs'); [|lia|done].
  rewrite Hi', Hs', Hi, Hs. by rewrite <- app_assoc.
Qed.

(** The traversal of the whole values of a buffer, from a new splitter. *)
Definition walked (buf : bytes) (ms : list resp) (f : F) s : Prop :=
  walk_list (walk buf) ms 0 (new_splitter f) = (Ret (zlen (flat_map encode ms)), s).

Lemma walked_base buf ms f s :
  walked buf ms f s -> zlen (flat_map encode ms) < 2 ^ 63 ->
  _interrupted s = false /\ _nested_array_element_count s = [] /\
  _split_points s = 0 :: points 0 ms.
Proof. intros H Hl. by eapply walk_list_points in H. Qed.

Lemma split_by_whole buf ms f s :
  buf = flat_map encode ms -> Forall (fun m => wf m = true) ms -> zlen buf < 2 ^ 63 ->
  walked buf ms f s -> split_by (msg_fuel buf) buf (new_splitter f) = Ret s.
Proof.
  intros Hb Hwf Hbuf Hw. unfold split_by, split_run, try_catch.
  pose proof (length_flat_map_encode ms) as Hle. unfold msg_fuel.
  rewrite (parse_all_app buf ms Hwf Hbuf [] []); [|app_eq|subst; lia].
  rewrite (bind_Ret _ _ _ _ _ Hw). rewrite <- Hb in Hle |- *.
  destruct (S (S (length buf)) - length ms)%nat eqn:E; [lia|].
  by rewrite parse_all_S, Z.eqb_refl.
Qed.

Lemma split_by_cut `{!QuietHooks F} buf ms m rest f s :
  buf = flat_map encode ms ++ rest -> Forall (fun m => wf m = true) ms ->
  zlen buf < 2 ^ 63 -> cut m rest -> wf m = true -> zlen (encode m) < 2 ^ 63 ->
  walked buf ms f s ->
  exists s', split_by (msg_fuel buf) buf (new_splitter f) = Ret s' /\
    _split_points s' = _split_points s /\ finished s' = false /\
    exists fuel, let r := parse fuel buf (zlen (flat_map encode ms)) s in
      final s' = final r.2 /\ _split_points s' = _split_points r.2.
Proof.
  intros Hb Hwf Hbuf Hcut Hm Hlen Hw. unfold split_by, split_run, try_catch.
  pose proof (length_flat_map_encode ms) as Hle. unfold msg_fuel.
  assert (Hrest : rest <> []).
  { destruct Hcut; try done; by destruct (header _ _) eqn:E. }
  rewrite (parse_all_app buf ms Hwf Hbuf [] rest); [|app_eq|subst buf; rewrite length_app; lia].
  rewrite (bind_Ret _ _ _ _ _ Hw).
  assert (Hfl : length buf = (length (flat_map encode ms) + length rest)%nat)
    by (subst buf; by rewrite length_app).
  destruct (S (S (length buf)) - length ms)%nat as [|fuel] eqn:E; [lia|].
  assert (length rest > 0)%nat by (destruct rest; [done|cbn; lia]).
  rewrite parse_all_S, (proj2 (Z.eqb_neq _ _)) by (unfold zlen; lia).
  pose proof (cut_parse m rest Hcut Hm buf (flat_map encode ms) (S fuel) s Hb Hbuf Hlen
                ltac:(lia)) as Hst.
  unfold mbind, M_bind. unfold stopped in Hst.
  destruct (parse (S fuel) buf (zlen (flat_map encode ms)) s) as [[p|[]| |] s1] eqn:Hp;
    cbn in Hst; try done.
  - destruct Hst as (-> & Hi & Hs & Hn). destruct fuel as [|fuel]; [lia|].
    rewrite parse_all_S, Z.eqb_refl. exists s1. split; [done|]. split; [done|]. split.
    + unfold finished. by rewrite bool_decide_false.
    + eexists. by rewrite Hp.
  - destruct Hst as [Hi Hs]. eexists. split; [done|]. split; [done|]. split.
    + unfold finished. cbn. by rewrite andb_false_r.
    + exists (S fuel). by rewrite Hp.
Qed.
End SplitBy.

#[export] Instance plain_tame : TameHooks unit.
Proof. split; intros; (intros ?; by repeat split). Qed.

#[export] Instance plain_total : TotalHooks unit.
Proof. split; intros; apply quiet_ret. Qed.



(** ** Inputs the splitter does not handle *)

Section Misbehaviour.
Context {F : Type} `{!SplitterHooks F, !TameHooks F, !TotalHooks F}.

(** A buffer that ends right after the [':'] of an integer: [btoi] dereferences
    [begin] without comparing it with [end]. *)
Lemma split_by_marker ms f :
  Forall (fun m => wf m = true) ms ->
  zlen (flat_map encode ms ++ [":"%char]) < 2 ^ 63 ->
  split_by (msg_fuel (flat_map encode ms ++ [":"%char])) (flat_map encode ms ++ [":"%char])
    (new_splitter (F := F) f) = Undefined.
Proof.
  intros Hwf Hl. set (buf := flat_map encode ms ++ [":"%char]) in *.
  destruct (total_walks (F := F) buf ms 0 (new_splitter f)) as (p & s & Hw).
  pose proof (walk_list_next _ _ _ _ _ _ Hw) as ->. rewrite Z.add_0_l in Hw.
  unfold split_by, split_run, try_catch, msg_fuel. pose proof (length_flat_map_encode ms).
  assert (Hfl : length buf = (length (flat_map encode ms) + 1)%nat)
    by (subst buf; by rewrite length_app).
  rewrite (parse_all_app buf ms Hwf Hl [] [":"%char]); [|done|lia].
  rewrite (bind_Ret _ _ _ _ _ Hw).
  destruct (S (S (length buf)) - length ms)%nat as [|fuel] eqn:E; [lia|].
  rewrite parse_all_S, (proj2 (Z.eqb_neq _ _)) by (unfold zlen; lia).
  unfold mbind at 1, M_bind at 1. cbn [parse].
  rewrite (at_end_false buf (flat_map encode ms) ":"%char []),
    (deref_spec buf (flat_map encode ms) ":"%char []), bind_lift_Ret by done.
  eval_eqb. unfold btoi, deref.
  rewrite (proj2 (Z.leb_le _ _)) by (pose_zlen_nonneg; lia).
  rewrite lookup_ge_None_2; [done|]. unfold zlen. lia.
Qed.

(** The bulk header ["$*"]: [btou] accepts any byte as a digit, the length is
    ['*' - '0' = -6] and [parse_str] goes back to the start of the buffer. *)
Definition negative_bulk : bytes := crlf_lines ["$*"].

Lemma parse_negative_bulk fuel (s : Splitter F) :
  (forall b e, on_string (F := F) negative_bulk b e s = (Ret tt, s)) ->
  parse (S fuel) negative_bulk 0 s = (on_element negative_bulk 0 ;; mret 0) s.
Proof.
  intros Hs. cbn [parse]. change (0 =? zlen negative_bulk) with false. cbv iota.
  change (deref negative_bulk 0) with (Ret "$"%char). rewrite bind_lift_Ret. eval_eqb.
  change (at_minus negative_bulk (0 + 1)) with (Ret false). rewrite bind_lift_Ret.
  change (btou negative_bulk (0 + 1)) with (Ret (-6, 4)). rewrite bind_lift_Ret.
  unfold on_lstr. change (parse_str negative_bulk _ _) with (Ret 0).
  rewrite bind_lift_Ret. cbn [fst snd]. by rewrite (bind_Ret _ _ _ _ _ (Hs _ _)).
Qed.

Lemma parse_all_negative_bulk fuel (s : Splitter F) :
  (forall b e s, on_string (F := F) negative_bulk b e s = (Ret tt, s)) ->
  (parse_all fuel negative_bulk 0 s).1 = NoFuel.
Proof.
  intros Hs. revert s. induction fuel as [|fuel IH]; intros s; [done|].
  rewrite parse_all_S. change (0 =? zlen negative_bulk) with false.
  unfold mbind at 1, M_bind at 1. rewrite parse_negative_bulk by done.
  destruct (total_on_element (F := F) negative_bulk 0 s) as ([] & s1 & H).
  rewrite (bind_Ret _ _ _ _ _ H). apply IH.
Qed.
End Misbehaviour.

(** C30. On the four bytes "$*\r\n" the splitter never ends: [parse] returns to
    offset 0 each time, so no number of iterations is enough. *)
Theorem split_diverges (fuel : nat) :
  split_by fuel negative_bulk (new_splitter tt) = NoFuel.
Proof.
  unfold split_by, split_run, try_catch.
  pose proof (parse_all_negative_bulk (F := unit) fuel (new_splitter tt) (fun _ _ _ => eq_refl)) as H.
  by destruct (parse_all fuel negative_bulk 0 (new_splitter tt)) as [[] s1].
Qed.


