(* ===== verification/Buffer.v ===== *)
(** * Buffers and gathered writes: [core/buffer.hpp], [core/buffer.cpp]

    [Buffer] is its bytes.  [BufferSet] queues [shared_ptr<Buffer>]s, so it holds
    names of buffers in a store that commands and responses mutate.  The kernel's
    side of a descriptor is a [chan]: the results its next [read] and [write]
    calls give (an exhausted script answers EAGAIN) and the bytes it has accepted. *)
From S2P Require Import Prelude.
#[local] Open Scope Z_scope.

(** Linux error numbers. *)
Definition EIO : Z := 5.
Definition EAGAIN : Z := 11.
Definition ECONNABORTED : Z := 103.
Definition ECONNRESET : Z := 104.
Definition ETIMEDOUT : Z := 110.
Definition ECONNREFUSED : Z := 111.
Definition EHOSTUNREACH : Z := 113.

Definition BUFFER_SIZE : Z := 16 * 1024.
Definition WRITEV_MAX_SIZE : Z := 2 * 1024 * 1024.
Definition IOV_MAX : Z := 1024.

(** ** The kernel's side of a descriptor *)

(** A [read] gives some bytes (none: end of file) or an error; a [write] accepts a
    number of bytes, at most what it is given, or fails. *)
Inductive read_res : Type := Rd (data : bytes) | RdErr (errno : Z).
Inductive write_res : Type := Wr (n : nat) | WrErr (errno : Z).

Record chan : Type := mkChan {
  ch_reads : list read_res;
  ch_writes : list write_res;
  ch_sent : bytes
}.
#[export] Instance eta_chan : Settable chan := fun x =>
  mkChan (ch_reads x) (ch_writes x) (ch_sent x).

(** The static [on_error]: EAGAIN is no error. *)
Definition is_io_errno (e : Z) : bool :=
  bool_decide (e ∈ [ETIMEDOUT; ECONNABORTED; ECONNREFUSED; ECONNRESET; EHOSTUNREACH; EIO]).

Definition io_on_error (message : bytes) (errno : Z) : outcome unit :=
  if errno =? EAGAIN then Ret tt
  else if is_io_errno errno then Throw (IOError message errno)
  else Throw (SystemError message errno).

(** ** [Buffer] *)

(** [flush_mem]: writes until everything is accepted; EAGAIN is retried at once, so
    an exhausted script leaves the loop unfinished. *)
Fixpoint flush_loop (ws : list write_res) (sent rest : bytes) :
    outcome unit * (list write_res * bytes) :=
  match rest with
  | [] => (Ret tt, (ws, sent))
  | _ :: _ =>
    match ws with
    | [] => (NoFuel, ([], sent))
    | WrErr e :: ws' =>
      match io_on_error (s2b "buffer write") e with
      | Ret _ => flush_loop ws' sent rest
      | o => (o, (ws', sent))
      end
    | Wr n :: ws' =>
      let k := Nat.min n (length rest) in flush_loop ws' (sent ++ take k rest) (drop k rest)
    end
  end.

Definition flush_mem (mem : bytes) : M chan unit := fun c =>
  let '(o, (ws, sent)) := flush_loop (ch_writes c) (ch_sent c) mem in
  (o, mkChan (ch_reads c) ws sent).

Definition flush_string (s : bytes) : M chan unit := flush_mem s.

(** [Buffer::write] *)
Definition buffer_write (buf : bytes) : M chan Z := flush_mem buf ;; mret (zlen buf).

(** [Buffer::read]: reads of at most BUFFER_SIZE bytes until one gives nothing. *)
Fixpoint read_loop (rs : list read_res) (buf : bytes) (n : Z) :
    outcome Z * (bytes * list read_res) :=
  match rs with
  | [] => (Ret n, (buf, []))
  | RdErr e :: rs' => (_ ← io_on_error (s2b "buffer read") e; Ret n, (buf, rs'))
  | Rd data :: rs' =>
    let local := take (Z.to_nat BUFFER_SIZE) data in
    match local with
    | [] => (Ret n, (buf, rs'))
    | _ :: _ => read_loop rs' (buf ++ local) (n + zlen local)
    end
  end.

Definition buffer_read (buf : bytes) (c : chan) : outcome Z * (bytes * chan) :=
  let '(o, (buf', rs)) := read_loop (ch_reads c) buf 0 in (o, (buf', c <| ch_reads := rs |>)).

(** [truncate_from_begin], [append_from], [same_as_string]; the other members of
    [Buffer] are those of its vector. *)
Definition truncate_from_begin (buf : bytes) (i : Z) : bytes := drop (Z.to_nat i) buf.

Definition append_from (buf range : bytes) : bytes := buf ++ range.

Definition buffer_to_string (buf : bytes) : bytes := buf.

Fixpoint find_differs (buf s : bytes) : bool :=
  match buf, s with
  | b :: buf', c :: s' => if Ascii.eqb b c then find_differs buf' s' else true
  | _, _ => false
  end.

Definition same_as_string (buf s : bytes) : bool :=
  if negb (zlen buf =? zlen s) then false else negb (find_differs buf s).

(** ** [BufferSet] *)

Abbreviation buf_id := nat.
Abbreviation buf_store := (gmap nat bytes).

Definition content (st : buf_store) (b : buf_id) : bytes := default [] (st !! b).

Record BufferSet : Type := mkBufferSet {
  _buf_arr : list buf_id;
  _1st_buf_offset : Z
}.
#[export] Instance eta_BufferSet : Settable BufferSet := fun x =>
  mkBufferSet (_buf_arr x) (_1st_buf_offset x).

Definition new_bufset : BufferSet := mkBufferSet [] 0.
Definition bufset_append (b : buf_id) (bs : BufferSet) : BufferSet :=
  bs <| _buf_arr ::= (fun l => l ++ [b]) |>.
Definition bufset_clear (bs : BufferSet) : BufferSet := bs <| _buf_arr := [] |>.
Definition bufset_empty (bs : BufferSet) : bool := bool_decide (_buf_arr bs = []).

(** [write_single]: the number of buffers written, 0 or 1; [*offset], which is kept
    when an exception leaves the function; and the descriptor. *)
Fixpoint write_single_loop (ws : list write_res) (sent buf : bytes) (offset : Z) :
    outcome Z * (Z * (list write_res * bytes)) :=
  if offset <? zlen buf then
    match ws with
    | [] => (Ret 0, (offset, ([], sent)))
    | WrErr e :: ws' => (_ ← io_on_error (s2b "buffer write") e; Ret 0, (offset, (ws', sent)))
    | Wr n :: ws' =>
      let rest := drop (Z.to_nat offset) buf in
      let k := Nat.min n (length rest) in
      write_single_loop ws' (sent ++ take k rest) buf (offset + Z.of_nat k)
    end
  else (Ret 1, (offset, (ws, sent))).

(** [while (iov[written_iov].iov_len <= nwritten) ...]: the segments [nwritten]
    covers are dropped; [None] when it leaves the array. *)
Fixpoint skip_written (iov : list bytes) (nwritten written_iov first_offset : Z) :
    option (list bytes * Z * Z * Z) :=
  match iov with
  | [] => None
  | seg :: iov' =>
    if zlen seg <=? nwritten
    then skip_written iov' (nwritten - zlen seg) (written_iov + 1) 0
    else Some (iov, nwritten, written_iov, first_offset)
  end.

(** The loop of [write_vec]: [iov] is what is left from [iov + written_iov]. *)
Fixpoint write_vec_loop (ws : list write_res) (sent : bytes) (iov : list bytes)
    (iovcnt total written_iov first_offset : Z) :
    outcome Z * (Z * (list write_res * bytes)) :=
  match ws with
  | [] => (Ret (if total =? -1 then iovcnt else written_iov), (first_offset, ([], sent)))
  | WrErr e :: ws' =>
    if total =? -1 then (Ret iovcnt, (first_offset, (ws', sent)))
    else (_ ← io_on_error (s2b "buffer writev") e; Ret written_iov, (first_offset, (ws', sent)))
  | Wr n :: ws' =>
    let data := concat iov in
    let k := Nat.min n (length data) in
    let sent' := sent ++ take k data in
    let nwritten := Z.of_nat k in
    if total =? nwritten then (Ret iovcnt, (first_offset, (ws', sent')))
    else if nwritten =? 0 then (Ret written_iov, (first_offset, (ws', sent')))
    else
      match skip_written iov nwritten written_iov first_offset with
      | Some (seg :: iov', rem, written_iov', first_offset') =>
        write_vec_loop ws' sent' (drop (Z.to_nat rem) seg :: iov') iovcnt (total - nwritten)
          written_iov' (first_offset' + rem)
      | _ => (Undefined, (first_offset, (ws', sent')))
      end
  end.

(** [write_vec]; a first segment shorter than the offset makes [iov_len] wrap around,
    and the kernel reads outside the buffer. *)
Definition write_vec (ws : list write_res) (sent : bytes) (iov : list bytes)
    (total first_offset : Z) : outcome Z * (Z * (list write_res * bytes)) :=
  match iov with
  | [seg] => write_single_loop ws sent seg first_offset
  | seg :: iov' =>
    if (0 <=? first_offset) && (first_offset <=? zlen seg)
    then write_vec_loop ws sent (drop (Z.to_nat first_offset) seg :: iov')
           (zlen iov) total 0 first_offset
    else (Undefined, (first_offset, (ws, sent)))
  | [] => (Undefined, (first_offset, (ws, sent)))
  end.

(** [size_t] and [int] of a size. *)
Definition wrapu64 (z : Z) : Z := z mod 2 ^ 64.
Definition wrap32 (z : Z) : Z := (z + 2 ^ 31) mod 2 ^ 32 - 2 ^ 31.

(** The loop of [next_group_to_write]: from index [i], with [bulk] bytes so far. *)
Fixpoint group_loop (bufs : list bytes) (i bulk : Z) : list bytes * Z :=
  match bufs with
  | [] => ([], bulk)
  | b :: bufs' =>
    if (i <? IOV_MAX) && (wrapu64 (bulk + zlen b) <=? WRITEV_MAX_SIZE)
    then let '(vec, bulk') := group_loop bufs' (i + 1) (wrapu64 (bulk + zlen b)) in
         (b :: vec, bulk')
    else ([], bulk)
  end.

(** [next_group_to_write]: the segments and the bulk size, as [int]. *)
Definition next_group_to_write (bufs : list bytes) (first_offset : Z) : list bytes * Z :=
  match bufs with
  | [] => ([], 0)
  | b0 :: bufs' =>
    let '(vec, bulk) := group_loop bufs' 1 (wrapu64 (zlen b0 - first_offset)) in
    (b0 :: vec, wrap32 bulk)
  end.

(** [BufferSet::writev]: [true] when everything was written.  Every turn erases the
    buffers it wrote, so as many turns as there are buffers are enough. *)
Fixpoint writev_loop (fuel : nat) (st : buf_store) (bs : BufferSet)
    (ws : list write_res) (sent : bytes) :
    outcome bool * (BufferSet * (list write_res * bytes)) :=
  match _buf_arr bs with
  | [] => (Ret true, (bs, (ws, sent)))
  | _ :: _ =>
    match fuel with
    | O => (NoFuel, (bs, (ws, sent)))
    | S fuel' =>
      let '(vec, bulk) := next_group_to_write (content st <$> _buf_arr bs) (_1st_buf_offset bs) in
      let '(o, (offset, (ws', sent'))) := write_vec ws sent vec bulk (_1st_buf_offset bs) in
      let bs' := bs <| _1st_buf_offset := offset |> in
      match o with
      | Ret iov_written =>
        let bs' := bs' <| _buf_arr ::= drop (Z.to_nat iov_written) |> in
        if iov_written <? zlen vec then (Ret false, (bs', (ws', sent')))
        else writev_loop fuel' st (bs' <| _1st_buf_offset := 0 |>) ws' sent'
      | Throw e => (Throw e, (bs', (ws', sent')))
      | UB k => (UB k, (bs', (ws', sent')))
      | NoFuel => (NoFuel, (bs', (ws', sent')))
      end
    end
  end.

Definition writev (st : buf_store) (bs : BufferSet) (c : chan) :
    outcome bool * (BufferSet * chan) :=
  let '(o, (bs', (ws, sent))) :=
    writev_loop (length (_buf_arr bs)) st bs (ch_writes c) (ch_sent c) in
  (o, (bs', mkChan (ch_reads c) ws sent)).

(** ** [Buffer]: what is read, flushed and compared *)

Lemma flush_loop_spec ws sent rest :
  match flush_loop ws sent rest with
  | (Ret _, (_, sent')) => sent' = sent ++ rest
  | (_, (_, sent')) => exists w r, rest = w ++ r /\ sent' = sent ++ w
  end.
Proof.
  revert sent rest. induction ws as [|[n|e] ws IH]; intros sent [|b rest]; cbn [flush_loop];
    try by rewrite app_nil_r.
  - by exists [], (b :: rest); rewrite app_nil_r.
  - set (k := Nat.min n (length (b :: rest))).
    specialize (IH (sent ++ take k (b :: rest)) (drop k (b :: rest))).
    destruct (flush_loop _ _ _) as [[[]| | |] [ws' sent']].
    1: by rewrite IH, <- app_assoc, take_drop.
    all: destruct IH as (w & r & H & ->); exists (take k (b :: rest) ++ w), r;
      rewrite <- !app_assoc, <- H, take_drop; done.
  - unfold io_on_error. destruct (e =? EAGAIN); [apply IH|].
    by destruct (is_io_errno e); exists [], (b :: rest); rewrite app_nil_r.
Qed.

Lemma find_differs_spec buf s :
  length buf = length s -> find_differs buf s = false <-> buf = s.
Proof.
  revert s. induction buf as [|b buf IH]; intros [|c s] Hl; try done.
  cbn. destruct (Ascii.eqb_spec b c) as [->|Hne].
  - rewrite IH by (cbn in Hl; lia). naive_solver.
  - naive_solver.
Qed.

Lemma same_as_string_spec buf s : same_as_string buf s = true <-> buf = s.
Proof.
  unfold same_as_string. destruct (Z.eqb_spec (zlen buf) (zlen s)) as [E|E]; cbn.
  - rewrite negb_true_iff. apply find_differs_spec. unfold zlen in E. lia.
  - split; [done|]. by intros ->.
Qed.

(** ** [BufferSet] as a queue of bytes *)

(** What is left to send. *)
Definition pending (st : buf_store) (bs : BufferSet) : bytes :=
  drop (Z.to_nat (_1st_buf_offset bs)) (concat (content st <$> _buf_arr bs)).

(** The offset is inside the first buffer, and 0 when there is none. *)
Definition bufset_wf (st : buf_store) (bs : BufferSet) : Prop :=
  match _buf_arr bs with
  | [] => _1st_buf_offset bs = 0
  | b :: _ => 0 <= _1st_buf_offset bs <= zlen (content st b)
  end.

(** Buffer sizes fit the [int]s of the source. *)
Definition sizes_ok (st : buf_store) (bs : BufferSet) : Prop :=
  Forall (fun b => zlen (content st b) <= INT_MAX) (_buf_arr bs).

Lemma write_single_loop_spec ws sent buf offset :
  0 <= offset <= zlen buf ->
  let '(o, (offset', (_, sent'))) := write_single_loop ws sent buf offset in
  offset <= offset' <= zlen buf /\
  (exists acc, sent' = sent ++ acc /\ drop (Z.to_nat offset) buf = acc ++ drop (Z.to_nat offset') buf) /\
  match o with
  | Ret k => k = 1 /\ offset' = zlen buf \/ k = 0 /\ offset' < zlen buf
  | Throw _ => True
  | _ => False
  end.
Proof.
  revert sent offset. induction ws as [|[n|e] ws IH]; intros sent offset Ho; cbn [write_single_loop];
    destruct (Z.ltb_spec offset (zlen buf)) as [Hlt|Hge]; try by (split_and!; [lia..|exists []; by rewrite app_nil_r|auto with lia]).
  - set (rest := drop (Z.to_nat offset) buf). set (k := Nat.min n (length rest)).
    assert (Hk : Z.of_nat k <= zlen buf - offset).
    { subst k rest. rewrite length_drop. unfold zlen in *. lia. }
    specialize (IH (sent ++ take k rest) (offset + Z.of_nat k) ltac:(lia)).
    destruct (write_single_loop _ _ _ _) as [o [offset' [ws' sent']]].
    destruct IH as (H1 & (acc & -> & H2) & H3). split; [lia|]. split; [|done].
    exists (take k rest ++ acc). rewrite <- !app_assoc, <- H2. split; [done|]. subst rest.
    rewrite Z2Nat.inj_add, Nat2Z.id, <- drop_drop by lia. by rewrite take_drop.
  - unfold io_on_error. destruct (e =? EAGAIN); [|destruct (is_io_errno e)];
      (split; [lia|split; [exists []; by rewrite app_nil_r|cbn; auto with lia]]).
Qed.

(** A position in the array of segments: segment [w] is sent up to [fo], and [iov]
    is what is left. *)
Definition cursor (segs : list bytes) (w fo : Z) (iov : list bytes) : Prop :=
  exists past seg rest, segs = past ++ seg :: rest /\ zlen past = w /\
    0 <= fo <= zlen seg /\ iov = drop (Z.to_nat fo) seg :: rest.

Lemma skip_written_spec iov n w fo :
  0 <= n < zlen (concat iov) ->
  exists past seg rest rem, iov = past ++ seg :: rest /\
    skip_written iov n w fo = Some (seg :: rest, rem, w + zlen past, if past is [] then fo else 0) /\
    n = zlen (concat past) + rem /\ 0 <= rem < zlen seg.
Proof.
  revert n w fo. induction iov as [|s iov IH]; intros n w fo Hn; cbn in Hn; [zlen_lia|].
  rewrite zlen_app in Hn. cbn [skip_written]. destruct (Z.leb_spec (zlen s) n) as [Hle|Hgt].
  - destruct (IH (n - zlen s) (w + 1) 0) as (past & seg & rest & rem & -> & -> & Hr & Hs); [lia|].
    exists (s :: past), seg, rest, rem. repeat split; [|cbn; zlen_lia|lia..].
    rewrite zlen_cons. replace (w + (1 + zlen past)) with (w + 1 + zlen past) by lia.
    by destruct past.
  - exists [], s, iov, n. rewrite Z.add_0_r. by repeat split; lia || done.
Qed.

Lemma skip_written_none iov n w fo : zlen (concat iov) <= n -> skip_written iov n w fo = None.
Proof.
  revert n w fo. induction iov as [|s iov IH]; intros n w fo; [done|]. cbn. rewrite zlen_app. intros Hn.
  rewrite (proj2 (Z.leb_le _ _)) by (pose_zlen_nonneg; lia). apply IH. lia.
Qed.

Lemma cursor_skip segs w fo iov past seg rest rem :
  cursor segs w fo iov -> iov = past ++ seg :: rest -> 0 <= rem < zlen seg ->
  cursor segs (w + zlen past) ((if past is [] then fo else 0) + rem) (drop (Z.to_nat rem) seg :: rest).
Proof.
  intros (p0 & s0 & r0 & -> & <- & Hfo & ->) Hiov Hrem. destruct past as [|q past]; cbn in Hiov.
  - simplify_eq. exists p0, s0, rest. rewrite zlen_nil, Z.add_0_r.
    assert (zlen (drop (Z.to_nat fo) s0) = zlen s0 - fo) as Hz
      by (unfold zlen in *; rewrite length_drop; lia).
    repeat split; [lia..|]. by rewrite drop_drop, Z2Nat.inj_add by lia.
  - simplify_eq. exists (p0 ++ s0 :: past), seg, rest. repeat split; [app_eq|zlen_lia|lia..].
Qed.

(** The size that [write_vec] was given counts only where it has to know that all was sent. *)
Lemma write_vec_loop_spec ws sent segs iov total w fo :
  cursor segs w fo iov ->
  let '(o, (fo', (_, sent'))) := write_vec_loop ws sent iov (zlen segs) total w fo in
  match o with
  | Ret k =>
    k = zlen segs /\ (total = zlen (concat iov) -> sent' = sent ++ concat iov) \/
    exists iov' acc, cursor segs k fo' iov' /\ sent' = sent ++ acc /\ concat iov = acc ++ concat iov'
  | Throw _ => exists r, sent ++ concat iov = sent' ++ r
  | _ => total <> zlen (concat iov)
  end.
Proof.
  revert sent iov total w fo. induction ws as [|[n|e] ws IH]; intros sent iov total w fo Hc; cbn [write_vec_loop].
  - destruct (Z.eqb_spec total (-1)); [left; split; [done|zlen_lia]|right; exists iov, []; by rewrite app_nil_r].
  - set (k := Nat.min n (length (concat iov))). assert (Hk : (k <= length (concat iov))%nat) by lia.
    destruct (Z.eqb_spec total (Z.of_nat k)) as [E|E].
    { left. split; [done|]. intros Ht. f_equal. apply take_ge. unfold zlen in Ht. lia. }
    destruct (Z.eqb_spec (Z.of_nat k) 0) as [E0|E0].
    { right. exists iov, []. split; [done|]. by replace k with 0%nat by lia. }
    destruct (decide (k = length (concat iov))) as [Ek|Ek].
    { rewrite skip_written_none by (unfold zlen; lia). cbn. unfold zlen. lia. }
    destruct (skip_written_spec iov (Z.of_nat k) w fo) as (past & seg & rest & rem & Hiov & -> & Hn & Hr).
    { unfold zlen in *. lia. }
    specialize (IH (sent ++ take k (concat iov)) (drop (Z.to_nat rem) seg :: rest) (total - Z.of_nat k)
      (w + zlen past) ((if past is [] then fo else 0) + rem)).
    assert (Hrest : concat (drop (Z.to_nat rem) seg :: rest) = drop k (concat iov)).
    { rewrite Hiov, concat_app. cbn [concat].
      replace k with (length (concat past) + Z.to_nat rem)%nat by (unfold zlen in *; lia).
      rewrite <- drop_drop, drop_app_length, drop_app_le; [done|]. unfold zlen in *. lia. }
    assert (Hz : zlen (drop k (concat iov)) = zlen (concat iov) - Z.of_nat k) by (unfold zlen; rewrite length_drop; lia).
    rewrite Hrest, Hz in IH. specialize (IH ltac:(by eapply cursor_skip)).
    destruct (write_vec_loop _ _ _ _ _ _ _) as [o [fo' [ws' sent']]]. rewrite <- app_assoc, take_drop in IH.
    destruct o; [|done|lia..]. destruct IH as [[-> H]|(iov' & acc & H1 & -> & H2)].
    + left. split; [done|]. intros Ht. apply H. lia.
    + right. exists iov', (take k (concat iov) ++ acc). split; [done|]. by rewrite <- !app_assoc, <- H2, take_drop.
  - destruct (Z.eqb_spec total (-1)); [left; split; [done|zlen_lia]|]. unfold io_on_error.
    destruct (e =? EAGAIN); [|destruct (is_io_errno e)]; cbn; [|by eexists..].
    right. exists iov, []. by rewrite app_nil_r.
Qed.

Lemma group_loop_spec bufs i bulk :
  Forall (fun b => zlen b <= INT_MAX) bufs -> 0 <= bulk <= INT_MAX ->
  let '(vec, bulk') := group_loop bufs i bulk in
  (exists rest, bufs = vec ++ rest) /\
  bulk' = bulk + zlen (concat vec) /\ (vec <> [] -> bulk' <= WRITEV_MAX_SIZE).
Proof.
  intros Hs. revert i bulk. induction Hs as [|b bufs Hb Hs IH]; intros i bulk Hbulk; cbn [group_loop].
  { split; [by exists []|]. split; [zlen_lia|done]. }
  assert (Hw : wrapu64 (bulk + zlen b) = bulk + zlen b).
  { unfold wrapu64, INT_MAX in *. pose_zlen_nonneg. apply Z.mod_small. lia. }
  rewrite Hw. destruct (i <? IOV_MAX); cbn [andb].
  2: { split; [by exists (b :: bufs)|]. split; [zlen_lia|done]. }
  destruct (Z.leb_spec (bulk + zlen b) WRITEV_MAX_SIZE) as [Hle|].
  2: { split; [by exists (b :: bufs)|]. split; [zlen_lia|done]. }
  assert (Hle' : bulk + zlen b <= INT_MAX) by (unfold WRITEV_MAX_SIZE, INT_MAX in *; lia).
  specialize (IH (i + 1) (bulk + zlen b) ltac:(pose_zlen_nonneg; lia)).
  destruct (group_loop _ _ _) as [vec bulk']. destruct IH as ((rest & ->) & -> & Hm).
  split; [by exists rest|]. cbn [concat]. rewrite zlen_app. split; [lia|]. intros _.
  destruct vec; [cbn; rewrite zlen_nil; lia|]. by specialize (Hm ltac:(done)).
Qed.

Lemma group_loop_prefix bufs i bulk : exists rest, bufs = (group_loop bufs i bulk).1 ++ rest.
Proof.
  revert i bulk. induction bufs as [|b bufs IH]; intros i bulk; cbn [group_loop]; [by exists []|].
  destruct (_ && _); [|by exists (b :: bufs)]. destruct (IH (i + 1) (wrapu64 (bulk + zlen b))) as (rest & Hr).
  destruct (group_loop _ _ _) as [vec bulk']. exists rest. cbn in *. by rewrite <- Hr.
Qed.

Lemma next_group_spec b0 bufs fo :
  0 <= fo <= zlen b0 ->
  exists vec rest total, next_group_to_write (b0 :: bufs) fo = (b0 :: vec, total) /\ bufs = vec ++ rest /\
    (Forall (fun b => zlen b <= INT_MAX) (b0 :: bufs) -> vec <> [] ->
     total = zlen (concat (drop (Z.to_nat fo) b0 :: vec))).
Proof.
  intros Hfo. unfold next_group_to_write. destruct (group_loop_prefix bufs 1 (wrapu64 (zlen b0 - fo))) as (rest & Hrest).
  destruct (group_loop _ _ _) as [vec bulk] eqn:Eg. exists vec, rest, (wrap32 bulk). split; [done|]. split; [exact Hrest|].
  intros [Hb Hs]%Forall_cons_1 Hne.
  assert (Hw : wrapu64 (zlen b0 - fo) = zlen b0 - fo).
  { unfold wrapu64, INT_MAX in *. apply Z.mod_small. lia. }
  pose proof (group_loop_spec bufs 1 (zlen b0 - fo) Hs ltac:(lia)) as Hg. rewrite <- Hw, Eg, Hw in Hg.
  destruct Hg as (_ & -> & Hm). specialize (Hm Hne). cbn [concat]. rewrite zlen_app.
  unfold wrap32, WRITEV_MAX_SIZE in *. pose_zlen_nonneg. rewrite Z.mod_small by lia.
  assert (zlen (drop (Z.to_nat fo) b0) = zlen b0 - fo)
    by (unfold zlen in *; rewrite length_drop; lia). lia.
Qed.

Lemma write_vec_spec ws sent seg segs total fo (sized : Prop) :
  0 <= fo <= zlen seg ->
  (sized -> segs <> [] -> total = zlen (concat (drop (Z.to_nat fo) seg :: segs))) ->
  let '(o, (fo', (_, sent'))) := write_vec ws sent (seg :: segs) total fo in
  let iov := drop (Z.to_nat fo) seg :: segs in
  match o with
  | Ret k =>
    k = zlen (seg :: segs) /\ (sized -> sent' = sent ++ concat iov) \/
    exists iov' acc, cursor (seg :: segs) k fo' iov' /\ sent' = sent ++ acc /\ concat iov = acc ++ concat iov'
  | Throw _ => exists r, sent ++ concat iov = sent' ++ r
  | _ => ~ sized
  end.
Proof.
  intros Hfo Ht. destruct segs as [|s1 segs]; unfold write_vec.
  - pose proof (write_single_loop_spec ws sent seg fo Hfo) as H.
    destruct (write_single_loop _ _ _ _) as [o [fo' [ws' sent']]]. cbn [concat].
    rewrite !app_nil_r. destruct H as (H1 & (acc & -> & H2) & H3). rewrite H2. destruct o as [k| | |]; try done.
    + destruct H3 as [[-> ->]|[-> Hlt]].
      * left. split; [done|]. rewrite drop_ge, app_nil_r by (unfold zlen; lia). done.
      * right. exists [drop (Z.to_nat fo') seg], acc. split; [|cbn; by rewrite app_nil_r].
        exists [], seg, []. repeat split; [lia..].
    + exists (drop (Z.to_nat fo') seg). by rewrite app_assoc.
  - rewrite !(proj2 (Z.leb_le _ _)) by lia. cbn [andb].
    pose proof (write_vec_loop_spec ws sent (seg :: s1 :: segs) (drop (Z.to_nat fo) seg :: s1 :: segs)
      total 0 fo) as H. specialize (H ltac:(exists [], seg, (s1 :: segs); repeat split; lia)).
    destruct (write_vec_loop _ _ _ _ _ _ _) as [o [fo' [ws' sent']]].
    assert (Ht' : sized -> total = zlen (concat (drop (Z.to_nat fo) seg :: s1 :: segs))) by (intros; by apply Ht).
    destruct o; [|done|tauto..]. destruct H as [[-> H]|H]; [left; auto|by right].
Qed.

Lemma cursor_pending st arr segs rest k fo iov :
  content st <$> arr = segs ++ rest -> cursor segs k fo iov ->
  bufset_wf st (mkBufferSet (drop (Z.to_nat k) arr) fo) /\
  pending st (mkBufferSet (drop (Z.to_nat k) arr) fo) = concat iov ++ concat rest /\
  drop (Z.to_nat k) arr <> [] /\ k < zlen segs.
Proof.
  intros Harr (past & seg & more & -> & <- & Hfo & ->).
  assert (Hd : content st <$> drop (Z.to_nat (zlen past)) arr = seg :: more ++ rest).
  { rewrite fmap_drop, Harr. unfold zlen. rewrite Nat2Z.id, <- app_assoc. by rewrite drop_app_length. }
  destruct (drop (Z.to_nat (zlen past)) arr) as [|b arr'] eqn:E; [done|]. cbn in Hd.
  injection Hd as <- Hd. repeat split; [cbn; lia..| |done|zlen_lia].
  unfold pending. cbn. rewrite Hd, concat_app, drop_app_le by (unfold zlen in *; lia).
  by rewrite app_assoc.
Qed.

(** After a whole group of buffers. *)
Lemma written_buffers st b arr vec rest :
  content st <$> arr = vec ++ rest ->
  let arr1 := drop (Z.to_nat (zlen (content st b :: vec))) (b :: arr) in
  pending st (mkBufferSet arr1 0) = concat rest /\ bufset_wf st (mkBufferSet arr1 0) /\ (length arr1 <= length arr)%nat.
Proof.
  intros Harr arr1. assert (Harr1 : content st <$> arr1 = rest).
  { subst arr1. unfold zlen. rewrite Nat2Z.id, fmap_drop, fmap_cons, Harr. cbn. by rewrite drop_app_length. }
  split_and!.
  - unfold pending. cbn [_buf_arr _1st_buf_offset]. by rewrite Harr1.
  - unfold bufset_wf. cbn [_buf_arr]. destruct arr1; [done|]. cbn. pose_zlen_nonneg. lia.
  - subst arr1. rewrite length_drop. unfold zlen. cbn. lia.
Qed.

(** Whole buffers leave the front; with sizes that fit, what leaves is what was sent. *)
Lemma writev_loop_spec st fuel bs ws sent :
  (length (_buf_arr bs) <= fuel)%nat -> bufset_wf st bs ->
  let '(o, (bs', (_, sent'))) := writev_loop fuel st bs ws sent in
  match o with
  | Ret all =>
    (exists acc, pending st bs = acc ++ pending st bs' /\ (sizes_ok st bs -> sent' = sent ++ acc)) /\
    bufset_wf st bs' /\ all = bool_decide (_buf_arr bs' = []) /\ exists n, _buf_arr bs' = drop n (_buf_arr bs)
  | Throw _ => sizes_ok st bs -> exists r, sent ++ pending st bs = sent' ++ r
  | _ => ~ sizes_ok st bs
  end.
Proof.
  revert bs ws sent. induction fuel as [|fuel IH]; intros bs ws sent Hf Hwf;
    destruct bs as [[|b arr] off]; cbn [writev_loop _buf_arr] in *; try (cbn in Hf; lia).
  1, 2: split_and!; [exists []; split; [done|by rewrite app_nil_r]|done..|by exists 0%nat].
  cbn [bufset_wf _buf_arr _1st_buf_offset] in Hwf. cbn [_1st_buf_offset fmap list_fmap].
  assert (Hs : sizes_ok st (mkBufferSet (b :: arr) off) -> Forall (fun b => zlen b <= INT_MAX) (content st b :: (content st <$> arr))).
  { intros Hs. rewrite <- fmap_cons. apply Forall_fmap. exact Hs. }
  destruct (next_group_spec (content st b) (content st <$> arr) off Hwf) as (vec & rest & total & -> & Harr & Ht).
  pose proof (write_vec_spec ws sent (content st b) vec total off (sizes_ok st (mkBufferSet (b :: arr) off)) Hwf (fun H => Ht (Hs H))) as Hv.
  destruct (write_vec _ _ _ _ _) as [o [fo' [ws' sent']]]. cbn [fmap] in *.
  assert (Hp : pending st (mkBufferSet (b :: arr) off) =
               concat (drop (Z.to_nat off) (content st b) :: vec) ++ concat rest).
  { unfold pending. cbn. rewrite Harr, concat_app, drop_app_le by (unfold zlen in *; lia).
    by rewrite app_assoc. }
  rewrite Hp. destruct o as [k| | |]; try done.
  2: { intros _. destruct Hv as (r & Hr). exists (r ++ concat rest). by rewrite !app_assoc, Hr. }
  destruct Hv as [[-> Hsent]|(iov' & acc & Hc & -> & Hs')].
  - rewrite Z.ltb_irrefl. cbn [set_field _buf_arr _1st_buf_offset].
    destruct (written_buffers st b arr vec rest Harr) as (Hp1 & Hwf1 & Hlt). set (arr1 := drop _ (b :: arr)) in *.
    assert (Hsz : sizes_ok st (mkBufferSet (b :: arr) off) -> sizes_ok st (mkBufferSet arr1 0)) by apply Forall_drop.
    specialize (IH (mkBufferSet arr1 0) ws' sent' ltac:(cbn in *; lia) Hwf1).
    destruct (writev_loop _ _ _ _ _) as [o [bs' [ws2 sent2]]]. rewrite <- Hp1. destruct o as [all| | |]; [|auto..].
    + destruct IH as ((acc & Hacc & Hsent') & Hwf' & Hall & n & Hn). split_and!; [|done..|].
      * exists (concat (drop (Z.to_nat off) (content st b) :: vec) ++ acc). rewrite Hacc, app_assoc. split; [done|].
        intros Hz. rewrite Hsent', Hsent by auto. by rewrite app_assoc.
      * eexists. rewrite Hn. unfold arr1. cbn [_buf_arr]. apply drop_drop.
    + intros Hz. destruct (IH (Hsz Hz)) as (r & Hr). exists r. by rewrite app_assoc, <- Hsent.
  - destruct (cursor_pending st (b :: arr) (content st b :: vec) rest k fo' iov') as (H1 & H2 & H3 & H4);
      [cbn; by rewrite <- Harr|done|].
    rewrite (proj2 (Z.ltb_lt _ _)) by done. cbn [set_field]. split_and!; [|done|by rewrite bool_decide_false|by eexists].
    exists acc. rewrite Hs', <- app_assoc. split; [|done]. f_equal. symmetry. exact H2.
Qed.

Lemma writev_true st bs c bs' c' : writev st bs c = (Ret true, (bs', c')) -> _buf_arr bs' = [].
Proof.
  unfold writev. generalize (length (_buf_arr bs)) as fuel, (ch_writes c) as ws, (ch_sent c) as sent. intros fuel.
  revert bs. induction fuel as [|fuel IH]; intros bs ws sent; cbn [writev_loop]; destruct (_buf_arr bs) eqn:Eb; try done;
    try (intros [= <- _]; exact Eb).
  destruct (next_group_to_write _ _) as [vec bulk]. destruct (write_vec _ _ _ _ _) as [[k|e|u|] [fo [ws' sent']]]; try done.
  destruct (_ <? _); [done|]. apply IH.
Qed.

(** What [writev] gives back as unfinished has buffers left. *)
Lemma writev_false st bs c bs' c' : writev st bs c = (Ret false, (bs', c')) -> _buf_arr bs' <> [].
Proof.
  unfold writev. generalize (length (_buf_arr bs)) as fuel, (ch_writes c) as ws, (ch_sent c) as sent. intros fuel.
  revert bs. induction fuel as [|fuel IH]; intros bs ws sent; cbn [writev_loop]; destruct (_buf_arr bs) as [|b l] eqn:Eb; try done.
  assert (Hv : (length (next_group_to_write (content st <$> b :: l) (_1st_buf_offset bs)).1 <= length (b :: l))%nat).
  { cbn. destruct (group_loop_prefix (content st <$> l) 1 (wrapu64 (zlen (content st b) - _1st_buf_offset bs))) as (rest & Hr).
    destruct (group_loop _ _ _) as [vec bulk]. cbn in *. apply (f_equal length) in Hr. rewrite length_fmap, length_app in Hr. lia. }
  destruct (next_group_to_write _ _) as [vec bulk]. destruct (write_vec _ _ _ _ _) as [[k|e|u|] [fo [ws' sent']]]; try done.
  destruct (Z.ltb_spec k (zlen vec)); [|apply IH]. intros [= <- _]. cbn -[drop]. intros E%(f_equal length). rewrite Eb, length_drop in E.
  unfold zlen in *. cbn in *. lia.
Qed.

(** Whatever the sizes: buffers leave at the front, and bytes with them. *)
Lemma writev_queue st bs c all bs' c' :
  writev st bs c = (Ret all, (bs', c')) -> bufset_wf st bs ->
  bufset_wf st bs' /\ all = bool_decide (_buf_arr bs' = []) /\
  (exists acc, pending st bs = acc ++ pending st bs') /\ exists n, _buf_arr bs' = drop n (_buf_arr bs).
Proof.
  unfold writev. intros H Hwf.
  pose proof (writev_loop_spec st (length (_buf_arr bs)) bs (ch_writes c) (ch_sent c) ltac:(done) Hwf) as Hs.
  destruct (writev_loop _ _ _ _ _) as [o [bs1 [ws sent]]]. simplify_eq. destruct Hs as ((acc & Hacc & _) & ? & ? & ?). eauto 6.
Qed.

(** C14. [BufferSet::writev] is a FIFO of bytes: whatever the kernel accepts call by
    call, the bytes accepted are, in order, a prefix of what was pending and the rest
    stays pending (no byte lost, repeated or reordered); [true] is returned exactly
    when nothing is left; the offset stays inside the first buffer; and the function
    returns or throws, it never loops for ever or reads outside its buffers. *)
Theorem writev_fifo (st : buf_store) (bs : BufferSet) (c : chan) :
  bufset_wf st bs -> sizes_ok st bs ->
  let '(o, (bs', c')) := writev st bs c in
  match o with
  | Ret all =>
    ch_sent c ++ pending st bs = ch_sent c' ++ pending st bs' /\ bufset_wf st bs' /\
    all = bool_decide (_buf_arr bs' = [])
  | Throw _ => exists r, ch_sent c ++ pending st bs = ch_sent c' ++ r
  | _ => False
  end.
Proof.
  intros Hwf Hsz. unfold writev.
  pose proof (writev_loop_spec st (length (_buf_arr bs)) bs (ch_writes c) (ch_sent c)
                ltac:(done) Hwf) as H.
  destruct (writev_loop _ _ _ _ _) as [[all| | |] [bs' [ws sent]]]; [|auto..].
  destruct H as ((acc & -> & Hs) & Hwf' & Hall & _). cbn. rewrite Hs by done. by rewrite app_assoc.
Qed.

(** The queue of the witness: two buffers, the second one shared, the first partly sent. *)
Definition sample_store : buf_store := <[0%nat := s2b "abcdef"]> (<[1%nat := s2b "uvwxyz"]> ∅).

Lemma writev_fifo_witness :
  let bs := mkBufferSet [0%nat; 1%nat] 2 in
  let c := mkChan [] [Wr 3; Wr 2] [] in
  let '(o, (bs', c')) := writev sample_store bs c in
  match o with
  | Ret all =>
    ch_sent c ++ pending sample_store bs = ch_sent c' ++ pending sample_store bs' /\
    bufset_wf sample_store bs' /\ all = bool_decide (_buf_arr bs' = [])
  | Throw _ => exists r, ch_sent c ++ pending sample_store bs = ch_sent c' ++ r
  | _ => False
  end.
Proof.
  intros bs c. apply (writev_fifo sample_store bs c).
  - vm_compute. split; discriminate.
  - unfold sizes_ok. repeat constructor; vm_compute; discriminate.
Defined.


Lemma read_loop_spec rs buf n :
  match read_loop rs buf n with
  | (o, (buf', _)) => exists d, buf' = buf ++ d /\
      match o with Ret n' => n' = n + zlen d | Throw _ => True | _ => False end
  end.
Proof.
  revert buf n. induction rs as [|[data|e] rs IH]; intros buf n; cbn [read_loop].
  - exists []. rewrite app_nil_r, zlen_nil. split; [done|lia].
  - destruct (take _ data) as [|x d] eqn:E.
    + exists []. rewrite app_nil_r, zlen_nil. split; [done|lia].
    + specialize (IH (buf ++ x :: d) (n + zlen (x :: d))).
      destruct (read_loop _ _ _) as [o [buf' rs']]. destruct IH as (d' & -> & Hn).
      exists ((x :: d) ++ d'). split; [by rewrite <- app_assoc|].
      destruct o; try done. rewrite zlen_app. lia.
  - exists []. rewrite app_nil_r, zlen_nil. split; [done|]. unfold io_on_error.
    destruct (e =? EAGAIN); [cbn; lia|]. by destruct (is_io_errno e).
Qed.
