(* ===== verification/Response.v ===== *)
(** * Server responses: [core/response.hpp], [core/response.cpp]

    The responses a server's bytes split into, and which of them make the proxy
    retry the command. *)
From S2P Require Import Prelude Strings Message Resp Stream Buffer.
#[local] Open Scope Z_scope.

(** The two classes derived from [Response]. *)
Inductive Response : Type :=
  | NormalResponse (rsp : bytes) (error : bool)
  | RetryMovedAskResponse.

Definition NIL_STR : bytes := crlf_lines ["$-1"].

Definition retry_dump : bytes := s2b "$ RETRY MOVED OR ASK $".

Definition get_buffer (r : Response) : bytes :=
  match r with
  | NormalResponse rsp _ => rsp
  | RetryMovedAskResponse => retry_dump
  end.

Definition server_moved (r : Response) : bool :=
  match r with NormalResponse _ _ => false | RetryMovedAskResponse => true end.

(** The members [ServerResponseSplitter] adds to the base. *)
Record ServerResponseSplitter : Type := mkRSplitter {
  _last_error : bytes;
  responses : list Response
}.
#[export] Instance eta_RSplitter : Settable ServerResponseSplitter := fun x =>
  mkRSplitter (_last_error x) (responses x).

(** The error codes that mean "ask the cluster again". *)
Definition is_retry_error (e : bytes) : bool :=
  stristartswith e (s2b "MOVED") || stristartswith e (s2b "ASK") ||
  stristartswith e (s2b "CLUSTERDOWN").

Definition _push (r : Response) : M (Splitter ServerResponseSplitter) unit :=
  modify (fun s => s <| final ::= (fun f => f <| responses ::= (fun l => l ++ [r]) |>) |>).

Definition _push_normal_rsp (buf : bytes) (begin end_ : Z) : M (Splitter ServerResponseSplitter) unit :=
  e ← gets (fun s => _last_error (final s));
  rsp ← lift (slice buf begin end_);
  _push (NormalResponse rsp (negb (bool_decide (e = [])))).

Definition _push_rsp (buf : bytes) (i : Z) : M (Splitter ServerResponseSplitter) unit :=
  e ← gets (fun s => _last_error (final s));
  if negb (bool_decide (e = [])) && is_retry_error e then _push RetryMovedAskResponse
  else back ← gets interrupt_point; _push_normal_rsp buf back i.

#[export] Instance response_hooks : SplitterHooks ServerResponseSplitter := {
  on_string _ _ _ := mret tt;
  on_error buf b e :=
    t ← lift (slice buf b e); modify (fun s => s <| final ::= (fun f => f <| _last_error := t |>) |>);
  on_split_point buf next :=
    _push_rsp buf next ;; modify (fun s => s <| final ::= (fun f => f <| _last_error := [] |>) |>);
  on_array _ := mret tt
}.

(** [split_server_response]: the responses, and what stays in the buffer. *)
Definition split_server_response_fuel (fuel : nat) (buffer : bytes) : outcome (list Response * bytes) :=
  r ← split_by fuel buffer (new_splitter (mkRSplitter [] []));
  Ret (responses (final r),
       if finished r then [] else truncate_from_begin buffer (interrupt_point r)).

Definition split_server_response (buffer : bytes) : outcome (list Response * bytes) :=
  split_server_response_fuel (msg_fuel buffer) buffer.

(** ** Specification *)

(** The last error text in a value, starting from [e]. *)
Fixpoint last_err (e : bytes) (m : resp) : bytes :=
  match m with
  | RError t => t
  | RArray l => fold_left last_err l e
  | _ => e
  end.

(** An error of the cluster that asks to send the command elsewhere: its first word, in any
    case, starts with one of three codes. *)
Definition redirects (e : bytes) : bool :=
  existsb (fun code => bool_decide (toupper <$> take (length (s2b code)) e = s2b code))
    ["MOVED"; "ASK"; "CLUSTERDOWN"]%string.

Definition classify (m : resp) : Response :=
  let e := last_err [] m in
  if redirects e then RetryMovedAskResponse
  else NormalResponse (encode m) (negb (bool_decide (e = []))).

Lemma stristartswith_take s code :
  toupper <$> code = code ->
  stristartswith s code = bool_decide (toupper <$> take (length code) s = code).
Proof.
  intros Hc. apply eq_bool_prop_intro. symmetry. rewrite bool_decide_spec, Is_true_true, stristartswith_spec, Hc. split.
  - intros H. exists (take (length code) s), (drop (length code) s). by rewrite take_drop.
  - intros (p & t & -> & Hp). replace (length code) with (length p); [by rewrite take_app_length|].
    by rewrite <- Hp, length_fmap.
Qed.

Lemma is_retry_error_spec e : negb (bool_decide (e = [])) && is_retry_error e = redirects e.
Proof.
  unfold is_retry_error, redirects. cbn [existsb]. rewrite !stristartswith_take, orb_false_r, orb_assoc by done.
  destruct e; [done|]. by rewrite bool_decide_false.
Qed.

(** ** The hooks *)

Lemma slice_cases buf b e : (exists t, slice buf b e = Ret t) \/ slice buf b e = Undefined.
Proof. unfold slice. case_match; eauto. Qed.

#[export] Instance response_tame : TameHooks ServerResponseSplitter.
Proof.
  split; intros; intros s; cbn.
  - done.
  - unfold mbind, M_bind, lift. by destruct (slice_cases buf b e) as [[t ->]| ->].
  - unfold _push_rsp, _push_normal_rsp, _push, mbind, M_bind, lift, gets, modify. cbn.
    destruct (_ && _); cbn; [done|].
    by destruct (slice_cases buf (interrupt_point s) p) as [[t ->]| ->].
  - done.
Qed.

#[export] Instance response_quiet : QuietHooks ServerResponseSplitter.
Proof.
  split; intros; [apply quiet_ret| |apply quiet_ret].
  apply quiet_bind; [|intros; apply quiet_modify]. intros s. unfold lift, slice.
  rewrite !(proj2 (Z.leb_le _ _)) by lia. by eexists _, _.
Qed.

(** ** The traversal of a response *)

Abbreviation rsplitter := (Splitter ServerResponseSplitter).

Definition set_err (e : bytes) (s : rsplitter) : rsplitter :=
  s <| final ::= (fun f => f <| _last_error := e |>) |>.

Lemma set_err_same s : set_err (_last_error (final s)) s = s.
Proof. by destruct s as [? ? ? []]. Qed.


Definition element_done (buf : bytes) (next : Z) : M rsplitter Z := on_element buf next ;; mret next.

Lemma on_element_open buf p (s : rsplitter) k counts :
  _nested_array_element_count s = k :: counts -> 2 <= k < 2 ^ 63 ->
  on_element buf p s = (Ret tt, s <| _nested_array_element_count := (k - 1) :: counts |>).
Proof.
  intros Hn Hk. unfold on_element, gets, modify, mbind, M_bind, mret, M_ret. rewrite Hn.
  cbn [count_element]. rewrite wrap64_id by (unfold in_rint; lia).
  by rewrite (proj2 (Z.eqb_neq _ _)) by lia.
Qed.

Lemma on_element_close buf p (s : rsplitter) counts :
  _nested_array_element_count s = 1 :: counts ->
  on_element buf p s = on_element buf p (s <| _nested_array_element_count := counts |>).
Proof.
  intros Hn. unfold on_element, gets, modify, mbind, M_bind. rewrite Hn. cbn.
  by destruct (count_element counts) as [c []].
Qed.

(** A value is one element, after which [_last_error] is the last error in it. *)
Definition walks_as_element (m : resp) : Prop := forall buf pre post s,
  buf = pre ++ encode m ++ post -> zlen buf < 2 ^ 63 ->
  walk buf m (zlen pre) s =
  element_done buf (zlen pre + zlen (encode m)) (set_err (last_err (_last_error (final s)) m) s).

Lemma walk_list_as_element buf l :
  l <> [] -> Forall walks_as_element l -> zlen buf < 2 ^ 63 -> forall pre post counts s,
  buf = pre ++ flat_map encode l ++ post ->
  _nested_array_element_count s = zlen l :: counts ->
  walk_list (walk buf) l (zlen pre) s =
  element_done buf (zlen pre + zlen (flat_map encode l))
    (set_err (fold_left last_err l (_last_error (final s))) s
       <| _nested_array_element_count := counts |>).
Proof.
  intros Hne Hl Hbuf. induction Hl as [|m l Hm Hl IH]; [done|]. clear Hne.
  intros pre post counts s Hb Hn. cbn [walk_list flat_map fold_left] in *.
  destruct l as [|m' l].
  - cbn [walk_list flat_map] in *. rewrite app_nil_r in *.
    unfold mbind at 1, M_bind at 1. rewrite (Hm _ _ _ _ Hb Hbuf).
    unfold element_done, mbind, M_bind. rewrite (on_element_close _ _ _ counts) by done. cbn [fold_left].
    destruct (on_element _ _ _) as [[] ?]; done.
  - rewrite <- app_assoc in Hb. pose proof (length_flat_map_encode (m' :: l)) as Hle.
    assert (Hk : 2 <= zlen (m :: m' :: l) < 2 ^ 63).
    { pose proof (encode_nonempty m). subst buf. rewrite !zlen_app in Hbuf. unfold zlen in *. cbn in *. lia. }
    rewrite (bind_Ret _ (zlen (pre ++ encode m))
      (set_err (last_err (_last_error (final s)) m) s
         <| _nested_array_element_count := zlen (m' :: l) :: counts |>)).
    + rewrite (IH ltac:(done) (pre ++ encode m) post counts); [|subst; by rewrite <- !app_assoc|done].
      rewrite !zlen_app. by rewrite Z.add_assoc.
    + rewrite (Hm _ _ _ _ Hb Hbuf). unfold element_done.
      rewrite (bind_Ret _ tt (set_err (last_err (_last_error (final s)) m) s
         <| _nested_array_element_count := zlen (m' :: l) :: counts |>)).
      * by rewrite zlen_app.
      * rewrite (on_element_open _ _ _ (zlen (m :: m' :: l)) counts) by done.
        by replace (zlen (m :: m' :: l) - 1) with (zlen (m' :: l)) by zlen_lia.
Qed.

Lemma response_walk m : walks_as_element m.
Proof.
  induction m as [z|t|t|t| | |l IH] using resp_induction; intros buf pre post s Hb Hbuf;
    cbn [walk last_err].
  1,2,4,5,6: by rewrite set_err_same.
  - cbn [encode] in Hb. unfold mbind at 1, M_bind at 1. cbn [on_error response_hooks].
    unfold mbind at 1, M_bind at 1, lift.
    rewrite (slice_spec buf (pre ++ ["-"%char]) t (crlf ++ post));
      [done|app_eq|zlen_lia|cbn [encode]; zlen_lia].
  - cbn [encode] in *. rewrite zlen_app. rewrite <- app_assoc in Hb. unfold on_arr.
    rewrite bind_assoc, (bind_Ret _ tt s) by done.
    destruct (Z.eqb_spec (zlen l) 0) as [E|E].
    + apply zlen_0_inv in E as ->. cbn [walk_list flat_map fold_left].
      rewrite set_err_same, zlen_nil, Z.add_0_r. done.
    + rewrite (bind_Ret _ tt (s <| _nested_array_element_count ::= cons (zlen l) |>)) by done.
      rewrite <- zlen_app.
      rewrite (walk_list_as_element buf l ltac:(by intros ->) IH Hbuf _ post (_nested_array_element_count s));
        [|app_eq|done].
      rewrite zlen_app, Z.add_assoc. by destruct s as [? ? ? []].
Qed.

(** At the top level a value is one response. *)
Lemma response_walk_top buf pre m post s :
  buf = pre ++ encode m ++ post -> zlen buf < 2 ^ 63 ->
  _nested_array_element_count s = [] -> interrupt_point s = zlen pre ->
  _last_error (final s) = [] ->
  walk buf m (zlen pre) s =
  (Ret (zlen (pre ++ encode m)),
   mkSplitter (_interrupted s) (_split_points s ++ [zlen (pre ++ encode m)]) []
     (mkRSplitter [] (responses (final s) ++ [classify m]))).
Proof.
  intros Hb Hbuf Hn Hi He. rewrite (response_walk m _ _ _ _ Hb Hbuf), He.
  unfold element_done, on_element, gets, modify, mbind, M_bind, when. rewrite zlen_app.
  cbn. rewrite Hn. cbn. unfold _push_rsp, _push_normal_rsp, _push, classify, gets, modify, mbind, M_bind, lift.
  cbn -[redirects]. rewrite is_retry_error_spec. destruct (redirects _) eqn:E; [done|]. unfold interrupt_point in Hi |- *. cbn. rewrite Hi.
  by rewrite (slice_spec buf pre (encode m) post).
Qed.

Lemma response_walk_all buf ms post : zlen buf < 2 ^ 63 -> forall pre s,
  buf = pre ++ flat_map encode ms ++ post ->
  _nested_array_element_count s = [] -> interrupt_point s = zlen pre ->
  _last_error (final s) = [] ->
  exists s', walk_list (walk buf) ms (zlen pre) s = (Ret (zlen (pre ++ flat_map encode ms)), s') /\
    responses (final s') = responses (final s) ++ (classify <$> ms).
Proof.
  intros Hbuf. induction ms as [|m ms IH]; intros pre s Hb Hn Hi He; cbn [walk_list flat_map fmap list_fmap] in *.
  { exists s. by rewrite !app_nil_r. }
  rewrite <- app_assoc in Hb.
  rewrite (bind_Ret _ _ _ _ _ (response_walk_top buf pre m _ s Hb Hbuf Hn Hi He)).
  edestruct (IH (pre ++ encode m)) as (s' & H1 & H2).
  5: { rewrite <- app_assoc in H1. exists s'. split; [exact H1|]. rewrite H2. cbn. by rewrite <- app_assoc. }
  - subst. by rewrite <- !app_assoc.
  - done.
  - unfold interrupt_point. cbn. by rewrite last_snoc.
  - done.
Qed.

(** Responses are only appended, one for each split point: for any bytes at all. *)
Definition rsp_grows (s s' : rsplitter) : Prop :=
  exists extra, responses (final s') = responses (final s) ++ extra /\
    length (_split_points s') = (length (_split_points s) + length extra)%nat.

#[export] Instance rsp_grows_preorder : PreOrder rsp_grows.
Proof.
  split.
  - intros s. exists []. rewrite app_nil_r. cbn. auto with lia.
  - intros s1 s2 s3 (e1 & H1 & L1) (e2 & H2 & L2). exists (e1 ++ e2).
    rewrite H2, H1, app_assoc, length_app. auto with lia.
Qed.

Lemma rsp_grows_same (s s' : rsplitter) :
  responses (final s') = responses (final s) -> _split_points s' = _split_points s -> rsp_grows s s'.
Proof. intros H1 H2. exists []. rewrite app_nil_r, H1, H2. cbn. auto with lia. Qed.

Lemma on_error_grows buf b e : relates rsp_grows (on_error (F := ServerResponseSplitter) buf b e).
Proof.
  intros s. cbn. unfold mbind, M_bind, lift.
  destruct (slice_cases buf b e) as [[t ->]| ->]; by apply rsp_grows_same.
Qed.

Lemma on_element_grows buf p : relates rsp_grows (on_element (F := ServerResponseSplitter) buf p).
Proof.
  intros s. unfold on_element, gets, modify, mbind, M_bind, when.
  destruct (count_element _) as [c []]; cbn; [|by apply rsp_grows_same].
  unfold _push_rsp, _push_normal_rsp, _push, gets, modify, mbind, M_bind, lift. cbn.
  destruct (_ && _); cbn.
  { exists [RetryMovedAskResponse]. cbn. by rewrite length_app. }
  match goal with |- context [slice buf ?b p] => destruct (slice_cases buf b p) as [[t ->]| ->] end;
    cbn; [|by apply rsp_grows_same].
  eexists [_]. cbn. by rewrite length_app.
Qed.

Lemma parse_grows fuel buf p (s : rsplitter) : rsp_grows s (parse fuel buf p s).2.
Proof.
  revert s. apply (parse_preserves rsp_grows); auto using on_error_grows, on_element_grows;
    intros; intros s; by apply rsp_grows_same.
Qed.

(** What [split_server_response] does with whole responses and an interrupted one. *)
Lemma split_server_response_spec ms rest :
  Forall (fun m => wf m = true) ms -> unfinished rest ->
  zlen (flat_map encode ms ++ rest) < 2 ^ 63 ->
  split_server_response (flat_map encode ms ++ rest) = Ret (classify <$> ms, rest).
Proof.
  intros Hwf Hrest Hl. set (buf := flat_map encode ms ++ rest) in *.
  destruct (response_walk_all buf ms rest Hl [] (new_splitter (mkRSplitter [] []))) as (s & Hw & Hr);
    [done..|]. cbn [app] in Hw.
  destruct (walked_base _ _ _ _ Hw) as (Hi & Hn & Hs);
    [subst buf; rewrite zlen_app in Hl; pose_zlen_nonneg; lia|].
  unfold split_server_response, split_server_response_fuel.
  destruct Hrest as [->|(m & Hcut & Hm & Hlen)].
  - rewrite (split_by_whole buf ms _ s); [|subst buf; by rewrite app_nil_r|done..].
    cbn. unfold finished. rewrite Hn, Hi, Hr. done.
  - destruct (split_by_cut buf ms m rest (mkRSplitter [] []) s) as (s' & -> & Hs' & Hf & fuel & Hr1 & Hr2);
      try done.
    cbn. rewrite Hf, Hr1. destruct (parse_grows fuel buf (zlen (flat_map encode ms)) s) as (extra & He & Hlen').
    rewrite <- Hr2, Hs' in Hlen'. destruct extra; [|cbn in Hlen'; lia].
    rewrite He, Hr, app_nil_r. cbn. do 2 f_equal. unfold truncate_from_begin, interrupt_point.
    rewrite Hs', Hs, points_last. destruct ms; [done|]. unfold from_option, id, zlen.
    rewrite Z.add_0_l, Nat2Z.id. subst buf. by rewrite drop_app_length.
Qed.

(** ** Responses that arrive in pieces

    [receive]: each piece is appended to what the last call left in the buffer, as
    [Server::_recv_from] does with [_buffer]. *)
Fixpoint receive (buffer : bytes) (pieces : list bytes) : outcome (list Response * bytes) :=
  match pieces with
  | [] => Ret ([], buffer)
  | p :: pieces' =>
    '(rs, rest) ← split_server_response (buffer ++ p);
    '(rs', rest') ← receive rest pieces';
    Ret (rs ++ rs', rest')
  end.

Definition ends_with_marker (s : bytes) : Prop := last s = Some ":"%char.

Lemma last_app_ne {A} (l1 l2 : list A) : l2 <> [] -> last (l1 ++ l2) = last l2.
Proof. intros H. rewrite last_app. destruct (last l2) eqn:E; [done|]. by apply last_None in E. Qed.

Lemma marker_cut_last m p : marker_cut m p -> ends_with_marker p.
Proof.
  unfold ends_with_marker. induction 1 as [|l1 m l2 p H IH]; [done|].
  rewrite app_assoc, last_app_ne; [done|]. by intros ->.
Qed.

(** A prefix of a stream of values, not ending with a marker: whole values and an
    unfinished one. *)
Lemma stream_prefix p more ms :
  p ++ more = flat_map encode ms -> ~ ends_with_marker p ->
  Forall (fun m => wf m = true) ms -> zlen (flat_map encode ms) < 2 ^ 63 ->
  exists ms1 ms2 q, ms = ms1 ++ ms2 /\ p = flat_map encode ms1 ++ q /\
    q ++ more = flat_map encode ms2 /\ unfinished q /\ ~ ends_with_marker q /\
    (more = [] -> q = [] /\ ms2 = []).
Proof.
  intros Hp Hm Hwf Hl. destruct (decide (more = [])) as [->|Hmore].
  { exists ms, [], []. rewrite !app_nil_r in *. repeat split; auto; [by left|intros [=]]. }
  destruct (strict_prefix_values p ms) as (l1 & m & l2 & q & -> & -> & Hq).
  { by exists more. }
  exists l1, (m :: l2), q. rewrite flat_map_app, <- app_assoc in Hp. apply app_inv_head in Hp.
  assert (Hmq : ~ ends_with_marker q).
  { unfold ends_with_marker in *. intros H. apply Hm. rewrite last_app_ne; [done|]. by intros ->. }
  do 3 (split; [done|]). split; [|done].
  destruct (decide (q = [])) as [->|Hne]; [by left|]. right. exists m.
  apply Forall_app in Hwf as [_ Hwf]. apply Forall_inv in Hwf. split; [|split; [done|]].
  - destruct (prefix_is_cut m q Hne Hq) as [H|H%marker_cut_last]; done.
  - rewrite flat_map_app, zlen_app in Hl. cbn in Hl. rewrite zlen_app in Hl. pose_zlen_nonneg. lia.
Qed.

Lemma receive_stream pieces : forall buffer ms,
  buffer ++ concat pieces = flat_map encode ms -> ~ ends_with_marker buffer ->
  Forall (fun p => ~ ends_with_marker p) pieces ->
  Forall (fun m => wf m = true) ms -> zlen (flat_map encode ms) < 2 ^ 63 ->
  (concat pieces = [] -> buffer = []) ->
  receive buffer pieces = Ret (classify <$> ms, []).
Proof.
  induction pieces as [|p pieces IH]; intros buffer ms Hb Hm Hp Hwf Hl He; cbn [concat receive] in *.
  { specialize (He eq_refl) as ->. cbn in Hb. destruct ms as [|m ms]; [done|].
    pose proof (encode_ne m). cbn in Hb. by destruct (encode m). }
  apply Forall_cons_1 in Hp as [Hp1 Hp2]. rewrite app_assoc in Hb.
  assert (Hbp : ~ ends_with_marker (buffer ++ p)).
  { unfold ends_with_marker. destruct (decide (p = [])) as [->|Hne]; [by rewrite app_nil_r|].
    by rewrite last_app_ne. }
  destruct (stream_prefix _ _ _ Hb Hbp Hwf Hl) as (ms1 & ms2 & q & -> & Hq & Hrest & Hu & Hmq & Hend).
  apply Forall_app in Hwf as [Hwf1 Hwf2]. rewrite flat_map_app, zlen_app in Hl. pose_zlen_nonneg.
  rewrite Hq, split_server_response_spec; [|done..|].
  2: { rewrite <- Hq. apply (f_equal zlen) in Hb. rewrite flat_map_app in Hb.
       rewrite !zlen_app in *. pose_zlen_nonneg. lia. }
  cbn [mbind outcome_bind]. rewrite (IH q ms2); [|done..|lia|naive_solver].
  cbn. by rewrite fmap_app.
Qed.

(** C13. Responses are reassembled from any pieces: however the kernel cuts a stream of
    RESP responses into reads, provided no piece ends with the ':' marker of an
    integer, the responses delivered are exactly those of the stream, in order and
    each once, and nothing is left in the buffer. *)
Theorem responses_reassembled (ms : list resp) (pieces : list bytes) :
  Forall (fun m => wf m = true) ms -> zlen (flat_map encode ms) < 2 ^ 63 ->
  concat pieces = flat_map encode ms -> Forall (fun p => ~ ends_with_marker p) pieces ->
  receive [] pieces = Ret (classify <$> ms, []).
Proof. intros Hwf Hl Hc Hp. by apply receive_stream. Qed.

Definition sample_replies : list resp :=
  [RError (s2b "MOVED 1 h:1"); RArray [RBulk (s2b "a"); RInt 7; RNull]].

Lemma responses_reassembled_witness :
  receive [] [crlf_line "-MOVED 1 h:1" ++ s2b "*3"; crlf ++ s2b "$1"; crlf ++ crlf_lines ["a"; ":7"] ++ s2b "$-";
              crlf_line "1"] =
  Ret (classify <$> sample_replies, []).
Proof.
  apply (responses_reassembled sample_replies); vm_compute;
    repeat first [discriminate | reflexivity | constructor | intros [=]].
Defined.

(** Any bytes at all: the number of responses is the number of split points, so a
    malformed stream cannot yield a response without consuming a message. *)
Theorem one_response_per_message (fuel : nat) (buffer : bytes) (s : rsplitter) :
  split_by fuel buffer (new_splitter (mkRSplitter [] [])) = Ret s ->
  zlen (responses (final s)) = splitter_size s.
Proof.
  unfold split_by, split_run, try_catch. intros H.
  assert (Hg : rsp_grows (new_splitter (mkRSplitter [] [])) (parse_all fuel buffer 0 (new_splitter (mkRSplitter [] []))).2).
  { apply (parse_all_preserves rsp_grows); auto using on_error_grows, on_element_grows;
      intros; intros s'; by apply rsp_grows_same. }
  destruct (parse_all _ _ _ _) as [o s1]. destruct Hg as (extra & Hr & Hs). cbn in Hr, Hs.
  assert (responses (final s) = extra /\ length (_split_points s) = S (length extra)) as [-> Hlen].
  { destruct o as [|[]| |]; by simplify_eq/=. }
  unfold splitter_size, zlen. rewrite Hlen. lia.
Qed.

Lemma one_response_per_message_witness :
  match split_by 9 (crlf_lines ["+OK"; "$1"; "a"; "$7"]) (new_splitter (mkRSplitter [] [])) with
  | Ret s => zlen (responses (final s)) = splitter_size s
  | _ => False
  end.
Proof.
  destruct (split_by _ _ _) as [s| | |] eqn:E; [|exfalso; revert E; vm_compute; discriminate..].
  exact (one_response_per_message _ _ _ E).
Defined.
