(* ===== verification/SlotMap.v ===== *)
(** * Cluster nodes: the text parser of [core/slot_map.hpp], [core/slot_map.cpp]

    [RedisNode] and [parse_slot_map], which turns the answer to CLUSTER NODES into
    nodes.  The slot table itself is in [World.v] and [SlotTable.v], because
    replacing it opens and closes connections. *)
From S2P Require Import Prelude Strings OrderedSet Address.
#[local] Open Scope Z_scope.

Record RedisNode : Type := mkRedisNode {
  node_addr : Address;
  node_id : bytes;
  master_id : bytes;
  slot_ranges : list (Z * Z)     (* std::set<std::pair<slot, slot>> *)
}.
#[export] Instance eta_RedisNode : Settable RedisNode := fun x =>
  mkRedisNode (node_addr x) (node_id x) (master_id x) (slot_ranges x).

Definition is_master (n : RedisNode) : bool := bool_decide (master_id n = []).

(** [s.find(sub) != std::string::npos] *)
Fixpoint is_prefix_of (sub s : bytes) : bool :=
  match sub, s with
  | [], _ => true
  | a :: sub', b :: s' => Ascii.eqb a b && is_prefix_of sub' s'
  | _ :: _, [] => false
  end.

Fixpoint contains (sub s : bytes) : bool :=
  is_prefix_of sub s || match s with [] => false | _ :: s' => contains sub s' end.

(** The body of the loop over the slot ranges; [int] converts to [slot]. *)
Definition add_slot_range (ranges : list (Z * Z)) (rg : bytes) : outcome (list (Z * Z)) :=
  if bool_decide (head rg = Some "["%char) then Ret ranges
  else match split_str rg (s2b "-") true with
  | [] => Ret ranges
  | [x] => s ← atoi x; Ret (set_insert pair_ltb (wrapu32 s, wrapu32 s) ranges)
  | x :: y :: _ =>
    a ← atoi x; b ← atoi y; Ret (set_insert pair_ltb (wrapu32 a, wrapu32 b) ranges)
  end.

Fixpoint add_slot_ranges (ranges : list (Z * Z)) (l : list bytes) : outcome (list (Z * Z)) :=
  match l with
  | [] => Ret ranges
  | rg :: l' => r ← add_slot_range ranges rg; add_slot_ranges r l'
  end.

Definition parse_node (address nid mid : bytes) (ranges : list bytes) : outcome RedisNode :=
  a ← from_host_port address;
  rs ← add_slot_ranges [] ranges;
  Ret (mkRedisNode a nid (if bool_decide (mid = s2b "-") then [] else mid) rs).

(** [catch (std::runtime_error&)]: every exception but [MessageInterrupted], which
    derives from it privately. *)
Definition is_runtime_error (e : exn) : bool :=
  match e with MessageInterrupted => false | _ => true end.

(** One line of the text: the node it describes, if any. *)
Definition parse_line (default_host line : bytes) : outcome (option RedisNode) :=
  match split_str line (s2b " ") true with
  | f0 :: f1 :: f2 :: f3 :: _ :: _ :: _ :: _ :: ranges =>
    if contains (s2b "fail") f2 then Ret None
    else match parse_node f1 f0 f3 ranges with
    | Ret node =>
      Ret (Some (if bool_decide (host (node_addr node) = []) && contains (s2b "myself") f2
                 then node <| node_addr ::= (fun a => a <| host := default_host |>) |>
                 else node))
    | Throw e => if is_runtime_error e then Ret None else Throw e
    | UB k => UB k
    | NoFuel => NoFuel
    end
  | _ => Ret None
  end.

Fixpoint parse_lines (default_host : bytes) (lines : list bytes) : outcome (list RedisNode) :=
  match lines with
  | [] => Ret []
  | l :: lines' =>
    n ← parse_line default_host l;
    ns ← parse_lines default_host lines';
    Ret (match n with Some n => n :: ns | None => ns end)
  end.

Definition parse_slot_map (nodes_info default_host : bytes) : outcome (list RedisNode) :=
  parse_lines default_host (split_str nodes_info (s2b (String LF "")) true).

Definition CLUSTER_NODES_CMD : bytes := crlf_lines ["*2"; "$7"; "cluster"; "$5"; "nodes"].

(** ** Specification: the text of CLUSTER NODES *)

(** A slot field: a slot, a range of slots, or a slot being migrated ("[...]"). *)
Inductive slot_field : Type :=
  | OneSlot (s : Z)
  | SlotRange (first last : Z)
  | Migration (text : bytes).

Record node_line : Type := mkNodeLine {
  nl_id : bytes;
  nl_addr : Address;
  nl_flags : bytes;
  nl_master : bytes;
  nl_ping : bytes;
  nl_pong : bytes;
  nl_epoch : bytes;
  nl_link : bytes;
  nl_slots : list slot_field
}.

Definition print_slot (f : slot_field) : bytes :=
  match f with
  | OneSlot s => str s
  | SlotRange a b => str a ++ "-"%char :: str b
  | Migration t => "["%char :: t
  end.

Definition print_fields (l : node_line) : list bytes :=
  [nl_id l; addr_str (nl_addr l); nl_flags l; nl_master l; nl_ping l; nl_pong l; nl_epoch l; nl_link l]
  ++ (print_slot <$> nl_slots l).

Definition print_line (l : node_line) : bytes := join [" "%char] (print_fields l).
Definition print_nodes (ls : list node_line) : bytes := join [LF] (print_line <$> ls).

(** The ranges a field names. *)
Definition field_range (f : slot_field) : option (Z * Z) :=
  match f with
  | OneSlot s => Some (s, s)
  | SlotRange a b => Some (a, b)
  | Migration _ => None
  end.

(** The node a line stands for: none when it has failed. *)
Definition line_node (default_host : bytes) (l : node_line) : option RedisNode :=
  if contains (s2b "fail") (nl_flags l) then None
  else Some (mkRedisNode
    (if bool_decide (host (nl_addr l) = []) && contains (s2b "myself") (nl_flags l)
     then mkAddress default_host (port (nl_addr l)) else nl_addr l)
    (nl_id l)
    (if bool_decide (nl_master l = s2b "-") then [] else nl_master l)
    (set_of pair_ltb (omap field_range (nl_slots l)))).

(** A field is not empty and holds neither separator. *)
Definition plain_field (f : bytes) : Prop := f <> [] /\ (" "%char ∉ f) /\ (LF ∉ f).

Definition slot_ok (f : slot_field) : Prop :=
  match f with
  | OneSlot s => 0 <= s <= INT_MAX
  | SlotRange a b => 0 <= a <= INT_MAX /\ 0 <= b <= INT_MAX
  | Migration t => (" "%char ∉ t) /\ (LF ∉ t)
  end.

#[export] Instance plain_field_dec f : Decision (plain_field f).
Proof. unfold plain_field. apply _. Defined.

#[export] Instance slot_ok_dec f : Decision (slot_ok f).
Proof. destruct f; cbn; apply _. Defined.

Record line_ok (l : node_line) : Prop := mkLineOk {
  ok_texts : Forall plain_field
    [nl_id l; nl_flags l; nl_master l; nl_ping l; nl_pong l; nl_epoch l; nl_link l];
  ok_host : (":"%char ∉ host (nl_addr l)) /\ (" "%char ∉ host (nl_addr l)) /\ (LF ∉ host (nl_addr l));
  ok_port : in_int (port (nl_addr l));
  ok_slots : Forall slot_ok (nl_slots l)
}.

(** ** The parser inverts the printer *)

Lemma str_ne i : str i <> [].
Proof. unfold str. destruct (i <? 0); [done|apply print_nat_ne]. Qed.

Lemma split_join_trim c vs :
  vs <> [] -> Forall (fun v => v <> [] /\ (c ∉ v)) vs -> split_str (join [c] vs) [c] true = vs.
Proof.
  intros Hne Hv. unfold split_str. rewrite split_loop_trim.
  change (split_loop [c] false [] (join [c] vs)) with (split_str (join [c] vs) [c] false).
  rewrite split_join; [|done|apply is_delim_self|].
  - clear Hne. induction Hv as [|v vs [Hv _] Hvs IH]; [done|].
    rewrite filter_cons. case_decide; [|done]. by rewrite IH.
  - eapply Forall_impl; [exact Hv|]. intros v [_ H]. by apply is_delim_singleton.
Qed.

Lemma join_not_elem c d vs : c <> d -> Forall (fun v => c ∉ v) vs -> c ∉ join [d] vs.
Proof.
  intros Hcd H. destruct vs as [|v vs]; [by apply not_elem_of_nil|].
  revert v H. induction vs as [|w vs IH]; intros v [Hv Hvs]%Forall_cons_1; [done|].
  rewrite join_cons, !not_elem_of_app, list_elem_of_singleton. auto.
Qed.

Lemma join_ne c v vs : v <> [] -> join [c] (v :: vs) <> [].
Proof.
  intros Hv. destruct vs as [|w vs]; [done|]. rewrite join_cons. by destruct v.
Qed.

Lemma plain_str i : plain_field (str i).
Proof. split; [apply str_ne|]. split; by apply str_chars. Qed.

Lemma slot_str_nat s : 0 <= s -> "-"%char ∉ str s.
Proof.
  intros H. unfold str. replace (s <? 0) with false by lia. intros Hin.
  pose proof (print_nat_digits s) as Hd. rewrite Forall_forall in Hd. by specialize (Hd _ Hin).
Qed.

Lemma slot_str_head s : 0 <= s -> head (str s) <> Some "["%char.
Proof.
  intros H. unfold str. replace (s <? 0) with false by lia.
  pose proof (print_nat_digits s) as Hd. destruct (print_nat s); [done|].
  apply Forall_inv in Hd. cbn. intros [= ->]. done.
Qed.

Lemma add_slot_range_print ranges f :
  slot_ok f ->
  add_slot_range ranges (print_slot f) =
  Ret (match field_range f with Some r => set_insert pair_ltb r ranges | None => ranges end).
Proof.
  unfold add_slot_range. change (s2b "-") with ["-"%char].
  assert (Hint : forall s, 0 <= s <= INT_MAX -> in_int s /\ wrapu32 s = s).
  { intros s Hs. unfold in_int, INT_MIN, INT_MAX in *. split; [lia|]. apply wrapu32_id. lia. }
  destruct f as [s|a b|t]; cbn [slot_ok print_slot field_range].
  - intros Hs. destruct (Hint s Hs) as [Hi Hw].
    rewrite bool_decide_false by (apply slot_str_head; lia).
    change (str s) with (join ["-"%char] [str s]). rewrite split_join_trim; [|done|].
    + cbn. rewrite atoi_str by done. cbn. by rewrite Hw.
    + repeat constructor; [apply str_ne|apply slot_str_nat; lia].
  - intros [Ha Hb]. destruct (Hint a Ha) as [Hia Hwa]. destruct (Hint b Hb) as [Hib Hwb].
    rewrite bool_decide_false.
    2: { pose proof (slot_str_head a ltac:(lia)). pose proof (str_ne a). by destruct (str a). }
    replace (str a ++ "-"%char :: str b) with (join ["-"%char] [str a; str b]) by done.
    rewrite split_join_trim; [|done|].
    + rewrite !atoi_str by done. cbn. by rewrite Hwa, Hwb.
    + repeat constructor; try apply str_ne; apply slot_str_nat; lia.
  - intros _. by rewrite bool_decide_true by done.
Qed.

Lemma add_slot_ranges_print ranges l :
  Forall slot_ok l ->
  add_slot_ranges ranges (print_slot <$> l) =
  Ret (foldl (fun s r => set_insert pair_ltb r s) ranges (omap field_range l)).
Proof.
  intros H. revert ranges. induction H as [|f l Hf Hl IH]; intros ranges; [done|].
  cbn [fmap list_fmap add_slot_ranges]. rewrite add_slot_range_print by done. cbn [mbind outcome_bind].
  rewrite IH. cbn [omap list_omap]. by destruct (field_range f).
Qed.

Lemma print_fields_plain l : line_ok l -> Forall plain_field (print_fields l).
Proof.
  intros [Ht (Hc & Hs & Hl) Hp Hsl].
  rewrite !Forall_cons in Ht. destruct Ht as (? & ? & ? & ? & ? & ? & ? & _).
  unfold print_fields. cbn [app]. rewrite !Forall_cons. repeat (split; [done|]). split.
  { split; [unfold addr_str; by destruct (host (nl_addr l))|].
    unfold addr_str. rewrite !not_elem_of_app, !not_elem_of_cons.
    repeat split; try done; by apply str_chars. }
  repeat (split; [done|]). apply Forall_fmap. eapply Forall_impl; [exact Hsl|].
  intros [s|a b|t]; cbn.
  - intros _. apply plain_str.
  - intros _. split; [pose proof (str_ne a); by destruct (str a)|].
    split; rewrite not_elem_of_app, not_elem_of_cons; repeat split; try done; by apply str_chars.
  - intros [? ?]. split; [done|]. by rewrite !not_elem_of_cons.
Qed.

Lemma parse_line_print dh l : line_ok l -> parse_line dh (print_line l) = Ret (line_node dh l).
Proof.
  intros Hok. pose proof (print_fields_plain l Hok) as Hp. destruct Hok as [_ (Hc & _) Hport Hsl].
  unfold parse_line, print_line. change (s2b " ") with [" "%char].
  rewrite split_join_trim; [|done|eapply Forall_impl; [exact Hp|]; intros f (? & ? & ?); done].
  unfold print_fields. cbn [app]. unfold line_node. destruct (contains (s2b "fail") (nl_flags l)); [done|].
  unfold parse_node. rewrite from_host_port_str by done. cbn [mbind outcome_bind].
  rewrite add_slot_ranges_print by done. cbn.
  by destruct (_ && _).
Qed.

Lemma parse_lines_print dh ls :
  Forall line_ok ls -> parse_lines dh (print_line <$> ls) = Ret (omap (line_node dh) ls).
Proof.
  induction 1 as [|l ls Hl Hls IH]; [done|]. cbn [fmap list_fmap parse_lines].
  rewrite parse_line_print by done. cbn [mbind outcome_bind]. rewrite IH.
  cbn. by destruct (line_node dh l).
Qed.

Lemma parse_slot_map_lines dh ls :
  Forall line_ok ls -> parse_slot_map (print_nodes ls) dh = Ret (omap (line_node dh) ls).
Proof.
  intros H. unfold parse_slot_map, print_nodes. change (s2b (String LF "")) with [LF].
  destruct ls as [|l ls]; [done|]. rewrite split_join_trim; [by apply parse_lines_print|done|].
  apply Forall_fmap. eapply Forall_impl; [exact H|]. intros k Hk.
  pose proof (print_fields_plain k Hk) as Hp. unfold print_line. split.
  - unfold print_fields in *. cbn [app] in *. apply join_ne. by apply Forall_inv in Hp as [? _].
  - apply join_not_elem; [done|]. eapply Forall_impl; [exact Hp|]. by intros f (? & ? & ?).
Qed.

(** C15. CLUSTER NODES round trip: the text of any list of well-formed node lines is
    parsed to exactly the nodes it describes, in order: failed nodes are left out, the
    node that answers takes the address it was asked at, migrating slots are ignored
    and every slot and slot range is kept. *)
Theorem parse_slot_map_print (default_host : bytes) (ls : list node_line) :
  Forall line_ok ls ->
  parse_slot_map (print_nodes ls) default_host = Ret (omap (line_node default_host) ls).
Proof. apply parse_slot_map_lines. Qed.

Definition sample_lines : list node_line :=
  [mkNodeLine (s2b "21952b37") (mkAddress [] 7000) (s2b "myself,master") (s2b "-") (s2b "0") (s2b "0")
     (s2b "2") (s2b "connected") [SlotRange 0 8191; OneSlot 9000; Migration (s2b "93-<-ff]")];
   mkNodeLine (s2b "abc") (mkAddress (s2b "10.0.0.2") 7001) (s2b "slave,fail") (s2b "21952b37") (s2b "0")
     (s2b "0") (s2b "2") (s2b "connected") []].

Lemma parse_slot_map_print_witness :
  parse_slot_map (print_nodes sample_lines) (s2b "10.0.0.1") =
  Ret [mkRedisNode (mkAddress (s2b "10.0.0.1") 7000) (s2b "21952b37") [] [(0, 8191); (9000, 9000)]].
Proof.
  rewrite (parse_slot_map_print (s2b "10.0.0.1") sample_lines); [reflexivity|].
  repeat constructor; try unfold in_int; apply (bool_decide_unpack _); vm_compute; exact I.
Defined.
