(* ===== verification/CommandParser.v ===== *)
(** * Client commands: the parsers of [core/command.cpp]

    The command tables, the [SpecialCommandParser]s and [ClientCommandSplitter].  What
    a parser builds at the end of a command is a [spawned] value: the constructor of
    the command group with its arguments, or the action on the proxy that comes with
    it.  [Command.v] turns it into objects; no parser reads anything but the buffer,
    so the order of the effects is that of the list. *)
From S2P Require Import Prelude Strings OrderedSet Address SlotCalc Message Resp Stream Buffer.
#[local] Open Scope Z_scope.

Definition RSP_OK_STR : bytes := crlf_line "+OK".

(** The classes derived from [MultipleCommandsGroup], and the class itself. *)
Inductive multi_kind : Type := MGetGroup | DelGroup | MSetGroup.

#[export] Instance multi_kind_eq_dec : EqDecision multi_kind.
Proof. solve_decision. Defined.

Inductive spawned : Type :=
  | SpDirect (rsp : bytes)                           (* DirectCommandGroup *)
  | SpStats                                          (* ... of stats_string() *)
  | SpUpdateSlotMap                                  (* notify_each_thread_update_slot_map, +OK *)
  | SpSetRemotes (remotes : list Address)            (* set_remotes, notify, +OK *)
  | SpSingle (b : bytes) (ks : Z)                    (* SingleCommandGroup *)
  | SpPublish (b : bytes)                            (* ... to a random slot *)
  | SpMulti (k : multi_kind) (cmds : list (bytes * Z))
  | SpRename (old_key new_key : bytes) (old_slot new_slot : Z)
  | SpSubscribe (b : bytes)
  | SpBlockedPop (b : bytes) (ks : Z).

(** ** [SpecialCommandParser] and its subclasses *)

Inductive SpecialCommandParser : Type :=
  | PingCommandParser (msg : bytes)
  | ProxyStatsCommandParser
  | UpdateSlotMapCommandParser
  | SetRemotesCommandParser (remotes : list Address) (last_host : bytes) (current_is_host bad : bool)
  | EachKeyCommandParser (k : multi_kind) (keys_split_points keys_slots : list Z)
  | MSetCommandParser (kv_split_points keys_slots : list Z) (current_is_key : bool)
  | RenameCommandParser (command_begin : Z) (split_points : list Z) (slot0 slot1 : KeySlotCalc)
      (slot_index : Z) (bad : bool)
  | SubscribeCommandParser (begin : Z) (no_arg : bool)
  | BlockedListPopParser (cmd_begin : Z) (slot_calc : KeySlotCalc) (args_count : Z)
  | EvalCommandParser (cmd_begin : Z) (slot_calc : KeySlotCalc) (arg_count key_count : Z)
  | PublishCommandParser (begin : Z) (arg_count : Z)
  | KeysInSlotParser (arg_start arg_count slot : Z).

(** ** [on_str(begin, end)] of each class *)

Definition ping_on_str (buf : bytes) (begin end_ : Z) : outcome SpecialCommandParser :=
  msg ← slice buf begin end_; Ret (PingCommandParser msg).

Definition set_remotes_on_str (buf : bytes) (remotes : list Address) (last_host : bytes)
    (current_is_host bad : bool) (begin end_ : Z) : outcome SpecialCommandParser :=
  if bad then Ret (SetRemotesCommandParser remotes last_host current_is_host bad) else
  s ← slice buf begin end_;
  if current_is_host : bool then Ret (SetRemotesCommandParser remotes s false bad)
  else n ← atoi s;
       Ret (SetRemotesCommandParser (set_insert addr_ltb (mkAddress last_host n) remotes) [] true bad).

Definition each_key_on_str (buf : bytes) (k : multi_kind) (points slots : list Z) (begin end_ : Z) :
    outcome SpecialCommandParser :=
  key ← slice buf begin end_;
  Ret (EachKeyCommandParser k (points ++ [end_ + LENGTH_OF_CR_LF]) (slots ++ [get_slot (feed reset key)])).

Definition mset_on_str (buf : bytes) (points slots : list Z) (current_is_key : bool) (begin end_ : Z) :
    outcome SpecialCommandParser :=
  slots' ← (if current_is_key : bool then key ← slice buf begin end_; Ret (slots ++ [get_slot (feed reset key)])
            else Ret slots);
  Ret (MSetCommandParser (points ++ [end_ + LENGTH_OF_CR_LF]) slots' (negb current_is_key)).

Definition rename_on_str (buf : bytes) (cmd_begin : Z) (points : list Z) (slot0 slot1 : KeySlotCalc)
    (slot_index : Z) (bad : bool) (begin end_ : Z) : outcome SpecialCommandParser :=
  if slot_index =? 2 then Ret (RenameCommandParser cmd_begin points slot0 slot1 slot_index true) else
  key ← slice buf begin end_;
  let '(slot0, slot1) :=
    if slot_index =? 0 then (feed slot0 key, slot1) else (slot0, feed slot1 key) in
  Ret (RenameCommandParser cmd_begin (points ++ [end_ + LENGTH_OF_CR_LF]) slot0 slot1 (slot_index + 1) bad).

Definition blocked_on_str (buf : bytes) (cmd_begin : Z) (slot_calc : KeySlotCalc) (n begin end_ : Z) :
    outcome SpecialCommandParser :=
  key ← slice buf begin end_; Ret (BlockedListPopParser cmd_begin (feed slot_calc key) (n + 1)).

Definition eval_on_str (buf : bytes) (cmd_begin : Z) (slot_calc : KeySlotCalc) (n key_count begin end_ : Z) :
    outcome SpecialCommandParser :=
  if n =? 1 then
    s ← slice buf begin end_; c ← atoi s; Ret (EvalCommandParser cmd_begin slot_calc (n + 1) c)
  else if n =? 2 then
    key ← slice buf begin end_; Ret (EvalCommandParser cmd_begin (feed slot_calc key) (n + 1) key_count)
  else Ret (EvalCommandParser cmd_begin slot_calc (n + 1) key_count).

Definition keys_in_slot_on_str (buf : bytes) (arg_start n slot begin end_ : Z) : outcome SpecialCommandParser :=
  slot' ← (if n =? 0 then s ← slice buf begin end_; v ← atoi s; Ret (wrapu32 v) else Ret slot);
  Ret (KeysInSlotParser arg_start (n + 1) slot').

(** The virtual [on_str]. *)
Definition parser_on_str (buf : bytes) (p : SpecialCommandParser) (begin end_ : Z) :
    outcome SpecialCommandParser :=
  match p with
  | PingCommandParser _ => ping_on_str buf begin end_
  | ProxyStatsCommandParser => Ret p
  | UpdateSlotMapCommandParser => Ret p
  | SetRemotesCommandParser remotes h current_is_host bad =>
    set_remotes_on_str buf remotes h current_is_host bad begin end_
  | EachKeyCommandParser k points slots => each_key_on_str buf k points slots begin end_
  | MSetCommandParser points slots current_is_key => mset_on_str buf points slots current_is_key begin end_
  | RenameCommandParser cmd_begin points slot0 slot1 slot_index bad =>
    rename_on_str buf cmd_begin points slot0 slot1 slot_index bad begin end_
  | SubscribeCommandParser begin0 _ => Ret (SubscribeCommandParser begin0 false)
  | BlockedListPopParser cmd_begin slot_calc n => blocked_on_str buf cmd_begin slot_calc n begin end_
  | EvalCommandParser cmd_begin slot_calc n key_count =>
    eval_on_str buf cmd_begin slot_calc n key_count begin end_
  | PublishCommandParser begin0 n => Ret (PublishCommandParser begin0 (n + 1))
  | KeysInSlotParser arg_start n slot => keys_in_slot_on_str buf arg_start n slot begin end_
  end.

(** "-ERR wrong number of arguments for '...' command" *)
Definition wrong_args (cmd : string) : bytes :=
  s2b "-ERR wrong number of arguments for '" ++ s2b cmd ++ s2b "' command" ++ crlf.

(** [command_header()] and the name in the error message, of [EachKeyCommandParser]'s
    subclasses. *)
Definition each_key_header (k : multi_kind) : bytes :=
  crlf_lines ["*2"; "$3"; match k with DelGroup => "DEL" | _ => "GET" end].
Definition each_key_name (k : multi_kind) : string :=
  match k with DelGroup => "del" | _ => "mget" end.

(** The loop of [EachKeyCommandParser::spawn_commands]: [points[i]], [points[i + 1]]. *)
Fixpoint each_key_commands (buf header : bytes) (points slots : list Z) : outcome (list (bytes * Z)) :=
  match slots with
  | [] => Ret []
  | ks :: slots' =>
    match points with
    | p :: q :: _ =>
      arg ← slice buf p q;
      rest ← each_key_commands buf header (tail points) slots';
      Ret ((append_from header arg, ks) :: rest)
    | _ => Undefined
    end
  end.

(** The loop of [MSetCommandParser::spawn_commands]: [points[2 i]], [points[2 i + 2]]. *)
Fixpoint mset_commands (buf : bytes) (points slots : list Z) : outcome (list (bytes * Z)) :=
  match slots with
  | [] => Ret []
  | ks :: slots' =>
    match points with
    | p :: _ :: q :: _ =>
      arg ← slice buf p q;
      rest ← mset_commands buf (drop 2 points) slots';
      Ret ((append_from (crlf_lines ["*3"; "$3"; "SET"]) arg, ks) :: rest)
    | _ => Undefined
    end
  end.

(** ** [spawn_commands(c, end)] of each class *)

Definition ping_spawn (msg : bytes) : spawned :=
  SpDirect (if bool_decide (msg = []) then crlf_line "+PONG"
            else s2b "$" ++ str (zlen msg) ++ crlf ++ msg ++ crlf).

Definition set_remotes_spawn (remotes : list Address) (current_is_host bad : bool) : spawned :=
  if bad then SpDirect (crlf_line "-ERR invalid port number")
  else if bool_decide (remotes = []) || negb current_is_host
  then SpDirect (wrong_args "SETREMOTES")
  else SpSetRemotes remotes.

Definition each_key_spawn (buf : bytes) (k : multi_kind) (points slots : list Z) : outcome spawned :=
  if bool_decide (slots = []) then Ret (SpDirect (wrong_args (each_key_name k)))
  else cmds ← each_key_commands buf (each_key_header k) points slots; Ret (SpMulti k cmds).

Definition mset_spawn (buf : bytes) (points slots : list Z) (current_is_key : bool) : outcome spawned :=
  if bool_decide (slots = []) || negb current_is_key then Ret (SpDirect (wrong_args "mset"))
  else cmds ← mset_commands buf points slots; Ret (SpMulti MSetGroup cmds).

Definition rename_spawn (buf : bytes) (cmd_begin : Z) (points : list Z) (slot0 slot1 : KeySlotCalc)
    (slot_index : Z) (bad : bool) : outcome spawned :=
  if negb (slot_index =? 2) || bad then Ret (SpDirect (wrong_args "rename"))
  else match points with
  | p0 :: p1 :: p2 :: _ =>
    let src_slot := get_slot slot0 in
    let dst_slot := get_slot slot1 in
    if src_slot =? dst_slot
    then b ← slice buf cmd_begin p2; Ret (SpSingle b src_slot)
    else old_key ← slice buf p0 p1; new_key ← slice buf p1 p2;
         Ret (SpRename old_key new_key src_slot dst_slot)
  | _ => Undefined
  end.

Definition subscribe_spawn (buf : bytes) (begin : Z) (no_arg : bool) (end_ : Z) : outcome spawned :=
  if no_arg then Ret (SpDirect (wrong_args "subscribe"))
  else b ← slice buf begin end_; Ret (SpSubscribe b).

Definition blocked_spawn (buf : bytes) (cmd_begin : Z) (slot_calc : KeySlotCalc) (n end_ : Z) : outcome spawned :=
  if negb (n =? 2)
  then Ret (SpDirect (crlf_line "-ERR BLPOP/BRPOP takes exactly 2 arguments KEY TIMEOUT in proxy"))
  else b ← slice buf cmd_begin end_; Ret (SpBlockedPop b (get_slot slot_calc)).

Definition eval_spawn (buf : bytes) (cmd_begin : Z) (slot_calc : KeySlotCalc) (n key_count end_ : Z) :
    outcome spawned :=
  if (n <? 3) || negb (key_count =? 1) then Ret (SpDirect (wrong_args "eval"))
  else b ← slice buf cmd_begin end_; Ret (SpSingle b (get_slot slot_calc)).

Definition publish_spawn (buf : bytes) (begin n end_ : Z) : outcome spawned :=
  if negb (n =? 2) then Ret (SpDirect (wrong_args "publish"))
  else b ← slice buf begin end_; Ret (SpPublish b).

Definition keys_in_slot_spawn (buf : bytes) (arg_start n slot end_ : Z) : outcome spawned :=
  if negb (n =? 2) || (CLUSTER_SLOT_COUNT <=? slot)
  then Ret (SpDirect (crlf_line "-ERR wrong arguments for 'keysinslot' command"))
  else arg ← slice buf arg_start end_;
       Ret (SpSingle (append_from (crlf_lines ["*4"; "$7"; "CLUSTER"; "$13"; "GETKEYSINSLOT"]) arg) slot).

(** The virtual [spawn_commands]. *)
Definition spawn_commands (buf : bytes) (p : SpecialCommandParser) (end_ : Z) : outcome spawned :=
  match p with
  | PingCommandParser msg => Ret (ping_spawn msg)
  | ProxyStatsCommandParser => Ret SpStats
  | UpdateSlotMapCommandParser => Ret SpUpdateSlotMap
  | SetRemotesCommandParser remotes _ current_is_host bad => Ret (set_remotes_spawn remotes current_is_host bad)
  | EachKeyCommandParser k points slots => each_key_spawn buf k points slots
  | MSetCommandParser points slots current_is_key => mset_spawn buf points slots current_is_key
  | RenameCommandParser cmd_begin points slot0 slot1 slot_index bad =>
    rename_spawn buf cmd_begin points slot0 slot1 slot_index bad
  | SubscribeCommandParser begin no_arg => subscribe_spawn buf begin no_arg end_
  | BlockedListPopParser cmd_begin slot_calc n => blocked_spawn buf cmd_begin slot_calc n end_
  | EvalCommandParser cmd_begin slot_calc n key_count => eval_spawn buf cmd_begin slot_calc n key_count end_
  | PublishCommandParser begin n => publish_spawn buf begin n end_
  | KeysInSlotParser arg_start n slot => keys_in_slot_spawn buf arg_start n slot end_
  end.

(** ** The command tables *)

Definition STD_COMMANDS : list bytes := s2b <$>
  [ "DUMP"; "EXISTS"; "TTL"; "PTTL"; "TYPE";
    "GET"; "BITCOUNT"; "GETBIT"; "GETRANGE"; "STRLEN";
    "HGET"; "HGETALL"; "HKEYS"; "HVALS"; "HLEN"; "HEXISTS"; "HMGET"; "HSCAN";
    "LINDEX"; "LLEN"; "LRANGE";
    "SCARD"; "SISMEMBER"; "SRANDMEMBER"; "SMEMBERS"; "SSCAN";
    "ZCARD"; "ZSCAN"; "ZCOUNT"; "ZLEXCOUNT"; "ZRANGE";
    "ZRANGEBYLEX"; "ZREVRANGEBYLEX"; "ZRANGEBYSCORE"; "ZRANK";
    "ZREVRANGE"; "ZREVRANGEBYSCORE"; "ZREVRANK"; "ZSCORE" ].

Definition WRITE_COMMANDS : list bytes := s2b <$>
  [ "EXPIRE"; "EXPIREAT"; "TTL"; "PEXPIRE"; "PEXPIREAT"; "PERSIST"; "RESTORE";
    "SET"; "SETNX"; "GETSET"; "SETEX"; "PSETEX"; "SETBIT"; "APPEND";
    "SETRANGE"; "INCR"; "DECR"; "INCRBY"; "DECRBY"; "INCRBYFLOAT";
    "HSET"; "HSETNX"; "HDEL"; "HINCRBY"; "HINCRBYFLOAT"; "HMSET";
    "LINSERT"; "LPOP"; "RPOP"; "LPUSH"; "LPUSHX";
    "RPUSH"; "RPUSHX"; "LREM"; "LSET"; "LTRIM"; "SORT";
    "SADD"; "SPOP"; "SREM";
    "ZADD"; "ZREM"; "ZINCRBY"; "ZREMRANGEBYLEX"; "ZREMRANGEBYRANK"; "ZREMRANGEBYSCORE" ].

(** [CmdCreateFn]: from the start of the command and the start of its arguments. *)
Abbreviation CmdCreateFn := (Z -> Z -> SpecialCommandParser).

Definition SPECIAL_RSP : list (bytes * CmdCreateFn) :=
  [ (s2b "PING", fun _ _ => PingCommandParser []);
    (s2b "INFO", fun _ _ => ProxyStatsCommandParser);
    (s2b "PROXY", fun _ _ => ProxyStatsCommandParser);
    (s2b "UPDATESLOTMAP", fun _ _ => UpdateSlotMapCommandParser);
    (s2b "SETREMOTES", fun _ _ => SetRemotesCommandParser [] [] true false);
    (s2b "MGET", fun _ arg_start => EachKeyCommandParser MGetGroup [arg_start] []);
    (s2b "SUBSCRIBE", fun command_begin _ => SubscribeCommandParser command_begin true);
    (s2b "PSUBSCRIBE", fun command_begin _ => SubscribeCommandParser command_begin true) ].

Definition SPECIAL_WRITE_COMMAND : list (bytes * CmdCreateFn) :=
  [ (s2b "DEL", fun _ arg_start => EachKeyCommandParser DelGroup [arg_start] []);
    (s2b "MSET", fun _ arg_start => MSetCommandParser [arg_start] [] true);
    (s2b "RENAME", fun command_begin arg_start =>
       RenameCommandParser command_begin [arg_start] reset reset 0 false);
    (s2b "PUBLISH", fun command_begin _ => PublishCommandParser command_begin 0);
    (s2b "KEYSINSLOT", fun _ arg_start => KeysInSlotParser arg_start 0 0);
    (s2b "BLPOP", fun command_begin _ => BlockedListPopParser command_begin reset 0);
    (s2b "BRPOP", fun command_begin _ => BlockedListPopParser command_begin reset 0);
    (s2b "EVAL", fun command_begin _ => EvalCommandParser command_begin reset 0 0) ].

(** The two global tables. *)
Record CommandTables : Type := mkTables {
  std_commands : gset bytes;
  special_rsp : gmap bytes CmdCreateFn
}.

Definition initial_tables : CommandTables :=
  mkTables (list_to_set STD_COMMANDS) (list_to_map SPECIAL_RSP).

(** [Command::allow_write_commands]: [insert] keeps an entry that is there already. *)
Definition allow_write_commands (t : CommandTables) : CommandTables :=
  mkTables (std_commands t ∪ list_to_set WRITE_COMMANDS)
           (special_rsp t ∪ list_to_map SPECIAL_WRITE_COMMAND).

(** ** [ClientCommandSplitter] *)

(** The function [_on_str] points to. *)
Inductive OnStrFn : Type := on_string_nop | on_command_head | on_command_key | special_parser_on_str.

(** The members the splitter adds to its base; [pushed] are the groups given to
    [client->push_command], in order. *)
Record ClientCommandSplitter : Type := mkCSplitter {
  _on_str : OnStrFn;
  last_command_begin : Z;
  slot_calc : KeySlotCalc;
  last_command_is_bad : bool;
  special_parser : option SpecialCommandParser;
  pushed : list spawned;
  tables : CommandTables
}.
#[export] Instance eta_CSplitter : Settable ClientCommandSplitter := fun x =>
  mkCSplitter (_on_str x) (last_command_begin x) (slot_calc x) (last_command_is_bad x)
    (special_parser x) (pushed x) (tables x).

Definition new_client_splitter (t : CommandTables) : ClientCommandSplitter :=
  mkCSplitter on_command_head 0 reset false None [] t.

Definition handle_standard_key_command (command : bytes) (c : ClientCommandSplitter) :
    bool * ClientCommandSplitter :=
  if bool_decide (command ∈ std_commands (tables c))
  then (true, c <| last_command_is_bad := true |> <| _on_str := on_command_key |>)
  else (false, c).

Definition select_command_parser (buf : bytes) (begin end_ : Z) (c : ClientCommandSplitter) :
    outcome ClientCommandSplitter :=
  text ← slice buf begin end_;
  let cmd := toupper <$> text in
  let '(standard, c) := handle_standard_key_command cmd c in
  if standard : bool then Ret c else
  match special_rsp (tables c) !! cmd with
  | Some create =>
    Ret (c <| special_parser := Some (create (last_command_begin c) (end_ + LENGTH_OF_CR_LF)) |>
           <| _on_str := special_parser_on_str |>)
  | None => Ret (c <| last_command_is_bad := true |> <| _on_str := on_string_nop |>)
  end.

Definition client_on_string (buf : bytes) (begin end_ : Z) (c : ClientCommandSplitter) :
    outcome ClientCommandSplitter :=
  match _on_str c with
  | on_string_nop => Ret c
  | on_command_head => select_command_parser buf begin end_ c
  | on_command_key =>
    key ← slice buf begin end_;
    Ret (c <| last_command_is_bad := false |> <| _on_str := on_string_nop |>
           <| slot_calc ::= (fun sc => feed sc key) |>)
  | special_parser_on_str =>
    match special_parser c with
    | Some p => p' ← parser_on_str buf p begin end_; Ret (c <| special_parser := Some p' |>)
    | None => Undefined
    end
  end.

Definition UNKNOWN_COMMAND : bytes :=
  crlf_line "-ERR Unknown command or command key not specified".

Definition client_on_split_point (buf : bytes) (i : Z) (c : ClientCommandSplitter) :
    outcome ClientCommandSplitter :=
  let c := c <| _on_str := on_command_head |> in
  c ← (if last_command_is_bad c then Ret (c <| pushed ::= (fun l => l ++ [SpDirect UNKNOWN_COMMAND]) |>)
       else match special_parser c with
       | None =>
         b ← slice buf (last_command_begin c) i;
         Ret (c <| pushed ::= (fun l => l ++ [SpSingle b (get_slot (slot_calc c))]) |>)
       | Some p =>
         g ← spawn_commands buf p i;
         Ret (c <| pushed ::= (fun l => l ++ [g]) |> <| special_parser := None |>)
       end);
  Ret (c <| last_command_begin := i |> <| slot_calc := reset |> <| last_command_is_bad := false |>).

(** [on_array]: [nested] is [_nested_array_element_count]. *)
Definition client_on_array (size : Z) (nested : list Z) : outcome unit :=
  if 1024 * 1024 <? size then Throw (BadRedisMessage (s2b "Request is too large"))
  else if negb (bool_decide (nested = []))
  then Throw (BadRedisMessage (s2b "Invalid nested array as client command"))
  else Ret tt.

#[export] Instance client_hooks : SplitterHooks ClientCommandSplitter := {
  on_string buf b e := on_final (client_on_string buf b e);
  on_error _ _ _ := mret tt;
  on_split_point buf i := on_final (client_on_split_point buf i);
  on_array size := nested ← gets _nested_array_element_count; lift (client_on_array size nested)
}.

(** [split_client_command]: how it ended, the groups pushed, and what stays in the buffer,
    which an exception leaves as it was. *)
Definition split_client_command_fuel (fuel : nat) (t : CommandTables) (buffer : bytes) :
    outcome unit * (list spawned * bytes) :=
  let '(o, s) := split_run fuel buffer (new_splitter (new_client_splitter t)) in
  (o, (pushed (final s),
       match o with
       | Ret _ => if finished s then [] else truncate_from_begin buffer (interrupt_point s)
       | _ => buffer
       end)).

Definition split_client_command (t : CommandTables) (buffer : bytes) :
    outcome unit * (list spawned * bytes) :=
  split_client_command_fuel (msg_fuel buffer) t buffer.
