(* ===== verification/CommandSpec.v ===== *)
(** * What the client commands mean: the specification of [CommandParser.v]

    [command_spec]: the group a request stands for, in terms of its words, without
    offsets or automata; and the theorem that [split_client_command] of a stream of
    requests pushes exactly those groups. *)
From S2P Require Import Prelude Strings OrderedSet Address SlotCalc Message Resp Stream Buffer CommandParser.
#[local] Open Scope Z_scope.

Definition request (words : list bytes) : resp := RArray (RBulk <$> words).
Definition bulk (w : bytes) : bytes := encode (RBulk w).
Arguments bulk : simpl never.

(** ** Specification *)

(** Words taken two by two, and whether none is left over. *)
Fixpoint pair_up (l : list bytes) : list (bytes * bytes) * bool :=
  match l with
  | [] => ([], true)
  | [_] => ([], false)
  | k :: v :: l' => let '(ps, complete) := pair_up l' in ((k, v) :: ps, complete)
  end.

(** The addresses "host port host port ...", a later port being read only if the
    earlier ones are integers. *)
Fixpoint read_addresses (acc : list Address) (ps : list (bytes * bytes)) : outcome (list Address) :=
  match ps with
  | [] => Ret acc
  | (h, p) :: ps' => n ← atoi p; read_addresses (set_insert addr_ltb (mkAddress h n) acc) ps'
  end.

(** The group a special command stands for; [whole] is the request as it was sent. *)
Definition special_spec (p : SpecialCommandParser) (whole : bytes) (args : list bytes) : outcome spawned :=
  match p with
  | PingCommandParser _ =>
    Ret (SpDirect (match last args with Some (c :: m) => bulk (c :: m) | _ => crlf_line "+PONG" end))
  | ProxyStatsCommandParser => Ret SpStats
  | UpdateSlotMapCommandParser => Ret SpUpdateSlotMap
  | SetRemotesCommandParser _ _ _ _ =>
    addrs ← read_addresses [] (pair_up args).1;
    Ret (match addrs, (pair_up args).2 with
         | _ :: _, true => SpSetRemotes addrs
         | _, _ => SpDirect (wrong_args "SETREMOTES")
         end)
  | EachKeyCommandParser k _ _ =>
    Ret (match args with
         | [] => SpDirect (wrong_args (each_key_name k))
         | _ => SpMulti k ((fun key => (each_key_header k ++ bulk key, Spec.slot_of key)) <$> args)
         end)
  | MSetCommandParser _ _ _ =>
    Ret (match pair_up args with
         | ((_ :: _) as ps, true) =>
           SpMulti MSetGroup ((fun kv => (crlf_lines ["*3"; "$3"; "SET"] ++ bulk kv.1 ++ bulk kv.2,
                                          Spec.slot_of kv.1)) <$> ps)
         | _ => SpDirect (wrong_args "mset")
         end)
  | RenameCommandParser _ _ _ _ _ _ =>
    Ret (match args with
         | [a; b] => if Spec.slot_of a =? Spec.slot_of b then SpSingle whole (Spec.slot_of a)
                     else SpRename (bulk a) (bulk b) (Spec.slot_of a) (Spec.slot_of b)
         | _ => SpDirect (wrong_args "rename")
         end)
  | SubscribeCommandParser _ _ =>
    Ret (match args with [] => SpDirect (wrong_args "subscribe") | _ => SpSubscribe whole end)
  | BlockedListPopParser _ _ _ =>
    Ret (match args with
         | [key; timeout] => SpBlockedPop whole (Spec.slot_of (key ++ timeout))
         | _ => SpDirect (crlf_line "-ERR BLPOP/BRPOP takes exactly 2 arguments KEY TIMEOUT in proxy")
         end)
  | EvalCommandParser _ _ _ _ =>
    match args with
    | _ :: n :: args' =>
      numkeys ← atoi n;
      Ret (match args' with
           | key :: _ => if numkeys =? 1 then SpSingle whole (Spec.slot_of key) else SpDirect (wrong_args "eval")
           | [] => SpDirect (wrong_args "eval")
           end)
    | _ => Ret (SpDirect (wrong_args "eval"))
    end
  | PublishCommandParser _ _ =>
    Ret (match args with [_; _] => SpPublish whole | _ => SpDirect (wrong_args "publish") end)
  | KeysInSlotParser _ _ _ =>
    let bad := SpDirect (crlf_line "-ERR wrong arguments for 'keysinslot' command") in
    match args with
    | s :: args' =>
      n ← atoi s;
      Ret (match args' with
           | [count] =>
             if (0 <=? n) && (n <? CLUSTER_SLOT_COUNT)
             then SpSingle (crlf_lines ["*4"; "$7"; "CLUSTER"; "$13"; "GETKEYSINSLOT"] ++ bulk s ++ bulk count) n
             else bad
           | _ => bad
           end)
    | [] => Ret bad
    end
  end.

(** The group a request stands for. *)
Definition command_spec (t : CommandTables) (words : list bytes) : outcome spawned :=
  match words with
  | [] => Ret (SpSingle (encode (request [])) 0)
  | name :: args =>
    let cmd := toupper <$> name in
    if bool_decide (cmd ∈ std_commands t) then
      Ret (match args with
           | [] => SpDirect UNKNOWN_COMMAND
           | key :: _ => SpSingle (encode (request words)) (Spec.slot_of key)
           end)
    else match special_rsp t !! cmd with
    | Some create => special_spec (create 0 0) (encode (request words)) args
    | None => Ret (SpDirect UNKNOWN_COMMAND)
    end
  end.

(** ** Words in a buffer *)

Definition words_at (buf : bytes) (pos : Z) (ws : list bytes) : Prop :=
  exists pre post, buf = pre ++ flat_map bulk ws ++ post /\ pos = zlen pre.

Lemma bulk_len w : zlen (bulk w) = zlen (header "$"%char (zlen w)) + zlen w + 2.
Proof. unfold bulk, encode. zlen_lia. Qed.

Lemma words_at_cons buf pos w ws :
  words_at buf pos (w :: ws) -> words_at buf (pos + zlen (bulk w)) ws.
Proof.
  intros (pre & post & Hb & ->). exists (pre ++ bulk w), post. split; [|zlen_lia].
  cbn in Hb. subst. app_eq.
Qed.

Lemma slice_word buf pos w ws :
  words_at buf pos (w :: ws) ->
  slice buf (pos + zlen (bulk w) - 2 - zlen w) (pos + zlen (bulk w) - 2) = Ret w.
Proof.
  intros (pre & post & Hb & ->). cbn in Hb. rewrite bulk_len.
  apply (slice_spec _ (pre ++ header "$"%char (zlen w)) w (crlf ++ flat_map bulk ws ++ post)).
  - subst. unfold bulk, encode. app_eq.
  - zlen_lia.
  - zlen_lia.
Qed.

Lemma slice_words buf pos ws1 ws2 :
  words_at buf pos (ws1 ++ ws2) ->
  slice buf pos (pos + zlen (flat_map bulk ws1)) = Ret (flat_map bulk ws1).
Proof.
  intros (pre & post & Hb & ->). rewrite flat_map_app in Hb.
  by apply (slice_spec _ pre (flat_map bulk ws1) (flat_map bulk ws2 ++ post)); [subst; app_eq|..].
Qed.

Lemma slice_first buf pos w ws :
  words_at buf pos (w :: ws) -> slice buf pos (pos + zlen (bulk w)) = Ret (bulk w).
Proof.
  intros H. apply (slice_words buf pos [w] ws) in H. cbn in H. by rewrite app_nil_r in H.
Qed.

(** The ends of the words. *)
Fixpoint word_ends (pos : Z) (ws : list bytes) : list Z :=
  match ws with
  | [] => []
  | w :: ws' => pos + zlen (bulk w) :: word_ends (pos + zlen (bulk w)) ws'
  end.

(** Unfold the members of the parsers' classes. *)
Ltac open_parsers :=
  cbv delta [ping_on_str set_remotes_on_str each_key_on_str mset_on_str rename_on_str blocked_on_str eval_on_str keys_in_slot_on_str
    ping_spawn set_remotes_spawn each_key_spawn mset_spawn rename_spawn subscribe_spawn blocked_spawn eval_spawn publish_spawn keys_in_slot_spawn] beta;
  cbn [negb Z.eqb Pos.eqb orb app].

(** ** The strings of a request *)

(** [on_str] of a special parser, and [on_string] of the splitter, for each word. *)
Fixpoint feed_parser (buf : bytes) (pos : Z) (ws : list bytes) (p : SpecialCommandParser) :
    outcome SpecialCommandParser :=
  match ws with
  | [] => Ret p
  | w :: ws' =>
    let next := pos + zlen (bulk w) in
    p' ← parser_on_str buf p (next - 2 - zlen w) (next - 2); feed_parser buf next ws' p'
  end.

Fixpoint feed_strings (buf : bytes) (pos : Z) (ws : list bytes) (c : ClientCommandSplitter) :
    outcome ClientCommandSplitter :=
  match ws with
  | [] => Ret c
  | w :: ws' =>
    let next := pos + zlen (bulk w) in
    c' ← client_on_string buf (next - 2 - zlen w) (next - 2) c; feed_strings buf next ws' c'
  end.

(** ** The special parsers, one by one *)

(** The parsers the tables create, for a command that starts at [cb] and whose
    arguments start at [pos]. *)
Inductive initial_parser (cb pos : Z) : SpecialCommandParser -> Prop :=
  | init_ping : initial_parser cb pos (PingCommandParser [])
  | init_stats : initial_parser cb pos ProxyStatsCommandParser
  | init_update : initial_parser cb pos UpdateSlotMapCommandParser
  | init_remotes : initial_parser cb pos (SetRemotesCommandParser [] [] true false)
  | init_each k : k <> MSetGroup -> initial_parser cb pos (EachKeyCommandParser k [pos] [])
  | init_mset : initial_parser cb pos (MSetCommandParser [pos] [] true)
  | init_rename : initial_parser cb pos (RenameCommandParser cb [pos] reset reset 0 false)
  | init_subscribe : initial_parser cb pos (SubscribeCommandParser cb true)
  | init_blocked : initial_parser cb pos (BlockedListPopParser cb reset 0)
  | init_eval : initial_parser cb pos (EvalCommandParser cb reset 0 0)
  | init_publish : initial_parser cb pos (PublishCommandParser cb 0)
  | init_keys : initial_parser cb pos (KeysInSlotParser pos 0 0).

(** Induction two words at a time. *)
Lemma pair_list_ind {A} (P : list A -> Prop) :
  P [] -> (forall a, P [a]) -> (forall a b l, P l -> P (a :: b :: l)) -> forall l, P l.
Proof.
  intros H0 H1 H2 l. enough (P l /\ forall a, P (a :: l)) by tauto.
  induction l as [|x l [IH1 IH2]]; auto.
Qed.

Section Parsers.
Context (buf : bytes).
Implicit Types (pos : Z) (args : list bytes).

Lemma feed_ping pos args msg :
  words_at buf pos args ->
  feed_parser buf pos args (PingCommandParser msg) = Ret (PingCommandParser (default msg (last args))).
Proof.
  revert pos msg. induction args as [|w args IH]; intros pos msg Hw; [done|].
  (cbn [feed_parser parser_on_str]; open_parsers). rewrite (slice_word _ _ _ _ Hw). cbn [mbind outcome_bind].
  rewrite IH by by apply words_at_cons. rewrite last_cons. by destruct (last args).
Qed.

Lemma feed_stats pos args : feed_parser buf pos args ProxyStatsCommandParser = Ret ProxyStatsCommandParser.
Proof. revert pos. by induction args; cbn. Qed.

Lemma feed_update pos args :
  feed_parser buf pos args UpdateSlotMapCommandParser = Ret UpdateSlotMapCommandParser.
Proof. revert pos. by induction args; cbn. Qed.

Lemma set_remotes_correct end_ args : forall pos rs h,
  words_at buf pos args ->
  (p ← feed_parser buf pos args (SetRemotesCommandParser rs h true false); spawn_commands buf p end_) =
  (addrs ← read_addresses rs (pair_up args).1;
   Ret (match addrs, (pair_up args).2 with
        | _ :: _, true => SpSetRemotes addrs
        | _, _ => SpDirect (wrong_args "SETREMOTES")
        end)).
Proof.
  induction args as [|a|a b args IH] using pair_list_ind; intros pos rs h Hw.
  - (cbn [feed_parser pair_up read_addresses mbind outcome_bind fst snd spawn_commands]; open_parsers). by destruct rs.
  - (cbn [feed_parser parser_on_str]; open_parsers). rewrite (slice_word _ _ _ _ Hw).
    (cbn [mbind outcome_bind fst snd pair_up read_addresses spawn_commands negb]; open_parsers). rewrite orb_true_r.
    by destruct rs.
  - (cbn [feed_parser parser_on_str]; open_parsers). rewrite (slice_word _ _ _ _ Hw). (cbn [mbind outcome_bind parser_on_str]; open_parsers).
    apply words_at_cons in Hw. rewrite (slice_word _ _ _ _ Hw). cbn [pair_up mbind outcome_bind].
    apply words_at_cons in Hw.
    destruct (pair_up args) as [ps c] eqn:Ep. cbn [fst snd read_addresses mbind outcome_bind].
    destruct (atoi b) as [n| | |]; cbn [mbind outcome_bind]; try done. by rewrite IH.
Qed.

Lemma feed_each pos args k pts slots :
  words_at buf pos args ->
  feed_parser buf pos args (EachKeyCommandParser k pts slots) =
  Ret (EachKeyCommandParser k (pts ++ word_ends pos args) (slots ++ (key_slot <$> args))).
Proof.
  revert pos pts slots. induction args as [|w args IH]; intros pos pts slots Hw.
  { cbn. by rewrite !app_nil_r. }
  (cbn [feed_parser parser_on_str]; open_parsers). rewrite (slice_word _ _ _ _ Hw). cbn [mbind outcome_bind].
  rewrite IH by by apply words_at_cons. unfold LENGTH_OF_CR_LF. rewrite Z.sub_add.
  by rewrite <- !app_assoc.
Qed.

Lemma each_key_commands_spec hdr args : forall pos,
  words_at buf pos args ->
  each_key_commands buf hdr (pos :: word_ends pos args) (key_slot <$> args) =
  Ret ((fun key => (hdr ++ bulk key, Spec.slot_of key)) <$> args).
Proof.
  induction args as [|w args IH]; intros pos Hw; [done|].
  cbn [word_ends fmap list_fmap each_key_commands tail]. rewrite (slice_first _ _ _ _ Hw).
  cbn [mbind outcome_bind]. rewrite (IH _ (words_at_cons _ _ _ _ Hw)). cbn [mbind outcome_bind].
  by rewrite key_slot_spec.
Qed.

(** The words in key position. *)
Fixpoint keys_of (is_key : bool) (args : list bytes) : list bytes :=
  match args with
  | [] => []
  | w :: args' => if is_key then w :: keys_of false args' else keys_of true args'
  end.

Lemma feed_mset pos args pts slots b :
  words_at buf pos args ->
  feed_parser buf pos args (MSetCommandParser pts slots b) =
  Ret (MSetCommandParser (pts ++ word_ends pos args) (slots ++ (key_slot <$> keys_of b args))
         (if (pair_up args).2 then b else negb b)).
Proof.
  revert pos pts slots b. induction args as [|a|a w args IH] using pair_list_ind; intros pos pts slots b Hw.
  - cbn. by rewrite !app_nil_r.
  - (cbn [feed_parser parser_on_str]; open_parsers). rewrite (slice_word _ _ _ _ Hw). unfold LENGTH_OF_CR_LF. rewrite Z.sub_add.
    destruct b; cbn; by rewrite ?app_nil_r.
  - (cbn [feed_parser parser_on_str]; open_parsers). rewrite (slice_word _ _ _ _ Hw). apply words_at_cons in Hw.
    unfold LENGTH_OF_CR_LF. rewrite Z.sub_add. cbn [pair_up].
    destruct b; (cbn [mbind outcome_bind parser_on_str negb]; open_parsers); rewrite ?(slice_word _ _ _ _ Hw);
      apply words_at_cons in Hw; cbn [mbind outcome_bind negb]; rewrite IH by done;
      unfold LENGTH_OF_CR_LF; rewrite Z.sub_add; destruct (pair_up args); cbn [snd keys_of fmap list_fmap word_ends];
      by rewrite <- !app_assoc.
Qed.

Lemma mset_commands_spec args : forall pos,
  words_at buf pos args -> (pair_up args).2 = true ->
  mset_commands buf (pos :: word_ends pos args) (key_slot <$> keys_of true args) =
  Ret ((fun kv => (crlf_lines ["*3"; "$3"; "SET"] ++ bulk kv.1 ++ bulk kv.2, Spec.slot_of kv.1)) <$>
       (pair_up args).1).
Proof.
  induction args as [|a|a w args IH] using pair_list_ind; intros pos Hw Hc; [done|done|].
  cbn [word_ends keys_of fmap list_fmap mset_commands drop pair_up] in *.
  pose proof (slice_words buf pos [a; w] args Hw) as Hs. cbn in Hs. rewrite app_nil_r in Hs.
  rewrite zlen_app, Z.add_assoc in Hs. rewrite Hs. cbn [mbind outcome_bind].
  destruct (pair_up args) as [ps c] eqn:Ep. cbn [snd fst] in *.
  rewrite IH; [|by do 2 apply words_at_cons in Hw|done]. cbn [mbind outcome_bind fmap list_fmap].
  by rewrite key_slot_spec.
Qed.

Lemma keys_of_ne args : args <> [] -> keys_of true args <> [].
Proof. by destruct args. Qed.

Lemma feed_rename_full pos args cb pts s0 s1 bad :
  feed_parser buf pos args (RenameCommandParser cb pts s0 s1 2 bad) =
  Ret (RenameCommandParser cb pts s0 s1 2 (bad || negb (bool_decide (args = [])))).
Proof.
  revert pos bad. induction args as [|w args IH]; intros pos bad; (cbn [feed_parser parser_on_str]; open_parsers).
  { by rewrite orb_false_r. }
  cbn [Z.eqb Pos.eqb mbind outcome_bind]. rewrite IH. cbn. by rewrite orb_true_r.
Qed.

Lemma feed_subscribe pos args cb no_arg :
  feed_parser buf pos args (SubscribeCommandParser cb no_arg) =
  Ret (SubscribeCommandParser cb (match args with [] => no_arg | _ => false end)).
Proof.
  revert pos no_arg. induction args as [|w args IH]; intros pos no_arg; [done|].
  cbn. rewrite IH. by destruct args.
Qed.

Lemma feed_blocked pos args cb sc n :
  words_at buf pos args ->
  feed_parser buf pos args (BlockedListPopParser cb sc n) =
  Ret (BlockedListPopParser cb (feed sc (concat args)) (n + zlen args)).
Proof.
  revert pos sc n. induction args as [|w args IH]; intros pos sc n Hw.
  { cbn. by rewrite zlen_nil, Z.add_0_r. }
  (cbn [feed_parser parser_on_str concat]; open_parsers). rewrite (slice_word _ _ _ _ Hw). cbn [mbind outcome_bind].
  rewrite IH by by apply words_at_cons. unfold feed. rewrite foldl_app, zlen_cons.
  do 2 f_equal. lia.
Qed.

Lemma feed_eval_rest pos args cb sc n kc :
  3 <= n ->
  feed_parser buf pos args (EvalCommandParser cb sc n kc) = Ret (EvalCommandParser cb sc (n + zlen args) kc).
Proof.
  revert pos n. induction args as [|w args IH]; intros pos n Hn.
  { cbn. by rewrite zlen_nil, Z.add_0_r. }
  (cbn [feed_parser parser_on_str]; open_parsers).
  rewrite (proj2 (Z.eqb_neq n 1)), (proj2 (Z.eqb_neq n 2)) by lia. cbn [mbind outcome_bind].
  rewrite IH by lia. rewrite zlen_cons. do 2 f_equal. lia.
Qed.

Lemma feed_publish pos args cb n :
  feed_parser buf pos args (PublishCommandParser cb n) = Ret (PublishCommandParser cb (n + zlen args)).
Proof.
  revert pos n. induction args as [|w args IH]; intros pos n.
  { cbn. by rewrite zlen_nil, Z.add_0_r. }
  cbn. rewrite IH, zlen_cons. do 2 f_equal. lia.
Qed.

Lemma feed_keys_rest pos args st n slot :
  1 <= n -> feed_parser buf pos args (KeysInSlotParser st n slot) = Ret (KeysInSlotParser st (n + zlen args) slot).
Proof.
  revert pos n. induction args as [|w args IH]; intros pos n Hn.
  { cbn. by rewrite zlen_nil, Z.add_0_r. }
  (cbn [feed_parser parser_on_str]; open_parsers). rewrite (proj2 (Z.eqb_neq n 0)) by lia. cbn [mbind outcome_bind].
  rewrite IH by lia. rewrite zlen_cons. do 2 f_equal. lia.
Qed.
End Parsers.

Lemma zlen_args_2 {A} (l : list A) : (zlen l =? 2) = match l with [_; _] => true | _ => false end.
Proof. destruct l as [|? [|? [|? l]]]; try done. rewrite !zlen_cons. pose_zlen_nonneg. lia. Qed.

Lemma clamp_range v : in_int (clamp_int v).
Proof. unfold in_int, clamp_int, INT_MIN, INT_MAX. lia. Qed.

Lemma atoi_range s n : atoi s = Ret n -> in_int n.
Proof.
  unfold atoi. destruct (skip_ws s); [done|]. destruct (span_sign _) as [neg s1].
  destruct (span_digits s1) as [ds rest]. case_match; intros [= <-]. apply clamp_range.
Qed.

Lemma keys_slot_check n :
  in_int n -> (CLUSTER_SLOT_COUNT <=? wrapu32 n) = negb ((0 <=? n) && (n <? CLUSTER_SLOT_COUNT)).
Proof.
  unfold in_int, INT_MIN, INT_MAX, CLUSTER_SLOT_COUNT. intros Hn.
  destruct (Z.leb_spec 0 n) as [H|H]; cbn [andb].
  - rewrite wrapu32_id by lia. rewrite Z.leb_antisym. done.
  - unfold wrapu32. rewrite <- (Z.mod_unique_pos n (2 ^ 32) (-1) (n + 2 ^ 32)) by lia. cbn. lia.
Qed.

(** The parsers with several cases, fed with the arguments of a command. *)

Lemma rename_correct buf cb pos args whole :
  let end_ := pos + zlen (flat_map bulk args) in
  words_at buf pos args -> slice buf cb end_ = Ret whole ->
  (p' ← feed_parser buf pos args (RenameCommandParser cb [pos] reset reset 0 false); spawn_commands buf p' end_) = special_spec (RenameCommandParser cb [pos] reset reset 0 false) whole args.
Proof.
  intros end_ Hw Hwhole; cbn [special_spec].
  destruct args as [|a [|b args]]; cbn [feed_parser].
  + done.
  + (cbn [parser_on_str Z.eqb]; open_parsers). by rewrite (slice_word _ _ _ _ Hw).
  + (cbn [parser_on_str Z.eqb]; open_parsers). rewrite (slice_word _ _ _ _ Hw). (cbn [Z.eqb mbind outcome_bind parser_on_str]; open_parsers).
    change (0 + 1 =? 2) with false. change (0 + 1 =? 0) with false. cbv iota.
    apply words_at_cons in Hw as Hw'. rewrite (slice_word _ _ _ _ Hw'). cbn [mbind outcome_bind].
    change (0 + 1 + 1) with 2. rewrite feed_rename_full. unfold LENGTH_OF_CR_LF. rewrite !Z.sub_add.
    (cbn [mbind outcome_bind spawn_commands negb Z.eqb Pos.eqb orb app]; open_parsers).
    destruct args; [|done]. cbn [bool_decide decide_rel negb].
    fold (key_slot a) (key_slot b). rewrite !key_slot_spec. rewrite bool_decide_true by done. cbn [negb].
    subst end_. cbn in Hwhole. rewrite app_nil_r, zlen_app, Z.add_assoc in Hwhole. rewrite Hwhole.
    rewrite (slice_first _ _ _ _ Hw), (slice_first _ _ _ _ Hw'). by destruct (_ =? _).
Qed.

Lemma eval_correct buf cb pos args whole :
  let end_ := pos + zlen (flat_map bulk args) in
  words_at buf pos args -> slice buf cb end_ = Ret whole ->
  (p' ← feed_parser buf pos args (EvalCommandParser cb reset 0 0); spawn_commands buf p' end_) = special_spec (EvalCommandParser cb reset 0 0) whole args.
Proof.
  intros end_ Hw Hwhole; cbn [special_spec].
  destruct args as [|a [|n args]]; (cbn [feed_parser parser_on_str Z.eqb Pos.eqb mbind outcome_bind]; open_parsers); try done.
  apply words_at_cons in Hw. (cbn [mbind outcome_bind parser_on_str]; open_parsers).
  change (0 + 1 =? 1) with true. cbv iota. rewrite (slice_word _ _ _ _ Hw).
  cbn [mbind outcome_bind]. destruct (atoi n) as [kc| | |]; cbn [mbind outcome_bind]; try done.
  apply words_at_cons in Hw. destruct args as [|key args]; [done|].
  (cbn [feed_parser parser_on_str]; open_parsers). change (0 + 1 + 1 =? 1) with false. change (0 + 1 + 1 =? 2) with true.
  cbv iota. rewrite (slice_word _ _ _ _ Hw). cbn [mbind outcome_bind].
  rewrite feed_eval_rest by lia. (cbn [mbind outcome_bind spawn_commands]; open_parsers).
  rewrite (proj2 (Z.ltb_ge _ 3)) by zlen_lia. cbn [orb]. destruct (kc =? 1); [|done]. cbn [negb].
  rewrite Hwhole. cbn. fold (key_slot key). by rewrite key_slot_spec.
Qed.

Lemma keys_in_slot_correct buf pos args whole :
  let end_ := pos + zlen (flat_map bulk args) in
  words_at buf pos args ->
  (p' ← feed_parser buf pos args (KeysInSlotParser pos 0 0); spawn_commands buf p' end_) = special_spec (KeysInSlotParser pos 0 0) whole args.
Proof.
  intros end_ Hw; cbn [special_spec].
  destruct args as [|s args]; (cbn [feed_parser parser_on_str Z.eqb]; open_parsers); [done|].
  rewrite (slice_word _ _ _ _ Hw). cbn [mbind outcome_bind].
  destruct (atoi s) as [n| | |] eqn:En; cbn [mbind outcome_bind]; try done.
  rewrite feed_keys_rest by lia. (cbn [mbind outcome_bind spawn_commands]; open_parsers).
  apply atoi_range in En. rewrite keys_slot_check by done.
  replace (0 + 1 + zlen args =? 2) with (zlen (s :: args) =? 2) by (rewrite zlen_cons; f_equal; lia).
  rewrite zlen_args_2. destruct args as [|c [|? ?]]; cbn [negb orb]; try done.
  destruct ((0 <=? n) && (n <? CLUSTER_SLOT_COUNT)) eqn:Eb; cbn [negb]; [|done].
  apply andb_true_iff in Eb as [? _].
  pose proof (slice_words buf pos [s; c] [] Hw) as Hs. cbn in Hs. subst end_. cbn. rewrite !app_nil_r in Hs.
  rewrite !app_nil_r. rewrite Hs. cbn. rewrite wrapu32_id; [done|].
  unfold in_int, INT_MAX in En. lia.
Qed.

(** Every special parser, fed with the arguments of a command, spawns the group of
    the specification, or fails as it does. *)
Lemma special_correct buf cb pos p args whole :
  let end_ := pos + zlen (flat_map bulk args) in
  initial_parser cb pos p -> words_at buf pos args -> slice buf cb end_ = Ret whole ->
  (p' ← feed_parser buf pos args p; spawn_commands buf p' end_) = special_spec p whole args.
Proof.
  intros end_ [] Hw Hwhole; cbn [special_spec].
  - rewrite feed_ping by done. cbn. open_parsers. destruct (last args) as [[|c m]|]; try done.
    cbn [default]. cbv beta. rewrite bool_decide_false by done. unfold bulk, encode, header. cbn. by rewrite <- app_assoc.
  - by rewrite feed_stats.
  - by rewrite feed_update.
  - by rewrite set_remotes_correct.
  - rewrite feed_each by done. (cbn [mbind outcome_bind spawn_commands app]; open_parsers).
    rewrite each_key_commands_spec by done. by destruct args.
  - rewrite feed_mset by done. (cbn [mbind outcome_bind spawn_commands app]; open_parsers).
    pose proof (mset_commands_spec buf args pos Hw) as Hm. pose proof (keys_of_ne args) as Hne.
    destruct args as [|a [|b args]]; [done..|]. cbn [pair_up] in *. destruct (pair_up args) as [ps []].
    + cbn [snd negb orb] in *. rewrite bool_decide_false by done. cbn [orb]. by rewrite Hm.
    + cbn [snd negb]. by rewrite orb_true_r.
  - by apply rename_correct.
  - rewrite feed_subscribe. cbn. open_parsers. destruct args; [done|]. by rewrite Hwhole.
  - rewrite feed_blocked by done. (cbn [mbind outcome_bind spawn_commands]; open_parsers). rewrite Z.add_0_l, zlen_args_2.
    destruct args as [|a [|b [|? ?]]]; try done. cbn [negb concat]. rewrite Hwhole, app_nil_r. cbn.
    fold (key_slot (a ++ b)). by rewrite key_slot_spec.
  - by apply (eval_correct buf cb pos).
  - rewrite feed_publish. (cbn [mbind outcome_bind spawn_commands]; open_parsers). rewrite Z.add_0_l, zlen_args_2.
    destruct args as [|a [|b [|? ?]]]; try done. cbn [negb]. by rewrite Hwhole.
  - by apply (keys_in_slot_correct buf pos args whole).
Qed.

(** ** One request *)

(** The tables create the parsers above, whose class does not depend on the offsets. *)
Definition tables_ok (t : CommandTables) : Prop := forall cmd create,
  special_rsp t !! cmd = Some create -> forall cb pos,
  initial_parser cb pos (create cb pos) /\ special_spec (create cb pos) = special_spec (create 0 0).

Lemma special_entries_ok l :
  l = SPECIAL_RSP \/ l = SPECIAL_WRITE_COMMAND ->
  Forall (fun e : bytes * CmdCreateFn => forall cb pos,
    initial_parser cb pos (e.2 cb pos) /\ special_spec (e.2 cb pos) = special_spec (e.2 0 0)) l.
Proof.
  intros [-> | ->]; repeat constructor; cbn; done.
Qed.

Lemma initial_tables_ok : tables_ok initial_tables.
Proof.
  intros cmd create H%elem_of_list_to_map_2.
  pose proof (special_entries_ok SPECIAL_RSP ltac:(by left)) as Hall.
  rewrite Forall_forall in Hall. by specialize (Hall _ H).
Qed.

Lemma write_tables_ok t : tables_ok t -> tables_ok (allow_write_commands t).
Proof.
  intros Ht cmd create. cbn [allow_write_commands special_rsp]. intros [H|[_ H]]%lookup_union_Some_raw; [by eapply Ht|].
  apply elem_of_list_to_map_2 in H.
  pose proof (special_entries_ok SPECIAL_WRITE_COMMAND ltac:(by right)) as Hall.
  rewrite Forall_forall in Hall. by specialize (Hall _ H).
Qed.

(** The splitter between two commands. *)
Definition ready (t : CommandTables) (cb : Z) (l : list spawned) : ClientCommandSplitter :=
  mkCSplitter on_command_head cb reset false None l t.

Lemma feed_nop buf pos ws c : _on_str c = on_string_nop -> feed_strings buf pos ws c = Ret c.
Proof.
  intros Hc. revert pos. induction ws as [|w ws IH]; intros pos; [done|].
  cbn [feed_strings]. unfold client_on_string at 1. rewrite Hc. apply IH.
Qed.

Lemma feed_special buf pos ws c p :
  _on_str c = special_parser_on_str -> special_parser c = Some p ->
  feed_strings buf pos ws c =
  (p' ← feed_parser buf pos ws p; Ret (c <| special_parser := Some p' |>)).
Proof.
  revert pos c p. induction ws as [|w ws IH]; intros pos c p Hc Hp; cbn [feed_strings feed_parser].
  { cbn. rewrite <- Hp. by destruct c. }
  unfold client_on_string at 1. rewrite Hc, Hp.
  destruct (parser_on_str _ _ _ _) as [p'| | |]; cbn [mbind outcome_bind]; try done.
  rewrite (IH _ _ p') by done. destruct (feed_parser _ _ _ _) as [q| | |]; by cbn.
Qed.

Lemma request_correct t buf cb pos ws l :
  let end_ := pos + zlen (flat_map bulk ws) in
  tables_ok t -> ws <> [] -> words_at buf pos ws ->
  slice buf cb end_ = Ret (encode (request ws)) ->
  (c ← feed_strings buf pos ws (ready t cb l); client_on_split_point buf end_ c) =
  (g ← command_spec t ws; Ret (ready t end_ (l ++ [g]))).
Proof.
  intros end_ Ht Hne Hw Hwhole. destruct ws as [|name args]; [done|]. clear Hne.
  cbn [feed_strings command_spec]. unfold client_on_string. cbn [_on_str ready].
  unfold select_command_parser. rewrite (slice_word _ _ _ _ Hw).
  cbn [mbind outcome_bind]. set (cmd := toupper <$> name). unfold handle_standard_key_command. cbn [tables ready].
  pose proof (words_at_cons _ _ _ _ Hw) as Hw'.
  destruct (bool_decide (cmd ∈ std_commands t)).
  - destruct args as [|key args]; [done|].
    cbn [mbind outcome_bind feed_strings]. unfold client_on_string at 1.
    cbn. rewrite (slice_word _ _ _ _ Hw'). cbn. rewrite feed_nop by done.
    cbn. rewrite Hwhole. cbn. fold (key_slot key). by rewrite key_slot_spec.
  - change (special_rsp (tables (ready t cb l))) with (special_rsp t).
    destruct (special_rsp t !! cmd) as [create|] eqn:Ec.
    + cbn [mbind outcome_bind]. erewrite feed_special by done. cbn [last_command_begin ready].
      unfold LENGTH_OF_CR_LF. rewrite Z.sub_add.
      destruct (Ht _ _ Ec cb (pos + zlen (bulk name))) as [Hi <-].
      pose proof (special_correct buf cb _ _ args (encode (request (name :: args))) Hi Hw') as Hs.
      cbn zeta in Hs. assert (pos + zlen (bulk name) + zlen (flat_map bulk args) = end_) as He.
      { subst end_. cbn [flat_map]. rewrite zlen_app. lia. }
      rewrite He in Hs. rewrite <- Hs by done. destruct (feed_parser _ _ _ _) as [p'| | |]; cbn [mbind outcome_bind]; try done.
      unfold client_on_split_point. cbn. by destruct (spawn_commands _ _ _).
    + cbn [mbind outcome_bind]. by rewrite feed_nop.
Qed.

(** ** The traversal of a request *)

#[local] Arguments client_on_string : simpl never.
#[local] Arguments client_on_split_point : simpl never.

Abbreviation csplitter := (Splitter ClientCommandSplitter).

Lemma walk_list_app {A S} (f : A -> Z -> M S Z) l1 l2 pos s :
  walk_list f (l1 ++ l2) pos s = (next ← walk_list f l1 pos; walk_list f l2 next) s.
Proof.
  revert pos s. induction l1 as [|x l1 IH]; intros pos s; [done|]. cbn [walk_list app].
  rewrite bind_assoc. apply bind_ext; [done|]. intros. apply IH.
Qed.

Lemma feed_strings_app buf ws1 ws2 pos c :
  feed_strings buf pos (ws1 ++ ws2) c =
  (c' ← feed_strings buf pos ws1 c; feed_strings buf (pos + zlen (flat_map bulk ws1)) ws2 c').
Proof.
  revert pos c. induction ws1 as [|w ws1 IH]; intros pos c; cbn [feed_strings app flat_map].
  { cbn. by rewrite zlen_nil, Z.add_0_r. }
  destruct (client_on_string _ _ _ _); cbn [mbind outcome_bind]; try done.
  rewrite IH. by rewrite zlen_app, Z.add_assoc.
Qed.

Lemma outcome_bind_Ret_inv {A B} (o : outcome A) (f : A -> outcome B) b :
  (o ≫= f) = Ret b -> exists a, o = Ret a /\ f a = Ret b.
Proof. destruct o; cbn; try done. eauto. Qed.

(** Words that leave the array open. *)
Lemma walk_words_inner buf n ws : forall pos c (s : csplitter),
  _nested_array_element_count s = [n] -> zlen ws < n < 2 ^ 63 ->
  feed_strings buf pos ws (final s) = Ret c ->
  walk_list (walk buf) (RBulk <$> ws) pos s =
  (Ret (pos + zlen (flat_map bulk ws)),
   s <| final := c |> <| _nested_array_element_count := [n - zlen ws] |>).
Proof.
  revert n. induction ws as [|w ws IH]; intros n pos c s Hn Hlt Hf.
  { cbn in Hf. simplify_eq. cbn. rewrite zlen_nil, Z.add_0_r, Z.sub_0_r, <- Hn. by destruct s. }
  cbn [fmap list_fmap walk_list feed_strings flat_map] in *. rewrite zlen_cons in *. pose_zlen_nonneg.
  apply outcome_bind_Ret_inv in Hf as (c1 & Hc1 & Hc2).
  rewrite (bind_Ret _ (pos + zlen (bulk w))
    (s <| final := c1 |> <| _nested_array_element_count := [n - 1] |>)).
  - rewrite (IH (n - 1) _ c); [|done|lia|done]. rewrite zlen_app, Z.add_assoc.
    by replace (n - 1 - zlen ws) with (n - (1 + zlen ws)) by lia.
  - cbn [walk]. fold (bulk w). unfold mbind, M_bind, on_string, client_hooks, on_final.
    rewrite Hc1. cbn. unfold on_element, gets, modify, mbind, M_bind. cbn. rewrite Hn. cbn [count_element].
    rewrite wrap64_id by (unfold in_rint; lia). by rewrite (proj2 (Z.eqb_neq _ _)) by lia.
Qed.

(** All the words of a request. *)
Lemma walk_words buf ws pos c c' (s : csplitter) :
  ws <> [] -> zlen ws < 2 ^ 63 -> _nested_array_element_count s = [zlen ws] ->
  let end_ := pos + zlen (flat_map bulk ws) in
  feed_strings buf pos ws (final s) = Ret c -> client_on_split_point buf end_ c = Ret c' ->
  walk_list (walk buf) (RBulk <$> ws) pos s =
  (Ret end_, mkSplitter (_interrupted s) (_split_points s ++ [end_]) [] c').
Proof.
  intros Hne Hlen Hn end_ Hf Hsp. destruct ws as [|w ws _] using rev_ind; [done|]. clear Hne.
  rewrite feed_strings_app in Hf. apply outcome_bind_Ret_inv in Hf as (c1 & Hc1 & Hc2).
  rewrite fmap_app, walk_list_app. rewrite zlen_app, zlen_cons, zlen_nil in *. pose_zlen_nonneg.
  erewrite bind_Ret; [|apply (walk_words_inner buf (zlen ws + (1 + 0)) ws pos c1); [done|lia|done]].
  cbn [feed_strings] in Hc2. apply outcome_bind_Ret_inv in Hc2 as (c2 & Hc2 & [= ->]).
  replace (zlen ws + (1 + 0) - zlen ws) with 1 by lia.
  assert (He : end_ = pos + zlen (flat_map bulk ws) + zlen (bulk w)).
  { subst end_. rewrite flat_map_app, zlen_app. cbn. rewrite app_nil_r. lia. }
  cbn [fmap list_fmap walk_list walk]. fold (bulk w). rewrite <- He in *.
  unfold mbind, M_bind, on_string, client_hooks, on_final. cbn. rewrite Hc2. cbn.
  unfold on_element, gets, modify, mbind, M_bind, when, on_split_point, client_hooks, on_final. cbn.
  change (wrap64 (1 - 1) =? 0) with true. cbn. by rewrite Hsp.
Qed.

Lemma flat_map_bulk ws : flat_map encode (RBulk <$> ws) = flat_map bulk ws.
Proof. induction ws as [|w ws IH]; [done|]. cbn [fmap list_fmap flat_map]. by rewrite IH. Qed.

Lemma encode_request ws :
  encode (request ws) = header "*"%char (zlen ws) ++ flat_map bulk ws.
Proof. cbn [encode request]. rewrite flat_map_bulk. unfold zlen. by rewrite length_fmap. Qed.

(** Redis' limit on the size of a request. *)
Definition request_size_ok (ws : list bytes) : Prop := zlen ws <= 1024 * 1024.

Lemma empty_request_point t buf cb end_ l whole :
  slice buf cb end_ = Ret whole ->
  client_on_split_point buf end_ (ready t cb l) = Ret (ready t end_ (l ++ [SpSingle whole 0])).
Proof. intros H. unfold client_on_split_point. cbn. by rewrite H. Qed.

Lemma on_arr_request buf n p (s : csplitter) :
  _nested_array_element_count s = [] -> 0 < n <= 1024 * 1024 ->
  on_arr buf n p s = (Ret tt, s <| _nested_array_element_count ::= cons n |>).
Proof.
  intros Hn Hsz. unfold on_arr, on_array, client_hooks, gets, lift, mbind, M_bind, client_on_array.
  rewrite Hn, (proj2 (Z.ltb_ge _ _)) by lia. by rewrite (proj2 (Z.eqb_neq _ _)) by lia.
Qed.

Lemma on_arr_empty_request t buf cb end_ l whole (s : csplitter) :
  _nested_array_element_count s = [] -> final s = ready t cb l -> slice buf cb end_ = Ret whole ->
  on_arr buf 0 end_ s =
  (Ret tt, mkSplitter (_interrupted s) (_split_points s ++ [end_]) [] (ready t end_ (l ++ [SpSingle whole 0]))).
Proof.
  intros Hn Hf Hw. unfold on_arr, on_array, client_hooks, gets, lift, mbind, M_bind, client_on_array.
  rewrite Hn. unfold on_element, gets, modify, mbind, M_bind, when, on_split_point, on_final.
  cbn. rewrite Hn. cbn. by rewrite Hf, (empty_request_point _ _ _ _ _ _ Hw).
Qed.

Lemma walk_request t buf pre ws post l g (s : csplitter) :
  tables_ok t -> request_size_ok ws -> buf = pre ++ encode (request ws) ++ post ->
  _nested_array_element_count s = [] -> final s = ready t (zlen pre) l ->
  command_spec t ws = Ret g ->
  let end_ := zlen (pre ++ encode (request ws)) in
  walk buf (request ws) (zlen pre) s =
  (Ret end_, mkSplitter (_interrupted s) (_split_points s ++ [end_]) [] (ready t end_ (l ++ [g]))).
Proof.
  intros Ht Hsz Hb Hn Hf Hg end_. unfold request_size_ok in Hsz.
  assert (Hz : zlen (RBulk <$> ws) = zlen ws) by (unfold zlen; by rewrite length_fmap).
  set (first := zlen pre + zlen (header "*"%char (zlen ws))).
  assert (Hend : end_ = first + zlen (flat_map bulk ws)).
  { subst end_ first. rewrite encode_request, !zlen_app. lia. }
  assert (Hwhole : slice buf (zlen pre) end_ = Ret (encode (request ws))).
  { apply (slice_spec _ pre (encode (request ws)) post); [done..|]. subst end_. by rewrite zlen_app. }
  cbn [walk request]. rewrite Hz. fold first.
  destruct (Z.eqb_spec (zlen ws) 0) as [E|E].
  - apply zlen_0_inv in E as ->. cbn in Hg. injection Hg as <-. cbn [flat_map] in Hend.
    rewrite zlen_nil, Z.add_0_r in Hend. rewrite <- Hend. clearbody end_ first. clear Hb Hend.
    by rewrite zlen_nil, (bind_Ret _ _ _ _ _ (on_arr_empty_request _ _ _ _ _ _ _ Hn Hf Hwhole)).
  - assert (Hw : words_at buf first ws).
    { exists (pre ++ header "*"%char (zlen ws)), post. split; [|subst first; by rewrite zlen_app].
      rewrite Hb, encode_request. app_eq. }
    pose proof (request_correct t buf (zlen pre) first ws l Ht ltac:(by intros ->) Hw) as Hr.
    cbn zeta in Hr. rewrite <- Hend in Hr. specialize (Hr Hwhole). rewrite Hg in Hr. cbn [mbind outcome_bind] in Hr.
    apply outcome_bind_Ret_inv in Hr as (c & H1 & H2).
    rewrite (bind_Ret _ _ _ _ _ (on_arr_request buf (zlen ws) first s Hn ltac:(pose_zlen_nonneg; lia))).
    rewrite Hend in H2 |- *.
    erewrite (walk_words buf ws first c);
      [done|by intros ->|lia|cbn; by rewrite Hn|cbn; by rewrite Hf|exact H2].
Qed.

Lemma walk_requests t buf cmds gs post :
  tables_ok t -> Forall request_size_ok cmds ->
  Forall2 (fun ws g => command_spec t ws = Ret g) cmds gs -> forall pre l (s : csplitter),
  buf = pre ++ flat_map encode (request <$> cmds) ++ post ->
  _nested_array_element_count s = [] -> final s = ready t (zlen pre) l ->
  let end_ := zlen (pre ++ flat_map encode (request <$> cmds)) in
  exists s', walk_list (walk buf) (request <$> cmds) (zlen pre) s = (Ret end_, s') /\
    final s' = ready t end_ (l ++ gs).
Proof.
  intros Ht Hsz Hg. induction Hg as [|ws g cmds gs Hws Hg IH]; intros pre l s Hb Hn Hf end_.
  { exists s. subst end_. cbn. by rewrite !app_nil_r. }
  apply Forall_cons_1 in Hsz as [Hs1 Hs2]. cbn [fmap list_fmap flat_map walk_list] in *.
  rewrite <- app_assoc in Hb.
  rewrite (bind_Ret _ _ _ _ _ (walk_request t buf pre ws _ l g s Ht Hs1 Hb Hn Hf Hws)).
  destruct (IH Hs2 (pre ++ encode (request ws)) (l ++ [g])
              (mkSplitter (_interrupted s) (_split_points s ++ [zlen (pre ++ encode (request ws))]) []
                 (ready t (zlen (pre ++ encode (request ws))) (l ++ [g])))) as (s' & H1 & H2);
    [subst; by rewrite <- !app_assoc|done|done|].
  exists s'. subst end_. cbn [fmap list_fmap flat_map]. rewrite <- !app_assoc in H1, H2. split; [done|]. by rewrite H2, <- (app_assoc l).
Qed.

(** ** Interrupted requests *)

(** The hooks leave the base members alone, and no hook throws [MessageInterrupted]. *)
Lemma atoi_no_MI s : atoi s <> Throw MessageInterrupted.
Proof.
  unfold atoi. destruct (skip_ws s); [done|]. destruct (span_sign _) as [neg s1].
  destruct (span_digits s1) as [ds rest]. by case_match.
Qed.

Lemma slice_no_MI buf b e : slice buf b e <> Throw MessageInterrupted.
Proof. unfold slice. by case_match. Qed.

Lemma bind_no_MI {A B} (o : outcome A) (f : A -> outcome B) :
  o <> Throw MessageInterrupted -> (forall a, f a <> Throw MessageInterrupted) ->
  (o ≫= f) <> Throw MessageInterrupted.
Proof. destruct o; cbn; auto; congruence. Qed.

Create HintDb no_MI.
#[local] Hint Resolve atoi_no_MI slice_no_MI : no_MI.

Ltac no_MI :=
  repeat first
    [ done | solve [auto with no_MI] | apply bind_no_MI; [|intros]
    | match goal with |- (if ?b then _ else _) <> _ => destruct b end
    | match goal with |- context [let '(_, _) := ?x in _] => destruct x end ].

Lemma parser_on_str_no_MI buf p b e : parser_on_str buf p b e <> Throw MessageInterrupted.
Proof. destruct p; cbn; open_parsers; no_MI. Qed.

Lemma each_key_commands_no_MI buf h pts slots : each_key_commands buf h pts slots <> Throw MessageInterrupted.
Proof.
  revert pts. induction slots as [|k slots IH]; intros pts; cbn; [done|].
  destruct pts as [|p [|q pts]]; no_MI.
Qed.

Lemma mset_commands_no_MI buf pts slots : mset_commands buf pts slots <> Throw MessageInterrupted.
Proof.
  revert pts. induction slots as [|k slots IH]; intros pts; cbn; [done|].
  destruct pts as [|p [|q [|r pts]]]; no_MI.
Qed.
#[local] Hint Resolve parser_on_str_no_MI each_key_commands_no_MI mset_commands_no_MI : no_MI.

Lemma spawn_commands_no_MI buf p e : spawn_commands buf p e <> Throw MessageInterrupted.
Proof.
  destruct p as [| | | | | |? pts| | | | |]; cbn; open_parsers; no_MI. destruct pts as [|? [|? [|? ?]]]; no_MI.
Qed.
#[local] Hint Resolve spawn_commands_no_MI : no_MI.

Lemma on_final_tame {F} (f : F -> outcome F) :
  (forall x, f x <> Throw MessageInterrupted) -> tame (on_final f).
Proof.
  intros Hf s. unfold on_final. specialize (Hf (final s)). destruct (f (final s)); cbn; try done.
  split; [done|]. cbn. congruence.
Qed.

#[export] Instance client_tame : TameHooks ClientCommandSplitter.
Proof.
  split; intros; cbn.
  - apply on_final_tame. intros c. unfold client_on_string, select_command_parser.
    destruct (_on_str c); no_MI; [by case_match|]. destruct (special_parser c); no_MI.
  - intros s. done.
  - apply on_final_tame. intros c. unfold client_on_split_point. no_MI. by destruct (special_parser _); no_MI.
  - intros s. unfold gets, lift, mbind, M_bind, client_on_array. cbn. by repeat case_match.
Qed.

(** Groups are only appended, one for each split point, whatever the bytes. *)
Definition cmd_grows (s s' : csplitter) : Prop :=
  exists extra, pushed (final s') = pushed (final s) ++ extra /\
    length (_split_points s') = (length (_split_points s) + length extra)%nat.

#[export] Instance cmd_grows_preorder : PreOrder cmd_grows.
Proof.
  split.
  - intros s. exists []. rewrite app_nil_r. cbn. auto with lia.
  - intros s1 s2 s3 (e1 & H1 & L1) (e2 & H2 & L2). exists (e1 ++ e2).
    rewrite H2, H1, app_assoc, length_app. auto with lia.
Qed.

Lemma cmd_grows_same (s s' : csplitter) :
  pushed (final s') = pushed (final s) -> _split_points s' = _split_points s -> cmd_grows s s'.
Proof. intros H1 H2. exists []. rewrite app_nil_r, H1, H2. cbn. auto with lia. Qed.

Lemma client_on_string_pushed buf b e c c' :
  client_on_string buf b e c = Ret c' -> pushed c' = pushed c.
Proof.
  unfold client_on_string, select_command_parser, handle_standard_key_command.
  destruct (_on_str c).
  - by intros [= <-].
  - destruct (slice _ _ _); cbn; try done. repeat case_match; intros; by simplify_eq/=.
  - destruct (slice _ _ _); cbn; try done. by intros [= <-].
  - destruct (special_parser c); [|done]. destruct (parser_on_str _ _ _ _); cbn; try done. by intros [= <-].
Qed.

Lemma client_on_split_point_pushed buf i c c' :
  client_on_split_point buf i c = Ret c' -> exists g, pushed c' = pushed c ++ [g].
Proof.
  unfold client_on_split_point. cbn. destruct (last_command_is_bad c); [intros [= <-]; cbn; by eexists|].
  destruct (special_parser c).
  - destruct (spawn_commands _ _ _); cbn; try done. intros [= <-]. cbn. by eexists.
  - destruct (slice _ _ _); cbn; try done. intros [= <-]. cbn. by eexists.
Qed.

Lemma client_parse_grows fuel buf p (s : csplitter) : cmd_grows s (parse fuel buf p s).2.
Proof.
  revert s. apply (parse_preserves cmd_grows); cbn.
  - intros buf' b e s. unfold on_final. destruct (client_on_string _ _ _ _) eqn:E; cbn; try done.
    apply cmd_grows_same; [|done]. by eapply client_on_string_pushed.
  - intros. intros s. done.
  - intros n s. unfold gets, lift, mbind, M_bind. done.
  - intros buf' q s. unfold on_element, gets, modify, mbind, M_bind, when.
    destruct (count_element _) as [k []]; cbn; [|by apply cmd_grows_same].
    unfold on_final. cbn. destruct (client_on_split_point _ _ _) eqn:E; cbn; try by apply cmd_grows_same.
    apply client_on_split_point_pushed in E as [g Hg]. exists [g]. cbn. rewrite length_app. auto.
  - intros n s. by apply cmd_grows_same.
Qed.

(** A word is read from its own bytes only. *)
Lemma feed_strings_ext buf buf' pos ws c :
  words_at buf pos ws -> words_at buf' pos ws -> feed_strings buf pos ws c = feed_strings buf' pos ws c.
Proof.
  revert pos c. induction ws as [|w ws IH]; intros pos c H1 H2; [done|]. cbn [feed_strings].
  assert (E : forall c, client_on_string buf (pos + zlen (bulk w) - 2 - zlen w) (pos + zlen (bulk w) - 2) c =
          client_on_string buf' (pos + zlen (bulk w) - 2 - zlen w) (pos + zlen (bulk w) - 2) c).
  { intros c'. unfold client_on_string, select_command_parser.
    assert (forall p, parser_on_str buf p (pos + zlen (bulk w) - 2 - zlen w) (pos + zlen (bulk w) - 2) =
                 parser_on_str buf' p (pos + zlen (bulk w) - 2 - zlen w) (pos + zlen (bulk w) - 2)) as Hp.
    { intros p. unfold parser_on_str. open_parsers. by rewrite (slice_word _ _ _ _ H1), (slice_word _ _ _ _ H2). }
    rewrite (slice_word _ _ _ _ H1), (slice_word _ _ _ _ H2).
    destruct (special_parser c'); [by rewrite Hp|done]. }
  rewrite E. destruct (client_on_string buf' _ _ _); cbn [mbind outcome_bind]; try done.
  apply IH; by apply words_at_cons.
Qed.

(** The first words of a request that means something are accepted. *)
Lemma prefix_feeds t buf cb pos ws1 ws2 l g :
  tables_ok t -> words_at buf pos ws1 -> 0 <= cb <= pos -> command_spec t (ws1 ++ ws2) = Ret g ->
  (pos - cb = zlen (header "*"%char (zlen (ws1 ++ ws2)))) ->
  exists c, feed_strings buf pos ws1 (ready t cb l) = Ret c.
Proof.
  intros Ht Hw Hcb Hg Hpos. destruct (decide (ws1 ++ ws2 = [])) as [He|Hne].
  { apply app_eq_nil in He as [-> _]. by eexists. }
  destruct Hw as (pre & post & Hb & Hp).
  set (hdr := header "*"%char (zlen (ws1 ++ ws2))).
  set (buf' := (take (Z.to_nat cb) pre ++ hdr) ++ flat_map bulk (ws1 ++ ws2)).
  assert (Htake : zlen (take (Z.to_nat cb) pre) = cb).
  { unfold zlen in *. rewrite length_take. lia. }
  assert (Hw' : words_at buf' pos (ws1 ++ ws2)).
  { exists (take (Z.to_nat cb) pre ++ hdr), []. split; [by rewrite app_nil_r|]. rewrite zlen_app, Htake. fold hdr in Hpos. lia. }
  assert (Hwhole : slice buf' cb (pos + zlen (flat_map bulk (ws1 ++ ws2))) = Ret (encode (request (ws1 ++ ws2)))).
  { apply (slice_spec _ (take (Z.to_nat cb) pre) _ []).
    - subst buf'. rewrite app_nil_r, encode_request. by rewrite <- app_assoc.
    - done.
    - rewrite encode_request, zlen_app. fold hdr in Hpos |- *. lia. }
  pose proof (request_correct t buf' cb pos _ l Ht Hne Hw' Hwhole) as Hr. rewrite Hg in Hr.
  apply outcome_bind_Ret_inv in Hr as (c & Hf & _). rewrite feed_strings_app in Hf.
  apply outcome_bind_Ret_inv in Hf as (c1 & Hf & _). exists c1. rewrite <- Hf.
  apply feed_strings_ext.
  - exists pre, post. done.
  - destruct Hw' as (pre' & post' & Hb' & Hp'). exists pre', (flat_map bulk ws2 ++ post'). split; [|done].
    rewrite Hb', flat_map_app. app_eq.
Qed.

(** [parse] at a byte of the buffer, [H : buf = pre ++ b :: post]. *)
Ltac at_byte H :=
  rewrite parse_S;
  rewrite (at_end_false _ _ _ _ _ H eq_refl), (deref_spec _ _ _ _ _ H eq_refl), bind_lift_Ret;
  eval_eqb.

Lemma cut_bulk_parse {F} `{!SplitterHooks F} w p buf pre fuel (s : Splitter F) :
  cut (RBulk w) p -> buf = pre ++ p -> zlen buf < 2 ^ 63 -> zlen (bulk w) < 2 ^ 63 ->
  parse (S fuel) buf (zlen pre) s = (Throw MessageInterrupted, s).
Proof.
  intros Hcut Hb Hbuf Hlen. inversion Hcut as [| | |t q Hq|t q Hq| | | | |]; subst t p.
  - at_byte Hb. rewrite (at_minus_cut buf (pre ++ ["$"%char]) q (zlen pre + 1) ltac:(app_eq) ltac:(zlen_lia) (zlen w)),
      bind_lift_Ret by (done || apply zlen_nonneg).
    by rewrite (btou_cut buf (pre ++ ["$"%char]) q (zlen pre + 1) ltac:(app_eq) ltac:(zlen_lia) (str (zlen w)))
      by (done || apply str_no_CR).
  - assert (H : buf = pre ++ "$"%char :: str (zlen w) ++ crlf ++ q) by (unfold header in *; app_eq).
    at_byte H. rewrite bulk_len in Hlen.
    assert (0 <= zlen w < 2 ^ 63) by zlen_lia.
    rewrite (at_minus_header _ _ _ _ _ _ Hb), bind_lift_Ret by lia.
    rewrite (btou_header _ _ _ _ _ _ Hb), bind_lift_Ret by lia. cbn [fst snd].
    unfold on_lstr, parse_str, LENGTH_OF_CR_LF. destruct Hq as (r & Hr & Hq).
    apply (f_equal zlen) in Hq. rewrite !zlen_app, zlen_crlf in Hq.
    assert (0 < zlen r) by (destruct r; [done|zlen_lia]).
    by rewrite (proj2 (Z.ltb_lt _ _)) by zlen_lia.
Qed.

Lemma bulks_parse {F} `{!SplitterHooks F} ws : Forall (parses_as (F := F)) (RBulk <$> ws).
Proof. apply Forall_fmap, Forall_true. intros w. apply parse_encode. done. Qed.

(** The first words of a request and what follows, in an open array. *)
Lemma cut_request_array t buf pre ws1 w ws2 q fuel l g (s : csplitter) :
  let ws := ws1 ++ w :: ws2 in
  tables_ok t -> request_size_ok ws -> command_spec t ws = Ret g ->
  buf = pre ++ header "*"%char (zlen ws) ++ flat_map bulk ws1 ++ q -> zlen buf < 2 ^ 63 ->
  (length (header "*"%char (zlen ws) ++ flat_map bulk ws1 ++ q) <= fuel)%nat ->
  _nested_array_element_count s = [] -> final s = ready t (zlen pre) l ->
  exists s1 fuel', (1 + length q < fuel')%nat /\
    parse (S fuel) buf (zlen pre) s =
    parse_elements fuel' buf (zlen ws1) (zlen ws)
      (zlen (pre ++ header "*"%char (zlen ws) ++ flat_map bulk ws1)) s1.
Proof.
  intros ws Ht Hsz Hg Hb Hbuf Hf Hn Hfin.
  assert (H : buf = pre ++ "*"%char :: str (zlen ws) ++ crlf ++ flat_map bulk ws1 ++ q)
    by (unfold header in *; app_eq).
  unfold request_size_ok in Hsz. at_byte H.
  assert (Hlt : zlen ws1 < zlen ws) by (subst ws; zlen_lia).
  pose proof (zlen_nonneg ws) as Hnn.
  rewrite (at_minus_header _ _ _ _ _ _ Hb), bind_lift_Ret by lia.
  rewrite (btou_header _ _ _ _ _ _ Hb), bind_lift_Ret by lia. cbn [fst snd].
  assert (Hw : words_at buf (zlen pre + zlen (header "*"%char (zlen ws))) ws1).
  { exists (pre ++ header "*"%char (zlen ws)), q. split; [subst; app_eq|by rewrite zlen_app]. }
  destruct (prefix_feeds t buf (zlen pre) _ ws1 (w :: ws2) l g Ht Hw) as [c Hc];
    [pose_zlen_nonneg; lia|done|fold ws; lia|].
  rewrite (bind_Ret _ _ _ _ _ (on_arr_request buf (zlen ws) _ s Hn ltac:(pose_zlen_nonneg; lia))).
  assert (Hz : forall A (f : bytes -> A) l, zlen (f <$> l) = zlen l) by (intros; unfold zlen; by rewrite length_fmap).
  assert (Hfuel : (3 + length (flat_map bulk ws1) + length q <= fuel)%nat).
  { unfold header in Hf. rewrite !length_app in Hf. cbn in Hf. rewrite !length_app in Hf. cbn in Hf. lia. }
  cbv beta. rewrite <- zlen_app.
  rewrite (parse_elements_app buf (zlen ws) (RBulk <$> ws1) (bulks_parse ws1) Hbuf _ q);
    [|rewrite flat_map_bulk; app_eq|rewrite Hz; lia|rewrite flat_map_bulk; lia].
  erewrite bind_Ret; [|apply (walk_words_inner buf (zlen ws) ws1 _ c);
    [cbn; by rewrite Hn|lia|cbn; rewrite Hfin, zlen_app; done]].
  eexists _, (fuel - length (RBulk <$> ws1))%nat. split.
  2: { rewrite Hz, Z.add_0_l, <- zlen_app. by rewrite <- app_assoc. }
  pose proof (length_flat_map_encode (RBulk <$> ws1)) as Hle. rewrite flat_map_bulk in Hle. lia.
Qed.

(** [parse] of an interrupted request stops without an exception of the hooks. *)
Lemma cut_request_parse t ws rest buf pre fuel l g (s : csplitter) :
  cut (request ws) rest -> tables_ok t -> request_size_ok ws -> command_spec t ws = Ret g ->
  buf = pre ++ rest -> zlen buf < 2 ^ 63 -> zlen (encode (request ws)) < 2 ^ 63 ->
  (length rest < fuel)%nat ->
  _nested_array_element_count s = [] -> final s = ready t (zlen pre) l ->
  let r := parse fuel buf (zlen pre) s in
  (exists p, r.1 = Ret p) \/ r.1 = Throw MessageInterrupted.
Proof.
  intros Hcut Ht Hsz Hg Hb Hbuf Hlen Hf Hn Hfin r. subst r. destruct fuel as [|fuel]; [lia|].
  unfold request in Hcut.
  assert (Hwords : forall l1 m l2, RBulk <$> ws = l1 ++ m :: l2 ->
    exists ws1 w ws2, ws = ws1 ++ w :: ws2 /\ l1 = RBulk <$> ws1 /\ m = RBulk w).
  { intros l1 m l2 (ws1 & ws2' & -> & E & ->)%fmap_app_inv. symmetry in E.
    apply fmap_cons_inv in E as (w & ws2 & -> & -> & ->). by exists ws1, w, ws2. }
  assert (Hz : zlen (RBulk <$> ws) = zlen ws) by (unfold zlen; by rewrite length_fmap).
  inversion Hcut as [| | | | | | |l0 p Hp El Ep|l1 m l2 El Ep|l1 m l2 p Hm El Ep].
  - right. subst rest. at_byte Hb. rewrite Hz in Hp.
    rewrite (at_minus_cut buf (pre ++ ["*"%char]) p (zlen pre + 1) ltac:(subst; app_eq) ltac:(zlen_lia) (zlen ws)),
      bind_lift_Ret by (done || apply zlen_nonneg).
    by rewrite (btou_cut buf (pre ++ ["*"%char]) p (zlen pre + 1) ltac:(subst; app_eq) ltac:(zlen_lia) (str (zlen ws)))
      by (done || apply str_no_CR).
  - left. destruct (Hwords _ _ _ (eq_sym El)) as (ws1 & w & ws2 & -> & -> & ->).
    rewrite El, Hz, flat_map_bulk in Ep. subst rest.
    destruct (cut_request_array t buf pre ws1 w ws2 [] fuel l g s) as (s1 & fuel' & Hf' & ->);
      try done; [by rewrite app_nil_r|rewrite app_nil_r; lia|].
    destruct fuel' as [|fuel']; [lia|]. rewrite parse_elements_S, <- Hb, Z.eqb_refl, andb_false_r. by eexists.
  - right. destruct (Hwords _ _ _ (eq_sym El)) as (ws1 & w & ws2 & -> & -> & ->).
    rewrite El, Hz, flat_map_bulk in Ep. subst rest.
    destruct (cut_request_array t buf pre ws1 w ws2 p fuel l g s) as (s1 & fuel' & Hf' & ->); try done; [lia|].
    destruct fuel' as [|fuel']; [lia|]. rewrite parse_elements_S.
    assert (0 < zlen p) by (inversion Hm; try zlen_lia; unfold header; zlen_lia).
    rewrite (proj2 (Z.ltb_lt _ _)) by zlen_lia.
    rewrite (proj2 (Z.eqb_neq _ _)) by (rewrite Hb, !zlen_app; lia). cbn [andb negb].
    destruct fuel' as [|fuel']; [lia|]. unfold mbind, M_bind.
    erewrite cut_bulk_parse; [done|exact Hm|rewrite Hb; by rewrite <- !app_assoc|done|].
    rewrite encode_request, flat_map_app, !zlen_app in Hlen. cbn in Hlen. rewrite zlen_app in Hlen.
    pose_zlen_nonneg. lia.
Qed.

(** ** Streams of requests *)

(** A request the proxy can serve, and the group it stands for. *)
Definition serves (t : CommandTables) (ws : list bytes) (g : spawned) : Prop :=
  request_size_ok ws /\ command_spec t ws = Ret g.

(** [rest] is nothing, or such a request that was interrupted. *)
Definition open_request (t : CommandTables) (rest : bytes) : Prop :=
  rest = [] \/ exists ws g, cut (request ws) rest /\ serves t ws g /\ zlen (encode (request ws)) < 2 ^ 63.

Lemma wf_request ws : wf (request ws) = true.
Proof. cbn. apply forallb_forall. intros m Hm. apply list_elem_of_In, list_elem_of_fmap in Hm as (w & -> & _). done. Qed.

Lemma wf_requests cmds : Forall (fun m => wf m = true) (request <$> cmds).
Proof. apply Forall_fmap, Forall_true. apply wf_request. Qed.

Lemma interrupt_point_at {F} (s : Splitter F) ms :
  _split_points s = 0 :: points 0 ms -> interrupt_point s = zlen (flat_map encode ms).
Proof. intros H. unfold interrupt_point. rewrite H, points_last. by destruct ms. Qed.

Lemma truncate_app a b : truncate_from_begin (a ++ b) (zlen a) = b.
Proof. unfold truncate_from_begin, zlen. by rewrite Nat2Z.id, drop_app_length. Qed.

Lemma split_client_command_spec t cmds gs rest :
  tables_ok t -> Forall2 (serves t) cmds gs -> open_request t rest ->
  let buf := flat_map encode (request <$> cmds) ++ rest in
  zlen buf < 2 ^ 63 -> split_client_command t buf = (Ret tt, (gs, rest)).
Proof.
  intros Ht Hg Hrest buf Hbuf.
  assert (Hsz : Forall request_size_ok cmds) by (eapply Forall2_Forall_l; [exact Hg|]; apply Forall_true; by intros ? ? []).
  assert (Hsp : Forall2 (fun ws g => command_spec t ws = Ret g) cmds gs)
    by (eapply Forall2_impl; [exact Hg|]; by intros ? ? []).
  destruct (walk_requests t buf cmds gs rest Ht Hsz Hsp [] [] (new_splitter (new_client_splitter t)))
    as (s & Hw & Hf); [done..|]. cbn [app] in Hw, Hf.
  destruct (walked_base buf (request <$> cmds) (new_client_splitter t) s Hw) as (Hi & Hn & Hs).
  { subst buf. rewrite zlen_app in Hbuf. pose_zlen_nonneg. lia. }
  pose proof (length_flat_map_encode (request <$> cmds)) as Hle.
  unfold split_client_command, split_client_command_fuel, split_run, try_catch, msg_fuel.
  rewrite (parse_all_app buf (request <$> cmds) (wf_requests cmds) Hbuf [] rest);
    [|done|subst buf; rewrite length_app; lia].
  rewrite (bind_Ret _ _ _ _ _ Hw).
  assert (Hfl : length buf = (length (flat_map encode (request <$> cmds)) + length rest)%nat)
    by (subst buf; by rewrite length_app).
  destruct (S (S (length buf)) - length (request <$> cmds))%nat as [|fuel] eqn:E; [lia|].
  rewrite parse_all_S. destruct Hrest as [->|(ws & g & Hcut & [Hsw Hsg] & Hlen)].
  { replace (zlen (flat_map encode (request <$> cmds)) =? zlen buf) with true
      by (subst buf; rewrite app_nil_r; by rewrite Z.eqb_refl).
    cbn. rewrite Hf. unfold finished. by rewrite Hn, Hi. }
  assert (length rest > 0)%nat by (inversion Hcut; cbn; lia).
  rewrite (proj2 (Z.eqb_neq _ _)) by (unfold zlen; lia).
  destruct (cut_request_parse t ws rest buf (flat_map encode (request <$> cmds)) (S fuel) gs g s
              Hcut Ht Hsw Hsg) as [[p Hp]|Hp]; try done; try lia;
    pose proof (cut_parse _ _ Hcut (wf_request ws) buf _ (S fuel) s eq_refl Hbuf Hlen ltac:(lia)) as Hst;
    destruct (client_parse_grows (S fuel) buf (zlen (flat_map encode (request <$> cmds))) s) as (extra & He & Hx);
    unfold stopped in Hst; rewrite Hp in Hst; unfold mbind, M_bind;
    destruct (parse (S fuel) buf (zlen (flat_map encode (request <$> cmds))) s) as [o s1];
    cbn [fst snd] in *; subst o.
  - destruct Hst as (-> & Hi1 & Hs1 & Hn1). destruct fuel as [|fuel]; [lia|].
    rewrite parse_all_S, Z.eqb_refl. cbn. rewrite Hs1 in Hx. destruct extra; [|cbn in Hx; lia].
    rewrite He, Hf, app_nil_r. unfold finished. rewrite bool_decide_false by done. cbn.
    rewrite (interrupt_point_at s1 (request <$> cmds)) by by rewrite Hs1. unfold buf. by rewrite truncate_app.
  - destruct Hst as [Hi1 Hs1]. cbn. rewrite Hs1 in Hx. destruct extra; [|cbn in Hx; lia].
    rewrite He, Hf, app_nil_r. unfold finished. cbn. rewrite andb_false_r.
    change (default 0 (last (_split_points s1))) with (interrupt_point s1).
    rewrite (interrupt_point_at s1 (request <$> cmds)) by by rewrite Hs1. unfold buf. by rewrite truncate_app.
Qed.

(** ** Requests that arrive in pieces

    [receive_commands]: each piece is appended to what the last call left in the
    buffer, as [Client::_read_request] does with [_buffer]. *)
Fixpoint receive_commands (t : CommandTables) (buffer : bytes) (pieces : list bytes) :
    outcome (list spawned * bytes) :=
  match pieces with
  | [] => Ret ([], buffer)
  | p :: pieces' =>
    let '(o, (gs, rest)) := split_client_command t (buffer ++ p) in
    _ ← o;
    '(gs', rest') ← receive_commands t rest pieces';
    Ret (gs ++ gs', rest')
  end.

(** No prefix of a request ends with the marker of an integer. *)
Lemma request_no_marker ws p : ~ marker_cut (request ws) p.
Proof.
  unfold request. intros H. inversion H as [|l1 m l2 q Hm El]; subst.
  assert (Hin : m ∈ RBulk <$> ws) by (rewrite <- El; set_solver).
  apply list_elem_of_fmap in Hin as (w & -> & _). inversion Hm.
Qed.

(** A prefix of a stream of requests: whole requests and an interrupted one. *)
Lemma requests_prefix t p more cmds gs :
  p ++ more = flat_map encode (request <$> cmds) -> Forall2 (serves t) cmds gs ->
  zlen (flat_map encode (request <$> cmds)) < 2 ^ 63 ->
  exists cmds1 cmds2 gs1 gs2 q,
    cmds = cmds1 ++ cmds2 /\ gs = gs1 ++ gs2 /\
    Forall2 (serves t) cmds1 gs1 /\ Forall2 (serves t) cmds2 gs2 /\
    p = flat_map encode (request <$> cmds1) ++ q /\
    q ++ more = flat_map encode (request <$> cmds2) /\ open_request t q /\
    (more = [] -> q = []).
Proof.
  intros Hp Hg Hl. destruct (decide (more = [])) as [->|Hmore].
  { exists cmds, [], gs, [], []. rewrite !app_nil_r in *. repeat split; auto; by left. }
  destruct (strict_prefix_values p (request <$> cmds)) as (l1 & m & l2 & q & El & -> & Hq).
  { by exists more. }
  apply fmap_app_inv in El as (cmds1 & cmds2 & -> & E & ->). symmetry in E.
  apply fmap_cons_inv in E as (ws & cmds3 & -> & -> & ->).
  apply Forall2_app_inv_l in Hg as (gs1 & gs2 & Hg1 & Hg2 & ->).
  exists cmds1, (ws :: cmds3), gs1, gs2, q. rewrite fmap_app, flat_map_app, <- app_assoc in Hp.
  apply app_inv_head in Hp. do 6 (split; [done|]). split; [|done].
  destruct (decide (q = [])) as [->|Hne]; [by left|]. right.
  inversion Hg2 as [|? g ? gs3 Hs]; subst. exists ws, g. split; [|split; [done|]].
  - destruct (prefix_is_cut _ q Hne Hq) as [Hc|Hc]; [done|]. by apply request_no_marker in Hc.
  - rewrite fmap_app, flat_map_app, zlen_app in Hl. cbn [fmap list_fmap flat_map] in Hl.
    rewrite zlen_app in Hl. pose_zlen_nonneg. lia.
Qed.

Lemma receive_requests t pieces : tables_ok t -> forall buffer cmds gs,
  buffer ++ concat pieces = flat_map encode (request <$> cmds) -> Forall2 (serves t) cmds gs ->
  zlen (flat_map encode (request <$> cmds)) < 2 ^ 63 ->
  (concat pieces = [] -> buffer = []) ->
  receive_commands t buffer pieces = Ret (gs, []).
Proof.
  intros Ht. induction pieces as [|p pieces IH]; intros buffer cmds gs Hb Hg Hl He;
    cbn [concat receive_commands] in *.
  { specialize (He eq_refl) as ->. cbn in Hb. destruct Hg as [|ws g cmds gs]; [done|].
    pose proof (encode_ne (request ws)). cbn [fmap list_fmap flat_map] in Hb. by destruct (encode (request ws)). }
  rewrite app_assoc in Hb.
  destruct (requests_prefix t _ _ _ _ Hb Hg Hl)
    as (cmds1 & cmds2 & gs1 & gs2 & q & -> & -> & Hg1 & Hg2 & Hq & Hrest & Ho & Hend).
  rewrite fmap_app, flat_map_app, zlen_app in Hl. pose_zlen_nonneg.
  rewrite Hq, (split_client_command_spec t cmds1 gs1 q); [|done..|].
  2: { apply (f_equal zlen) in Hrest. rewrite !zlen_app in *. pose_zlen_nonneg. lia. }
  cbn [mbind outcome_bind]. by rewrite (IH q cmds2 gs2); [|done|done|lia|].
Qed.

(** C5. Requests are reassembled and classified: however the kernel cuts a client's
    stream of requests into reads, the groups pushed to the client are exactly those the
    specification gives to the requests, in order and each once, and nothing is left in
    the buffer.  The specification says, word by word, which command goes to which slot,
    how MGET, DEL, MSET and RENAME are split and what is refused. *)
Theorem requests_reassembled (t : CommandTables) (cmds : list (list bytes)) (gs : list spawned)
    (pieces : list bytes) :
  t = initial_tables \/ t = allow_write_commands initial_tables ->
  Forall2 (serves t) cmds gs ->
  zlen (flat_map encode (request <$> cmds)) < 2 ^ 63 ->
  concat pieces = flat_map encode (request <$> cmds) ->
  receive_commands t [] pieces = Ret (gs, []).
Proof.
  intros Ht Hg Hl Hc. apply (receive_requests t pieces) with (cmds := cmds); [|done..].
  destruct Ht as [-> | ->]; auto using initial_tables_ok, write_tables_ok.
Qed.

Definition sample_requests : list (list bytes) :=
  [s2b <$> ["mget"; "a"; "b"]; s2b <$> ["set"; "k"; "v"]].

Definition sample_groups : list spawned :=
  [SpMulti MGetGroup [(crlf_lines ["*2"; "$3"; "GET"; "$1"; "a"], 15495); (crlf_lines ["*2"; "$3"; "GET"; "$1"; "b"], 3300)];
   SpSingle (crlf_lines ["*3"; "$3"; "set"; "$1"; "k"; "$1"; "v"]) 7629].

Lemma requests_reassembled_witness :
  receive_commands (allow_write_commands initial_tables) []
    [crlf_lines ["*3"; "$4"; "mget"; "$1"; "a"] ++ s2b "$"; crlf_lines ["1"; "b"; "*3"; "$3"]; crlf_lines ["set"; "$1"; "k"; "$1"; "v"]] =
  Ret (sample_groups, []).
Proof.
  apply (requests_reassembled _ sample_requests).
  - right; reflexivity.
  - repeat constructor; vm_compute; first [discriminate | reflexivity].
  - vm_compute. reflexivity.
  - vm_compute. reflexivity.
Defined.
