(* ===== verification/Logic.v ===== *)
(** * A program logic for the operations on objects

    [wp c Q E s]: run from [s], the computation [c] returns with [Q] or throws with [E];
    it never uses an object that was deleted, long connections excepted.  [wp] says
    nothing of runs that leave a container's bounds, dereference a null pointer or do not
    end: those are the subject of other theorems.  [preserves I c]: [c] keeps the invariant
    [I], whether it returns or throws. *)
From S2P Require Import Prelude.

Definition tolerated (k : ub) : Prop :=
  match k with
  | OutOfRange | NullPointer | Overflow | Dangling ALongConnection => True
  | Dangling _ => False
  end.

Definition wp {S A} (c : M S A) (Q : A -> S -> Prop) (E : S -> Prop) (s : S) : Prop :=
  match c s with
  | (Ret a, s') => Q a s'
  | (Throw _, s') => E s'
  | (UB k, _) => tolerated k
  | (NoFuel, _) => True
  end.

Definition preserves {S A} (I : S -> Prop) (c : M S A) : Prop := forall s, I s -> wp c (fun _ => I) I s.

Section Rules.
Context {S : Type}.
Implicit Types (s : S).

Lemma wp_bind {A B} (c : M S A) (f : A -> M S B) Q E s :
  wp c (fun a => wp (f a) Q E) E s -> wp (c ≫= f) Q E s.
Proof. unfold wp, mbind, M_bind. by destruct (c s) as [[] ?]. Qed.

(** The first two of three computations. *)
Lemma wp_assoc {A B D} (c : M S A) (f : A -> M S B) (k : B -> M S D) Q E s :
  wp (c ≫= f) (fun b => wp (k b) Q E) E s -> wp (c ≫= fun a => f a ≫= k) Q E s.
Proof. unfold wp, mbind, M_bind. destruct (c s) as [[a|e|u|] s']; [|done..]. by destruct (f a s') as [[] ?]. Qed.

Lemma wp_mono {A} (c : M S A) (Q Q' : A -> S -> Prop) (E E' : S -> Prop) s :
  wp c Q E s -> (forall a s', Q a s' -> Q' a s') -> (forall s', E s' -> E' s') -> wp c Q' E' s.
Proof. unfold wp. destruct (c s) as [[] ?]; eauto. Qed.

Lemma wp_ret {A} (a : A) (Q : A -> S -> Prop) E s : Q a s -> wp (mret a) Q E s.
Proof. done. Qed.

Lemma wp_gets {A} (f : S -> A) (Q : A -> S -> Prop) E s : Q (f s) s -> wp (gets f) Q E s.
Proof. done. Qed.

Lemma wp_modify (f : S -> S) (Q : unit -> S -> Prop) E s : Q tt (f s) -> wp (modify f) Q E s.
Proof. done. Qed.

Lemma wp_throw {A} e (Q : A -> S -> Prop) (E : S -> Prop) s : E s -> wp (throw e) Q E s.
Proof. done. Qed.

Lemma wp_undefined {A} (Q : A -> S -> Prop) (E : S -> Prop) s : wp undefined Q E s.
Proof. done. Qed.

Lemma wp_null_pointer {A} (Q : A -> S -> Prop) (E : S -> Prop) s : wp null_pointer Q E s.
Proof. done. Qed.

(** A lifted outcome that is not a use after free. *)
Lemma wp_lift {A} (o : outcome A) (Q : A -> S -> Prop) (E : S -> Prop) s :
  (forall k, o = UB k -> tolerated k) -> (forall a, o = Ret a -> Q a s) -> E s -> wp (lift o) Q E s.
Proof. unfold wp, lift. destruct o; eauto. Qed.

Lemma wp_when (b : bool) (c : M S unit) Q E s :
  (b = true -> wp c Q E s) -> (b = false -> Q tt s) -> wp (when b c) Q E s.
Proof. destruct b; cbn; auto. Qed.

Lemma wp_if {A} (b : bool) (c d : M S A) Q E s :
  (b = true -> wp c Q E s) -> (b = false -> wp d Q E s) -> wp (if b then c else d) Q E s.
Proof. destruct b; auto. Qed.

(** A loop: [P] speaks of the elements that are left. *)
Lemma wp_for_each {A} (P : list A -> S -> Prop) (l : list A) (body : A -> M S unit) (Q : unit -> S -> Prop) E s :
  P l s ->
  (forall x l' s', P (x :: l') s' -> wp (body x) (fun _ => P l') E s') ->
  (forall s', P [] s' -> Q tt s') -> wp (for_each l body) Q E s.
Proof.
  intros HP Hbody HQ. revert s HP. induction l as [|x l IH]; intros s HP; [by apply HQ|].
  apply wp_bind. eapply wp_mono; [by apply Hbody| |done]. intros [] s' HP'. by apply IH.
Qed.

Lemma wp_try_catch {A} (c : M S A) (h : exn -> option (M S A)) (Q : A -> S -> Prop) (E E' : S -> Prop) s :
  wp c Q E' s ->
  (forall e k s', h e = Some k -> E' s' -> wp k Q E s') -> (forall s', E' s' -> E s') ->
  wp (try_catch c h) Q E s.
Proof.
  unfold wp, try_catch. intros Hc Hh HE. destruct (c s) as [[a|e|k|] s']; try done.
  destruct (h e) as [k|] eqn:Eh; [by eapply Hh|by apply HE].
Qed.

Lemma wp_preserves {A} (I : S -> Prop) (c : M S A) (Q : A -> S -> Prop) (E : S -> Prop) s :
  preserves I c -> I s -> (forall a s', I s' -> Q a s') -> (forall s', I s' -> E s') -> wp c Q E s.
Proof. intros Hc Hs HQ HE. eapply wp_mono; [by apply Hc|auto..]. Qed.

(** [preserves] follows the structure of a computation. *)
Section Preserves.
Context (I : S -> Prop).

Lemma preserves_ret {A} (a : A) : preserves I (mret a).
Proof. by intros s. Qed.
Lemma preserves_gets {A} (f : S -> A) : preserves I (gets f).
Proof. by intros s. Qed.
Lemma preserves_throw {A} e : preserves I (throw (A := A) e).
Proof. by intros s. Qed.

Lemma preserves_bind {A B} (c : M S A) (f : A -> M S B) :
  preserves I c -> (forall a, preserves I (f a)) -> preserves I (c ≫= f).
Proof. intros Hc Hf s Hs. apply wp_bind. eapply wp_preserves; [done..|auto]. Qed.

Lemma preserves_when b (c : M S unit) : preserves I c -> preserves I (when b c).
Proof. intros Hc. destruct b; [exact Hc|apply preserves_ret]. Qed.

Lemma preserves_for {A} (l : list A) (body : A -> M S unit) :
  (forall x, x ∈ l -> preserves I (body x)) -> preserves I (for_each l body).
Proof.
  intros Hb. induction l as [|x l IH]; [apply preserves_ret|].
  apply preserves_bind; [apply Hb; left|intros _; apply IH; intros; apply Hb; by right].
Qed.

Lemma preserves_try {A} (c : M S A) (h : exn -> option (M S A)) :
  preserves I c -> (forall e k, h e = Some k -> preserves I k) -> preserves I (try_catch c h).
Proof. intros Hc Hh s Hs. eapply wp_try_catch; [by apply Hc| |done]. intros e k s' He. by apply (Hh e). Qed.
End Preserves.
End Rules.

Create HintDb preserves discriminated.
#[export] Hint Resolve preserves_ret preserves_gets preserves_throw : preserves.

(** [preserves_step]: one step of the structure of a computation, with the operations of the
    database. *)
Ltac preserves_step :=
  first
    [ solve [eauto 3 with preserves nocore]
    | apply preserves_bind; [|intros ?]
    | apply preserves_when
    | apply preserves_for; intros ? ?
    | progress cbn [negb]
    | case_match ].
