(* ===== verification/Ends.v ===== *)
(** * The message splitters end

    A length that is read as a negative number takes [parse] back, and it may never end
    ([Stream.split_diverges]).  Here is the other half: on any other bytes, well formed or not, every
    call of [parse] consumes at least one byte, so that the splitters end. *)
From S2P Require Import Prelude Strings OrderedSet Address SlotCalc Message Response CommandParser.
#[local] Open Scope Z_scope.

(** ** Lengths *)

(** The length of a bulk string or of an array at [p], if there is one, is not negative. *)
Definition length_ok (buf : bytes) (p : Z) : bool :=
  match deref buf p with
  | Ret b =>
    if Ascii.eqb b "$"%char || Ascii.eqb b "*"%char then
      match at_minus buf (p + 1), btou buf (p + 1) with
      | Ret false, Ret (v, _) => 0 <=? v
      | _, _ => true
      end
    else true
  | _ => true
  end.

Definition lengths_ok (buf : bytes) : bool := forallb (fun i => length_ok buf (Z.of_nat i)) (seq 0 (length buf)).

Lemma lengths_ok_at buf p b v q :
  lengths_ok buf = true -> deref buf p = Ret b -> Ascii.eqb b "$"%char || Ascii.eqb b "*"%char = true ->
  at_minus buf (p + 1) = Ret false -> btou buf (p + 1) = Ret (v, q) -> 0 <= v.
Proof.
  intros Hl Hb Hm Ha Hv. unfold lengths_ok in Hl. rewrite forallb_forall in Hl.
  assert (Hp : 0 <= p < zlen buf).
  { unfold deref in Hb. destruct (Z.leb_spec 0 p); [|done]. destruct (buf !! Z.to_nat p) eqn:E; [|done]. apply lookup_lt_Some in E. unfold zlen. lia. }
  specialize (Hl (Z.to_nat p)). rewrite Z2Nat.id in Hl by lia. unfold length_ok in Hl. rewrite Hb, Hm, Ha, Hv in Hl.
  apply Z.leb_le, Hl, in_seq. unfold zlen in Hp. lia.
Qed.

(** ** Where the readers stop *)

Lemma tail_at_length buf b rest : tail_at buf b = Ret rest -> 0 <= b /\ b + zlen rest = zlen buf.
Proof.
  unfold tail_at, slice. destruct (_ && _) eqn:E; [|done]. intros [= <-].
  apply andb_true_iff in E as [[H1%Z.leb_le H2%Z.leb_le]%andb_true_iff _].
  unfold zlen in *. rewrite length_take, length_drop. lia.
Qed.

Lemma btou_loop_stop rest pos i v q : btou_loop rest pos i = Ret (v, q) -> pos + 2 <= q <= pos + zlen rest.
Proof.
  revert pos i. induction rest as [|b rest IH]; intros pos i; [done|]. cbn [btou_loop]. rewrite zlen_cons. destruct (Ascii.eqb b CR).
  - destruct rest; [done|]. intros [= _ <-]. rewrite zlen_cons. pose_zlen_nonneg. lia.
  - intros H%IH. lia.
Qed.

Lemma btou_stop buf b v q : btou buf b = Ret (v, q) -> b + 2 <= q <= zlen buf.
Proof. unfold btou. destruct (tail_at buf b) as [rest| | |] eqn:E; try done. apply tail_at_length in E as [_ E]. intros H%btou_loop_stop. lia. Qed.

Lemma btoi_stop buf b v q : btoi buf b = Ret (v, q) -> b < q <= zlen buf.
Proof.
  unfold btoi. destruct (deref buf b) as [c| | |]; try done. cbn. destruct (Ascii.eqb c "-"%char); [|intros H%btou_stop; lia].
  destruct (btou buf (b + 1)) as [[v' q']| | |] eqn:E; try done. intros [= _ <-]. apply btou_stop in E. lia.
Qed.

Lemma simple_str_stop buf b q : parse_simple_str buf b = Ret q -> b < q <= zlen buf.
Proof.
  unfold parse_simple_str. destruct (tail_at buf b) as [rest| | |] eqn:E; try done. apply tail_at_length in E as [_ E]. cbn.
  assert (H : forall pos, simple_str_loop rest pos = Ret q -> pos < q <= pos + zlen rest); [|intros Hq%H; lia]. clear E.
  induction rest as [|c rest IH]; intros pos; [done|]. cbn [simple_str_loop]. rewrite zlen_cons. destruct (Ascii.eqb c CR).
  - destruct rest; [done|]. intros [= <-]. rewrite zlen_cons. pose_zlen_nonneg. lia.
  - intros H%IH. lia.
Qed.

Lemma pass_nil_stop buf b q : pass_nil buf b = Ret q -> b < q <= zlen buf.
Proof.
  unfold pass_nil. destruct (tail_at buf b) as [rest| | |] eqn:E; try done. apply tail_at_length in E as [_ E]. cbn.
  destruct rest as [|x [|y [|z rest]]]; try done. intros [= <-]. rewrite !zlen_cons in E. pose_zlen_nonneg. lia.
Qed.

(** ** Computations that end *)

(** [c] does not run out of fuel, and what it returns is in [Q]. *)
Definition ends {S A} (c : M S A) (Q : A -> Prop) : Prop :=
  forall s, match (c s).1 with Ret a => Q a | NoFuel => False | _ => True end.

Lemma ends_bind {S A B} (c : M S A) (f : A -> M S B) P Q : ends c P -> (forall a, P a -> ends (f a) Q) -> ends (c ≫= f) Q.
Proof.
  intros Hc Hf s. specialize (Hc s). unfold mbind, M_bind. destruct (c s) as [[a|e|k|] s']; try done. by apply Hf.
Qed.
Lemma ends_ret {S A} (a : A) (Q : A -> Prop) : Q a -> ends (S := S) (mret a) Q.
Proof. by intros Ha s. Qed.
Lemma ends_gets {S A} (f : S -> A) (Q : A -> Prop) : (forall s, Q (f s)) -> ends (gets f) Q.
Proof. intros HQ s. apply HQ. Qed.
Lemma ends_lift {S A} (o : outcome A) (Q : A -> Prop) : o <> NoFuel -> (forall a, o = Ret a -> Q a) -> ends (S := S) (lift o) Q.
Proof. intros Ho HQ s. cbn. destruct o; auto. Qed.
Lemma ends_mono {S A} (c : M S A) (P Q : A -> Prop) : ends c P -> (forall a, P a -> Q a) -> ends c Q.
Proof. intros Hc HQ s. specialize (Hc s). destruct (c s) as [[] s']; cbn in *; auto. Qed.

Abbreviation halts c := (ends c (fun _ => True)).

Lemma ends_then {S A B} (c : M S A) (d : M S B) Q : halts c -> ends d Q -> ends (c ;; d) Q.
Proof. intros Hc Hd. eapply ends_bind; [exact Hc|done]. Qed.

(** Functions into [outcome] that end. *)
Ltac outcome_ends :=
  repeat match goal with
  | |- Ret _ <> NoFuel => discriminate
  | |- Throw _ <> NoFuel => discriminate
  | |- UB _ <> NoFuel => discriminate
  | H : ?x <> NoFuel |- ?x <> NoFuel => exact H
  | |- (?o ≫= _) <> NoFuel => let H := fresh in assert (H : o <> NoFuel); [|destruct o; cbn [mbind outcome_bind]; [clear H|discriminate..|by destruct H]]
  | |- _ => progress cbn [fst snd]
  | |- _ => case_match
  end.

Lemma deref_ends buf p : deref buf p <> NoFuel.
Proof. unfold deref. outcome_ends. Qed.
Lemma slice_ends buf b e : slice buf b e <> NoFuel.
Proof. unfold slice. outcome_ends. Qed.
Lemma btou_loop_ends rest pos i : btou_loop rest pos i <> NoFuel.
Proof. revert pos i. induction rest; intros; cbn [btou_loop]; outcome_ends; auto. Qed.
Lemma simple_str_loop_ends rest pos : simple_str_loop rest pos <> NoFuel.
Proof. revert pos. induction rest; intros; cbn [simple_str_loop]; outcome_ends; auto. Qed.
Lemma pass_nil_loop_ends n rest pos : pass_nil_loop n rest pos <> NoFuel.
Proof. revert rest pos. induction n; intros [|b rest] pos; cbn [pass_nil_loop]; outcome_ends; auto. Qed.

Lemma btou_ends buf b : btou buf b <> NoFuel.
Proof. unfold btou, tail_at. pose proof (slice_ends buf b (zlen buf)). outcome_ends. apply btou_loop_ends. Qed.
Lemma btoi_ends buf b : btoi buf b <> NoFuel.
Proof. unfold btoi. pose proof (deref_ends buf b). pose proof (btou_ends buf (b + 1)). pose proof (btou_ends buf b). outcome_ends. Qed.
Lemma parse_simple_str_ends buf b : parse_simple_str buf b <> NoFuel.
Proof. unfold parse_simple_str, tail_at. pose proof (slice_ends buf b (zlen buf)). outcome_ends. apply simple_str_loop_ends. Qed.
Lemma pass_nil_ends buf b : pass_nil buf b <> NoFuel.
Proof. unfold pass_nil, tail_at. pose proof (slice_ends buf b (zlen buf)). outcome_ends. apply pass_nil_loop_ends. Qed.
Lemma at_minus_ends buf b : at_minus buf b <> NoFuel.
Proof. unfold at_minus. pose proof (deref_ends buf b). outcome_ends. Qed.

(** ** The splitter *)

Class EndingHooks (F : Type) `{!SplitterHooks F} : Prop := {
  string_halts buf b e : halts (on_string (F := F) buf b e);
  error_halts buf b e : halts (on_error (F := F) buf b e);
  split_point_halts buf p : halts (on_split_point (F := F) buf p);
  array_halts n : halts (on_array (F := F) n)
}.

Section Splitter.
Context {F : Type} `{!SplitterHooks F, !EndingHooks F}.

Lemma on_element_halts buf p : halts (on_element (F := F) buf p).
Proof.
  unfold on_element. eapply ends_bind; [by apply (ends_gets _ (fun _ => True))|]. intros counts _. destruct (count_element counts) as [counts' top].
  apply ends_then; [by intros s|]. destruct top; [|by intros s]. apply ends_then; [apply split_point_halts|by intros s].
Qed.

Lemma on_arr_halts buf size p : halts (on_arr (F := F) buf size p).
Proof. unfold on_arr. eapply ends_then; [apply array_halts|]. case_match; [apply on_element_halts|done]. Qed.

(** From [begin]: the end of the buffer, or a place behind [begin]. *)
Definition moves (buf : bytes) (begin next : Z) : Prop := begin < next <= zlen buf \/ begin = zlen buf /\ next = zlen buf.

Lemma element_moves buf begin next : moves buf begin next -> ends (on_element (F := F) buf next ;; mret next) (moves buf begin).
Proof. intros Hm. eapply ends_then; [apply on_element_halts|by apply ends_ret]. Qed.

(** A simple string or an error. *)
Lemma simple_moves buf begin (hook : Z -> M (Splitter F) unit) :
  (forall e, halts (hook e)) ->
  ends (next ← lift (parse_simple_str buf (begin + 1)); hook (next - LENGTH_OF_CR_LF) ;; on_element buf next ;; mret next) (moves buf begin).
Proof.
  intros Hh. eapply ends_bind; [apply ends_lift; [apply parse_simple_str_ends|]; intros q; apply simple_str_stop|].
  intros q Hq. cbv beta in Hq. eapply ends_then; [apply Hh|]. apply element_moves. left. lia.
Qed.

Lemma nil_moves buf begin : ends (next ← lift (pass_nil buf (begin + 1 + 1)); on_nil (F := F) buf next) (moves buf begin).
Proof.
  eapply ends_bind; [apply ends_lift; [apply pass_nil_ends|]; intros q; apply pass_nil_stop|].
  intros q Hq. cbv beta in Hq. apply element_moves. left. lia.
Qed.

(** The length at [begin + 1], which follows a marker at [begin]. *)
Lemma length_read buf begin b :
  lengths_ok buf = true -> deref buf begin = Ret b -> Ascii.eqb b "$"%char || Ascii.eqb b "*"%char = true -> at_minus buf (begin + 1) = Ret false ->
  ends (S := Splitter F) (lift (btou buf (begin + 1))) (fun r => 0 <= r.1 /\ begin + 3 <= r.2 <= zlen buf).
Proof.
  intros Hl Hb Hm Ha. apply ends_lift; [apply btou_ends|]. intros [v q] Hv. cbn. pose proof (btou_stop _ _ _ _ Hv).
  split; [by eapply lengths_ok_at|lia].
Qed.

Lemma parse_moves buf fuel : lengths_ok buf = true ->
  (forall begin, 0 <= begin <= zlen buf -> zlen buf - begin < Z.of_nat fuel -> ends (parse (F := F) fuel buf begin) (moves buf begin)) /\
  (forall i n begin, 0 <= begin <= zlen buf -> zlen buf - begin + 1 < Z.of_nat fuel ->
    ends (parse_elements (F := F) fuel buf i n begin) (fun next => begin <= next <= zlen buf)).
Proof.
  intros Hl. induction fuel as [|fuel [IH1 IH2]]; (split; [intros begin Hb Hf|intros i n begin Hb Hf]); try lia.
  - rewrite parse_S. destruct (Z.eqb_spec begin (zlen buf)) as [->|Hne]; [apply ends_ret; by right|].
    eapply ends_bind; [apply (ends_lift _ (fun b => deref buf begin = Ret b)); [apply deref_ends|done]|]. intros b Hd. cbv beta zeta.
    destruct (Ascii.eqb b ":"%char).
    { eapply (ends_bind _ _ (fun r => begin + 1 < r.2 <= zlen buf)).
      { apply ends_lift; [apply btoi_ends|]. intros [v q]. apply btoi_stop. }
      intros r Hq. apply element_moves. left. lia. }
    destruct (Ascii.eqb b "+"%char); [apply simple_moves; intros; apply string_halts|].
    destruct (Ascii.eqb b "$"%char) eqn:E1; [|destruct (Ascii.eqb b "*"%char) eqn:E2].
    + eapply ends_bind; [apply (ends_lift _ (fun a => at_minus buf (begin + 1) = Ret a)); [apply at_minus_ends|done]|]. intros [|] Ha; [apply nil_moves|].
      eapply ends_bind; [eapply (length_read _ _ b); [exact Hl|exact Hd|by rewrite E1|exact Ha]|]. intros [v q] Hq. cbn in Hq. unfold on_lstr, parse_str. cbn [fst snd].
      eapply (ends_bind _ _ (fun l => l = q + v + LENGTH_OF_CR_LF /\ l <= zlen buf)).
      { apply ends_lift; [by case_match|]. intros l. destruct (Z.ltb_spec (zlen buf) (q + v + LENGTH_OF_CR_LF)); [done|]. by intros [= <-]. }
      intros l [-> Hle]. eapply ends_then; [apply string_halts|]. apply element_moves. left. unfold LENGTH_OF_CR_LF in *. lia.
    + eapply ends_bind; [apply (ends_lift _ (fun a => at_minus buf (begin + 1) = Ret a)); [apply at_minus_ends|done]|]. intros [|] Ha; [apply nil_moves|].
      eapply ends_bind; [eapply (length_read _ _ b); [exact Hl|exact Hd|by rewrite E2, orb_true_r|exact Ha]|]. intros [v q] Hq. cbn in Hq. cbn [fst snd].
      eapply ends_then; [apply on_arr_halts|]. eapply ends_mono; [apply IH2; lia|]. intros next Hn. cbv beta in Hn. left. lia.
    + destruct (Ascii.eqb b "-"%char); [apply simple_moves; intros; apply error_halts|]. by intros s.
  - rewrite parse_elements_S. destruct (_ && _) eqn:E; [|apply ends_ret; lia]. apply andb_true_iff in E as [_ Hne%negb_true_iff%Z.eqb_neq].
    eapply ends_bind; [apply IH1; lia|]. intros next [Hn|[-> ->]]; [|done]. eapply ends_mono; [apply IH2; lia|]. intros m Hm. cbv beta in Hm. lia.
Qed.

Lemma parse_all_halts buf fuel begin :
  lengths_ok buf = true -> 0 <= begin <= zlen buf -> zlen buf - begin < Z.of_nat fuel -> halts (parse_all (F := F) fuel buf begin).
Proof.
  intros Hl. revert begin. induction fuel as [|fuel IH]; intros begin Hb Hf; [lia|]. cbn [parse_all].
  destruct (Z.eqb_spec begin (zlen buf)) as [->|Hne]; [by apply ends_ret|].
  eapply ends_bind; [apply (parse_moves buf (S fuel) Hl); lia|]. intros next [Hn|[-> _]]; [apply IH; lia|done].
Qed.

Lemma split_run_halts buf : lengths_ok buf = true -> halts (split_run (F := F) (msg_fuel buf) buf).
Proof.
  intros Hl s. unfold split_run, try_catch. pose proof (parse_all_halts buf (msg_fuel buf) 0 Hl) as H.
  specialize (H ltac:(pose_zlen_nonneg; lia) ltac:(unfold msg_fuel, zlen; lia) s).
  destruct (parse_all _ buf 0 s) as [[a|[]|k|] s']; done.
Qed.

Lemma split_by_ends buf (s : Splitter F) : lengths_ok buf = true -> split_by (msg_fuel buf) buf s <> NoFuel.
Proof. intros Hl. unfold split_by. pose proof (split_run_halts buf Hl s) as H. by destruct (split_run _ _ _) as [[] s']. Qed.
End Splitter.

(** ** The three splitters *)

#[export] Instance plain_ending : EndingHooks unit.
Proof. split; intros; by intros s. Qed.

Lemma on_final_halts {F} (f : F -> outcome F) : (forall x, f x <> NoFuel) -> halts (on_final f).
Proof. intros Hf s. unfold on_final. specialize (Hf (final s)). by destruct (f (final s)). Qed.

Ltac halts_step :=
  repeat first
    [ solve [intros ?; exact I]
    | apply ends_lift; [solve [apply slice_ends]|done]
    | eapply (ends_bind _ _ (fun _ => True)); [|intros ? _]
    | case_match ].

#[export] Instance response_ending : EndingHooks ServerResponseSplitter.
Proof. split; intros; cbn [on_string on_error on_split_point on_array response_hooks]; unfold _push_rsp, _push_normal_rsp, _push; halts_step. Qed.

Lemma split_server_response_ends buf : lengths_ok buf = true -> split_server_response buf <> NoFuel.
Proof.
  intros Hl. unfold split_server_response, split_server_response_fuel. pose proof (split_by_ends buf (new_splitter (mkRSplitter [] [])) Hl) as H.
  by destruct (split_by _ _ _).
Qed.

(** ** The parsers of commands *)

Lemma atoi_ends t : atoi t <> NoFuel.
Proof. unfold atoi. outcome_ends. Qed.

Lemma parser_on_str_ends buf p b e : parser_on_str buf p b e <> NoFuel.
Proof.
  pose proof (slice_ends buf b e). destruct p; cbn;
    unfold ping_on_str, set_remotes_on_str, each_key_on_str, mset_on_str, rename_on_str, blocked_on_str, eval_on_str,
      keys_in_slot_on_str; outcome_ends; apply atoi_ends.
Qed.

Lemma each_key_commands_ends buf h points slots : each_key_commands buf h points slots <> NoFuel.
Proof.
  revert points. induction slots as [|k slots IH]; intros [|p [|q points]]; cbn [each_key_commands]; try discriminate.
  pose proof (slice_ends buf p q). pose proof (IH (q :: points)). outcome_ends.
Qed.
Lemma mset_commands_ends buf points slots : mset_commands buf points slots <> NoFuel.
Proof.
  revert points. induction slots as [|k slots IH]; intros [|p [|p' [|q points]]]; cbn [mset_commands]; try discriminate.
  pose proof (slice_ends buf p q). pose proof (IH (q :: points)). outcome_ends.
Qed.

Lemma spawn_commands_ends buf p e : spawn_commands buf p e <> NoFuel.
Proof.
  destruct p; cbn;
    unfold each_key_spawn, mset_spawn, rename_spawn, subscribe_spawn, blocked_spawn, eval_spawn, publish_spawn, keys_in_slot_spawn;
    outcome_ends; auto using slice_ends, each_key_commands_ends, mset_commands_ends.
Qed.

#[export] Instance client_ending : EndingHooks ClientCommandSplitter.
Proof.
  split; intros; cbn.
  - apply on_final_halts. intros c. unfold client_on_string, select_command_parser. outcome_ends; auto using slice_ends, parser_on_str_ends.
  - by intros s.
  - apply on_final_halts. intros c. unfold client_on_split_point. outcome_ends; auto using slice_ends, spawn_commands_ends.
  - unfold client_on_array. halts_step.
Qed.

Lemma split_client_command_ends t buf : lengths_ok buf = true -> (split_client_command t buf).1 <> NoFuel.
Proof.
  intros Hl. unfold split_client_command, split_client_command_fuel.
  pose proof (split_run_halts buf Hl (new_splitter (new_client_splitter t))) as H. by destruct (split_run _ _ _) as [[] s].
Qed.
