(* ===== verification/Clean.v ===== *)
(** * Parsing and I/O do not touch objects

    The parsers, the splitters and the system calls may leave a buffer's bounds, but
    none of them follows a pointer to an object: their outcome is never the use of a
    deleted one. *)
From S2P Require Import Prelude Strings OrderedSet Address SlotCalc Message Buffer Response SlotMap CommandParser Logic.
#[local] Open Scope Z_scope.

Definition clean {A} (o : outcome A) : Prop := forall k, o = UB k -> tolerated k.
Definition cleans {S A} (c : M S A) : Prop := forall s, clean (c s).1.

Lemma clean_bind {A B} (o : outcome A) (f : A -> outcome B) : clean o -> (forall a, clean (f a)) -> clean (o ≫= f).
Proof. destruct o; cbn; auto. all: by intros H _ k' [= <-]; auto. Qed.

Lemma cleans_bind {S A B} (c : M S A) (f : A -> M S B) : cleans c -> (forall a, cleans (f a)) -> cleans (c ≫= f).
Proof.
  intros Hc Hf s. specialize (Hc s). unfold mbind, M_bind. destruct (c s) as [[] s']; cbn in *; [apply Hf|..]; intros k' Hk; simplify_eq.
  by apply Hc.
Qed.

Lemma cleans_lift {S A} (o : outcome A) : clean o -> cleans (lift (S := S) o).
Proof. intros Ho s. exact Ho. Qed.

Lemma cleans_when {S} b (c : M S unit) : cleans c -> cleans (when b c).
Proof. intros Hc. destruct b; [done|]. by intros s k [=]. Qed.

Lemma clean_Undefined {A} : clean (A := A) Undefined.
Proof. by intros k [= <-]. Qed.

Create HintDb clean discriminated.
#[export] Hint Resolve clean_Undefined : clean.
Ltac clean_step :=
  repeat first
    [ apply clean_bind; [|intros ?]
    | apply cleans_bind; [|intros ?]
    | apply cleans_lift
    | apply cleans_when
    | solve [eauto 2 with clean nocore]
    | solve [intros ? [=]]
    | solve [intros ? ? [=]]
    | case_match ].

(** ** Messages *)

Lemma deref_clean buf it : clean (deref buf it).
Proof. unfold deref. clean_step. Qed.
Lemma slice_clean buf b e : clean (slice buf b e).
Proof. unfold slice. clean_step. Qed.
#[export] Hint Resolve deref_clean slice_clean : clean.

Lemma btou_loop_clean rest pos i : clean (btou_loop rest pos i).
Proof. revert pos i. induction rest; intros; cbn; clean_step. Qed.
Lemma simple_str_loop_clean rest pos : clean (simple_str_loop rest pos).
Proof. revert pos. induction rest; intros; cbn; clean_step. Qed.
Lemma pass_nil_loop_clean n rest pos : clean (pass_nil_loop n rest pos).
Proof. revert rest pos. induction n; intros [|b rest] pos; cbn; clean_step. Qed.
#[export] Hint Resolve btou_loop_clean simple_str_loop_clean pass_nil_loop_clean : clean.

Lemma btou_clean buf b : clean (btou buf b).
Proof. unfold btou, tail_at. clean_step. Qed.
#[export] Hint Resolve btou_clean : clean.
Lemma btoi_clean buf b : clean (btoi buf b).
Proof. unfold btoi. clean_step. Qed.
Lemma parse_simple_str_clean buf b : clean (parse_simple_str buf b).
Proof. unfold parse_simple_str, tail_at. clean_step. Qed.
Lemma parse_str_clean buf size b : clean (parse_str buf size b).
Proof. unfold parse_str. clean_step. Qed.
Lemma pass_nil_clean buf b : clean (pass_nil buf b).
Proof. unfold pass_nil, tail_at. clean_step. Qed.
Lemma at_minus_clean buf b : clean (at_minus buf b).
Proof. unfold at_minus. clean_step. Qed.
#[export] Hint Resolve btoi_clean parse_simple_str_clean parse_str_clean pass_nil_clean at_minus_clean : clean.

(** Hooks that do not touch objects, and the splitter that calls them. *)
Class CleanHooks (F : Type) `{!SplitterHooks F} : Prop := {
  clean_on_string buf b e : cleans (on_string (F := F) buf b e);
  clean_on_error buf b e : cleans (on_error (F := F) buf b e);
  clean_on_split_point buf p : cleans (on_split_point (F := F) buf p);
  clean_on_array n : cleans (on_array (F := F) n)
}.

Section Splitter.
Context {F : Type} `{!SplitterHooks F, !CleanHooks F}.

#[local] Hint Resolve clean_on_string clean_on_error clean_on_split_point clean_on_array : clean.

Lemma on_element_clean buf p : cleans (on_element (F := F) buf p).
Proof. unfold on_element. clean_step. Qed.
#[local] Hint Resolve on_element_clean : clean.

Lemma on_arr_clean buf size p : cleans (on_arr (F := F) buf size p).
Proof. unfold on_arr. clean_step. Qed.
#[local] Hint Resolve on_arr_clean : clean.

Lemma parse_clean fuel :
  (forall buf b, cleans (parse (F := F) fuel buf b)) /\
  (forall buf i n b, cleans (parse_elements (F := F) fuel buf i n b)).
Proof.
  induction fuel as [|fuel [IH1 IH2]]; split; intros.
  - by intros s k [=].
  - by intros s k [=].
  - rewrite parse_S. unfold on_int, on_sstr, on_nil, on_lstr, on_err. clean_step.
  - rewrite parse_elements_S. clean_step; auto.
Qed.

Lemma parse_all_clean fuel buf b : cleans (parse_all (F := F) fuel buf b).
Proof. revert b. induction fuel as [|fuel IH]; intros; cbn [parse_all]; clean_step; apply parse_clean. Qed.

Lemma split_run_clean fuel buf : cleans (split_run (F := F) fuel buf).
Proof.
  intros s. unfold split_run, try_catch. pose proof (parse_all_clean fuel buf 0 s) as H.
  destruct (parse_all fuel buf 0 s) as [[a|[]|k|] s']; cbn in *; clean_step.
Qed.

Lemma split_by_clean fuel buf (s : Splitter F) : clean (split_by fuel buf s).
Proof.
  unfold split_by. pose proof (split_run_clean fuel buf s) as H. destruct (split_run fuel buf s) as [[] ?]; cbn in *;
    intros k' Hk; simplify_eq. by apply H.
Qed.
End Splitter.

(** ** Responses *)

#[export] Instance response_clean : CleanHooks ServerResponseSplitter.
Proof. split; intros; cbn; unfold _push_rsp, _push_normal_rsp, _push; clean_step. Qed.

Lemma split_server_response_clean b : clean (split_server_response b).
Proof. unfold split_server_response, split_server_response_fuel. clean_step. apply split_by_clean. Qed.

(** ** Client commands *)

Lemma atoi_clean s : clean (atoi s).
Proof. unfold atoi. clean_step. Qed.
#[export] Hint Resolve atoi_clean : clean.

Lemma parser_on_str_clean buf p b e : clean (parser_on_str buf p b e).
Proof.
  destruct p; cbn;
    unfold ping_on_str, set_remotes_on_str, each_key_on_str, mset_on_str, rename_on_str, blocked_on_str, eval_on_str,
      keys_in_slot_on_str; clean_step.
Qed.

Lemma each_key_commands_clean buf h points slots : clean (each_key_commands buf h points slots).
Proof. revert points. induction slots; intros; cbn; clean_step. Qed.
Lemma mset_commands_clean buf points slots : clean (mset_commands buf points slots).
Proof. revert points. induction slots; intros; cbn; clean_step. Qed.
#[export] Hint Resolve parser_on_str_clean each_key_commands_clean mset_commands_clean : clean.

Lemma spawn_commands_clean buf p e : clean (spawn_commands buf p e).
Proof.
  destruct p; cbn;
    unfold each_key_spawn, mset_spawn, rename_spawn, subscribe_spawn, blocked_spawn, eval_spawn, publish_spawn,
      keys_in_slot_spawn; clean_step.
Qed.
#[export] Hint Resolve spawn_commands_clean : clean.

Lemma on_final_clean {F} (f : F -> outcome F) : (forall x, clean (f x)) -> cleans (on_final f).
Proof. intros Hf s. unfold on_final. specialize (Hf (final s)). destruct (f (final s)); cbn; intros k' Hk; simplify_eq. by apply Hf. Qed.

#[export] Instance client_clean : CleanHooks ClientCommandSplitter.
Proof.
  split; intros; cbn.
  - apply on_final_clean. intros c. unfold client_on_string, select_command_parser. clean_step.
  - by intros s k [=].
  - apply on_final_clean. intros c. unfold client_on_split_point. clean_step.
  - unfold client_on_array. clean_step.
Qed.

Lemma split_client_command_clean t b : clean (split_client_command t b).1.
Proof.
  unfold split_client_command, split_client_command_fuel.
  pose proof (split_run_clean (msg_fuel b) b (new_splitter (new_client_splitter t))) as H.
  by destruct (split_run _ _ _) as [o s].
Qed.

(** A group of several commands has at least one. *)
Definition proper (sp : spawned) : Prop := match sp with SpMulti _ cmds => cmds <> [] | _ => True end.

Lemma each_key_commands_length buf h points slots cmds :
  each_key_commands buf h points slots = Ret cmds -> length cmds = length slots.
Proof.
  revert points cmds. induction slots as [|ks slots IH]; intros points cmds; cbn [each_key_commands]; [by intros [= <-]|].
  destruct points as [|p [|q points]]; [done..|]. destruct (slice buf p q); [|done..]. cbn [mbind outcome_bind].
  destruct (each_key_commands _ _ _ slots) eqn:Er; [|done..]. intros [= <-]. cbn. f_equal. by eapply IH.
Qed.

Lemma mset_commands_length buf points slots cmds :
  mset_commands buf points slots = Ret cmds -> length cmds = length slots.
Proof.
  revert points cmds. induction slots as [|ks slots IH]; intros points cmds; cbn [mset_commands]; [by intros [= <-]|].
  destruct points as [|p [|p' [|q points]]]; [done..|]. destruct (slice buf p q); [|done..]. cbn [mbind outcome_bind].
  destruct (mset_commands _ _ slots) eqn:Er; [|done..]. intros [= <-]. cbn. f_equal. by eapply IH.
Qed.

Lemma each_key_spawn_proper buf k points slots sp : each_key_spawn buf k points slots = Ret sp -> proper sp.
Proof.
  unfold each_key_spawn. case_bool_decide as Es; [by intros [= <-]|].
  destruct (each_key_commands _ _ _ _) eqn:Ec; [|done..]. intros [= <-]. apply each_key_commands_length in Ec. cbn. by destruct a, slots.
Qed.

Lemma mset_spawn_proper buf points slots b sp : mset_spawn buf points slots b = Ret sp -> proper sp.
Proof.
  unfold mset_spawn. case_bool_decide as Es; [by intros [= <-]|]. destruct b; [|by intros [= <-]].
  cbn [orb negb]. destruct (mset_commands _ _ _) eqn:Ec; [|done..]. intros [= <-]. apply mset_commands_length in Ec. cbn. by destruct a, slots.
Qed.

(** The branches of a function into [outcome]. *)
Ltac outcome_cases :=
  repeat match goal with
  | |- context [slice ?x ?y ?z] => destruct (slice x y z); cbn [mbind outcome_bind]
  | |- context [parser_on_str ?u ?x ?y ?z] => destruct (parser_on_str u x y z); cbn [mbind outcome_bind]
  | |- _ => case_match
  end; intros ?; simplify_eq.

Lemma spawn_commands_proper buf p e sp : spawn_commands buf p e = Ret sp -> proper sp.
Proof.
  destruct p; cbn [spawn_commands]; [| | | |apply each_key_spawn_proper|apply mset_spawn_proper|..];
    unfold ping_spawn, set_remotes_spawn, rename_spawn, subscribe_spawn, blocked_spawn, eval_spawn, publish_spawn, keys_in_slot_spawn;
    outcome_cases; done.
Qed.

Definition pushes_proper (s s' : Splitter ClientCommandSplitter) : Prop :=
  Forall proper (pushed (final s)) -> Forall proper (pushed (final s')).
#[local] Instance pushes_proper_preorder : PreOrder pushes_proper.
Proof. split; unfold pushes_proper; [by intros s|auto]. Qed.

Lemma on_final_proper (f : ClientCommandSplitter -> outcome ClientCommandSplitter) s :
  (forall c c', f c = Ret c' -> Forall proper (pushed c) -> Forall proper (pushed c')) ->
  pushes_proper s (on_final f s).2.
Proof. intros Hf. unfold on_final, pushes_proper. destruct (f (final s)) eqn:Ef; cbn; eauto. Qed.

Lemma client_on_string_proper buf b e c c' :
  client_on_string buf b e c = Ret c' -> Forall proper (pushed c) -> Forall proper (pushed c').
Proof.
  unfold client_on_string, select_command_parser, handle_standard_key_command. outcome_cases; done.
Qed.

Lemma client_on_split_point_proper buf i c c' :
  client_on_split_point buf i c = Ret c' -> Forall proper (pushed c) -> Forall proper (pushed c').
Proof.
  unfold client_on_split_point. cbn [last_command_is_bad special_parser]. intros Hc Hp.
  destruct c as [? ? ? [] [p|] ? ?]; cbn in Hc, Hp.
  - injection Hc as <-. cbn. apply Forall_app. by repeat constructor.
  - injection Hc as <-. cbn. apply Forall_app. by repeat constructor.
  - destruct (spawn_commands buf p i) eqn:Es; [|done..]. injection Hc as <-. cbn. apply Forall_app.
    repeat constructor; [done|]. by eapply spawn_commands_proper.
  - destruct (slice buf _ i); [|done..]. injection Hc as <-. cbn. apply Forall_app. by repeat constructor.
Qed.

Lemma split_client_command_proper t b : Forall proper (split_client_command t b).2.1.
Proof.
  unfold split_client_command, split_client_command_fuel. set (s0 := new_splitter (new_client_splitter t)).
  assert (Hrun : pushes_proper s0 (split_run (msg_fuel b) b s0).2).
  { unfold split_run, try_catch.
    assert (Hp : pushes_proper s0 (parse_all (msg_fuel b) b 0 s0).2).
    { apply (parse_all_preserves pushes_proper).
      - intros buf' x e s. apply on_final_proper, client_on_string_proper.
      - by intros buf' x e s.
      - intros n s. cbn. unfold client_on_array. repeat case_match; done.
      - intros buf' p s. unfold on_element, mbind, M_bind. cbn -[on_final].
        destruct (count_element (_nested_array_element_count s)) as [counts [|]]; cbn -[on_final]; [|by intros ?].
        match goal with |- context [on_final _ ?s1] => pose proof (on_final_proper (client_on_split_point buf' p) s1
          (client_on_split_point_proper buf' p)) as Hs; by destruct (on_final _ s1) as [[] s2] end.
      - intros n s; by intros ?. }
    destruct (parse_all (msg_fuel b) b 0 s0) as [[a|e|k|] s']; try done. by destruct e. }
  destruct (split_run (msg_fuel b) b s0) as [o s']. cbn in *. by apply Hrun.
Qed.

(** ** CLUSTER NODES *)

Lemma add_slot_range_clean n s : clean (add_slot_range n s).
Proof. unfold add_slot_range. clean_step. Qed.
Lemma add_slot_ranges_clean rs l : clean (add_slot_ranges rs l).
Proof. revert rs. induction l; intros; cbn; clean_step. apply add_slot_range_clean. Qed.
Lemma from_host_port_clean s : clean (from_host_port s).
Proof. unfold from_host_port. clean_step. Qed.
#[export] Hint Resolve add_slot_ranges_clean from_host_port_clean : clean.

Lemma parse_line_clean h l : clean (parse_line h l).
Proof.
  unfold parse_line. assert (Hn : forall a b c d, clean (parse_node a b c d)) by (intros; unfold parse_node; clean_step).
  repeat (case_match; try (by intros ? [=])). all: intros k0 Hk; simplify_eq; eapply Hn; eassumption.
Qed.

Lemma parse_slot_map_clean t h : clean (parse_slot_map t h).
Proof.
  unfold parse_slot_map. generalize (split_str t (s2b (String LF "")) true). intros l.
  induction l; cbn; clean_step; apply parse_line_clean.
Qed.

(** ** System calls *)

Lemma io_on_error_clean what e : clean (io_on_error what e).
Proof. unfold io_on_error. clean_step. Qed.
#[export] Hint Resolve io_on_error_clean : clean.

Lemma flush_loop_clean ws sent rest : clean (flush_loop ws sent rest).1.
Proof.
  revert sent rest. induction ws as [|[n|e] ws IH]; intros sent [|b rest]; cbn; try (by intros ? [=]); [apply IH|].
  pose proof (io_on_error_clean (s2b "buffer write") e) as H. destruct (io_on_error _ e); [apply IH|done..].
Qed.

Lemma flush_mem_clean b : cleans (flush_mem b).
Proof. intros c. unfold flush_mem. pose proof (flush_loop_clean (ch_writes c) (ch_sent c) b). by destruct (flush_loop _ _ _) as [o [ws sent]]. Qed.

Lemma buffer_write_clean b : cleans (buffer_write b).
Proof. unfold buffer_write. clean_step. apply flush_mem_clean. Qed.

Lemma buffer_read_clean b c : clean (buffer_read b c).1.
Proof.
  unfold buffer_read. pose proof (read_loop_spec (ch_reads c) b 0) as H.
  destruct (read_loop _ _ _) as [o [b' rs]]. destruct H as (d & _ & Ho). cbn. by destruct o.
Qed.

(** A server's [writev] may run past its buffers, if a response changes a request that is
    being sent; it never follows a pointer to an object. *)
Lemma write_single_clean ws sent buf fo : clean (write_single_loop ws sent buf fo).1.
Proof. revert sent fo. induction ws as [|[n|e] ws IH]; intros; cbn [write_single_loop]; case_match; cbn; clean_step. Qed.

Lemma write_vec_loop_clean ws sent iov iovcnt total w fo : clean (write_vec_loop ws sent iov iovcnt total w fo).1.
Proof.
  revert sent iov total w fo. induction ws as [|[n|e] ws IH]; intros; cbn [write_vec_loop]; [by intros ? [=]| |].
  - repeat (case_match; cbn; try solve [clean_step]).
  - case_match; cbn; clean_step.
Qed.

Lemma writev_loop_clean fuel st bs ws sent : clean (writev_loop fuel st bs ws sent).1.
Proof.
  revert bs ws sent. induction fuel as [|fuel IH]; intros; cbn [writev_loop]; case_match; try (by intros ? [=]).
  destruct (next_group_to_write _ _) as [vec bulk].
  assert (Hv : clean (write_vec ws sent vec bulk (_1st_buf_offset bs)).1).
  { unfold write_vec. repeat case_match; first [apply write_single_clean | apply write_vec_loop_clean | cbn; clean_step]. }
  destruct (write_vec _ _ _ _ _) as [o [fo [ws' sent']]]. cbn in Hv. destruct o; [|by intros ? [=]|..].
  - case_match; [by intros ? [=]|apply IH].
  - intros k' [= <-]. by apply Hv.
  - by intros ? [=].
Qed.

Lemma writev_clean st bs c : clean (writev st bs c).1.
Proof.
  unfold writev. pose proof (writev_loop_clean (length (_buf_arr bs)) st bs (ch_writes c) (ch_sent c)).
  by destruct (writev_loop _ _ _ _ _) as [o [bs' [ws sent]]].
Qed.
