(* ===== verification/World.v ===== *)
(** * The objects of one proxy thread

    Every C++ object the thread allocates (commands, command groups, clients,
    servers, long connections, slot map updaters, shared buffers) lives in a store
    under a name, its address; an [sref] or a raw pointer is such a name, and using
    the name of an object that was deleted is [UB (Dangling _)].  The thread's globals, the
    proxy itself and the kernel's side of its descriptors complete the [World]. *)
From Stdlib Require Import QArith.
From S2P Require Import Prelude Strings OrderedSet Address SlotCalc Buffer SlotMap CommandParser.
#[local] Open Scope Z_scope.

(** Durations are [duration<double>] in the source; here they are exact. *)
Abbreviation Time := Z.
Abbreviation Interval := Q.

(** The seconds between two times of the clock, which counts nanoseconds. *)
Definition interval (d : Time) : Interval := d # 1000000000.

(** ** [Connection]

    The classes derived from [Connection], by the name of the object; a
    [Subscription] or a [BlockedListPop] is two connections, the client's and that of
    its member [_server]. *)
Inductive Connection : Type :=
  | CClient (c : nat)
  | CServer (s : nat)
  | CLong (l : nat)
  | CLongServer (l : nat)
  | CUpdater (u : nat)
  | CAcceptor.

#[export] Instance Connection_eq_dec : EqDecision Connection.
Proof. solve_decision. Defined.

#[export] Instance Connection_countable : Countable Connection.
Proof.
  apply (inj_countable'
    (fun c => match c with
     | CClient i => (0%nat, i) | CServer i => (1%nat, i) | CLong i => (2%nat, i)
     | CLongServer i => (3%nat, i) | CUpdater i => (4%nat, i) | CAcceptor => (5%nat, 0%nat) end)
    (fun p => match p with
     | (0%nat, i) => CClient i | (1%nat, i) => CServer i | (2%nat, i) => CLong i
     | (3%nat, i) => CLongServer i | (4%nat, i) => CUpdater i | _ => CAcceptor end)).
  by intros [].
Defined.

(** ** Commands and groups *)

(** The closure [MultiStepsCommand::on_rsp] holds. *)
Inductive rename_step : Type := RspGet | RspSet | RspDel.

Inductive CommandClass : Type :=
  | DirectCommand
  | OneSlotCommand (ks : Z)
  | RenameCommand (old_key new_key : bytes) (old_key_slot new_key_slot current_key_slot : Z)
      (on_rsp : rename_step).

Record Command : Type := mkCommand {
  cmd_buffer : buf_id;
  cmd_group : nat;
  cmd_class : CommandClass;
  sent_time : Time;
  resp_time : Time
}.
#[export] Instance eta_Command : Settable Command := fun x =>
  mkCommand (cmd_buffer x) (cmd_group x) (cmd_class x) (sent_time x) (resp_time x).

Inductive GroupClass : Type :=
  | DirectCommandGroup (command : nat)
  | SingleCommandGroup (command : nat)
  | MultipleCommandsGroup (k : multi_kind) (arr_payload : buf_id) (commands : list nat) (awaiting_count : Z)
  | Subscribe (b : bytes)
  | BlockedPop (b : bytes) (ks : Z).

Record CommandGroup : Type := mkGroup {
  grp_client : nat;
  grp_class : GroupClass;
  creation : Time;
  complete : bool
}.
#[export] Instance eta_Group : Settable CommandGroup := fun x =>
  mkGroup (grp_client x) (grp_class x) (creation x) (complete x).

(** The commands a group owns. *)
Definition group_commands (g : CommandGroup) : list nat :=
  match grp_class g with
  | DirectCommandGroup c | SingleCommandGroup c => [c]
  | MultipleCommandsGroup _ _ cs _ => cs
  | Subscribe _ | BlockedPop _ _ => []
  end.

(** ** Connections *)

(** A moved-from [sptr] left in [_parsed_groups] is null. *)
Record Client : Type := mkClient {
  cli_fd : Z;
  _peers : gset nat;
  _parsed_groups : list (option nat);
  _awaiting_groups : list nat;
  _ready_groups : list nat;
  _awaiting_count : Z;
  cli_buffer : bytes;
  cli_output : BufferSet
}.
#[export] Instance eta_Client : Settable Client := fun x =>
  mkClient (cli_fd x) (_peers x) (_parsed_groups x) (_awaiting_groups x) (_ready_groups x)
    (_awaiting_count x) (cli_buffer x) (cli_output x).

(** [svr_proxy]: whether [_proxy] is set; a null [sref] in [_sent_commands] is [None]. *)
Record Server : Type := mkServer {
  svr_fd : Z;
  svr_proxy : bool;
  svr_buffer : bytes;
  svr_output : BufferSet;
  _commands : list nat;
  _sent_commands : list (option nat);
  svr_addr : Address;
  attached_long_connections : gset nat
}.
#[export] Instance eta_Server : Settable Server := fun x =>
  mkServer (svr_fd x) (svr_proxy x) (svr_buffer x) (svr_output x) (_commands x) (_sent_commands x)
    (svr_addr x) (attached_long_connections x).

Definition new_Server : Server := mkServer (-1) false [] new_bufset [] [] (mkAddress [] 0) ∅.

Inductive long_kind : Type := SubscriptionConn | BlockedListPopConn.

(** [long_server_fd], [long_buffer]: the members of [_server]. *)
Record LongConnection : Type := mkLong {
  long_kind_of : long_kind;
  long_fd : Z;
  _attached_server : nat;
  long_server_fd : Z;
  long_buffer : bytes
}.
#[export] Instance eta_Long : Settable LongConnection := fun x =>
  mkLong (long_kind_of x) (long_fd x) (_attached_server x) (long_server_fd x) (long_buffer x).

Record SlotsMapUpdater : Type := mkUpdater {
  upd_fd : Z;
  _rsp : bytes;
  _nodes : list RedisNode;
  _remotes : list Address;           (* std::set<util::Address> *)
  _covered_slots : gmap Z unit;      (* std::set<slot> *)
  _proxy_already_updated : bool;
  upd_addr : Address
}.
#[export] Instance eta_Updater : Settable SlotsMapUpdater := fun x =>
  mkUpdater (upd_fd x) (_rsp x) (_nodes x) (_remotes x) (_covered_slots x) (_proxy_already_updated x)
    (upd_addr x).

(** ** The proxy; [acceptor] is its member *)
Record Proxy : Type := mkProxy {
  _clients_count : Z;
  _long_conns_count : Z;
  _server_map : gmap Z nat;          (* a slot that is not there is a null pointer *)
  _slot_updaters : list nat;
  _finished_slot_updaters : list nat;
  _retrying_commands : list nat;
  _inactive_long_connections : gset nat;
  _total_cmd_elapse : Interval;
  _total_remote_cost : Interval;
  _total_cmd : Z;
  _last_cmd_elapse : Interval;
  _last_remote_cost : Interval;
  _slot_map_expired : bool;
  _fd_closed : bool;
  _conn_poll_type : gmap Connection bool;
  acceptor_fd : Z;
  _accepting : bool
}.
#[export] Instance eta_Proxy : Settable Proxy := fun x =>
  mkProxy (_clients_count x) (_long_conns_count x) (_server_map x) (_slot_updaters x)
    (_finished_slot_updaters x) (_retrying_commands x) (_inactive_long_connections x)
    (_total_cmd_elapse x) (_total_remote_cost x) (_total_cmd x) (_last_cmd_elapse x) (_last_remote_cost x)
    (_slot_map_expired x) (_fd_closed x) (_conn_poll_type x) (acceptor_fd x) (_accepting x).

(** ** Globals

    The process-wide ones ([core/globals.cpp], the function objects [replace_map] of
    slot_map.cpp and [on_server_connected] of server.cpp, the command tables) and the
    thread-local ones of server.cpp.  [other_threads] are the [_slot_map_expired] flags
    of the other threads' proxies, the only part of them this thread writes. *)
Record Globals : Type := mkGlobals {
  remote_addrs : list Address;
  cluster_ok : bool;
  req_full_cov : bool;
  read_slave : bool;                 (* stats.cpp *)
  select_slave : option bytes;       (* [host_beginning] of [select_slave_if_possible] *)
  send_readonly : bool;
  cmd_tables : CommandTables;
  other_threads : list bool;
  servers_map : gmap Address nat;
  servers_pool : list nat
}.
#[export] Instance eta_Globals : Settable Globals := fun x =>
  mkGlobals (remote_addrs x) (cluster_ok x) (req_full_cov x) (read_slave x) (select_slave x)
    (send_readonly x) (cmd_tables x) (other_threads x) (servers_map x) (servers_pool x).

(** ** The kernel

    The open descriptors with the scripts of their reads and writes, the epoll set
    (the connection and the events asked for), and the results of the next calls of [socket],
    [connect], [accept], [setsockopt], [bind], [fcntl], [epoll_create], [rand] and the clock. *)
Inductive socket_res : Type := SockFd (fd : Z) (c : chan) | SockErr (errno : Z).
Inductive connect_res : Type := ConnOk | ConnBadHost | ConnErr (errno : Z).
Inductive accept_res : Type := AccFd (fd : Z) (c : chan) | AccErr (errno : Z).

Record Kernel : Type := mkKernel {
  k_chans : gmap Z chan;
  k_epoll : gmap Z (Connection * Z);
  k_sockets : list socket_res;
  k_connects : list connect_res;
  k_accepts : list accept_res;
  k_binds : list Z;                  (* setsockopt, bind: 0 or the error *)
  k_others : list Z;                 (* F_SETFL, epoll_create: 0 or the error *)
  k_rand : list Z;
  k_clock : list Z
}.
#[export] Instance eta_Kernel : Settable Kernel := fun x =>
  mkKernel (k_chans x) (k_epoll x) (k_sockets x) (k_connects x) (k_accepts x) (k_binds x) (k_others x) (k_rand x) (k_clock x).

(** ** The world *)
Record World : Type := mkWorld {
  w_bufs : buf_store;
  w_cmds : gmap nat Command;
  w_grps : gmap nat CommandGroup;
  w_clis : gmap nat Client;
  w_svrs : gmap nat Server;
  w_longs : gmap nat LongConnection;
  w_upds : gmap nat SlotsMapUpdater;
  w_next : nat;
  w_proxy : Proxy;
  w_glob : Globals;
  w_kern : Kernel
}.
#[export] Instance eta_World : Settable World := fun x =>
  mkWorld (w_bufs x) (w_cmds x) (w_grps x) (w_clis x) (w_svrs x) (w_longs x) (w_upds x) (w_next x)
    (w_proxy x) (w_glob x) (w_kern x).

Abbreviation W := (M World).

(** [p->...] through a name. *)
Definition deref_obj {A} (p : pointee) (store : World -> gmap nat A) (i : nat) : W A := fun w =>
  match store w !! i with Some a => (Ret a, w) | None => (UB (Dangling p), w) end.

Definition get_cmd : nat -> W Command := deref_obj ACommand w_cmds.
Definition get_grp : nat -> W CommandGroup := deref_obj AGroup w_grps.
Definition get_cli : nat -> W Client := deref_obj AClient w_clis.
Definition get_svr : nat -> W Server := deref_obj AServer w_svrs.
Definition get_long : nat -> W LongConnection := deref_obj ALongConnection w_longs.
Definition get_upd : nat -> W SlotsMapUpdater := deref_obj AnUpdater w_upds.

Definition set_cmd (i : nat) (f : Command -> Command) : W unit :=
  c ← get_cmd i; modify (fun w => w <| w_cmds ::= <[i := f c]> |>).
Definition set_grp (i : nat) (f : CommandGroup -> CommandGroup) : W unit :=
  g ← get_grp i; modify (fun w => w <| w_grps ::= <[i := f g]> |>).
Definition set_cli (i : nat) (f : Client -> Client) : W unit :=
  c ← get_cli i; modify (fun w => w <| w_clis ::= <[i := f c]> |>).
Definition set_svr (i : nat) (f : Server -> Server) : W unit :=
  s ← get_svr i; modify (fun w => w <| w_svrs ::= <[i := f s]> |>).
Definition set_long (i : nat) (f : LongConnection -> LongConnection) : W unit :=
  l ← get_long i; modify (fun w => w <| w_longs ::= <[i := f l]> |>).
Definition set_upd (i : nat) (f : SlotsMapUpdater -> SlotsMapUpdater) : W unit :=
  u ← get_upd i; modify (fun w => w <| w_upds ::= <[i := f u]> |>).

Definition set_proxy (f : Proxy -> Proxy) : W unit := modify (fun w => w <| w_proxy ::= f |>).
Definition set_glob (f : Globals -> Globals) : W unit := modify (fun w => w <| w_glob ::= f |>).
Definition set_kern (f : Kernel -> Kernel) : W unit := modify (fun w => w <| w_kern ::= f |>).

(** A fresh name, for [new]. *)
Definition fresh : W nat := i ← gets w_next; modify (fun w => w <| w_next := S i |>) ;; mret i.

(** [std::shared_ptr<Buffer>(new Buffer(b))] and [buffer->swap(b)]. *)
Definition new_buffer (b : bytes) : W buf_id :=
  i ← fresh; modify (fun w => w <| w_bufs ::= <[i := b]> |>) ;; mret i.
Definition set_buffer (i : buf_id) (b : bytes) : W unit := modify (fun w => w <| w_bufs ::= <[i := b]> |>).

(** The global [RSP_OK]: the buffer every MSET answers with. *)
Definition RSP_OK : buf_id := 0%nat.

(** [catch (IOErrorBase&)] *)
Definition is_io_error_base (e : exn) : bool :=
  match e with
  | ConnectionHungUp | IOError _ _ | SocketAcceptError _ | ConnectionRefused _ _ _ => true
  | _ => false
  end.

Definition is_bad_redis_message (e : exn) : bool :=
  match e with BadRedisMessage _ => true | _ => false end.

(** Undo what a constructor that throws has built. *)
Definition on_throw {A} (c : W A) (cleanup : W unit) : W A :=
  try_catch c (fun e => Some (cleanup ;; throw e)).
