(* ===== verification/Kernel.v ===== *)
(** * System calls: [syscalls/cio.h], [syscalls/fctl.h], [syscalls/poll.h], [core/fdutil.cpp],
    [utils/random.cpp]

    The wrappers of the system calls, on the kernel of [World.v], and the descriptor
    of a connection ([FDWrapper]). *)
From S2P Require Import Prelude Address Buffer World.
#[local] Open Scope Z_scope.

Definition ENOENT : Z := 2.
Definition EINTR : Z := 4.
Definition EBADF : Z := 9.
Definition EEXIST : Z := 17.
Definition ENFILE : Z := 23.
Definition EMFILE : Z := 24.
Definition EPROTO : Z := 71.

(** ** Descriptors *)

(** A call on a descriptor that is not open fails with EBADF. *)
Definition closed_chan : chan := mkChan [RdErr EBADF] [WrErr EBADF] [].

Definition with_chan {A} (fd : Z) (op : chan -> outcome A * chan) : W A := fun w =>
  match k_chans (w_kern w) !! fd with
  | Some c => let '(o, c') := op c in (o, w <| w_kern ::= (fun k => k <| k_chans ::= <[fd := c']> |>) |>)
  | None => ((op closed_chan).1, w)
  end.

(** [Buffer::read(fd)]: the count, and the buffer with what was read. *)
Definition read_fd (fd : Z) (buf : bytes) : W (outcome Z * bytes) :=
  with_chan fd (fun c => let '(o, (buf', c')) := buffer_read buf c in (Ret (o, buf'), c')).

(** [Buffer::write(fd)], [flush_string(fd, s)] *)
Definition write_fd (fd : Z) (b : bytes) : W Z := with_chan fd (buffer_write b).
Definition flush_fd (fd : Z) (s : bytes) : W unit := with_chan fd (flush_string s).

(** [BufferSet::writev(fd)]: the set it leaves, and whether everything was written. *)
Definition writev_fd (fd : Z) (bs : BufferSet) : W (outcome bool * BufferSet) :=
  st ← gets w_bufs;
  with_chan fd (fun c => let '(o, (bs', c')) := writev st bs c in (Ret (o, bs'), c')).

(** [cio::close]: the descriptor leaves the epoll set with its last reference. *)
Definition cio_close (fd : Z) : W unit :=
  set_kern (fun k => k <| k_chans ::= delete fd |> <| k_epoll ::= delete fd |>).

Definition next_script {A} (script : Kernel -> list A) (drop1 : Kernel -> Kernel) (dflt : A) : W A :=
  l ← gets (fun w => script (w_kern w));
  set_kern drop1 ;; mret (default dflt (head l)).

(** [cio::accept]; the script's end is EAGAIN. *)
Definition cio_accept : W accept_res :=
  r ← next_script k_accepts (fun k => k <| k_accepts ::= tail |>) (AccErr EAGAIN);
  match r with
  | AccFd fd c => set_kern (fun k => k <| k_chans ::= <[fd := c]> |>) ;; mret r
  | AccErr _ => mret r
  end.

(** ** [fctl] *)

Definition new_stream_socket : W Z :=
  r ← next_script k_sockets (fun k => k <| k_sockets ::= tail |>) (SockErr EMFILE);
  match r with
  | SockFd fd c => set_kern (fun k => k <| k_chans ::= <[fd := c]> |>) ;; mret fd
  | SockErr e => throw (IOError (s2b "Socket create") e)
  end.

Definition set_nonblocking (sockfd : Z) : W unit :=
  open ← gets (fun w => bool_decide (is_Some (k_chans (w_kern w) !! sockfd)));
  if negb open then throw (SystemError (s2b "fcntl:getfl") EBADF) else
  e ← next_script k_others (fun k => k <| k_others ::= tail |>) 0;
  if negb (e =? 0) then throw (SystemError (s2b "fcntl:setfl") e) else mret tt.

Definition connect_fd (h : bytes) (p fd : Z) : W unit :=
  r ← next_script k_connects (fun k => k <| k_connects ::= tail |>) ConnOk;
  match r with
  | ConnOk => mret tt                      (* connected, or EINPROGRESS *)
  | ConnBadHost => throw (UnknownHost h)   (* inet_pton *)
  | ConnErr e => throw (ConnectionRefused h p e)
  end.

(** [setsockopt] and [bind]; [listen] is not checked. *)
Definition bind_to (fd port : Z) : W unit :=
  e ← next_script k_binds (fun k => k <| k_binds ::= tail |>) 0;
  if negb (e =? 0) then throw (SystemError (s2b "set reuseport") e) else
  e ← next_script k_binds (fun k => k <| k_binds ::= tail |>) 0;
  if negb (e =? 0) then throw (SystemError (s2b "bind") e) else mret tt.

(** ** [poll]: an event is a bit mask; the epoll set *)

Definition EPOLLIN : Z := 1.
Definition EPOLLOUT : Z := 4.
Definition EPOLLRDHUP : Z := 8192.
Definition EPOLLET : Z := 2 ^ 31.

Definition event_is_hup (events : Z) : bool := negb (Z.land events EPOLLRDHUP =? 0).
Definition event_is_read (events : Z) : bool := negb (Z.land events EPOLLIN =? 0).
Definition event_is_write (events : Z) : bool := negb (Z.land events EPOLLOUT =? 0).

(** The descriptor of the epoll set is left implicit: a thread has one. *)
Definition poll_create : W unit :=
  e ← next_script k_others (fun k => k <| k_others ::= tail |>) 0;
  if negb (e =? 0) then throw (SystemError (s2b "epoll_create") e) else mret tt.

(** EPOLL_CTL_ADD and EPOLL_CTL_MOD: [None], or the error. *)
Definition epoll_ctl_add (fd : Z) (conn : Connection) (events : Z) : W (option Z) :=
  k ← gets w_kern;
  match k_chans k !! fd, k_epoll k !! fd with
  | None, _ => mret (Some EBADF)
  | Some _, Some _ => mret (Some EEXIST)
  | Some _, None => set_kern (fun k => k <| k_epoll ::= <[fd := (conn, events)]> |>) ;; mret None
  end.

Definition epoll_ctl_mod (fd : Z) (conn : Connection) (events : Z) : W (option Z) :=
  k ← gets w_kern;
  match k_chans k !! fd, k_epoll k !! fd with
  | None, _ => mret (Some EBADF)
  | Some _, None => mret (Some ENOENT)
  | Some _, Some _ => set_kern (fun k => k <| k_epoll ::= <[fd := (conn, events)]> |>) ;; mret None
  end.

Definition poll_add_read (fd : Z) (conn : Connection) : W (option Z) :=
  epoll_ctl_add fd conn (Z.lor (Z.lor EPOLLET EPOLLIN) EPOLLRDHUP).
Definition poll_add_write (fd : Z) (conn : Connection) : W (option Z) :=
  epoll_ctl_add fd conn (Z.lor (Z.lor (Z.lor EPOLLET EPOLLIN) EPOLLOUT) EPOLLRDHUP).
Definition poll_read (fd : Z) (conn : Connection) : W (option Z) :=
  epoll_ctl_mod fd conn (Z.lor EPOLLET EPOLLIN).
Definition poll_write (fd : Z) (conn : Connection) : W (option Z) :=
  epoll_ctl_mod fd conn (Z.lor (Z.lor EPOLLET EPOLLIN) EPOLLOUT).

Definition epoll_del (fd : Z) : W unit := set_kern (fun k => k <| k_epoll ::= delete fd |>).

(** ** [Clock::now()], [util::randint] *)

(** The script's end repeats the last time. *)
Definition now : W Time :=
  l ← gets (fun w => k_clock (w_kern w));
  match l with
  | [] => mret 0
  | [t] => mret t
  | t :: l' => set_kern (fun k => k <| k_clock := l' |>) ;; mret t
  end.

(** [min + rand() % (max - min)]; [rand()] is not negative. *)
Definition randint (min max : Z) : W Z :=
  r ← next_script k_rand (fun k => k <| k_rand ::= tail |>) 0;
  mret (min + Z.abs r mod (max - min)).

(** ** [FDWrapper] of a connection *)

Definition conn_fd (c : Connection) : W Z :=
  match c with
  | CClient i => x ← get_cli i; mret (cli_fd x)
  | CServer i => x ← get_svr i; mret (svr_fd x)
  | CLong i => x ← get_long i; mret (long_fd x)
  | CLongServer i => x ← get_long i; mret (long_server_fd x)
  | CUpdater i => x ← get_upd i; mret (upd_fd x)
  | CAcceptor => gets (fun w => acceptor_fd (w_proxy w))
  end.

Definition set_conn_fd (c : Connection) (fd : Z) : W unit :=
  match c with
  | CClient i => set_cli i (fun x => x <| cli_fd := fd |>)
  | CServer i => set_svr i (fun x => x <| svr_fd := fd |>)
  | CLong i => set_long i (fun x => x <| long_fd := fd |>)
  | CLongServer i => set_long i (fun x => x <| long_server_fd := fd |>)
  | CUpdater i => set_upd i (fun x => x <| upd_fd := fd |>)
  | CAcceptor => set_proxy (fun p => p <| acceptor_fd := fd |>)
  end.

Definition is_closed (c : Connection) : W bool := fd ← conn_fd c; mret (fd =? -1).

Definition close_conn_fd (c : Connection) : W unit :=
  fd ← conn_fd c;
  if fd =? -1 then mret tt else cio_close fd ;; set_conn_fd c (-1).

(** ** [Proxy::poll_...]: the error messages end with the text of the connection, which
    is left out here *)

Definition poll_check (what : string) (e : option Z) : W unit :=
  match e with Some errno => throw (SystemError (s2b what) errno) | None => mret tt end.

Definition poll_add_ro (c : Connection) : W unit :=
  fd ← conn_fd c; e ← poll_add_read fd c; poll_check "poll r+" e.
Definition poll_add_rw (c : Connection) : W unit :=
  fd ← conn_fd c; e ← poll_add_write fd c; poll_check "poll rw+" e.
Definition poll_ro (c : Connection) : W unit :=
  fd ← conn_fd c; e ← poll_read fd c; poll_check "poll r*" e.
Definition poll_rw (c : Connection) : W unit :=
  fd ← conn_fd c; e ← poll_write fd c; poll_check "poll rw*" e.
Definition poll_del (c : Connection) : W unit := fd ← conn_fd c; epoll_del fd.

(** [Proxy::set_conn_poll_ro], [set_conn_poll_rw] *)
Definition set_conn_poll_ro (c : Connection) : W unit :=
  set_proxy (fun p => p <| _conn_poll_type ::= (fun m => <[c := default false (m !! c) || false]> m) |>).
Definition set_conn_poll_rw (c : Connection) : W unit :=
  set_proxy (fun p => p <| _conn_poll_type ::= <[c := true]> |>).
