(* ===== verification/Command.v ===== *)
(** * Commands and command groups: [core/command.hpp], [core/command.cpp]

    Selecting the server of a command, what a response does to a command and to its
    group, the groups' part of a client's output, and the construction of the groups a
    client's requests spawn.  The members of [Client], [Server] and [Proxy] that these
    operations call are here too. *)
From Stdlib Require Import QArith.
From S2P Require Import Prelude Strings Address SlotCalc Buffer CommandParser World Kernel.
#[local] Open Scope Z_scope.

(** ** Callees in [Proxy], [Server] and [Client] *)

(** [Proxy::retry_move_ask_command_later], [Proxy::update_slot_map] *)
Definition retry_move_ask_command_later (cmd : nat) : W unit :=
  set_proxy (fun p => p <| _retrying_commands ::= (fun l => l ++ [cmd]) |>).

Definition update_slot_map : W unit := set_proxy (fun p => p <| _slot_map_expired := true |>).

(** [SlotMap::get_by_slot]: an index out of the array is undefined. *)
Definition get_by_slot (ks : Z) : W (option nat) :=
  if (0 <=? ks) && (ks <? CLUSTER_SLOT_COUNT)
  then gets (fun w => _server_map (w_proxy w) !! ks) else undefined.

(** [Proxy::get_server_by_slot] *)
Definition get_server_by_slot (ks : Z) : W (option nat) :=
  s ← get_by_slot ks;
  match s with
  | None => mret None
  | Some i => closed ← is_closed (CServer i); mret (if closed : bool then None else Some i)
  end.

(** [Client::add_peer] *)
Definition add_peer (cli svr : nat) : W unit := set_cli cli (fun c => c <| _peers ::= union {[svr]} |>).

(** [Server::push_client_command] *)
Definition push_client_command (svr cmd : nat) : W unit :=
  set_svr svr (fun s => s <| _commands ::= (fun l => l ++ [cmd]) |>) ;;
  c ← get_cmd cmd; g ← get_grp (cmd_group c); add_peer (grp_client g) svr.

(** ** Selecting a server *)

Definition select_server_for (cmd : nat) (ks : Z) : W (option nat) :=
  svr ← get_server_by_slot ks;
  match svr with
  | None => retry_move_ask_command_later cmd ;; mret None
  | Some s => push_client_command s cmd ;; mret (Some s)
  end.

(** The virtual [select_server]. *)
Definition select_server (cmd : nat) : W (option nat) :=
  c ← get_cmd cmd;
  match cmd_class c with
  | DirectCommand => mret None
  | OneSlotCommand ks => select_server_for cmd ks
  | RenameCommand _ _ _ _ current_key_slot _ => select_server_for cmd current_key_slot
  end.

(** [Client::reactivate] *)
Definition reactivate (cmd : nat) : W unit :=
  s ← select_server cmd;
  match s with None => mret tt | Some s => set_conn_poll_rw (CServer s) end.

(** ** A group's part of the output *)

Definition buffer_of_cmd (cmd : nat) : W buf_id := c ← get_cmd cmd; mret (cmd_buffer c).

Fixpoint buffers_of_cmds (cmds : list nat) : W (list buf_id) :=
  match cmds with
  | [] => mret []
  | c :: cmds' => b ← buffer_of_cmd c; bs ← buffers_of_cmds cmds'; mret (b :: bs)
  end.

(** [DelCommandGroup]: how many of the responses hold a '1'. *)
Definition del_count (rsps : list bytes) : Z :=
  foldr (fun rsp n => n + (if bool_decide ("1"%char ∈ rsp) then 1 else 0)) 0 rsps.

(** [append_buffer_to] of each class: the buffers appended, in order. *)
Definition multi_append_buffer (payload : buf_id) (cs : list nat) : W (list buf_id) :=
  bs ← buffers_of_cmds cs; mret (payload :: bs).

Definition del_append_buffer (payload : buf_id) (cs : list nat) : W (list buf_id) :=
  bs ← buffers_of_cmds cs;
  st ← gets w_bufs;
  set_buffer payload (s2b ":" ++ str (del_count (content st <$> bs)) ++ crlf) ;;
  mret [payload].

Definition mset_append_buffer : W (list buf_id) := mret [RSP_OK].

Definition append_buffer_to (grp : nat) : W (list buf_id) :=
  g ← get_grp grp;
  match grp_class g with
  | DirectCommandGroup c | SingleCommandGroup c => b ← buffer_of_cmd c; mret [b]
  | MultipleCommandsGroup MGetGroup payload cs _ => multi_append_buffer payload cs
  | MultipleCommandsGroup DelGroup payload cs _ => del_append_buffer payload cs
  | MultipleCommandsGroup MSetGroup _ _ _ => mset_append_buffer
  | Subscribe _ | BlockedPop _ _ => mret []
  end.

(** [total_buffer_size], which nothing calls. *)
Definition total_buffer_size (grp : nat) : W Z :=
  g ← get_grp grp;
  st ← gets w_bufs;
  match grp_class g with
  | DirectCommandGroup c | SingleCommandGroup c => b ← buffer_of_cmd c; mret (zlen (content st b))
  | MultipleCommandsGroup MGetGroup payload cs _ =>
    bs ← buffers_of_cmds cs;
    mret (foldl (fun n b => n + zlen (content st b)) (zlen (content st payload)) bs)
  | MultipleCommandsGroup DelGroup _ _ _ | MultipleCommandsGroup MSetGroup _ _ _ =>
    mret (zlen (content st RSP_OK))
  | Subscribe _ | BlockedPop _ _ => mret 0
  end.

(** ** [Client]: groups whose responses are all there *)

Definition MAX_PIPE : Z := 64.
Definition MAX_RESPONSES : Z := 256.

(** The loop of [Client::_push_awaitings_to_ready]. *)
Fixpoint push_ready (cli : nat) (grps : list nat) : W unit :=
  match grps with
  | [] => mret tt
  | g :: grps' =>
    bs ← append_buffer_to g;
    set_cli cli (fun c => c <| cli_output ::= (fun o => foldl (fun o b => bufset_append b o) o bs) |>
                            <| _ready_groups ::= (fun l => l ++ [g]) |>) ;;
    push_ready cli grps'
  end.

Definition _push_awaitings_to_ready (cli : nat) : W unit :=
  c ← get_cli cli;
  if negb (_awaiting_count c =? 0)
     || (negb (bool_decide (_ready_groups c = []))
         && (MAX_RESPONSES <? zlen (_awaiting_groups c) + zlen (_ready_groups c)))
  then mret tt
  else
    push_ready cli (_awaiting_groups c) ;;
    set_cli cli (fun c => c <| _awaiting_groups := [] |>) ;;
    c ← get_cli cli;
    when (negb (bufset_empty (cli_output c))) (set_conn_poll_rw (CClient cli)).

(** [Client::group_responsed] *)
Definition group_responsed (cli : nat) : W unit :=
  set_cli cli (fun c => c <| _awaiting_count ::= Z.pred |>) ;; _push_awaitings_to_ready cli.

(** ** Responses *)

(** [command_responsed] of each class. *)
Definition single_command_responsed (grp cli : nat) : W unit :=
  group_responsed cli ;; set_grp grp (fun g => g <| complete := true |>).

Definition multi_command_responsed (grp cli : nat) (k : multi_kind) (payload : buf_id) (cs : list nat)
    (n : Z) : W unit :=
  set_grp grp (fun g => g <| grp_class := MultipleCommandsGroup k payload cs (n - 1) |>) ;;
  when (n - 1 =? 0)
    (set_buffer payload (s2b "*" ++ str (zlen cs) ++ crlf) ;;
     group_responsed cli ;;
     set_grp grp (fun g => g <| complete := true |>)).

Definition command_responsed (grp : nat) : W unit :=
  g ← get_grp grp;
  match grp_class g with
  | DirectCommandGroup _ | Subscribe _ | BlockedPop _ _ => mret tt
  | SingleCommandGroup _ => single_command_responsed grp (grp_client g)
  | MultipleCommandsGroup k payload cs n => multi_command_responsed grp (grp_client g) k payload cs n
  end.

(** [Command::responsed] *)
Definition responsed (cmd : nat) : W unit := c ← get_cmd cmd; command_responsed (cmd_group c).

(** [this->buffer->swap(b); this->responsed();] *)
Definition answer (cmd : nat) (b : bytes) : W unit :=
  c ← get_cmd cmd; set_buffer (cmd_buffer c) b ;; responsed cmd.

(** The steps of [RenameCommand]: [rename_goto] sends the next request; [rsp_get], the closure
    it installs, and [rsp_set] with its closure. *)
Definition rename_goto (cmd : nat) (b : bytes) (cls : CommandClass) : W unit :=
  c ← get_cmd cmd;
  set_buffer (cmd_buffer c) b ;;
  set_cmd cmd (fun c => c <| cmd_class := cls |>) ;;
  reactivate cmd.

Definition rsp_get (cmd : nat) (rsp : bytes) (error : bool) (old_key new_key : bytes)
    (old_slot new_slot : Z) : W unit :=
  if error then answer cmd rsp
  else if same_as_string rsp (crlf_line "$-1") then answer cmd (crlf_line "-ERR no such key")
  else rename_goto cmd (append_from (append_from (crlf_lines ["*3"; "$3"; "SET"]) new_key) rsp)
         (RenameCommand old_key new_key old_slot new_slot new_slot RspSet).

Definition rsp_set (cmd : nat) (rsp : bytes) (error : bool) (old_key new_key : bytes)
    (old_slot new_slot : Z) : W unit :=
  if error then answer cmd rsp
  else rename_goto cmd (append_from (crlf_lines ["*2"; "$3"; "DEL"]) old_key)
         (RenameCommand old_key new_key old_slot new_slot old_slot RspDel).

(** The virtual [on_remote_responsed]. *)
Definition on_remote_responsed (cmd : nat) (rsp : bytes) (error : bool) : W unit :=
  c ← get_cmd cmd;
  match cmd_class c with
  | DirectCommand | OneSlotCommand _ => answer cmd rsp
  | RenameCommand old_key new_key old_slot new_slot _ step =>
    match step with
    | RspGet => rsp_get cmd rsp error old_key new_key old_slot new_slot
    | RspSet => rsp_set cmd rsp error old_key new_key old_slot new_slot
    | RspDel => answer cmd RSP_OK_STR
    end
  end.

(** ** Statistics of a group *)

Definition remote_cost (c : Command) : Interval := interval (resp_time c - sent_time c).

Fixpoint total_remote_cost (cmds : list nat) : W Interval :=
  match cmds with
  | [] => mret 0%Q
  | i :: cmds' => c ← get_cmd i; t ← total_remote_cost cmds'; mret (remote_cost c + t)%Q
  end.

(** [Proxy::stat_proccessed] *)
Definition stat_proccessed (cmd_elapse remote : Interval) : W unit :=
  set_proxy (fun p => p <| _total_cmd_elapse ::= Qplus cmd_elapse |> <| _total_cmd ::= Z.succ |>
                        <| _last_cmd_elapse := cmd_elapse |> <| _total_remote_cost ::= Qplus remote |>
                        <| _last_remote_cost := remote |>).

(** [avg_commands_remote_cost], [collect_stats] *)
Definition avg_commands_remote_cost (g : CommandGroup) : W Interval :=
  match grp_class g with
  | SingleCommandGroup c => cmd ← get_cmd c; mret (remote_cost cmd)
  | MultipleCommandsGroup _ _ cs _ =>
    total ← total_remote_cost cs;
    mret (if bool_decide (cs = []) then 0 else total / inject_Z (zlen cs))%Q
  | _ => mret 0%Q
  end.

Definition collect_stats (grp : nat) : W unit :=
  g ← get_grp grp;
  match grp_class g with
  | SingleCommandGroup _ | MultipleCommandsGroup _ _ _ _ =>
    t ← now; avg ← avg_commands_remote_cost g; stat_proccessed (interval (t - creation g)) avg
  | _ => mret tt
  end.

(** ** Building a group *)

(** [new OneSlotCommand(b, g, ks)] and its siblings. *)
Definition new_command (b : bytes) (grp : nat) (cls : CommandClass) : W nat :=
  buf ← new_buffer b;
  i ← fresh;
  modify (fun w => w <| w_cmds ::= <[i := mkCommand buf grp cls 0 0]> |>) ;; mret i.

Fixpoint new_commands (grp : nat) (cmds : list (bytes * Z)) : W (list nat) :=
  match cmds with
  | [] => mret []
  | (b, ks) :: cmds' =>
    c ← new_command b grp (OneSlotCommand ks); cs ← new_commands grp cmds'; mret (c :: cs)
  end.

Definition new_group (cli grp : nat) (cls : GroupClass) (t : Time) : W unit :=
  modify (fun w => w <| w_grps ::= <[grp := mkGroup cli cls t false]> |>).

Definition new_direct_group (cli : nat) (rsp : bytes) : W nat :=
  g ← fresh; c ← new_command rsp g DirectCommand; new_group cli g (DirectCommandGroup c) 0 ;; mret g.

(** [StatsCommandGroup] takes the time of its creation. *)
Definition new_single_group (cli : nat) (b : bytes) (cls : CommandClass) : W nat :=
  g ← fresh; t ← now; c ← new_command b g cls; new_group cli g (SingleCommandGroup c) t ;; mret g.

(** [MultipleCommandsGroup] and an [append_command] for each command. *)
Definition new_multi_group (cli : nat) (k : multi_kind) (cmds : list (bytes * Z)) : W nat :=
  g ← fresh; t ← now;
  payload ← new_buffer [];
  cs ← new_commands g cmds;
  new_group cli g (MultipleCommandsGroup k payload cs (zlen cs)) t ;; mret g.

(** [notify_each_thread_update_slot_map] *)
Definition notify_each_thread_update_slot_map : W unit :=
  update_slot_map ;; set_glob (fun g => g <| other_threads ::= fmap (fun _ => true) |>).

(** The group a parser spawns; [stats] is what [stats_all()] gives at that point: its text, or
    [None] where it follows a null pointer. *)
Definition make_group (stats : World -> option bytes) (cli : nat) (sp : spawned) : W nat :=
  match sp with
  | SpDirect rsp => new_direct_group cli rsp
  | SpStats =>
    s ← gets stats;
    match s with Some s => new_direct_group cli (s2b "+" ++ s ++ crlf) | None => null_pointer end
  | SpUpdateSlotMap => notify_each_thread_update_slot_map ;; new_direct_group cli RSP_OK_STR
  | SpSetRemotes remotes =>
    set_glob (fun g => g <| remote_addrs := remotes |>) ;;
    notify_each_thread_update_slot_map ;; new_direct_group cli RSP_OK_STR
  | SpSingle b ks => new_single_group cli b (OneSlotCommand ks)
  | SpPublish b => ks ← randint 0 CLUSTER_SLOT_COUNT; new_single_group cli b (OneSlotCommand ks)
  | SpMulti k cmds => new_multi_group cli k cmds
  | SpRename old_key new_key old_slot new_slot =>
    new_single_group cli (crlf_lines ["*2"; "$3"; "GET"] ++ old_key)
      (RenameCommand old_key new_key old_slot new_slot old_slot RspGet)
  | SpSubscribe b => g ← fresh; new_group cli g (Subscribe b) 0 ;; mret g
  | SpBlockedPop b ks => g ← fresh; new_group cli g (BlockedPop b ks) 0 ;; mret g
  end.

(** [Client::push_command] of each group, in order. *)
Fixpoint push_commands (stats : World -> option bytes) (cli : nat) (sps : list spawned) : W unit :=
  match sps with
  | [] => mret tt
  | sp :: sps' =>
    g ← make_group stats cli sp;
    set_cli cli (fun c => c <| _parsed_groups ::= (fun l => l ++ [Some g]) |>) ;;
    push_commands stats cli sps'
  end.

(** [~CommandGroup]: the group owns its commands. *)
Definition delete_group (grp : nat) : W unit :=
  g ← get_grp grp;
  modify (fun w => w <| w_grps ::= delete grp |>
                     <| w_cmds ::= (fun m => foldr delete m (group_commands g)) |>).
