(* ===== verification/Server.v ===== *)
(** * Connections to redis servers: [core/server.hpp], [core/server.cpp], and the slot table
    of [core/slot_map.cpp]

    [Server] objects are never freed: a closed one goes to [servers_pool] and is
    opened again for another address.  The slot table points to them. *)
From S2P Require Import Prelude Strings OrderedSet Address SlotCalc Buffer Response SlotMap World Kernel Command.
#[local] Open Scope Z_scope.

(** [Response::rsp_to(cmd, proxy)] *)
Definition rsp_to (r : Response) (cmd : nat) : W unit :=
  match r with
  | NormalResponse rsp error => on_remote_responsed cmd rsp error
  | RetryMovedAskResponse => retry_move_ask_command_later cmd
  end.

(** ** Closing *)

(** [Proxy::inactivate_long_conn] *)
Definition inactivate_long_conn (l : nat) : W unit :=
  set_proxy (fun p => p <| _inactive_long_connections ::= union {[l]} |>).

(** [remove_entry] *)
Definition remove_entry (svr : nat) : W unit :=
  s ← get_svr svr;
  set_glob (fun g => g <| servers_map ::= delete (svr_addr s) |>
                       <| servers_pool ::= (fun l => l ++ [svr]) |>).

Definition close_conn (svr : nat) : W unit :=
  closed ← is_closed (CServer svr);
  if closed : bool then mret tt else
  close_conn_fd (CServer svr) ;;
  set_svr svr (fun s => s <| svr_buffer := [] |> <| svr_output ::= bufset_clear |>) ;;
  s ← get_svr svr;
  for_each (_commands s) retry_move_ask_command_later ;;
  set_svr svr (fun s => s <| _commands := [] |>) ;;
  for_each (_sent_commands s)
    (fun c => match c with None => mret tt | Some c => retry_move_ask_command_later c end) ;;
  set_svr svr (fun s => s <| _sent_commands := [] |>) ;;
  for_each (elements (attached_long_connections s)) inactivate_long_conn ;;
  set_svr svr (fun s => s <| attached_long_connections := ∅ |>) ;;
  remove_entry svr.

(** ** Events *)

(** [Server::_push_to_buffer_set] *)
Definition _push_to_buffer_set (svr : nat) : W unit :=
  t ← now;
  s ← get_svr svr;
  for_each (_commands s) (fun c =>
    set_svr svr (fun s => s <| _sent_commands ::= (fun l => l ++ [Some c]) |>) ;;
    cmd ← get_cmd c;
    set_svr svr (fun s => s <| svr_output ::= bufset_append (cmd_buffer cmd) |>) ;;
    set_cmd c (fun cmd => cmd <| sent_time := t |>)) ;;
  set_svr svr (fun s => s <| _commands := [] |>).

(** The loop of [Server::_recv_from]: one response, one command, null ones skipped. *)
Fixpoint respond (t : Time) (rsps : list Response) (sent : list (option nat)) : W unit :=
  match rsps, sent with
  | [], _ => mret tt
  | r :: rsps', Some c :: sent' =>
    rsp_to r c ;; set_cmd c (fun cmd => cmd <| resp_time := t |>) ;; respond t rsps' sent'
  | _ :: rsps', None :: sent' => respond t rsps' sent'
  | _ :: _, [] => undefined
  end.

Definition _recv_from (svr : nat) : W unit :=
  s ← get_svr svr;
  '(o, buf) ← read_fd (svr_fd s) (svr_buffer s);
  set_svr svr (fun s => s <| svr_buffer := buf |>) ;;
  n ← lift o;
  if n =? 0 then throw ConnectionHungUp else
  '(rsps, rest) ← lift (split_server_response buf);
  set_svr svr (fun s => s <| svr_buffer := rest |>) ;;
  if zlen (_sent_commands s) <? zlen rsps then close_conn svr else
  t ← now;
  respond t rsps (_sent_commands s) ;;
  set_svr svr (fun s => s <| _sent_commands ::= drop (length rsps) |>).

(** [catch (BadRedisMessage&)] *)
Definition catch_bad {A} (c : W A) (h : W A) : W A :=
  try_catch c (fun e => if is_bad_redis_message e then Some h else None).

Definition server_on_events (svr : nat) (events : Z) : W unit :=
  closed ← is_closed (CServer svr);
  if closed : bool then mret tt
  else if event_is_hup events then close_conn svr
  else
    (* [false]: the handler of a bad message has closed the connection *)
    go_on ← (if event_is_read events
             then catch_bad (_recv_from svr ;; mret true) (close_conn svr ;; mret false)
             else mret true);
    if negb go_on then mret tt else
    _push_to_buffer_set svr ;;
    when (event_is_write events)
      (s ← get_svr svr;
       '(o, bs) ← writev_fd (svr_fd s) (svr_output s);
       set_svr svr (fun s => s <| svr_output := bs |>) ;;
       _ ← lift o; mret tt) ;;
    s ← get_svr svr;
    if bufset_empty (svr_output s) then set_conn_poll_ro (CServer svr) else set_conn_poll_rw (CServer svr).

Definition server_after_events (svr : nat) : W unit :=
  closed ← is_closed (CServer svr); when closed update_slot_map.

(** ** Commands of a client that goes away *)

Definition cmd_client (cmd : nat) : W nat :=
  c ← get_cmd cmd; g ← get_grp (cmd_group c); mret (grp_client g).

(** [util::erase_if] with the client of a command. *)
Fixpoint erase_client (cli : nat) (cmds : list nat) : W (list nat) :=
  match cmds with
  | [] => mret []
  | c :: cmds' =>
    owner ← cmd_client c;
    rest ← erase_client cli cmds';
    mret (if bool_decide (owner = cli) then rest else c :: rest)
  end.

Fixpoint reset_client (cli : nat) (sent : list (option nat)) : W (list (option nat)) :=
  match sent with
  | [] => mret []
  | None :: sent' => rest ← reset_client cli sent'; mret (None :: rest)
  | Some c :: sent' =>
    owner ← cmd_client c;
    rest ← reset_client cli sent';
    mret ((if bool_decide (owner = cli) then None else Some c) :: rest)
  end.

(** [Server::pop_client] *)
Definition server_pop_client (svr cli : nat) : W unit :=
  s ← get_svr svr;
  cmds ← erase_client cli (_commands s);
  set_svr svr (fun s => s <| _commands := cmds |>) ;;
  sent ← reset_client cli (_sent_commands s);
  set_svr svr (fun s => s <| _sent_commands := sent |>).

(** [Server::deliver_commands]: the commands taken, those sent last. *)
Definition deliver_commands (svr : nat) : W (list nat) :=
  s ← get_svr svr;
  let sent := omap id (_sent_commands s) in
  set_svr svr (fun s => s <| _sent_commands := Some <$> sent |> <| _commands := [] |>) ;;
  mret (_commands s ++ sent).

(** ** Opening *)

Definition READONLY_CMD : bytes := crlf_line "READONLY".

(** [on_server_connected]: nothing, or what [send_readonly_for_each_conn] installs. *)
Definition on_server_connected (svr : nat) : W unit :=
  ro ← gets (fun w => send_readonly (w_glob w));
  when ro
    (s ← get_svr svr;
     flush_fd (svr_fd s) READONLY_CMD ;;
     set_svr svr (fun s => s <| _sent_commands ::= (fun l => l ++ [None]) |>)).

Definition _reconnect (svr : nat) (addr : Address) : W unit :=
  fd ← new_stream_socket;
  set_svr svr (fun s => s <| svr_fd := fd |> <| svr_proxy := true |> <| svr_addr := addr |>) ;;
  set_nonblocking fd ;;
  connect_fd (host addr) (port addr) fd ;;
  poll_add_rw (CServer svr) ;;
  on_server_connected svr.

(** [servers_pool.push_back(new Server)] *)
Definition new_pooled_server : W unit :=
  i ← fresh;
  modify (fun w => w <| w_svrs ::= <[i := new_Server]> |>) ;;
  set_glob (fun g => g <| servers_pool ::= (fun l => l ++ [i]) |>).

Definition _alloc_server (addr : Address) : W nat :=
  pool ← gets (fun w => servers_pool (w_glob w));
  when (bool_decide (pool = [])) (for_each (seq 0 8) (fun _ => new_pooled_server)) ;;
  pool ← gets (fun w => servers_pool (w_glob w));
  match last pool with
  | None => undefined
  | Some s =>
    try_catch (_reconnect s addr)
      (fun e => if is_io_error_base e then Some (close_conn s) else None) ;;
    set_glob (fun g => g <| servers_pool ::= (fun l => take (length l - 1) l) |>) ;;
    mret s
  end.

Definition get_server (addr : Address) : W nat :=
  i ← gets (fun w => servers_map (w_glob w) !! addr);
  open ← match i with
         | Some s => closed ← is_closed (CServer s); mret (if closed : bool then None else Some s)
         | None => mret None
         end;
  match open with
  | Some s => mret s
  | None =>
    s ← _alloc_server addr;
    (* [insert] keeps an entry that is there already *)
    set_glob (fun g => g <| servers_map ::= (fun m => match m !! addr with Some _ => m | None => <[addr := s]> m end) |>) ;;
    mret s
  end.

(** [attach_long_connection], [detach_long_connection] *)
Definition attach_long_connection (svr l : nat) : W unit :=
  set_svr svr (fun s => s <| attached_long_connections ::= union {[l]} |>) ;;
  s ← get_svr svr;
  if svr_proxy s then set_proxy (fun p => p <| _long_conns_count ::= Z.succ |>) else null_pointer.

Definition detach_long_connection (svr l : nat) : W unit :=
  set_svr svr (fun s => s <| attached_long_connections ::= (fun x => x ∖ {[l]}) |>) ;;
  s ← get_svr svr;
  if svr_proxy s then set_proxy (fun p => p <| _long_conns_count ::= Z.pred |>) else null_pointer.

(** ** [SlotMap] *)

(** [for (slot s = first; s <= second; ++s)]: past the table the access is undefined;
    the sets [removed] and [new_mapped] come back with the table. *)
Fixpoint map_slots (svr : nat) (first : Z) (n : nat) (removed : gset nat) : W (gset nat) :=
  match n with
  | O => mret removed
  | S n' =>
    if (0 <=? first) && (first <? CLUSTER_SLOT_COUNT) then
      old ← gets (fun w => _server_map (w_proxy w) !! first);
      set_proxy (fun p => p <| _server_map ::= <[first := svr]> |>) ;;
      map_slots svr (first + 1) n' (match old with Some o => {[o]} ∪ removed | None => removed end)
    else undefined
  end.

(** The number of turns of the loop over a range, up to the end of the table. *)
Definition range_turns (rg : Z * Z) : nat := Z.to_nat (Z.min (rg.2 - rg.1 + 1) (CLUSTER_SLOT_COUNT + 1)).

Fixpoint map_ranges (svr : nat) (ranges : list (Z * Z)) (removed new_mapped : gset nat) :
    W (gset nat * gset nat) :=
  match ranges with
  | [] => mret (removed, new_mapped)
  | rg :: ranges' =>
    removed ← map_slots svr rg.1 (range_turns rg) removed;
    map_ranges svr ranges' removed
      (if (rg.1 <=? rg.2) then {[svr]} ∪ new_mapped else new_mapped)
  end.

(** The loop over the nodes; [pick] is the address to connect to for a node. *)
Fixpoint map_nodes (pick : RedisNode -> Address) (nodes : list RedisNode) (removed new_mapped : gset nat) :
    W (gset nat * gset nat) :=
  match nodes with
  | [] => mret (removed, new_mapped)
  | node :: nodes' =>
    if bool_decide (slot_ranges node = []) then map_nodes pick nodes' removed new_mapped
    else
      server ← get_server (pick node);
      '(removed, new_mapped) ← map_ranges server (slot_ranges node) removed new_mapped;
      map_nodes pick nodes' removed new_mapped
  end.

(** [slave_of_map] of [select_slave_if_possible]. *)
Fixpoint slave_of (host_beginning : bytes) (nodes : list RedisNode) (m : gmap bytes RedisNode) :
    gmap bytes RedisNode :=
  match nodes with
  | [] => m
  | node :: nodes' =>
    if is_master node then slave_of host_beginning nodes' m
    else match m !! master_id node with
    | Some s =>
      if stristartswith (host (node_addr s)) host_beginning then slave_of host_beginning nodes' m
      else slave_of host_beginning nodes' (<[master_id node := node]> m)
    | None => slave_of host_beginning nodes' (<[master_id node := node]> m)
    end
  end.

(** The address each variant of [replace_map] picks. *)
Definition pick_addr (select : option bytes) (nodes : list RedisNode) (node : RedisNode) : Address :=
  match select with
  | None => node_addr node
  | Some host_beginning =>
    match slave_of host_beginning nodes ∅ !! node_id node with
    | Some slave => node_addr slave
    | None => node_addr node
    end
  end.

(** [SlotMap::replace_map]: the servers that lost their last slot are closed. *)
Definition replace_map (nodes : list RedisNode) : W unit :=
  select ← gets (fun w => select_slave (w_glob w));
  '(removed, new_mapped) ← map_nodes (pick_addr select nodes) nodes ∅ ∅;
  for_each (elements (removed ∖ new_mapped)) close_conn.

(** [SlotMap::clear] *)
Definition slot_map_clear : W unit :=
  m ← gets (fun w => _server_map (w_proxy w));
  for_each (elements (map_img m : gset nat)) close_conn ;;
  set_proxy (fun p => p <| _server_map := ∅ |>).

(** [SlotMap::random_addr] *)
Definition random_addr : W (option nat) :=
  ks ← randint 0 CLUSTER_SLOT_COUNT; get_by_slot ks.
