(* ===== verification/LongConn.v ===== *)
(** * Long connections: [core/subscription.hpp], [core/subscription.cpp]

    A client that subscribes or blocks on a list leaves the request/response cycle: its
    descriptor moves to a [Subscription] or a [BlockedListPop], which has a server
    connection of its own.  [Proxy::new_client] is here because [restore_client] calls
    it. *)
From S2P Require Import Prelude Address Buffer Response World Kernel Command Server.
#[local] Open Scope Z_scope.

(** [new Client(fd, proxy)] and [Proxy::new_client] *)
Definition new_client (fd : Z) : W nat :=
  i ← fresh;
  modify (fun w => w <| w_clis ::= <[i := mkClient fd ∅ [] [] [] 0 [] new_bufset]> |>) ;;
  on_throw (poll_add_ro (CClient i))
    (close_conn_fd (CClient i) ;; modify (fun w => w <| w_clis ::= delete i |>)) ;;
  set_proxy (fun p => p <| _clients_count ::= Z.succ |>) ;;
  mret i.

(** [delete] of a long connection: its server connection, then [~LongConnection], then
    its own descriptor. *)
Definition delete_long (l : nat) : W unit :=
  close_conn_fd (CLongServer l) ;;
  x ← get_long l;
  detach_long_connection (_attached_server x) l ;;
  close_conn_fd (CLong l) ;;
  modify (fun w => w <| w_longs ::= delete l |>).

(** [ServerConn(addr, cmd, peer)] *)
Definition open_server_conn (l : nat) (addr : Address) (cmd : bytes) : W unit :=
  fd ← new_stream_socket;
  set_long l (fun x => x <| long_server_fd := fd |>) ;;
  set_nonblocking fd ;;
  connect_fd (host addr) (port addr) fd ;;
  _ ← write_fd fd cmd; mret tt.

(** [Subscription(proxy, fd, peer, cmd)] and [BlockedListPop(proxy, fd, peer, cmd)]: an
    exception destroys what is built, the client's descriptor included. *)
Definition new_long (k : long_kind) (clientfd : Z) (svr : nat) (cmd : bytes) : W nat :=
  l ← fresh;
  modify (fun w => w <| w_longs ::= <[l := mkLong k clientfd svr (-1) []]> |>) ;;
  attach_long_connection svr l ;;
  on_throw
    (s ← get_svr svr;
     open_server_conn l (svr_addr s) cmd ;;
     poll_add_ro (CLongServer l) ;;
     poll_add_ro (CLong l))
    (delete_long l) ;;
  mret l.

(** [LongConnection::on_events]: the client's side. *)
Definition long_on_events (l : nat) (events : Z) : W unit :=
  let on_error := close_conn_fd (CLong l) in
  if event_is_hup events then on_error else
  go_on ← (if event_is_read events then
             fd ← conn_fd (CLong l);
             '(o, _) ← read_fd fd [];
             n ← lift o;
             if n =? 0 then on_error ;; mret false else mret true
           else mret true);
  if negb go_on then mret tt else when (event_is_write events) on_error.

(** [BlockedListPop::restore_client] *)
Definition restore_client (l : nat) (rsp : bytes) (upd : bool) : W unit :=
  closed ← is_closed (CLong l);
  if closed : bool then mret tt else
  fd ← conn_fd (CLong l);
  _ ← write_fd fd rsp;
  poll_del (CLong l) ;;
  _ ← new_client fd;
  set_conn_fd (CLong l) (-1) ;;
  when upd update_slot_map.

(** [ProxyConnection::on_error], and [BlockedListPop::ServerConn::on_error]. *)
Definition server_conn_on_error (l : nat) : W unit :=
  close_conn_fd (CLongServer l) ;;
  x ← get_long l;
  match long_kind_of x with
  | SubscriptionConn => mret tt
  | BlockedListPopConn => restore_client l NIL_STR true
  end.

(** [Subscription::ServerConn::on_events]: what is read goes to the client. *)
Definition subscription_server_on_events (l : nat) (events : Z) : W unit :=
  if event_is_hup events then server_conn_on_error l else
  go_on ← (if event_is_read events then
             x ← get_long l;
             '(o, b) ← read_fd (long_server_fd x) [];
             n ← lift o;
             if n =? 0 then server_conn_on_error l ;; mret false
             else _ ← write_fd (long_fd x) b; mret true
           else mret true);
  if negb go_on then mret tt else when (event_is_write events) (server_conn_on_error l).

(** [BlockedListPop::ServerConn::on_events]: the first response restores the client. *)
Definition blocked_server_on_events (l : nat) (events : Z) : W unit :=
  if event_is_hup events then server_conn_on_error l else
  go_on ← (if event_is_read events then
             x ← get_long l;
             '(o, b) ← read_fd (long_server_fd x) (long_buffer x);
             set_long l (fun x => x <| long_buffer := b |>) ;;
             n ← lift o;
             if n =? 0 then server_conn_on_error l ;; mret false else
             '(rsps, rest) ← lift (split_server_response b);
             set_long l (fun x => x <| long_buffer := rest |>) ;;
             match rsps with
             | [] => mret false
             | r :: _ =>
               (if server_moved r then restore_client l NIL_STR true
                else restore_client l (get_buffer r) false) ;; mret true
             end
           else mret true);
  if negb go_on then mret tt else when (event_is_write events) (server_conn_on_error l).

Definition long_server_on_events (l : nat) (events : Z) : W unit :=
  x ← get_long l;
  match long_kind_of x with
  | SubscriptionConn => subscription_server_on_events l events
  | BlockedListPopConn => blocked_server_on_events l events
  end.

(** [after_events] of the two sides; the result is [active_conns] without the other. *)
Definition long_after_events (l : nat) (active : gset Connection) : W (gset Connection) :=
  closed ← is_closed (CLong l);
  if closed : bool then delete_long l ;; mret (active ∖ {[CLongServer l]}) else mret active.

Definition long_server_after_events (l : nat) (active : gset Connection) : W (gset Connection) :=
  closed ← is_closed (CLongServer l);
  if closed : bool then delete_long l ;; mret (active ∖ {[CLong l]}) else mret active.
