(* ===== verification/Client.v ===== *)
(** * Clients: [core/client.hpp], [core/client.cpp]

    A client's groups go from [_parsed_groups] to [_awaiting_groups] to
    [_ready_groups], in order; at most [MAX_PIPE] at a time are handed to servers. *)
From S2P Require Import Prelude Address Buffer CommandParser World Kernel Command Server LongConn.
#[local] Open Scope Z_scope.

(** ** The group's side of [_process] *)

(** [long_connection], [wait_remote], [select_remote] *)
Definition long_connection (g : CommandGroup) : bool :=
  match grp_class g with Subscribe _ | BlockedPop _ _ => true | _ => false end.

Definition wait_remote (g : CommandGroup) : bool :=
  match grp_class g with SingleCommandGroup _ | MultipleCommandsGroup _ _ _ _ => true | _ => false end.

Definition select_remote (g : CommandGroup) : W unit :=
  match grp_class g with
  | SingleCommandGroup c => _ ← select_server c; mret tt
  | MultipleCommandsGroup _ _ cs _ => for_each cs (fun c => _ ← select_server c; mret tt)
  | _ => mret tt
  end.

(** [deliver_client]: the client's descriptor moves to a long connection. *)
Definition deliver_to (k : long_kind) (cli : nat) (svr : option nat) (b : bytes) : W unit :=
  match svr with
  | None => close_conn_fd (CClient cli)
  | Some s =>
    fd ← conn_fd (CClient cli);
    _ ← new_long k fd s b;
    set_conn_fd (CClient cli) (-1)
  end.

Definition deliver_client (g : CommandGroup) : W unit :=
  match grp_class g with
  | Subscribe b => s ← random_addr; deliver_to SubscriptionConn (grp_client g) s b
  | BlockedPop b ks => s ← get_server_by_slot ks; deliver_to BlockedListPopConn (grp_client g) s b
  | _ => mret tt
  end.

(** ** [Client::_process] *)

(** The loop from index [i], [n] turns left; [false]: the client became a long connection
    and the function returned. *)
Fixpoint process_loop (cli : nat) (i n : nat) : W bool :=
  match n with
  | O => mret true
  | S n' =>
    c ← get_cli cli;
    match _parsed_groups c !! i with
    | Some (Some gi) =>
      g ← get_grp gi;
      if long_connection g then
        poll_del (CClient cli) ;; deliver_client g ;; close_conn_fd (CClient cli) ;; mret false
      else
        when (wait_remote g)
          (set_cli cli (fun c => c <| _awaiting_count ::= Z.succ |>) ;; select_remote g) ;;
        set_cli cli (fun c => c <| _awaiting_groups ::= (fun l => l ++ [gi]) |>
                                <| _parsed_groups ::= <[i := None]> |>) ;;
        process_loop cli (S i) n'
    | Some None => null_pointer
    | None => undefined
    end
  end.

Definition _process (cli : nat) : W unit :=
  c ← get_cli cli;
  let pipe_groups := Z.to_nat (Z.min (zlen (_parsed_groups c)) MAX_PIPE) in
  go_on ← process_loop cli 0 pipe_groups;
  if negb go_on then mret tt else
  set_cli cli (fun c => c <| _parsed_groups ::= drop pipe_groups |>) ;;
  c ← get_cli cli;
  if 0 <? _awaiting_count c
  then for_each (elements (_peers c)) (fun s => set_conn_poll_rw (CServer s))
  else _push_awaitings_to_ready cli.

(** ** Writing and reading *)

Definition _send_buffer_set (cli : nat) : W unit :=
  c ← get_cli cli;
  '(o, bs) ← writev_fd (cli_fd c) (cli_output c);
  set_cli cli (fun c => c <| cli_output := bs |>) ;;
  all_sent ← lift o;
  when all_sent
    (c ← get_cli cli;
     for_each (_ready_groups c) collect_stats ;;
     for_each (_ready_groups c) delete_group ;;
     set_cli cli (fun c => c <| _ready_groups := [] |>) ;;
     when (bool_decide (_awaiting_groups c = [])) (set_cli cli (fun c => c <| _peers := ∅ |>)) ;;
     when (negb (bool_decide (_parsed_groups c = []))) (_process cli)).

Definition _write_response (cli : nat) : W unit :=
  c ← get_cli cli;
  when (negb (bufset_empty (cli_output c))) (_send_buffer_set cli) ;;
  c ← get_cli cli;
  if bool_decide (_awaiting_groups c = []) || negb (_awaiting_count c =? 0) then mret tt
  else _push_awaitings_to_ready cli ;; _send_buffer_set cli.

Definition _read_request (stats : World -> option bytes) (cli : nat) : W unit :=
  c ← get_cli cli;
  '(o, buf) ← read_fd (cli_fd c) (cli_buffer c);
  set_cli cli (fun c => c <| cli_buffer := buf |>) ;;
  n ← lift o;
  if n =? 0 then close_conn_fd (CClient cli) else
  t ← gets (fun w => cmd_tables (w_glob w));
  let '(o, (gs, rest)) := split_client_command t buf in
  push_commands stats cli gs ;;
  set_cli cli (fun c => c <| cli_buffer := rest |>) ;;
  lift o ;;
  c ← get_cli cli;
  when (bool_decide (_awaiting_groups c = [])) (_process cli).

(** ** Events *)

Definition client_on_events (stats : World -> option bytes) (cli : nat) (events : Z) : W unit :=
  if event_is_hup events then close_conn_fd (CClient cli) else
  try_catch
    (when (event_is_read events) (_read_request stats cli) ;;
     closed ← is_closed (CClient cli);
     if closed : bool then mret tt else
     when (event_is_write events) (_write_response cli) ;;
     c ← get_cli cli;
     if bufset_empty (cli_output c) then set_conn_poll_ro (CClient cli) else set_conn_poll_rw (CClient cli))
    (fun e => if is_bad_redis_message e || is_io_error_base e
              then Some (close_conn_fd (CClient cli)) else None).

(** [Proxy::pop_client] *)
Definition proxy_pop_client (cli : nat) : W unit :=
  retrying ← gets (fun w => _retrying_commands (w_proxy w));
  rest ← erase_client cli retrying;
  set_proxy (fun p => p <| _retrying_commands := rest |> <| _clients_count ::= Z.pred |>
                        <| _fd_closed := true |>).

(** [~Client]: its commands leave the servers and the proxy, then the groups go. *)
Definition delete_client (cli : nat) : W unit :=
  c ← get_cli cli;
  for_each (elements (_peers c)) (fun s => server_pop_client s cli) ;;
  proxy_pop_client cli ;;
  for_each (omap id (_parsed_groups c) ++ _awaiting_groups c ++ _ready_groups c) delete_group ;;
  close_conn_fd (CClient cli) ;;
  modify (fun w => w <| w_clis ::= delete cli |>).

Definition client_after_events (cli : nat) : W unit :=
  closed ← is_closed (CClient cli); when closed (delete_client cli).
