(* ===== verification/Proxy.v ===== *)
(** * The proxy: [core/proxy.hpp], [core/proxy.cpp], [core/acceptor.cpp], [core/connection.hpp]

    The slot map updaters, the acceptor, and [Proxy::handle_events], the body of a
    thread's loop. *)
From Stdlib Require Import QArith.
From S2P Require Import Prelude Strings OrderedSet Address SlotCalc Buffer Response SlotMap CommandParser World Kernel Command Server LongConn Client.
#[local] Open Scope Z_scope.

(** ** Slot map updates *)

(** [Proxy::_move_closed_slot_updaters] *)
Definition _move_closed_slot_updaters : W unit :=
  us ← gets (fun w => _slot_updaters (w_proxy w));
  for_each us (fun u => set_upd u (fun x => x <| _proxy_already_updated := true |>)) ;;
  set_proxy (fun p => p <| _finished_slot_updaters ::= (fun l => l ++ us) |> <| _slot_updaters := [] |>).

(** The loop of [_set_slot_map] over the commands to retry: the servers to poll. *)
Fixpoint retry_commands (cmds : list nat) (svrs : gset nat) : W (gset nat) :=
  match cmds with
  | [] => mret svrs
  | c :: cmds' =>
    s ← select_server c;
    match s with
    | None => set_proxy (fun p => p <| _slot_map_expired := true |>) ;; retry_commands cmds' svrs
    | Some s => retry_commands cmds' ({[s]} ∪ svrs)
    end
  end.

Definition _set_slot_map (nodes : list RedisNode) (remotes : list Address) : W unit :=
  replace_map nodes ;;
  set_proxy (fun p => p <| _slot_map_expired := false |>) ;;
  set_glob (fun g => g <| remote_addrs := remotes |> <| cluster_ok := true |>) ;;
  retrying ← gets (fun w => _retrying_commands (w_proxy w));
  if bool_decide (retrying = []) then mret tt else
  set_proxy (fun p => p <| _retrying_commands := [] |>) ;;
  svrs ← retry_commands retrying ∅;
  for_each (elements svrs) (fun s => poll_rw (CServer s)).

Definition CLUSTERDOWN_RSP : bytes := crlf_line "-CLUSTERDOWN The cluster is down".

(** Whether one of the updaters is still open. *)
Fixpoint any_open (us : list nat) : W bool :=
  match us with
  | [] => mret false
  | u :: us' => closed ← is_closed (CUpdater u); if closed : bool then any_open us' else mret true
  end.

(** [util::max_element] by [covered_slots()]: the first of the largest. *)
Fixpoint max_covered (best : nat) (us : list nat) : W nat :=
  match us with
  | [] => mret best
  | u :: us' =>
    x ← get_upd best; y ← get_upd u;
    max_covered (if (size (_covered_slots x) <? size (_covered_slots y))%nat then u else best) us'
  end.

Definition _update_slot_map_failed : W unit :=
  us ← gets (fun w => _slot_updaters (w_proxy w));
  open ← any_open us;
  if open : bool then mret tt else
  full_cov ← gets (fun w => req_full_cov (w_glob w));
  used ← (match us with
          | u :: us' =>
            if full_cov : bool then mret false else
            best ← max_covered u us';
            x ← get_upd best;
            if bool_decide (size (_covered_slots x) = 0%nat) then mret false
            else _set_slot_map (_nodes x) (_remotes x) ;; _move_closed_slot_updaters ;; mret true
          | [] => mret false
          end);
  if used : bool then mret tt else
  _move_closed_slot_updaters ;;
  set_glob (fun g => g <| cluster_ok := false |>) ;;
  slot_map_clear ;;
  cmds ← gets (fun w => _retrying_commands (w_proxy w));
  set_proxy (fun p => p <| _retrying_commands := [] |>) ;;
  for_each cmds (fun c => on_remote_responsed c CLUSTERDOWN_RSP true) ;;
  set_proxy (fun p => p <| _slot_map_expired := false |>).

Definition notify_slot_map_updated (nodes : list RedisNode) (remotes : list Address) (covered : Z) : W unit :=
  if covered <? CLUSTER_SLOT_COUNT then _update_slot_map_failed
  else _set_slot_map nodes remotes ;; _move_closed_slot_updaters.

(** ** [SlotsMapUpdater] *)

Definition _notify_updated (u : nat) : W unit :=
  close_conn_fd (CUpdater u) ;;
  x ← get_upd u;
  if _proxy_already_updated x then mret tt
  else notify_slot_map_updated (_nodes x) (_remotes x) (Z.of_nat (size (_covered_slots x))).

(** The slots of a range, as the loop [for (slot s = first; s <= second; ++s)] visits them. *)
Fixpoint slots_from (first : Z) (n : nat) : list Z :=
  match n with O => [] | S n' => first :: slots_from (first + 1) n' end.

Definition range_slots (rg : Z * Z) : list Z := slots_from rg.1 (Z.to_nat (rg.2 - rg.1 + 1)).

(** The loop over the nodes: the slots covered and the remote addresses. *)
Definition cover_node (x : SlotsMapUpdater) (node : RedisNode) : SlotsMapUpdater :=
  if bool_decide (host (node_addr node) = []) then x
  else x <| _covered_slots ::= (fun m => foldl (fun m s => <[s := tt]> m) m (flat_map range_slots (slot_ranges node))) |>
         <| _remotes ::= set_insert addr_ltb (node_addr node) |>.

Definition _recv_rsp (u : nat) : W unit :=
  x ← get_upd u;
  '(o, b) ← read_fd (upd_fd x) (_rsp x);
  set_upd u (fun x => x <| _rsp := b |>) ;;
  _ ← lift o;
  '(rsps, rest) ← lift (split_server_response b);
  set_upd u (fun x => x <| _rsp := rest |>) ;;
  match rsps with
  | [] => poll_ro (CUpdater u)
  | [r] =>
    nodes ← lift (parse_slot_map (buffer_to_string (get_buffer r)) (host (upd_addr x)));
    set_upd u (fun x => foldl cover_node (x <| _nodes := nodes |>) nodes) ;;
    _notify_updated u
  | _ => throw (BadRedisMessage (s2b "Ask cluster nodes returns responses with size=" ++ str (zlen rsps)))
  end.

Definition _send_cmd (u : nat) : W unit :=
  x ← get_upd u; flush_fd (upd_fd x) CLUSTER_NODES_CMD ;; poll_ro (CUpdater u).

Definition updater_on_events (u : nat) (events : Z) : W unit :=
  if event_is_hup events then _notify_updated u
  else if event_is_write events then _send_cmd u
  else when (event_is_read events) (catch_bad (_recv_rsp u) (_notify_updated u)).

(** [new SlotsMapUpdater(addr, proxy)] *)
Definition new_updater (addr : Address) : W nat :=
  fd ← new_stream_socket;
  u ← fresh;
  modify (fun w => w <| w_upds ::= <[u := mkUpdater fd [] [] [] ∅ false addr]> |>) ;;
  on_throw
    (set_nonblocking fd ;; connect_fd (host addr) (port addr) fd ;; poll_add_rw (CUpdater u))
    (close_conn_fd (CUpdater u) ;; modify (fun w => w <| w_upds ::= delete u |>)) ;;
  mret u.

Definition _retrieve_slot_map : W unit :=
  remotes ← gets (fun w => remote_addrs (w_glob w));
  if bool_decide (remotes = []) then _update_slot_map_failed else
  for_each remotes (fun addr =>
    try_catch
      (u ← new_updater addr; set_proxy (fun p => p <| _slot_updaters ::= (fun l => l ++ [u]) |>))
      (fun e => match e with ConnectionRefused _ _ _ | UnknownHost _ => Some (mret tt) | _ => None end)) ;;
  us ← gets (fun w => _slot_updaters (w_proxy w));
  when (bool_decide (us = [])) _update_slot_map_failed.

Definition _should_update_slot_map (p : Proxy) : bool :=
  bool_decide (_slot_updaters p = []) &&
  (negb (bool_decide (_retrying_commands p = [])) || _slot_map_expired p).

(** ** [Acceptor] *)

Definition turn_on_accepting : W unit :=
  a ← gets (fun w => _accepting (w_proxy w));
  if a : bool then mret tt
  else set_proxy (fun p => p <| _accepting := true |>) ;; poll_add_ro CAcceptor.

(** The loop of [Acceptor::on_events]; the script of [accept] bounds its turns. *)
Fixpoint accept_loop (fuel : nat) : W unit :=
  match fuel with
  | O => no_fuel
  | S fuel' =>
    r ← cio_accept;
    match r with
    | AccFd cfd _ =>
      if 0 <? cfd then set_nonblocking cfd ;; _ ← new_client cfd; accept_loop fuel' else mret tt
    | AccErr e =>
      if (e =? ENFILE) || (e =? EMFILE)
      then set_proxy (fun p => p <| _accepting := false |>) ;; poll_del CAcceptor
      else if negb (e =? EAGAIN) && negb (e =? ECONNABORTED) && negb (e =? EPROTO) && negb (e =? EINTR)
      then throw (SocketAcceptError e)
      else mret tt
    end
  end.

Definition acceptor_on_events : W unit :=
  l ← gets (fun w => k_accepts (w_kern w)); accept_loop (S (length l)).

(** ** [Proxy(listen_port)]: with its member [Acceptor(this, listen_port)] *)
Definition new_Proxy (fd : Z) : Proxy :=
  mkProxy 0 0 ∅ [] [] [] ∅ 0%Q 0%Q 0 0%Q 0%Q true false ∅ fd false.

Definition start_proxy (listen_port : Z) : W unit :=
  poll_create ;;
  fd ← new_stream_socket;
  set_nonblocking fd ;;
  bind_to fd listen_port ;;
  modify (fun w => w <| w_proxy := new_Proxy fd |>) ;;
  turn_on_accepting.

(** The process before a proxy is built: no object, and the globals' initial values. *)
Definition initial_globals (t : CommandTables) : Globals :=
  mkGlobals [] false true false None false t [] ∅ [].

Definition initial_world (g : Globals) (k : Kernel) : World :=
  mkWorld {[RSP_OK := RSP_OK_STR]} ∅ ∅ ∅ ∅ ∅ ∅ 1 (new_Proxy (-1)) g k.

(** ** [Connection]: the virtual members *)

Definition on_events (stats : World -> option bytes) (c : Connection) (events : Z) : W unit :=
  match c with
  | CClient i => client_on_events stats i events
  | CServer i => server_on_events i events
  | CLong i => long_on_events i events
  | CLongServer i => long_server_on_events i events
  | CUpdater i => updater_on_events i events
  | CAcceptor => acceptor_on_events
  end.

Definition conn_on_error (c : Connection) : W unit :=
  match c with
  | CClient _ | CLong _ => close_conn_fd c
  | CServer i => close_conn i
  | CLongServer i => server_conn_on_error i
  | CUpdater i => _notify_updated i
  | CAcceptor => mret tt
  end.

(** [after_events(active_conns)]: the set it leaves. *)
Definition after_events (c : Connection) (active : gset Connection) : W (gset Connection) :=
  match c with
  | CClient i => client_after_events i ;; mret active
  | CServer i => server_after_events i ;; mret active
  | CLong i => long_after_events i active
  | CLongServer i => long_server_after_events i active
  | CUpdater _ | CAcceptor => mret active
  end.

(** ** [Proxy::handle_events] *)

(** The static [poll_ctl]; the map is moved out of the proxy. *)
Definition poll_ctl : W unit :=
  polls ← gets (fun w => _conn_poll_type (w_proxy w));
  set_proxy (fun p => p <| _conn_poll_type := ∅ |>) ;;
  for_each (map_to_list polls) (fun '(c, writable) =>
    closed ← is_closed c;
    if closed : bool then mret tt else if writable : bool then poll_rw c else poll_ro c).

(** The loop over the events: [closed] are [closed_conns], [active] are [active_conns]. *)
Fixpoint process_events (stats : World -> option bytes) (events : list (Connection * Z))
    (closed active : gset Connection) : W (gset Connection) :=
  match events with
  | [] => mret active
  | (c, ev) :: events' =>
    if bool_decide (c ∈ closed) then process_events stats events' closed active
    else
      failed ← try_catch (on_events stats c ev ;; mret false)
                 (fun e => if is_io_error_base e then Some (conn_on_error c ;; mret true) else None);
      process_events stats events' (if failed : bool then {[c]} ∪ closed else closed) ({[c]} ∪ active)
  end.

(** The loop over [active_conns], which [after_events] may shrink. *)
Fixpoint after_all (conns : list Connection) (active : gset Connection) : W unit :=
  match conns with
  | [] => mret tt
  | c :: conns' =>
    if bool_decide (c ∈ active) then active ← after_events c active; after_all conns' active
    else after_all conns' active
  end.

(** [_finished_slot_updaters.clear()] *)
Definition delete_updater (u : nat) : W unit :=
  close_conn_fd (CUpdater u) ;; modify (fun w => w <| w_upds ::= delete u |>).

Definition handle_events (stats : World -> option bytes) (events : list (Connection * Z)) : W unit :=
  inactive ← gets (fun w => _inactive_long_connections (w_proxy w));
  for_each (elements inactive) (fun l =>
    close_conn_fd (CLong l) ;; set_proxy (fun p => p <| _fd_closed := true |>)) ;;
  set_proxy (fun p => p <| _inactive_long_connections := ∅ |>) ;;
  active ← process_events stats events (set_map CLong inactive) ∅;
  poll_ctl ;;
  after_all (elements active) active ;;
  us ← gets (fun w => _finished_slot_updaters (w_proxy w));
  for_each us delete_updater ;;
  set_proxy (fun p => p <| _finished_slot_updaters := [] |>) ;;
  p ← gets w_proxy;
  when (_should_update_slot_map p) (_retrieve_slot_map ;; poll_ctl) ;;
  p ← gets w_proxy;
  when (_fd_closed p)
    (set_proxy (fun p => p <| _fd_closed := false |>) ;; turn_on_accepting).
