(* ===== verification/Concurrence.v ===== *)
(** * The threads: [core/concurrence.hpp], [core/concurrence.cpp], [poll::poll_wait] of [syscalls/poll.h]

    The loop of a listening thread: wait for events, handle them.  The results of
    [epoll_wait] are given to the loop, one per turn. *)
From S2P Require Import Prelude Strings Buffer World Kernel Proxy.
#[local] Open Scope Z_scope.

(** [ListenThread], as the other threads read it: its proxy, and its counter of buffer bytes,
    to which [_mem_buffer_stat] points once the thread runs. *)
Record ListenThread : Type := mkThread { _proxy : Proxy; _mem_buffer_stat : option Z }.

Definition new_ListenThread (p : Proxy) : ListenThread := mkThread p None.

Definition buffer_allocated (t : ListenThread) : outcome Z :=
  match _mem_buffer_stat t with Some n => Ret n | None => UB NullPointer end.

Definition MAX_EVENTS : nat := 1024.

Inductive wait_res : Type := WaitEvents (events : list (Connection * Z)) | WaitErr (errno : Z).

Definition poll_wait (r : wait_res) : outcome (list (Connection * Z)) :=
  match r with
  | WaitEvents events => Ret events
  | WaitErr e => if e =? EINTR then Ret [] else Throw (SystemError (s2b "epoll_wait") e)
  end.

(** The body of the loop. *)
Definition thread_turn (stats : World -> option bytes) (r : wait_res) : W unit :=
  events ← lift (poll_wait r); handle_events stats events.

(** [ListenThread::run]: a [SystemError] ends the process with status 1; any other exception is
    a [std::runtime_error], whose [LOG(FATAL)] aborts before the [exit(1)] that follows it.  A
    turn that does not end leaves the thread where it is. *)
Inductive thread_end : Type := Running | Exited (status : Z) | Aborted | Crashed (k : ub).

Fixpoint thread_run (stats : World -> option bytes) (rs : list wait_res) (w : World) : thread_end * World :=
  match rs with
  | [] => (Running, w)
  | r :: rs' =>
    match thread_turn stats r w with
    | (Ret _, w') => thread_run stats rs' w'
    | (Throw (SystemError _ _), w') => (Exited 1, w')
    | (Throw _, w') => (Aborted, w')
    | (UB k, w') => (Crashed k, w')
    | (NoFuel, w') => (Running, w')
    end
  end.
