(* ===== verification/Stats.v ===== *)
(** * Statistics: [core/stats.hpp], [core/stats.cpp]

    The text INFO and PROXY answer with, and the counter of the buffers' bytes.  A reader of
    the text gets every counter back. *)
From Stdlib Require Import QArith.
From S2P Require Import Prelude Strings OrderedSet Address SlotMap World Kernel Proxy Concurrence.
#[local] Open Scope Z_scope.

(** ** [std::ostream << double]

    The notation of [%g] with six significant digits, rounded half to even. *)

(** [log10] of [n / d], rounded down: times ten as often as it fits. *)
Fixpoint log10_up (fuel : nat) (n d : Z) : Z :=
  match fuel with
  | O => 0
  | S f => if d * 10 <=? n then 1 + log10_up f n (d * 10) else 0
  end.

Fixpoint log10_down (fuel : nat) (n d : Z) : Z :=
  match fuel with
  | O => 0
  | S f => if d <=? n then 0 else log10_down f (n * 10) d - 1
  end.

Definition exponent10 (n d : Z) : Z :=
  if d <=? n then log10_up (Z.to_nat (Z.log2 n)) n d else log10_down (Z.to_nat (Z.log2 d + 1)) n d.

Definition round_half_even (n d : Z) : Z :=
  let q := n / d in
  let r := 2 * (n mod d) in
  if (d <? r) || ((d =? r) && Z.odd q) then q + 1 else q.

(** [n / d] as [m * 10 ^ (e - 5)] with six digits in [m]. *)
Definition six_digits (n d : Z) : Z * Z :=
  let e := exponent10 n d in
  let m := if 5 <=? e then round_half_even n (d * 10 ^ (e - 5)) else round_half_even (n * 10 ^ (5 - e)) d in
  if m =? 1000000 then (100000, e + 1) else (m, e).

Fixpoint strip_zeros (l : bytes) : bytes :=
  match l with
  | [] => []
  | b :: l' =>
    match strip_zeros l' with
    | [] => if Ascii.eqb b "0"%char then [] else [b]
    | r => b :: r
    end
  end.

Definition with_point (int frac : bytes) : bytes :=
  match strip_zeros frac with [] => int | f => int ++ "."%char :: f end.

Definition print_exponent (e : Z) : bytes :=
  (if e <? 0 then "-"%char else "+"%char) :: (if Z.abs e <? 10 then s2b "0" else []) ++ str (Z.abs e).

Definition print_pos (n d : Z) : bytes :=
  let '(m, e) := six_digits n d in
  let ds := str m in
  if (-4 <=? e) && (e <? 6) then
    if 0 <=? e then with_point (take (Z.to_nat (e + 1)) ds) (drop (Z.to_nat (e + 1)) ds)
    else with_point (s2b "0") (replicate (Z.to_nat (- e - 1)) "0"%char ++ ds)
  else with_point (take 1 ds) (drop 1 ds) ++ "e"%char :: print_exponent e.

Definition str_double (q : Q) : bytes :=
  let n := Qnum q in
  let d := Z.pos (Qden q) in
  if n =? 0 then s2b "0" else if n <? 0 then "-"%char :: print_pos (- n) d else print_pos n d.

(** ** [BufferStatAllocator]: the counter [cerb_global::allocated_buffer] of a thread *)

Definition allocate (n allocated_buffer : Z) : Z := (allocated_buffer + n) mod 2 ^ 64.
Definition deallocate (n allocated_buffer : Z) : Z := (allocated_buffer - n) mod 2 ^ 64.

(** ** [stats_all] *)

Definition VERSION : bytes := s2b "0.8.0-2018-05-02".

(** [getrusage]: seconds and microseconds, in the system and in the program. *)
Record rusage : Type := mkRusage { ru_stime : Z * Z; ru_utime : Z * Z }.

Definition seconds (t : Z * Z) : Q := (inject_Z t.1 + (t.2 # 1000000))%Q.

Definition flag (b : bool) : bytes := s2b (if b then "1" else "0").

Fixpoint buffers_allocated (threads : list ListenThread) : outcome (list Z) :=
  match threads with
  | [] => Ret []
  | t :: threads' => n ← buffer_allocated t; ns ← buffers_allocated threads'; Ret (n :: ns)
  end.

Section StatsAll.
Context (res_usage : rusage) (g : Globals) (all_threads : list ListenThread).

Definition total {A} (add : A -> A -> A) (zero : A) (f : Proxy -> A) : A :=
  foldl (fun n t => add n (f (_proxy t))) zero all_threads.

Definition of_each (f : Proxy -> bytes) : bytes := join (s2b ",") ((fun t => f (_proxy t)) <$> all_threads).

Definition stats_all : outcome bytes :=
  mem_buffer_allocs ← buffers_allocated all_threads;
  Ret (join []
    [ s2b "version:" ++ VERSION ++ LF :: s2b "threads:"; str (zlen all_threads);
      LF :: s2b "cluster_ok:"; flag (cluster_ok g);
      LF :: s2b "read_slave:"; flag (read_slave g);
      LF :: s2b "clients_count:"; of_each (fun p => str (_clients_count p));
      LF :: s2b "accepting:"; of_each (fun p => flag (_accepting p));
      LF :: s2b "long_connections_count:"; of_each (fun p => str (_long_conns_count p));
      LF :: s2b "used_cpu_sys:"; str_double (seconds (ru_stime res_usage));
      LF :: s2b "used_cpu_user:"; str_double (seconds (ru_utime res_usage));
      LF :: s2b "mem_buffer_alloc:"; join (s2b ",") (str <$> mem_buffer_allocs);
      LF :: s2b "completed_commands:"; str (total Z.add 0 _total_cmd);
      LF :: s2b "total_process_elapse:"; str_double (total Qplus 0%Q _total_cmd_elapse);
      LF :: s2b "total_remote_cost:"; str_double (total Qplus 0%Q _total_remote_cost);
      LF :: s2b "last_command_elapse:"; of_each (fun p => str_double (_last_cmd_elapse p));
      LF :: s2b "last_remote_cost:"; of_each (fun p => str_double (_last_remote_cost p));
      LF :: s2b "remotes:"; join (s2b ",") (addr_str <$> remote_addrs g) ]).
End StatsAll.

(** [stats_set_read_slave] *)
Definition stats_set_read_slave (g : Globals) : Globals := g <| read_slave := true |>.

(** ** Reading the text *)

(** What the text says: the names and their values. *)
Definition stats_fields (res_usage : rusage) (g : Globals) (threads : list ListenThread) (mem : list Z) :
    list (bytes * list bytes) :=
  let each (f : Proxy -> bytes) := (fun t => f (_proxy t)) <$> threads in
  [ (s2b "version", [VERSION]);
    (s2b "threads", [str (zlen threads)]);
    (s2b "cluster_ok", [flag (cluster_ok g)]);
    (s2b "read_slave", [flag (read_slave g)]);
    (s2b "clients_count", each (fun p => str (_clients_count p)));
    (s2b "accepting", each (fun p => flag (_accepting p)));
    (s2b "long_connections_count", each (fun p => str (_long_conns_count p)));
    (s2b "used_cpu_sys", [str_double (seconds (ru_stime res_usage))]);
    (s2b "used_cpu_user", [str_double (seconds (ru_utime res_usage))]);
    (s2b "mem_buffer_alloc", str <$> mem);
    (s2b "completed_commands", [str (total threads Z.add 0 _total_cmd)]);
    (s2b "total_process_elapse", [str_double (total threads Qplus 0%Q _total_cmd_elapse)]);
    (s2b "total_remote_cost", [str_double (total threads Qplus 0%Q _total_remote_cost)]);
    (s2b "last_command_elapse", each (fun p => str_double (_last_cmd_elapse p)));
    (s2b "last_remote_cost", each (fun p => str_double (_last_remote_cost p)));
    (s2b "remotes", addr_str <$> remote_addrs g) ].

(** A reader: lines, a name before the first colon, values between commas. *)
Fixpoint cut_at (c : byte) (s : bytes) : bytes * bytes :=
  match s with
  | [] => ([], [])
  | b :: s' => if Ascii.eqb b c then ([], s') else let '(k, v) := cut_at c s' in (b :: k, v)
  end.

Definition read_line (line : bytes) : bytes * list bytes :=
  let '(k, v) := cut_at ":"%char line in (k, split_str v [","%char] true).

Definition read_stats (text : bytes) : list (bytes * list bytes) := read_line <$> split_str text [LF] false.

(** A value can be read back: it is there, on one line, without a comma. *)
Definition readable (v : bytes) : Prop := v <> [] /\ (LF ∉ v) /\ (","%char ∉ v).

Definition line_of (f : bytes * list bytes) : bytes := f.1 ++ ":"%char :: join (s2b ",") f.2.

Lemma join_one sep v : join sep [v] = v.
Proof. done. Qed.

Lemma stats_all_lines u g threads mem :
  buffers_allocated threads = Ret mem ->
  stats_all u g threads = Ret (join [LF] (line_of <$> stats_fields u g threads mem)).
Proof.
  intros Hm. unfold stats_all. rewrite Hm. unfold mbind, outcome_bind. f_equal. unfold stats_fields, of_each.
  cbn [fmap list_fmap]. unfold line_of. cbn [fst snd]. rewrite !join_one.
  repeat match goal with
         | |- context [join (s2b ",") ?l] => generalize (join (s2b ",") l)
         | |- context [str_double ?x] => generalize (str_double x)
         | |- context [str ?x] => generalize (str x)
         | |- context [flag ?x] => generalize (flag x)
         end. generalize VERSION. intros.
  unfold join. cbn [foldl]. unfold s2b. cbn [String.list_ascii_of_string app]. repeat (rewrite <- app_assoc; cbn [app]). reflexivity.
Qed.

(** ** Every value can be read back *)

Lemma readable_str i : readable (str i).
Proof. split_and!; [|by apply str_chars..]. unfold str. case_match; [done|apply print_nat_ne]. Qed.

Lemma readable_flag b : readable (flag b).
Proof. split_and!; destruct b; try done; apply (bool_decide_eq_true_1 _); reflexivity. Qed.

Lemma readable_version : readable VERSION.
Proof. split_and!; [done|apply (bool_decide_eq_true_1 _); reflexivity..]. Qed.

(** The characters of a printed [double]. *)
Definition digit_or (extra : bytes) (b : byte) : Prop := is_digit b = true \/ b ∈ extra.
#[local] Abbreviation numeric := (Forall (digit_or (s2b ".e+-"))).

Lemma numeric_readable s : s <> [] -> numeric s -> readable s.
Proof.
  intros Hne Hs. rewrite Forall_forall in Hs. split_and!; [done|intros Hin..]; destruct (Hs _ Hin) as [|Hx]; try done;
    by apply (bool_decide_eq_true_2 _) in Hx.
Qed.

Lemma numeric_nat n : numeric (print_nat n).
Proof. eapply Forall_impl; [apply print_nat_digits|]. by left. Qed.

Lemma numeric_str i : numeric (str i).
Proof.
  unfold str. case_match; [|apply numeric_nat]. constructor; [|apply numeric_nat]. right. apply (bool_decide_eq_true_1 _). reflexivity.
Qed.

Lemma strip_zeros_incl l b : b ∈ strip_zeros l -> b ∈ l.
Proof.
  induction l as [|c l IH]; cbn; [done|]. destruct (strip_zeros l) as [|d r].
  - case_match; [by intros []%elem_of_nil|]. intros ->%list_elem_of_singleton. by left.
  - rewrite !elem_of_cons in *. naive_solver.
Qed.

Ltac char_in := right; apply (bool_decide_eq_true_1 _); reflexivity.

Lemma numeric_with_point int frac : int <> [] -> numeric int -> numeric frac -> with_point int frac <> [] /\ numeric (with_point int frac).
Proof.
  intros Hne Hi Hf. unfold with_point. destruct (strip_zeros frac) as [|c r] eqn:E; [done|]. split; [by destruct int|].
  apply Forall_app. split; [done|]. constructor; [char_in|]. rewrite <- E. rewrite Forall_forall in *. intros b Hb%strip_zeros_incl. auto.
Qed.

Lemma numeric_exponent e : numeric (print_exponent e).
Proof. unfold print_exponent. constructor; [case_match; char_in|]. apply Forall_app. split; [|apply numeric_str]. case_match; repeat constructor. Qed.

Lemma numeric_pos n d : print_pos n d <> [] /\ numeric (print_pos n d).
Proof.
  unfold print_pos. destruct (six_digits n d) as [m e]. pose proof (numeric_str m) as Hs. pose proof (readable_str m) as [Hne _].
  assert (Ht : forall k, numeric (take (S k) (str m)) /\ numeric (drop (S k) (str m)) /\ take (S k) (str m) <> []).
  { intros k. split_and!; [by apply Forall_take|by apply Forall_drop|by destruct (str m)]. }
  case_match; [case_match eqn:E|].
  - replace (Z.to_nat (e + 1)) with (S (Z.to_nat e)) by lia. destruct (Ht (Z.to_nat e)) as (? & ? & ?). by apply numeric_with_point.
  - apply numeric_with_point; [done|repeat constructor|]. apply Forall_app. split; [|done]. apply Forall_replicate. by left.
  - destruct (Ht 0%nat) as (? & ? & ?). destruct (numeric_with_point (take 1 (str m)) (drop 1 (str m))) as [Hw1 Hw2]; [done..|].
    split; [by destruct (with_point _ _)|]. apply Forall_app. split; [done|]. constructor; [char_in|apply numeric_exponent].
Qed.

Lemma readable_double q : readable (str_double q).
Proof.
  unfold str_double. repeat case_match.
  - apply numeric_readable; [done|repeat constructor].
  - destruct (numeric_pos (- Qnum q) (Z.pos (Qden q))). apply numeric_readable; [done|]. constructor; [char_in|done].
  - destruct (numeric_pos (Qnum q) (Z.pos (Qden q))). by apply numeric_readable.
Qed.

(** A host that can be read back; a host is never printed alone. *)
Definition readable_host (h : bytes) : Prop := (LF ∉ h) /\ (","%char ∉ h).

Lemma readable_addr a : readable_host (host a) -> readable (addr_str a).
Proof.
  intros [H1 H2]. destruct (readable_str (port a)) as (? & ? & ?). unfold readable, addr_str. rewrite !not_elem_of_app, !not_elem_of_cons.
  split_and!; try done. by destruct (host a).
Qed.

Lemma readable_all {A} (f : A -> bytes) l : (forall x, readable (f x)) -> Forall readable (f <$> l).
Proof. intros Hf. apply Forall_fmap, Forall_true. exact Hf. Qed.

Create HintDb readable.
#[local] Hint Resolve readable_str readable_flag readable_version readable_double : readable.

Lemma fields_readable u g threads mem :
  Forall (fun a => readable_host (host a)) (remote_addrs g) ->
  Forall (fun f => (LF ∉ f.1) /\ (":"%char ∉ f.1) /\ Forall readable f.2) (stats_fields u g threads mem).
Proof.
  intros Hr. unfold stats_fields. repeat apply Forall_cons_2; [..|apply Forall_nil_2];
    (split; [apply (bool_decide_eq_true_1 _); reflexivity|split; [apply (bool_decide_eq_true_1 _); reflexivity|]]); cbn [snd];
    first [apply Forall_singleton; solve [auto with readable] | apply readable_all; solve [intros; auto with readable] | idtac].
  apply Forall_fmap. eapply Forall_impl; [exact Hr|]. intros a. apply readable_addr.
Qed.

Lemma cut_at_app c k v : c ∉ k -> cut_at c (k ++ c :: v) = (k, v).
Proof.
  induction k as [|b k IH]; cbn; [by rewrite Ascii.eqb_refl|]. rewrite not_elem_of_cons. intros [Hb Hk].
  destruct (Ascii.eqb_spec b c); [congruence|]. by rewrite IH.
Qed.

Lemma split_values vs : Forall readable vs -> split_str (join (s2b ",") vs) [","%char] true = vs.
Proof.
  intros Hv. destruct (decide (vs = [])) as [->|Hne]; [done|]. apply split_join_trim; [done|].
  eapply Forall_impl; [exact Hv|]. by intros v (? & _ & ?).
Qed.

Lemma join_no_char (c : byte) sep vs : c ∉ sep -> Forall (fun v => c ∉ v) vs -> c ∉ join sep vs.
Proof.
  intros Hs. induction 1 as [|v [|w vs] Hv Hvs IH]; [by intros []%elem_of_nil|done|].
  rewrite join_cons, !not_elem_of_app. done.
Qed.

Lemma read_lines fs :
  fs <> [] -> Forall (fun f => (LF ∉ f.1) /\ (":"%char ∉ f.1) /\ Forall readable f.2) fs ->
  read_stats (join [LF] (line_of <$> fs)) = fs.
Proof.
  intros Hne Hf. unfold read_stats. rewrite split_join; [|by destruct fs|apply is_delim_self|].
  - rewrite <- list_fmap_compose. clear Hne. induction Hf as [|[k vs] fs (_ & Hk & Hv) Hf IH]; [done|]. rewrite fmap_cons, IH. f_equal.
    unfold compose, read_line, line_of. cbn [fst snd] in *. by rewrite cut_at_app, split_values.
  - apply Forall_fmap. eapply Forall_impl; [exact Hf|]. intros [k vs] (Hk & _ & Hv). apply is_delim_singleton.
    unfold line_of. cbn [fst snd] in *. rewrite not_elem_of_app, not_elem_of_cons. split_and!; [done..|].
    apply join_no_char; [apply (bool_decide_eq_true_1 _); reflexivity|]. eapply Forall_impl; [exact Hv|]. by intros v (_ & ? & _).
Qed.

(** C23. The statistics can be read back: when every thread runs, [stats_all] gives a text, and
    its lines name each counter with the values of all threads, in the order of the threads. *)
Theorem stats_all_read u g threads mem :
  buffers_allocated threads = Ret mem -> Forall (fun a => readable_host (host a)) (remote_addrs g) ->
  exists text, stats_all u g threads = Ret text /\ read_stats text = stats_fields u g threads mem.
Proof.
  intros Hm Hr. eexists. split; [by apply stats_all_lines|]. apply read_lines; [done|by apply fields_readable].
Qed.

Definition sample_threads (second : option Z) : list ListenThread :=
  let p := new_Proxy 3 in
  [ mkThread (p <| _clients_count := 2 |> <| _total_cmd := 7 |> <| _total_cmd_elapse := interval 1500000 |>) (Some 16384);
    mkThread (p <| _clients_count := 1 |> <| _total_cmd := 4 |> <| _accepting := true |>) second ].

Definition sample_usage : rusage := mkRusage (1, 250000) (0, 40000).

Definition sample_globals : Globals :=
  (initial_globals CommandParser.initial_tables) <| remote_addrs := [mkAddress (s2b "10.0.0.1") 7000; mkAddress (s2b "10.0.0.2") 7001] |>.

Lemma stats_all_read_witness :
  exists text, stats_all sample_usage sample_globals (sample_threads (Some 0)) = Ret text /\
    read_stats text =
      [ (s2b "version", [VERSION]); (s2b "threads", [s2b "2"]); (s2b "cluster_ok", [s2b "0"]); (s2b "read_slave", [s2b "0"]);
        (s2b "clients_count", [s2b "2"; s2b "1"]); (s2b "accepting", [s2b "0"; s2b "1"]);
        (s2b "long_connections_count", [s2b "0"; s2b "0"]); (s2b "used_cpu_sys", [s2b "1.25"]); (s2b "used_cpu_user", [s2b "0.04"]);
        (s2b "mem_buffer_alloc", [s2b "16384"; s2b "0"]); (s2b "completed_commands", [s2b "11"]);
        (s2b "total_process_elapse", [s2b "0.0015"]); (s2b "total_remote_cost", [s2b "0"]);
        (s2b "last_command_elapse", [s2b "0"; s2b "0"]); (s2b "last_remote_cost", [s2b "0"; s2b "0"]);
        (s2b "remotes", [s2b "10.0.0.1:7000"; s2b "10.0.0.2:7001"]) ].
Proof.
  apply (stats_all_read sample_usage sample_globals (sample_threads (Some 0)) [16384; 0]); [reflexivity|].
  repeat constructor; apply (bool_decide_eq_true_1 _); reflexivity.
Defined.

(** [_mem_buffer_stat] is null until its thread runs: while one thread has not started yet, an
    INFO answered by another follows the null pointer. *)
Theorem stats_all_null u g threads t :
  t ∈ threads -> _mem_buffer_stat t = None -> stats_all u g threads = UB NullPointer.
Proof.
  intros Hin Ht. assert (Hb : buffers_allocated threads = UB NullPointer).
  { induction threads as [|t' ts IH]; [by apply elem_of_nil in Hin|]. cbn. unfold buffer_allocated at 1.
    destruct (_mem_buffer_stat t') eqn:Et; [|done]. cbn. apply elem_of_cons in Hin as [->|Hin]; [congruence|]. by rewrite IH. }
  unfold stats_all. by rewrite Hb.
Qed.

Lemma stats_all_null_witness : stats_all sample_usage sample_globals (sample_threads None) = UB NullPointer.
Proof. apply (stats_all_null _ _ _ (mkThread ((new_Proxy 3) <| _clients_count := 1 |> <| _total_cmd := 4 |> <| _accepting := true |>) None)); [right; left|reflexivity]. Defined.
