(* ===== verification/Main.v ===== *)
(** * The start of the process: [main.cpp], [core/globals.cpp]

    The configuration file and the options of the command line, the settings they make, and the
    proxies of the threads.  The file system is a function from paths to contents, and each
    thread has the kernel it will use. *)
From S2P Require Import Prelude Strings OrderedSet Address Buffer CommandParser World Kernel Proxy Stats.
#[local] Open Scope Z_scope.

(** [exit(status)], or what the process goes on with. *)
Inductive ended (A : Type) : Type := Goes (a : A) | Exit (status : Z).
Arguments Goes {A} _.
Arguments Exit {A} _.

(** ** [Configuration] *)

Abbreviation Configuration := (gmap bytes bytes).

(** The cases of the switch on the option letter. *)
Definition option_key (ch : byte) : option bytes :=
  s2b <$> (if Ascii.eqb ch "b"%char then Some "bind"
           else if Ascii.eqb ch "n"%char then Some "node"
           else if Ascii.eqb ch "t"%char then Some "thread"
           else if Ascii.eqb ch "r"%char then Some "read-slave"
           else if Ascii.eqb ch "R"%char then Some "read-slave-filter"
           else None).

(** [getopt] with "b:n:t:r:R:": every option has a value, the rest of its word or the next word;
    a word that is no option is passed over, and "--" ends the options. *)
Fixpoint _parse_opt (argv : list bytes) (_config : Configuration) : ended Configuration :=
  match argv with
  | [] => Goes _config
  | arg :: argv' =>
    match arg with
    | dash :: ch :: optarg =>
      if negb (Ascii.eqb dash "-"%char) then _parse_opt argv' _config
      else if bool_decide (arg = s2b "--") then Goes _config
      else match option_key ch with
      | None => Exit 1
      | Some k =>
        match optarg, argv' with
        | _ :: _, _ => _parse_opt argv' (<[k := optarg]> _config)
        | [], value :: argv'' => _parse_opt argv'' (<[k := value]> _config)
        | [], [] => Exit 1
        end
      end
    | _ => _parse_opt argv' _config
    end
  end.

(** The loop over the lines of the file. *)
Fixpoint read_config (lines : list bytes) (_config : Configuration) : ended Configuration :=
  match lines with
  | [] => Goes _config
  | line :: lines' =>
    if bool_decide (line = []) then read_config lines' _config
    else match split_str line (s2b " ") true with
    | [k; v] => read_config lines' (<[k := v]> _config)
    | _ => Exit 1
    end
  end.

(** The lines [std::getline] reads until the end of the file: the last one has no newline. *)
Definition getlines (content : bytes) : list bytes := split_str content [LF] false.

Definition new_Configuration (file : bytes -> option bytes) (path : bytes) (argv : list bytes) : ended Configuration :=
  match file path with
  | None => Exit 1
  | Some content =>
    match read_config (getlines content) ∅ with
    | Goes c => _parse_opt argv c
    | Exit s => Exit s
    end
  end.

Definition contains (c : Configuration) (k : bytes) : bool := bool_decide (is_Some (c !! k)).

Definition get (c : Configuration) (k : bytes) : outcome bytes :=
  match c !! k with Some v => Ret v | None => Throw (RuntimeError (s2b "Not configured: " ++ k)) end.

Definition get_def (c : Configuration) (k def : bytes) : bytes := default def (c !! k).

(** ** [cerb_global] *)

Definition set_remotes (remotes : list Address) (g : Globals) : Globals := g <| remote_addrs := remotes |>.
Definition set_cluster_req_full_cov (c : bool) (g : Globals) : Globals := g <| req_full_cov := c |>.

(** ** [run] *)

(** [Server::send_readonly_for_each_conn], [stats_set_read_slave],
    [SlotMap::select_slave_if_possible]; or [Command::allow_write_commands]. *)
Definition set_read_slave (config : Configuration) (g : Globals) : Globals :=
  if bool_decide (get_def config (s2b "read-slave") [] = s2b "yes")
  then (stats_set_read_slave (g <| send_readonly := true |>))
         <| select_slave := Some (get_def config (s2b "read-slave-filter") []) |>
  else g <| cmd_tables ::= allow_write_commands |>.

Definition set_coverage (config : Configuration) (g : Globals) : Globals :=
  if bool_decide (get_def config (s2b "cluster-require-full-coverage") [] = s2b "no")
  then set_cluster_req_full_cov false g else g.

(** What [run] has set when it starts the threads. *)
Record Settings : Type := mkSettings {
  run_globals : Globals;
  slow_poll_elapse : Z;
  bind_port : Z;
  thread_count : Z
}.

Definition configure (config : Configuration) : outcome (ended Settings) :=
  let g := set_coverage config (set_read_slave config (initial_globals initial_tables)) in
  slow_poll_ms ← atoi (get_def config (s2b "slow-poll-elapse-ms") (s2b "50"));
  if slow_poll_ms <=? 0 then Ret (Exit 1) else
  bind_text ← get config (s2b "bind");
  bind ← atoi bind_text;
  thread_count ← atoi (get_def config (s2b "thread") (s2b "1"));
  if thread_count <=? 0 then Ret (Exit 1) else
  g ← (if contains config (s2b "node")
       then text ← get config (s2b "node"); remotes ← from_hosts_ports text; Ret (set_remotes remotes g)
       else Ret g);
  Ret (Goes (mkSettings g slow_poll_ms bind thread_count)).

(** [all_threads.push_back(ListenThread(bind_port))], for each kernel in turn; every thread sees
    the proxies of the others, whose slot maps are expired. *)
Fixpoint new_threads (port : Z) (g : Globals) (kernels : list Kernel) : outcome (list World) :=
  match kernels with
  | [] => Ret []
  | k :: kernels' =>
    match start_proxy port (initial_world g k) with
    | (Ret _, w) => ws ← new_threads port g kernels'; Ret (w :: ws)
    | (Throw e, _) => Throw e
    | (UB k, _) => UB k
    | (NoFuel, _) => NoFuel
    end
  end.

(** [kernel i] is the kernel of thread [i]. *)
Definition run (config : Configuration) (kernel : nat -> Kernel) : outcome (ended (list World)) :=
  s ← configure config;
  match s with
  | Exit status => Ret (Exit status)
  | Goes s =>
    let n := Z.to_nat (thread_count s) in
    let g := (run_globals s) <| other_threads := replicate (n - 1) true |> in
    ws ← new_threads (bind_port s) g (kernel <$> seq 0 n); Ret (Goes ws)
  end.

(** ** [main]: the arguments are those after the program's name; every exception is a
    [std::runtime_error] *)
Definition main (file : bytes -> option bytes) (kernel : nat -> Kernel) (args : list bytes) : outcome (ended (list World)) :=
  match args with
  | [] => Ret (Exit 1)
  | path :: argv =>
    match new_Configuration file path argv with
    | Exit status => Ret (Exit status)
    | Goes config => match run config kernel with Throw _ => Ret (Exit 1) | o => o end
    end
  end.

(** ** Reading a configuration back *)

Definition SP : byte := " "%char.

(** A word of a line. *)
Definition word (s : bytes) : Prop := s <> [] /\ (SP ∉ s) /\ (LF ∉ s).

Definition config_text (pairs : list (bytes * bytes)) : bytes := flat_map (fun kv => kv.1 ++ SP :: kv.2 ++ [LF]) pairs.

(** An option with its value, in the next word or in the same. *)
Record opt : Type := mkOpt { opt_letter : byte; opt_value : bytes; opt_attached : bool }.

Definition opt_words (o : opt) : list bytes :=
  if opt_attached o then ["-"%char :: opt_letter o :: opt_value o] else [["-"%char; opt_letter o]; opt_value o].

Definition good_opt (o : opt) : Prop := is_Some (option_key (opt_letter o)) /\ (opt_attached o = true -> opt_value o <> []).

Definition opt_pair (o : opt) : bytes * bytes := (default [] (option_key (opt_letter o)), opt_value o).

Definition set_all (c : Configuration) (pairs : list (bytes * bytes)) : Configuration :=
  foldl (fun c kv => <[kv.1 := kv.2]> c) c pairs.

Lemma split_line k v : word k -> word v -> split_str (k ++ SP :: v) (s2b " ") true = [k; v].
Proof.
  intros (Hk & Hk1 & _) (Hv & Hv1 & _). unfold split_str. change (s2b " ") with [SP].
  rewrite split_loop_part; [|by apply is_delim_singleton|apply is_delim_self]. rewrite split_loop_last by by apply is_delim_singleton.
  unfold push_part. cbn. by rewrite !bool_decide_false.
Qed.

Lemma getlines_cons l rest : LF ∉ l -> getlines (l ++ LF :: rest) = l :: getlines rest.
Proof.
  intros Hl. unfold getlines, split_str. rewrite split_loop_part; [|by apply is_delim_singleton|apply is_delim_self].
  by rewrite push_part_keep.
Qed.

Lemma config_text_cons k v pairs : config_text ((k, v) :: pairs) = (k ++ SP :: v) ++ LF :: config_text pairs.
Proof. unfold config_text. cbn. by rewrite <- !app_assoc, <- app_comm_cons, <- app_assoc. Qed.

Lemma read_config_text pairs : Forall (fun kv => word kv.1 /\ word kv.2) pairs -> forall c,
  read_config (getlines (config_text pairs)) c = Goes (set_all c pairs).
Proof.
  induction 1 as [|[k v] pairs [Hk Hv] _ IH]; intros c; [done|]. rewrite config_text_cons, getlines_cons.
  - cbn [read_config]. rewrite bool_decide_false by (by destruct k). rewrite split_line by done. apply IH.
  - destruct Hk as (_ & _ & Hk), Hv as (_ & _ & Hv). rewrite not_elem_of_app, not_elem_of_cons. done.
Qed.

Lemma parse_opt_words opts : Forall good_opt opts -> forall c,
  _parse_opt (flat_map opt_words opts) c = Goes (set_all c (opt_pair <$> opts)).
Proof.
  induction 1 as [|[ch v att] opts [[k Hk] Ha] _ IH]; intros c; [done|]. cbn in Hk, Ha.
  assert (Hdash : bool_decide ("-"%char :: ch :: (if att then v else []) = s2b "--") = false).
  { apply bool_decide_false. intros [= ->]. destruct att; done. }
  cbn [flat_map]. rewrite fmap_cons. unfold opt_words at 1, opt_pair at 1. cbn [opt_attached opt_letter opt_value]. rewrite Hk.
  destruct att; cbn [app _parse_opt]; rewrite Hdash, Hk; cbn [negb Ascii.eqb Bool.eqb]; [|apply IH].
  destruct v as [|b v]; [by destruct Ha|]. apply IH.
Qed.

(** C22. The configuration is what was written: the file gives each key the value of its last line, and
    the options of the command line, with their values attached or not, override the file. *)
Theorem configuration_read (file : bytes -> option bytes) (path : bytes) (pairs : list (bytes * bytes)) (opts : list opt) :
  file path = Some (config_text pairs) -> Forall (fun kv => word kv.1 /\ word kv.2) pairs -> Forall good_opt opts ->
  new_Configuration file path (flat_map opt_words opts) = Goes (set_all (set_all ∅ pairs) (opt_pair <$> opts)).
Proof. intros Hf Hp Ho. unfold new_Configuration. rewrite Hf, read_config_text by done. by apply parse_opt_words. Qed.

(** The settings of [example.conf], and a command line. *)
Definition example_pairs : list (bytes * bytes) := (fun kv => (s2b kv.1, s2b kv.2)) <$>
  [("bind", "8889"); ("node", "127.0.0.1:7000,127.0.0.2:7001"); ("thread", "4"); ("read-slave", "no"); ("read-slave-filter", "10.0.1");
   ("cluster-require-full-coverage", "yes"); ("slow-poll-elapse-ms", "50")]%string.

Definition example_file (path : bytes) : option bytes :=
  if bool_decide (path = s2b "example.conf") then Some (config_text example_pairs) else None.

Definition example_opts : list opt := [mkOpt "t" (s2b "2") false; mkOpt "b" (s2b "9000") true].

Ltac decide_word := split_and!; apply (bool_decide_eq_true_1 _); vm_compute; reflexivity.

Lemma configuration_read_witness :
  exists c, new_Configuration example_file (s2b "example.conf") (s2b <$> ["-t"; "2"; "-b9000"]) = Goes c /\
    c !! s2b "thread" = Some (s2b "2") /\ c !! s2b "bind" = Some (s2b "9000") /\ c !! s2b "read-slave" = Some (s2b "no").
Proof.
  eexists. split; [|split_and!; shelve]. apply (configuration_read example_file (s2b "example.conf") example_pairs example_opts).
  - reflexivity.
  - repeat (apply Forall_cons_2; [split; decide_word|]). apply Forall_nil_2.
  - repeat (apply Forall_cons_2; [split; [by eexists|done]|]). apply Forall_nil_2.
  Unshelve. all: vm_compute; reflexivity.
Defined.

Lemma read_config_bad lines line : line ∈ lines -> line <> [] -> length (split_str line (s2b " ") true) <> 2%nat ->
  forall c, read_config lines c = Exit 1.
Proof.
  intros Hin Hne Hl. induction lines as [|l lines IH]; intros c; [by apply elem_of_nil in Hin|]. cbn [read_config]. apply elem_of_cons in Hin as [<-|Hin].
  - rewrite bool_decide_false by done. by destruct (split_str line (s2b " ") true) as [|? [|? [|? ?]]].
  - case_bool_decide; [by apply IH|]. destruct (split_str l (s2b " ") true) as [|? [|? [|? ?]]]; try done; by apply IH.
Qed.

(** A line of the configuration file that is not empty and does not hold two words stops the process
    with status 1, whatever the arguments are and wherever the line stands. *)
Theorem bad_line_exits (file : bytes -> option bytes) (kernel : nat -> Kernel) (path content line : bytes) (argv : list bytes) :
  file path = Some content -> line ∈ getlines content -> line <> [] -> length (split_str line (s2b " ") true) <> 2%nat ->
  main file kernel (path :: argv) = Ret (Exit 1).
Proof.
  intros Hf Hin Hne Hl. unfold main, new_Configuration. rewrite Hf. by rewrite (read_config_bad _ line).
Qed.

Lemma bad_line_exits_witness :
  main (fun _ => Some (config_text [(s2b "bind", s2b "8889")] ++ s2b "# a comment here")) (fun _ => mkKernel ∅ ∅ [] [] [] [] [] [] []) [s2b "x"] = Ret (Exit 1).
Proof.
  eapply (bad_line_exits _ _ _ _ (s2b "# a comment here")); [reflexivity|apply (bool_decide_eq_true_1 _); vm_compute; reflexivity|done|done].
Defined.
