(* ===== verification/Epoll.v ===== *)
(** * The epoll set only names live connections

    The epoll set keeps raw pointers to connections.  [Polled]: each entry is filed under
    the descriptor of its connection, which has not been deleted; long connections are
    excepted.  A client that becomes a long connection gives its descriptor away, so that
    [Polled] also says that the groups a client is about to process are its own.  Every
    operation keeps it, however it ends. *)
From S2P Require Import Prelude Strings OrderedSet Address SlotCalc Buffer Response SlotMap CommandParser World Kernel Command Server LongConn Client Proxy.
#[local] Open Scope Z_scope.

(** What an entry of the epoll set promises. *)
Definition entry_ok (w : World) (fd : Z) (c : Connection) : Prop :=
  match c with
  | CClient i => cli_fd <$> (w_clis w !! i) = Some fd
  | CUpdater i => upd_fd <$> (w_upds w !! i) = Some fd
  | CServer i => is_Some (w_svrs w !! i)
  | _ => True
  end.

(** No result of [socket] or [accept] is the descriptor -1. *)
Definition descriptors_ok (k : Kernel) : Prop :=
  k_chans k !! (-1) = None /\ k_epoll k !! (-1) = None /\
  (forall fd c, SockFd fd c ∈ k_sockets k -> fd <> -1) /\ (forall fd c, AccFd fd c ∈ k_accepts k -> fd <> -1).

(** [out]: a client that is out of the epoll set. *)
Record Polled (out : option nat) (w : World) : Prop := {
  pl_kern : descriptors_ok (w_kern w);
  pl_entry : forall fd c rw, k_epoll (w_kern w) !! fd = Some (c, rw) -> entry_ok w fd c;
  pl_out : forall i fd rw, out = Some i -> k_epoll (w_kern w) !! fd <> Some (CClient i, rw);
  pl_clis : forall i, is_Some (w_clis w !! i) -> (i < w_next w)%nat;
  pl_upds : forall i, is_Some (w_upds w !! i) -> (i < w_next w)%nat;
  pl_own : forall i x gi g, w_clis w !! i = Some x -> Some gi ∈ _parsed_groups x -> w_grps w !! gi = Some g -> grp_client g = i;
  pl_parsed : forall i x gi, w_clis w !! i = Some x -> Some gi ∈ _parsed_groups x -> (gi < w_next w)%nat
}.

Definition stable (out : option nat) {A} (c : W A) : Prop := forall w, Polled out w -> Polled out (c w).2.

(** ** The structure of computations *)

Section Structure.
Context (out : option nat).

Lemma stable_ret {A} (a : A) : stable out (mret a).
Proof. by intros w. Qed.
Lemma stable_gets {A} (f : World -> A) : stable out (gets f).
Proof. by intros w. Qed.
Lemma stable_throw {A} e : stable out (throw (A := A) e).
Proof. by intros w. Qed.
Lemma stable_lift {A} (o : outcome A) : stable out (lift o).
Proof. by intros w. Qed.
Lemma stable_undefined {A} : stable out (undefined (A := A)).
Proof. by intros w. Qed.
Lemma stable_null {A} : stable out (null_pointer (A := A)).
Proof. by intros w. Qed.
Lemma stable_no_fuel {A} : stable out (no_fuel (A := A)).
Proof. by intros w. Qed.

Lemma stable_bind {A B} (c : W A) (f : A -> W B) : stable out c -> (forall a, stable out (f a)) -> stable out (c ≫= f).
Proof.
  intros Hc Hf w Hw. specialize (Hc w Hw). unfold mbind, M_bind. destruct (c w) as [[a| | |] w']; [by apply Hf|done..].
Qed.

Lemma stable_when b (c : W unit) : stable out c -> stable out (when b c).
Proof. intros Hc. destruct b; [exact Hc|apply stable_ret]. Qed.

Lemma stable_for {A} (l : list A) (body : A -> W unit) : (forall x, stable out (body x)) -> stable out (for_each l body).
Proof. intros Hb. induction l; [apply stable_ret|]. by apply stable_bind. Qed.

Lemma stable_try {A} (c : W A) h : stable out c -> (forall e k, h e = Some k -> stable out k) -> stable out (try_catch c h).
Proof.
  intros Hc Hh w Hw. specialize (Hc w Hw). unfold try_catch. destruct (c w) as [[a|e| |] w']; [done| |done..].
  destruct (h e) as [k|] eqn:Ek; [by eapply Hh|done].
Qed.

Lemma stable_on_throw {A} (c : W A) cleanup : stable out c -> stable out cleanup -> stable out (on_throw c cleanup).
Proof. intros Hc Hh. apply stable_try; [done|]. intros e k [= <-]. apply stable_bind; [done|intros _; apply stable_throw]. Qed.

Lemma stable_deref {A} p (store : World -> gmap nat A) i : stable out (deref_obj p store i).
Proof. intros w Hw. unfold deref_obj. by destruct (store w !! i). Qed.

(** ** Updates that the epoll set does not see *)

(** The groups are the same but for members other than the client, or fewer. *)
Definition groups_kept (m m' : gmap nat CommandGroup) : Prop :=
  forall gi g', m' !! gi = Some g' -> exists g, m !! gi = Some g /\ grp_client g = grp_client g'.

Lemma groups_kept_refl m : groups_kept m m.
Proof. intros gi g Hg. by exists g. Qed.

(** The same kernel tables, clients and updaters, and no server less. *)
Lemma polled_same w w' :
  Polled out w -> w_kern w' = w_kern w -> w_clis w' = w_clis w -> w_upds w' = w_upds w -> (w_next w <= w_next w')%nat ->
  (forall i, is_Some (w_svrs w !! i) -> is_Some (w_svrs w' !! i)) -> groups_kept (w_grps w) (w_grps w') -> Polled out w'.
Proof.
  intros [H1 H2 H3 H4 H5 H6 H7] E1 E2 E3 Hn Hs Hg. split; rewrite ?E1, ?E2, ?E3; try done.
  - intros fd c rw Hc. specialize (H2 _ _ _ Hc). destruct c; cbn in *; rewrite ?E2, ?E3; auto.
  - intros i Hi. specialize (H4 i Hi). lia.
  - intros i Hi. specialize (H5 i Hi). lia.
  - intros i x gi g' Hx Hin (g & Hgi & <-)%Hg. by eapply H6.
  - intros i x gi Hx Hin. specialize (H7 i x gi Hx Hin). lia.
Qed.

Lemma stable_modify f :
  (forall w, w_kern (f w) = w_kern w /\ w_clis (f w) = w_clis w /\ w_upds (f w) = w_upds w /\ (w_next w <= w_next (f w))%nat /\
    (forall i, is_Some (w_svrs w !! i) -> is_Some (w_svrs (f w) !! i)) /\ groups_kept (w_grps w) (w_grps (f w))) -> stable out (modify f).
Proof. intros Hf w Hw. destruct (Hf w) as (? & ? & ? & ? & ? & ?). by eapply polled_same. Qed.

Lemma stable_set_proxy f : stable out (set_proxy f).
Proof. apply stable_modify. intros w. split_and!; auto using groups_kept_refl. Qed.
Lemma stable_set_glob f : stable out (set_glob f).
Proof. apply stable_modify. intros w. split_and!; auto using groups_kept_refl. Qed.

Lemma insert_some {A} (m : gmap nat A) i x j : is_Some (m !! j) -> is_Some (<[i := x]> m !! j).
Proof. destruct (decide (i = j)) as [->|]; [by rewrite lookup_insert_eq|by rewrite lookup_insert_ne]. Qed.

Lemma stable_set_cmd i f : stable out (set_cmd i f).
Proof. apply stable_bind; [apply stable_deref|intros x]. apply stable_modify. intros w. split_and!; auto using groups_kept_refl. Qed.
Lemma stable_set_grp i f : (forall x, grp_client (f x) = grp_client x) -> stable out (set_grp i f).
Proof.
  intros Hf w Hw. unfold set_grp, get_grp, deref_obj, mbind, M_bind. destruct (w_grps w !! i) as [x|] eqn:Ex; [|done].
  eapply polled_same; [exact Hw|done..|]. intros j y. cbn. rewrite lookup_insert_Some. intros [[<- <-]|[_ Hy]]; [|by exists y].
  exists x. by rewrite Hf.
Qed.
Lemma stable_set_long i f : stable out (set_long i f).
Proof. apply stable_bind; [apply stable_deref|intros x]. apply stable_modify. intros w. split_and!; auto using groups_kept_refl. Qed.
Lemma stable_set_svr i f : stable out (set_svr i f).
Proof.
  apply stable_bind; [apply stable_deref|intros x]. apply stable_modify. intros w. split_and!; auto using groups_kept_refl. intros j. apply insert_some.
Qed.

(** A client or an updater keeps its descriptor. *)
Lemma stable_set_cli i f :
  (forall x, cli_fd (f x) = cli_fd x) -> (forall x gi, Some gi ∈ _parsed_groups (f x) -> Some gi ∈ _parsed_groups x) -> stable out (set_cli i f).
Proof.
  intros Hf Hp w Hw. unfold set_cli, get_cli, deref_obj, mbind, M_bind. destruct (w_clis w !! i) as [x|] eqn:Ex; [|done].
  destruct Hw as [H1 H2 H3 H4 H5 H6 H7]. split; try done; cbn.
  - intros fd c rw Hc. specialize (H2 _ _ _ Hc). destruct c as [j| | | | |]; try done. cbn in *.
    destruct (decide (i = j)) as [<-|]; [rewrite lookup_insert_eq; rewrite Ex in H2; cbn in *; by rewrite Hf|by rewrite lookup_insert_ne].
  - intros j. destruct (decide (i = j)) as [<-|]; [intros _; apply H4; by rewrite Ex|by rewrite lookup_insert_ne by done; apply H4].
  - intros j y gi g. rewrite lookup_insert_Some. intros [[<- <-]|[_ Hy]] Hin; [by eapply H6, Hp|by eapply H6].
  - intros j y gi. rewrite lookup_insert_Some. intros [[<- <-]|[_ Hy]] Hin; [by eapply H7, Hp|by eapply H7].
Qed.

Lemma stable_set_upd i f : (forall x, upd_fd (f x) = upd_fd x) -> stable out (set_upd i f).
Proof.
  intros Hf w Hw. unfold set_upd, get_upd, deref_obj, mbind, M_bind. destruct (w_upds w !! i) as [x|] eqn:Ex; [|done].
  destruct Hw as [H1 H2 H3 H4 H5 H6 H7]. split; try done; cbn.
  - intros fd c rw Hc. specialize (H2 _ _ _ Hc). destruct c as [| | | |j|]; try done. cbn in *.
    destruct (decide (i = j)) as [<-|]; [rewrite lookup_insert_eq; rewrite Ex in H2; cbn in *; by rewrite Hf|by rewrite lookup_insert_ne].
  - intros j. destruct (decide (i = j)) as [<-|]; [intros _; apply H5; by rewrite Ex|by rewrite lookup_insert_ne by done; apply H5].
Qed.

Lemma stable_fresh : stable out fresh.
Proof. intros w Hw. eapply polled_same; [exact Hw|done..| |done|apply groups_kept_refl]. apply Nat.le_succ_diag_r. Qed.

(** ** System calls *)

Lemma polled_kern w k' :
  Polled out w -> descriptors_ok k' ->
  (forall fd c rw, k_epoll k' !! fd = Some (c, rw) ->
    k_epoll (w_kern w) !! fd = Some (c, rw) \/ (entry_ok w fd c /\ forall i, out = Some i -> c <> CClient i)) ->
  Polled out (w <| w_kern := k' |>).
Proof.
  intros [H1 H2 H3 H4 H5 H6 H7] Hk He. split; try done; cbn.
  - intros fd c rw Hc. destruct (He _ _ _ Hc) as [Hc'|[Hc' _]]; [exact (H2 _ _ _ Hc')|exact Hc'].
  - intros i fd rw Hi Hc. destruct (He _ _ _ Hc) as [Hc'|[_ Hne]]; [by apply (H3 i fd rw)|by apply (Hne i)].
Qed.

(** The epoll set is the same, or has lost entries. *)
Lemma stable_set_kern f :
  (forall k, descriptors_ok k -> descriptors_ok (f k)) ->
  (forall k fd e, k_epoll (f k) !! fd = Some e -> k_epoll k !! fd = Some e) -> stable out (set_kern f).
Proof. intros Hd He w Hw. apply (polled_kern w); [done|apply Hd, Hw|]. cbn. eauto. Qed.

Lemma elem_of_tail {A} (x : A) l : x ∈ tail l -> x ∈ l.
Proof. destruct l; [done|]. by right. Qed.

Lemma head_elem {A} (x : A) l : head l = Some x -> x ∈ l.
Proof. destruct l; [done|]. intros [= ->]. left. Qed.

Lemma stable_next {A} (script : Kernel -> list A) f d :
  (forall k, descriptors_ok k -> descriptors_ok (f k)) ->
  (forall k fd e, k_epoll (f k) !! fd = Some e -> k_epoll k !! fd = Some e) -> stable out (next_script script f d).
Proof.
  intros Hd He. apply stable_bind; [apply stable_gets|intros l]. apply stable_bind; [by apply stable_set_kern|intros _; apply stable_ret].
Qed.

Lemma stable_with_chan {A} fd (op : chan -> outcome A * chan) : stable out (with_chan fd op).
Proof.
  intros w Hw. unfold with_chan. destruct (k_chans (w_kern w) !! fd) as [c|] eqn:Ec; [|done]. destruct (op c) as [o c'].
  apply (polled_kern w); [done| |cbn; eauto]. destruct (pl_kern _ _ Hw) as (? & ? & ? & ?). split_and!; try done. cbn.
  rewrite lookup_insert_ne; [done|]. intros ->. congruence.
Qed.

Lemma stable_read fd b : stable out (read_fd fd b).
Proof. apply stable_with_chan. Qed.
Lemma stable_write fd b : stable out (write_fd fd b).
Proof. apply stable_with_chan. Qed.
Lemma stable_flush fd b : stable out (flush_fd fd b).
Proof. apply stable_with_chan. Qed.
Lemma stable_writev fd bs : stable out (writev_fd fd bs).
Proof. apply stable_bind; [apply stable_gets|intros st]. apply stable_with_chan. Qed.

Lemma stable_close fd : stable out (cio_close fd).
Proof.
  apply stable_set_kern; cbn.
  - intros k (? & ? & ? & ?). split_and!; try done; cbn; apply lookup_delete_None; by right.
  - intros k fd' e. rewrite lookup_delete_Some. naive_solver.
Qed.
Lemma stable_epoll_del fd : stable out (epoll_del fd).
Proof.
  apply stable_set_kern; cbn.
  - intros k (? & ? & ? & ?). split_and!; try done. cbn. apply lookup_delete_None; by right.
  - intros k fd' e. rewrite lookup_delete_Some. naive_solver.
Qed.

(** A new descriptor. *)
Lemma stable_open fd c f :
  fd <> -1 -> (forall k, k_chans (f k) = <[fd := c]> (k_chans k) /\ k_epoll (f k) = k_epoll k /\ k_sockets (f k) = k_sockets k /\
    k_accepts (f k) = k_accepts k) -> stable out (set_kern f).
Proof.
  intros Hfd Hf. apply stable_set_kern; intros k; destruct (Hf k) as (E1 & E2 & E3 & E4).
  - intros (? & ? & ? & ?). unfold descriptors_ok. rewrite E1, E2, E3, E4. split_and!; try done. by rewrite lookup_insert_ne.
  - by rewrite E2.
Qed.

Lemma stable_socket : stable out new_stream_socket.
Proof.
  intros w Hw. assert (Hnext : Polled out (w <| w_kern ::= (fun k => k <| k_sockets ::= tail |>) |>)).
  { apply (polled_kern w); [done| |cbn; eauto]. destruct (pl_kern _ _ Hw) as (? & ? & Hs & ?). split_and!; try done. cbn.
    intros fd c Hc. eapply Hs. by apply elem_of_tail. }
  unfold new_stream_socket, next_script, mbind, M_bind. cbn. destruct (pl_kern _ _ Hw) as (_ & _ & Hs & _).
  destruct (head (k_sockets (w_kern w))) as [[fd c|e]|] eqn:Ek; try exact Hnext.
  apply head_elem in Ek. pose proof (stable_open fd c (fun k => k <| k_chans ::= <[fd := c]> |>) (Hs fd c Ek)) as Ho.
  exact (Ho ltac:(done) _ Hnext).
Qed.

Lemma stable_accept : stable out cio_accept.
Proof.
  intros w Hw. assert (Hnext : Polled out (w <| w_kern ::= (fun k => k <| k_accepts ::= tail |>) |>)).
  { apply (polled_kern w); [done| |cbn; eauto]. destruct (pl_kern _ _ Hw) as (? & ? & ? & Hs). split_and!; try done. cbn.
    intros fd c Hc. eapply Hs. by apply elem_of_tail. }
  unfold cio_accept, next_script, mbind, M_bind. cbn. destruct (pl_kern _ _ Hw) as (_ & _ & _ & Hs).
  destruct (head (k_accepts (w_kern w))) as [[fd c|e]|] eqn:Ek; try exact Hnext.
  apply head_elem in Ek. pose proof (stable_open fd c (fun k => k <| k_chans ::= <[fd := c]> |>) (Hs fd c Ek)) as Ho.
  exact (Ho ltac:(done) _ Hnext).
Qed.

Lemma stable_nonblocking fd : stable out (set_nonblocking fd).
Proof.
  apply stable_bind; [apply stable_gets|intros []; cbn [negb]]; [|apply stable_throw].
  apply stable_bind; [by apply stable_next|intros e]. destruct (negb (e =? 0)); [apply stable_throw|apply stable_ret].
Qed.
Lemma stable_poll_create : stable out poll_create.
Proof. apply stable_bind; [by apply stable_next|intros e]. destruct (negb (e =? 0)); [apply stable_throw|apply stable_ret]. Qed.
Lemma stable_connect h p fd : stable out (connect_fd h p fd).
Proof. apply stable_bind; [by apply stable_next|intros []]; [apply stable_ret|apply stable_throw..]. Qed.
Lemma stable_now : stable out now.
Proof.
  apply stable_bind; [apply stable_gets|intros [|t [|t' l]]]; [apply stable_ret..|].
  apply stable_bind; [by apply stable_set_kern|intros _; apply stable_ret].
Qed.
Lemma stable_randint a b : stable out (randint a b).
Proof. apply stable_bind; [by apply stable_next|intros r; apply stable_ret]. Qed.
Lemma stable_poll_check s e : stable out (poll_check s e).
Proof. destruct e; [apply stable_throw|apply stable_ret]. Qed.

(** ** Polling and descriptors of connections *)

Lemma conn_fd_ok c w : match conn_fd c w with (Ret fd, w') => w' = w /\ entry_ok w fd c | (_, w') => w' = w end.
Proof.
  destruct c as [i|i|i|i|i|]; unfold conn_fd, get_cli, get_svr, get_long, get_upd, deref_obj, mbind, M_bind; cbn;
    [destruct (w_clis w !! i) eqn:E|destruct (w_svrs w !! i) eqn:E|destruct (w_longs w !! i) eqn:E|destruct (w_longs w !! i) eqn:E
    |destruct (w_upds w !! i) eqn:E|]; cbn; by rewrite ?E.
Qed.

Lemma stable_poll c (k : Z -> W unit) :
  (forall fd w, Polled out w -> entry_ok w fd c -> Polled out (k fd w).2) -> stable out (fd ← conn_fd c; k fd).
Proof.
  intros Hk w Hw. pose proof (conn_fd_ok c w) as Hc. unfold mbind, M_bind.
  destruct (conn_fd c w) as [[fd| | |] w']; [destruct Hc as [-> Hc]; by apply Hk|by subst..].
Qed.

Lemma stable_conn_fd c : stable out (conn_fd c).
Proof. intros w Hw. pose proof (conn_fd_ok c w) as Hc. destruct (conn_fd c w) as [[] w']; [by destruct Hc as [-> _]|by subst..]. Qed.
Lemma stable_is_closed c : stable out (is_closed c).
Proof. apply stable_bind; [apply stable_conn_fd|intros; apply stable_ret]. Qed.
Lemma stable_poll_del c : stable out (poll_del c).
Proof. apply stable_bind; [apply stable_conn_fd|intros; apply stable_epoll_del]. Qed.

Lemma polled_entry fd c rw w :
  Polled out w -> entry_ok w fd c -> is_Some (k_chans (w_kern w) !! fd) -> (forall i, out = Some i -> c <> CClient i) ->
  Polled out (w <| w_kern ::= (fun k => k <| k_epoll ::= <[fd := (c, rw)]> |>) |>).
Proof.
  intros Hw He Hfd Hne. apply (polled_kern w); [done|..].
  - destruct (pl_kern _ _ Hw) as (Hn & ? & ? & ?). split_and!; try done. cbn. rewrite lookup_insert_ne; [done|]. intros ->.
    rewrite Hn in Hfd. by destruct Hfd.
  - cbn. intros fd' c' rw'. rewrite lookup_insert_Some. intros [[<- [= <- <-]]|[_ Hc]]; auto.
Qed.

Section Poll.
Context (c : Connection) (Hc : forall i, out = Some i -> c <> CClient i).

Lemma epoll_ctl_add_polled fd rw w : Polled out w -> entry_ok w fd c -> Polled out (epoll_ctl_add fd c rw w).2.
Proof.
  intros Hw He. unfold epoll_ctl_add, mbind, M_bind. cbn. destruct (k_chans (w_kern w) !! fd) as [ch|] eqn:Ech; [|done].
  destruct (k_epoll (w_kern w) !! fd); [done|]. apply (polled_entry fd c rw w); [done..|by rewrite Ech|done].
Qed.
Lemma epoll_ctl_mod_polled fd rw w : Polled out w -> entry_ok w fd c -> Polled out (epoll_ctl_mod fd c rw w).2.
Proof.
  intros Hw He. unfold epoll_ctl_mod, mbind, M_bind. cbn. destruct (k_chans (w_kern w) !! fd) as [ch|] eqn:Ech; [|done].
  destruct (k_epoll (w_kern w) !! fd); [|done]. apply (polled_entry fd c rw w); [done..|by rewrite Ech|done].
Qed.

Lemma stable_checked (e : Z -> W (option Z)) s :
  (forall fd w, Polled out w -> entry_ok w fd c -> Polled out (e fd w).2) -> stable out (fd ← conn_fd c; r ← e fd; poll_check s r).
Proof.
  intros He. apply stable_poll. intros fd w Hw Hf. specialize (He fd w Hw Hf). unfold mbind, M_bind.
  destruct (e fd w) as [[r| | |] w']; [by apply stable_poll_check|done..].
Qed.

Lemma stable_poll_add_ro : stable out (poll_add_ro c).
Proof. apply stable_checked. intros. by apply epoll_ctl_add_polled. Qed.
Lemma stable_poll_add_rw : stable out (poll_add_rw c).
Proof. apply stable_checked. intros. by apply epoll_ctl_add_polled. Qed.
Lemma stable_poll_ro : stable out (poll_ro c).
Proof. apply stable_checked. intros. by apply epoll_ctl_mod_polled. Qed.
Lemma stable_poll_rw : stable out (poll_rw c).
Proof. apply stable_checked. intros. by apply epoll_ctl_mod_polled. Qed.
End Poll.

(** ** Closing and deleting *)

Definition gone (c : Connection) (w : World) : Prop := forall fd rw, k_epoll (w_kern w) !! fd <> Some (c, rw).

(** A client or an updater that is not in the epoll set may change or go. *)
Lemma polled_clis w m :
  Polled out w -> (forall i, m !! i = w_clis w !! i \/ gone (CClient i) w) -> (forall i, is_Some (m !! i) -> (i < w_next w)%nat) ->
  (forall i x gi, m !! i = Some x -> Some gi ∈ _parsed_groups x -> exists y, w_clis w !! i = Some y /\ Some gi ∈ _parsed_groups y) ->
  Polled out (w <| w_clis := m |>).
Proof.
  intros [H1 H2 H3 H4 H5 H6 H7] Hm Hn Hp. split; try done; cbn.
  - intros fd c rw Hc. specialize (H2 _ _ _ Hc). destruct c as [i| | | | |]; try done.
    cbn in *. destruct (Hm i) as [->|Hg]; [done|]. by destruct (Hg fd rw).
  - intros i x gi g Hx Hin. destruct (Hp _ _ _ Hx Hin) as (y & Hy & Hin'). by eapply H6.
  - intros i x gi Hx Hin. destruct (Hp _ _ _ Hx Hin) as (y & Hy & Hin'). by eapply H7.
Qed.

Lemma polled_upds w m :
  Polled out w -> (forall i, m !! i = w_upds w !! i \/ gone (CUpdater i) w) -> (forall i, is_Some (m !! i) -> (i < w_next w)%nat) ->
  Polled out (w <| w_upds := m |>).
Proof.
  intros [H1 H2 H3 H4 H5 H6 H7] Hm Hn. split; try done. cbn. intros fd c rw Hc. specialize (H2 _ _ _ Hc). destruct c as [| | | |i|]; try done.
  cbn in *. destruct (Hm i) as [->|Hg]; [done|]. by destruct (Hg fd rw).
Qed.

Lemma polled_insert_cli w i x :
  Polled out w -> gone (CClient i) w -> (i < w_next w)%nat ->
  (forall gi, Some gi ∈ _parsed_groups x -> exists y, w_clis w !! i = Some y /\ Some gi ∈ _parsed_groups y) ->
  Polled out (w <| w_clis ::= <[i := x]> |>).
Proof.
  intros Hw Hg Hi Hp. apply (polled_clis w); [done|..].
  - intros j. destruct (decide (i = j)) as [<-|]; [by right|left]. by rewrite lookup_insert_ne.
  - intros j. destruct (decide (i = j)) as [<-|]; [done|]. rewrite lookup_insert_ne by done. apply Hw.
  - intros j y gi. rewrite lookup_insert_Some. intros [[<- <-]|[_ Hy]] Hin; [by apply Hp|by exists y].
Qed.
Lemma polled_delete_cli w i : Polled out w -> gone (CClient i) w -> Polled out (w <| w_clis ::= delete i |>).
Proof.
  intros Hw Hg. apply (polled_clis w); [done|..].
  - intros j. destruct (decide (i = j)) as [<-|]; [by right|left]. by rewrite lookup_delete_ne.
  - intros j [y [_ Hy]%lookup_delete_Some]. apply (pl_clis _ _ Hw). by rewrite Hy.
  - intros j y gi [_ Hy]%lookup_delete_Some Hin. by exists y.
Qed.
Lemma polled_insert_upd w i x : Polled out w -> gone (CUpdater i) w -> (i < w_next w)%nat -> Polled out (w <| w_upds ::= <[i := x]> |>).
Proof.
  intros Hw Hg Hi. apply (polled_upds w); [done|..]; intros j; destruct (decide (i = j)) as [<-|]; auto;
    rewrite lookup_insert_ne by done; [by left|]. apply Hw.
Qed.
Lemma polled_delete_upd w i : Polled out w -> gone (CUpdater i) w -> Polled out (w <| w_upds ::= delete i |>).
Proof.
  intros Hw Hg. apply (polled_upds w); [done|..]; intros j; destruct (decide (i = j)) as [<-|]; auto.
  - rewrite lookup_delete_ne by done. by left.
  - rewrite lookup_delete_eq. by intros [].
  - rewrite lookup_delete_ne by done. apply Hw.
Qed.

(** A client or an updater without an entry moves its descriptor. *)
Lemma set_fd_polled c fd w :
  Polled out w -> gone c w -> Polled out (set_conn_fd c fd w).2 /\ w_kern (set_conn_fd c fd w).2 = w_kern w.
Proof.
  intros Hw Hg. destruct c as [i|i|i|i|i|]; cbn [set_conn_fd].
  - unfold set_cli, get_cli, deref_obj, mbind, M_bind. destruct (w_clis w !! i) as [x|] eqn:Ex; [|done]. split; [|done].
    apply (polled_insert_cli w); [done..|apply (pl_clis _ _ Hw); by rewrite Ex|]. intros gi Hin. by exists x.
  - split; [by apply stable_set_svr|]. unfold set_svr, get_svr, deref_obj, mbind, M_bind. by destruct (w_svrs w !! i).
  - split; [by apply stable_set_long|]. unfold set_long, get_long, deref_obj, mbind, M_bind. by destruct (w_longs w !! i).
  - split; [by apply stable_set_long|]. unfold set_long, get_long, deref_obj, mbind, M_bind. by destruct (w_longs w !! i).
  - unfold set_upd, get_upd, deref_obj, mbind, M_bind. destruct (w_upds w !! i) as [x|] eqn:Ex; [|done]. split; [|done].
    apply (polled_insert_upd w); [done..|]. apply (pl_upds _ _ Hw). by rewrite Ex.
  - split; [by apply stable_set_proxy|done].
Qed.

Definition owner (c : Connection) : bool := match c with CClient _ | CUpdater _ => true | _ => false end.

(** The entries of a client or an updater are under its descriptor. *)
Lemma entry_fd c w fd fd' rw :
  Polled out w -> owner c = true -> entry_ok w fd c -> k_epoll (w_kern w) !! fd' = Some (c, rw) -> fd' = fd.
Proof. intros Hw Hc He Hc'. pose proof (pl_entry _ _ Hw _ _ _ Hc') as He'. destruct c; cbn in *; congruence. Qed.

Lemma close_polled c w :
  Polled out w -> Polled out (close_conn_fd c w).2 /\ (owner c = true -> forall a, (close_conn_fd c w).1 = Ret a -> gone c (close_conn_fd c w).2).
Proof.
  intros Hw. pose proof (conn_fd_ok c w) as Hfd. unfold close_conn_fd, mbind, M_bind.
  destruct (conn_fd c w) as [[fd| | |] w']; [destruct Hfd as [-> He]|by subst; split..].
  destruct (Z.eqb_spec fd (-1)) as [->|Hne].
  - split; [done|]. intros Hc a _ fd' rw Hin. cbn in Hin. assert (fd' = -1) as -> by (by eapply entry_fd).
    destruct (pl_kern _ _ Hw) as (_ & Hn & _). congruence.
  - pose proof (stable_close fd w Hw) as Hw1. unfold cio_close in *. cbn [set_kern modify] in *.
    set (w1 := (set_kern _ w).2) in *. change (set_kern _ w) with (Ret tt, w1).
    assert (Hg : owner c = true -> gone c w1).
    { intros Hc fd' rw Hin. unfold w1 in Hin. cbn in Hin. apply lookup_delete_Some in Hin as [Hne' Hin].
      destruct Hne'. exact (eq_sym (entry_fd c w fd fd' rw Hw Hc He Hin)). }
    destruct (owner c) eqn:Ec.
    + destruct (set_fd_polled c (-1) w1 Hw1 (Hg eq_refl)) as [Hp Hk]. split; [done|]. intros _ a _ fd' rw Hin. eapply (Hg eq_refl fd' rw). rewrite <- Hk. exact Hin.
    + split; [|done]. destruct c; try done; cbn [set_conn_fd]; [by apply stable_set_svr|by apply stable_set_long..|by apply stable_set_proxy].
Qed.

Lemma stable_close_conn_fd c : stable out (close_conn_fd c).
Proof. intros w Hw. by apply close_polled. Qed.

Lemma stable_close_delete_cli i : stable out (close_conn_fd (CClient i) ;; modify (fun w => w <| w_clis ::= delete i |>)).
Proof.
  intros w Hw. destruct (close_polled (CClient i) w Hw) as [Hp Hg]. unfold mbind, M_bind.
  destruct (close_conn_fd (CClient i) w) as [[a| | |] w']; [|done..]. apply polled_delete_cli; [done|]. by apply (Hg eq_refl a).
Qed.

Lemma stable_delete_updater i : stable out (close_conn_fd (CUpdater i) ;; modify (fun w => w <| w_upds ::= delete i |>)).
Proof.
  intros w Hw. destruct (close_polled (CUpdater i) w Hw) as [Hp Hg]. unfold mbind, M_bind.
  destruct (close_conn_fd (CUpdater i) w) as [[a| | |] w']; [|done..]. apply polled_delete_upd; [done|]. by apply (Hg eq_refl a).
Qed.

(** ** New clients and updaters *)

Lemma gone_fresh_cli w : Polled out w -> gone (CClient (w_next w)) w.
Proof.
  intros Hw fd rw Hin. pose proof (pl_entry _ _ Hw _ _ _ Hin) as He. cbn in He. apply fmap_Some in He as (x & Hx & _).
  pose proof (pl_clis _ _ Hw (w_next w) (mk_is_Some _ _ Hx)). lia.
Qed.
Lemma gone_fresh_upd w : Polled out w -> gone (CUpdater (w_next w)) w.
Proof.
  intros Hw fd rw Hin. pose proof (pl_entry _ _ Hw _ _ _ Hin) as He. cbn in He. apply fmap_Some in He as (x & Hx & _).
  pose proof (pl_upds _ _ Hw (w_next w) (mk_is_Some _ _ Hx)). lia.
Qed.

Lemma stable_fresh_cli {A} x (k : nat -> W A) :
  _parsed_groups x = [] -> (forall i, stable out (k i)) -> stable out (i ← fresh; modify (fun w => w <| w_clis ::= <[i := x]> |>) ;; k i).
Proof.
  intros Hx Hk w Hw. apply Hk, polled_insert_cli; [by apply stable_fresh|exact (gone_fresh_cli w Hw)|cbn; lia|].
  rewrite Hx. by intros gi []%elem_of_nil.
Qed.
Lemma stable_fresh_upd {A} x (k : nat -> W A) :
  (forall i, stable out (k i)) -> stable out (i ← fresh; modify (fun w => w <| w_upds ::= <[i := x]> |>) ;; k i).
Proof.
  intros Hk w Hw. apply Hk, polled_insert_upd; [by apply stable_fresh| |cbn; lia]. exact (gone_fresh_upd w Hw).
Qed.
End Structure.
