(* ===== verification/EpollOps.v ===== *)
(** * The operations keep the epoll set

    [Epoll.Polled] holds after every operation of the program, however it ends. *)
From S2P Require Import Prelude Strings OrderedSet Address SlotCalc Buffer Response SlotMap CommandParser World Kernel Command Server LongConn Client Proxy Epoll.
#[local] Open Scope Z_scope.

Create HintDb stable discriminated.
#[export] Hint Resolve stable_ret stable_gets stable_throw stable_lift stable_undefined stable_null stable_no_fuel stable_deref
  stable_set_proxy stable_set_glob stable_set_cmd stable_set_grp stable_set_long stable_set_svr stable_set_cli stable_set_upd
  stable_fresh stable_read stable_write stable_flush stable_writev stable_close stable_epoll_del stable_socket stable_accept
  stable_nonblocking stable_poll_create stable_connect stable_now stable_randint stable_poll_check stable_conn_fd stable_is_closed stable_poll_del
  stable_poll_add_ro stable_poll_add_rw stable_poll_ro stable_poll_rw stable_close_conn_fd stable_close_delete_cli
  stable_delete_updater : stable.
#[export] Hint Extern 1 (forall i, _ = Some i -> _ <> CClient i) => (intros ? ?; discriminate) : stable.
#[export] Hint Extern 1 (forall x, cli_fd _ = _) => reflexivity : stable.
#[export] Hint Extern 1 (forall x, upd_fd _ = _) => reflexivity : stable.
#[export] Hint Extern 1 (forall x, grp_client _ = _) => reflexivity : stable.
#[export] Hint Extern 1 (forall x gi, _ -> elem_of _ _) => (intros ? ? Hin; exact Hin) : stable.
#[export] Hint Extern 1 (stable _ (get_cmd _)) => apply stable_deref : stable.
#[export] Hint Extern 1 (stable _ (get_grp _)) => apply stable_deref : stable.
#[export] Hint Extern 1 (stable _ (get_cli _)) => apply stable_deref : stable.
#[export] Hint Extern 1 (stable _ (get_svr _)) => apply stable_deref : stable.
#[export] Hint Extern 1 (stable _ (get_long _)) => apply stable_deref : stable.
#[export] Hint Extern 1 (stable _ (get_upd _)) => apply stable_deref : stable.
#[export] Hint Extern 2 (stable _ (modify _)) => (apply stable_modify; intros ?; split_and!; solve [done | cbn; lia | intros ?; apply insert_some | apply groups_kept_refl]) : stable.

Ltac stable_step :=
  repeat first
    [ solve [eauto 3 with stable nocore]
    | apply stable_bind; [|intros ?]
    | apply stable_when
    | apply stable_for; intros ?
    | apply stable_on_throw
    | apply stable_try; [|intros ? ? ?; simplify_eq/=]
    | progress cbn [negb]
    | case_match; simplify_eq/= ].

Section Any.
Context (out : option nat).
#[local] Abbreviation stable := (stable out).

Lemma stable_new_buffer b : stable (new_buffer b).
Proof. unfold new_buffer. stable_step. Qed.
Lemma stable_set_buffer i b : stable (set_buffer i b).
Proof. unfold set_buffer. stable_step. Qed.
Lemma stable_set_conn_poll_ro c : stable (set_conn_poll_ro c).
Proof. apply stable_set_proxy. Qed.
Lemma stable_set_conn_poll_rw c : stable (set_conn_poll_rw c).
Proof. apply stable_set_proxy. Qed.
#[local] Hint Resolve stable_new_buffer stable_set_buffer stable_set_conn_poll_ro stable_set_conn_poll_rw : stable.

Lemma stable_get_by_slot ks : stable (get_by_slot ks).
Proof. unfold get_by_slot. stable_step. Qed.
#[local] Hint Resolve stable_get_by_slot : stable.
Lemma stable_get_server_by_slot ks : stable (get_server_by_slot ks).
Proof. unfold get_server_by_slot. stable_step. Qed.
#[local] Hint Resolve stable_get_server_by_slot : stable.
Lemma stable_select_server c : stable (select_server c).
Proof. unfold select_server, select_server_for, retry_move_ask_command_later, push_client_command, add_peer. stable_step. Qed.
#[local] Hint Resolve stable_select_server : stable.
Lemma stable_reactivate c : stable (reactivate c).
Proof. unfold reactivate. stable_step. Qed.
#[local] Hint Resolve stable_reactivate : stable.

Lemma stable_buffer_of_cmd c : stable (buffer_of_cmd c).
Proof. unfold buffer_of_cmd. stable_step. Qed.
#[local] Hint Resolve stable_buffer_of_cmd : stable.
Lemma stable_buffers_of_cmds cs : stable (buffers_of_cmds cs).
Proof. induction cs; cbn [buffers_of_cmds]; stable_step. Qed.
#[local] Hint Resolve stable_buffers_of_cmds : stable.
Lemma stable_append_buffer_to g : stable (append_buffer_to g).
Proof. unfold append_buffer_to, multi_append_buffer, del_append_buffer, mset_append_buffer. stable_step. Qed.
#[local] Hint Resolve stable_append_buffer_to : stable.
Lemma stable_push_ready cli gs : stable (push_ready cli gs).
Proof. induction gs; cbn [push_ready]; stable_step. Qed.
#[local] Hint Resolve stable_push_ready : stable.
Lemma stable_push_awaitings cli : stable (_push_awaitings_to_ready cli).
Proof. unfold _push_awaitings_to_ready. stable_step. Qed.
#[local] Hint Resolve stable_push_awaitings : stable.
Lemma stable_command_responsed g : stable (command_responsed g).
Proof. unfold command_responsed, single_command_responsed, multi_command_responsed, group_responsed. stable_step. Qed.
#[local] Hint Resolve stable_command_responsed : stable.
Lemma stable_on_remote_responsed c rsp err : stable (on_remote_responsed c rsp err).
Proof. unfold on_remote_responsed, rsp_get, rsp_set, rename_goto, answer, responsed. stable_step. Qed.
#[local] Hint Resolve stable_on_remote_responsed : stable.

Lemma stable_total_cost cs : stable (total_remote_cost cs).
Proof. induction cs; cbn [total_remote_cost]; stable_step. Qed.
#[local] Hint Resolve stable_total_cost : stable.
Lemma stable_collect_stats g : stable (collect_stats g).
Proof. unfold collect_stats, avg_commands_remote_cost, stat_proccessed. stable_step. Qed.

Lemma stable_new_command b g cls : stable (new_command b g cls).
Proof. unfold new_command. stable_step. Qed.
#[local] Hint Resolve stable_new_command : stable.
Lemma stable_new_commands g cmds : stable (new_commands g cmds).
Proof. induction cmds as [|[b ks] cmds IH]; cbn [new_commands]; stable_step. Qed.
#[local] Hint Resolve stable_new_commands : stable.
(** *** A new group, and the queue it joins *)

Definition unparsed (g : nat) (w : World) : Prop := forall i x, w_clis w !! i = Some x -> Some g ∉ _parsed_groups x.

(** Computations that leave the clients alone. *)
Definition spares {A} (c : W A) : Prop := forall w, w_clis (c w).2 = w_clis w /\ (w_next w <= w_next (c w).2)%nat.

Lemma spares_bind {A B} (c : W A) (f : A -> W B) : spares c -> (forall a, spares (f a)) -> spares (c ≫= f).
Proof.
  intros Hc Hf w. destruct (Hc w) as [E1 E2]. unfold mbind, M_bind. destruct (c w) as [[a| | |] w']; try done.
  destruct (Hf a w') as [F1 F2]. cbn in *. split; [congruence|lia].
Qed.

Ltac spares_step :=
  repeat first [apply spares_bind; [|intros ?] | solve [intros w; cbn; auto with arith] | case_match].

Lemma spares_now : spares now.
Proof. unfold now. spares_step. Qed.
Lemma spares_fresh : spares fresh.
Proof. intros w. split; [done|]. apply Nat.le_succ_diag_r. Qed.
Lemma spares_new_buffer b : spares (new_buffer b).
Proof. apply spares_bind; [apply spares_fresh|intros i]. spares_step. Qed.
Lemma spares_new_command b g cls : spares (new_command b g cls).
Proof. apply spares_bind; [apply spares_new_buffer|intros i]. apply spares_bind; [apply spares_fresh|intros j]. spares_step. Qed.
Lemma spares_new_commands g cmds : spares (new_commands g cmds).
Proof.
  induction cmds as [|[b ks] cmds IH]; cbn [new_commands]; [spares_step|].
  apply spares_bind; [apply spares_new_command|intros c]. apply spares_bind; [done|intros; spares_step].
Qed.

(** The group that is returned is one of the client's. *)
Definition is_group_of (cli : nat) (r : outcome nat * World) : Prop :=
  Polled out r.2 /\ forall g, r.1 = Ret g -> grp_client <$> (w_grps r.2 !! g) = Some cli /\ (g < w_next r.2)%nat.

Definition builds (cli g : nat) (c : W nat) : Prop :=
  forall w, Polled out w -> unparsed g w -> (g < w_next w)%nat -> is_group_of cli (c w).

Lemma builds_bind {A} cli g (c : W A) f : stable c -> spares c -> (forall a, builds cli g (f a)) -> builds cli g (c ≫= f).
Proof.
  intros Hs Hq Hf w Hw Hu Hg. specialize (Hs w Hw). destruct (Hq w) as [E1 E2]. unfold mbind, M_bind.
  destruct (c w) as [[a| | |] w']; cbn in *; [|by split..]. apply Hf; [done| |lia]. unfold unparsed. by rewrite E1.
Qed.

Lemma builds_new_group cli g cls t : builds cli g (new_group cli g cls t ;; mret g).
Proof.
  intros w [H1 H2 H3 H4 H5 H6 H7] Hu Hg. unfold new_group, mbind, M_bind. split; cbn.
  - split; try done; cbn. intros i x gi y Hx Hin. rewrite lookup_insert_Some. intros [[<- <-]|[_ Hy]]; [by destruct (Hu i x Hx)|by eapply H6].
  - intros ? [= <-]. by rewrite lookup_insert_eq.
Qed.

Definition makes (cli : nat) (c : W nat) : Prop := forall w, Polled out w -> is_group_of cli (c w).

Lemma makes_fresh cli f : (forall g, builds cli g (f g)) -> makes cli (fresh ≫= f).
Proof.
  intros Hf w Hw. apply Hf; [by apply stable_fresh| |cbn; lia]. intros i x Hx Hin. pose proof (pl_parsed _ _ Hw _ _ _ Hx Hin). lia.
Qed.

Lemma makes_bind {A} cli (c : W A) f : stable c -> (forall a, makes cli (f a)) -> makes cli (c ≫= f).
Proof.
  intros Hs Hf w Hw. specialize (Hs w Hw). unfold mbind, M_bind. destruct (c w) as [[a| | |] w']; cbn in *; [by apply Hf|by split..].
Qed.

#[local] Hint Resolve spares_now spares_new_buffer spares_new_command spares_new_commands : stable.

Lemma makes_null cli : makes cli null_pointer.
Proof. by split. Qed.

Lemma make_group_makes stats cli sp : makes cli (make_group stats cli sp).
Proof.
  destruct sp; cbn [make_group]; unfold notify_each_thread_update_slot_map, update_slot_map, new_direct_group, new_single_group, new_multi_group;
    repeat first
      [ apply makes_fresh; intros ?
      | apply makes_null
      | match goal with |- makes _ (match ?o with Some _ => _ | None => _ end) => destruct o end
      | apply builds_new_group
      | apply makes_bind; [stable_step; fail|intros ?]
      | apply builds_bind; [stable_step; fail|solve [eauto with stable]|intros ?] ].
Qed.

(** [Client::push_command] *)
Lemma stable_push cli g :
  forall w, Polled out w -> grp_client <$> (w_grps w !! g) = Some cli -> (g < w_next w)%nat ->
  Polled out (set_cli cli (fun c => c <| _parsed_groups ::= (fun l => l ++ [Some g]) |>) w).2.
Proof.
  intros w Hw Hg Hn. pose proof (stable_set_cli out cli id ltac:(done) ltac:(done) w Hw) as Hid.
  unfold set_cli, get_cli, deref_obj, mbind, M_bind in *. destruct (w_clis w !! cli) as [x|] eqn:Ex; [|done].
  destruct Hid as [H1 H2 H3 H4 H5 H6 H7]. cbn in *. split; try done; cbn.
  - intros fd c rw Hc. specialize (H2 _ _ _ Hc). destruct c as [j| | | | |]; try done. cbn in *.
    destruct (decide (cli = j)) as [<-|]; [by rewrite lookup_insert_eq in *|by rewrite lookup_insert_ne in * by done].
  - intros j Hj. apply H4. destruct (decide (cli = j)) as [<-|]; [by rewrite lookup_insert_eq|by rewrite lookup_insert_ne in * by done].
  - intros j y gi z. rewrite lookup_insert_Some. intros [[<- <-]|[Hne Hy]] Hin Hz.
    + cbn in Hin. apply elem_of_app in Hin as [Hin|[= ->]%list_elem_of_singleton].
      * eapply (H6 cli x); [apply lookup_insert_eq|done..].
      * rewrite Hz in Hg. by injection Hg.
    + eapply (H6 j y); [by rewrite lookup_insert_ne|done..].
  - intros j y gi. rewrite lookup_insert_Some. intros [[<- <-]|[Hne Hy]] Hin.
    + cbn in Hin. apply elem_of_app in Hin as [Hin|[= ->]%list_elem_of_singleton]; [|done].
      eapply (H7 cli x); [apply lookup_insert_eq|done].
    + eapply (H7 j y); [by rewrite lookup_insert_ne|done].
Qed.

Lemma stable_push_commands stats cli sps : stable (push_commands stats cli sps).
Proof.
  induction sps as [|sp sps IH]; cbn [push_commands]; [apply stable_ret|]. intros w Hw.
  destruct (make_group_makes stats cli sp w Hw) as [Hp Hg]. unfold mbind, M_bind at 1.
  destruct (make_group stats cli sp w) as [[g| | |] w']; [|done..]. cbn in *. destruct (Hg g eq_refl) as [Hc Hn].
  pose proof (stable_push cli g w' Hp Hc Hn) as Hs. unfold M_bind.
  destruct (set_cli cli _ w') as [[u| | |] w'']; [by apply IH|done..].
Qed.
Lemma stable_delete_group g : stable (delete_group g).
Proof.
  apply stable_bind; [apply stable_deref|intros x]. apply stable_modify. intros w. split_and!; try done.
  intros gi y. cbn. rewrite lookup_delete_Some. intros [_ Hy]. by exists y.
Qed.

(** ** Servers *)

Lemma stable_close_conn s : stable (close_conn s).
Proof. unfold close_conn, retry_move_ask_command_later, inactivate_long_conn, remove_entry. stable_step. Qed.
#[local] Hint Resolve stable_close_conn : stable.
Lemma stable_push_to_buffer_set s : stable (_push_to_buffer_set s).
Proof. unfold _push_to_buffer_set. stable_step. Qed.
Lemma stable_respond t rsps sent : stable (respond t rsps sent).
Proof.
  revert sent. induction rsps as [|r rsps IH]; intros [|[c|] sent]; cbn [respond]; unfold rsp_to, retry_move_ask_command_later; stable_step; auto.
Qed.
#[local] Hint Resolve stable_push_to_buffer_set stable_respond : stable.
Lemma stable_recv_from s : stable (_recv_from s).
Proof. unfold _recv_from. stable_step. Qed.
#[local] Hint Resolve stable_recv_from : stable.
Lemma stable_server_on_events s ev : stable (server_on_events s ev).
Proof. unfold server_on_events, catch_bad. stable_step. Qed.
Lemma stable_erase_client cli cmds : stable (erase_client cli cmds).
Proof. induction cmds; cbn [erase_client]; unfold cmd_client; stable_step. Qed.
Lemma stable_reset_client cli sent : stable (reset_client cli sent).
Proof. induction sent as [|[c|] sent]; cbn [reset_client]; unfold cmd_client; stable_step. Qed.
#[local] Hint Resolve stable_erase_client stable_reset_client : stable.
Lemma stable_server_pop s cli : stable (server_pop_client s cli).
Proof. unfold server_pop_client. stable_step. Qed.
Lemma stable_proxy_pop cli : stable (proxy_pop_client cli).
Proof. unfold proxy_pop_client. stable_step. Qed.
Lemma stable_reconnect s addr : stable (_reconnect s addr).
Proof. unfold _reconnect, on_server_connected. stable_step. Qed.
#[local] Hint Resolve stable_reconnect : stable.
Lemma stable_get_server addr : stable (get_server addr).
Proof. unfold get_server, _alloc_server, new_pooled_server. stable_step. Qed.
#[local] Hint Resolve stable_get_server : stable.
Lemma stable_map_slots s first n r : stable (map_slots s first n r).
Proof. revert first r. induction n; intros; cbn [map_slots]; stable_step. Qed.
#[local] Hint Resolve stable_map_slots : stable.
Lemma stable_map_ranges s rs r m : stable (map_ranges s rs r m).
Proof. revert r m. induction rs; intros; cbn [map_ranges]; stable_step. Qed.
#[local] Hint Resolve stable_map_ranges : stable.
Lemma stable_map_nodes pick nodes r m : stable (map_nodes pick nodes r m).
Proof. revert r m. induction nodes; intros; cbn [map_nodes]; stable_step. Qed.
#[local] Hint Resolve stable_map_nodes : stable.
Lemma stable_replace_map nodes : stable (replace_map nodes).
Proof. unfold replace_map. stable_step. Qed.
Lemma stable_slot_map_clear : stable slot_map_clear.
Proof. unfold slot_map_clear. stable_step. Qed.

(** ** Long connections *)

Lemma stable_delete_long l : stable (delete_long l).
Proof. unfold delete_long, detach_long_connection. stable_step. Qed.
#[local] Hint Resolve stable_delete_long : stable.
Lemma stable_new_long k fd s b : stable (new_long k fd s b).
Proof. unfold new_long, attach_long_connection, open_server_conn. stable_step. Qed.
#[local] Hint Resolve stable_new_long : stable.
Lemma stable_random_addr : stable random_addr.
Proof. unfold random_addr. stable_step. Qed.
End Any.

#[export] Hint Resolve stable_new_buffer stable_set_buffer stable_set_conn_poll_ro stable_set_conn_poll_rw stable_get_server_by_slot
  stable_select_server stable_push_awaitings stable_on_remote_responsed stable_collect_stats stable_push_commands stable_delete_group
  stable_close_conn stable_server_on_events stable_server_pop stable_proxy_pop stable_replace_map stable_slot_map_clear
  stable_delete_long stable_new_long stable_random_addr : stable.

(** ** Clients *)

(** [Client::_process] turns a client into a long connection after it has left the epoll set. *)
Lemma polled_out i w : Polled None w -> gone (CClient i) w -> Polled (Some i) w.
Proof. intros [] Hg. split; try done. intros j fd rw [= <-]. apply Hg. Qed.

Lemma polled_in i w : Polled (Some i) w -> Polled None w.
Proof. intros []. by split. Qed.

Lemma poll_del_out i w :
  Polled None w -> Polled None (poll_del (CClient i) w).2 /\ forall a, (poll_del (CClient i) w).1 = Ret a -> Polled (Some i) (poll_del (CClient i) w).2.
Proof.
  intros Hw. pose proof (stable_poll_del None (CClient i) w Hw) as Hp. split; [done|].
  pose proof (conn_fd_ok (CClient i) w) as Hfd. unfold poll_del, mbind, M_bind in *.
  destruct (conn_fd (CClient i) w) as [[fd| | |] w']; [destruct Hfd as [-> He]|done..]. intros a _. apply polled_out; [done|].
  intros fd' rw Hin. cbn in Hin. apply lookup_delete_Some in Hin as [Hne Hin]. destruct Hne.
  symmetry. exact (entry_fd None (CClient i) w fd fd' rw Hw eq_refl He Hin).
Qed.

Lemma deliver_to_out k cli svr b : stable (Some cli) (deliver_to k cli svr b).
Proof.
  destruct svr as [s|]; cbn [deliver_to]; [|stable_step].
  apply stable_bind; [apply stable_conn_fd|intros fd]. apply stable_bind; [apply stable_new_long|intros l].
  intros w Hw. apply set_fd_polled; [done|]. intros fd' rw. by apply (pl_out _ _ Hw).
Qed.

Lemma deliver_client_out g : stable (Some (grp_client g)) (deliver_client g).
Proof.
  unfold deliver_client. destruct (grp_class g); try apply stable_ret;
    (apply stable_bind; [eauto with stable nocore|intros svr; apply deliver_to_out]).
Qed.

Lemma stable_deliver cli g :
  grp_client g = cli -> stable None (poll_del (CClient cli) ;; deliver_client g ;; close_conn_fd (CClient cli) ;; mret false).
Proof.
  intros Hg w Hw. destruct (poll_del_out cli w Hw) as [Hp Ho]. unfold mbind at 1, M_bind.
  destruct (poll_del (CClient cli) w) as [[a| | |] w1]; [|done..]. specialize (Ho a eq_refl). cbn in Ho.
  pose proof (deliver_client_out g) as Hd. rewrite Hg in Hd. specialize (Hd w1 Ho). unfold mbind at 1, M_bind.
  destruct (deliver_client g w1) as [[b| | |] w2]; [|by eapply polled_in..]. apply polled_in in Hd.
  revert w2 Hd. change (stable None (close_conn_fd (CClient cli) ;; mret false)). stable_step.
Qed.

Lemma elem_of_insert_None (l : list (option nat)) i gi : Some gi ∈ <[i := None]> l -> Some gi ∈ l.
Proof.
  intros (j & Hj)%list_elem_of_lookup. apply list_lookup_insert_Some in Hj as [(_ & ? & _)|(_ & Hj)]; [done|].
  by eapply list_elem_of_lookup_2.
Qed.

Lemma stable_process_loop cli i n : stable None (process_loop cli i n).
Proof.
  revert i. induction n as [|n IH]; intros i; cbn [process_loop]; [apply stable_ret|].
  intros w Hw. unfold mbind at 1, M_bind at 1, get_cli, deref_obj. destruct (w_clis w !! cli) as [x|] eqn:Ex; [|done].
  destruct (_parsed_groups x !! i) as [[gi|]|] eqn:Ei; [|done..].
  unfold mbind at 1, M_bind at 1, get_grp, deref_obj. destruct (w_grps w !! gi) as [g|] eqn:Eg; [|done].
  assert (Hown : grp_client g = cli) by (eapply (pl_own _ _ Hw); [exact Ex|by eapply list_elem_of_lookup_2|exact Eg]).
  revert w Hw Ex Eg. case_match; intros w Hw Ex Eg; [by apply stable_deliver|]. clear Ex Eg Hown. revert w Hw.
  match goal with |- forall w, _ -> Polled None (?c w).2 => change (stable None c) end.
  apply stable_bind; [unfold select_remote; stable_step|intros _].
  apply stable_bind; [|intros _; apply IH]. apply stable_set_cli; [done|]. intros y gj. apply elem_of_insert_None.
Qed.

Lemma elem_of_drop {A} n (l : list A) x : x ∈ drop n l -> x ∈ l.
Proof. intros Hx. rewrite <- (take_drop n l). apply elem_of_app. by right. Qed.

Lemma stable_process cli : stable None (_process cli).
Proof.
  unfold _process. apply stable_bind; [apply stable_deref|intros c].
  apply stable_bind; [apply stable_process_loop|intros [|]]; cbn [negb]; [|apply stable_ret].
  apply stable_bind; [apply stable_set_cli; [done|]; intros x gi; apply elem_of_drop|intros _]. stable_step.
Qed.
#[export] Hint Resolve stable_process : stable.

Lemma stable_send_buffer_set cli : stable None (_send_buffer_set cli).
Proof. unfold _send_buffer_set. stable_step. Qed.
#[export] Hint Resolve stable_send_buffer_set : stable.
Lemma stable_client_on_events stats cli ev : stable None (client_on_events stats cli ev).
Proof. unfold client_on_events, _write_response, _read_request. stable_step. Qed.
Lemma stable_client_after_events cli : stable None (client_after_events cli).
Proof.
  unfold client_after_events. apply stable_bind; [apply stable_is_closed|intros b]. apply stable_when.
  unfold delete_client. stable_step.
Qed.
#[export] Hint Resolve stable_client_on_events stable_client_after_events : stable.

Lemma stable_new_client fd : stable None (new_client fd).
Proof. apply (stable_fresh_cli None); [done|]. intros i. stable_step. Qed.
#[export] Hint Resolve stable_new_client : stable.

Lemma stable_restore_client l rsp upd : stable None (restore_client l rsp upd).
Proof. unfold restore_client, set_conn_fd, update_slot_map. stable_step. Qed.
#[export] Hint Resolve stable_restore_client : stable.
Lemma stable_server_conn_on_error l : stable None (server_conn_on_error l).
Proof. unfold server_conn_on_error. stable_step. Qed.
#[export] Hint Resolve stable_server_conn_on_error : stable.
Lemma stable_long_on_events l ev : stable None (long_on_events l ev).
Proof. unfold long_on_events. stable_step. Qed.
Lemma stable_long_server_on_events l ev : stable None (long_server_on_events l ev).
Proof. unfold long_server_on_events, subscription_server_on_events, blocked_server_on_events. stable_step. Qed.
#[export] Hint Resolve stable_long_on_events stable_long_server_on_events : stable.

(** ** The proxy *)

Lemma stable_move_closed : stable None _move_closed_slot_updaters.
Proof. unfold _move_closed_slot_updaters. stable_step. Qed.
Lemma stable_retry_commands cmds svrs : stable None (retry_commands cmds svrs).
Proof. revert svrs. induction cmds; intros; cbn [retry_commands]; stable_step. Qed.
#[export] Hint Resolve stable_move_closed stable_retry_commands : stable.
Lemma stable_set_slot_map nodes remotes : stable None (_set_slot_map nodes remotes).
Proof. unfold _set_slot_map. stable_step. Qed.
Lemma stable_any_open us : stable None (any_open us).
Proof. induction us; cbn [any_open]; stable_step. Qed.
Lemma stable_max_covered best us : stable None (max_covered best us).
Proof. revert best. induction us; intros; cbn [max_covered]; stable_step; auto. Qed.
#[export] Hint Resolve stable_set_slot_map stable_any_open stable_max_covered : stable.
Lemma stable_update_failed : stable None _update_slot_map_failed.
Proof. unfold _update_slot_map_failed. stable_step. Qed.
#[export] Hint Resolve stable_update_failed : stable.
Lemma stable_notify_updated u : stable None (_notify_updated u).
Proof. unfold _notify_updated, notify_slot_map_updated. stable_step. Qed.
#[export] Hint Resolve stable_notify_updated : stable.
Lemma cover_nodes_fd nodes x : upd_fd (foldl cover_node x nodes) = upd_fd x.
Proof. revert x. induction nodes as [|n nodes IH]; intros x; cbn; [done|]. rewrite IH. unfold cover_node. by case_bool_decide. Qed.
#[local] Hint Extern 1 (forall x, upd_fd _ = _) => (intros x; etransitivity; [apply cover_nodes_fd|reflexivity]) : stable.
Lemma stable_updater_on_events u ev : stable None (updater_on_events u ev).
Proof. unfold updater_on_events, _send_cmd, _recv_rsp, catch_bad. stable_step. Qed.
Lemma stable_new_updater addr : stable None (new_updater addr).
Proof. apply stable_bind; [apply stable_socket|intros fd]. apply (stable_fresh_upd None). intros u. stable_step. Qed.
#[export] Hint Resolve stable_updater_on_events stable_new_updater : stable.
Lemma stable_retrieve : stable None _retrieve_slot_map.
Proof. unfold _retrieve_slot_map. stable_step. Qed.
Lemma stable_turn_on : stable None turn_on_accepting.
Proof. unfold turn_on_accepting. stable_step. Qed.
Lemma stable_accept_loop fuel : stable None (accept_loop fuel).
Proof. induction fuel; cbn [accept_loop]; stable_step. Qed.
#[export] Hint Resolve stable_retrieve stable_turn_on stable_accept_loop : stable.

Lemma stable_on_events stats c ev : stable None (on_events stats c ev).
Proof. destruct c; cbn [on_events]; unfold acceptor_on_events; stable_step. Qed.
Lemma stable_conn_on_error c : stable None (conn_on_error c).
Proof. destruct c; cbn [conn_on_error]; stable_step. Qed.
#[export] Hint Resolve stable_on_events stable_conn_on_error : stable.
Lemma stable_process_events stats events closed active : stable None (process_events stats events closed active).
Proof. revert closed active. induction events as [|[c ev] events IH]; intros; cbn [process_events]; stable_step. Qed.
Lemma stable_after_events c active : stable None (after_events c active).
Proof.
  destruct c; cbn [after_events]; unfold server_after_events, long_after_events, long_server_after_events, update_slot_map; stable_step.
Qed.
#[export] Hint Resolve stable_process_events stable_after_events : stable.
Lemma stable_after_all conns active : stable None (after_all conns active).
Proof. revert active. induction conns; intros; cbn [after_all]; stable_step. Qed.
Lemma stable_poll_ctl : stable None poll_ctl.
Proof. unfold poll_ctl. stable_step. Qed.
#[export] Hint Resolve stable_after_all stable_poll_ctl : stable.

Lemma stable_handle_events stats events : stable None (handle_events stats events).
Proof. unfold handle_events, delete_updater. stable_step. Qed.
