(* ===== verification/Graph.v ===== *)
(** * The graph of objects, and its invariant

    What matters of a thread's objects for memory safety and for the counts of
    responses that are awaited: which group a command belongs to, which client a group
    belongs to, the queues of a client, and the commands a server or the proxy holds a
    pointer to.  [Links] and [Regs] are the invariant of this graph: Links.v shows which
    changes keep it, Safety.v that the operations of the program make such changes. *)
From S2P Require Import Prelude Address Buffer World.
#[local] Open Scope nat_scope.

(** ** The graph *)

Inductive gkind : Type := KDirect | KSingle | KMulti (n : Z) | KLong.

Record Grp : Type := mkGrp { g_client : nat; g_cmds : list nat; g_kind : gkind }.
#[export] Instance eta_Grp : Settable Grp := fun x => mkGrp (g_client x) (g_cmds x) (g_kind x).

Record Cli : Type := mkCli {
  c_peers : gset nat;
  c_parsed : list nat;
  c_awaiting : list nat;
  c_ready : list nat;
  c_count : Z
}.
#[export] Instance eta_Cli : Settable Cli := fun x =>
  mkCli (c_peers x) (c_parsed x) (c_awaiting x) (c_ready x) (c_count x).

Record Graph : Type := mkGraph {
  o_cmds : gmap nat nat;             (* a command's group *)
  o_direct : gmap nat bool;          (* whether it is a [DirectCommand] *)
  o_grps : gmap nat Grp;
  o_clis : gmap nat Cli;
  o_svrs : gmap nat (list nat);      (* the commands a server holds, sent or not *)
  o_retry : list nat;
  o_slots : gmap Z nat;
  o_smap : gmap Address nat;
  o_pool : list nat;
  o_polls : gmap Connection bool;
  o_upds : gset nat;
  o_slot_upds : list nat;
  o_fin_upds : list nat;
  o_longs : gmap nat nat;            (* a long connection's server *)
  o_next : nat
}.
#[export] Instance eta_Graph : Settable Graph := fun x =>
  mkGraph (o_cmds x) (o_direct x) (o_grps x) (o_clis x) (o_svrs x) (o_retry x) (o_slots x) (o_smap x) (o_pool x)
    (o_polls x) (o_upds x) (o_slot_upds x) (o_fin_upds x) (o_longs x) (o_next x).

Definition grp_view (g : CommandGroup) : Grp :=
  mkGrp (grp_client g) (group_commands g)
    (match grp_class g with
     | DirectCommandGroup _ => KDirect
     | SingleCommandGroup _ => KSingle
     | MultipleCommandsGroup _ _ _ n => KMulti n
     | Subscribe _ | BlockedPop _ _ => KLong
     end).

Definition cli_view (c : Client) : Cli :=
  mkCli (_peers c) (omap id (_parsed_groups c)) (_awaiting_groups c) (_ready_groups c) (_awaiting_count c).

Definition svr_view (s : Server) : list nat := _commands s ++ omap id (_sent_commands s).

Definition is_direct (c : Command) : bool :=
  match cmd_class c with DirectCommand => true | _ => false end.

Definition view (w : World) : Graph :=
  mkGraph (cmd_group <$> w_cmds w) (is_direct <$> w_cmds w) (grp_view <$> w_grps w) (cli_view <$> w_clis w) (svr_view <$> w_svrs w)
    (_retrying_commands (w_proxy w)) (_server_map (w_proxy w)) (servers_map (w_glob w)) (servers_pool (w_glob w))
    (_conn_poll_type (w_proxy w)) (dom (w_upds w)) (_slot_updaters (w_proxy w))
    (_finished_slot_updaters (w_proxy w)) (_attached_server <$> w_longs w) (w_next w).

(** ** The invariant *)

Definition c_groups (cl : Cli) : list nat := c_parsed cl ++ c_awaiting cl ++ c_ready cl.

Definition waits (gr : Grp) : Prop := match g_kind gr with KSingle | KMulti _ => True | _ => False end.

Definition shape (gr : Grp) : Prop :=
  match g_kind gr with
  | KDirect | KSingle => length (g_cmds gr) = 1
  | KMulti _ => g_cmds gr <> []
  | KLong => g_cmds gr = []
  end.

Definition svr_held (m : gmap nat (list nat)) : list nat := concat ((map_to_list m).*2).
Definition held (g : Graph) : list nat := o_retry g ++ svr_held (o_svrs g).

(** How many of the commands [H] belong to the group [gi], and how many of the groups
    [l] have such a command. *)
Definition out (cm : gmap nat nat) (H : list nat) (gi : nat) : nat :=
  length (filter (fun c => cm !! c = Some gi) H).
Definition pend (cm : gmap nat nat) (H l : list nat) : nat := length (filter (fun gi => out cm H gi <> 0) l).
Arguments out : simpl never.
Arguments pend : simpl never.

(** The commands of a client: from a command to its group, to the client. *)
Definition chain (g : Graph) (c gi : nat) (gr : Grp) (cl : Cli) : Prop :=
  o_cmds g !! c = Some gi /\ o_grps g !! gi = Some gr /\ o_clis g !! g_client gr = Some cl.

Definition cur_in (cur : option nat) (l : list nat) : Z :=
  match cur with Some gi => if bool_decide (gi ∈ l) then 1 else 0 | None => 0 end%Z.

(** [H] are the commands without a response; the servers and the proxy hold a pointer to
    each of them once, but for those in the hands of the running operation, [L]; [X] are
    pointers left in a server's queue that the operation is about to remove.  [cur] is the
    group whose commands are being handed to the servers. *)
Record Links (H X L : list nat) (cur : option nat) (g : Graph) : Prop := {
  lk_perm : held g ++ L ≡ₚ H ++ X;
  lk_nodup : NoDup H;
  lk_held : forall c, c ∈ H -> exists gi gr cl, chain g c gi gr cl /\ waits gr /\
    (gi ∈ c_awaiting cl \/ (cur = Some gi /\ gi ∈ c_parsed cl));
  lk_grp : forall gi gr, o_grps g !! gi = Some gr ->
    NoDup (g_cmds gr) /\ shape gr /\ (forall c, c ∈ g_cmds gr -> o_cmds g !! c = Some gi) /\
    exists cl, o_clis g !! g_client gr = Some cl /\ gi ∈ c_groups cl;
  lk_cmd : forall c gi, o_cmds g !! c = Some gi -> exists gr, o_grps g !! gi = Some gr /\ c ∈ g_cmds gr;
  lk_cli : forall ci cl, o_clis g !! ci = Some cl ->
    NoDup (c_groups cl) /\ c_peers cl ⊆ dom (o_svrs g) /\
    (forall gi, gi ∈ c_groups cl -> exists gr, o_grps g !! gi = Some gr /\ g_client gr = ci);
  lk_peer : forall s refs c gi gr cl, o_svrs g !! s = Some refs -> c ∈ refs -> c ∈ H ->
    chain g c gi gr cl -> s ∈ c_peers cl;
  lk_count : forall ci cl, o_clis g !! ci = Some cl ->
    c_count cl = (Z.of_nat (pend (o_cmds g) H (c_awaiting cl)) + cur_in cur (c_parsed cl))%Z;
  lk_multi : forall gi gr cl n, o_grps g !! gi = Some gr -> g_kind gr = KMulti n ->
    o_clis g !! g_client gr = Some cl ->
    (gi ∈ c_awaiting cl -> n = Z.of_nat (out (o_cmds g) H gi)) /\
    (gi ∈ c_parsed cl -> n = Z.of_nat (length (g_cmds gr)))
}.

Definition live (g : Graph) (c : Connection) : Prop :=
  match c with
  | CClient i => is_Some (o_clis g !! i)
  | CServer i => is_Some (o_svrs g !! i)
  | CUpdater i => i ∈ o_upds g
  | _ => True
  end.

Definition polled (c : Connection) : Prop := match c with CClient _ | CServer _ => True | _ => False end.

(** The other pointers: the slot table, the map and the pool of servers, the connections to
    poll, the updaters, and the connections [C] that the running operation will use; and
    the commands that are not sent to a server belong to groups that wait for none. *)
Record Regs (C : list Connection) (g : Graph) : Prop := {
  rg_slots : forall k s, o_slots g !! k = Some s -> is_Some (o_svrs g !! s);
  rg_smap : forall a s, o_smap g !! a = Some s -> is_Some (o_svrs g !! s);
  rg_pool : forall s, s ∈ o_pool g -> is_Some (o_svrs g !! s);
  rg_polls : forall c b, o_polls g !! c = Some b -> polled c /\ live g c;
  rg_upds : forall u, u ∈ o_slot_upds g ++ o_fin_upds g -> u ∈ o_upds g;
  rg_upds_nodup : NoDup (o_slot_upds g ++ o_fin_upds g);
  rg_longs : forall l s, o_longs g !! l = Some s -> is_Some (o_svrs g !! s);
  rg_next : (forall i x, o_cmds g !! i = Some x -> i < o_next g) /\
            (forall i x, o_grps g !! i = Some x -> i < o_next g) /\
            (forall i x, o_clis g !! i = Some x -> i < o_next g) /\
            (forall i x, o_svrs g !! i = Some x -> i < o_next g) /\
            (forall i, i ∈ o_upds g -> i < o_next g);
  rg_live : forall c, c ∈ C -> live g c;
  rg_direct : forall c gi gr, o_direct g !! c = Some true -> o_cmds g !! c = Some gi -> o_grps g !! gi = Some gr -> ~ waits gr
}.

(** ** Counting *)

Section Counting.
Implicit Types (cm : gmap nat nat) (H l : list nat).

#[export] Instance out_perm cm : Proper ((≡ₚ) ==> eq ==> eq) (out cm).
Proof. intros H H' HH gi ? <-. unfold out. by rewrite HH. Qed.

Lemma out_cons cm c H gi : out cm (c :: H) gi = (if decide (cm !! c = Some gi) then 1 else 0) + out cm H gi.
Proof. unfold out. rewrite filter_cons. by case_decide. Qed.

Lemma out_0 cm H gi : out cm H gi = 0 <-> forall c, c ∈ H -> cm !! c <> Some gi.
Proof.
  unfold out. rewrite length_zero_iff_nil. split.
  - intros Hf c Hc Hgi. apply (elem_of_nil c). rewrite <- Hf. by apply list_elem_of_filter.
  - intros Hf. apply elem_of_nil_inv. intros c [Hc Hin]%list_elem_of_filter. by eapply Hf.
Qed.

Lemma out_pos cm H gi : out cm H gi <> 0 <-> exists c, c ∈ H /\ cm !! c = Some gi.
Proof.
  split.
  - intros Hn. destruct (decide (Exists (fun c => cm !! c = Some gi) H)) as [He|He].
    + by apply Exists_exists in He.
    + destruct Hn. apply out_0. intros c Hc Hgi. apply He, Exists_exists. eauto.
  - intros (c & Hc & Hgi) H0. by apply (proj1 (out_0 _ _ _) H0 c).
Qed.

Lemma out_ext cm cm' H gi :
  (forall c, c ∈ H -> (cm !! c = Some gi <-> cm' !! c = Some gi)) -> out cm H gi = out cm' H gi.
Proof. intros Hc. unfold out. f_equal. by apply filter_ext_in. Qed.

Lemma pend_ext cm cm' H H' l :
  (forall gi, gi ∈ l -> (out cm H gi = 0 <-> out cm' H' gi = 0)) -> pend cm H l = pend cm' H' l.
Proof.
  intros Hl. unfold pend. f_equal. apply filter_ext_in. intros gi Hgi. by rewrite (Hl gi).
Qed.

#[export] Instance pend_perm cm : Proper ((≡ₚ) ==> (≡ₚ) ==> eq) (pend cm).
Proof.
  intros H H' HH l l' Hl. transitivity (pend cm H' l).
  - apply pend_ext. intros gi _. by rewrite HH.
  - unfold pend. by rewrite Hl.
Qed.

Lemma pend_cons cm H gi l :
  pend cm H (gi :: l) = (if decide (out cm H gi = 0) then 0 else 1) + pend cm H l.
Proof. unfold pend. rewrite filter_cons. case_decide; case_decide; done. Qed.

Lemma pend_0 cm H l gi : pend cm H l = 0 -> gi ∈ l -> out cm H gi = 0.
Proof.
  unfold pend. rewrite length_zero_iff_nil. intros Hf Hgi.
  destruct (decide (out cm H gi = 0)) as [|Hn]; [done|]. exfalso. apply (elem_of_nil gi).
  rewrite <- Hf. by apply list_elem_of_filter.
Qed.

(** One command less: the counts of its group and of the client. *)
Lemma out_drop cm c H gi gj :
  cm !! c = Some gi -> out cm (c :: H) gj = (if decide (gj = gi) then 1 else 0) + out cm H gj.
Proof. intros Hc. rewrite out_cons. repeat case_decide; naive_solver. Qed.

Lemma pend_drop cm c H gi l :
  cm !! c = Some gi -> NoDup l ->
  pend cm (c :: H) l = pend cm H l + (if decide (gi ∈ l /\ out cm H gi = 0) then 1 else 0).
Proof.
  intros Hc. induction 1 as [|gj l Hj Hl IH].
  - rewrite decide_False; [done|]. intros [[]%elem_of_nil _].
  - rewrite !pend_cons, IH, (out_drop _ _ _ gi) by done.
    destruct (decide (gj = gi)) as [->|Hne].
    + destruct (decide (out cm H gi = 0)) as [Ho|Ho].
      * rewrite decide_False by lia. rewrite decide_False by tauto. rewrite decide_True by (split; [left|done]). lia.
      * rewrite decide_False by lia. rewrite !decide_False by tauto. lia.
    + rewrite Nat.add_0_l. destruct (decide (gi ∈ l /\ out cm H gi = 0)) as [[Hi Ho]|Hn].
      * rewrite (decide_True (P := gi ∈ gj :: l /\ _)) by (split; [by right|done]). lia.
      * rewrite (decide_False (P := gi ∈ gj :: l /\ _)) by (rewrite elem_of_cons; naive_solver). lia.
Qed.
End Counting.

(** ** The pointers of the servers *)

Lemma svr_held_lookup m s refs :
  m !! s = Some refs -> svr_held m ≡ₚ refs ++ svr_held (delete s m).
Proof.
  intros Hs. unfold svr_held. rewrite <- (insert_delete_id m s refs) at 1 by done.
  by rewrite map_to_list_insert by apply lookup_delete_eq.
Qed.

Lemma svr_held_insert m s refs :
  svr_held (<[s := refs]> m) ≡ₚ refs ++ svr_held (delete s m).
Proof.
  rewrite (svr_held_lookup _ s refs) by apply lookup_insert_eq. by rewrite delete_insert_eq.
Qed.

Lemma elem_of_svr_held m c : c ∈ svr_held m <-> exists s refs, m !! s = Some refs /\ c ∈ refs.
Proof.
  unfold svr_held. rewrite list_elem_of_In, in_concat. split.
  - intros (refs & Hr & Hc). apply list_elem_of_In, list_elem_of_fmap in Hr as ([s r] & -> & Hin).
    apply elem_of_map_to_list in Hin. exists s, r. split; [done|]. by apply list_elem_of_In.
  - intros (s & refs & Hs & Hc). exists refs. split; [|by apply list_elem_of_In].
    apply list_elem_of_In, list_elem_of_fmap. exists (s, refs). by rewrite elem_of_map_to_list.
Qed.

Lemma svr_held_filter (P : nat -> Prop) `{!forall c, Decision (P c)} m :
  svr_held (filter P <$> m) = filter P (svr_held m).
Proof.
  unfold svr_held. rewrite map_to_list_fmap, <- list_fmap_compose.
  induction (map_to_list m) as [|[s refs] l IH]; [done|]. cbn. by rewrite filter_app, IH.
Qed.
