(* ===== verification/Links.v ===== *)
(** * Changes of the graph of objects that keep its invariant

    One lemma for each kind of change an operation makes: pointers that move, a client's
    queues, a response, and the creation and deletion of groups and clients. *)
From S2P Require Import Prelude Address Buffer World Graph.
#[local] Open Scope nat_scope.

(** ** Changes that keep the invariant *)

Section Changes.
Implicit Types (H X L : list nat) (cur : option nat) (g : Graph).

(** The same objects: commands, groups and clients. *)
Definition same_objects (g g' : Graph) : Prop :=
  o_cmds g' = o_cmds g /\ o_grps g' = o_grps g /\ o_clis g' = o_clis g.

Lemma links_perm H H' X X' L L' cur g :
  H ≡ₚ H' -> X ≡ₚ X' -> L ≡ₚ L' -> Links H X L cur g -> Links H' X' L' cur g.
Proof.
  intros HH HX HL [Hp Hn Hh Hg Hc Hk Hs Ho Hm]. split; try done.
  - by rewrite <- HH, <- HX, <- HL.
  - by rewrite <- HH.
  - intros c. rewrite <- HH. apply Hh.
  - intros s refs c gi gr cl. rewrite <- HH. apply Hs.
  - intros ci cl. rewrite <- HH. apply Ho.
  - intros gi gr cl n. rewrite <- HH. apply Hm.
Qed.

(** Pointers move between the servers, the proxy and the running operation; a server
    gets no pointer it did not have. *)
Lemma links_refs H X L cur g X' L' g' :
  Links H X L cur g -> same_objects g g' ->
  held g' ++ L' ≡ₚ H ++ X' -> dom (o_svrs g) ⊆ dom (o_svrs g') ->
  (forall s refs c, o_svrs g' !! s = Some refs -> c ∈ refs ->
    exists refs0, o_svrs g !! s = Some refs0 /\ c ∈ refs0) ->
  Links H X' L' cur g'.
Proof.
  intros [Hp Hn Hh Hg Hc Hk Hs Ho Hm] (E1 & E2 & E3) Hheld Hdom Hrefs.
  split; unfold chain in *; rewrite ?E1, ?E2, ?E3; try done.
  - intros ci cl Hcl. destruct (Hk _ _ Hcl) as (? & ? & ?). split; [done|]. split; [set_solver|done].
  - intros s refs c gi gr cl Hsv Hin HcH Hch. destruct (Hrefs _ _ _ Hsv Hin) as (refs0 & ? & ?). by eapply Hs.
Qed.

(** Nothing of the graph's links changes. *)
Lemma links_same H X L cur g g' :
  Links H X L cur g -> same_objects g g' -> o_svrs g' = o_svrs g -> o_retry g' = o_retry g -> Links H X L cur g'.
Proof.
  intros Hl Hso Es Er. eapply links_refs; [exact Hl|done| |by rewrite Es|].
  - unfold held. rewrite Es, Er. apply Hl.
  - rewrite Es. eauto.
Qed.

Lemma held_subset H X L cur g c : Links H X L cur g -> X = [] -> c ∈ held g -> c ∈ H.
Proof.
  intros Hl -> Hc. assert (Hin : c ∈ H ++ []) by (rewrite <- (lk_perm _ _ _ _ _ Hl); set_solver).
  by rewrite app_nil_r in Hin.
Qed.

(** A group is in one queue of one client. *)
Lemma group_once H X L cur g gi gr cl ci :
  Links H X L cur g -> o_grps g !! gi = Some gr -> o_clis g !! ci = Some cl -> gi ∈ c_groups cl -> g_client gr = ci.
Proof. intros Hl Hg Hc Hi. destruct (lk_cli _ _ _ _ _ Hl _ _ Hc) as (_ & _ & Hk). destruct (Hk _ Hi) as (? & ? & ?). by simplify_eq. Qed.

Lemma parsed_group cl gi : gi ∈ c_parsed cl -> gi ∈ c_groups cl.
Proof. unfold c_groups. set_solver. Qed.
Lemma awaiting_group cl gi : gi ∈ c_awaiting cl -> gi ∈ c_groups cl.
Proof. unfold c_groups. set_solver. Qed.
Lemma ready_group cl gi : gi ∈ c_ready cl -> gi ∈ c_groups cl.
Proof. unfold c_groups. set_solver. Qed.

Lemma groups_disjoint cl gi : NoDup (c_groups cl) ->
  (gi ∈ c_parsed cl -> (gi ∉ c_awaiting cl) /\ (gi ∉ c_ready cl)) /\ (gi ∈ c_awaiting cl -> gi ∉ c_ready cl).
Proof. unfold c_groups. rewrite !NoDup_app. set_solver. Qed.

(** A client's record changes, and maybe the group that is being handed over. *)
Lemma links_client H X L cur g cur' g' ci cl cl' :
  Links H X L cur g -> o_clis g !! ci = Some cl ->
  o_cmds g' = o_cmds g -> o_grps g' = o_grps g -> o_svrs g' = o_svrs g -> o_retry g' = o_retry g ->
  o_clis g' = <[ci := cl']> (o_clis g) ->
  c_groups cl' ≡ₚ c_groups cl ->
  c_peers cl' ⊆ dom (o_svrs g) ->
  (forall s, s ∈ c_peers cl -> s ∈ c_peers cl' \/ forall gi, gi ∈ c_groups cl -> out (o_cmds g) H gi = 0) ->
  (forall gi, gi ∈ c_groups cl -> out (o_cmds g) H gi <> 0 -> gi ∈ c_awaiting cl' \/ (cur' = Some gi /\ gi ∈ c_parsed cl')) ->
  c_count cl' = (Z.of_nat (pend (o_cmds g) H (c_awaiting cl')) + cur_in cur' (c_parsed cl'))%Z ->
  (forall cj clj gi gr, cj <> ci -> o_clis g !! cj = Some clj -> gi ∈ c_groups clj ->
    o_grps g !! gi = Some gr -> (cur = Some gi <-> cur' = Some gi)) ->
  (forall gi gr n, o_grps g !! gi = Some gr -> g_client gr = ci -> g_kind gr = KMulti n ->
    (gi ∈ c_awaiting cl' -> n = Z.of_nat (out (o_cmds g) H gi)) /\
    (gi ∈ c_parsed cl' -> n = Z.of_nat (length (g_cmds gr)))) ->
  Links H X L cur' g'.
Proof.
  intros Hl Hcl E1 E2 E4 E5 E3 Hgs Hps Hps' Hheld Hcnt Hcur Hmul.
  assert (Hcl' : forall cj clj, o_clis g' !! cj = Some clj -> cj = ci /\ clj = cl' \/ cj <> ci /\ o_clis g !! cj = Some clj)
    by (intros cj clj; rewrite E3, lookup_insert_Some; naive_solver).
  assert (Hcj : forall cj clj, o_clis g !! cj = Some clj -> o_clis g' !! cj = Some (if decide (cj = ci) then cl' else clj)).
  { intros cj clj Hj. rewrite E3. case_decide; subst; [by rewrite lookup_insert_eq|by rewrite lookup_insert_ne]. }
  pose proof Hl as [Hp Hn Hh Hg Hc Hk Hs Ho Hm]. split; unfold held, chain in *; rewrite ?E1, ?E2, ?E4, ?E5 in *; try done.
  - intros c Hin. destruct (Hh c Hin) as (gi & gr & clj & (Hci & Hgi & Hclj) & Hw & Hq).
    exists gi, gr, (if decide (g_client gr = ci) then cl' else clj). split; [by auto|]. split; [done|].
    case_decide as Hd.
    + apply Hheld; [|by apply out_pos; eauto]. destruct (Hg _ _ Hgi) as (_ & _ & _ & clk & Hclk & Hin'). by simplify_eq.
    + destruct Hq as [Hq|[Hq Hq']]; [by left|]. right. split; [|done].
      eapply (Hcur (g_client gr)); eauto. unfold c_groups. set_solver.
  - intros gi gr Hgi. destruct (Hg _ _ Hgi) as (? & ? & ? & clj & Hclj & Hin).
    repeat (split; [done|]). eexists. split; [by apply Hcj|]. case_decide; [|done]. rewrite Hgs. by simplify_eq.
  - intros cj clj Hj. destruct (Hcl' _ _ Hj) as [[-> ->]|[Hne Hj']]; [|by apply Hk].
    destruct (Hk _ _ Hcl) as (Hnd & _ & Hall). split; [by rewrite Hgs|]. split; [done|].
    intros gi. rewrite Hgs. apply Hall.
  - intros s refs c gi gr clj Hsv Hin HcH (Hci & Hgi & Hj). destruct (Hcl' _ _ Hj) as [[Hcj' ->]|[Hne Hj']]; [|by eapply Hs].
    rewrite Hcj' in *. destruct (Hps' s) as [Hin'|Hno]; [by eapply Hs; eauto; rewrite Hcj'|done|]. exfalso.
    destruct (Hg _ _ Hgi) as (_ & _ & _ & clk & Hclk & Hin'). simplify_eq. specialize (Hno gi Hin').
    eapply out_0 in Hno; eauto.
  - intros cj clj Hj. destruct (Hcl' _ _ Hj) as [[-> ->]|[Hne Hj']]; [done|]. rewrite (Ho _ _ Hj'). f_equal.
    assert (Heq : forall gi, gi ∈ c_parsed clj -> (cur = Some gi <-> cur' = Some gi)).
    { intros gi Hgi. destruct (Hk _ _ Hj') as (_ & _ & Hall). destruct (Hall gi) as (gr & Hgr & _); [unfold c_groups; set_solver|].
      eapply (Hcur cj); eauto. unfold c_groups. set_solver. }
    unfold cur_in. destruct cur as [gi|], cur' as [gi'|]; repeat case_bool_decide; try done; naive_solver.
  - intros gi gr clj n Hgi Hkind Hj. destruct (Hcl' _ _ Hj) as [[Hcj' ->]|[Hne Hj']]; [by apply Hmul|by eapply Hm].
Qed.

Lemma pending_group H X L cur g ci cl gi :
  Links H X L cur g -> o_clis g !! ci = Some cl -> gi ∈ c_groups cl -> out (o_cmds g) H gi <> 0 ->
  gi ∈ c_awaiting cl \/ (cur = Some gi /\ gi ∈ c_parsed cl).
Proof.
  intros Hl Hcl Hgi Ho. apply out_pos in Ho as (c & HcH & Hc).
  destruct (lk_held _ _ _ _ _ Hl c HcH) as (gi' & gr & clj & (Hc' & Hg & Hclj) & _ & Hq). simplify_eq.
  rewrite (group_once _ _ _ _ _ _ _ _ _ Hl Hg Hcl Hgi) in Hclj. by simplify_eq.
Qed.

(** [s] becomes a peer of a client. *)
Lemma links_add_peer H X L cur g g' ci cl s :
  Links H X L cur g -> o_clis g !! ci = Some cl -> is_Some (o_svrs g !! s) ->
  o_cmds g' = o_cmds g -> o_grps g' = o_grps g -> o_svrs g' = o_svrs g -> o_retry g' = o_retry g ->
  o_clis g' = <[ci := cl <| c_peers ::= union {[s]} |>]> (o_clis g) ->
  Links H X L cur g'.
Proof.
  intros Hl Hcl Hs E1 E2 E4 E5 E3. pose proof (lk_cli _ _ _ _ _ Hl _ _ Hcl) as (_ & Hps & _).
  apply elem_of_dom in Hs.
  eapply (links_client _ _ _ cur _ cur _ ci cl); try done.
  - cbn. set_solver.
  - cbn. set_solver.
  - intros gi. by apply (pending_group _ _ _ _ _ _ _ _ Hl Hcl).
  - exact (lk_count _ _ _ _ _ Hl _ _ Hcl).
  - intros gi gr n Hg <- Hk. exact (lk_multi _ _ _ _ _ Hl _ _ _ _ Hg Hk Hcl).
Qed.

(** A server whose client knows it takes a command. *)
Lemma links_give H X L cur g g' s refs refs' c gi gr cl :
  Links H X (c :: L) cur g -> chain g c gi gr cl -> o_svrs g !! s = Some refs -> s ∈ c_peers cl ->
  same_objects g g' -> o_retry g' = o_retry g -> refs' ≡ₚ c :: refs ->
  o_svrs g' = <[s := refs']> (o_svrs g) -> Links H X L cur g'.
Proof.
  intros Hl Hch Hs Hpeer (E1 & E2 & E3) E5 Hr E4. pose proof Hl as [Hp Hn Hh Hg Hc Hk Hsp Ho Hm].
  split; unfold held, chain in *; rewrite ?E1, ?E2, ?E3, ?E5 in *; try done.
  - rewrite E4, svr_held_insert, Hr. rewrite <- Hp, (svr_held_lookup _ _ _ Hs). solve_Permutation.
  - intros ci clj Hj. destruct (Hk _ _ Hj) as (? & ? & ?). split; [done|]. split; [|done].
    rewrite E4, dom_insert_L. set_solver.
  - intros s' refs0 c' gi' gr' cl'. rewrite E4, lookup_insert_Some. intros [[<- <-]|[Hne Hs']] Hin HcH Hch'; [|by eapply Hsp].
    rewrite Hr in Hin. apply elem_of_cons in Hin as [->|Hin]; [|by eapply Hsp].
    destruct Hch as (? & ? & ?), Hch' as (? & ? & ?). by simplify_eq.
Qed.

(** A command of the group that is being handed over gets no response before it is
    held somewhere. *)
Lemma links_activate H L gi gr cl c g :
  Links H [] L (Some gi) g -> o_grps g !! gi = Some gr -> o_clis g !! g_client gr = Some cl -> gi ∈ c_parsed cl ->
  waits gr -> c ∈ g_cmds gr -> c ∉ H -> Links (c :: H) [] (c :: L) (Some gi) g.
Proof.
  intros Hl Hgr Hcl Hgi Hw Hc HcH. pose proof Hl as [Hp Hn Hh Hg Hcm Hk Hsp Ho Hm].
  destruct (Hg _ _ Hgr) as (_ & _ & Hown & _). specialize (Hown c Hc).
  assert (Hother : forall gj, gj <> gi -> out (o_cmds g) (c :: H) gj = out (o_cmds g) H gj)
    by (intros gj Hne; rewrite (out_drop _ _ _ gi), decide_False by done; done).
  assert (Haw : forall ci clj gj, o_clis g !! ci = Some clj -> gj ∈ c_awaiting clj -> gj <> gi).
  { intros ci clj gj Hj Hin ->. pose proof (group_once _ _ _ _ _ _ _ _ _ Hl Hgr Hj ltac:(unfold c_groups; set_solver)).
    subst ci. simplify_eq. destruct (Hk _ _ Hcl) as (Hnd & _). destruct (groups_disjoint _ gi Hnd) as [Hd _]. by destruct (Hd Hgi). }
  split; try done.
  - rewrite <- Permutation_middle, Hp. done.
  - by constructor.
  - intros c'. rewrite elem_of_cons. intros [->|Hin]; [|by apply Hh].
    exists gi, gr, cl. split; [done|]. split; [done|]. by right.
  - intros s refs c' gi' gr' cl' Hs Hin HcH' Hch. apply elem_of_cons in HcH' as [->|HcH']; [|by eapply Hsp].
    exfalso. apply HcH. eapply held_subset; [done|done|]. unfold held. rewrite elem_of_app, elem_of_svr_held. eauto.
  - intros ci clj Hj. rewrite (Ho _ _ Hj). do 2 f_equal. apply pend_ext. intros gj Hin. by rewrite Hother by by eapply Haw.
  - intros gj grj clj n Hgj Hkj Hj. destruct (Hm _ _ _ _ Hgj Hkj Hj) as [Hm1 Hm2]. split; [|done].
    intros Hin. rewrite Hother by by eapply Haw. auto.
Qed.

(** The counts after a response: of a group, and of its client when the group has them all. *)
Definition answered (gr : Grp) (cl : Cli) (kind' : gkind) (count' : Z) : Prop :=
  match g_kind gr with
  | KSingle => kind' = KSingle /\ count' = (c_count cl - 1)%Z
  | KMulti n => kind' = KMulti (n - 1) /\ count' = (if n - 1 =? 0 then c_count cl - 1 else c_count cl)%Z
  | _ => False
  end.

Lemma out_of_group H X L cur g gi gr :
  Links H X L cur g -> o_grps g !! gi = Some gr ->
  filter (fun c => o_cmds g !! c = Some gi) H ≡ₚ filter (fun c => c ∈ H) (g_cmds gr).
Proof.
  intros Hl Hgr. destruct (lk_grp _ _ _ _ _ Hl _ _ Hgr) as (Hnd & _ & Hown & _).
  apply NoDup_Permutation; [apply NoDup_filter, (lk_nodup _ _ _ _ _ Hl)|by apply NoDup_filter|].
  intros c. rewrite !list_elem_of_filter. split; [|naive_solver].
  intros [Hc HcH]. split; [done|]. destruct (lk_cmd _ _ _ _ _ Hl _ _ Hc) as (gr' & Hgr' & Hin). by simplify_eq.
Qed.

Lemma single_answered c H X L g gi gr :
  Links (c :: H) X L None g -> o_cmds g !! c = Some gi -> o_grps g !! gi = Some gr -> g_kind gr = KSingle ->
  out (o_cmds g) H gi = 0.
Proof.
  intros Hl Hc Hgr Hk. destruct (lk_grp _ _ _ _ _ Hl _ _ Hgr) as (_ & Hsh & _ & _).
  destruct (lk_cmd _ _ _ _ _ Hl _ _ Hc) as (gr' & Hgr' & Hin). simplify_eq.
  unfold shape in Hsh. rewrite Hk in Hsh. destruct (g_cmds gr) as [|c0 [|]] eqn:Eg; [done| |done].
  apply list_elem_of_singleton in Hin as <-. apply out_0. intros c' HcH' Hc'.
  destruct (lk_cmd _ _ _ _ _ Hl _ _ Hc') as (gr' & Hgr'' & Hin'). simplify_eq.
  pose proof (lk_nodup _ _ _ _ _ Hl) as Hnd. apply NoDup_cons in Hnd as [Hnd _].
  rewrite Eg in Hin'. by apply list_elem_of_singleton in Hin' as ->.
Qed.

(** The same links, with other counts. *)
Definition same_grp (gr gr' : Grp) : Prop :=
  g_client gr' = g_client gr /\ g_cmds gr' = g_cmds gr /\ (waits gr' <-> waits gr) /\ (shape gr' <-> shape gr).
Definition same_cli (cl cl' : Cli) : Prop :=
  c_peers cl' = c_peers cl /\ c_parsed cl' = c_parsed cl /\ c_awaiting cl' = c_awaiting cl /\ c_ready cl' = c_ready cl.

Record recount (g g' : Graph) : Prop := {
  rc_cmds : o_cmds g' = o_cmds g;
  rc_svrs : o_svrs g' = o_svrs g;
  rc_retry : o_retry g' = o_retry g;
  rc_grps : forall gi, option_Forall2 same_grp (o_grps g !! gi) (o_grps g' !! gi);
  rc_clis : forall ci, option_Forall2 same_cli (o_clis g !! ci) (o_clis g' !! ci)
}.

Lemma same_groups cl cl' : same_cli cl cl' -> c_groups cl' = c_groups cl.
Proof. intros (_ & E1 & E2 & E3). unfold c_groups. by rewrite E1, E2, E3. Qed.

Lemma option_Forall2_r {A B} (P : A -> B -> Prop) x b : option_Forall2 P x (Some b) -> exists a, x = Some a /\ P a b.
Proof. inversion 1; eauto. Qed.
Lemma option_Forall2_l {A B} (P : A -> B -> Prop) y a : option_Forall2 P (Some a) y -> exists b, y = Some b /\ P a b.
Proof. inversion 1; eauto. Qed.

Lemma recount_back g g' gi gr' : recount g g' -> o_grps g' !! gi = Some gr' ->
  exists gr, o_grps g !! gi = Some gr /\ same_grp gr gr'.
Proof. intros Hr Hg. apply option_Forall2_r. rewrite <- Hg. apply Hr. Qed.
Lemma recount_back_cli g g' ci cl' : recount g g' -> o_clis g' !! ci = Some cl' ->
  exists cl, o_clis g !! ci = Some cl /\ same_cli cl cl'.
Proof. intros Hr Hc. apply option_Forall2_r. rewrite <- Hc. apply Hr. Qed.
Lemma recount_grp g g' gi gr : recount g g' -> o_grps g !! gi = Some gr ->
  exists gr', o_grps g' !! gi = Some gr' /\ same_grp gr gr'.
Proof. intros Hr Hg. apply option_Forall2_l. rewrite <- Hg. apply Hr. Qed.
Lemma recount_cli g g' ci cl : recount g g' -> o_clis g !! ci = Some cl ->
  exists cl', o_clis g' !! ci = Some cl' /\ same_cli cl cl'.
Proof. intros Hr Hc. apply option_Forall2_l. rewrite <- Hc. apply Hr. Qed.

Lemma links_recount H H' X L L' cur g g' :
  Links H X L cur g -> recount g g' -> NoDup H' -> H' ⊆ H -> held g ++ L' ≡ₚ H' ++ X ->
  (forall ci cl', o_clis g' !! ci = Some cl' ->
    c_count cl' = (Z.of_nat (pend (o_cmds g) H' (c_awaiting cl')) + cur_in cur (c_parsed cl'))%Z) ->
  (forall gi gr' cl' n, o_grps g' !! gi = Some gr' -> g_kind gr' = KMulti n -> o_clis g' !! g_client gr' = Some cl' ->
    (gi ∈ c_awaiting cl' -> n = Z.of_nat (out (o_cmds g) H' gi)) /\
    (gi ∈ c_parsed cl' -> n = Z.of_nat (length (g_cmds gr')))) ->
  Links H' X L' cur g'.
Proof.
  intros Hl Hr Hnd Hsub Hheld Hcnt Hmul. pose proof Hl as [Hp Hn Hh Hg Hcm Hk Hsp Ho Hm].
  pose proof Hr as [E1 E4 E5 _ _]. split; unfold held, chain in *; rewrite ?E1, ?E4, ?E5; try done.
  - intros c HcH. destruct (Hh c (Hsub c HcH)) as (gi & gr & cl & (Hc & Hgr & Hcl) & Hw & Hq).
    destruct (recount_grp _ _ _ _ Hr Hgr) as (gr' & Hgr' & Ec & _ & Ew & _).
    destruct (recount_cli _ _ _ _ Hr Hcl) as (cl' & Hcl' & _ & Ep & Ea & _).
    exists gi, gr', cl'. rewrite Ec, Ea, Ep. naive_solver.
  - intros gi gr' Hgr'. destruct (recount_back _ _ _ _ Hr Hgr') as (gr & Hgr & Ec & Em & _ & Es).
    destruct (Hg _ _ Hgr) as (? & ? & ? & cl & Hcl & Hin). rewrite Em, Ec, Es.
    destruct (recount_cli _ _ _ _ Hr Hcl) as (cl' & Hcl' & Esame). repeat (split; [done|]).
    exists cl'. by rewrite (same_groups _ _ Esame).
  - intros c gi Hc. destruct (Hcm _ _ Hc) as (gr & Hgr & Hin).
    destruct (recount_grp _ _ _ _ Hr Hgr) as (gr' & Hgr' & _ & Em & _). exists gr'. by rewrite Em.
  - intros ci cl' Hcl'. destruct (recount_back_cli _ _ _ _ Hr Hcl') as (cl & Hcl & Esame).
    destruct (Hk _ _ Hcl) as (? & ? & Hall). rewrite (same_groups _ _ Esame). destruct Esame as (Epe & _).
    rewrite Epe. repeat (split; [done|]). intros gi Hgi. destruct (Hall gi Hgi) as (gr & Hgr & <-).
    destruct (recount_grp _ _ _ _ Hr Hgr) as (gr' & Hgr' & Ec & _). eauto.
  - intros s refs c gi gr' cl' Hs Hin HcH (Hc & Hgr' & Hcl').
    destruct (recount_back _ _ _ _ Hr Hgr') as (gr & Hgr & Ec & _).
    destruct (recount_back_cli _ _ _ _ Hr Hcl') as (cl & Hcl & Epe & _). rewrite Epe, Ec in *.
    by eapply Hsp; eauto.
Qed.

(** The groups of several commands and their clients, before the answer. *)
Lemma answered_back c g g' gi gr cl kind' count' gj grj' cl' n :
  chain g c gi gr cl -> answered gr cl kind' count' ->
  o_grps g' = <[gi := gr <| g_kind := kind' |>]> (o_grps g) ->
  o_clis g' = <[g_client gr := cl <| c_count := count' |>]> (o_clis g) ->
  o_grps g' !! gj = Some grj' -> g_kind grj' = KMulti n -> o_clis g' !! g_client grj' = Some cl' ->
  exists grj clj n', o_grps g !! gj = Some grj /\ g_client grj' = g_client grj /\ g_cmds grj' = g_cmds grj /\
    o_clis g !! g_client grj = Some clj /\ same_cli clj cl' /\ g_kind grj = KMulti n' /\ n = (n' - if decide (gj = gi) then 1 else 0)%Z.
Proof.
  intros (_ & Hgr & Hcl) Hans E2 E3 Hgj Hkj Hcl'. rewrite E2 in Hgj. rewrite E3 in Hcl'. apply lookup_insert_Some in Hgj as [[<- <-]|[Hne Hgj]].
  - cbn in *. rewrite lookup_insert_eq in Hcl'. simplify_eq. rewrite decide_True by done.
    unfold answered in Hans. destruct (g_kind gr) as [| |n'|] eqn:Ek; try done; destruct Hans as [[=] _].
    exists gr, cl, n'. subst n. done.
  - rewrite decide_False by done. apply lookup_insert_Some in Hcl' as [[Hc' <-]|[Hne' Hcl']].
    + exists grj', cl, n. rewrite <- Hc', Z.sub_0_r. done.
    + exists grj', cl', n. by rewrite Z.sub_0_r.
Qed.

Lemma links_answer c H X L g g' gi gr cl kind' count' :
  Links (c :: H) X (c :: L) None g -> chain g c gi gr cl -> answered gr cl kind' count' ->
  o_cmds g' = o_cmds g -> o_svrs g' = o_svrs g -> o_retry g' = o_retry g ->
  o_grps g' = <[gi := gr <| g_kind := kind' |>]> (o_grps g) ->
  o_clis g' = <[g_client gr := cl <| c_count := count' |>]> (o_clis g) ->
  Links H X L None g'.
Proof.
  intros Hl (Hc & Hgr & Hcl) Hans E1 E4 E5 E2 E3. pose proof Hl as [Hp Hn Hh _ _ Hk _ Ho Hm].
  assert (Haw : gi ∈ c_awaiting cl).
  { destruct (Hh c) as (gi' & gr' & cl' & (? & ? & ?) & _ & [Hq|[[=] _]]); [by left|]. by simplify_eq. }
  apply NoDup_cons in Hn as [HcH Hn].
  apply (links_recount (c :: H) H X (c :: L) L None g); try done.
  - split; try done; intros i; rewrite ?E2, ?E3.
    + destruct (decide (gi = i)) as [<-|]; [rewrite lookup_insert_eq, Hgr|rewrite lookup_insert_ne by done].
      * constructor. unfold answered, same_grp, waits, shape in *. cbn. case_match; try done; by destruct Hans as [-> _].
      * destruct (o_grps g !! i); by repeat constructor.
    + destruct (decide (g_client gr = i)) as [<-|]; [rewrite lookup_insert_eq, Hcl|rewrite lookup_insert_ne by done];
        [|destruct (o_clis g !! i)]; by repeat constructor.
  - set_solver.
  - rewrite <- Permutation_middle in Hp. by apply Permutation_cons_inv in Hp.
  - intros ci cl'. rewrite E3, lookup_insert_Some. intros [[<- <-]|[Hne Hcl']].
    + cbn. rewrite Z.add_0_r. pose proof (Ho _ _ Hcl) as Hcnt. destruct (Hk _ _ Hcl) as (Hnd & _).
      rewrite (pend_drop _ _ _ gi) in Hcnt; [|done|unfold c_groups in Hnd; rewrite !NoDup_app in Hnd; naive_solver].
      unfold answered in Hans. destruct (g_kind gr) as [| |n|] eqn:Ek; try done; destruct Hans as [-> ->].
      * rewrite decide_True in Hcnt by (split; [done|by eapply single_answered]). cbn in Hcnt. lia.
      * destruct (Hm _ _ _ _ Hgr Ek Hcl) as [Hn' _]. rewrite (out_drop _ _ _ gi), decide_True in Hn' by done.
        specialize (Hn' Haw). cbn in Hcnt.
        destruct (Z.eqb_spec (n - 1) 0);
          [rewrite decide_True in Hcnt by (split; [done|lia])|rewrite decide_False in Hcnt by lia]; lia.
    + pose proof (Ho _ _ Hcl') as Hcnt. rewrite Hcnt. do 2 f_equal. apply pend_ext. intros gj Hgj.
      rewrite (out_drop _ _ _ gi) by done. rewrite decide_False, Nat.add_0_l; [done|]. intros ->. apply Hne.
      exact (group_once _ _ _ _ _ _ _ _ _ Hl Hgr Hcl' (awaiting_group _ _ Hgj)).
  - intros gj grj' cl' n Hgj Hkj Hcl'.
    destruct (answered_back c _ _ _ _ _ _ _ gj grj' cl' n (conj Hc (conj Hgr Hcl)) Hans E2 E3 Hgj Hkj Hcl')
      as (grj & clj & n' & Hgj' & Ec & Em & Hclj & (_ & Ep & Ea & _) & Hkj' & ->).
    rewrite Ep, Ea, Em. destruct (Hm _ _ _ _ Hgj' Hkj' Hclj) as [H1 H2]. split; intros Hin.
    + rewrite (H1 Hin), (out_drop _ _ _ gi) by done. case_decide; lia.
    + rewrite decide_False, (H2 Hin); [lia|]. intros ->. simplify_eq. destruct (Hk _ _ Hcl) as (Hnd & _).
      destruct (groups_disjoint _ gi Hnd) as [Hd _]. by destruct (Hd Hin).
Qed.

(** All the responses are there: the groups that waited are ready. *)
Lemma links_ready H X L g g' ci cl :
  Links H X L None g -> o_clis g !! ci = Some cl -> c_count cl = 0%Z ->
  o_cmds g' = o_cmds g -> o_grps g' = o_grps g -> o_svrs g' = o_svrs g -> o_retry g' = o_retry g ->
  o_clis g' = <[ci := cl <| c_awaiting := [] |> <| c_ready := c_ready cl ++ c_awaiting cl |>]> (o_clis g) ->
  Links H X L None g'.
Proof.
  intros Hl Hcl H0 E1 E2 E4 E5 E3. pose proof (lk_cli _ _ _ _ _ Hl _ _ Hcl) as (_ & Hps & _).
  pose proof (lk_count _ _ _ _ _ Hl _ _ Hcl) as Hcnt. rewrite H0 in Hcnt. cbn in Hcnt.
  eapply (links_client _ _ _ None _ None _ ci cl); try done; cbn.
  - unfold c_groups. cbn. solve_Permutation.
  - auto.
  - intros gi Hgi Ho. destruct (pending_group _ _ _ _ _ _ _ _ Hl Hcl Hgi Ho) as [Hin|[[=] _]].
    destruct Ho. eapply pend_0; [|exact Hin]. lia.
  - intros gi gr n Hg <- Hk. split; [by intros []%elem_of_nil|].
    exact (proj2 (lk_multi _ _ _ _ _ Hl _ _ _ _ Hg Hk Hcl)).
Qed.

(** A group whose commands will be handed to the servers. *)
Lemma links_begin H X L g g' ci cl gi gr :
  Links H X L None g -> o_clis g !! ci = Some cl -> o_grps g !! gi = Some gr -> gi ∈ c_parsed cl ->
  o_cmds g' = o_cmds g -> o_grps g' = o_grps g -> o_svrs g' = o_svrs g -> o_retry g' = o_retry g ->
  o_clis g' = <[ci := cl <| c_count ::= Z.succ |>]> (o_clis g) ->
  Links H X L (Some gi) g'.
Proof.
  intros Hl Hcl Hgr Hgi E1 E2 E4 E5 E3. pose proof (lk_cli _ _ _ _ _ Hl _ _ Hcl) as (_ & Hps & _).
  eapply (links_client _ _ _ None _ _ _ ci cl); try done; cbn.
  - auto.
  - intros gj Hgj Ho. destruct (pending_group _ _ _ _ _ _ _ _ Hl Hcl Hgj Ho) as [Hin|[[=] _]]. by left.
  - rewrite (lk_count _ _ _ _ _ Hl _ _ Hcl). unfold cur_in. rewrite bool_decide_true by done. lia.
  - intros cj clj gj grj Hne Hj Hin Hgj. split; [done|]. intros [= ->]. destruct Hne.
    rewrite <- (group_once _ _ _ _ _ _ _ _ _ Hl Hgj Hj Hin).
    exact (group_once _ _ _ _ _ _ _ _ _ Hl Hgj Hcl (parsed_group _ _ Hgi)).
  - intros gj grj n Hg <- Hk. exact (lk_multi _ _ _ _ _ Hl _ _ _ _ Hg Hk Hcl).
Qed.

Lemma waits_dec gr : Decision (waits gr).
Proof. unfold waits. destruct (g_kind gr); apply _. Defined.
#[local] Existing Instance waits_dec.

Lemma out_handed H X L cur g gi gr :
  Links H X L cur g -> o_grps g !! gi = Some gr -> (forall c, c ∈ g_cmds gr -> c ∈ H) ->
  out (o_cmds g) H gi = length (g_cmds gr).
Proof.
  intros Hl Hgr Hin. unfold out. rewrite (out_of_group _ _ _ _ _ _ _ Hl Hgr).
  by rewrite filter_all.
Qed.

Lemma out_direct H X L cur g gi gr :
  Links H X L cur g -> o_grps g !! gi = Some gr -> ~ waits gr -> out (o_cmds g) H gi = 0.
Proof.
  intros Hl Hgr Hw. apply out_0. intros c HcH Hc.
  destruct (lk_held _ _ _ _ _ Hl c HcH) as (gi' & gr' & cl & (? & ? & ?) & ? & _). by simplify_eq.
Qed.

(** A group of commands that are all handed over, or that has none, waits. *)
Lemma links_end H X L cur g g' ci cl gi gr parsed' :
  Links H X L cur g -> o_clis g !! ci = Some cl -> o_grps g !! gi = Some gr -> c_parsed cl ≡ₚ gi :: parsed' ->
  cur = (if decide (waits gr) then Some gi else None) -> (waits gr -> forall c, c ∈ g_cmds gr -> c ∈ H) ->
  o_cmds g' = o_cmds g -> o_grps g' = o_grps g -> o_svrs g' = o_svrs g -> o_retry g' = o_retry g ->
  o_clis g' = <[ci := cl <| c_awaiting := c_awaiting cl ++ [gi] |> <| c_parsed := parsed' |>]> (o_clis g) ->
  Links H X L None g'.
Proof.
  intros Hl Hcl Hgr Hpar Hcur Hall E1 E2 E4 E5 E3. pose proof (lk_cli _ _ _ _ _ Hl _ _ Hcl) as (_ & Hps & _).
  assert (Hgi : gi ∈ c_parsed cl) by (rewrite Hpar; left).
  pose proof (group_once _ _ _ _ _ _ _ _ _ Hl Hgr Hcl (parsed_group _ _ Hgi)) as Hci.
  eapply (links_client _ _ _ cur _ None _ ci cl); try done; cbn.
  - unfold c_groups. cbn. rewrite Hpar. solve_Permutation.
  - auto.
  - intros gj Hgj Ho. left. apply elem_of_app.
    destruct (pending_group _ _ _ _ _ _ _ _ Hl Hcl Hgj Ho) as [Hin|[Heq _]]; [by left|right].
    rewrite Hcur in Heq. case_decide; simplify_eq. by left.
  - rewrite (lk_count _ _ _ _ _ Hl _ _ Hcl), Hcur, <- Permutation_cons_append, pend_cons, Z.add_0_r.
    case_decide as Hw; cbn.
    + rewrite bool_decide_true, decide_False; [lia| |done]. rewrite (out_handed _ _ _ _ _ _ _ Hl Hgr) by auto.
      destruct (lk_grp _ _ _ _ _ Hl _ _ Hgr) as (_ & Hsh & _). unfold shape, waits in *.
      destruct (g_kind gr), (g_cmds gr); done.
    + rewrite decide_True by exact (out_direct _ _ _ _ _ _ _ Hl Hgr Hw). lia.
  - intros cj clj gj grj Hne Hj Hin Hgj. split; [|done]. rewrite Hcur. case_decide; [|done]. intros [= ->]. simplify_eq.
    destruct Hne. symmetry. exact (group_once _ _ _ _ _ _ _ _ _ Hl Hgr Hj Hin).
  - intros gj grj n Hg Hcj Hk. rewrite <- Hcj in Hcl. destruct (lk_multi _ _ _ _ _ Hl _ _ _ _ Hg Hk Hcl) as [H1 H2].
    split; [|intros Hin; apply H2; rewrite Hpar; by right].
    rewrite elem_of_app. intros [Hin|Hin%list_elem_of_singleton]; [by apply H1|]. subst gj. simplify_eq.
    rewrite (H2 Hgi). f_equal. symmetry. apply (out_handed _ _ _ _ _ _ _ Hl Hgr), Hall. unfold waits. by rewrite Hk.
Qed.

(** Nothing is awaited any more. *)
Lemma links_clear_peers H X L g g' ci cl :
  Links H X L None g -> o_clis g !! ci = Some cl -> c_awaiting cl = [] ->
  o_cmds g' = o_cmds g -> o_grps g' = o_grps g -> o_svrs g' = o_svrs g -> o_retry g' = o_retry g ->
  o_clis g' = <[ci := cl <| c_peers := ∅ |>]> (o_clis g) ->
  Links H X L None g'.
Proof.
  intros Hl Hcl Hnil E1 E2 E4 E5 E3.
  assert (Hno : forall gi, gi ∈ c_groups cl -> out (o_cmds g) H gi = 0).
  { intros gi Hgi. destruct (decide (out (o_cmds g) H gi = 0)) as [|Ho]; [done|].
    destruct (pending_group _ _ _ _ _ _ _ _ Hl Hcl Hgi Ho) as [Hin|[[=] _]]. rewrite Hnil in Hin. by apply elem_of_nil in Hin. }
  eapply (links_client _ _ _ None _ _ _ ci cl); try done; cbn.
  - set_solver.
  - intros gi Hgi Ho. by destruct Ho; apply Hno.
  - exact (lk_count _ _ _ _ _ Hl _ _ Hcl).
  - intros gj grj n Hg <- Hk. exact (lk_multi _ _ _ _ _ Hl _ _ _ _ Hg Hk Hcl).
Qed.

(** ** Groups and clients that go *)

(** The groups [gone] are deleted, with their commands. *)
Definition kept_cmd (g : Graph) (gone : list nat) (c : nat) : Prop := default 0 (o_cmds g !! c) ∉ gone.
#[export] Instance kept_cmd_dec g gone c : Decision (kept_cmd g gone c).
Proof. unfold kept_cmd. apply _. Defined.

Record purged (gone : list nat) (g g' : Graph) : Prop := {
  pg_grps : forall gi, o_grps g' !! gi = if decide (gi ∈ gone) then None else o_grps g !! gi;
  pg_cmds : forall c gi, o_cmds g' !! c = Some gi <-> o_cmds g !! c = Some gi /\ gi ∉ gone
}.

Lemma out_purged gone g g' H gi :
  purged gone g g' -> gi ∉ gone -> out (o_cmds g') (filter (kept_cmd g gone) H) gi = out (o_cmds g) H gi.
Proof.
  intros Hp Hgi. unfold out. f_equal. rewrite list_filter_filter. apply filter_ext_in.
  intros c _. rewrite (pg_cmds _ _ _ Hp). unfold kept_cmd. split; [naive_solver|]. by intros ->.
Qed.

(** The client of the groups that go: it goes with all of them, or keeps those that are
    not ready. *)
Definition cli_purged (gone : list nat) (ci : nat) (cl : Cli) (g g' : Graph) : Prop :=
  (forall cj, cj <> ci -> o_clis g' !! cj = o_clis g !! cj) /\
  ((o_clis g' !! ci = None /\ gone = c_groups cl) \/
   (o_clis g' !! ci = Some (cl <| c_ready := [] |>) /\ gone = c_ready cl)).

Lemma cli_purged_kept gone ci cl g g' cj clj gi :
  cli_purged gone ci cl g g' -> o_clis g !! ci = Some cl -> o_clis g !! cj = Some clj ->
  gi ∈ c_groups clj -> gi ∉ gone ->
  exists clj', o_clis g' !! cj = Some clj' /\ gi ∈ c_groups clj' /\ c_awaiting clj' = c_awaiting clj /\
    c_parsed clj' = c_parsed clj /\ c_peers clj' = c_peers clj.
Proof.
  intros [Hne Hci] Hcl Hj Hin Hgone. destruct (decide (cj = ci)) as [->|Hn]; [|by rewrite Hne; eauto 6].
  simplify_eq. destruct Hci as [[_ ->]|[-> ->]]; [done|]. eexists. split; [done|]. split; [|done].
  unfold c_groups in *. cbn. set_solver.
Qed.

Lemma cli_purged_back gone ci cl g g' cj clj' :
  cli_purged gone ci cl g g' -> o_clis g !! ci = Some cl -> NoDup (c_groups cl) -> o_clis g' !! cj = Some clj' ->
  exists clj, o_clis g !! cj = Some clj /\ c_groups clj' ⊆ c_groups clj /\ (NoDup (c_groups clj) -> NoDup (c_groups clj')) /\
    c_awaiting clj' = c_awaiting clj /\ c_parsed clj' = c_parsed clj /\ c_peers clj' = c_peers clj /\
    c_count clj' = c_count clj /\ (cj = ci -> forall gi, gi ∈ c_groups clj' -> gi ∉ gone).
Proof.
  intros [Hne Hci] Hcl Hnd Hj. destruct (decide (cj = ci)) as [->|Hn].
  - destruct Hci as [[Hn _]|[Hs ->]]; [by rewrite Hn in Hj|]. rewrite Hs in Hj. simplify_eq. exists cl.
    split; [done|]. unfold c_groups in *. cbn. rewrite app_nil_r. split; [set_solver|].
    split; [rewrite app_assoc, NoDup_app; naive_solver|]. repeat (split; [done|]). intros _ gi Hin.
    rewrite app_assoc, NoDup_app in Hnd. set_solver.
  - rewrite Hne in Hj by done. exists clj'. naive_solver.
Qed.

Lemma links_purge H g g' gone ci cl :
  Links H [] [] None g -> o_clis g !! ci = Some cl -> purged gone g g' -> cli_purged gone ci cl g g' ->
  held g' ≡ₚ filter (kept_cmd g gone) H -> dom (o_svrs g) ⊆ dom (o_svrs g') ->
  (forall s refs c, o_svrs g' !! s = Some refs -> c ∈ refs -> exists refs0, o_svrs g !! s = Some refs0 /\ c ∈ refs0) ->
  Links (filter (kept_cmd g gone) H) [] [] None g'.
Proof.
  intros Hl Hcl Hpg Hcp Hheld Hdom Hrefs. pose proof Hl as [Hp Hn Hh Hg Hcm Hk Hsp Ho Hm].
  destruct (Hk _ _ Hcl) as (Hnd & _ & Hown).
  assert (Hgone : gone ⊆ c_groups cl) by (destruct Hcp as [_ [[_ ->]|[_ ->]]]; [done|unfold c_groups; set_solver]).
  assert (Hg' : forall gi gr, o_grps g' !! gi = Some gr <-> o_grps g !! gi = Some gr /\ gi ∉ gone)
    by (intros gi gr; rewrite (pg_grps _ _ _ Hpg); case_decide; naive_solver).
  assert (Hother : forall cj clj gi, o_clis g' !! cj = Some clj -> gi ∈ c_groups clj -> gi ∉ gone).
  { intros cj clj' gi Hj Hin Hgi. destruct (cli_purged_back _ _ _ _ _ _ _ Hcp Hcl Hnd Hj) as (clj & Hj' & Hsub & _ & _ & _ & _ & _ & Hno).
    destruct (decide (cj = ci)) as [Heq|Hne]; [by apply (Hno Heq gi)|]. destruct (Hown gi (Hgone _ Hgi)) as (gr & Hgr & <-).
    apply Hne. symmetry. exact (group_once _ _ _ _ _ _ _ _ _ Hl Hgr Hj' (Hsub _ Hin)). }
  split.
  - by rewrite !app_nil_r.
  - by apply NoDup_filter.
  - intros c [Hc HcH]%list_elem_of_filter. destruct (Hh c HcH) as (gi & gr & clj & (Hci & Hgr & Hj) & Hw & [Hq|[[=] _]]).
    unfold kept_cmd in Hc. rewrite Hci in Hc.
    destruct (cli_purged_kept _ _ _ _ _ _ _ _ Hcp Hcl Hj (awaiting_group _ _ Hq) Hc) as (clj' & Hj' & _ & Ea & _).
    exists gi, gr, clj'. unfold chain. rewrite Hg', (pg_cmds _ _ _ Hpg), Ea. naive_solver.
  - intros gi gr [Hgr Hgi]%Hg'. destruct (Hg _ _ Hgr) as (? & ? & Hcs & clj & Hj & Hin).
    split; [done|]. split; [done|]. split; [intros c Hc; rewrite (pg_cmds _ _ _ Hpg); auto|].
    destruct (cli_purged_kept _ _ _ _ _ _ _ _ Hcp Hcl Hj Hin Hgi) as (clj' & Hj' & Hin' & _). eauto.
  - intros c gi [Hc Hgi]%(pg_cmds _ _ _ Hpg). destruct (Hcm _ _ Hc) as (gr & Hgr & Hin). exists gr. by rewrite Hg'.
  - intros cj clj' Hj. destruct (cli_purged_back _ _ _ _ _ _ _ Hcp Hcl Hnd Hj) as (clj & Hj' & Hsub & Hnd' & _ & _ & -> & _ & Hno).
    destruct (Hk _ _ Hj') as (? & ? & Hall). split; [auto|]. split; [set_solver|].
    intros gi Hgi. destruct (Hall gi (Hsub _ Hgi)) as (gr & Hgr & Hc). exists gr. rewrite Hg'. eauto.
  - intros s refs c gi gr clj' Hs Hin [_ HcH]%list_elem_of_filter (Hc & [Hgr Hgi]%Hg' & Hj).
    destruct (cli_purged_back _ _ _ _ _ _ _ Hcp Hcl Hnd Hj) as (clj & Hj' & _ & _ & _ & _ & -> & _).
    apply (pg_cmds _ _ _ Hpg) in Hc as [Hc _]. destruct (Hrefs _ _ _ Hs Hin) as (refs0 & Hs' & Hin').
    exact (Hsp _ _ _ _ _ _ Hs' Hin' HcH (conj Hc (conj Hgr Hj'))).
  - intros cj clj' Hj. destruct (cli_purged_back _ _ _ _ _ _ _ Hcp Hcl Hnd Hj) as (clj & Hj' & _ & _ & Ea & Ep & _ & -> & _).
    rewrite (Ho _ _ Hj'), Ep, <- Ea. do 2 f_equal. apply pend_ext. intros gi Hgi.
    rewrite (out_purged _ _ _ _ _ Hpg); [done|]. eapply Hother; [exact Hj|by apply awaiting_group].
  - intros gi gr clj' n [Hgr Hgi]%Hg' Hkind Hj. destruct (cli_purged_back _ _ _ _ _ _ _ Hcp Hcl Hnd Hj) as (clj & Hj' & _ & _ & -> & -> & _).
    rewrite (out_purged _ _ _ _ _ Hpg) by done. by eapply Hm.
Qed.

(** ** New groups and clients *)

(** The clients after a group has joined the queue of one of them. *)
Lemma parsed_back g g' ci cl gi cj clj' :
  o_clis g !! ci = Some cl -> o_clis g' = <[ci := cl <| c_parsed ::= (fun l => l ++ [gi]) |>]> (o_clis g) ->
  o_clis g' !! cj = Some clj' -> exists clj, o_clis g !! cj = Some clj /\
    c_awaiting clj' = c_awaiting clj /\ c_peers clj' = c_peers clj /\ c_count clj' = c_count clj /\
    c_parsed clj' = c_parsed clj ++ (if decide (cj = ci) then [gi] else []) /\
    c_groups clj' ≡ₚ c_groups clj ++ (if decide (cj = ci) then [gi] else []).
Proof.
  intros Hcl ->. rewrite lookup_insert_Some. intros [[<- <-]|[Hne Hj]].
  - exists cl. rewrite decide_True by done. repeat (split; [done|]). unfold c_groups. cbn. solve_Permutation.
  - exists clj'. rewrite decide_False, !app_nil_r by done. done.
Qed.

Lemma links_add_group H X L g g' ci cl gi gr :
  Links H X L None g -> o_clis g !! ci = Some cl -> o_grps g !! gi = None ->
  (forall c, c ∈ g_cmds gr -> o_cmds g !! c = None) -> NoDup (g_cmds gr) -> shape gr -> g_client gr = ci ->
  (forall n, g_kind gr = KMulti n -> n = Z.of_nat (length (g_cmds gr))) ->
  (forall c gj, o_cmds g' !! c = Some gj <-> c ∈ g_cmds gr /\ gj = gi \/ o_cmds g !! c = Some gj) ->
  o_grps g' = <[gi := gr]> (o_grps g) -> o_svrs g' = o_svrs g -> o_retry g' = o_retry g ->
  o_clis g' = <[ci := cl <| c_parsed ::= (fun l => l ++ [gi]) |>]> (o_clis g) ->
  Links H X L None g'.
Proof.
  intros Hl Hcl Hgi Hnew Hnd Hsh Hci Hn' E1 E2 E4 E5 E3. pose proof Hl as [Hp Hn Hh Hg Hcm Hk Hsp Ho Hm].
  assert (HH : forall c gj, c ∈ H -> (o_cmds g' !! c = Some gj <-> o_cmds g !! c = Some gj)).
  { intros c gj HcH. rewrite E1. split; [|auto]. intros [[Hc _]|]; [|done].
    destruct (Hh c HcH) as (? & ? & ? & (Hc' & _) & _). rewrite Hnew in Hc' by done. done. }
  assert (Hout : forall gj, out (o_cmds g') H gj = out (o_cmds g) H gj) by (intros gj; apply out_ext; auto).
  assert (Hfresh : forall cj clj, o_clis g !! cj = Some clj -> gi ∉ c_groups clj).
  { intros cj clj Hj Hin. destruct (Hk _ _ Hj) as (_ & _ & Hall). destruct (Hall _ Hin) as (? & ? & _). by simplify_eq. }
  assert (Hg' : forall gj grj, o_grps g !! gj = Some grj -> o_grps g' !! gj = Some grj)
    by (intros gj grj Hj; rewrite E2, lookup_insert_ne; [done|by intros ->; simplify_eq]).
  pose proof (fun cj clj' => parsed_back g g' ci cl gi cj clj' Hcl E3) as Hback.
  assert (Hfwd : forall cj clj, o_clis g !! cj = Some clj -> exists clj', o_clis g' !! cj = Some clj').
  { intros cj clj Hj. rewrite E3. destruct (decide (ci = cj)) as [<-|]; [rewrite lookup_insert_eq|rewrite lookup_insert_ne by done]; eauto. }
  split; unfold held in *; rewrite ?E4, ?E5; try done.
  - intros c HcH. destruct (Hh c HcH) as (gj & grj & clj & (Hc & Hgj & Hj) & Hw & [Hq|[[=] _]]).
    destruct (Hfwd _ _ Hj) as (clj' & Hj'). destruct (Hback _ _ Hj') as (? & ? & Ea & _). simplify_eq.
    exists gj, grj, clj'. unfold chain. rewrite HH, Ea by done. split_and!; auto.
  - intros gj grj. rewrite E2, lookup_insert_Some. intros [[<- <-]|[Hne Hgj]].
    + repeat (split; [done|]). split; [intros c Hc; rewrite E1; auto|]. rewrite Hci, E3, lookup_insert_eq.
      eexists. split; [done|]. unfold c_groups. cbn. set_solver.
    + destruct (Hg _ _ Hgj) as (? & ? & Hcs & clj & Hj & Hin). repeat (split; [done|]).
      split; [intros c Hc; rewrite E1; auto|]. destruct (Hfwd _ _ Hj) as (clj' & Hj'). exists clj'. split; [done|].
      destruct (Hback _ _ Hj') as (? & ? & _ & _ & _ & _ & ->). simplify_eq. set_solver.
  - intros c gj. rewrite E1. intros [[Hc ->]|Hc].
    + exists gr. by rewrite E2, lookup_insert_eq.
    + destruct (Hcm _ _ Hc) as (grj & Hgj & Hin). eauto.
  - intros cj clj' Hj'. destruct (Hback _ _ Hj') as (clj & Hj & _ & -> & _ & _ & Egs). destruct (Hk _ _ Hj) as (Hndj & ? & Hall).
    split; [|split; [done|]].
    + rewrite Egs. apply NoDup_app. split; [done|]. case_decide; [|split; [set_solver|constructor]].
      split; [|apply NoDup_singleton]. intros gj Hin ->%list_elem_of_singleton. by apply (Hfresh _ _ Hj).
    + intros gj. rewrite Egs, elem_of_app. intros [Hin|Hin]; [destruct (Hall _ Hin) as (grj & ? & ?); eauto|].
      case_decide; [|by apply elem_of_nil in Hin]. apply list_elem_of_singleton in Hin as ->. subst cj.
      exists gr. by rewrite E2, lookup_insert_eq.
  - intros s refs c gj grj clj' Hs Hin HcH (Hc & Hgj & Hj'). apply (HH _ _ HcH) in Hc.
    destruct (Hcm _ _ Hc) as (grj0 & Hgj0 & _). pose proof (Hg' _ _ Hgj0). simplify_eq.
    destruct (Hback _ _ Hj') as (clj & Hj & _ & -> & _). by eapply Hsp; eauto; split.
  - intros cj clj' Hj'. destruct (Hback _ _ Hj') as (clj & Hj & -> & _ & -> & _). rewrite (Ho _ _ Hj). cbn. do 2 f_equal.
    apply pend_ext. intros gj _. by rewrite Hout.
  - intros gj grj clj' n Hgj Hkind Hj'. rewrite Hout. destruct (Hback _ _ Hj') as (clj & Hj & -> & _ & _ & -> & _).
    rewrite E2 in Hgj. apply lookup_insert_Some in Hgj as [[<- <-]|[Hne Hgj]].
    + split; [|intros _; by apply Hn']. intros Hin. by destruct (Hfresh _ _ Hj (awaiting_group _ _ Hin)).
    + destruct (Hm _ _ _ _ Hgj Hkind Hj) as [H1 H2]. split; [done|]. rewrite elem_of_app. intros [Hin|Hin]; [auto|].
      case_decide; [|by apply elem_of_nil in Hin]. by apply list_elem_of_singleton in Hin.
Qed.

Lemma links_new_client H X L cur g g' ci :
  Links H X L cur g -> o_clis g !! ci = None ->
  o_cmds g' = o_cmds g -> o_grps g' = o_grps g -> o_svrs g' = o_svrs g -> o_retry g' = o_retry g ->
  o_clis g' = <[ci := mkCli ∅ [] [] [] 0]> (o_clis g) -> Links H X L cur g'.
Proof.
  intros Hl Hci E1 E2 E4 E5 E3. pose proof Hl as [Hp Hn Hh Hg Hcm Hk Hsp Ho Hm].
  assert (Hne : forall cj clj, o_clis g !! cj = Some clj -> o_clis g' !! cj = Some clj)
    by (intros cj clj Hj; rewrite E3, lookup_insert_ne; [done|by intros ->; simplify_eq]).
  assert (Hgc : forall gi gr clj, o_grps g !! gi = Some gr -> o_clis g' !! g_client gr = Some clj -> o_clis g !! g_client gr = Some clj).
  { intros gi gr clj Hgr Hj. destruct (Hg _ _ Hgr) as (_ & _ & _ & cl & Hcl & _). pose proof (Hne _ _ Hcl). by simplify_eq. }
  split; unfold held, chain in *; rewrite ?E1, ?E2, ?E4, ?E5; try done.
  - intros c HcH. destruct (Hh c HcH) as (gi & gr & cl & ? & ? & ?). exists gi, gr, cl. naive_solver.
  - intros gi gr Hgr. destruct (Hg _ _ Hgr) as (? & ? & ? & cl & ? & ?). naive_solver.
  - intros cj clj. rewrite E3, lookup_insert_Some. intros [[<- <-]|[_ Hj]]; [|by apply (Hk cj)].
    split; [constructor|]. split; [set_solver|]. by intros gi []%elem_of_nil.
  - intros s refs c gi gr clj Hs Hin HcH (? & ? & ?). eapply Hsp; eauto.
  - intros cj clj. rewrite E3, lookup_insert_Some. intros [[<- <-]|[_ Hj]]; [|by apply (Ho cj)].
    destruct cur; [|done]. cbn. rewrite bool_decide_false; [done|]. by intros []%elem_of_nil.
  - intros gi gr clj n ? ? ?. eapply Hm; eauto.
Qed.

End Changes.
