(* ===== verification/Frames.v ===== *)
(** * What the operations leave of the graph as it was

    The rules of [wp] for the primitive accesses to objects, and the operations that
    change nothing of the graph of Graph.v: system calls, descriptors, buffers. *)
From S2P Require Import Prelude Address Buffer Logic Clean World Kernel Graph.
#[local] Open Scope Z_scope.

(** ** Primitives *)

Section Primitives.
Context {A : Type}.
Implicit Types (w : World).

Lemma wp_deref {T} p (store : World -> gmap nat T) i x (Q : T -> World -> Prop) E w :
  store w !! i = Some x -> Q x w -> wp (deref_obj p store i) Q E w.
Proof. intros H HQ. unfold wp, deref_obj. by rewrite H. Qed.

Lemma wp_set {T} p (store : World -> gmap nat T) (upd : T -> World -> World) i x (Q : unit -> World -> Prop) E w :
  store w !! i = Some x -> Q tt (upd x w) -> wp (c ← deref_obj p store i; modify (upd c)) Q E w.
Proof. intros H HQ. apply wp_bind. eapply wp_deref; [done|]. exact HQ. Qed.

(** Long connections: a deleted one is not our business here. *)
Lemma wp_get_long i (Q : LongConnection -> World -> Prop) E w :
  (forall x, w_longs w !! i = Some x -> Q x w) -> wp (get_long i) Q E w.
Proof. intros HQ. unfold wp, get_long, deref_obj. destruct (w_longs w !! i); [by apply HQ|done]. Qed.

(** Computations that only change the kernel's state. *)
Definition kern_only (c : W A) : Prop := forall w, exists o k,
  c w = (o, w <| w_kern := k |>) /\ forall k0, o = UB k0 -> tolerated k0.

Lemma wp_kern (c : W A) Q E w :
  kern_only c -> (forall a k, Q a (w <| w_kern := k |>)) -> (forall k, E (w <| w_kern := k |>)) -> wp c Q E w.
Proof. intros Hc HQ HE. destruct (Hc w) as (o & k & Heq & Ht). unfold wp. rewrite Heq. destruct o; auto. Qed.

(** Computations that change nothing of the graph. *)
Definition frames (c : W A) : Prop := forall w,
  wp c (fun _ w' => view w' = view w) (fun w' => view w' = view w) w.

Lemma wp_frames (c : W A) (Q : A -> World -> Prop) (E : World -> Prop) w :
  frames c -> (forall a w', view w' = view w -> Q a w') -> (forall w', view w' = view w -> E w') -> wp c Q E w.
Proof. intros Hc HQ HE. eapply wp_mono; [apply Hc|exact HQ|exact HE]. Qed.

Lemma kern_frames (c : W A) : kern_only c -> frames c.
Proof. intros Hc w. apply wp_kern; [done|intros; reflexivity..]. Qed.
End Primitives.

Lemma kern_bind {A B} (c : W A) (f : A -> W B) : kern_only c -> (forall a, kern_only (f a)) -> kern_only (c ≫= f).
Proof.
  intros Hc Hf w. destruct (Hc w) as (o & k & Heq & Ht). unfold mbind, M_bind. rewrite Heq.
  destruct o as [a|e|k0|]; [|exists (Throw e), k|exists (UB k0), k|exists NoFuel, k];
    [|split; [done|by intros ? [= <-]; auto]..].
  destruct (Hf a (w <| w_kern := k |>)) as (o & k' & Heq' & Ht').
  rewrite Heq'. by exists o, k'.
Qed.

Lemma kern_pure {A} (c : W A) : (forall w, exists o, c w = (o, w) /\ forall k0, o = UB k0 -> tolerated k0) -> kern_only c.
Proof. intros Hc w. destruct (Hc w) as (o & Heq & Ht). exists o, (w_kern w). by rewrite Heq; destruct w. Qed.

Create HintDb kern discriminated.
Ltac kern_step :=
  repeat first
    [ apply kern_bind; [|intros ?]
    | solve [eauto 2 with kern nocore]
    | solve [apply kern_pure; intros; eexists; split; [reflexivity|by intros ? [=]]]
    | solve [intros w; eexists _, _; split; [reflexivity|by intros ? [=]]]
    | case_match ].

Lemma set_kern_kern f : kern_only (set_kern f).
Proof. intros w. by eexists _, _. Qed.
#[export] Hint Resolve set_kern_kern : kern.

Lemma next_script_kern {A} (script : Kernel -> list A) d x : kern_only (next_script script d x).
Proof. unfold next_script. kern_step. Qed.
#[export] Hint Resolve next_script_kern : kern.

Lemma with_chan_kern {A} fd (op : chan -> outcome A * chan) :
  (forall c, clean (op c).1) -> kern_only (with_chan fd op).
Proof.
  intros Hop w. unfold with_chan. destruct (k_chans (w_kern w) !! fd) as [c|].
  - specialize (Hop c). destruct (op c) as [o c']. by eexists _, _.
  - exists (op closed_chan).1, (w_kern w). split; [by destruct w|]. apply Hop.
Qed.

Lemma read_fd_kern fd b : kern_only (read_fd fd b).
Proof. apply with_chan_kern. intros c k. destruct (buffer_read b c) as [o [b' c']]. by intros [=]. Qed.

Lemma writev_fd_kern fd bs : kern_only (writev_fd fd bs).
Proof.
  unfold writev_fd. kern_step. apply with_chan_kern. intros c k. destruct (writev _ bs c) as [o [b' c']]. by intros [=].
Qed.

Lemma flush_fd_kern fd b : kern_only (flush_fd fd b).
Proof. apply with_chan_kern. apply flush_mem_clean. Qed.
Lemma write_fd_kern fd b : kern_only (write_fd fd b).
Proof. apply with_chan_kern. apply buffer_write_clean. Qed.

Lemma cio_close_kern fd : kern_only (cio_close fd).
Proof. unfold cio_close. kern_step. Qed.
Lemma cio_accept_kern : kern_only cio_accept.
Proof. unfold cio_accept. kern_step. Qed.
Lemma new_stream_socket_kern : kern_only new_stream_socket.
Proof. unfold new_stream_socket. kern_step. Qed.
Lemma set_nonblocking_kern fd : kern_only (set_nonblocking fd).
Proof. unfold set_nonblocking. kern_step. Qed.
Lemma connect_fd_kern h p fd : kern_only (connect_fd h p fd).
Proof. unfold connect_fd. kern_step. Qed.
Lemma epoll_ctl_add_kern fd c b : kern_only (epoll_ctl_add fd c b).
Proof. unfold epoll_ctl_add. kern_step. Qed.
Lemma epoll_ctl_mod_kern fd c b : kern_only (epoll_ctl_mod fd c b).
Proof. unfold epoll_ctl_mod. kern_step. Qed.
Lemma poll_add_read_kern fd c : kern_only (poll_add_read fd c).
Proof. apply epoll_ctl_add_kern. Qed.
Lemma poll_add_write_kern fd c : kern_only (poll_add_write fd c).
Proof. apply epoll_ctl_add_kern. Qed.
Lemma poll_read_kern fd c : kern_only (poll_read fd c).
Proof. apply epoll_ctl_mod_kern. Qed.
Lemma poll_write_kern fd c : kern_only (poll_write fd c).
Proof. apply epoll_ctl_mod_kern. Qed.
Lemma epoll_del_kern fd : kern_only (epoll_del fd).
Proof. unfold epoll_del. kern_step. Qed.
Lemma bind_to_kern fd p : kern_only (bind_to fd p).
Proof. unfold bind_to. kern_step. Qed.
Lemma poll_create_kern : kern_only poll_create.
Proof. unfold poll_create. kern_step. Qed.
Lemma poll_check_kern s e : kern_only (poll_check s e).
Proof. unfold poll_check. kern_step. Qed.
Lemma now_kern : kern_only now.
Proof. unfold now. kern_step. Qed.
Lemma randint_kern a b : kern_only (randint a b).
Proof. unfold randint. kern_step. Qed.
#[export] Hint Resolve read_fd_kern writev_fd_kern flush_fd_kern write_fd_kern cio_close_kern cio_accept_kern
  new_stream_socket_kern set_nonblocking_kern connect_fd_kern poll_add_read_kern poll_add_write_kern poll_read_kern poll_write_kern epoll_del_kern
  bind_to_kern poll_create_kern poll_check_kern now_kern randint_kern : kern.

(** What [read] and [writev] hand back is checked by the caller; it is no use after free. *)
Lemma wp_with_chan {A} fd (op : chan -> outcome A * chan) (Q : A -> World -> Prop) E w :
  (forall c a, (op c).1 = Ret a -> forall k, Q a (w <| w_kern := k |>)) ->
  (forall c, exists a, (op c).1 = Ret a) -> wp (with_chan fd op) Q E w.
Proof.
  intros HQ Hret. unfold wp, with_chan. destruct (k_chans (w_kern w) !! fd) as [c|].
  - destruct (Hret c) as (a & Ha). specialize (HQ c a Ha). destruct (op c) as [o c']. cbn in Ha. subst o. apply HQ.
  - destruct (Hret closed_chan) as (a & Ha). specialize (HQ closed_chan a Ha (w_kern w)). rewrite Ha. by destruct w.
Qed.

Lemma wp_read_fd fd b (Q : outcome Z * bytes -> World -> Prop) E w :
  (forall o b' k, clean o -> Q (o, b') (w <| w_kern := k |>)) -> wp (read_fd fd b) Q E w.
Proof.
  intros HQ. apply wp_with_chan; intros c; pose proof (buffer_read_clean b c) as Hc;
    destruct (buffer_read b c) as [o [b' c']]; [intros a [= <-] k; by apply HQ|by eexists].
Qed.

Lemma wp_writev_fd fd bs (Q : outcome bool * BufferSet -> World -> Prop) E w :
  (forall o bs' k, clean o -> Q (o, bs') (w <| w_kern := k |>)) -> wp (writev_fd fd bs) Q E w.
Proof.
  intros HQ. apply wp_bind, wp_gets, wp_with_chan; intros c; pose proof (writev_clean (w_bufs w) bs c) as Hc;
    destruct (writev (w_bufs w) bs c) as [o [b' c']]; [intros a [= <-] k; by apply HQ|by eexists].
Qed.

Lemma wp_lift_clean {A} (o : outcome A) (Q : A -> World -> Prop) (E : World -> Prop) w :
  clean o -> (forall a, o = Ret a -> Q a w) -> E w -> wp (lift o) Q E w.
Proof. intros Hc HQ HE. by apply wp_lift. Qed.

(** ** Objects *)

Section Objects.
Implicit Types (w : World) (E : World -> Prop).

Lemma view_cmd w i x : w_cmds w !! i = Some x -> o_cmds (view w) !! i = Some (cmd_group x).
Proof. intros H. cbn. by rewrite lookup_fmap, H. Qed.
Lemma view_grp w i x : w_grps w !! i = Some x -> o_grps (view w) !! i = Some (grp_view x).
Proof. intros H. cbn. by rewrite lookup_fmap, H. Qed.
Lemma view_cli w i x : w_clis w !! i = Some x -> o_clis (view w) !! i = Some (cli_view x).
Proof. intros H. cbn. by rewrite lookup_fmap, H. Qed.
Lemma view_svr w i x : w_svrs w !! i = Some x -> o_svrs (view w) !! i = Some (svr_view x).
Proof. intros H. cbn. by rewrite lookup_fmap, H. Qed.

Lemma view_cmd_inv w i gi : o_cmds (view w) !! i = Some gi -> exists x, w_cmds w !! i = Some x /\ cmd_group x = gi.
Proof. cbn. rewrite lookup_fmap_Some. naive_solver. Qed.
Lemma view_grp_inv w i g : o_grps (view w) !! i = Some g -> exists x, w_grps w !! i = Some x /\ grp_view x = g.
Proof. cbn. rewrite lookup_fmap_Some. naive_solver. Qed.
Lemma view_cli_inv w i c : o_clis (view w) !! i = Some c -> exists x, w_clis w !! i = Some x /\ cli_view x = c.
Proof. cbn. rewrite lookup_fmap_Some. naive_solver. Qed.
Lemma view_svr_inv w i r : o_svrs (view w) !! i = Some r -> exists x, w_svrs w !! i = Some x /\ svr_view x = r.
Proof. cbn. rewrite lookup_fmap_Some. naive_solver. Qed.
Lemma view_upd_inv w i : i ∈ o_upds (view w) -> exists x, w_upds w !! i = Some x.
Proof. cbn. by rewrite elem_of_dom. Qed.

Lemma wp_get_cmd i Q E w :
  is_Some (o_cmds (view w) !! i) -> (forall x, w_cmds w !! i = Some x -> Q x w) -> wp (get_cmd i) Q E w.
Proof. intros [? (x & H & _)%view_cmd_inv] HQ. eapply wp_deref; [done|auto]. Qed.
Lemma wp_get_grp i Q E w :
  is_Some (o_grps (view w) !! i) -> (forall x, w_grps w !! i = Some x -> Q x w) -> wp (get_grp i) Q E w.
Proof. intros [? (x & H & _)%view_grp_inv] HQ. eapply wp_deref; [done|auto]. Qed.
Lemma wp_get_cli i Q E w :
  is_Some (o_clis (view w) !! i) -> (forall x, w_clis w !! i = Some x -> Q x w) -> wp (get_cli i) Q E w.
Proof. intros [? (x & H & _)%view_cli_inv] HQ. eapply wp_deref; [done|auto]. Qed.
Lemma wp_get_svr i Q E w :
  is_Some (o_svrs (view w) !! i) -> (forall x, w_svrs w !! i = Some x -> Q x w) -> wp (get_svr i) Q E w.
Proof. intros [? (x & H & _)%view_svr_inv] HQ. eapply wp_deref; [done|auto]. Qed.
Lemma wp_get_upd i Q E w :
  i ∈ o_upds (view w) -> (forall x, w_upds w !! i = Some x -> Q x w) -> wp (get_upd i) Q E w.
Proof. intros (x & H)%view_upd_inv HQ. eapply wp_deref; [done|auto]. Qed.

Lemma wp_set_cmd i f Q E w :
  is_Some (o_cmds (view w) !! i) ->
  (forall x, w_cmds w !! i = Some x -> Q tt (w <| w_cmds ::= <[i := f x]> |>)) -> wp (set_cmd i f) Q E w.
Proof. intros [? (x & H & _)%view_cmd_inv] HQ. eapply wp_set; [done|by apply HQ]. Qed.
Lemma wp_set_grp i f Q E w :
  is_Some (o_grps (view w) !! i) ->
  (forall x, w_grps w !! i = Some x -> Q tt (w <| w_grps ::= <[i := f x]> |>)) -> wp (set_grp i f) Q E w.
Proof. intros [? (x & H & _)%view_grp_inv] HQ. eapply wp_set; [done|by apply HQ]. Qed.
Lemma wp_set_cli i f Q E w :
  is_Some (o_clis (view w) !! i) ->
  (forall x, w_clis w !! i = Some x -> Q tt (w <| w_clis ::= <[i := f x]> |>)) -> wp (set_cli i f) Q E w.
Proof. intros [? (x & H & _)%view_cli_inv] HQ. eapply wp_set; [done|by apply HQ]. Qed.
Lemma wp_set_svr i f Q E w :
  is_Some (o_svrs (view w) !! i) ->
  (forall x, w_svrs w !! i = Some x -> Q tt (w <| w_svrs ::= <[i := f x]> |>)) -> wp (set_svr i f) Q E w.
Proof. intros [? (x & H & _)%view_svr_inv] HQ. eapply wp_set; [done|by apply HQ]. Qed.
Lemma wp_set_upd i f Q E w :
  i ∈ o_upds (view w) ->
  (forall x, w_upds w !! i = Some x -> Q tt (w <| w_upds ::= <[i := f x]> |>)) -> wp (set_upd i f) Q E w.
Proof. intros (x & H)%view_upd_inv HQ. eapply wp_set; [done|by apply HQ]. Qed.
Lemma wp_set_long i f (Q : unit -> World -> Prop) E w :
  (forall x, w_longs w !! i = Some x -> Q tt (w <| w_longs ::= <[i := f x]> |>)) -> wp (set_long i f) Q E w.
Proof. intros HQ. apply wp_bind, wp_get_long. exact HQ. Qed.

(** The same, for objects that are known. *)
Lemma wp_set_svr_at i f x (Q : unit -> World -> Prop) E w :
  w_svrs w !! i = Some x -> Q tt (w <| w_svrs ::= <[i := f x]> |>) -> wp (set_svr i f) Q E w.
Proof. intros H HQ. by eapply wp_set. Qed.
Lemma wp_set_cli_at i f x (Q : unit -> World -> Prop) E w :
  w_clis w !! i = Some x -> Q tt (w <| w_clis ::= <[i := f x]> |>) -> wp (set_cli i f) Q E w.
Proof. intros H HQ. by eapply wp_set. Qed.
Lemma wp_get_svr_at i x (Q : Server -> World -> Prop) E w : w_svrs w !! i = Some x -> Q x w -> wp (get_svr i) Q E w.
Proof. apply wp_deref. Qed.
Lemma wp_get_cli_at i x (Q : Client -> World -> Prop) E w : w_clis w !! i = Some x -> Q x w -> wp (get_cli i) Q E w.
Proof. apply wp_deref. Qed.

(** An update of members the graph does not have. *)
Lemma fmap_insert_same {A B} (f : A -> B) (m : gmap nat A) i x y :
  m !! i = Some x -> f y = f x -> f <$> <[i := y]> m = f <$> m.
Proof. intros Hx Hf. rewrite fmap_insert, Hf. apply insert_id. by rewrite lookup_fmap, Hx. Qed.

Lemma set_cmd_view w i x y : w_cmds w !! i = Some x -> cmd_group y = cmd_group x -> is_direct y = is_direct x ->
  view (w <| w_cmds ::= <[i := y]> |>) = view w.
Proof. intros Hx Hy Hd. unfold view. cbn. by rewrite !(fmap_insert_same _ _ _ x). Qed.
Lemma set_grp_view w i x y : w_grps w !! i = Some x -> grp_view y = grp_view x ->
  view (w <| w_grps ::= <[i := y]> |>) = view w.
Proof. intros Hx Hy. unfold view. cbn. by rewrite (fmap_insert_same _ _ _ x). Qed.
Lemma set_cli_view w i x y : w_clis w !! i = Some x -> cli_view y = cli_view x ->
  view (w <| w_clis ::= <[i := y]> |>) = view w.
Proof. intros Hx Hy. unfold view. cbn. by rewrite (fmap_insert_same _ _ _ x). Qed.
Lemma set_svr_view w i x y : w_svrs w !! i = Some x -> svr_view y = svr_view x ->
  view (w <| w_svrs ::= <[i := y]> |>) = view w.
Proof. intros Hx Hy. unfold view. cbn. by rewrite (fmap_insert_same _ _ _ x). Qed.
Lemma set_upd_view w i x y : w_upds w !! i = Some x -> view (w <| w_upds ::= <[i := y]> |>) = view w.
Proof.
  intros Hx. unfold view. cbn. f_equal. rewrite dom_insert_L. apply elem_of_dom_2 in Hx. set_solver.
Qed.
Lemma set_long_view w i x y : w_longs w !! i = Some x -> _attached_server y = _attached_server x ->
  view (w <| w_longs ::= <[i := y]> |>) = view w.
Proof. intros Hx Hy. unfold view. cbn. by rewrite (fmap_insert_same _ _ _ x). Qed.

(** ** Descriptors *)

Lemma wp_conn_fd c (Q : Z -> World -> Prop) E w : live (view w) c -> (forall fd, Q fd w) -> wp (conn_fd c) Q E w.
Proof.
  intros Hl HQ. destruct c; cbn [conn_fd].
  - apply wp_bind, wp_get_cli; [done|]. intros. apply HQ.
  - apply wp_bind, wp_get_svr; [done|]. intros. apply HQ.
  - apply wp_bind, wp_get_long. intros. apply HQ.
  - apply wp_bind, wp_get_long. intros. apply HQ.
  - apply wp_bind, wp_get_upd; [done|]. intros. apply HQ.
  - apply HQ.
Qed.

Lemma wp_set_conn_fd c fd (Q : unit -> World -> Prop) E w :
  live (view w) c -> (forall w', view w' = view w -> Q tt w') -> wp (set_conn_fd c fd) Q E w.
Proof.
  intros Hl HQ. destruct c; cbn [set_conn_fd].
  - apply wp_set_cli; [done|]. intros x Hx. apply HQ. by apply (set_cli_view _ _ x).
  - apply wp_set_svr; [done|]. intros x Hx. apply HQ. by apply (set_svr_view _ _ x).
  - apply wp_set_long. intros x Hx. apply HQ. by apply (set_long_view _ _ x).
  - apply wp_set_long. intros x Hx. apply HQ. by apply (set_long_view _ _ x).
  - apply wp_set_upd; [done|]. intros x Hx. apply HQ. by apply (set_upd_view _ _ x).
  - by apply HQ.
Qed.

Lemma wp_is_closed c (Q : bool -> World -> Prop) E w : live (view w) c -> (forall b, Q b w) -> wp (is_closed c) Q E w.
Proof. intros Hl HQ. apply wp_bind, wp_conn_fd; [done|]. intros. apply HQ. Qed.

Lemma wp_close_conn_fd c (Q : unit -> World -> Prop) E w :
  live (view w) c -> (forall w', view w' = view w -> Q tt w') -> wp (close_conn_fd c) Q E w.
Proof.
  intros Hl HQ. apply wp_bind, wp_conn_fd; [done|]. intros fd. apply wp_if; intros _; [by apply HQ|].
  apply wp_bind, wp_modify, wp_set_conn_fd; [done|]. intros w' Hw. by apply HQ.
Qed.

(** [poll_add_ro] and the like. *)
Lemma wp_poll c (k : Z -> W unit) (Q : unit -> World -> Prop) E w :
  (forall fd, kern_only (k fd)) -> live (view w) c ->
  (forall w', view w' = view w -> Q tt w') -> (forall w', view w' = view w -> E w') -> wp (fd ← conn_fd c; k fd) Q E w.
Proof.
  intros Hk Hl HQ HE. apply wp_bind, wp_conn_fd; [done|]. intros fd. apply wp_kern; [done|intros [] k0; by apply HQ|intros k0; by apply HE].
Qed.

Lemma wp_poll_add_ro c (Q : unit -> World -> Prop) E w : live (view w) c ->
  (forall w', view w' = view w -> Q tt w') -> (forall w', view w' = view w -> E w') -> wp (poll_add_ro c) Q E w.
Proof. apply wp_poll. intros. kern_step. Qed.
Lemma wp_poll_add_rw c (Q : unit -> World -> Prop) E w : live (view w) c ->
  (forall w', view w' = view w -> Q tt w') -> (forall w', view w' = view w -> E w') -> wp (poll_add_rw c) Q E w.
Proof. apply wp_poll. intros. kern_step. Qed.
Lemma wp_poll_ro c (Q : unit -> World -> Prop) E w : live (view w) c ->
  (forall w', view w' = view w -> Q tt w') -> (forall w', view w' = view w -> E w') -> wp (poll_ro c) Q E w.
Proof. apply wp_poll. intros. kern_step. Qed.
Lemma wp_poll_rw c (Q : unit -> World -> Prop) E w : live (view w) c ->
  (forall w', view w' = view w -> Q tt w') -> (forall w', view w' = view w -> E w') -> wp (poll_rw c) Q E w.
Proof. apply wp_poll. intros. kern_step. Qed.
End Objects.

(** ** Invariants of the graph *)

Section Invariants.
Context (I : World -> Prop) (HI : forall w w', view w' = view w -> I w -> I w').

Lemma preserves_frames {A} (c : W A) : frames c -> preserves I c.
Proof. intros Hc w Hw. apply wp_frames; [done|..]; intros; by eapply HI. Qed.

Lemma preserves_kern {A} (c : W A) : kern_only c -> preserves I c.
Proof. intros Hc. apply preserves_frames, kern_frames, Hc. Qed.

Lemma preserves_lift {A} (o : outcome A) : clean o -> preserves I (lift o).
Proof. intros Ho w Hw. by apply wp_lift_clean. Qed.

Lemma preserves_read {A} fd b (f : outcome Z * bytes -> W A) :
  (forall o b', clean o -> preserves I (f (o, b'))) -> preserves I (read_fd fd b ≫= f).
Proof. intros Hf w Hw. apply wp_bind, wp_read_fd. intros o b' k Ho. apply Hf; [done|]. by apply (HI w). Qed.

Lemma preserves_writev {A} fd bs (f : outcome bool * BufferSet -> W A) :
  (forall o bs', clean o -> preserves I (f (o, bs'))) -> preserves I (writev_fd fd bs ≫= f).
Proof. intros Hf w Hw. apply wp_bind, wp_writev_fd. intros o b' k Ho. apply Hf; [done|]. by apply (HI w). Qed.

(** An update of the proxy or of the globals that the graph does not see. *)
Lemma preserves_proxy f : (forall w, view (w <| w_proxy ::= f |>) = view w) -> preserves I (set_proxy f).
Proof. intros Hf w Hw. apply wp_modify. by apply (HI w). Qed.

Lemma preserves_set_long l f : (forall x, _attached_server (f x) = _attached_server x) -> preserves I (set_long l f).
Proof. intros Hf w Hw. apply wp_set_long. intros x Hx. apply (HI w); [|done]. by apply (set_long_view _ _ x). Qed.

Section Live.
Context (c : Connection) (Hc : forall w, I w -> live (view w) c).

Lemma preserves_is_closed : preserves I (is_closed c).
Proof. intros w Hw. apply wp_is_closed; auto. Qed.
Lemma preserves_conn_fd : preserves I (conn_fd c).
Proof. intros w Hw. apply wp_conn_fd; auto. Qed.
Lemma preserves_set_conn_fd fd : preserves I (set_conn_fd c fd).
Proof. intros w Hw. apply wp_set_conn_fd; [auto|]. intros w' ?. by apply (HI w). Qed.
Lemma preserves_close_conn_fd : preserves I (close_conn_fd c).
Proof. intros w Hw. apply wp_close_conn_fd; [auto|]. intros w' ?. by apply (HI w). Qed.
Lemma preserves_poll (k : Z -> W unit) : (forall fd, kern_only (k fd)) -> preserves I (fd ← conn_fd c; k fd).
Proof. intros Hk w Hw. apply wp_poll; [done|auto|..]; intros w' ?; by apply (HI w). Qed.
End Live.
End Invariants.

(** ** Deleting several keys *)

Lemma lookup_foldr_delete {A} (m : gmap nat A) l i x : foldr delete m l !! i = Some x <-> m !! i = Some x /\ i ∉ l.
Proof.
  induction l as [|j l IH]; cbn; [split; [intros; split; [done|]; by intros []%elem_of_nil|naive_solver]|].
  rewrite lookup_delete_Some, IH, elem_of_cons. naive_solver.
Qed.

Lemma fmap_foldr_delete {A B} (f : A -> B) (m : gmap nat A) l : f <$> foldr delete m l = foldr delete (f <$> m) l.
Proof. induction l; cbn; [done|]. rewrite fmap_delete. by f_equal. Qed.
