(* ===== verification/Quiet.v ===== *)
(** * Operations that leave the clients' requests and responses alone

    [still]: the buffers, the commands with their buffers, the groups with their members and the
    queues and the output of every client are as they were; a client may have been closed.  Most
    operations of the program are [still]; what follows from that for the order of responses
    (Order.v) and for the bytes a client gets (Output.v) needs no proof of its own for them. *)
From S2P Require Import Prelude Strings OrderedSet Address SlotCalc Buffer Response SlotMap CommandParser Logic World Kernel Command Server LongConn Client Proxy Concurrence Frames.
#[local] Open Scope Z_scope.

(** ** The memory of responses *)

(** A group's class without the count of the responses that it awaits. *)
Definition core (cls : GroupClass) : GroupClass :=
  match cls with MultipleCommandsGroup k p cs _ => MultipleCommandsGroup k p cs 0 | _ => cls end.

(** The buffers, the buffer of each command, and the groups. *)
Record mem : Type := mkMem { m_bufs : buf_store; m_cmds : gmap nat buf_id; m_grps : gmap nat GroupClass }.

Definition mem_of (w : World) : mem := mkMem (w_bufs w) (cmd_buffer <$> w_cmds w) ((fun g => core (grp_class g)) <$> w_grps w).

Definition lists (c : Client) := (_ready_groups c, _awaiting_groups c, _parsed_groups c).

Definition settings (g : Globals) := (req_full_cov g, read_slave g, select_slave g, send_readonly g, cmd_tables g).

Definition same_cli (c c' : option Client) : Prop :=
  match c, c' with
  | Some c, Some c' => lists c' = lists c /\ cli_output c' = cli_output c /\ (cli_fd c' = cli_fd c \/ cli_fd c' = -1)
  | None, None => True
  | _, _ => False
  end.

Record still (w w' : World) : Prop := {
  still_next : (w_next w <= w_next w')%nat;
  still_settings : settings (w_glob w') = settings (w_glob w);
  still_mem : mem_of w' = mem_of w;
  still_clis : forall i, same_cli (w_clis w !! i) (w_clis w' !! i)
}.

Lemma same_cli_refl c : same_cli c c.
Proof. destruct c; cbn; auto. Qed.

Lemma same_cli_trans c1 c2 c3 : same_cli c1 c2 -> same_cli c2 c3 -> same_cli c1 c3.
Proof. destruct c1, c2, c3; cbn; try done. intros (? & ? & ?) (? & ? & ?). split_and!; [congruence..|]. intuition congruence. Qed.

#[export] Instance still_preorder : PreOrder still.
Proof.
  split; [intros w; split; auto using same_cli_refl|]. intros w1 w2 w3 [N1 S1 M1 C1] [N2 S2 M2 C2].
  split; [lia|congruence..|]. intros i. by eapply same_cli_trans.
Qed.

(** ** Computations within a relation *)

(** Every return and every throw is in [R]; a run that ends in undefined behaviour has no end. *)
Definition within (R : World -> World -> Prop) {A} (c : W A) : Prop :=
  forall w, match c w with (Ret _, w') | (Throw _, w') => R w w' | _ => True end.

Section Within.
Context (R : World -> World -> Prop) `{!PreOrder R}.

Lemma within_pure {A} (c : W A) : (forall w, (c w).2 = w) -> within R c.
Proof. intros Hc w. specialize (Hc w). destruct (c w) as [[] w']; cbn in *; subst; done. Qed.
Lemma within_ret {A} (a : A) : within R (mret a).
Proof. by apply within_pure. Qed.
Lemma within_gets {A} (f : World -> A) : within R (gets f).
Proof. by apply within_pure. Qed.
Lemma within_throw {A} e : within R (throw (A := A) e).
Proof. by apply within_pure. Qed.
Lemma within_lift {A} (o : outcome A) : within R (lift o).
Proof. by apply within_pure. Qed.
Lemma within_undefined {A} : within R (undefined (A := A)).
Proof. done. Qed.
Lemma within_null {A} : within R (null_pointer (A := A)).
Proof. done. Qed.
Lemma within_no_fuel {A} : within R (no_fuel (A := A)).
Proof. done. Qed.
Lemma within_deref {A} p (store : World -> gmap nat A) i : within R (deref_obj p store i).
Proof. apply within_pure. intros w. unfold deref_obj. by case_match. Qed.

Lemma within_modify f : (forall w, R w (f w)) -> within R (modify f).
Proof. intros Hf w. apply Hf. Qed.

Lemma within_bind {A B} (c : W A) (f : A -> W B) : within R c -> (forall a, within R (f a)) -> within R (c ≫= f).
Proof.
  intros Hc Hf w. specialize (Hc w). unfold mbind, M_bind. destruct (c w) as [[a|e|k|] w1]; try done.
  specialize (Hf a w1). destruct (f a w1) as [[] w2]; try done; by etransitivity.
Qed.

Lemma within_from {A} w w1 (c : W A) :
  R w w1 -> within R c -> match c w1 with (Ret _, w') | (Throw _, w') => R w w' | _ => True end.
Proof. intros Hw Hc. specialize (Hc w1). destruct (c w1) as [[] w2]; try done; by etransitivity. Qed.

Lemma within_when b (c : W unit) : within R c -> within R (when b c).
Proof. intros Hc. destruct b; [exact Hc|apply within_ret]. Qed.

Lemma within_for {A} (l : list A) (body : A -> W unit) : (forall x, within R (body x)) -> within R (for_each l body).
Proof. intros Hb. induction l; [apply within_ret|]. by apply within_bind. Qed.

Lemma within_try {A} (c : W A) h : within R c -> (forall e k, h e = Some k -> within R k) -> within R (try_catch c h).
Proof.
  intros Hc Hh w. specialize (Hc w). unfold try_catch. destruct (c w) as [[a|e|k|] w1]; try done.
  destruct (h e) as [k|] eqn:Ek; [|done]. specialize (Hh e k Ek w1). destruct (k w1) as [[] w2]; try done; by etransitivity.
Qed.

Lemma within_on_throw {A} (c : W A) cleanup : within R c -> within R cleanup -> within R (on_throw c cleanup).
Proof.
  intros Hc Hd. apply within_try; [done|]. intros e k [= <-]. apply within_bind; [done|intros; apply within_throw].
Qed.
End Within.

(** ** Primitive changes *)

Lemma within_mono {A} (R R' : World -> World -> Prop) (c : W A) : (forall w w', R w w' -> R' w w') -> within R c -> within R' c.
Proof. intros HR Hc w. specialize (Hc w). destruct (c w) as [[] w']; auto. Qed.

Lemma within_kern {A} (c : W A) : kern_only c -> within still c.
Proof. intros Hc w. destruct (Hc w) as (o & k & -> & _). destruct o; try done; split; auto using same_cli_refl. Qed.

Lemma still_modify f :
  (forall w, w_clis (f w) = w_clis w) -> (forall w, w_next w <= w_next (f w))%nat -> (forall w, settings (w_glob (f w)) = settings (w_glob w)) ->
  (forall w, mem_of (f w) = mem_of w) -> within still (modify f).
Proof. intros H1 H2 H3 H4. apply within_modify. intros w. split; [done..|]. intros i. rewrite H1. apply same_cli_refl. Qed.

Lemma still_set_cli i f : (forall c, same_cli (Some c) (Some (f c))) -> within still (set_cli i f).
Proof.
  intros Hf w. unfold set_cli, get_cli, deref_obj, mbind, M_bind. destruct (w_clis w !! i) as [c|] eqn:Ec; [|done]. cbn. split; [done..|].
  intros j. cbn. destruct (decide (i = j)) as [->|Hne]; [rewrite lookup_insert_eq, Ec; apply Hf|rewrite lookup_insert_ne by done; apply same_cli_refl].
Qed.

Lemma fmap_insert_id {A B} (f : A -> B) (m : gmap nat A) i x y : m !! i = Some x -> f y = f x -> f <$> <[i := y]> m = f <$> m.
Proof. intros Hx Hf. rewrite fmap_insert, insert_id; [done|]. by rewrite lookup_fmap, Hx, Hf. Qed.

Lemma still_set_cmd i f : (forall c, cmd_buffer (f c) = cmd_buffer c) -> within still (set_cmd i f).
Proof.
  intros Hf w. unfold set_cmd, get_cmd, deref_obj, mbind, M_bind. destruct (w_cmds w !! i) as [c|] eqn:Ec; [|done]. cbn.
  split; [done..| |intros; apply same_cli_refl]. unfold mem_of. cbn. by rewrite (fmap_insert_id _ _ _ c).
Qed.

Lemma still_set_grp i f : (forall g, core (grp_class (f g)) = core (grp_class g)) -> within still (set_grp i f).
Proof.
  intros Hf w. unfold set_grp, get_grp, deref_obj, mbind, M_bind. destruct (w_grps w !! i) as [g|] eqn:Eg; [|done]. cbn.
  split; [done..| |intros; apply same_cli_refl]. unfold mem_of. cbn. by rewrite (fmap_insert_id _ _ _ g).
Qed.

Create HintDb within discriminated.
#[export] Hint Resolve within_ret within_gets within_throw within_lift within_undefined within_null within_no_fuel : within.
#[export] Hint Extern 1 (PreOrder _) => typeclasses eauto : within.
#[export] Hint Extern 1 (within _ (get_cmd _)) => (apply within_deref; typeclasses eauto) : within.
#[export] Hint Extern 1 (within _ (get_grp _)) => (apply within_deref; typeclasses eauto) : within.
#[export] Hint Extern 1 (within _ (get_cli _)) => (apply within_deref; typeclasses eauto) : within.
#[export] Hint Extern 1 (within _ (get_svr _)) => (apply within_deref; typeclasses eauto) : within.
#[export] Hint Extern 1 (within _ (get_long _)) => (apply within_deref; typeclasses eauto) : within.
#[export] Hint Extern 1 (within _ (get_upd _)) => (apply within_deref; typeclasses eauto) : within.
#[export] Hint Extern 2 (within still (modify _)) => (apply still_modify; intros ?; solve [done | cbn; lia]) : within.
#[export] Hint Extern 2 (within still (set_cli _ _)) => (apply still_set_cli; intros ?; split_and!; auto; fail) : within.
#[export] Hint Extern 2 (within still (set_cmd _ _)) => (apply still_set_cmd; intros ?; reflexivity) : within.
#[export] Hint Extern 2 (within still (set_grp _ _)) => (apply still_set_grp; intros ?; reflexivity) : within.
#[export] Hint Extern 3 (within still _) => (apply within_kern; solve [auto 2 with kern nocore]) : within.

Ltac within_step :=
  repeat first
    [ solve [eauto 5 with within nocore]
    | apply within_bind; [typeclasses eauto| |intros ?]
    | apply within_when; [typeclasses eauto|]
    | apply within_for; [typeclasses eauto|]; intros ?
    | apply within_on_throw; [typeclasses eauto|..]
    | apply within_try; [typeclasses eauto| |intros ? ? ?; simplify_eq/=]
    | progress cbn [negb]
    | progress unfold set_cmd, set_grp, set_svr, set_long, set_upd, set_proxy, set_glob
    | case_match; simplify_eq/= ].

(** ** Operations that are still *)

Lemma still_fresh : within still fresh.
Proof. intros w. split; cbn; [lia|done..|]. intros i. apply same_cli_refl. Qed.
#[export] Hint Resolve still_fresh : within.
Lemma still_conn_fd c : within still (conn_fd c).
Proof. destruct c; cbn [conn_fd]; within_step. Qed.
#[export] Hint Resolve still_conn_fd : within.
Lemma still_set_conn_fd c : within still (set_conn_fd c (-1)).
Proof. destruct c; cbn [set_conn_fd]; within_step. Qed.
#[export] Hint Resolve still_set_conn_fd : within.
Lemma still_is_closed c : within still (is_closed c).
Proof. unfold is_closed. within_step. Qed.
Lemma still_close_conn_fd c : within still (close_conn_fd c).
Proof. unfold close_conn_fd. within_step. Qed.
#[export] Hint Resolve still_is_closed still_close_conn_fd : within.
Lemma still_set_conn_poll_ro c : within still (set_conn_poll_ro c).
Proof. unfold set_conn_poll_ro. within_step. Qed.
Lemma still_set_conn_poll_rw c : within still (set_conn_poll_rw c).
Proof. unfold set_conn_poll_rw. within_step. Qed.
Lemma still_poll_add_ro c : within still (poll_add_ro c).
Proof. unfold poll_add_ro. within_step. Qed.
Lemma still_poll_add_rw c : within still (poll_add_rw c).
Proof. unfold poll_add_rw. within_step. Qed.
Lemma still_poll_ro c : within still (poll_ro c).
Proof. unfold poll_ro. within_step. Qed.
Lemma still_poll_rw c : within still (poll_rw c).
Proof. unfold poll_rw. within_step. Qed.
Lemma still_poll_del c : within still (poll_del c).
Proof. unfold poll_del. within_step. Qed.
#[export] Hint Resolve still_set_conn_poll_ro still_set_conn_poll_rw still_poll_add_ro still_poll_add_rw still_poll_ro still_poll_rw
  still_poll_del : within.

Lemma still_get_server_by_slot ks : within still (get_server_by_slot ks).
Proof. unfold get_server_by_slot, get_by_slot. within_step. Qed.
#[export] Hint Resolve still_get_server_by_slot : within.
Lemma still_select_server c : within still (select_server c).
Proof. unfold select_server, select_server_for, retry_move_ask_command_later, push_client_command, add_peer. within_step. Qed.
#[export] Hint Resolve still_select_server : within.
Lemma still_reactivate c : within still (reactivate c).
Proof. unfold reactivate. within_step. Qed.
Lemma still_select_remote g : within still (select_remote g).
Proof. unfold select_remote. within_step. Qed.
Lemma still_buffers_of_cmds cs : within still (buffers_of_cmds cs).
Proof. induction cs; cbn [buffers_of_cmds]; unfold buffer_of_cmd; within_step. Qed.
#[export] Hint Resolve still_reactivate still_select_remote still_buffers_of_cmds : within.

Lemma still_total_cost cs : within still (total_remote_cost cs).
Proof. induction cs; cbn [total_remote_cost]; within_step. Qed.
#[export] Hint Resolve still_total_cost : within.
Lemma still_collect_stats g : within still (collect_stats g).
Proof. unfold collect_stats, avg_commands_remote_cost, stat_proccessed. within_step. Qed.
#[export] Hint Resolve still_collect_stats : within.

(** ** Servers and long connections *)

Lemma still_close_conn s : within still (close_conn s).
Proof. unfold close_conn, retry_move_ask_command_later, inactivate_long_conn, remove_entry. within_step. Qed.
Lemma still_push_to_buffer_set s : within still (_push_to_buffer_set s).
Proof. unfold _push_to_buffer_set. within_step. Qed.
#[export] Hint Resolve still_close_conn still_push_to_buffer_set : within.
Lemma still_erase_client cli cmds : within still (erase_client cli cmds).
Proof. induction cmds; cbn [erase_client]; unfold cmd_client; within_step. Qed.
Lemma still_reset_client cli sent : within still (reset_client cli sent).
Proof. induction sent as [|[c|] sent]; cbn [reset_client]; unfold cmd_client; within_step. Qed.
#[export] Hint Resolve still_erase_client still_reset_client : within.
Lemma still_server_pop s cli : within still (server_pop_client s cli).
Proof. unfold server_pop_client. within_step. Qed.
Lemma still_proxy_pop cli : within still (proxy_pop_client cli).
Proof. unfold proxy_pop_client. within_step. Qed.
Lemma still_reconnect s addr : within still (_reconnect s addr).
Proof. unfold _reconnect, on_server_connected. within_step. Qed.
#[export] Hint Resolve still_server_pop still_proxy_pop still_reconnect : within.
Lemma still_get_server addr : within still (get_server addr).
Proof. unfold get_server, _alloc_server, new_pooled_server. within_step. Qed.
#[export] Hint Resolve still_get_server : within.
Lemma still_map_slots s first n r : within still (map_slots s first n r).
Proof. revert first r. induction n; intros; cbn [map_slots]; within_step. Qed.
#[export] Hint Resolve still_map_slots : within.
Lemma still_map_ranges s rs r m : within still (map_ranges s rs r m).
Proof. revert r m. induction rs; intros; cbn [map_ranges]; within_step. Qed.
#[export] Hint Resolve still_map_ranges : within.
Lemma still_map_nodes pick nodes r m : within still (map_nodes pick nodes r m).
Proof. revert r m. induction nodes; intros; cbn [map_nodes]; within_step. Qed.
#[export] Hint Resolve still_map_nodes : within.
Lemma still_replace_map nodes : within still (replace_map nodes).
Proof. unfold replace_map. within_step. Qed.
Lemma still_slot_map_clear : within still slot_map_clear.
Proof. unfold slot_map_clear. within_step. Qed.
Lemma still_delete_long l : within still (delete_long l).
Proof. unfold delete_long, detach_long_connection. within_step. Qed.
#[export] Hint Resolve still_replace_map still_slot_map_clear still_delete_long : within.
Lemma still_new_long k fd s b : within still (new_long k fd s b).
Proof. unfold new_long, attach_long_connection, open_server_conn. within_step. Qed.
#[export] Hint Resolve still_new_long : within.
Lemma still_deliver_client g : within still (deliver_client g).
Proof. unfold deliver_client, deliver_to, random_addr, get_by_slot. within_step. Qed.
#[export] Hint Resolve still_deliver_client : within.

(** ** The proxy *)

Lemma still_move_closed : within still _move_closed_slot_updaters.
Proof. unfold _move_closed_slot_updaters. within_step. Qed.
#[export] Hint Resolve still_move_closed : within.
Lemma still_retry_commands cmds svrs : within still (retry_commands cmds svrs).
Proof. revert svrs. induction cmds; intros; cbn [retry_commands]; within_step. Qed.
#[export] Hint Resolve still_retry_commands : within.
Lemma still_set_slot_map nodes remotes : within still (_set_slot_map nodes remotes).
Proof. unfold _set_slot_map. within_step. Qed.
#[export] Hint Resolve still_set_slot_map : within.
Lemma still_any_open us : within still (any_open us).
Proof. induction us; cbn [any_open]; within_step. Qed.
#[export] Hint Resolve still_any_open : within.
Lemma still_max_covered best us : within still (max_covered best us).
Proof. revert best. induction us; intros; cbn [max_covered]; within_step; auto. Qed.
#[export] Hint Resolve still_max_covered : within.
Lemma still_new_updater addr : within still (new_updater addr).
Proof. unfold new_updater. within_step. Qed.
#[export] Hint Resolve still_new_updater : within.
Lemma still_turn_on : within still turn_on_accepting.
Proof. unfold turn_on_accepting. within_step. Qed.
#[export] Hint Resolve still_turn_on : within.
Lemma still_poll_ctl : within still poll_ctl.
Proof. unfold poll_ctl. within_step. Qed.
#[export] Hint Resolve still_poll_ctl : within.
Lemma still_start_proxy port : within still (start_proxy port).
Proof. unfold start_proxy. within_step. Qed.
