(* ===== verification/Turns.v ===== *)
(** * Every turn of the loop ends

    A turn runs out of fuel, which stands for a loop that does not end, only in a state in which a
    connection has read a negative length (Ends.v), or a socket that is flushed takes no bytes any
    more: [flush_mem] tries again for ever.  Everything else a turn does ends by itself. *)
From S2P Require Import Prelude Strings OrderedSet Address SlotCalc Message Buffer Response SlotMap CommandParser Ends Logic Clean World Kernel Command Server LongConn Client Proxy Concurrence Frames.
#[local] Open Scope Z_scope.

(** The sockets a thread flushes, which are not the clients' own. *)
Definition flushes (w : World) (fd : Z) : Prop :=
  (exists i s, w_svrs w !! i = Some s /\ svr_fd s = fd) \/
  (exists i u, w_upds w !! i = Some u /\ upd_fd u = fd) \/
  (exists i l, w_longs w !! i = Some l /\ (long_fd l = fd \/ long_server_fd l = fd)).

(** What keeps a thread from going on. *)
Definition blocked (w : World) : Prop :=
  (exists i c, w_clis w !! i = Some c /\ lengths_ok (cli_buffer c) = false) \/
  (exists i s, w_svrs w !! i = Some s /\ lengths_ok (svr_buffer s) = false) \/
  (exists i u, w_upds w !! i = Some u /\ lengths_ok (_rsp u) = false) \/
  (exists i l, w_longs w !! i = Some l /\ lengths_ok (long_buffer l) = false) \/
  (exists fd c, flushes w fd /\ k_chans (w_kern w) !! fd = Some c /\ ch_writes c = []).

(** [c] ends, or the thread is blocked. *)
Definition finishes {A} (c : W A) : Prop := forall w, match c w with (NoFuel, w') => blocked w' | _ => True end.

Lemma finishes_halts {A} (c : W A) : (forall w, (c w).1 <> NoFuel) -> finishes c.
Proof. intros Hc w. specialize (Hc w). by destruct (c w) as [[] w']. Qed.

Lemma finishes_bind {A B} (c : W A) (f : A -> W B) : finishes c -> (forall a, finishes (f a)) -> finishes (c ≫= f).
Proof. intros Hc Hf w. specialize (Hc w). unfold mbind, M_bind. destruct (c w) as [[a|e|k|] w']; try done. apply Hf. Qed.

Lemma finishes_try {A} (c : W A) h : finishes c -> (forall e k, h e = Some k -> finishes k) -> finishes (try_catch c h).
Proof.
  intros Hc Hh w. specialize (Hc w). unfold try_catch. destruct (c w) as [[a|e|k|] w']; try done.
  destruct (h e) as [k|] eqn:Ek; [by apply (Hh e)|done].
Qed.

Lemma finishes_for {A} (l : list A) (body : A -> W unit) : (forall x, finishes (body x)) -> finishes (for_each l body).
Proof. intros Hb. induction l; [by apply finishes_halts|]. by apply finishes_bind. Qed.

Lemma finishes_when b (c : W unit) : finishes c -> finishes (when b c).
Proof. intros Hc. destruct b; [exact Hc|by apply finishes_halts]. Qed.

Lemma finishes_deref {A} p (store : World -> gmap nat A) i : finishes (deref_obj p store i).
Proof. apply finishes_halts. intros w. unfold deref_obj. by case_match. Qed.

Lemma finishes_lift {A} (o : outcome A) : o <> NoFuel -> finishes (lift o).
Proof. intros Ho. by apply finishes_halts. Qed.

(** ** What is known of the state *)

Definition finishes_at (P : World -> Prop) {A} (c : W A) : Prop := forall w, P w -> match c w with (NoFuel, w') => blocked w' | _ => True end.

Lemma finishes_any P {A} (c : W A) : finishes c -> finishes_at P c.
Proof. intros Hc w _. apply Hc. Qed.

Lemma finishes_at_lift P {A B} (o : outcome A) (k : A -> W B) :
  (o = NoFuel -> forall w, P w -> blocked w) -> (forall a, finishes_at P (k a)) -> finishes_at P (lift o ≫= k).
Proof. intros Ho Hk w Hw. unfold mbind, M_bind, lift. destruct o; [by apply Hk|done..|by apply Ho]. Qed.

Lemma finishes_at_bind P {A B} (c : W A) (f : A -> W B) : finishes_at P c -> (forall a, finishes (f a)) -> finishes_at P (c ≫= f).
Proof. intros Hc Hf w Hw. specialize (Hc w Hw). unfold mbind, M_bind. destruct (c w) as [[a|e|k|] w']; try done. apply Hf. Qed.

(** A step that keeps what is known of the state. *)
Lemma finishes_at_keep P {A B} (c : W A) (f : A -> W B) :
  (forall w, P w -> P (c w).2) -> finishes c -> (forall a, finishes_at P (f a)) -> finishes_at P (c ≫= f).
Proof.
  intros Hk Hc Hf w Hw. specialize (Hk w Hw). specialize (Hc w). unfold mbind, M_bind. destruct (c w) as [[a|e|k|] w']; try done. by apply Hf.
Qed.

Lemma finishes_get_at {A B} p (store : World -> gmap nat A) i (k : A -> W B) :
  (forall x, finishes_at (fun w => store w !! i = Some x) (k x)) -> finishes (deref_obj p store i ≫= k).
Proof. intros Hk w. unfold mbind, M_bind, deref_obj. destruct (store w !! i) as [x|] eqn:E; [|done]. by apply Hk. Qed.

(** ** Sockets *)

Lemma flush_loop_stuck ws sent rest ws' sent' : flush_loop ws sent rest = (NoFuel, (ws', sent')) -> ws' = [].
Proof.
  revert sent rest. induction ws as [|[n|e] ws IH]; intros sent [|b rest]; cbn [flush_loop]; try done; [by intros [= <- _]|apply IH|].
  unfold io_on_error. destruct (e =? EAGAIN); [apply IH|]. by destruct (is_io_errno e).
Qed.

Lemma finishes_flush fd b : finishes_at (fun w => flushes w fd) (flush_fd fd b).
Proof.
  intros w Hw. unfold flush_fd, with_chan, flush_string, flush_mem. destruct (k_chans (w_kern w) !! fd) as [c|].
  - destruct (flush_loop _ _ b) as [[] [ws sent]] eqn:E; try done. apply flush_loop_stuck in E as ->. right. right. right. right.
    exists fd. eexists. split; [exact Hw|]. cbn. rewrite lookup_insert_eq. by split.
  - cbn. by destruct b.
Qed.

Lemma finishes_write fd b : finishes_at (fun w => flushes w fd) (write_fd fd b).
Proof.
  intros w Hw. pose proof (finishes_flush fd b w Hw) as H. unfold write_fd, flush_fd, with_chan, flush_string, buffer_write, mbind, M_bind in *.
  destruct (k_chans (w_kern w) !! fd) as [c|].
  - destruct (flush_mem b c) as [[] c']; done.
  - destruct (flush_mem b closed_chan) as [[] c']; done.
Qed.

(** What [read_fd] gives is an outcome of [buffer_read]. *)
Lemma buffer_read_ends b c : (buffer_read b c).1 <> NoFuel.
Proof.
  unfold buffer_read. pose proof (read_loop_spec (ch_reads c) b 0) as H. destruct (read_loop _ _ _) as [o [b' rs]].
  destruct H as (d & _ & Ho). cbn. by destruct o.
Qed.

Lemma write_vec_ends ws sent iov total fo : (write_vec ws sent iov total fo).1 <> NoFuel.
Proof.
  assert (H1 : forall ws sent buf fo, (write_single_loop ws sent buf fo).1 <> NoFuel).
  { clear. induction ws as [|[n|e] ws IH]; intros sent buf fo; cbn [write_single_loop]; destruct (fo <? zlen buf); try done.
    unfold io_on_error. cbn. by repeat case_match. }
  assert (H2 : forall ws sent iov n total w fo, (write_vec_loop ws sent iov n total w fo).1 <> NoFuel).
  { clear. induction ws as [|[k|e] ws IH]; intros sent iov n total w fo; cbn [write_vec_loop]; [by case_match|..].
    - repeat (case_match; try done).
    - case_match; [done|]. unfold io_on_error. by repeat case_match. }
  unfold write_vec. repeat (case_match; try done).
Qed.

Lemma writev_ends st bs c : (writev st bs c).1 <> NoFuel.
Proof.
  assert (H : forall fuel bs ws sent, (length (_buf_arr bs) <= fuel)%nat -> (writev_loop fuel st bs ws sent).1 <> NoFuel).
  { clear. induction fuel as [|fuel IH]; intros bs ws sent Hf; cbn [writev_loop]; destruct (_buf_arr bs) as [|b arr] eqn:Eb; try done; [cbn in Hf; lia|].
    destruct (next_group_to_write _ _) as [vec bulk] eqn:Ev. pose proof (write_vec_ends ws sent vec bulk (_1st_buf_offset bs)) as Hv.
    destruct (write_vec _ _ _ _ _) as [[k|e|u|] [fo [ws' sent']]]; try done. destruct (Z.ltb_spec k (zlen vec)); [done|]. apply IH.
    assert (Hvec : (0 < zlen vec)%Z).
    { cbn [fmap list_fmap next_group_to_write] in Ev. destruct (group_loop _ _ _) as [vec' bulk']. injection Ev as <- _. rewrite zlen_cons. pose_zlen_nonneg. lia. }
    cbn. rewrite Eb, length_drop. cbn in *. lia. }
  unfold writev. specialize (H (length (_buf_arr bs)) bs (ch_writes c) (ch_sent c) ltac:(done)). by destruct (writev_loop _ _ _ _ _) as [o [bs' [ws sent]]].
Qed.

Lemma finishes_at_read P {A} fd b (k : outcome Z * bytes -> W A) :
  (forall w f, P w -> P (w <| w_kern ::= f |>)) ->
  (forall o b', o <> NoFuel -> finishes_at P (k (o, b'))) -> finishes_at P (read_fd fd b ≫= k).
Proof.
  intros HP Hk w Hw. unfold mbind, M_bind, read_fd, with_chan. destruct (k_chans (w_kern w) !! fd) as [c|].
  - pose proof (buffer_read_ends b c). destruct (buffer_read b c) as [o [b' c']]. apply Hk; [done|by apply HP].
  - pose proof (buffer_read_ends b closed_chan). cbn. destruct (buffer_read b closed_chan) as [o [b' c']]. by apply Hk.
Qed.

Lemma finishes_after_read {A} fd b (k : outcome Z * bytes -> W A) :
  (forall o b', o <> NoFuel -> finishes (k (o, b'))) -> finishes (read_fd fd b ≫= k).
Proof.
  intros Hk w. apply (finishes_at_read (fun _ => True)); [done| |done]. intros o b' Ho w' _. by apply Hk.
Qed.

Lemma finishes_after_writev {A} fd bs (k : outcome bool * BufferSet -> W A) :
  (forall o bs', o <> NoFuel -> finishes (k (o, bs'))) -> finishes (writev_fd fd bs ≫= k).
Proof.
  intros Hk w. unfold writev_fd, mbind, M_bind, with_chan. cbn. destruct (k_chans (w_kern w) !! fd) as [c|].
  - pose proof (writev_ends (w_bufs w) bs c). destruct (writev (w_bufs w) bs c) as [o [b' c']]. by apply Hk.
  - pose proof (writev_ends (w_bufs w) bs closed_chan). cbn. destruct (writev (w_bufs w) bs closed_chan) as [o [b' c']]. by apply Hk.
Qed.

(** ** What was read is in the connection's buffer *)

Section Setters.
Context {A : Type} (i : nat) (k : W A).

Lemma finishes_set_cli f : finishes_at (fun w => exists c, w_clis w !! i = Some (f c)) k -> finishes (set_cli i f ;; k).
Proof.
  intros Hk w. unfold set_cli, get_cli, deref_obj, mbind, M_bind. destruct (w_clis w !! i) as [c|]; [|done]. apply Hk. exists c. apply lookup_insert_eq.
Qed.
Lemma finishes_set_svr f : finishes_at (fun w => exists c, w_svrs w !! i = Some (f c)) k -> finishes (set_svr i f ;; k).
Proof.
  intros Hk w. unfold set_svr, get_svr, deref_obj, mbind, M_bind. destruct (w_svrs w !! i) as [c|]; [|done]. apply Hk. exists c. apply lookup_insert_eq.
Qed.
Lemma finishes_set_upd f : finishes_at (fun w => exists c, w_upds w !! i = Some (f c)) k -> finishes (set_upd i f ;; k).
Proof.
  intros Hk w. unfold set_upd, get_upd, deref_obj, mbind, M_bind. destruct (w_upds w !! i) as [c|]; [|done]. apply Hk. exists c. apply lookup_insert_eq.
Qed.
Lemma finishes_set_long f : finishes_at (fun w => exists c, w_longs w !! i = Some (f c)) k -> finishes (set_long i f ;; k).
Proof.
  intros Hk w. unfold set_long, get_long, deref_obj, mbind, M_bind. destruct (w_longs w !! i) as [c|]; [|done]. apply Hk. exists c. apply lookup_insert_eq.
Qed.
End Setters.

(** ** The structure of computations *)

Create HintDb finishes discriminated.
#[export] Hint Resolve finishes_deref : finishes.
#[export] Hint Extern 1 (finishes (mret _)) => (by apply finishes_halts) : finishes.
#[export] Hint Extern 1 (finishes (gets _)) => (by apply finishes_halts) : finishes.
#[export] Hint Extern 1 (finishes (modify _)) => (by apply finishes_halts) : finishes.
#[export] Hint Extern 1 (finishes (throw _)) => (by apply finishes_halts) : finishes.
#[export] Hint Extern 1 (finishes undefined) => (by apply finishes_halts) : finishes.
#[export] Hint Extern 1 (finishes null_pointer) => (by apply finishes_halts) : finishes.
#[export] Hint Extern 1 (finishes (lift ?o)) => (apply finishes_lift; assumption) : finishes.

Ltac head_of t := match t with ?f _ => head_of f | _ => t end.
Ltac finishes_step :=
  repeat first
    [ solve [eauto 2 with finishes nocore]
    | apply finishes_after_read; intros ? ? ?
    | apply finishes_after_writev; intros ? ? ?
    | apply finishes_bind; [|intros ?]
    | apply finishes_when
    | apply finishes_for; intros ?
    | apply finishes_try; [|intros ? ? ?; simplify_eq/=]
    | case_match; simplify_eq/=
    | match goal with |- finishes ?c => let h := head_of c in progress unfold h end ].

(** The loops that follow a list. *)
Lemma finishes_buffers cs : finishes (buffers_of_cmds cs).
Proof. induction cs; cbn [buffers_of_cmds]; finishes_step. Qed.
Lemma finishes_total_cost cs : finishes (total_remote_cost cs).
Proof. induction cs; cbn [total_remote_cost]; finishes_step. Qed.
Lemma finishes_new_commands g cmds : finishes (new_commands g cmds).
Proof. induction cmds as [|[b ks] cmds IH]; cbn [new_commands]; finishes_step. Qed.
#[export] Hint Resolve finishes_buffers finishes_total_cost finishes_new_commands : finishes.
Lemma finishes_push_ready cli gs : finishes (push_ready cli gs).
Proof. induction gs; cbn [push_ready]; finishes_step. Qed.
Lemma finishes_push_commands stats cli sps : finishes (push_commands stats cli sps).
Proof. induction sps; cbn [push_commands]; finishes_step. Qed.
Lemma finishes_erase_client cli cmds : finishes (erase_client cli cmds).
Proof. induction cmds; cbn [erase_client]; finishes_step. Qed.
Lemma finishes_reset_client cli sent : finishes (reset_client cli sent).
Proof. induction sent as [|[c|] sent IH]; cbn [reset_client]; finishes_step. Qed.
#[export] Hint Resolve finishes_push_ready finishes_push_commands finishes_erase_client finishes_reset_client : finishes.
Lemma finishes_map_slots s first n r : finishes (map_slots s first n r).
Proof. revert first r. induction n; intros; cbn [map_slots]; finishes_step. Qed.
#[export] Hint Resolve finishes_map_slots : finishes.
Lemma finishes_map_ranges s rs r m : finishes (map_ranges s rs r m).
Proof. revert r m. induction rs; intros; cbn [map_ranges]; finishes_step. Qed.
#[export] Hint Resolve finishes_map_ranges : finishes.
Lemma finishes_close_conn_fd c : finishes (close_conn_fd c).
Proof. finishes_step. Qed.
#[export] Hint Resolve finishes_close_conn_fd : finishes.
Lemma finishes_close_conn s : finishes (close_conn s).
Proof. finishes_step. Qed.
Lemma finishes_on_connected s : finishes (on_server_connected s).
Proof.
  unfold on_server_connected. apply finishes_bind; [finishes_step|intros ro]. apply finishes_when, finishes_get_at. intros x.
  apply finishes_at_bind; [|intros _; finishes_step]. intros w Hx. apply finishes_flush. left. by exists s, x.
Qed.
#[export] Hint Resolve finishes_on_connected : finishes.
Lemma finishes_reconnect s addr : finishes (_reconnect s addr).
Proof. finishes_step. Qed.
#[export] Hint Resolve finishes_close_conn finishes_reconnect : finishes.
Lemma finishes_new_pooled : finishes new_pooled_server.
Proof. finishes_step. Qed.
#[export] Hint Resolve finishes_new_pooled : finishes.
Lemma finishes_alloc_server addr : finishes (_alloc_server addr).
Proof.
  unfold _alloc_server. apply finishes_bind; [finishes_step|intros pool]. apply finishes_bind; [|intros _; finishes_step].
  apply finishes_when, finishes_for. intros _. apply finishes_new_pooled.
Qed.
#[export] Hint Resolve finishes_alloc_server : finishes.
Lemma finishes_get_server addr : finishes (get_server addr).
Proof. unfold get_server. finishes_step. Qed.
#[export] Hint Resolve finishes_get_server : finishes.
Lemma finishes_map_nodes pick nodes r m : finishes (map_nodes pick nodes r m).
Proof. revert r m. induction nodes; intros; cbn [map_nodes]; finishes_step. Qed.
#[export] Hint Resolve finishes_map_nodes : finishes.
Lemma finishes_select_server c : finishes (select_server c).
Proof. finishes_step. Qed.
#[export] Hint Resolve finishes_select_server : finishes.
Lemma finishes_retry_commands cmds svrs : finishes (retry_commands cmds svrs).
Proof. revert svrs. induction cmds; intros; cbn [retry_commands]; finishes_step. Qed.
Lemma finishes_any_open us : finishes (any_open us).
Proof. induction us; cbn [any_open]; finishes_step. Qed.
Lemma finishes_max_covered best us : finishes (max_covered best us).
Proof. revert best. induction us; intros; cbn [max_covered]; finishes_step. Qed.
#[export] Hint Resolve finishes_retry_commands finishes_any_open finishes_max_covered : finishes.

(** ** Clients *)

(** Opening the server's side of a long connection writes its command. *)
Lemma finishes_open_server_conn l addr cmd : finishes (open_server_conn l addr cmd).
Proof.
  unfold open_server_conn. apply finishes_bind; [finishes_step|intros fd]. apply finishes_set_long.
  apply finishes_at_keep; [|finishes_step|intros _]; [|apply finishes_at_keep; [|finishes_step|intros _]].
  - intros w Hw. unfold set_nonblocking, next_script, gets, set_kern, modify, mbind, M_bind. cbn. repeat (case_match; try done).
  - intros w Hw. unfold connect_fd, next_script, gets, set_kern, modify, mbind, M_bind. cbn. repeat (case_match; try done).
  - apply finishes_at_bind; [|intros _; finishes_step]. intros w (x & Hx). apply finishes_write. right. right. exists l. eexists. split; [exact Hx|by right].
Qed.
#[export] Hint Resolve finishes_open_server_conn : finishes.
Lemma finishes_deliver_client g : finishes (deliver_client g).
Proof. finishes_step. Qed.
#[export] Hint Resolve finishes_deliver_client : finishes.
Lemma finishes_process_loop cli i n : finishes (process_loop cli i n).
Proof. revert i. induction n; intros; cbn [process_loop]; finishes_step. Qed.
Lemma finishes_push_awaitings cli : finishes (_push_awaitings_to_ready cli).
Proof. finishes_step. Qed.
#[export] Hint Resolve finishes_process_loop finishes_push_awaitings : finishes.
Lemma finishes_process cli : finishes (_process cli).
Proof. unfold _process. finishes_step. Qed.
#[export] Hint Resolve finishes_process : finishes.
Lemma finishes_send_buffer_set cli : finishes (_send_buffer_set cli).
Proof. unfold _send_buffer_set. finishes_step. Qed.
#[export] Hint Resolve finishes_send_buffer_set : finishes.

(** A split that does not end leaves the buffer as it was read. *)
Lemma split_client_command_stuck t b gs rest : split_client_command t b = (NoFuel, (gs, rest)) -> rest = b /\ lengths_ok b = false.
Proof.
  intros E. pose proof (split_client_command_ends t b) as Hl. rewrite E in Hl. split; [|by destruct (lengths_ok b); [destruct Hl|]].
  unfold split_client_command, split_client_command_fuel in E. destruct (split_run _ _ _) as [o s]. by injection E as -> _ <-.
Qed.

Lemma finishes_read_request stats cli : finishes (_read_request stats cli).
Proof.
  unfold _read_request. apply finishes_bind; [finishes_step|intros c]. apply finishes_after_read. intros o b Ho.
  apply finishes_bind; [finishes_step|intros _]. apply finishes_bind; [finishes_step|intros n]. case_match; [finishes_step|].
  apply finishes_bind; [finishes_step|intros t]. destruct (split_client_command t b) as [o' [gs rest]] eqn:E.
  apply finishes_bind; [finishes_step|intros _]. apply finishes_set_cli, finishes_at_lift; [|intros; apply finishes_any; finishes_step].
  intros -> w (c' & Hc'). apply split_client_command_stuck in E as [-> E]. left. exists cli. eexists. by split; [exact Hc'|].
Qed.
#[export] Hint Resolve finishes_read_request : finishes.
Lemma finishes_client_on_events stats cli ev : finishes (client_on_events stats cli ev).
Proof. unfold client_on_events, _write_response. finishes_step. Qed.
Lemma finishes_client_after_events cli : finishes (client_after_events cli).
Proof. unfold client_after_events, delete_client. finishes_step. Qed.
#[export] Hint Resolve finishes_client_on_events finishes_client_after_events : finishes.

(** ** Servers *)

Lemma split_server_response_stuck b : split_server_response b = NoFuel -> lengths_ok b = false.
Proof. intros E. pose proof (split_server_response_ends b) as Hl. destruct (lengths_ok b); [|done]. by destruct (Hl eq_refl). Qed.

Lemma finishes_on_remote_responsed c rsp err : finishes (on_remote_responsed c rsp err).
Proof. unfold on_remote_responsed, rsp_get, rsp_set. finishes_step. Qed.
#[export] Hint Resolve finishes_on_remote_responsed : finishes.
Lemma finishes_respond t rsps sent : finishes (respond t rsps sent).
Proof. revert sent. induction rsps as [|r rsps IH]; intros [|[c|] sent]; cbn [respond]; finishes_step. Qed.
#[export] Hint Resolve finishes_respond : finishes.
Lemma finishes_recv_from s : finishes (_recv_from s).
Proof.
  unfold _recv_from. apply finishes_bind; [finishes_step|intros x]. apply finishes_after_read. intros o b Ho.
  apply finishes_set_svr, finishes_at_lift; [by intros|intros n]. case_match; [apply finishes_any; finishes_step|]. apply finishes_at_lift.
  - intros E w (y & Hy). right. left. exists s. eexists. split; [exact Hy|]. by apply split_server_response_stuck.
  - intros [rsps rest]. apply finishes_any. finishes_step.
Qed.
#[export] Hint Resolve finishes_recv_from : finishes.
Lemma finishes_server_on_events s ev : finishes (server_on_events s ev).
Proof. unfold server_on_events, catch_bad. finishes_step. Qed.
#[export] Hint Resolve finishes_server_on_events : finishes.

(** ** Long connections *)

Lemma finishes_conn_fd_long {A} l (k : Z -> W A) : (forall fd, finishes_at (fun w => flushes w fd) (k fd)) -> finishes (conn_fd (CLong l) ≫= k).
Proof.
  intros Hk w. unfold conn_fd, get_long, deref_obj, mbind, M_bind. destruct (w_longs w !! l) as [x|] eqn:E; [|done]. apply Hk.
  right. right. exists l, x. split; [exact E|by left].
Qed.
Lemma finishes_restore l rsp upd : finishes (restore_client l rsp upd).
Proof.
  unfold restore_client. apply finishes_bind; [finishes_step|intros closed]. case_match; [finishes_step|]. apply finishes_conn_fd_long. intros fd.
  apply finishes_at_bind; [apply finishes_write|intros _; finishes_step].
Qed.
#[export] Hint Resolve finishes_restore : finishes.
Lemma finishes_long_error l : finishes (server_conn_on_error l).
Proof. finishes_step. Qed.
#[export] Hint Resolve finishes_long_error : finishes.
Lemma finishes_long_on_events l ev : finishes (long_on_events l ev).
Proof. unfold long_on_events. finishes_step. Qed.
Lemma finishes_blocked_read l b o :
  o <> NoFuel ->
  finishes (set_long l (fun x => x <| long_buffer := b |>) ;;
     n ← lift o;
     if n =? 0 then server_conn_on_error l ;; mret false else
     '(rsps, rest) ← lift (split_server_response b);
     set_long l (fun x => x <| long_buffer := rest |>) ;;
     match rsps with
     | [] => mret false
     | r :: _ =>
       (if server_moved r then restore_client l NIL_STR true else restore_client l (get_buffer r) false) ;; mret true
     end).
Proof.
  intros Ho. apply finishes_set_long, finishes_at_lift; [by intros|intros m]. case_match; [apply finishes_any; finishes_step|]. apply finishes_at_lift.
  - intros E w (y & Hy). right. right. right. left. exists l. eexists. split; [exact Hy|]. by apply split_server_response_stuck.
  - intros [rsps rest]. apply finishes_any. finishes_step.
Qed.
Lemma finishes_subscription l ev : finishes (subscription_server_on_events l ev).
Proof.
  unfold subscription_server_on_events. case_match; [finishes_step|]. apply finishes_bind; [|intros ?; finishes_step]. case_match; [|finishes_step].
  apply finishes_get_at. intros x. apply finishes_at_read; [by intros|]. intros o b Ho. apply finishes_at_lift; [by intros|intros n].
  case_match; [apply finishes_any; finishes_step|]. apply finishes_at_bind; [|intros _; finishes_step].
  intros w Hx. apply finishes_write. right. right. exists l, x. split; [exact Hx|by left].
Qed.
Lemma finishes_long_server_on_events l ev : finishes (long_server_on_events l ev).
Proof.
  unfold long_server_on_events, blocked_server_on_events. apply finishes_bind; [finishes_step|intros x].
  case_match; [apply finishes_subscription|]. case_match; [finishes_step|]. apply finishes_bind; [|intros ?; finishes_step]. case_match; [|finishes_step].
  apply finishes_bind; [finishes_step|intros y]. apply finishes_after_read. intros o b Ho. by apply finishes_blocked_read.
Qed.
#[export] Hint Resolve finishes_long_on_events finishes_long_server_on_events : finishes.

(** ** The proxy *)

Lemma finishes_move_closed : finishes _move_closed_slot_updaters.
Proof. finishes_step. Qed.
Lemma finishes_replace_map nodes : finishes (replace_map nodes).
Proof. unfold replace_map. finishes_step. Qed.
Lemma finishes_slot_map_clear : finishes slot_map_clear.
Proof. unfold slot_map_clear. finishes_step. Qed.
#[export] Hint Resolve finishes_move_closed finishes_replace_map finishes_slot_map_clear : finishes.
Lemma finishes_set_slot_map nodes remotes : finishes (_set_slot_map nodes remotes).
Proof. unfold _set_slot_map. finishes_step. Qed.
#[export] Hint Resolve finishes_set_slot_map : finishes.
Lemma finishes_update_failed : finishes _update_slot_map_failed.
Proof. unfold _update_slot_map_failed. finishes_step. Qed.
#[export] Hint Resolve finishes_update_failed : finishes.
Lemma finishes_notify_updated u : finishes (_notify_updated u).
Proof. unfold _notify_updated, notify_slot_map_updated. finishes_step. Qed.
#[export] Hint Resolve finishes_notify_updated : finishes.

Lemma from_host_port_ends t : from_host_port t <> NoFuel.
Proof. unfold from_host_port. outcome_ends; apply atoi_ends. Qed.
Lemma add_slot_ranges_ends rs l : add_slot_ranges rs l <> NoFuel.
Proof.
  revert rs. induction l as [|r l IH]; intros rs; cbn [add_slot_ranges]; [done|].
  assert (H : add_slot_range rs r <> NoFuel) by (unfold add_slot_range; outcome_ends; apply atoi_ends). outcome_ends. apply IH.
Qed.
Lemma parse_slot_map_ends t h : parse_slot_map t h <> NoFuel.
Proof.
  unfold parse_slot_map. generalize (split_str t (s2b (String LF "")) true). intros l. induction l as [|line l IH]; cbn [parse_lines]; [done|].
  assert (H : parse_line h line <> NoFuel); [|outcome_ends]. unfold parse_line.
  assert (Hn : forall a b c d, parse_node a b c d <> NoFuel).
  { intros. unfold parse_node. outcome_ends; [apply from_host_port_ends|apply add_slot_ranges_ends]. }
  destruct (split_str line _ true) as [|f0 [|f1 [|f2 [|f3 [|f4 [|f5 [|f6 [|f7 ranges]]]]]]]]; try done.
  case_match; [done|]. specialize (Hn f1 f0 f3 ranges). destruct (parse_node f1 f0 f3 ranges); try done. by case_match.
Qed.

Lemma finishes_recv_rsp u : finishes (_recv_rsp u).
Proof.
  unfold _recv_rsp. apply finishes_bind; [finishes_step|intros x]. apply finishes_after_read. intros o b Ho.
  apply finishes_set_upd, finishes_at_lift; [by intros|intros n]. apply finishes_at_lift.
  - intros E w (y & Hy). right. right. left. exists u. eexists. split; [exact Hy|]. by apply split_server_response_stuck.
  - intros [rsps rest]. apply finishes_any. apply finishes_bind; [finishes_step|intros _].
    destruct rsps as [|r [|]]; [finishes_step| |finishes_step]. apply finishes_bind; [apply finishes_lift, parse_slot_map_ends|intros nodes; finishes_step].
Qed.
#[export] Hint Resolve finishes_recv_rsp : finishes.
Lemma finishes_send_cmd u : finishes (_send_cmd u).
Proof.
  unfold _send_cmd. apply finishes_get_at. intros x. apply finishes_at_bind; [|intros _; finishes_step]. intros w Hx. apply finishes_flush. right. left. by exists u, x.
Qed.
#[export] Hint Resolve finishes_send_cmd : finishes.
Lemma finishes_updater_on_events u ev : finishes (updater_on_events u ev).
Proof. unfold updater_on_events, catch_bad. finishes_step. Qed.
Lemma finishes_new_updater addr : finishes (new_updater addr).
Proof. unfold new_updater, on_throw. finishes_step. Qed.
#[export] Hint Resolve finishes_updater_on_events finishes_new_updater : finishes.
Lemma finishes_retrieve : finishes _retrieve_slot_map.
Proof. unfold _retrieve_slot_map. finishes_step. Qed.
Lemma finishes_poll_ctl : finishes poll_ctl.
Proof. unfold poll_ctl. finishes_step. Qed.
Lemma finishes_turn_on : finishes turn_on_accepting.
Proof. unfold turn_on_accepting. finishes_step. Qed.
#[export] Hint Resolve finishes_retrieve finishes_poll_ctl finishes_turn_on : finishes.

(** ** The acceptor *)

(** [accept] has at most as many results as the kernel's script. *)
Definition keeps_accepts {A} (c : W A) : Prop := forall w, k_accepts (w_kern (c w).2) = k_accepts (w_kern w).

Lemma keeps_accepts_bind {A B} (c : W A) (f : A -> W B) : keeps_accepts c -> (forall a, keeps_accepts (f a)) -> keeps_accepts (c ≫= f).
Proof. intros Hc Hf w. specialize (Hc w). unfold mbind, M_bind. destruct (c w) as [[a| | |] w']; [|done..]. by rewrite Hf. Qed.
Lemma keeps_accepts_try {A} (c : W A) h : keeps_accepts c -> (forall e k, h e = Some k -> keeps_accepts k) -> keeps_accepts (try_catch c h).
Proof.
  intros Hc Hh w. specialize (Hc w). unfold try_catch. destruct (c w) as [[a|e|k|] w']; [done| |done..].
  destruct (h e) as [k|] eqn:Ek; [|done]. by rewrite (Hh e k).
Qed.
Lemma keeps_accepts_deref {A} p (store : World -> gmap nat A) i : keeps_accepts (deref_obj p store i).
Proof. intros w. unfold deref_obj. by destruct (store w !! i). Qed.

Ltac keeps_accepts_step :=
  repeat first
    [ apply keeps_accepts_bind; [|intros ?]
    | apply keeps_accepts_deref
    | solve [intros ?; done]
    | case_match
    | apply keeps_accepts_try; [|intros ? ? ?; simplify_eq/=]
    | match goal with |- keeps_accepts ?c => let h := head_of c in progress unfold h end ].

Lemma new_client_accepts fd : keeps_accepts (set_nonblocking fd) /\ keeps_accepts (new_client fd).
Proof. split; keeps_accepts_step. Qed.

Lemma cio_accept_takes w :
  match cio_accept w with
  | (Ret (AccFd _ _), w') => S (length (k_accepts (w_kern w'))) = length (k_accepts (w_kern w))
  | (Ret (AccErr _), _) => True
  | _ => False
  end.
Proof. unfold cio_accept, next_script, gets, set_kern, modify, mbind, M_bind. cbn. by destruct (k_accepts (w_kern w)) as [|[fd c|e] rest]. Qed.

Definition few_accepts (n : nat) (w : World) : Prop := (length (k_accepts (w_kern w)) < n)%nat.

Lemma finishes_accept_loop fuel : finishes_at (few_accepts fuel) (accept_loop fuel).
Proof.
  induction fuel as [|fuel IH]; intros w Hf; [by apply Nat.nlt_0_r in Hf|]. cbn [accept_loop].
  pose proof (cio_accept_takes w) as Ht. unfold mbind at 1, M_bind at 1. destruct (cio_accept w) as [[[fd c|e]| | |] w1]; try done.
  - destruct (0 <? fd); [|done]. revert w1 Ht. assert (H : finishes_at (few_accepts fuel) (set_nonblocking fd ;; _ ← new_client fd; accept_loop fuel)).
    { destruct (new_client_accepts fd) as [Hn Hc]. apply finishes_at_keep; [|finishes_step|intros _]; [intros w2; unfold few_accepts; by rewrite Hn|].
      apply finishes_at_keep; [|finishes_step|done]. intros w2. unfold few_accepts. by rewrite Hc. }
    intros w1 Ht. apply H. unfold few_accepts in *. lia.
  - clear Ht. revert w1. case_match; [|case_match]; [|by intros..].
    match goal with |- forall w, match ?c w with _ => _ end => change (finishes c) end. finishes_step.
Qed.

Lemma finishes_acceptor : finishes acceptor_on_events.
Proof. intros w. apply (finishes_accept_loop _ w). unfold few_accepts. lia. Qed.
#[export] Hint Resolve finishes_acceptor : finishes.

(** ** The turn *)

Lemma finishes_on_events stats c ev : finishes (on_events stats c ev).
Proof. destruct c; cbn [on_events]; finishes_step. Qed.
Lemma finishes_conn_on_error c : finishes (conn_on_error c).
Proof. destruct c; cbn [conn_on_error]; finishes_step. Qed.
Lemma finishes_after_events c active : finishes (after_events c active).
Proof. destruct c; cbn [after_events]; finishes_step. Qed.
#[export] Hint Resolve finishes_on_events finishes_conn_on_error finishes_after_events : finishes.

Lemma finishes_process_events stats events closed active : finishes (process_events stats events closed active).
Proof. revert closed active. induction events as [|[c ev] events IH]; intros closed active; cbn [process_events]; finishes_step. Qed.
Lemma finishes_after_all conns active : finishes (after_all conns active).
Proof. revert active. induction conns as [|c conns IH]; intros active; cbn [after_all]; finishes_step. Qed.
#[export] Hint Resolve finishes_process_events finishes_after_all : finishes.
Lemma finishes_handle_events stats events : finishes (handle_events stats events).
Proof. unfold handle_events. finishes_step. Qed.
#[export] Hint Resolve finishes_handle_events : finishes.

(** C7. A turn of a thread ends.  From any state and whatever the kernel reports and the peers
    send, [thread_turn] returns or throws; the one way not to is to leave the thread in a state
    in which a connection holds bytes with a negative length among them, or a socket of a server,
    an updater or a long connection, which is flushed in a loop, takes nothing more ([blocked]). *)
Theorem turn_ends stats r w : match thread_turn stats r w with (NoFuel, w') => blocked w' | _ => True end.
Proof.
  revert w. change (finishes (thread_turn stats r)). unfold thread_turn. apply finishes_bind; [apply finishes_lift|intros; finishes_step].
  destruct r; [done|]. cbn. by case_match.
Qed.
