(* ===== verification/Order.v ===== *)
(** * Requests are answered in their order

    A client's groups are in its three queues, oldest first: [_ready_groups], then
    [_awaiting_groups], then [_parsed_groups].  Read as one queue, every operation of the
    program is a sequence of steps of a first-in first-out queue on each client, and leaves the
    settings of the process alone. *)
From S2P Require Import Prelude Strings OrderedSet Address SlotCalc Buffer Response SlotMap CommandParser Logic World Kernel Command Server LongConn Client Proxy Concurrence Frames Quiet.
#[local] Open Scope Z_scope.

(** ** The abstract queue *)

Inductive queue_step : list nat -> list nat -> Prop :=
  | enqueue q g : queue_step q (q ++ [g])
  | dequeue g q : queue_step (g :: q) q.

Abbreviation queue_steps := (rtc queue_step).

Lemma dequeue_all q1 q2 : queue_steps (q1 ++ q2) q2.
Proof. induction q1 as [|g q1 IH]; [done|]. eapply rtc_l; [apply dequeue|exact IH]. Qed.

(** The queue a client implements; a place of [_parsed_groups] that was moved from holds nothing. *)
Definition waiting (c : Client) : list nat := _awaiting_groups c ++ omap id (_parsed_groups c).
Definition queue (c : Client) : list nat := _ready_groups c ++ waiting c.

(** ** The relations between the world before and the world after *)

(** No queue changes. *)
Record calm (w w' : World) : Prop := {
  calm_next : (w_next w <= w_next w')%nat;
  calm_settings : settings (w_glob w') = settings (w_glob w);
  calm_clis : forall i, lists <$> (w_clis w' !! i) = lists <$> (w_clis w !! i)
}.

(** A client goes on with its queue or is deleted; its name is not given again. *)
Definition follows (c c' : option Client) : Prop :=
  match c, c' with
  | _, None => True
  | Some c, Some c' => queue_steps (queue c) (queue c')
  | None, Some _ => False
  end.

Record fifo (w w' : World) : Prop := {
  fifo_next : (w_next w <= w_next w')%nat;
  fifo_settings : settings (w_glob w') = settings (w_glob w);
  fifo_clis : forall i, (i < w_next w)%nat -> follows (w_clis w !! i) (w_clis w' !! i)
}.

#[export] Instance calm_preorder : PreOrder calm.
Proof.
  split; [by split|]. intros w1 w2 w3 [N1 S1 C1] [N2 S2 C2]. split; [lia|congruence|]. intros i. by rewrite C2.
Qed.

#[export] Instance fifo_preorder : PreOrder fifo.
Proof.
  split.
  - intros w. split; [done..|]. intros i _. unfold follows. by destruct (w_clis w !! i).
  - intros w1 w2 w3 [N1 S1 C1] [N2 S2 C2]. split; [lia|congruence|]. intros i Hi. specialize (C1 i Hi). specialize (C2 i ltac:(lia)).
    unfold follows in *. destruct (w_clis w1 !! i), (w_clis w2 !! i), (w_clis w3 !! i); try done. by etransitivity.
Qed.

Lemma lists_queue c c' : lists c' = lists c -> queue c' = queue c.
Proof. unfold lists, queue, waiting. congruence. Qed.

Lemma calm_fifo w w' : calm w w' -> fifo w w'.
Proof.
  intros [N S C]. split; [done..|]. intros i _. specialize (C i). unfold follows.
  destruct (w_clis w !! i) as [c|], (w_clis w' !! i) as [c'|]; try done. cbn in C. injection C as ? ? ?. by rewrite (lists_queue c c') by (unfold lists; congruence).
Qed.

(** ** Computations within these relations *)

Lemma still_calm w w' : still w w' -> calm w w'.
Proof.
  intros [N S _ C]. split; [done..|]. intros i. specialize (C i).
  destruct (w_clis w !! i) as [c|], (w_clis w' !! i) as [c'|]; try done. cbn in *. by destruct C as [-> _].
Qed.

Lemma within_still {A} (c : W A) : within still c -> within calm c.
Proof. apply within_mono, still_calm. Qed.
Lemma within_calm {A} (c : W A) : within calm c -> within fifo c.
Proof. apply within_mono, calm_fifo. Qed.

(** What leaves the clients alone. *)
Lemma calm_modify f :
  (forall w, w_clis (f w) = w_clis w) -> (forall w, w_next w <= w_next (f w))%nat -> (forall w, settings (w_glob (f w)) = settings (w_glob w)) ->
  within calm (modify f).
Proof. intros H1 H2 H3. apply within_modify. intros w. split; [done..|]. intros i. by rewrite H1. Qed.

Lemma calm_set_cli i f : (forall c, lists (f c) = lists c) -> within calm (set_cli i f).
Proof.
  intros Hf w. unfold set_cli, get_cli, deref_obj, mbind, M_bind. destruct (w_clis w !! i) as [c|] eqn:Ec; [|done]. cbn. split; [done..|].
  intros j. cbn. destruct (decide (i = j)) as [->|Hne]; [by rewrite lookup_insert_eq, Ec; cbn; rewrite Hf|by rewrite lookup_insert_ne].
Qed.

Lemma fifo_set_cli i f : (forall c, queue_steps (queue c) (queue (f c))) -> within fifo (set_cli i f).
Proof.
  intros Hf w. unfold set_cli, get_cli, deref_obj, mbind, M_bind. destruct (w_clis w !! i) as [c|] eqn:Ec; [|done]. cbn. split; [done..|].
  intros j _. cbn. destruct (decide (i = j)) as [->|Hne].
  - rewrite lookup_insert_eq, Ec. apply Hf.
  - rewrite lookup_insert_ne by done. unfold follows. by destruct (w_clis w !! j).
Qed.

#[export] Hint Extern 2 (within calm (modify _)) => (apply calm_modify; intros ?; solve [done | cbn; lia]) : within.
#[export] Hint Extern 2 (within calm (set_cli _ _)) => (apply calm_set_cli; intros ?; reflexivity) : within.
#[export] Hint Extern 3 (within calm _) => (apply within_still) : within.
#[export] Hint Extern 4 (within fifo _) => (apply within_calm) : within.

(** ** Buffers and groups: the queues are as they were *)

Lemma calm_new_buffer b : within calm (new_buffer b).
Proof. unfold new_buffer. within_step. Qed.
#[export] Hint Resolve calm_new_buffer : within.
Lemma calm_set_buffer i b : within calm (set_buffer i b).
Proof. unfold set_buffer. within_step. Qed.
#[export] Hint Resolve calm_set_buffer : within.
Lemma calm_append_buffer_to g : within calm (append_buffer_to g).
Proof. unfold append_buffer_to, buffer_of_cmd, multi_append_buffer, del_append_buffer, mset_append_buffer. within_step. Qed.
#[export] Hint Resolve calm_append_buffer_to : within.
Lemma calm_delete_group g : within calm (delete_group g).
Proof. unfold delete_group. within_step. Qed.
#[export] Hint Resolve calm_delete_group : within.
Lemma calm_new_command b g cls : within calm (new_command b g cls).
Proof. unfold new_command. within_step. Qed.
#[export] Hint Resolve calm_new_command : within.
Lemma calm_new_commands g cmds : within calm (new_commands g cmds).
Proof. induction cmds as [|[b ks] cmds IH]; cbn [new_commands]; within_step. Qed.
#[export] Hint Resolve calm_new_commands : within.
Lemma calm_make_group stats cli sp : within calm (make_group stats cli sp).
Proof.
  unfold make_group, notify_each_thread_update_slot_map, update_slot_map, new_direct_group, new_single_group, new_multi_group, new_group.
  within_step.
Qed.
#[export] Hint Resolve calm_make_group : within.

(** ** The queues of a client *)

(** Calm computations that never throw, for the loops that stop in the middle otherwise. *)
Definition nothrow {A} (c : W A) : Prop := forall w e w', c w <> (Throw e, w').

Lemma nothrow_bind {A B} (c : W A) (f : A -> W B) : nothrow c -> (forall a, nothrow (f a)) -> nothrow (c ≫= f).
Proof.
  intros Hc Hf w e w'. unfold mbind, M_bind. specialize (Hc w). destruct (c w) as [[a|e'|k|] w1]; try done; [apply Hf|naive_solver].
Qed.

Ltac nothrow_step :=
  repeat first [ solve [auto] | apply nothrow_bind; [|intros ?] | case_match
               | solve [intros ? ? ?; unfold get_cmd, get_grp, get_cli, deref_obj, set_buffer; cbn; by repeat case_match] ].

Lemma nothrow_buffers_of_cmds cs : nothrow (buffers_of_cmds cs).
Proof. induction cs; cbn [buffers_of_cmds]; unfold buffer_of_cmd; nothrow_step. Qed.
Lemma nothrow_append_buffer_to g : nothrow (append_buffer_to g).
Proof.
  pose proof nothrow_buffers_of_cmds. unfold append_buffer_to, buffer_of_cmd, multi_append_buffer, del_append_buffer, mset_append_buffer. nothrow_step.
Qed.
Lemma nothrow_push_ready cli gs : nothrow (push_ready cli gs).
Proof. pose proof nothrow_append_buffer_to. induction gs; cbn [push_ready]; unfold set_cli; nothrow_step. Qed.

(** [set_cli] where the client exists. *)
Lemma set_cli_eq i f c w : w_clis w !! i = Some c -> set_cli i f w = (Ret tt, w <| w_clis ::= <[i := f c]> |>).
Proof. intros Hc. unfold set_cli, get_cli, deref_obj, mbind, M_bind. by rewrite Hc. Qed.

Lemma calm_cli w w' i c : calm w w' -> w_clis w !! i = Some c -> exists c', w_clis w' !! i = Some c' /\ lists c' = lists c.
Proof. intros Hc Hi. pose proof (calm_clis _ _ Hc i) as E. rewrite Hi in E. destruct (w_clis w' !! i) as [c'|]; [|done]. injection E as ? ? ?. exists c'. unfold lists. split; congruence. Qed.

Lemma bind_get_cli (R : World -> World -> Prop) {A} i (k : Client -> W A) w :
  (forall c, w_clis w !! i = Some c -> match k c w with (Ret _, w') | (Throw _, w') => R w w' | _ => True end) ->
  match (get_cli i ≫= k) w with (Ret _, w') | (Throw _, w') => R w w' | _ => True end.
Proof. intros Hk. unfold mbind, M_bind, get_cli, deref_obj. destruct (w_clis w !! i); [by apply Hk|done]. Qed.

Lemma bind_set_cli (R : World -> World -> Prop) {A} i f (k : unit -> W A) w0 w :
  (forall c, w_clis w !! i = Some c ->
    match k tt (w <| w_clis ::= <[i := f c]> |>) with (Ret _, w') | (Throw _, w') => R w0 w' | _ => True end) ->
  match (set_cli i f ≫= k) w with (Ret _, w') | (Throw _, w') => R w0 w' | _ => True end.
Proof.
  intros Hk. unfold mbind at 1, M_bind at 1. destruct (w_clis w !! i) as [c|] eqn:Ec; [by rewrite (set_cli_eq _ _ c _ Ec); apply Hk|].
  unfold set_cli, get_cli, deref_obj, mbind, M_bind. by rewrite Ec.
Qed.

(** The clients other than [cli] keep their queues. *)
Record only (cli : nat) (w w' : World) : Prop := {
  only_next : (w_next w <= w_next w')%nat;
  only_settings : settings (w_glob w') = settings (w_glob w);
  only_clis : forall i, i <> cli -> lists <$> (w_clis w' !! i) = lists <$> (w_clis w !! i)
}.

Lemma calm_only cli w w' : calm w w' -> only cli w w'.
Proof. intros []. by split. Qed.
Lemma only_trans cli w1 w2 w3 : only cli w1 w2 -> only cli w2 w3 -> only cli w1 w3.
Proof. intros [N1 S1 C1] [N2 S2 C2]. split; [lia|congruence|]. intros i Hi. rewrite C2; auto. Qed.
Lemma only_insert cli c w : only cli w (w <| w_clis ::= <[cli := c]> |>).
Proof. split; [done..|]. intros i Hi. cbn. by rewrite lookup_insert_ne. Qed.

Lemma only_fifo cli c c' w w' :
  only cli w w' -> w_clis w !! cli = Some c -> w_clis w' !! cli = Some c' -> queue_steps (queue c) (queue c') -> fifo w w'.
Proof.
  intros [N S C] Hc Hc' Hq. split; [done..|]. intros i _. destruct (decide (i = cli)) as [->|Hi]; [by rewrite Hc, Hc'|].
  specialize (C i Hi). unfold follows. destruct (w_clis w !! i) as [x|], (w_clis w' !! i) as [x'|]; try done.
  cbn in C. injection C as ? ? ?. by rewrite (lists_queue x x') by (unfold lists; congruence).
Qed.

Lemma push_ready_lists cli gs : forall w w' c,
  push_ready cli gs w = (Ret tt, w') -> w_clis w !! cli = Some c ->
  only cli w w' /\ exists c', w_clis w' !! cli = Some c' /\ lists c' = (_ready_groups c ++ gs, _awaiting_groups c, _parsed_groups c).
Proof.
  induction gs as [|g gs IH]; intros w w' c; cbn [push_ready].
  { intros [= <-] Hc. split; [by apply calm_only|]. exists c. by rewrite app_nil_r. }
  unfold mbind at 1, M_bind at 1. pose proof (calm_append_buffer_to g w) as Ha.
  destruct (append_buffer_to g w) as [[bs| | |] w1]; try done. intros Hp Hc.
  destruct (calm_cli _ _ _ _ Ha Hc) as (c1 & Hc1 & Hl). unfold mbind, M_bind in Hp. rewrite (set_cli_eq _ _ c1 _ Hc1) in Hp.
  eapply IH in Hp as (Ho & c' & Hc' & Hl'); [|cbn; apply lookup_insert_eq]. split.
  - eapply only_trans; [by apply calm_only|]. eapply only_trans; [apply only_insert|exact Ho].
  - exists c'. split; [done|]. rewrite Hl'. cbn. unfold lists in Hl. injection Hl as -> -> ->. by rewrite <- app_assoc.
Qed.

Lemma fifo_push_awaitings cli : within fifo (_push_awaitings_to_ready cli).
Proof.
  unfold _push_awaitings_to_ready. intros w. apply bind_get_cli. intros c Ec.
  match goal with |- context [if ?b then _ else _] => destruct b end; [cbn; reflexivity|].
  unfold mbind at 1, M_bind at 1. pose proof (nothrow_push_ready cli (_awaiting_groups c) w) as Hn.
  destruct (push_ready cli (_awaiting_groups c) w) as [[[]|e|k|] w1] eqn:Ep; try done; [|naive_solver].
  destruct (push_ready_lists _ _ _ _ _ Ep Ec) as (Ho & c1 & Hc1 & Hl). apply bind_set_cli.
  rewrite Hc1. intros ? [= <-]. eapply (within_from fifo w).
  { apply (only_fifo cli c (c1 <| _awaiting_groups := [] |>)); [|done|apply lookup_insert_eq|].
    - eapply only_trans; [exact Ho|apply only_insert].
    - unfold lists in Hl. injection Hl as H1 H2 H3. unfold queue. cbn. rewrite H1, H3. by rewrite <- app_assoc. }
  within_step.
Qed.
#[export] Hint Resolve fifo_push_awaitings : within.

(** The groups front_empty over so far: the front of [_parsed_groups] is empty. *)
Definition front_empty (i : nat) (c : Client) : Prop := Forall (fun o => o = None) (take i (_parsed_groups c)).

Lemma omap_none (l : list (option nat)) : Forall (fun o => o = None) l -> omap id l = [].
Proof. induction 1 as [|o l -> _ IH]; [done|exact IH]. Qed.

(** The queue cut in another way behind the ready groups. *)
Definition regrouped (c c' : Client) : Prop :=
  cli_fd c' = cli_fd c /\ cli_output c' = cli_output c /\ _ready_groups c' = _ready_groups c /\ waiting c' = waiting c.

Lemma hand_queue i gi c :
  front_empty i c -> _parsed_groups c !! i = Some (Some gi) ->
  let c' := c <| _awaiting_groups ::= (fun l => l ++ [gi]) |> <| _parsed_groups ::= <[i := None]> |> in
  regrouped c c' /\ front_empty (S i) c'.
Proof.
  intros Hh Hi. cbn. unfold regrouped, waiting, front_empty in *. cbn. pose proof (lookup_lt_Some _ _ _ Hi) as Hlt.
  assert (Hq : omap id (_parsed_groups c) = gi :: omap id (drop (S i) (_parsed_groups c))).
  { rewrite <- (take_drop_middle _ _ _ Hi) at 1. by rewrite omap_app, (omap_none _ Hh). }
  rewrite insert_take_drop by done. rewrite Hq, omap_app, (omap_none _ Hh). split; [cbn; by rewrite <- !app_assoc|].
  rewrite take_app, take_take, Nat.min_r by lia. rewrite length_take_le by lia.
  replace (S i - i)%nat with 1%nat by lia. cbn. apply Forall_app. split; [done|]. by constructor.
Qed.

Lemma drop_front n c : front_empty n c -> regrouped c (c <| _parsed_groups ::= drop n |>).
Proof.
  intros Hh. unfold regrouped, waiting. cbn. split_and!; [done..|].
  rewrite <- (take_drop n (_parsed_groups c)) at 2. by rewrite omap_app, (omap_none _ Hh).
Qed.

(** A computation within [R] that returns [a]. *)
Definition returns (R : World -> World -> Prop) {A} (a : A) (c : W A) : Prop :=
  forall w, match c w with (Ret b, w') => R w w' /\ b = a | (Throw _, w') => R w w' | _ => True end.

Lemma returns_bind R `{!PreOrder R} {A B} (a : A) (c : W B) f : within R c -> (forall b, returns R a (f b)) -> returns R a (c ≫= f).
Proof.
  intros Hc Hf w. specialize (Hc w). unfold mbind, M_bind. destruct (c w) as [[b|e|k|] w1]; try done.
  specialize (Hf b w1). destruct (f b w1) as [[b'|e|k|] w2]; try done; [destruct Hf; split; [|done]|]; by etransitivity.
Qed.

Lemma hand_over_false g cli : returns still false (poll_del (CClient cli) ;; deliver_client g ;; close_conn_fd (CClient cli) ;; mret false).
Proof. repeat (apply returns_bind; [typeclasses eauto|eauto 2 with within nocore|intros _]). intros w. split; reflexivity. Qed.

(** [_process] is within any relation that knows still steps and regrouped queues. *)
Section Process.
Context (R : World -> World -> Prop) `{!PreOrder R} (cli : nat).
Hypothesis R_still : forall w w', still w w' -> R w w'.
Hypothesis R_regrouped : forall w c c', w_clis w !! cli = Some c -> regrouped c c' -> R w (w <| w_clis ::= <[cli := c']> |>).

Lemma process_loop_within n : forall i w,
  (forall c, w_clis w !! cli = Some c -> front_empty i c) ->
  match process_loop cli i n w with
  | (Ret b, w') => R w w' /\ (b = true -> forall c, w_clis w' !! cli = Some c -> front_empty (i + n) c)
  | (Throw _, w') => R w w'
  | _ => True
  end.
Proof using All.
  induction n as [|n IH]; intros i w Hh; cbn [process_loop].
  { split; [reflexivity|]. rewrite Nat.add_0_r. auto. }
  unfold mbind at 1, M_bind at 1, get_cli, deref_obj. destruct (w_clis w !! cli) as [c|] eqn:Ec; [|done].
  destruct (_parsed_groups c !! i) as [[gi|]|] eqn:Ei; [|done..].
  unfold mbind at 1, M_bind at 1, get_grp, deref_obj. destruct (w_grps w !! gi) as [g|]; [|done].
  destruct (long_connection g).
  - pose proof (hand_over_false g cli w) as Hd. match type of Hd with match ?r with _ => _ end => destruct r as [[b|e|k|] w1] end; try done; [|by apply R_still].
    destruct Hd as [Hc ->]. split; [by apply R_still|done].
  - unfold mbind at 1, M_bind at 1.
    assert (Hs : within still (when (wait_remote g) (set_cli cli (fun c => c <| _awaiting_count ::= Z.succ |>) ;; select_remote g))) by within_step.
    specialize (Hs w). destruct (when _ _ w) as [[[]|e|k|] w1]; try done; [|by apply R_still].
    destruct (calm_cli _ _ _ _ (still_calm _ _ Hs) Ec) as (c1 & Hc1 & Hl). unfold lists in Hl. injection Hl as H1 H2 H3.
    unfold mbind, M_bind. rewrite (set_cli_eq _ _ c1 _ Hc1). set (w2 := w1 <| w_clis ::= _ |>).
    assert (Hh1 : front_empty i c1) by (unfold front_empty; rewrite H3; by apply (Hh c)). rewrite <- H3 in Ei.
    destruct (hand_queue i gi c1 Hh1 Ei) as [Hq Hh2].
    assert (Hf : R w w2) by (etransitivity; [by apply R_still|by eapply R_regrouped]).
    specialize (IH (S i) w2). destruct (process_loop cli (S i) n w2) as [[b|e|k|] w3]; try done.
    + destruct IH as [Hf2 Hb]; [intros c2; cbn; rewrite lookup_insert_eq; by intros [= <-]|]. split; [by etransitivity|].
      rewrite <- Nat.add_succ_comm. exact Hb.
    + etransitivity; [exact Hf|]. apply IH. intros c2. cbn. rewrite lookup_insert_eq. by intros [= <-].
Qed.

Lemma process_within : within R (_push_awaitings_to_ready cli) -> within R (_process cli).
Proof using All.
  intros Hpush w. unfold _process. apply bind_get_cli. intros c Ec. set (n := Z.to_nat _). unfold mbind at 1, M_bind at 1.
  pose proof (process_loop_within n 0 w) as Hp. destruct (process_loop cli 0 n w) as [[b|e|k|] w1]; try done.
  - destruct Hp as [Hf Hb]; [intros c0 _; constructor|]. destruct b; cbn [negb]; [|exact Hf].
    apply bind_set_cli. intros c1 Ec1. eapply (within_from R w).
    + etransitivity; [exact Hf|]. eapply R_regrouped; [exact Ec1|]. by apply drop_front, Hb.
    + apply within_bind; [done|apply within_deref; done|intros c2]. case_match; [|done].
      eapply within_mono; [exact R_still|]. within_step.
  - apply Hp. intros c0 _. constructor.
Qed.
End Process.

Lemma fifo_process cli : within fifo (_process cli).
Proof.
  apply process_within; [typeclasses eauto|by intros; apply calm_fifo, still_calm| |within_step].
  intros w c c' Hc (_ & _ & Hr & Hw). eapply only_fifo; [apply only_insert|exact Hc|apply lookup_insert_eq|].
  assert (queue c' = queue c) as ->; [|done]. unfold queue. by rewrite Hr, Hw.
Qed.
#[export] Hint Resolve fifo_process : within.

Lemma fifo_push_commands stats cli sps : within fifo (push_commands stats cli sps).
Proof.
  induction sps as [|sp sps IH]; cbn [push_commands]; [within_step|].
  apply within_bind; [typeclasses eauto|within_step|intros g]. apply within_bind; [typeclasses eauto| |intros _; exact IH].
  apply fifo_set_cli. intros c. unfold queue, waiting. cbn. rewrite omap_app, !app_assoc. apply rtc_once, enqueue.
Qed.
#[export] Hint Resolve fifo_push_commands : within.

Lemma fifo_sent cli : within fifo (set_cli cli (fun c => c <| _ready_groups := [] |>)).
Proof. apply fifo_set_cli. intros c. apply dequeue_all. Qed.
#[export] Hint Resolve fifo_sent : within.

Lemma fifo_send_buffer_set cli : within fifo (_send_buffer_set cli).
Proof. unfold _send_buffer_set. within_step. Qed.
#[export] Hint Resolve fifo_send_buffer_set : within.
Lemma fifo_client_on_events stats cli ev : within fifo (client_on_events stats cli ev).
Proof. unfold client_on_events, _write_response, _read_request. within_step. Qed.

Lemma fifo_delete_name cli : within fifo (modify (fun w => w <| w_clis ::= delete cli |>)).
Proof.
  apply within_modify. intros w. split; [done..|]. intros i _. cbn. destruct (decide (cli = i)) as [->|Hne].
  - rewrite lookup_delete_eq. by destruct (w_clis w !! i).
  - rewrite lookup_delete_ne by done. unfold follows. by destruct (w_clis w !! i).
Qed.
#[export] Hint Resolve fifo_client_on_events fifo_delete_name : within.
Lemma fifo_client_after_events cli : within fifo (client_after_events cli).
Proof. unfold client_after_events, delete_client. within_step. Qed.
#[export] Hint Resolve fifo_client_after_events : within.

(** A new client has a new name. *)
Lemma fifo_fresh_cli {A} x (k : nat -> W A) :
  (forall i, within fifo (k i)) -> within fifo (i ← fresh; modify (fun w => w <| w_clis ::= <[i := x]> |>) ;; k i).
Proof.
  intros Hk w. unfold fresh, gets, modify, mbind, M_bind. cbn. eapply (within_from fifo w); [|apply Hk].
  split; cbn; [lia|done|]. intros i Hi. rewrite lookup_insert_ne by (unfold id in *; lia). unfold follows. by destruct (w_clis w !! i).
Qed.

Lemma fifo_new_client fd : within fifo (new_client fd).
Proof. apply fifo_fresh_cli. intros i. within_step. Qed.
#[export] Hint Resolve fifo_new_client : within.

(** ** Responses *)

Lemma fifo_command_responsed g : within fifo (command_responsed g).
Proof. unfold command_responsed, single_command_responsed, multi_command_responsed, group_responsed. within_step. Qed.
#[export] Hint Resolve fifo_command_responsed : within.
Lemma fifo_on_remote_responsed c rsp err : within fifo (on_remote_responsed c rsp err).
Proof. unfold on_remote_responsed, rsp_get, rsp_set, rename_goto, answer, responsed. within_step. Qed.
#[export] Hint Resolve fifo_on_remote_responsed : within.
Lemma fifo_respond t rsps sent : within fifo (respond t rsps sent).
Proof.
  revert sent. induction rsps as [|r rsps IH]; intros [|[c|] sent]; cbn [respond]; unfold rsp_to, retry_move_ask_command_later; within_step; auto.
Qed.
#[export] Hint Resolve fifo_respond : within.
Lemma fifo_server_on_events s ev : within fifo (server_on_events s ev).
Proof. unfold server_on_events, catch_bad, _recv_from. within_step. Qed.
#[export] Hint Resolve fifo_server_on_events : within.

(** ** Long connections and the proxy *)

Lemma fifo_restore_client l rsp upd : within fifo (restore_client l rsp upd).
Proof. unfold restore_client, update_slot_map. within_step. Qed.
#[export] Hint Resolve fifo_restore_client : within.
Lemma fifo_server_conn_on_error l : within fifo (server_conn_on_error l).
Proof. unfold server_conn_on_error. within_step. Qed.
#[export] Hint Resolve fifo_server_conn_on_error : within.
Lemma fifo_long_on_events l ev : within fifo (long_on_events l ev).
Proof. unfold long_on_events. within_step. Qed.
Lemma fifo_long_server_on_events l ev : within fifo (long_server_on_events l ev).
Proof. unfold long_server_on_events, subscription_server_on_events, blocked_server_on_events. within_step. Qed.
#[export] Hint Resolve fifo_long_on_events fifo_long_server_on_events : within.

Lemma fifo_update_failed : within fifo _update_slot_map_failed.
Proof. unfold _update_slot_map_failed. within_step. Qed.
#[export] Hint Resolve fifo_update_failed : within.
Lemma fifo_notify_updated u : within fifo (_notify_updated u).
Proof. unfold _notify_updated, notify_slot_map_updated. within_step. Qed.
#[export] Hint Resolve fifo_notify_updated : within.
Lemma fifo_updater_on_events u ev : within fifo (updater_on_events u ev).
Proof. unfold updater_on_events, _send_cmd, _recv_rsp, catch_bad. within_step. Qed.
#[export] Hint Resolve fifo_updater_on_events : within.
Lemma fifo_retrieve : within fifo _retrieve_slot_map.
Proof. unfold _retrieve_slot_map. within_step. Qed.
Lemma fifo_accept_loop fuel : within fifo (accept_loop fuel).
Proof. induction fuel; cbn [accept_loop]; within_step. Qed.
#[export] Hint Resolve fifo_retrieve fifo_accept_loop : within.

Lemma fifo_on_events stats c ev : within fifo (on_events stats c ev).
Proof. destruct c; cbn [on_events]; unfold acceptor_on_events; within_step. Qed.
Lemma fifo_conn_on_error c : within fifo (conn_on_error c).
Proof. destruct c; cbn [conn_on_error]; within_step. Qed.
#[export] Hint Resolve fifo_on_events fifo_conn_on_error : within.
Lemma fifo_process_events stats events closed active : within fifo (process_events stats events closed active).
Proof. revert closed active. induction events as [|[c ev] events IH]; intros; cbn [process_events]; within_step. Qed.
Lemma fifo_after_events c active : within fifo (after_events c active).
Proof.
  destruct c; cbn [after_events]; unfold server_after_events, long_after_events, long_server_after_events, update_slot_map; within_step.
Qed.
#[export] Hint Resolve fifo_process_events fifo_after_events : within.
Lemma fifo_after_all conns active : within fifo (after_all conns active).
Proof. revert active. induction conns; intros; cbn [after_all]; within_step. Qed.
#[export] Hint Resolve fifo_after_all : within.

Lemma fifo_handle_events stats events : within fifo (handle_events stats events).
Proof. unfold handle_events, delete_updater. within_step. Qed.
#[export] Hint Resolve fifo_handle_events : within.
Lemma fifo_thread_turn stats r : within fifo (thread_turn stats r).
Proof. unfold thread_turn. within_step. Qed.
