(* ===== verification/Output.v ===== *)
(** * What a client is sent

    The bytes pending for a client are those of the responses of its ready groups.  [Good]: the
    buffers of different commands and groups are different, the queues of the clients share no
    group, and the output of each client that is open is the end of what its ready groups have
    appended.  [streams]: from one state to a later one, bytes leave a client's output at its front
    and the responses of its next groups, in the order of the requests, join it at its end; nothing
    else changes it.  Here are the operations for which this needs no more than [Good]; an answer
    to a command also needs that its group is not ready yet. *)
From S2P Require Import Prelude Strings OrderedSet Address SlotCalc Buffer Response SlotMap CommandParser Logic World Kernel Command Server LongConn Client Proxy Concurrence Frames Quiet Order.
#[local] Open Scope Z_scope.

(** ** Responses *)

Definition class_commands (cls : GroupClass) : list nat :=
  match cls with
  | DirectCommandGroup c | SingleCommandGroup c => [c]
  | MultipleCommandsGroup _ _ cs _ => cs
  | Subscribe _ | BlockedPop _ _ => []
  end.

Definition class_payload (cls : GroupClass) : option buf_id :=
  match cls with MultipleCommandsGroup _ p _ _ => Some p | _ => None end.

(** The buffers that make up the response of a group, given those of the commands. *)
Definition class_bufs (cm : gmap nat buf_id) (cls : GroupClass) : list buf_id :=
  match cls with
  | DirectCommandGroup c | SingleCommandGroup c => [default RSP_OK (cm !! c)]
  | MultipleCommandsGroup MGetGroup p cs _ => p :: ((fun c => default RSP_OK (cm !! c)) <$> cs)
  | MultipleCommandsGroup DelGroup p _ _ => [p]
  | MultipleCommandsGroup MSetGroup _ _ _ => [RSP_OK]
  | Subscribe _ | BlockedPop _ _ => []
  end.

Definition group_bufs (m : mem) (g : nat) : list buf_id :=
  match m_grps m !! g with Some cls => class_bufs (m_cmds m) cls | None => [] end.

Definition response (w : World) (g : nat) : bytes := concat (content (w_bufs w) <$> group_bufs (mem_of w) g).

(** ** The invariant *)

Record Bufs (m : mem) (n : nat) : Prop := {
  bf_pos : (0 < n)%nat;
  bf_cmd c b : m_cmds m !! c = Some b -> (c < n /\ 0 < b < n)%nat;
  bf_cmd_inj c c' b : m_cmds m !! c = Some b -> m_cmds m !! c' = Some b -> c = c';
  bf_grp g cls : m_grps m !! g = Some cls -> (g < n)%nat;
  bf_members g cls c : m_grps m !! g = Some cls -> c ∈ class_commands cls -> (c < n)%nat;
  bf_own g g' cls cls' c : m_grps m !! g = Some cls -> m_grps m !! g' = Some cls' ->
    c ∈ class_commands cls -> c ∈ class_commands cls' -> g = g';
  bf_pay g cls p : m_grps m !! g = Some cls -> class_payload cls = Some p -> (0 < p < n)%nat;
  bf_pay_inj g g' cls cls' p : m_grps m !! g = Some cls -> m_grps m !! g' = Some cls' ->
    class_payload cls = Some p -> class_payload cls' = Some p -> g = g';
  bf_pay_cmd g cls p c : m_grps m !! g = Some cls -> class_payload cls = Some p -> m_cmds m !! c <> Some p
}.

Record Queues (w : World) : Prop := {
  qs_names i : is_Some (w_clis w !! i) -> (i < w_next w)%nat;
  qs_range i c g : w_clis w !! i = Some c -> g ∈ queue c -> (g < w_next w)%nat;
  qs_nodup i c : w_clis w !! i = Some c -> NoDup (queue c);
  qs_disj i j c c' g : w_clis w !! i = Some c -> w_clis w !! j = Some c' -> g ∈ queue c -> g ∈ queue c' -> i = j
}.

(** The output of an open client; [hole] is one whose output is of no interest any more. *)
Definition out_ok (w : World) (c : Client) : Prop :=
  bufset_wf (w_bufs w) (cli_output c) /\
  exists sent, sent ++ _buf_arr (cli_output c) = concat (group_bufs (mem_of w) <$> _ready_groups c).

Definition Outs (hole : option nat) (w : World) : Prop :=
  forall i c, w_clis w !! i = Some c -> hole <> Some i -> cli_fd c <> -1 -> out_ok w c.

Record Good (hole : option nat) (w : World) : Prop := {
  gd_bufs : Bufs (mem_of w) (w_next w);
  gd_queues : Queues w;
  gd_outs : Outs hole w
}.

(** ** The relation *)

(** The ready groups of a client, with their responses. *)
Definition answers (w : World) (c : Client) : list (nat * bytes) := (fun g => (g, response w g)) <$> _ready_groups c.

(** From [c] in the state [w] to [c'] in [w']: [acc] left the output, [evs] are the groups that became
    ready with their responses, [gone] those that were deleted, and [new] the new requests. *)
Definition streamed (w : World) (c : Client) (w' : World) (c' : Client) : Prop :=
  exists (acc : bytes) (evs gone : list (nat * bytes)) (new : list nat),
    acc ++ pending (w_bufs w') (cli_output c') = pending (w_bufs w) (cli_output c) ++ concat evs.*2 /\
    gone ++ answers w' c' = answers w c ++ evs /\
    waiting c ++ new = evs.*1 ++ waiting c'.

Record streams (hole : option nat) (w w' : World) : Prop := {
  sr_next : (w_next w <= w_next w')%nat;
  sr_clis i c' : (i < w_next w)%nat -> w_clis w' !! i = Some c' ->
    exists c, w_clis w !! i = Some c /\
      (hole <> Some i -> cli_fd c' <> -1 -> cli_fd c <> -1 /\ streamed w c w' c')
}.

Definition good (hole : option nat) (w w' : World) : Prop := Good hole w -> Good hole w' /\ streams hole w w'.

Lemma streamed_same w c w' c' :
  pending (w_bufs w') (cli_output c') = pending (w_bufs w) (cli_output c) -> answers w' c' = answers w c ->
  waiting c' = waiting c -> streamed w c w' c'.
Proof. intros Hp Ha Hw. exists [], [], [], []. cbn. by rewrite Hp, Ha, Hw, !app_nil_r. Qed.

Lemma streamed_trans w1 c1 w2 c2 w3 c3 : streamed w1 c1 w2 c2 -> streamed w2 c2 w3 c3 -> streamed w1 c1 w3 c3.
Proof.
  intros (a1 & e1 & g1 & n1 & P1 & A1 & W1) (a2 & e2 & g2 & n2 & P2 & A2 & W2). exists (a1 ++ a2), (e1 ++ e2), (g1 ++ g2), (n1 ++ n2).
  rewrite !fmap_app, concat_app. split_and!.
  - by rewrite <- app_assoc, P2, app_assoc, P1, <- app_assoc.
  - by rewrite <- app_assoc, A2, app_assoc, A1, <- app_assoc.
  - by rewrite app_assoc, W1, <- app_assoc, W2, app_assoc.
Qed.

Lemma answers_mem w w' c c' : mem_of w' = mem_of w -> _ready_groups c' = _ready_groups c -> answers w' c' = answers w c.
Proof. intros M Hr. unfold answers, response. assert (Mb : w_bufs w' = w_bufs w) by (by injection M). by rewrite Hr, M, Mb. Qed.

#[export] Instance streams_preorder hole : PreOrder (streams hole).
Proof.
  split.
  - intros w. split; [done|]. intros i c' _ Hc. exists c'. split; [done|]. intros _ Hf. split; [done|by apply streamed_same].
  - intros w1 w2 w3 [N1 C1] [N2 C2]. split; [lia|]. intros i c3 Hi H3. destruct (C2 i c3 ltac:(lia) H3) as (c2 & H2 & S2).
    destruct (C1 i c2 Hi H2) as (c1 & H1 & S1). exists c1. split; [done|]. intros Hh Hf.
    destruct (S2 Hh Hf) as [Hf2 S2']. destruct (S1 Hh Hf2) as [Hf1 S1']. split; [done|by eapply streamed_trans].
Qed.

#[export] Instance good_preorder hole : PreOrder (good hole).
Proof.
  split; [intros w Hw; by split|]. intros w1 w2 w3 H1 H2 Hw. destruct (H1 Hw) as [G2 S2]. destruct (H2 G2) as [G3 S3].
  split; [done|by etransitivity].
Qed.

(** ** Still operations *)

Lemma still_queues w w' : still w w' -> Queues w -> Queues w'.
Proof.
  intros [N S M C] [Q1 Q2 Q3 Q4].
  assert (Hc : forall i c', w_clis w' !! i = Some c' -> exists c, w_clis w !! i = Some c /\ queue c' = queue c).
  { intros i c' Hi. specialize (C i). rewrite Hi in C. destruct (w_clis w !! i) as [c|]; [|done]. exists c. split; [done|by apply lists_queue, C]. }
  split.
  - intros i [c' (c & Hi & _)%Hc]. specialize (Q1 i ltac:(eauto)). lia.
  - intros i c' g (c & Hi & ->)%Hc Hg. specialize (Q2 i c g Hi Hg). lia.
  - intros i c' (c & Hi & ->)%Hc. eauto.
  - intros i j c1 c2 g (c & Hi & ->)%Hc (c' & Hj & ->)%Hc. eauto.
Qed.

Lemma lists_waiting c c' : lists c' = lists c -> waiting c' = waiting c.
Proof. unfold lists, waiting. congruence. Qed.

Lemma bufs_next m n n' : Bufs m n -> (n <= n')%nat -> Bufs m n'.
Proof.
  intros [B0 B1 B2 B3 B4 B5 B6 B7 B8] Hn. split; try done; [lia|..].
  - intros c b Hc%B1. lia.
  - intros g cls Hg%B3. lia.
  - intros g cls c Hg Hc. specialize (B4 g cls c Hg Hc). lia.
  - intros g cls p Hg Hp. specialize (B6 g cls p Hg Hp). lia.
Qed.

Lemma still_good hole w w' : still w w' -> good hole w w'.
Proof.
  intros Hs [B Q O]. pose proof Hs as [N S M C]. assert (Mb : w_bufs w' = w_bufs w) by (by injection M).
  split; [split|].
  - rewrite M. by eapply bufs_next.
  - by eapply still_queues.
  - intros i c' Hi Hh Hf. specialize (C i). rewrite Hi in C. destruct (w_clis w !! i) as [c|] eqn:Ec; [|done].
    destruct C as (Cl & Co & Cf). destruct (O i c Ec Hh) as [H1 H2]; [intuition congruence|]. injection Cl as E1 _ _.
    split; [by rewrite Mb, Co|]. by rewrite M, Co, E1.
  - split; [done|]. intros i c' _ Hi. specialize (C i). rewrite Hi in C. destruct (w_clis w !! i) as [c|] eqn:Ec; [|done].
    destruct C as (Cl & Co & Cf). exists c. split; [done|]. intros _ Hf. split; [intuition congruence|].
    apply streamed_same; [by rewrite Mb, Co|apply answers_mem; [done|by injection Cl]|by apply lists_waiting].
Qed.

Lemma good_still hole {A} (c : W A) : within still c -> within (good hole) c.
Proof. apply within_mono, still_good. Qed.
#[export] Hint Extern 4 (within (good _) _) => (apply good_still) : within.

(** ** A client's queue moves on *)

Lemma out_ok_same w w' c c' :
  mem_of w' = mem_of w -> cli_output c' = cli_output c -> _ready_groups c' = _ready_groups c -> out_ok w c -> out_ok w' c'.
Proof. intros M Ho Hr [H1 H2]. assert (Mb : w_bufs w' = w_bufs w) by (by injection M). split; [by rewrite Mb, Ho|by rewrite M, Ho, Hr]. Qed.

(** One client changes: what [Good] and [streams] need of it. *)
Lemma good_one hole i c c' w w' :
  w_clis w !! i = Some c -> w_clis w' = <[i := c']> (w_clis w) -> mem_of w' = mem_of w -> w_next w' = w_next w -> Good hole w ->
  (forall g, g ∈ queue c' -> (g < w_next w)%nat /\ forall j x, w_clis w !! j = Some x -> g ∈ queue x -> j = i) -> NoDup (queue c') ->
  (hole <> Some i -> cli_fd c' <> -1 -> cli_fd c <> -1 /\ out_ok w' c' /\ streamed w c w' c') -> Good hole w' /\ streams hole w w'.
Proof.
  intros Hi Ec M N [B [Q1 Q2 Q3 Q4] O] Hq Hnd Hs. assert (Mb : w_bufs w' = w_bufs w) by (by injection M).
  assert (Hl : forall j x, w_clis w' !! j = Some x -> j = i /\ x = c' \/ j <> i /\ w_clis w !! j = Some x).
  { intros j x. rewrite Ec, lookup_insert_Some. naive_solver. }
  split; [split; [by rewrite M, N|split|]|split]; rewrite ?N; try done.
  - intros j [x [[-> _]|[_ Hx]]%Hl]; apply Q1; eauto.
  - intros j x g [[-> ->]|[_ Hx]]%Hl; [by apply Hq|eauto].
  - intros j x [[-> ->]|[_ Hx]]%Hl; eauto.
  - intros j k x y g [[-> ->]|[_ Hx]]%Hl [[-> ->]|[_ Hy]]%Hl G1 G2; [done| | |eauto].
    + symmetry. by eapply (Hq g).
    + by eapply (Hq g).
  - intros j x [[-> ->]|[Hne Hx]]%Hl Hh Hf; [by apply Hs|]. eapply out_ok_same; [done..|by eapply O].
  - intros j x _ [[-> ->]|[Hne Hx]]%Hl.
    + exists c. split; [done|]. intros Hh Hf. destruct (Hs Hh Hf) as (? & _ & ?). done.
    + exists x. split; [done|]. intros _ Hf. split; [done|]. apply streamed_same; [by rewrite Mb|by apply answers_mem|done].
Qed.

(** The queue is the same, cut in another way behind the ready groups. *)
Lemma good_requeue hole i c c' w :
  w_clis w !! i = Some c -> cli_fd c' = cli_fd c -> cli_output c' = cli_output c -> _ready_groups c' = _ready_groups c ->
  waiting c' = waiting c -> good hole w (w <| w_clis ::= <[i := c']> |>).
Proof.
  intros Hi Hfd Ho Hr Hw HG. assert (Hq : queue c' = queue c) by (unfold queue, waiting in *; by rewrite Hr, Hw).
  eapply (good_one hole i c c'); try done.
  - intros g. rewrite Hq. intros Hg. destruct (gd_queues _ _ HG) as [_ Q2 _ Q4]. split; [by eapply Q2|]. intros j x Hx Hgx. by eapply Q4.
  - rewrite Hq. by eapply qs_nodup; [apply HG|].
  - intros Hh Hf. split; [congruence|]. split; [eapply out_ok_same; [done..|]; eapply (gd_outs _ _ HG); [done..|congruence]|].
    apply streamed_same; [by rewrite Ho|by apply answers_mem|done].
Qed.

(** ** New groups *)

(** A run that returns with [Q], and does not throw. *)
Definition runs {A} (c : W A) (w : World) (Q : A -> World -> Prop) : Prop :=
  match c w with (Ret a, w') => Q a w' | (Throw _, _) => False | _ => True end.

Lemma runs_bind {A B} (c : W A) (f : A -> W B) w Q : runs c w (fun a w' => runs (f a) w' Q) -> runs (c ≫= f) w Q.
Proof. unfold runs, mbind, M_bind. by destruct (c w) as [[] ?]. Qed.

Lemma runs_now w (Q : Time -> World -> Prop) : (forall t k, Q t (w <| w_kern := k |>)) -> runs now w Q.
Proof.
  intros HQ. assert (HQ' : forall t, Q t w) by (intros t; specialize (HQ t (w_kern w)); by destruct w).
  unfold runs, now, mbind, M_bind, gets. destruct (k_clock (w_kern w)) as [|t [|t' l]]; [apply HQ'..|]. apply HQ.
Qed.

Lemma runs_fresh w (Q : nat -> World -> Prop) : Q (w_next w) (w <| w_next := S (w_next w) |>) -> runs fresh w Q.
Proof. done. Qed.

Lemma runs_new_buffer b w (Q : buf_id -> World -> Prop) :
  Q (w_next w) (w <| w_next := S (w_next w) |> <| w_bufs ::= <[w_next w := b]> |>) -> runs (new_buffer b) w Q.
Proof. done. Qed.

(** Commands are added; [n] was the next name. *)
Record added (n : nat) (m m' : mem) (n' : nat) : Prop := {
  ad_next : (n <= n')%nat;
  ad_bufs b : (b < n)%nat -> m_bufs m' !! b = m_bufs m !! b;
  ad_cmds c : (c < n)%nat -> m_cmds m' !! c = m_cmds m !! c;
  ad_grps : m_grps m' = m_grps m;
  ad_new c b : (n <= c)%nat -> m_cmds m' !! c = Some b -> (c < n' /\ n <= b < n')%nat;
  ad_inj c c' b : (n <= c)%nat -> (n <= c')%nat -> m_cmds m' !! c = Some b -> m_cmds m' !! c' = Some b -> c = c'
}.

Lemma added_refl m n : Bufs m n -> added n m m n.
Proof. intros B. split; try done; intros c b; [intros Hn Hc%(bf_cmd _ _ B)|intros b' Hn _ Hc%(bf_cmd _ _ B)]; lia. Qed.

Lemma runs_new_command n m b g cls w (Q : nat -> World -> Prop) :
  added n m (mem_of w) (w_next w) ->
  (forall c w', added n m (mem_of w') (w_next w') -> (w_next w <= c < w_next w')%nat -> w_clis w' = w_clis w -> w_grps w' = w_grps w -> Q c w') ->
  runs (new_command b g cls) w Q.
Proof.
  intros [A1 A2 A3 A4 A5 A6] HQ. set (k := w_next w) in *.
  assert (Hk : forall c x, <[S k := k]> (m_cmds (mem_of w)) !! c = Some x -> c = S k /\ x = k \/ c <> S k /\ m_cmds (mem_of w) !! c = Some x).
  { intros c x. rewrite lookup_insert_Some. naive_solver. }
  apply (HQ (S k) _); [|cbn in *; lia|done..]. split; cbn; fold k; rewrite ?fmap_insert; cbn.
  - lia.
  - intros b' Hb. rewrite lookup_insert_ne by lia. by apply A2.
  - intros c Hc. rewrite lookup_insert_ne by lia. by apply A3.
  - exact A4.
  - intros c x Hn [[-> ->]|[_ Hx]]%Hk; [lia|]. specialize (A5 c x Hn Hx). lia.
  - intros c c' x Hn Hn' [[-> ->]|[Hc Hx]]%Hk [[-> Ex]|[Hc' Hx']]%Hk; [done|..].
    + specialize (A5 _ _ Hn' Hx'). lia.
    + subst x. specialize (A5 _ _ Hn Hx). lia.
    + eauto.
Qed.

Lemma runs_new_commands n m g cmds w (Q : list nat -> World -> Prop) :
  added n m (mem_of w) (w_next w) ->
  (forall cs w', added n m (mem_of w') (w_next w') -> (w_next w <= w_next w')%nat -> (forall c, c ∈ cs -> w_next w <= c < w_next w')%nat ->
    w_clis w' = w_clis w -> w_grps w' = w_grps w -> Q cs w') ->
  runs (new_commands g cmds) w Q.
Proof.
  revert w Q. induction cmds as [|[b ks] cmds IH]; intros w Q HA HQ; cbn [new_commands].
  { apply HQ; [done|done| |done..]. by intros c []%elem_of_nil. }
  apply runs_bind. eapply runs_new_command; [exact HA|]. intros c w1 HA1 Hc Ec Eg.
  apply runs_bind. apply IH; [done|]. intros cs w2 HA2 Hn Hcs Ec2 Eg2. apply HQ; [done|lia| |congruence..].
  intros c' [->|Hc'%Hcs]%elem_of_cons; lia.
Qed.

(** A group of new commands, with a new payload if it has one. *)
Lemma bufs_group m0 n0 m1 n1 m2 n2 g cls :
  Bufs m0 n0 -> (n0 <= n1)%nat -> m_cmds m1 = m_cmds m0 -> m_grps m1 = m_grps m0 -> added n1 m1 m2 n2 -> (n0 <= g < n1)%nat ->
  (forall c, c ∈ class_commands cls -> (n1 <= c < n2)%nat) -> (forall p, class_payload cls = Some p -> (n0 <= p < n1 /\ 0 < p)%nat) ->
  Bufs (mkMem (m_bufs m2) (m_cmds m2) (<[g := cls]> (m_grps m2))) n2.
Proof.
  intros [B0 B1 B2 B3 B4 B5 B6 B7 B8] Hn E1 E2 [A1 A2 A3 A4 A5 A6] Hg Hc Hp.
  assert (Hcm : forall c b, m_cmds m2 !! c = Some b -> (c < n1)%nat /\ m_cmds m0 !! c = Some b \/ (n1 <= c)%nat).
  { intros c b Hb. destruct (decide (c < n1)%nat); [left|right; lia]. split; [done|]. by rewrite <- E1, <- A3. }
  assert (Hgm : forall h k, <[g := cls]> (m_grps m2) !! h = Some k -> h = g /\ k = cls \/ h <> g /\ (h < n0)%nat /\ m_grps m0 !! h = Some k).
  { intros h k. rewrite A4, E2, lookup_insert_Some. intros [[<- <-]|[Hne Hk]]; [by left|right; eauto]. }
  split; cbn.
  - lia.
  - intros c b Hb. destruct (Hcm c b Hb) as [[_ Hb0%B1]|Hge]; [lia|]. specialize (A5 c b Hge Hb). lia.
  - intros c c' b Hb Hb'. destruct (Hcm _ _ Hb) as [[L K]|L], (Hcm _ _ Hb') as [[L' K']|L']; [eauto| | |by eapply A6].
    + apply B1 in K. specialize (A5 _ _ L' Hb'). lia.
    + apply B1 in K'. specialize (A5 _ _ L Hb). lia.
  - intros h k [[-> _]|(_ & ? & _)]%Hgm; lia.
  - intros h k c [[-> ->]|(_ & _ & Hk)]%Hgm Hin; [by apply Hc|]. specialize (B4 _ _ _ Hk Hin). lia.
  - intros h h' k k' c [[-> ->]|(_ & L & Hk)]%Hgm [[-> ->]|(_ & L' & Hk')]%Hgm Hin Hin'; [done| | |by eapply B5].
    + apply Hc in Hin. specialize (B4 _ _ _ Hk' Hin'). lia.
    + apply Hc in Hin'. specialize (B4 _ _ _ Hk Hin). lia.
  - intros h k p [[-> ->]|(_ & _ & Hk)]%Hgm Hpp; [apply Hp in Hpp; lia|]. specialize (B6 _ _ _ Hk Hpp). lia.
  - intros h h' k k' p [[-> ->]|(_ & L & Hk)]%Hgm [[-> ->]|(_ & L' & Hk')]%Hgm Hpp Hpp'; [done| | |by eapply B7].
    + apply Hp in Hpp. specialize (B6 _ _ _ Hk' Hpp'). lia.
    + apply Hp in Hpp'. specialize (B6 _ _ _ Hk Hpp). lia.
  - intros h k p c [[-> ->]|(_ & _ & Hk)]%Hgm Hpp Hb.
    + apply Hp in Hpp. destruct (Hcm _ _ Hb) as [[_ K%B1]|L]; [lia|]. specialize (A5 _ _ L Hb). lia.
    + destruct (Hcm _ _ Hb) as [[_ K]|L]; [by eapply B8|]. specialize (A5 _ _ L Hb). specialize (B6 _ _ _ Hk Hpp). lia.
Qed.

(** ** New groups are of no one yet *)

(** What is there below the next name stays; a new group [g] is built. *)
Record builds (g : nat) (w w' : World) : Prop := {
  bd_group : (w_next w <= g < w_next w')%nat;
  bd_clis : w_clis w' = w_clis w;
  bd_cells b : (b < w_next w)%nat -> w_bufs w' !! b = w_bufs w !! b;
  bd_cmds c : (c < w_next w)%nat -> m_cmds (mem_of w') !! c = m_cmds (mem_of w) !! c;
  bd_grps h : (h < w_next w)%nat -> m_grps (mem_of w') !! h = m_grps (mem_of w) !! h;
  bd_bufs : Bufs (mem_of w') (w_next w')
}.

Lemma builds_group cli g cls t w n1 m1 w2 :
  Bufs (mem_of w) (w_next w) -> (w_next w <= g < n1)%nat -> m_cmds m1 = m_cmds (mem_of w) -> m_grps m1 = m_grps (mem_of w) ->
  (forall b, (b < w_next w)%nat -> m_bufs m1 !! b = w_bufs w !! b) -> added n1 m1 (mem_of w2) (w_next w2) -> w_clis w2 = w_clis w ->
  (forall c, c ∈ class_commands (core cls) -> (n1 <= c < w_next w2)%nat) ->
  (forall p, class_payload (core cls) = Some p -> (w_next w <= p < n1 /\ 0 < p)%nat) ->
  builds g w (w2 <| w_grps ::= <[g := mkGroup cli cls t false]> |>).
Proof.
  intros B Hg E1 E2 E3 HA Ec Hc Hp. pose proof HA as [A1 A2 A3 A4 A5 A6].
  assert (Hm : mem_of (w2 <| w_grps ::= <[g := mkGroup cli cls t false]> |>) =
    mkMem (m_bufs (mem_of w2)) (m_cmds (mem_of w2)) (<[g := core cls]> (m_grps (mem_of w2)))) by (unfold mem_of; cbn; by rewrite fmap_insert).
  split; rewrite ?Hm; cbn -[mem_of]; try done.
  - lia.
  - intros b Hb. change (w_bufs w2) with (m_bufs (mem_of w2)). rewrite A2 by lia. auto.
  - intros c Hlt. rewrite A3 by lia. by rewrite E1.
  - intros h Hlt. rewrite lookup_insert_ne by lia. by rewrite A4, E2.
  - eapply (bufs_group (mem_of w) (w_next w) m1 n1 (mem_of w2)); try done. lia.
Qed.

Section Make.
Context (cli : nat) (w : World).
Hypothesis B : Bufs (mem_of w) (w_next w).
Implicit Types (Q : nat -> World -> Prop).

Lemma added_start w1 n : w_cmds w1 = w_cmds w -> w_grps w1 = w_grps w -> w_next w1 = n -> (w_next w <= n)%nat ->
  added n (mem_of w1) (mem_of w1) n.
Proof.
  intros E1 E2 <- Hn. apply added_refl. eapply (bufs_next (mkMem (w_bufs w1) (m_cmds (mem_of w)) (m_grps (mem_of w)))) in Hn.
  - unfold mem_of. by rewrite E1, E2.
  - destruct B. by split.
Qed.

Lemma runs_direct_group b Q : (forall g w', builds g w w' -> Q g w') -> runs (new_direct_group cli b) w Q.
Proof.
  intros HQ. unfold new_direct_group. apply runs_bind, runs_fresh. set (n := w_next w). set (w1 := _ <| w_next := _ |>). apply runs_bind.
  eapply (runs_new_command (S n) (mem_of w)); [apply (added_start w1 (S n) eq_refl eq_refl eq_refl); lia|].
  intros c w2 HA Hc Ec Eg. apply HQ. eapply (builds_group cli n _ 0 w (S n) (mem_of w)); cbn; try done; try lia.
  intros c' ->%list_elem_of_singleton. cbn in Hc. lia.
Qed.

Lemma runs_single_group b cls Q : (forall g w', builds g w w' -> Q g w') -> runs (new_single_group cli b cls) w Q.
Proof.
  intros HQ. unfold new_single_group. apply runs_bind, runs_fresh. set (n := w_next w). apply runs_bind, runs_now. intros t k.
  set (w1 := _ <| w_kern := _ |>). apply runs_bind.
  eapply (runs_new_command (S n) (mem_of w)); [apply (added_start w1 (S n) eq_refl eq_refl eq_refl); lia|].
  intros c w2 HA Hc Ec Eg. apply HQ. eapply (builds_group cli n _ t w (S n) (mem_of w)); cbn; try done; try lia.
  intros c' ->%list_elem_of_singleton. cbn in Hc. lia.
Qed.

Lemma runs_multi_group k cmds Q : (forall g w', builds g w w' -> Q g w') -> runs (new_multi_group cli k cmds) w Q.
Proof.
  intros HQ. unfold new_multi_group. apply runs_bind, runs_fresh. set (n := w_next w). apply runs_bind, runs_now. intros t k0.
  apply runs_bind, runs_new_buffer. set (w1 := _ <| w_bufs ::= _ |>). apply runs_bind. eapply (runs_new_commands (S (S n)) (mem_of w1) _ _ w1); [apply (added_start w1 (S (S n)) eq_refl eq_refl eq_refl); lia|].
  intros cs w2 HA Hn Hc Ec Eg. apply HQ. eapply (builds_group cli n _ t w (S (S n)) (mem_of w1)); cbn; try done; try lia.
  - intros b Hb. rewrite lookup_insert_ne by lia. done.
  - intros p [= <-]. lia.
Qed.
End Make.

Lemma builds_from g w w1 w2 : mem_of w1 = mem_of w -> w_clis w1 = w_clis w -> w_next w1 = w_next w -> builds g w1 w2 -> builds g w w2.
Proof.
  intros M E N [B1 B2 B3 B4 B5 B6]. assert (Mb : w_bufs w1 = w_bufs w) by (by injection M).
  split; try done; rewrite <- ?N, <- ?M, <- ?E; try done. by rewrite <- Mb.
Qed.

Lemma runs_make_group stats cli sp w (Q : nat -> World -> Prop) :
  Bufs (mem_of w) (w_next w) -> (forall g w', builds g w w' -> Q g w') -> runs (make_group stats cli sp) w Q.
Proof.
  intros B HQ.
  assert (Hlong : forall cls, class_commands cls = [] -> class_payload cls = None -> runs (g ← fresh; new_group cli g cls 0 ;; mret g) w Q).
  { intros cls Hc Hp. apply runs_bind, runs_fresh. apply HQ. set (w1 := _ <| w_next := _ |>).
    assert (E : core cls = cls) by (by destruct cls).
    eapply (builds_group cli _ _ 0 w (S (w_next w)) (mem_of w) w1); try done; rewrite ?E, ?Hc, ?Hp; try done.
    - lia.
    - apply (added_start w B w1 (S (w_next w)) eq_refl eq_refl eq_refl). lia.
    - by intros c []%elem_of_nil. }
  assert (Hfrom : forall w1 b, mem_of w1 = mem_of w -> w_clis w1 = w_clis w -> w_next w1 = w_next w -> runs (new_direct_group cli b) w1 Q).
  { intros w1 b M E N. apply runs_direct_group; [by rewrite M, N|]. intros g w' Hb. apply HQ. by eapply builds_from. }
  destruct sp; cbn [make_group]; [..|by apply Hlong|by apply Hlong].
  - by apply Hfrom.
  - apply runs_bind. unfold runs at 1. cbn. destruct (stats w); [by apply Hfrom|done].
  - by apply runs_bind, Hfrom.
  - by apply runs_bind, runs_bind, Hfrom.
  - by apply runs_single_group.
  - apply runs_bind. unfold runs at 1. cbn. apply runs_single_group; [done|]. intros g w' Hb. apply HQ. by eapply builds_from; [..|exact Hb].
  - by apply runs_multi_group.
  - by apply runs_single_group.
Qed.

(** ** What is below the next name is enough for the responses *)

Lemma class_bufs_ext cm cm' cls : (forall c, c ∈ class_commands cls -> cm' !! c = cm !! c) -> class_bufs cm' cls = class_bufs cm cls.
Proof.
  intros Hc. destruct cls as [c|c|[] p cs n| |]; cbn in *; try done; try by rewrite Hc by left.
  f_equal. apply list_fmap_ext. intros i c Hi. rewrite Hc; [done|]. by eapply list_elem_of_lookup_2.
Qed.

Lemma group_bufs_ext m m' n g :
  Bufs m n -> (forall c, (c < n)%nat -> m_cmds m' !! c = m_cmds m !! c) -> m_grps m' !! g = m_grps m !! g -> group_bufs m' g = group_bufs m g.
Proof.
  intros B Hc Hg. unfold group_bufs. rewrite Hg. destruct (m_grps m !! g) as [cls|] eqn:E; [|done].
  apply class_bufs_ext. intros c Hin. apply Hc. by eapply bf_members.
Qed.

Lemma group_bufs_range m n g b : Bufs m n -> b ∈ group_bufs m g -> (b < n)%nat.
Proof.
  intros B. pose proof (bf_pos _ _ B) as Hn. unfold group_bufs. destruct (m_grps m !! g) as [cls|] eqn:E; [|by intros []%elem_of_nil].
  assert (Hd : forall c, (default RSP_OK (m_cmds m !! c) < n)%nat).
  { intros c. destruct (m_cmds m !! c) eqn:Ec; [|exact Hn]. cbn. apply (bf_cmd _ _ B) in Ec. lia. }
  destruct cls as [c|c|[] p cs k| |]; cbn; rewrite ?elem_of_cons, ?list_elem_of_fmap; try (intros [->|[]%elem_of_nil]); auto.
  - intros [->|(c & -> & _)]; [|auto]. by apply (bf_pay _ _ B g _ _ E).
  - by apply (bf_pay _ _ B g _ _ E).
  - by intros []%elem_of_nil.
  - by intros []%elem_of_nil.
Qed.

Lemma pending_ext st st' bs : (forall b, b ∈ _buf_arr bs -> st' !! b = st !! b) -> pending st' bs = pending st bs.
Proof.
  intros Hb. unfold pending. do 2 f_equal. apply list_fmap_ext. intros i b Hi. unfold content. rewrite Hb; [done|]. by eapply list_elem_of_lookup_2.
Qed.

Lemma bufset_wf_ext st st' bs : (forall b, b ∈ _buf_arr bs -> st' !! b = st !! b) -> bufset_wf st bs -> bufset_wf st' bs.
Proof. unfold bufset_wf, content. destruct (_buf_arr bs) as [|b l]; [done|]. intros Hb. by rewrite Hb by left. Qed.

Lemma out_member w c b : out_ok w c -> b ∈ _buf_arr (cli_output c) -> exists g, g ∈ _ready_groups c /\ b ∈ group_bufs (mem_of w) g.
Proof.
  intros [_ (sent & Hs)] Hb. assert (Hin : b ∈ concat (group_bufs (mem_of w) <$> _ready_groups c)) by (rewrite <- Hs; apply elem_of_app; by right).
  apply list_elem_of_In, in_concat in Hin as (l & Hl & Hin). apply list_elem_of_In, list_elem_of_fmap in Hl as (g & -> & Hg).
  exists g. split; [done|]. by apply list_elem_of_In.
Qed.

(** The output is the same while the ready groups and their buffers are. *)
Definition untouched (w w' : World) (c : Client) : Prop :=
  forall g, g ∈ _ready_groups c ->
    group_bufs (mem_of w') g = group_bufs (mem_of w) g /\ forall b, b ∈ group_bufs (mem_of w) g -> w_bufs w' !! b = w_bufs w !! b.

Lemma out_untouched w w' c : untouched w w' c -> out_ok w c -> out_ok w' c /\ streamed w c w' c.
Proof.
  intros Hu Ho. assert (Hb : forall b, b ∈ _buf_arr (cli_output c) -> w_bufs w' !! b = w_bufs w !! b).
  { intros b (g & Hg & Hin)%(out_member _ _ _ Ho). by apply (Hu g). }
  destruct Ho as [H1 (sent & H2)]. split; [split; [by eapply bufset_wf_ext|]|apply streamed_same; [by apply pending_ext| |done]].
  - exists sent. rewrite H2. f_equal. apply list_fmap_ext. intros i g Hi. symmetry. apply Hu. by eapply list_elem_of_lookup_2.
  - apply list_fmap_ext. intros i g Hi%list_elem_of_lookup_2. destruct (Hu g Hi) as [E Hc]. unfold response. rewrite E. do 2 f_equal.
    apply list_fmap_ext. intros j b Hj%list_elem_of_lookup_2. unfold content. by rewrite Hc.
Qed.

(** The clients are the same and those that matter are untouched. *)
Lemma good_untouched hole w w' :
  w_clis w' = w_clis w -> (w_next w <= w_next w')%nat -> (Bufs (mem_of w) (w_next w) -> Bufs (mem_of w') (w_next w')) ->
  (forall i c, w_clis w !! i = Some c -> hole <> Some i -> cli_fd c <> -1 -> Good hole w -> untouched w w' c) -> good hole w w'.
Proof.
  intros Ec Hn HB Hu HG. pose proof HG as [B Q O].
  assert (Hout : forall i c, w_clis w !! i = Some c -> hole <> Some i -> cli_fd c <> -1 -> out_ok w' c /\ streamed w c w' c).
  { intros i c Hi Hh Hf. apply out_untouched; [by eapply Hu|by eapply O]. }
  split; [split|split]; [by apply HB| | |done|].
  - destruct Q as [Q1 Q2 Q3 Q4]. split; rewrite Ec; try done.
    + intros i Hi%Q1. lia.
    + intros i c h Hi Hin. specialize (Q2 i c h Hi Hin). lia.
  - intros i c Hi Hh Hf. rewrite Ec in Hi. by apply (Hout i).
  - intros i c _ Hi. rewrite Ec in Hi. exists c. split; [done|]. intros Hh Hf. split; [done|]. by apply (Hout i).
Qed.

Lemma ready_queue c g : g ∈ _ready_groups c -> g ∈ queue c.
Proof. unfold queue. rewrite elem_of_app. by left. Qed.
Lemma waiting_queue c : queue c = _ready_groups c ++ waiting c.
Proof. done. Qed.

Lemma builds_good hole g w w' : builds g w w' -> good hole w w'.
Proof.
  intros [B1 B2 B3 B4 B5 B6]. apply good_untouched; [done|lia|done|]. intros i c Hi _ _ [B Q _] h Hr. split.
  - eapply group_bufs_ext; [exact B|done|]. apply B5. eapply (qs_range _ Q); [done|by apply ready_queue].
  - intros b Hin. apply B3. by eapply group_bufs_range.
Qed.

(** A new group joins the queue of its client. *)
Lemma good_enqueue hole g cli c w w' :
  builds g w w' -> w_clis w' !! cli = Some c -> good hole w (w' <| w_clis ::= <[cli := c <| _parsed_groups ::= (fun l => l ++ [Some g]) |>]> |>).
Proof.
  intros Hb Hc HG. destruct (builds_good hole _ _ _ Hb HG) as [HG' Hs]. set (c' := c <| _parsed_groups ::= _ |>).
  set (w2 := w' <| w_clis ::= _ |>). assert (Hq : queue c' = queue c ++ [g]) by (unfold queue, waiting, c'; cbn; by rewrite omap_app, !app_assoc).
  assert (Hw : waiting c' = waiting c ++ [g]) by (unfold waiting, c'; cbn; by rewrite omap_app, app_assoc).
  assert (Hnew : forall j x, w_clis w' !! j = Some x -> g ∉ queue x).
  { intros j x Hx Hin. rewrite (bd_clis _ _ _ Hb) in Hx. pose proof (qs_range _ (gd_queues _ _ HG) _ _ _ Hx Hin).
    pose proof (bd_group _ _ _ Hb). lia. }
  destruct HG' as [B [Q1 Q2 Q3 Q4] O]. destruct (good_one hole cli c c' w' w2) as [HG2 Hs2]; try done.
  - intros h. rewrite Hq, elem_of_app, list_elem_of_singleton. intros [Hh| ->].
    + split; [by eapply Q2|]. intros j x Hx Hj. by eapply Q4.
    + split; [apply Hb|]. intros j x Hx Hj. by destruct (Hnew j x Hx).
  - rewrite Hq. apply NoDup_app. split_and!; [by eapply Q3| |apply NoDup_singleton]. intros h Hh ->%list_elem_of_singleton. by eapply Hnew.
  - intros Hh Hf. split; [done|]. split; [by eapply (out_ok_same w' w2 c c'); [..|eapply O]|]. exists [], [], [], [g]. split_and!; [by rewrite app_nil_r|by rewrite app_nil_r|by rewrite Hw].
  - split; [done|by etransitivity].
Qed.

(** To show [within (good _)], start in a good state. *)
Lemma within_good hole {A} (c : W A) :
  (forall w, Good hole w -> match c w with (Ret _, w') | (Throw _, w') => Good hole w' /\ streams hole w w' | _ => True end) -> within (good hole) c.
Proof. intros Hc w. destruct (c w) as [[]w'] eqn:E; try done; intros HG; specialize (Hc w HG); by rewrite E in Hc. Qed.

Lemma good_from hole {A} w w1 (c : W A) :
  good hole w w1 -> Good hole w -> within (good hole) c ->
  match c w1 with (Ret _, w') | (Throw _, w') => Good hole w' /\ streams hole w w' | _ => True end.
Proof. intros Hw HG Hc. pose proof (within_from (good hole) w w1 c Hw Hc) as H. destruct (c w1) as [[]w']; try done; by apply H. Qed.

Lemma good_push_commands hole stats cli sps : within (good hole) (push_commands stats cli sps).
Proof.
  induction sps as [|sp sps IH]; cbn [push_commands]; [within_step|]. apply within_good. intros w HG.
  unfold mbind at 1, M_bind at 1. pose proof (runs_make_group stats cli sp w (fun g w' => builds g w w') (gd_bufs _ _ HG) ltac:(done)) as Hr.
  unfold runs in Hr. destruct (make_group stats cli sp w) as [[g|e|k|] w1]; try done.
  apply (bind_set_cli (fun w w' => Good hole w' /\ streams hole w w')). intros c Hc.
  apply good_from; [by apply good_enqueue|done|exact IH].
Qed.
#[export] Hint Resolve good_push_commands : within.

(** ** Buffers that may change *)

(** No client has the group among its ready ones. *)
Definition unready (w : World) (g : nat) : Prop := forall i c, w_clis w !! i = Some c -> g ∉ _ready_groups c.

(** The buffer is in the response of no ready group. *)
Definition free_buf (w : World) (b : buf_id) : Prop :=
  forall i c h, w_clis w !! i = Some c -> h ∈ _ready_groups c -> b ∉ group_bufs (mem_of w) h.

Lemma waiting_unready w i c g : Queues w -> w_clis w !! i = Some c -> g ∈ waiting c -> unready w g.
Proof.
  intros [_ _ Q3 Q4] Hi Hg j c' Hj Hr. assert (g ∈ queue c) by (rewrite waiting_queue, elem_of_app; by right).
  assert (i = j) as <- by (eapply Q4; [done..|by apply ready_queue]). simplify_eq. specialize (Q3 _ _ Hi).
  rewrite waiting_queue in Q3. apply NoDup_app in Q3 as (_ & Hn & _). by eapply Hn.
Qed.

Lemma payload_free w g cls p :
  Bufs (mem_of w) (w_next w) -> m_grps (mem_of w) !! g = Some cls -> class_payload cls = Some p -> unready w g -> free_buf w p.
Proof.
  intros B Hg Hp Hu i c h Hi Hr Hb.
  unfold group_bufs in Hb. destruct (m_grps (mem_of w) !! h) as [k|] eqn:Ek; [|by apply elem_of_nil in Hb].
  assert (Hne : h <> g) by (intros ->; by eapply Hu). pose proof (bf_pay _ _ B _ _ _ Hg Hp) as Hpos.
  assert (Hd : forall c', p <> default RSP_OK (m_cmds (mem_of w) !! c')).
  { intros c'. destruct (m_cmds (mem_of w) !! c') eqn:Ec; cbn; [|unfold RSP_OK; lia]. intros ->. by destruct (bf_pay_cmd _ _ B _ _ _ c' Hg Hp). }
  destruct k as [c'|c'|[] q cs n| |]; cbn in Hb; rewrite ?elem_of_cons, ?list_elem_of_fmap in Hb.
  - destruct Hb as [->|[]%elem_of_nil]. by eapply Hd.
  - destruct Hb as [->|[]%elem_of_nil]. by eapply Hd.
  - destruct Hb as [->|(c' & -> & _)]; [by apply Hne; eapply (bf_pay_inj _ _ B); [exact Ek|exact Hg|..]|by eapply Hd].
  - destruct Hb as [->|[]%elem_of_nil]. by apply Hne; eapply (bf_pay_inj _ _ B); [exact Ek|exact Hg|..].
  - destruct Hb as [->|[]%elem_of_nil]. unfold RSP_OK in *. lia.
  - by apply elem_of_nil in Hb.
  - by apply elem_of_nil in Hb.
Qed.

Lemma command_free w c b :
  Bufs (mem_of w) (w_next w) -> m_cmds (mem_of w) !! c = Some b ->
  (forall g cls, m_grps (mem_of w) !! g = Some cls -> c ∈ class_commands cls -> unready w g) -> free_buf w b.
Proof.
  intros B Hc Hu i x h Hi Hr Hb.
  unfold group_bufs in Hb. destruct (m_grps (mem_of w) !! h) as [k|] eqn:Ek; [|by apply elem_of_nil in Hb].
  pose proof (bf_cmd _ _ B _ _ Hc) as Hpos.
  assert (Hd : forall c', c' ∈ class_commands k -> b <> default RSP_OK (m_cmds (mem_of w) !! c')).
  { intros c' Hin'. destruct (m_cmds (mem_of w) !! c') eqn:Ec; cbn; [|unfold RSP_OK; lia]. intros ->.
    assert (c' = c) as -> by (by eapply (bf_cmd_inj _ _ B)). by eapply (Hu h k Ek Hin'). }
  destruct k as [c'|c'|[] q cs n| |]; cbn in Hb, Hd; rewrite ?elem_of_cons, ?list_elem_of_fmap in Hb.
  - destruct Hb as [->|[]%elem_of_nil]. apply (Hd c'); [left|done].
  - destruct Hb as [->|[]%elem_of_nil]. apply (Hd c'); [left|done].
  - destruct Hb as [->|(c' & -> & Hc')]; [by eapply (bf_pay_cmd _ _ B _ _ _ _ Ek)|by eapply Hd].
  - destruct Hb as [->|[]%elem_of_nil]. by eapply (bf_pay_cmd _ _ B _ _ _ _ Ek).
  - destruct Hb as [->|[]%elem_of_nil]. unfold RSP_OK in *. lia.
  - by apply elem_of_nil in Hb.
  - by apply elem_of_nil in Hb.
Qed.

Lemma good_set_buffer hole b v w : free_buf w b -> good hole w (w <| w_bufs ::= <[b := v]> |>).
Proof.
  intros Hb. apply good_untouched; [done|done| |].
  - intros []. by split.
  - intros i c Hi _ _ _ g Hg. split; [done|]. intros b' Hin. cbn. rewrite lookup_insert_ne; [done|]. intros <-. by eapply Hb.
Qed.

(** ** Groups become ready *)

Lemma buffers_of_cmds_eq cs w bs w' :
  buffers_of_cmds cs w = (Ret bs, w') -> w' = w /\ bs = (fun c => default RSP_OK (m_cmds (mem_of w) !! c)) <$> cs.
Proof.
  revert bs. induction cs as [|c cs IH]; intros bs; cbn [buffers_of_cmds]; [by intros [= <- <-]|].
  unfold buffer_of_cmd, get_cmd, deref_obj, mbind, M_bind. cbn. rewrite lookup_fmap. destruct (w_cmds w !! c) as [x|]; [|done]. cbn.
  unfold mbind, M_bind in IH. destruct (buffers_of_cmds cs w) as [[bs'| | |] w1]; try done. intros [= <- <-].
  by destruct (IH bs' eq_refl) as [-> ->].
Qed.

(** The buffers appended are those of the response; DEL prints its count into its payload first. *)
Lemma append_buffer_to_eq g w bs w1 :
  append_buffer_to g w = (Ret bs, w1) ->
  bs = group_bufs (mem_of w) g /\
  (w1 = w \/ exists p cs n v, m_grps (mem_of w) !! g = Some (MultipleCommandsGroup DelGroup p cs n) /\ w1 = w <| w_bufs ::= <[p := v]> |>).
Proof.
  unfold append_buffer_to, get_grp, group_bufs. unfold mbind at 1, M_bind at 1, deref_obj at 1. cbn [mem_of m_grps].
  rewrite lookup_fmap. destruct (w_grps w !! g) as [x|] eqn:Eg; [|done]. cbn [fmap option_fmap option_map].
  assert (Hone : forall c, (b ← buffer_of_cmd c; mret [b]) w = (Ret bs, w1) -> bs = [default RSP_OK (m_cmds (mem_of w) !! c)] /\ w1 = w).
  { intros c. unfold buffer_of_cmd, get_cmd, deref_obj, mbind, M_bind. cbn. rewrite lookup_fmap. destruct (w_cmds w !! c); [|done]. cbn. by intros [= <- <-]. }
  destruct (grp_class x) as [c|c|[] p cs n|b|b ks]; cbn [core class_bufs].
  - intros [-> ->]%Hone. auto.
  - intros [-> ->]%Hone. auto.
  - unfold multi_append_buffer. intros (bs' & w' & [-> ->]%buffers_of_cmds_eq & [= <- <-])%bind_Ret_inv. auto.
  - unfold del_append_buffer. intros (bs' & w' & [-> ->]%buffers_of_cmds_eq & H)%bind_Ret_inv. injection H as <- <-.
    split; [done|]. right. by eexists p, cs, _, _.
  - intros [= <- <-]. auto.
  - intros [= <- <-]. auto.
  - intros [= <- <-]. auto.
Qed.

Lemma foldl_append_arr bs o :
  foldl (fun o b => bufset_append b o) o bs = mkBufferSet (_buf_arr o ++ bs) (_1st_buf_offset o).
Proof.
  revert o. induction bs as [|b bs IH]; intros [arr off]; cbn; [by rewrite app_nil_r|]. rewrite IH. cbn. by rewrite <- app_assoc.
Qed.

Lemma append_wf st arr off bs : bufset_wf st (mkBufferSet arr off) -> bufset_wf st (mkBufferSet (arr ++ bs) off).
Proof.
  unfold bufset_wf. cbn. destruct arr as [|b arr]; [|done]. intros ->. destruct bs as [|b bs]; [done|]. cbn. pose proof (zlen_nonneg (content st b)). lia.
Qed.

Lemma append_pending st arr off bs :
  bufset_wf st (mkBufferSet arr off) ->
  pending st (mkBufferSet (arr ++ bs) off) = pending st (mkBufferSet arr off) ++ concat (content st <$> bs).
Proof.
  unfold bufset_wf, pending. cbn. intros H. rewrite fmap_app, concat_app. destruct arr as [|b0 arr]; [by rewrite H|].
  rewrite drop_app_le; [done|]. cbn. rewrite length_app. unfold zlen in H. lia.
Qed.

(** One group: its buffers join the output, and it goes from the awaiting groups to the ready ones. *)
Lemma good_ready_one hole cli c g rem w :
  w_clis w !! cli = Some c -> _awaiting_groups c = g :: rem ->
  good hole w (w <| w_clis ::= <[cli := c <| cli_output ::= (fun o => foldl (fun o b => bufset_append b o) o (group_bufs (mem_of w) g)) |>
                                           <| _ready_groups ::= (fun l => l ++ [g]) |> <| _awaiting_groups := rem |>]> |>).
Proof.
  intros Hc Haw HG. set (c' := c <| cli_output ::= _ |> <| _ready_groups ::= _ |> <| _awaiting_groups := _ |>). set (w' := w <| w_clis ::= _ |>).
  assert (Hq : queue c' = queue c) by (unfold queue, waiting, c'; cbn; rewrite Haw; cbn; by rewrite <- !app_assoc).
  assert (Ho : cli_output c' = mkBufferSet (_buf_arr (cli_output c) ++ group_bufs (mem_of w) g) (_1st_buf_offset (cli_output c)))
    by apply foldl_append_arr.
  pose proof HG as [B Q O]. eapply (good_one hole cli c c'); try done.
  - intros h. rewrite Hq. intros Hh. split; [by eapply (qs_range _ Q)|]. intros j x Hx Hj. by eapply (qs_disj _ Q).
  - rewrite Hq. by eapply (qs_nodup _ Q).
  - intros Hh Hf. split; [done|]. destruct (O cli c Hc Hh Hf) as [Hwf (sent & Hs)].
    destruct (cli_output c) as [arr off] eqn:Eo. cbn [_buf_arr _1st_buf_offset] in *. split; [split|].
    + rewrite Ho. by apply append_wf.
    + exists sent. rewrite Ho. cbn [_buf_arr]. change (_ready_groups c') with (_ready_groups c ++ [g]).
      rewrite app_assoc, Hs, fmap_app, concat_app. cbn. by rewrite app_nil_r.
    + exists [], [(g, response w g)], [], []. rewrite Ho. cbn [fmap list_fmap fst snd concat app]. split_and!.
      * rewrite append_pending by done. by rewrite app_nil_r, Eo.
      * unfold answers at 1. change (_ready_groups c') with (_ready_groups c ++ [g]). by rewrite fmap_app.
      * unfold waiting, c'. cbn. rewrite Haw. by rewrite app_nil_r.
Qed.

(** The world in which the groups that are done have left the awaiting ones already. *)
Definition as_if (cli : nat) (c : Client) (rem : list nat) (w : World) : World :=
  w <| w_clis ::= <[cli := c <| _awaiting_groups := rem |>]> |>.

Lemma good_append hole cli c g rem w bs w1 :
  append_buffer_to g w = (Ret bs, w1) -> good hole (as_if cli c (g :: rem) w) (as_if cli c (g :: rem) w1).
Proof.
  intros [_ [->|(p & cs & n & v & Hg & ->)]]%append_buffer_to_eq; [reflexivity|]. set (x := as_if cli c (g :: rem) w).
  intros HG. apply (good_set_buffer hole p v x); [|done]. eapply (payload_free x g _ p); [apply HG|exact Hg|done|].
  eapply (waiting_unready x cli); [apply HG|apply lookup_insert_eq|]. unfold waiting. cbn. left.
Qed.

Lemma push_ready_good hole cli gs : forall c w w',
  push_ready cli gs w = (Ret tt, w') -> w_clis w !! cli = Some c ->
  exists c', w_clis w' !! cli = Some c' /\ good hole (as_if cli c gs w) (as_if cli c' [] w').
Proof.
  induction gs as [|g gs IH]; intros c w w'; cbn [push_ready]; [intros [= <-] Hc; by exists c|].
  intros (bs & w1 & Ha & H)%bind_Ret_inv Hc. pose proof (append_buffer_to_eq _ _ _ _ Ha) as [-> Hw1].
  assert (Hc1 : w_clis w1 !! cli = Some c) by (destruct Hw1 as [->|(? & ? & ? & ? & _ & ->)]; done).
  unfold mbind, M_bind in H. rewrite (set_cli_eq _ _ c _ Hc1) in H. eapply IH in H as (c' & Hc' & Hg); [|apply lookup_insert_eq].
  exists c'. split; [done|]. etransitivity; [|exact Hg]. etransitivity; [by eapply (good_append hole cli c g gs w _ w1)|].
  pose proof (good_ready_one hole cli (c <| _awaiting_groups := g :: gs |>) g gs (as_if cli c (g :: gs) w1) (lookup_insert_eq _ _ _) eq_refl) as H1.
  assert (Em : group_bufs (mem_of (as_if cli c (g :: gs) w1)) g = group_bufs (mem_of w) g).
  { destruct Hw1 as [->|(? & ? & ? & ? & _ & ->)]; done. }
  rewrite Em in H1. unfold as_if in H1 |- *. cbn in H1 |- *. rewrite !insert_insert_eq in H1 |- *. exact H1.
Qed.

Lemma good_push_awaitings hole cli : within (good hole) (_push_awaitings_to_ready cli).
Proof.
  unfold _push_awaitings_to_ready. intros w. apply bind_get_cli. intros c Ec.
  match goal with |- context [if ?b then _ else _] => destruct b end; [cbn; reflexivity|].
  unfold mbind at 1, M_bind at 1. pose proof (nothrow_push_ready cli (_awaiting_groups c) w) as Hn.
  destruct (push_ready cli (_awaiting_groups c) w) as [[[]|e|k|] w1] eqn:Ep; try done; [|naive_solver].
  destruct (push_ready_good hole _ _ _ _ _ Ep Ec) as (c1 & Hc1 & Hg). apply bind_set_cli.
  rewrite Hc1. intros ? [= <-]. eapply (within_from (good hole) w); [|within_step].
  replace (as_if cli c (_awaiting_groups c) w) with w in Hg; [exact Hg|]. unfold as_if. destruct w, c. cbn in *. by rewrite insert_id.
Qed.
#[export] Hint Resolve good_push_awaitings : within.

Lemma good_process hole cli : within (good hole) (_process cli).
Proof.
  apply process_within; [typeclasses eauto|by intros; apply still_good| |within_step].
  intros w c c' Hc (Hf & Ho & Hr & Hw). by eapply good_requeue.
Qed.
#[export] Hint Resolve good_process : within.
