(* ===== verification/Delivery.v ===== *)
(** * Responses leave, and clients come and go

    What [_send_buffer_set] writes leaves the front of the client's output, and the groups whose
    responses were sent are deleted; no other client's output depends on them.  A write that fails
    may leave the output of its client in any state ([lapses]), and the client is closed then. *)
From S2P Require Import Prelude Strings OrderedSet Address SlotCalc Buffer Response SlotMap CommandParser Logic World Kernel Command Server LongConn Client Proxy Concurrence Frames Quiet Order Output.
#[local] Open Scope Z_scope.

(** ** A client whose output is of no interest *)

Lemma good_hole h w : Good None w -> Good (Some h) w.
Proof. intros [B Q O]. split; [done..|]. intros i c Hi _. by apply (O i). Qed.

Lemma streams_hole h w w' : streams None w w' -> streams (Some h) w w'.
Proof. intros [N S]. split; [done|]. intros i c' Hi Hc'. destruct (S i c' Hi Hc') as (c & Hc & Hs). exists c. split; [done|]. intros _. by apply Hs. Qed.

(** What is needed of the client to have no hole again. *)
Definition filled (cli : nat) (w w1 w2 : World) (x : Client) : Prop :=
  (exists c1, w_clis w1 !! cli = Some c1 /\ forall g, g ∈ queue x -> g ∈ queue c1) /\ NoDup (queue x) /\
  (cli_fd x <> -1 -> out_ok w2 x /\ exists c, w_clis w !! cli = Some c /\ cli_fd c <> -1 /\ streamed w c w2 x).

Lemma good_fill cli w w1 w2 :
  Good (Some cli) w1 -> streams (Some cli) w w1 -> mem_of w2 = mem_of w1 -> w_next w2 = w_next w1 ->
  (forall i, i <> cli -> w_clis w2 !! i = w_clis w1 !! i) -> (forall x, w_clis w2 !! cli = Some x -> filled cli w w1 w2 x) ->
  Good None w2 /\ streams None w w2.
Proof.
  intros [B [Q1 Q2 Q3 Q4] O] [N S] M En Hother Hcli. assert (Mb : w_bufs w2 = w_bufs w1) by (by injection M).
  assert (Hl : forall j x, w_clis w2 !! j = Some x -> j = cli /\ filled cli w w1 w2 x \/ j <> cli /\ w_clis w1 !! j = Some x).
  { intros j x Hx. destruct (decide (j = cli)) as [->|Hne]; [left; auto|right; by rewrite <- Hother]. }
  assert (Hq : forall j x g, w_clis w2 !! j = Some x -> g ∈ queue x -> exists y, w_clis w1 !! j = Some y /\ g ∈ queue y).
  { intros j x g [[-> ((c1 & Hc1 & Hg) & _)]|[_ Hx]]%Hl; eauto. }
  split; [split; [by rewrite M, En|split|]|split]; rewrite ?En; try done.
  - intros j [x [[-> ((c1 & Hc1 & _) & _)]|[_ Hx]]%Hl]; apply Q1; eauto.
  - intros j x g Hx Hg. destruct (Hq j x g Hx Hg) as (y & Hy & Hg'). eauto.
  - intros j x [[-> (_ & Hnd & _)]|[_ Hx]]%Hl; eauto.
  - intros j k x y g Hx Hy Gx Gy. destruct (Hq j x g Hx Gx) as (x' & Hx' & ?), (Hq k y g Hy Gy) as (y' & Hy' & ?). eauto.
  - intros j x Hx _ Hf. destruct (Hl j x Hx) as [[-> (_ & _ & Ho)]|[Hne Hx1]]; [by apply Ho|].
    eapply out_ok_same; [done..|]. eapply O; [exact Hx1|congruence|done].
  - intros j x Hlt Hx. destruct (Hl j x Hx) as [[-> ((c1 & Hc1 & _) & _ & Ho)]|[Hne Hx1]].
    + destruct (S cli c1 Hlt Hc1) as (c & Hc & _). exists c. split; [done|]. intros _ Hf. destruct (Ho Hf) as (_ & c' & Hc' & ? & ?). by simplify_eq.
    + destruct (S j x Hlt Hx1) as (c & Hc & Hs). exists c. split; [done|]. intros _ Hf. destruct (Hs ltac:(congruence) Hf) as [Hf' Hst].
      split; [done|]. destruct Hst as (acc & evs & gone & new & P & A & W). exists acc, evs, gone, new.
      by rewrite Mb, (answers_mem w1 w2 x x M eq_refl).
Qed.

(** A closed client has no output of interest. *)
Lemma good_closed cli w w1 :
  Good (Some cli) w1 -> streams (Some cli) w w1 -> (forall c, w_clis w1 !! cli = Some c -> cli_fd c = -1) -> Good None w1 /\ streams None w w1.
Proof.
  intros HG HS Hc. apply (good_fill cli w w1 w1); try done. intros x Hx. split_and!; [by exists x|by eapply (gd_queues _ _ HG)|].
  intros Hf. by rewrite (Hc x Hx) in Hf.
Qed.

Lemma good_gone cli w w1 :
  Good (Some cli) w1 -> streams (Some cli) w w1 -> let w2 := w1 <| w_clis ::= delete cli |> in Good None w2 /\ streams None w w2.
Proof.
  intros HG HS w2. apply (good_fill cli w w1 w2); try done; cbn.
  - intros i Hi. by rewrite lookup_delete_ne.
  - intros x. by rewrite lookup_delete_eq.
Qed.

(** ** Groups are deleted *)

Lemma group_commands_core g : group_commands g = class_commands (core (grp_class g)).
Proof. unfold group_commands. by destruct (grp_class g). Qed.

(** The memory without a group and its commands. *)
Definition without (g : nat) (cls : GroupClass) (m : mem) : mem :=
  mkMem (m_bufs m) (foldr delete (m_cmds m) (class_commands cls)) (delete g (m_grps m)).

Lemma bufs_without g cls m n : Bufs m n -> Bufs (without g cls m) n.
Proof.
  intros [B0 B1 B2 B3 B4 B5 B6 B7 B8].
  assert (Hc : forall c b, m_cmds (without g cls m) !! c = Some b -> m_cmds m !! c = Some b) by (intros c b; cbn; rewrite lookup_foldr_delete; tauto).
  assert (Hg : forall h k, m_grps (without g cls m) !! h = Some k -> m_grps m !! h = Some k) by (intros h k; cbn; rewrite lookup_delete_Some; tauto).
  split; [done|..]; eauto. intros h k p c Hk%Hg Hp Hb%Hc. by eapply B8.
Qed.

(** No client that matters has the group among its ready ones. *)
Definition foreign (hole : option nat) (w : World) (g : nat) : Prop :=
  forall i c, w_clis w !! i = Some c -> hole <> Some i -> g ∉ _ready_groups c.

Lemma queue_foreign w cli c g : Queues w -> w_clis w !! cli = Some c -> g ∈ queue c -> foreign (Some cli) w g.
Proof. intros Q Hc Hg i x Hx Hi Hr. apply Hi. f_equal. eapply (qs_disj _ Q); [done..|by apply ready_queue]. Qed.

Lemma good_delete_group hole g w :
  foreign hole w g ->
  match delete_group g w with (Ret _, w') => good hole w w' /\ w_clis w' = w_clis w | (Throw _, _) => False | _ => True end.
Proof.
  intros Hf. unfold delete_group, get_grp, deref_obj, mbind, M_bind. destruct (w_grps w !! g) as [x|] eqn:Ex; [|done]. cbn.
  split; [|done]. match goal with |- good _ _ ?x => set (w' := x) end. set (cls := core (grp_class x)).
  assert (M : mem_of w' = without g cls (mem_of w)).
  { unfold mem_of, without. cbn. by rewrite fmap_delete, fmap_foldr_delete, group_commands_core. }
  assert (Hg : m_grps (mem_of w) !! g = Some cls) by (cbn; by rewrite lookup_fmap, Ex).
  apply good_untouched; [done|done|rewrite M; apply bufs_without|]. intros i c Hi Hh _ HG h Hr. split; [|done].
  assert (Hne : h <> g) by (intros ->; by eapply Hf). rewrite M. unfold group_bufs. cbn [without m_grps m_cmds]. rewrite lookup_delete_ne by done.
  destruct (m_grps (mem_of w) !! h) as [k|] eqn:Ek; [|done]. apply class_bufs_ext. intros c' Hc'. apply option_eq. intros b.
  rewrite lookup_foldr_delete. split; [by intros []|]. intros Hb. split; [done|]. intros Hin. apply Hne. by eapply (bf_own _ _ (gd_bufs _ _ HG)).
Qed.

Lemma good_delete_groups hole gs w :
  Forall (foreign hole w) gs ->
  match for_each gs delete_group w with (Ret _, w') => good hole w w' /\ w_clis w' = w_clis w | (Throw _, _) => False | _ => True end.
Proof.
  revert w. induction gs as [|g gs IH]; intros w Hf; [by split|]. apply Forall_cons_1 in Hf as [Hg Hgs]. cbn [for_each].
  pose proof (good_delete_group hole g w Hg) as H1. unfold mbind, M_bind. destruct (delete_group g w) as [[[]|e|k|] w1]; try done.
  destruct H1 as [H1 E1]. specialize (IH w1). destruct (for_each gs delete_group w1) as [[[]|e|k|] w2]; try done.
  - destruct IH as [H2 E2]; [unfold foreign in *; by rewrite E1|]. split; [by etransitivity|congruence].
  - apply IH. unfold foreign in *. by rewrite E1.
Qed.

(** ** Writes that may fail *)

(** [c] is good where it returns; where it throws, the output of [cli] may be anything. *)
Definition lapses (cli : nat) {A} (c : W A) : Prop :=
  forall w, Good None w ->
    match c w with
    | (Ret _, w') => Good None w' /\ streams None w w'
    | (Throw _, w') => Good (Some cli) w' /\ streams (Some cli) w w'
    | _ => True
    end.

Section Lapses.
Context (cli : nat).

Lemma lapse_from {A} w w1 (r : outcome A * World) :
  streams None w w1 -> match r with (Ret _, w') | (Throw _, w') => Good None w' /\ streams None w1 w' | _ => True end ->
  match r with (Ret _, w') => Good None w' /\ streams None w w' | (Throw _, w') => Good (Some cli) w' /\ streams (Some cli) w w' | _ => True end.
Proof.
  intros S1 Hr. destruct r as [[a|e|k|] w']; try done; destruct Hr as [G2 S2]; [split; [done|by etransitivity]|].
  split; [by apply good_hole|apply streams_hole; by etransitivity].
Qed.

Lemma lapses_good {A} (c : W A) : within (good None) c -> lapses cli c.
Proof.
  intros Hc w HG. apply (lapse_from w w); [reflexivity|]. specialize (Hc w). destruct (c w) as [[a|e|k|] w']; auto.
Qed.

Lemma lapses_bind {A B} (c : W A) (f : A -> W B) : lapses cli c -> (forall a, lapses cli (f a)) -> lapses cli (c ≫= f).
Proof.
  intros Hc Hf w HG. specialize (Hc w HG). unfold mbind, M_bind. destruct (c w) as [[a|e|k|] w1]; try done. destruct Hc as [G1 S1].
  specialize (Hf a w1 G1). destruct (f a w1) as [[b|e|k|] w2]; try done; destruct Hf as [G2 S2]; (split; [done|etransitivity; [|exact S2]]); [done|].
  by apply streams_hole.
Qed.

Lemma lapses_when b (c : W unit) : lapses cli c -> lapses cli (when b c).
Proof. destruct b; [done|]. intros _. apply lapses_good. within_step. Qed.
End Lapses.

(** The write itself. *)
Lemma good_written hole cli c k bs ch all ch' w :
  w_clis w !! cli = Some c -> writev (w_bufs w) (cli_output c) ch = (Ret all, (bs, ch')) ->
  good hole w (w <| w_kern := k |> <| w_clis ::= <[cli := c <| cli_output := bs |>]> |>).
Proof.
  intros Hc Hw HG. set (c' := c <| cli_output := bs |>). set (w' := w <| w_kern := k |> <| w_clis ::= _ |>). pose proof HG as [B Q O].
  apply (good_one hole cli c c' w w'); try done.
  - intros g Hg. split; [by eapply (qs_range _ Q)|]. intros j x Hx Hj. by eapply (qs_disj _ Q).
  - by eapply (qs_nodup _ Q cli c).
  - intros Hh Hf. split; [done|]. destruct (O cli c Hc Hh Hf) as [Hwf (sent & Hs)].
    destruct (writev_queue _ _ _ _ _ _ Hw Hwf) as (Hwf' & _ & (acc & Hacc) & n & Hn). split; [split; [done|]|].
    + exists (sent ++ take n (_buf_arr (cli_output c))). change (cli_output c') with bs. rewrite Hn, <- app_assoc, take_drop. exact Hs.
    + exists acc, [], [], []. rewrite !app_nil_r. by split_and!.
Qed.

(** The other clients do not depend on the output that is written. *)
Lemma good_unwritten cli c k bs w :
  w_clis w !! cli = Some c -> good (Some cli) w (w <| w_kern := k |> <| w_clis ::= <[cli := c <| cli_output := bs |>]> |>).
Proof.
  intros Hc HG. set (c' := c <| cli_output := bs |>). set (w' := w <| w_kern := k |> <| w_clis ::= _ |>). pose proof (gd_queues _ _ HG) as Q.
  apply (good_one (Some cli) cli c c' w w'); try done.
  - intros g Hg. split; [by eapply (qs_range _ Q)|]. intros j x Hx Hj. by eapply (qs_disj _ Q).
  - by eapply (qs_nodup _ Q cli c).
Qed.

(** The ready groups are deleted once the output is empty. *)
Lemma good_finish cli c w w1 :
  w_clis w !! cli = Some c -> _buf_arr (cli_output c) = [] ->
  Good None w -> good (Some cli) w w1 -> w_clis w1 = w_clis w ->
  let w2 := w1 <| w_clis ::= <[cli := c <| _ready_groups := [] |>]> |> in Good None w2 /\ streams None w w2.
Proof.
  intros Hc He HG H1 Ec w2. destruct (H1 (good_hole cli _ HG)) as [G1 S1]. set (c' := c <| _ready_groups := [] |>).
  apply (good_fill cli w w1 w2); try done; cbn; [intros i Hi; by rewrite lookup_insert_ne|].
  rewrite lookup_insert_eq. intros x [= <-]. pose proof (qs_nodup _ (gd_queues _ _ HG) _ _ Hc) as Hnd. rewrite waiting_queue in Hnd.
  split_and!.
  - exists c. rewrite Ec. split; [done|]. intros g Hg. rewrite waiting_queue, elem_of_app. by right.
  - by apply NoDup_app in Hnd as (_ & _ & ?).
  - intros Hf. destruct (gd_outs _ _ HG cli c Hc ltac:(done) Hf) as [Hwf _]. unfold bufset_wf in Hwf. rewrite He in Hwf.
    assert (Hp : forall st, pending st (cli_output c) = []) by (intros st; unfold pending; rewrite He; apply drop_nil).
    assert (Hwf' : bufset_wf (w_bufs w2) (cli_output c)) by (unfold bufset_wf; by rewrite He).
    split; [split; [exact Hwf'|exists []; exact He]|]. exists c. split; [done|]. split; [done|]. exists [], [], (answers w c), [].
    change (cli_output _) with (cli_output c) at 1. rewrite !Hp, !app_nil_r. by split_and!.
Qed.

(** After a still step a client has the same queues and the same output. *)
Lemma still_cli w w' i c : still w w' -> w_clis w !! i = Some c ->
  exists c', w_clis w' !! i = Some c' /\ lists c' = lists c /\ cli_output c' = cli_output c.
Proof. intros [_ _ _ C] Hc. specialize (C i). rewrite Hc in C. destruct (w_clis w' !! i) as [c'|]; [|done]. exists c'. by destruct C as (? & ? & _). Qed.

Lemma good_all_sent cli w :
  Good None w -> (forall c, w_clis w !! cli = Some c -> _buf_arr (cli_output c) = []) ->
  match
    (c ← get_cli cli;
     for_each (_ready_groups c) collect_stats ;;
     for_each (_ready_groups c) delete_group ;;
     set_cli cli (fun c => c <| _ready_groups := [] |>) ;;
     when (bool_decide (_awaiting_groups c = [])) (set_cli cli (fun c => c <| _peers := ∅ |>)) ;;
     when (negb (bool_decide (_parsed_groups c = []))) (_process cli)) w
  with (Ret _, w') | (Throw _, w') => Good None w' /\ streams None w w' | _ => True end.
Proof.
  intros HG He. apply (bind_get_cli (fun w w' => Good None w' /\ streams None w w')). intros c Hc.
  unfold mbind at 1, M_bind at 1. assert (Hst : within still (for_each (_ready_groups c) collect_stats)) by within_step. specialize (Hst w).
  destruct (for_each (_ready_groups c) collect_stats w) as [[[]|e|k|] w1]; try done; [|by apply (still_good None)].
  destruct (still_good None _ _ Hst HG) as [G1 S1]. destruct (still_cli _ _ _ _ Hst Hc) as (c1 & Hc1 & [= Hr _ _] & Ho).
  assert (Hfor : Forall (foreign (Some cli) w1) (_ready_groups c)).
  { apply Forall_forall. intros g Hg. eapply queue_foreign; [apply G1|exact Hc1|]. apply ready_queue. by rewrite Hr. }
  unfold mbind at 1, M_bind at 1. pose proof (good_delete_groups (Some cli) _ w1 Hfor) as Hd.
  destruct (for_each (_ready_groups c) delete_group w1) as [[[]|e|k|] w2]; try done. destruct Hd as [H2 E2].
  apply (bind_set_cli (fun w w' => Good None w' /\ streams None w w')). rewrite E2, Hc1. intros ? [= <-].
  destruct (good_finish cli c1 w1 w2 Hc1 ltac:(rewrite Ho; eauto) G1 H2 E2) as [G3 S3]. set (w3 := w2 <| w_clis ::= _ |>) in *.
  apply good_from; [intros _; split; [done|by etransitivity]|done|]. within_step.
Qed.

Lemma writev_fd_eq fd bs w :
  exists ch o bs' ch' k, writev (w_bufs w) bs ch = (o, (bs', ch')) /\ writev_fd fd bs w = (Ret (o, bs'), w <| w_kern := k |>).
Proof.
  unfold writev_fd, mbind, M_bind, gets, with_chan. destruct (k_chans (w_kern w) !! fd) as [ch|].
  - destruct (writev (w_bufs w) bs ch) as [o [bs' ch']] eqn:Ew. by eexists ch, o, bs', ch', _.
  - destruct (writev (w_bufs w) bs closed_chan) as [o [bs' ch']] eqn:Ew. exists closed_chan, o, bs', ch', (w_kern w). by destruct w.
Qed.

Lemma lapses_send_buffer_set cli : lapses cli (_send_buffer_set cli).
Proof.
  intros w HG. unfold _send_buffer_set. unfold mbind at 1, M_bind at 1, get_cli, deref_obj. destruct (w_clis w !! cli) as [c|] eqn:Hc; [|done].
  unfold mbind at 1, M_bind at 1. destruct (writev_fd_eq (cli_fd c) (cli_output c) w) as (ch & o & bs & ch' & k & Hw & ->).
  unfold mbind at 1, M_bind at 1. rewrite (set_cli_eq cli _ c) by done. unfold mbind at 1, M_bind at 1.
  match goal with |- context [lift o ?x] => set (w1 := x) end. destruct o as [all|e|u|]; cbn [lift]; try done.
  - destruct (good_written None cli c k bs ch all ch' w Hc Hw HG) as [G1 S1]. fold w1 in G1, S1.
    destruct all; cbn [when]; [|done]. pose proof (good_all_sent cli w1 G1) as Hr.
    assert (He : forall c1, w_clis w1 !! cli = Some c1 -> _buf_arr (cli_output c1) = []).
    { cbn. rewrite lookup_insert_eq. intros ? [= <-]. by eapply writev_true. }
    by apply (lapse_from cli w w1), Hr.
  - apply good_unwritten; [done|by apply good_hole].
Qed.

Ltac lapses_step :=
  repeat first
    [ apply lapses_send_buffer_set
    | solve [apply lapses_good; within_step]
    | apply lapses_bind; [|intros ?]
    | apply lapses_when
    | case_match ].

Lemma good_read_request stats cli : within (good None) (_read_request stats cli).
Proof. unfold _read_request. within_step. Qed.
#[export] Hint Resolve good_read_request : within.

Lemma lapses_write_response cli : lapses cli (_write_response cli).
Proof. unfold _write_response. lapses_step. Qed.

(** ** Events of a client *)

(** An exception that no handler of the event loop is for. *)
Definition fatal (e : exn) : bool := negb (is_bad_redis_message e || is_io_error_base e).

(** [within], but for exceptions that end the process. *)
Definition kept (R : World -> World -> Prop) {A} (c : W A) : Prop :=
  forall w, match c w with (Ret _, w') => R w w' | (Throw e, w') => fatal e = false -> R w w' | _ => True end.

Section Kept.
Context (R : World -> World -> Prop) `{!PreOrder R}.

Lemma kept_within {A} (c : W A) : within R c -> kept R c.
Proof. intros Hc w. specialize (Hc w). by destruct (c w) as [[] ?]. Qed.

Lemma kept_bind {A B} (c : W A) (f : A -> W B) : kept R c -> (forall a, kept R (f a)) -> kept R (c ≫= f).
Proof.
  intros Hc Hf w. specialize (Hc w). unfold mbind, M_bind. destruct (c w) as [[a|e|k|] w1]; try done.
  specialize (Hf a w1). destruct (f a w1) as [[] w2]; try done; [|intros He; specialize (Hf He)]; by etransitivity.
Qed.

Lemma kept_try {A} (c : W A) h : kept R c -> (forall e k, h e = Some k -> fatal e = false /\ kept R k) -> kept R (try_catch c h).
Proof.
  intros Hc Hh w. specialize (Hc w). unfold try_catch. destruct (c w) as [[a|e|k|] w1]; try done.
  destruct (h e) as [k|] eqn:Ek; [|done]. destruct (Hh e k Ek) as [He Hk]. specialize (Hc He). specialize (Hk w1).
  destruct (k w1) as [[] w2]; try done; [|intros Hf; specialize (Hk Hf)]; by etransitivity.
Qed.
End Kept.

(** Closing a client. *)
Lemma close_client cli w :
  match close_conn_fd (CClient cli) w with
  | (Ret _, w') => still w w' /\ forall c, w_clis w' !! cli = Some c -> cli_fd c = -1
  | (Throw _, _) => False
  | _ => True
  end.
Proof.
  pose proof (still_close_conn_fd (CClient cli) w) as Hs. unfold close_conn_fd, conn_fd, get_cli, deref_obj, mbind, M_bind in *.
  destruct (w_clis w !! cli) as [c|] eqn:Ec; [|done]. cbn in *. destruct (Z.eqb_spec (cli_fd c) (-1)) as [E|E].
  - split; [done|]. rewrite Ec. by intros ? [= <-].
  - unfold cio_close, set_kern, set_cli, get_cli, deref_obj, mbind, M_bind, modify in *. cbn in *. rewrite Ec in *. cbn in *.
    split; [done|]. rewrite lookup_insert_eq. by intros ? [= <-].
Qed.

Lemma good_client_on_events stats cli ev : kept (good None) (client_on_events stats cli ev).
Proof.
  unfold client_on_events. case_match; [apply kept_within; within_step|]. intros w. unfold try_catch.
  match goal with |- context [match ?c w with _ => _ end] => assert (Hl : lapses cli c) end.
  { pose proof (lapses_write_response cli). apply lapses_bind; [apply lapses_when, lapses_good; within_step|intros _].
    apply lapses_bind; [apply lapses_good; within_step|intros closed]. case_match; [apply lapses_good; within_step|].
    apply lapses_bind; [by apply lapses_when|intros _]. apply lapses_good. within_step. }
  specialize (Hl w). match type of Hl with _ -> match ?c with _ => _ end => destruct c as [[a|e|k|] w1] end; try done.
  destruct (is_bad_redis_message e || is_io_error_base e) eqn:Ee; [|unfold fatal; by rewrite Ee].
  pose proof (close_client cli w1) as Hc. destruct (close_conn_fd (CClient cli) w1) as [[a|e'|k|] w2]; try done.
  intros HG. destruct Hc as [Hst Hcl]. destruct (Hl HG) as [G1 S1]. destruct (still_good (Some cli) _ _ Hst G1) as [G2 S2].
  apply (good_closed cli); [done|by etransitivity|done].
Qed.

(** ** Clients that go away, and new ones *)

Lemma good_delete_client cli : within (good None) (delete_client cli).
Proof.
  apply within_good. intros w HG. unfold delete_client. apply (bind_get_cli (fun w w' => Good None w' /\ streams None w w')). intros c Hc.
  unfold mbind at 1, M_bind at 1. assert (Hp : within still (for_each (elements (_peers c)) (fun s => server_pop_client s cli))) by within_step.
  specialize (Hp w). destruct (for_each (elements (_peers c)) _ w) as [[[]|e|k|] w1]; try done; [|by apply (still_good None)].
  unfold mbind at 1, M_bind at 1. pose proof (still_proxy_pop cli w1) as Hx.
  destruct (proxy_pop_client cli w1) as [[[]|e|k|] w2]; try done; [|apply (still_good None); [by etransitivity|done]].
  assert (Hst : still w w2) by (by etransitivity). destruct (still_good None _ _ Hst HG) as [G2 S2].
  destruct (still_cli _ _ _ _ Hst Hc) as (c2 & Hc2 & [= H1 H2 H3] & _).
  assert (Hfor : Forall (foreign (Some cli) w2) (omap id (_parsed_groups c) ++ _awaiting_groups c ++ _ready_groups c)).
  { apply Forall_forall. intros g Hg. eapply queue_foreign; [apply G2|exact Hc2|]. unfold queue, waiting. rewrite H1, H2, H3. set_solver. }
  unfold mbind at 1, M_bind at 1. pose proof (good_delete_groups (Some cli) _ w2 Hfor) as Hd.
  destruct (for_each _ delete_group w2) as [[[]|e|k|] w3]; try done. destruct Hd as [H3' _].
  unfold mbind at 1, M_bind at 1. pose proof (close_client cli w3) as Hcl.
  destruct (close_conn_fd (CClient cli) w3) as [[[]|e|k|] w4]; try done. destruct Hcl as [Hst4 _].
  destruct (H3' (good_hole cli _ G2)) as [G3 S3]. destruct (still_good (Some cli) _ _ Hst4 G3) as [G4 S4]. cbn.
  apply good_gone; [done|]. etransitivity; [by apply streams_hole|]. by etransitivity.
Qed.
#[export] Hint Resolve good_delete_client : within.
Lemma good_client_after_events cli : within (good None) (client_after_events cli).
Proof. unfold client_after_events. within_step. Qed.
#[export] Hint Resolve good_client_after_events : within.

Lemma good_delete_name cli : within (good None) (modify (fun w => w <| w_clis ::= delete cli |>)).
Proof. apply within_modify. intros w HG. apply good_gone; [by apply good_hole|reflexivity]. Qed.
#[export] Hint Resolve good_delete_name : within.

(** A new client has a new name, no requests and no output. *)
Lemma good_new_name fd w : let i := w_next w in
  good None w (w <| w_next := S i |> <| w_clis ::= <[i := mkClient fd ∅ [] [] [] 0 [] new_bufset]> |>).
Proof.
  intros i [B [Q1 Q2 Q3 Q4] O]. set (x := mkClient _ _ _ _ _ _ _ _). set (w' := _ <| w_clis ::= _ |>).
  assert (Hl : forall j y, w_clis w' !! j = Some y -> j = i /\ y = x \/ j <> i /\ w_clis w !! j = Some y).
  { intros j y. cbn. rewrite lookup_insert_Some. naive_solver. }
  assert (Hq : forall g, g ∉ queue x) by (intros g []%elem_of_nil). assert (Hn : w_next w' = S i) by done.
  split; [split; [by eapply bufs_next; [exact B|cbn; lia]|split|]|split]; rewrite ?Hn.
  - intros j [y [[-> ->]|[_ Hy]]%Hl]; [lia|]. specialize (Q1 j ltac:(eauto)). lia.
  - intros j y g [[-> ->]|[_ Hy]]%Hl Hg; [by destruct (Hq g)|]. specialize (Q2 j y g Hy Hg). lia.
  - intros j y [[-> ->]|[_ Hy]]%Hl; [constructor|eauto].
  - intros j k y z g [[-> ->]|[_ Hy]]%Hl [[-> ->]|[_ Hz]]%Hl Gy Gz; [done|by destruct (Hq g)..|eauto].
  - intros j y [[-> ->]|[_ Hy]]%Hl Hh Hf; [split; [done|by exists []]|]. eapply (out_ok_same w w'); [done..|by eapply O].
  - lia.
  - intros j y Hj [[-> ->]|[_ Hy]]%Hl; [lia|]. exists y. split; [done|]. intros _ Hf. split; [done|]. by apply streamed_same.
Qed.

Lemma good_fresh_cli {A} fd (k : nat -> W A) :
  (forall i, within (good None) (k i)) ->
  within (good None) (i ← fresh; modify (fun w => w <| w_clis ::= <[i := mkClient fd ∅ [] [] [] 0 [] new_bufset]> |>) ;; k i).
Proof.
  intros Hk w. unfold fresh, gets, modify, mbind, M_bind. cbn. eapply (within_from (good None) w); [exact (good_new_name fd w)|apply Hk].
Qed.

Lemma good_new_client fd : within (good None) (new_client fd).
Proof. apply good_fresh_cli. intros i. within_step. Qed.
#[export] Hint Resolve good_new_client : within.
Lemma good_accept_loop fuel : within (good None) (accept_loop fuel).
Proof. induction fuel; cbn [accept_loop]; within_step. Qed.
#[export] Hint Resolve good_accept_loop : within.

(** ** Long connections *)

Lemma good_restore_client l rsp upd : within (good None) (restore_client l rsp upd).
Proof. unfold restore_client, update_slot_map. within_step. Qed.
#[export] Hint Resolve good_restore_client : within.
Lemma good_server_conn_on_error l : within (good None) (server_conn_on_error l).
Proof. unfold server_conn_on_error. within_step. Qed.
#[export] Hint Resolve good_server_conn_on_error : within.
Lemma good_long_on_events l ev : within (good None) (long_on_events l ev).
Proof. unfold long_on_events. within_step. Qed.
Lemma good_long_server_on_events l ev : within (good None) (long_server_on_events l ev).
Proof. unfold long_server_on_events, subscription_server_on_events, blocked_server_on_events. within_step. Qed.
#[export] Hint Resolve good_long_on_events good_long_server_on_events : within.

Lemma good_after_events c active : within (good None) (after_events c active).
Proof.
  destruct c; cbn [after_events]; unfold server_after_events, long_after_events, long_server_after_events, update_slot_map; within_step.
Qed.
#[export] Hint Resolve good_after_events : within.
Lemma good_after_all conns active : within (good None) (after_all conns active).
Proof. revert active. induction conns; intros; cbn [after_all]; within_step. Qed.
#[export] Hint Resolve good_after_all : within.
