(* ===== verification/Wake.v ===== *)
(** * Nobody waits in vain

    The event loop only hears of what it asks epoll for.  [Awake]: an open client with output has
    its descriptor polled for writing, or is about to be when [poll_ctl] runs; a client with
    requests has some that are handed to the servers or some whose responses are in its output; and
    a server that is closed holds no command.  Each operation keeps this, except for the client or
    the server it is at work on (the hole [h]). *)
From S2P Require Import Prelude Strings OrderedSet Address SlotCalc Buffer Response SlotMap CommandParser Logic World Kernel Command Server LongConn Client Proxy Concurrence Frames Quiet Order Output Delivery.
#[local] Open Scope Z_scope.

(** ** The invariant *)

Definition loaded (c : Client) : Prop := _buf_arr (cli_output c) <> [].
Definition polls (w : World) : gmap Connection bool := _conn_poll_type (w_proxy w).

(** [m]: what [poll_ctl] is to ask for; the epoll set asks for the rest already. *)
Definition watched (m : gmap Connection bool) (ep : gmap Z (Connection * Z)) (i : nat) (c : Client) : Prop :=
  m !! CClient i = Some true \/
  (m !! CClient i = None /\ forall ev, ep !! cli_fd c = Some (CClient i, ev) -> event_is_write ev = true).

(** [e]: groups that wait though all their responses are there are not left behind either. *)
Record served (e : Prop) (c : Client) : Prop := {
  sv_ready : _ready_groups c <> [] -> loaded c;
  sv_parsed : _parsed_groups c <> [] -> _awaiting_groups c <> [] \/ loaded c;
  sv_awaiting : e -> _awaiting_groups c <> [] -> _awaiting_count c = 0 -> loaded c
}.

Definition idle (x : Server) : Prop := _commands x = [] /\ omap id (_sent_commands x) = [].

Record Awake (E : nat -> Prop) (h : option Connection) (w : World) : Prop := {
  aw_sockets : forall fd c, SockFd fd c ∈ k_sockets (w_kern w) -> fd <> -1;
  aw_names : forall i c g, w_clis w !! i = Some c -> Some g ∈ _parsed_groups c \/ g ∈ _awaiting_groups c -> (g < w_next w)%nat;
  aw_class : forall i c gi g, w_clis w !! i = Some c -> gi ∈ _awaiting_groups c -> w_grps w !! gi = Some g -> long_connection g = false;
  aw_served : forall i c, h <> Some (CClient i) -> w_clis w !! i = Some c -> cli_fd c <> -1 -> served (E i) c;
  aw_watched : forall i c, h <> Some (CClient i) -> w_clis w !! i = Some c -> cli_fd c <> -1 -> loaded c ->
    watched (polls w) (k_epoll (w_kern w)) i c;
  aw_idle : forall s x, h <> Some (CServer s) -> w_svrs w !! s = Some x -> svr_fd x = -1 -> idle x
}.

Definition awake (E : nat -> Prop) (h : option Connection) (w w' : World) : Prop := Awake E h w -> Awake E h w'.

#[export] Instance awake_preorder E h : PreOrder (awake E h).
Proof. split; [intros w Hw; exact Hw|]. intros w1 w2 w3 H1 H2 H. auto. Qed.

(** ** Changes that keep it *)

(** The same queues, count and output; the client may have been closed. *)
Definition cli_like (c c' : Client) : Prop :=
  lists c' = lists c /\ _awaiting_count c' = _awaiting_count c /\ _buf_arr (cli_output c') = _buf_arr (cli_output c) /\
  (cli_fd c' = cli_fd c \/ cli_fd c' = -1).

Definition cli_fewer (c c' : Client) : Prop :=
  (forall g, Some g ∈ _parsed_groups c' -> Some g ∈ _parsed_groups c) /\ (forall g, g ∈ _awaiting_groups c' -> g ∈ _awaiting_groups c).

Definition blank (c : Client) : Prop := lists c = ([], [], []) /\ _buf_arr (cli_output c) = [].
Definition hollow (c : Client) : Prop := (forall g, Some g ∉ _parsed_groups c) /\ (forall g, g ∉ _awaiting_groups c).

Section Frame.
Context (h : option Connection).

Record nudge (w w' : World) : Prop := {
  fr_next : (w_next w <= w_next w')%nat;
  fr_sockets : forall fd c, SockFd fd c ∈ k_sockets (w_kern w') -> SockFd fd c ∈ k_sockets (w_kern w);
  fr_clis : forall i c', w_clis w' !! i = Some c' ->
    (exists c, w_clis w !! i = Some c /\ (cli_like c c' \/ h = Some (CClient i) /\ cli_fewer c c')) \/
    blank c' \/ h = Some (CClient i) /\ hollow c';
  fr_polls : forall i, h <> Some (CClient i) -> polls w' !! CClient i = polls w !! CClient i \/ polls w' !! CClient i = Some true;
  fr_epoll : forall fd i ev, h <> Some (CClient i) -> k_epoll (w_kern w') !! fd = Some (CClient i, ev) ->
    k_epoll (w_kern w) !! fd = Some (CClient i, ev) \/ event_is_write ev = true;
  fr_grps : forall gi g', w_grps w' !! gi = Some g' ->
    (exists g, w_grps w !! gi = Some g /\ long_connection g = long_connection g') \/ long_connection g' = false \/ (w_next w <= gi)%nat;
  fr_svrs : forall s x', w_svrs w' !! s = Some x' ->
    h = Some (CServer s) \/ svr_fd x' <> -1 \/ idle x' \/
    exists x, w_svrs w !! s = Some x /\ svr_fd x = svr_fd x' /\ (idle x -> idle x')
}.

Lemma cli_like_refl c : cli_like c c.
Proof. split_and!; auto. Qed.

Lemma cli_like_trans c1 c2 c3 : cli_like c1 c2 -> cli_like c2 c3 -> cli_like c1 c3.
Proof. intros (? & ? & ? & ?) (? & ? & ? & ?). split_and!; try congruence. intuition congruence. Qed.

Lemma cli_like_fewer c c' : cli_like c c' -> cli_fewer c c'.
Proof. intros ([= _ E1 E2] & _). unfold cli_fewer. rewrite E1, E2. done. Qed.

Lemma cli_fewer_trans c1 c2 c3 : cli_fewer c1 c2 -> cli_fewer c2 c3 -> cli_fewer c1 c3.
Proof. intros [] []. split; auto. Qed.

Lemma blank_hollow c : blank c -> hollow c.
Proof. intros ([= E1 E2 E3] & _). split; [rewrite E3|rewrite E2]; intros g; apply not_elem_of_nil. Qed.

Lemma blank_like c c' : blank c -> cli_like c c' -> blank c'.
Proof. intros [B1 B2] (L1 & _ & L2 & _). split; congruence. Qed.

Lemma hollow_fewer c c' : hollow c -> cli_fewer c c' -> hollow c'.
Proof. intros [H1 H2] [F1 F2]. split; intros g Hg; [by apply (H1 g), F1|by apply (H2 g), F2]. Qed.

#[export] Instance frame_preorder : PreOrder nudge.
Proof.
  split.
  - intros w. split; try done; auto.
    + intros i c Hc. left. exists c. auto using cli_like_refl.
    + intros gi g Hg. left. by exists g.
    + intros s x Hx. do 3 right. by exists x.
  - intros w1 w2 w3 [N1 K1 C1 P1 E1 G1 S1] [N2 K2 C2 P2 E2 G2 S2]. split; [lia|by auto|..].
    + intros i c3 [(c2 & H2 & H23)|[B|B]]%C2; [|by auto..]. destruct (C1 i c2 H2) as [(c1 & H1 & H12)|[B|[Hh B]]].
      * left. exists c1. split; [done|]. destruct H12 as [L|[Hh F]], H23 as [L'|[Hh' F']];
          eauto using cli_like_trans, cli_fewer_trans, cli_like_fewer.
      * right. destruct H23 as [L|[Hh F]]; [left; by eapply blank_like|right; eauto using blank_hollow, hollow_fewer].
      * do 2 right. destruct H23 as [L|[_ F]]; eauto using hollow_fewer, cli_like_fewer.
    + intros i Hi. destruct (P2 i Hi) as [->|]; auto.
    + intros fd i ev Hi [H|]%E2; auto.
    + intros gi g3 [(g2 & H2 & H23)|[?|?]]%G2; [|by auto|do 2 right; lia]. destruct (G1 gi g2 H2) as [(g1 & H1 & H12)|[?|?]]; [|right..].
      * left. exists g1. by rewrite H12.
      * left. congruence.
      * by right.
    + intros s x3 [?|[?|[?|(x2 & H2 & F2 & I2)]]]%S2; auto. destruct (S1 s x2 H2) as [?|[?|[?|(x1 & H1 & F1 & I1)]]]; auto.
      * right. left. congruence.
      * do 3 right. exists x1. split_and!; [done|congruence|auto].
Qed.

Lemma served_like e c c' : cli_like c c' -> served e c -> served e c'.
Proof. intros ([= R A P] & N & O & _) [S1 S2 S3]. unfold loaded in *. split; unfold loaded; rewrite ?R, ?A, ?P, ?N, ?O; done. Qed.

Lemma served_blank e c : blank c -> served e c.
Proof. intros ([= R A P] & _). by split; rewrite ?R, ?A, ?P. Qed.

Lemma frame_awake E w w' : nudge w w' -> awake E h w w'.
Proof.
  intros [N K C P Ep G S] [A1 A2 A3 A4 A5 A6]. split.
  - eauto.
  - intros i c' g Hc' Hg. destruct (C i c' Hc') as [(c & Hc & HR)|HB].
    + assert (F : cli_fewer c c') by (destruct HR as [L|[_ F]]; [by apply cli_like_fewer|done]). destruct F as [F1 F2].
      assert (g < w_next w)%nat; [|lia]. eapply A2; [exact Hc|]. destruct Hg; auto.
    + assert (B : hollow c') by (destruct HB as [B|[_ B]]; [by apply blank_hollow|done]). destruct B as [B1 B2]. by destruct Hg as [?%B1|?%B2].
  - intros i c' gi g' Hc' Hin Hg'. destruct (C i c' Hc') as [(c & Hc & HR)|HB].
    + assert (F : cli_fewer c c') by (destruct HR as [L|[_ F]]; [by apply cli_like_fewer|done]). apply F in Hin.
      destruct (G gi g' Hg') as [(g & Hg & <-)|[?|Hn]]; [by eapply A3|done|]. pose proof (A2 i c gi Hc (or_intror Hin)). lia.
    + assert (B : hollow c') by (destruct HB as [B|[_ B]]; [by apply blank_hollow|done]). by apply B in Hin.
  - intros i c' Hh Hc' Hf. destruct (C i c' Hc') as [(c & Hc & [L|[? _]])|[B|[? _]]]; [|done|by apply served_blank|done].
    eapply served_like; [exact L|]. eapply A4; [done|exact Hc|]. destruct L as (_ & _ & _ & [<-|?]); congruence.
  - intros i c' Hh Hc' Hf Hl. destruct (C i c' Hc') as [(c & Hc & [L|[? _]])|[[_ B]|[? _]]]; [|done..].
    assert (Hfd : cli_fd c' = cli_fd c) by (destruct L as (_ & _ & _ & [<-|?]); congruence).
    assert (Hl' : loaded c) by (destruct L as (_ & _ & L & _); unfold loaded in *; congruence).
    destruct (P i Hh) as [Pi|]; [|by left]. destruct (A5 i c Hh Hc ltac:(congruence) Hl') as [?|[Pn He]]; [left; congruence|].
    right. split; [congruence|]. intros ev Hev. rewrite Hfd in Hev. destruct (Ep _ _ _ Hh Hev); auto.
  - intros s x' Hh Hx' Hf. destruct (S s x' Hx') as [?|[?|[?|(x & Hx & Fx & Ix)]]]; [done..|]. apply Ix. eapply A6; [done|exact Hx|congruence].
Qed.

(** ** Primitive operations *)

(** A change in a few of the stores. *)
Lemma frame_intro w w' :
  (w_next w <= w_next w')%nat -> w_kern w' = w_kern w -> polls w' = polls w ->
  (forall i c', w_clis w' !! i = Some c' -> (exists c, w_clis w !! i = Some c /\ (cli_like c c' \/ h = Some (CClient i) /\ cli_fewer c c')) \/
    blank c' \/ h = Some (CClient i) /\ hollow c') ->
  (forall gi g', w_grps w' !! gi = Some g' -> (exists g, w_grps w !! gi = Some g /\ long_connection g = long_connection g') \/ long_connection g' = false \/ (w_next w <= gi)%nat) ->
  (forall s x', w_svrs w' !! s = Some x' -> h = Some (CServer s) \/ svr_fd x' <> -1 \/ idle x' \/
    exists x, w_svrs w !! s = Some x /\ svr_fd x = svr_fd x' /\ (idle x -> idle x')) -> nudge w w'.
Proof. intros H1 H2 H3 H4 H5 H6. split; rewrite ?H2, ?H3; auto. Qed.

Lemma clis_same (m m' : gmap nat Client) : m' = m ->
  forall i c', m' !! i = Some c' -> (exists c, m !! i = Some c /\ (cli_like c c' \/ h = Some (CClient i) /\ cli_fewer c c')) \/
    blank c' \/ h = Some (CClient i) /\ hollow c'.
Proof. intros -> i c Hc. left. exists c. auto using cli_like_refl. Qed.

Lemma grps_same (m m' : gmap nat CommandGroup) (n : nat) : m' = m ->
  forall gi g', m' !! gi = Some g' -> (exists g, m !! gi = Some g /\ long_connection g = long_connection g') \/ long_connection g' = false \/ (n <= gi)%nat.
Proof. intros -> gi g Hg. left. by exists g. Qed.

Lemma svrs_same (m m' : gmap nat Server) : m' = m ->
  forall s x', m' !! s = Some x' -> h = Some (CServer s) \/ svr_fd x' <> -1 \/ idle x' \/
    exists x, m !! s = Some x /\ svr_fd x = svr_fd x' /\ (idle x -> idle x').
Proof. intros -> s x Hx. do 3 right. by exists x. Qed.

Lemma frame_modify f :
  (forall w, w_clis (f w) = w_clis w /\ w_svrs (f w) = w_svrs w /\ w_grps (f w) = w_grps w /\ w_kern (f w) = w_kern w /\
    polls (f w) = polls w /\ (w_next w <= w_next (f w))%nat) -> within nudge (modify f).
Proof.
  intros Hf. apply within_modify. intros w. destruct (Hf w) as (H1 & H2 & H3 & H4 & H5 & H6).
  apply frame_intro; [done..|by apply clis_same|by apply grps_same|by apply svrs_same].
Qed.

Lemma frame_set_cli i f : (forall c, cli_like c (f c) \/ h = Some (CClient i) /\ cli_fewer c (f c)) -> within nudge (set_cli i f).
Proof.
  intros Hf w. unfold set_cli, get_cli, deref_obj, mbind, M_bind. destruct (w_clis w !! i) as [c|] eqn:Ec; [|done].
  apply frame_intro; cbn; [done..| |by apply grps_same|by apply svrs_same]. intros j c'. rewrite lookup_insert_Some. intros [[<- <-]|[_ Hc']]; left; [by exists c|].
  exists c'. auto using cli_like_refl.
Qed.

Lemma frame_set_svr i f : (forall x, svr_fd (f x) = svr_fd x /\ (idle x -> idle (f x)) \/ h = Some (CServer i) \/ svr_fd (f x) <> -1) -> within nudge (set_svr i f).
Proof.
  intros Hf w. unfold set_svr, get_svr, deref_obj, mbind, M_bind. destruct (w_svrs w !! i) as [x|] eqn:Ex; [|done].
  apply frame_intro; cbn; [done..|by apply clis_same|by apply grps_same|]. intros j x'. rewrite lookup_insert_Some. intros [[<- <-]|[_ Hx']].
  - destruct (Hf x) as [[F I]|[?|?]]; [|by auto..]. do 3 right. by exists x.
  - do 3 right. by exists x'.
Qed.

Lemma frame_set_grp i f : (forall g, long_connection (f g) = long_connection g \/ long_connection (f g) = false) -> within nudge (set_grp i f).
Proof.
  intros Hf w. unfold set_grp, get_grp, deref_obj, mbind, M_bind. destruct (w_grps w !! i) as [g|] eqn:Eg; [|done].
  apply frame_intro; cbn; [done..|by apply clis_same| |by apply svrs_same]. intros j g'. rewrite lookup_insert_Some. intros [[<- <-]|[_ Hg']]; [|left; eauto].
  destruct (Hf g); [left; eauto|auto].
Qed.

Lemma frame_kern w k' :
  (forall fd c, SockFd fd c ∈ k_sockets k' -> SockFd fd c ∈ k_sockets (w_kern w)) ->
  (forall fd i ev, h <> Some (CClient i) -> k_epoll k' !! fd = Some (CClient i, ev) ->
    k_epoll (w_kern w) !! fd = Some (CClient i, ev) \/ event_is_write ev = true) -> nudge w (w <| w_kern := k' |>).
Proof. intros H1 H2. split; cbn; auto; [by apply clis_same|by apply grps_same|by apply svrs_same]. Qed.

Lemma frame_set_kern f :
  (forall k fd c, SockFd fd c ∈ k_sockets (f k) -> SockFd fd c ∈ k_sockets k) ->
  (forall k fd e, k_epoll (f k) !! fd = Some e -> k_epoll k !! fd = Some e) -> within nudge (set_kern f).
Proof. intros H1 H2 w. apply (frame_kern w); eauto. Qed.

Lemma frame_with_chan {A} fd (op : chan -> outcome A * chan) : within nudge (with_chan fd op).
Proof.
  intros w. unfold with_chan. destruct (k_chans (w_kern w) !! fd) as [c|]; [|by destruct (op closed_chan).1].
  destruct (op c) as [o c']. destruct o; try done; apply (frame_kern w); auto.
Qed.

(** [c] is not a client whose polling matters. *)
Definition aside (c : Connection) : Prop := forall i, c = CClient i -> h = Some (CClient i).

Lemma frame_ctl (add : bool) fd c ev :
  aside c \/ event_is_write ev = true -> within nudge (if add then epoll_ctl_add fd c ev else epoll_ctl_mod fd c ev).
Proof.
  intros Hc w. assert (Hk : nudge w (w <| w_kern ::= (fun k => k <| k_epoll ::= <[fd := (c, ev)]> |>) |>)).
  { apply (frame_kern w); [done|]. cbn. intros fd' i ev' Hi. rewrite lookup_insert_Some. intros [[<- [= -> ->]]|[_ Hev]]; [|by left].
    destruct Hc as [Hc|]; [|by right]. by destruct (Hi (Hc i eq_refl)). }
  unfold epoll_ctl_add, epoll_ctl_mod, set_kern, modify, gets, mbind, M_bind. destruct add; cbn;
    destruct (k_chans (w_kern w) !! fd), (k_epoll (w_kern w) !! fd); cbn; first [exact Hk|reflexivity].
Qed.
End Frame.

#[export] Hint Extern 2 (within (nudge _) (modify _)) => (apply frame_modify; intros ?; split_and!; solve [reflexivity | cbn; lia]) : within.
#[export] Hint Extern 1 (within (nudge _) (set_cli _ _)) => (apply frame_set_cli; intros ?; left; split_and!; solve [auto]) : within.
#[export] Hint Extern 1 (within (nudge _) (set_grp _ _)) => (apply frame_set_grp; intros ?; first [left; reflexivity|right; reflexivity]) : within.
#[export] Hint Extern 1 (within (nudge _) (set_svr _ _)) => (apply frame_set_svr; intros ?; left; split; solve [auto]) : within.
Lemma frame_set_hole s f : within (nudge (Some (CServer s))) (set_svr s f).
Proof. apply frame_set_svr. auto. Qed.
#[export] Hint Resolve frame_with_chan frame_set_hole : within.

Section Kernel.
Context (h : option Connection).
#[local] Abbreviation quiet c := (within (nudge h) c).

Lemma frame_next {A} (script : Kernel -> list A) f d :
  (forall k fd c, SockFd fd c ∈ k_sockets (f k) -> SockFd fd c ∈ k_sockets k) ->
  (forall k fd e, k_epoll (f k) !! fd = Some e -> k_epoll k !! fd = Some e) -> quiet (next_script script f d).
Proof. intros H1 H2. unfold next_script. within_step. by apply frame_set_kern. Qed.

Lemma frame_fresh : quiet fresh.
Proof. unfold fresh. intros w. apply frame_intro; cbn; [lia|done..|by apply clis_same|by apply grps_same|by apply svrs_same]. Qed.
Lemma frame_read fd b : quiet (read_fd fd b).
Proof. unfold read_fd. within_step. Qed.
Lemma frame_write fd b : quiet (write_fd fd b).
Proof. unfold write_fd. within_step. Qed.
Lemma frame_flush fd b : quiet (flush_fd fd b).
Proof. unfold flush_fd. within_step. Qed.
Lemma frame_writev fd bs : quiet (writev_fd fd bs).
Proof. unfold writev_fd. within_step. Qed.
Lemma frame_close fd : quiet (cio_close fd).
Proof. apply frame_set_kern; cbn; [done|]. intros k fd' e. rewrite lookup_delete_Some. by intros []. Qed.
Lemma frame_epoll_del fd : quiet (epoll_del fd).
Proof. apply frame_set_kern; cbn; [done|]. intros k fd' e. rewrite lookup_delete_Some. by intros []. Qed.
Lemma wk_tail {A} (x : A) l : x ∈ tail l -> x ∈ l.
Proof. destruct l; [done|]. by right. Qed.
Lemma frame_socket : quiet new_stream_socket.
Proof.
  unfold new_stream_socket. apply within_bind; [typeclasses eauto|apply frame_next; cbn; [|done]|intros r; case_match; within_step].
  - intros k fd c. apply wk_tail.
  - by apply frame_set_kern.
Qed.
Lemma frame_accept : quiet cio_accept.
Proof. unfold cio_accept. apply within_bind; [typeclasses eauto|by apply frame_next|intros r; case_match; within_step]. by apply frame_set_kern. Qed.
Lemma frame_nonblocking fd : quiet (set_nonblocking fd).
Proof. unfold set_nonblocking. within_step. by apply frame_set_kern. Qed.
Lemma frame_connect a p fd : quiet (connect_fd a p fd).
Proof. unfold connect_fd. within_step. by apply frame_set_kern. Qed.
Lemma frame_now : quiet now.
Proof. unfold now. within_step. by apply frame_set_kern. Qed.
Lemma frame_randint a b : quiet (randint a b).
Proof. unfold randint. within_step. by apply frame_set_kern. Qed.
#[local] Hint Resolve frame_fresh frame_close frame_epoll_del : within.

Lemma frame_poll_check what e : quiet (poll_check what e).
Proof. unfold poll_check. within_step. Qed.
Lemma frame_conn_fd c : quiet (conn_fd c).
Proof. destruct c; cbn [conn_fd]; within_step. Qed.
#[local] Hint Resolve frame_poll_check frame_conn_fd : within.
Lemma frame_is_closed c : quiet (is_closed c).
Proof. unfold is_closed. within_step. Qed.
Lemma frame_polling c what (ctl : Z -> Connection -> W (option Z)) :
  (forall fd, quiet (ctl fd c)) -> quiet (fd ← conn_fd c; e ← ctl fd c; poll_check what e).
Proof. intros Hc. apply within_bind; [typeclasses eauto|within_step|intros fd]. apply within_bind; [typeclasses eauto|apply Hc|intros e; within_step]. Qed.
Lemma frame_poll_add_rw c : quiet (poll_add_rw c).
Proof. apply frame_polling. intros fd. apply (frame_ctl h true). by right. Qed.
Lemma frame_poll_rw c : quiet (poll_rw c).
Proof. apply frame_polling. intros fd. apply (frame_ctl h false). by right. Qed.
Lemma frame_poll_add_ro c : aside h c -> quiet (poll_add_ro c).
Proof. intros Hc. apply frame_polling. intros fd. apply (frame_ctl h true). by left. Qed.
Lemma frame_poll_ro c : aside h c -> quiet (poll_ro c).
Proof. intros Hc. apply frame_polling. intros fd. apply (frame_ctl h false). by left. Qed.
Lemma frame_poll_del c : quiet (poll_del c).
Proof. unfold poll_del. within_step. Qed.
End Kernel.

#[export] Hint Resolve frame_fresh frame_read frame_write frame_flush frame_writev frame_close frame_epoll_del frame_socket frame_accept
  frame_nonblocking frame_connect frame_now frame_randint frame_conn_fd frame_is_closed frame_poll_add_rw frame_poll_rw
  frame_poll_add_ro frame_poll_ro frame_poll_del : within.
#[export] Hint Extern 1 (aside _ _) => (intros ? ?; first [discriminate|congruence]) : within.

(** ** Operations that leave the clients alone *)

Lemma idle_drop x n : idle x -> idle (x <| _sent_commands ::= drop n |>).
Proof. intros [Hc Hs]. split; [done|]. cbn. revert Hs. generalize (_sent_commands x). intros l. revert n. induction l as [|[c|] l IH]; intros [|n]; cbn; auto. done. Qed.
Lemma idle_null x : idle x -> idle (x <| _sent_commands ::= (fun l => l ++ [None]) |>).
Proof. intros [Hc Hs]. split; [done|]. cbn. by rewrite omap_app, Hs. Qed.
Lemma idle_clear x : idle x -> idle (x <| _commands := [] |>).
Proof. by intros [_ Hs]. Qed.
#[export] Hint Resolve idle_drop idle_null idle_clear : core.

Ltac frame_step :=
  repeat first
    [ solve [eauto 5 with within nocore]
    | apply within_bind; [typeclasses eauto| |intros ?]
    | apply within_when; [typeclasses eauto|]
    | apply within_for; [typeclasses eauto|]; intros ?
    | apply within_on_throw; [typeclasses eauto|..]
    | apply within_try; [typeclasses eauto| |intros ? ? ?]
    | match goal with H : (if ?b then Some _ else None) = Some _ |- _ => destruct b; [injection H as <-|discriminate H] end
    | match goal with H : Some _ = Some _ |- _ => injection H as <- end
    | progress cbn [negb]
    | progress unfold set_cmd, set_long, set_upd, set_proxy, set_glob
    | case_match ].

(** One step from a state that is known. *)
Lemma from_bind (R : World -> World -> Prop) `{!PreOrder R} {A B} (c : W A) (f : A -> W B) w :
  match c w with (Ret _, w') | (Throw _, w') => R w w' | _ => True end ->
  (forall a w', c w = (Ret a, w') -> match f a w' with (Ret _, w2) | (Throw _, w2) => R w' w2 | _ => True end) ->
  match (c ≫= f) w with (Ret _, w') | (Throw _, w') => R w w' | _ => True end.
Proof.
  intros Hc Hf. unfold mbind, M_bind. destruct (c w) as [[a|e|k|] w1]; try done. specialize (Hf a w1 eq_refl).
  destruct (f a w1) as [[] w2]; try done; by etransitivity.
Qed.

(** What follows does not depend on the state. *)
Ltac whole := match goal with |- context [nudge ?h ?w _] => match goal with |- context [match ?k w with _ => _ end] => apply (fun H : within (nudge h) k => H w) end end.

Section Operations.
Context (h : option Connection).
#[local] Abbreviation quiet c := (within (nudge h) c).

Lemma frame_set_conn_poll_rw c : quiet (set_conn_poll_rw c).
Proof.
  intros w. split; cbn; auto; [by apply clis_same| |by apply grps_same|by apply svrs_same]. intros i _. unfold polls. cbn.
  destruct (decide (c = CClient i)) as [->|]; [right; apply lookup_insert_eq|left; by apply lookup_insert_ne].
Qed.
Lemma frame_set_conn_poll_ro c : aside h c -> quiet (set_conn_poll_ro c).
Proof.
  intros Hc w. split; cbn; auto; [by apply clis_same| |by apply grps_same|by apply svrs_same]. intros i Hi. left. unfold polls. cbn.
  rewrite lookup_insert_ne; [done|]. intros ->. by destruct (Hi (Hc i eq_refl)).
Qed.
Lemma frame_get_by_slot ks : quiet (get_by_slot ks).
Proof. unfold get_by_slot. within_step. Qed.
#[local] Hint Resolve frame_set_conn_poll_rw frame_set_conn_poll_ro frame_get_by_slot : within.
Lemma frame_get_server_by_slot ks : quiet (get_server_by_slot ks).
Proof. unfold get_server_by_slot. within_step. Qed.
#[local] Hint Resolve frame_get_server_by_slot : within.

(** A server that is selected is open. *)
Lemma get_server_by_slot_open ks w s w' : get_server_by_slot ks w = (Ret (Some s), w') -> w' = w /\ forall x, w_svrs w !! s = Some x -> svr_fd x <> -1.
Proof.
  unfold get_server_by_slot, get_by_slot, is_closed, conn_fd, get_svr, deref_obj, mbind, M_bind, gets. destruct (_ && _); [|done].
  destruct (_server_map (w_proxy w) !! ks) as [i|]; [|done]. destruct (w_svrs w !! i) as [x|] eqn:Ex; [|done]. cbn.
  destruct (Z.eqb_spec (svr_fd x) (-1)); [done|]. intros [= <- <-]. split; [done|]. rewrite Ex. by intros ? [= <-].
Qed.
Lemma frame_push_open s w : (forall x, w_svrs w !! s = Some x -> svr_fd x <> -1) -> forall c,
  match set_svr s (fun x => x <| _commands ::= (fun l => l ++ [c]) |>) w with (Ret _, w') | (Throw _, w') => nudge h w w' | _ => True end.
Proof.
  intros Ho c. unfold set_svr, get_svr, deref_obj, mbind, M_bind. destruct (w_svrs w !! s) as [x|] eqn:Ex; [|done].
  apply frame_intro; cbn; [done..|by apply clis_same|by apply grps_same|]. intros j x'. rewrite lookup_insert_Some.
  intros [[<- <-]|[_ Hx']]; [right; left; exact (Ho x eq_refl)|do 3 right; by exists x'].
Qed.
Lemma frame_retry c : quiet (retry_move_ask_command_later c).
Proof. unfold retry_move_ask_command_later. within_step. Qed.
#[local] Hint Resolve frame_retry : within.
Lemma frame_select_server_for c ks : quiet (select_server_for c ks).
Proof.
  intros w. unfold select_server_for. apply from_bind; [typeclasses eauto|apply frame_get_server_by_slot|]. intros [s|] w1 Eg; [|whole; within_step].
  apply get_server_by_slot_open in Eg as [-> Ho]. apply from_bind; [typeclasses eauto| |intros [] w2 _; whole; within_step].
  unfold push_client_command. apply from_bind; [typeclasses eauto|by apply frame_push_open|]. intros [] w2 _. whole. unfold add_peer. within_step.
Qed.
#[local] Hint Resolve frame_select_server_for : within.
Lemma frame_select_server c : quiet (select_server c).
Proof. unfold select_server. within_step. Qed.
#[local] Hint Resolve frame_select_server : within.
Lemma frame_reactivate c : quiet (reactivate c).
Proof. unfold reactivate. within_step. Qed.
Lemma frame_buffers_of_cmds cs : quiet (buffers_of_cmds cs).
Proof. induction cs; cbn [buffers_of_cmds]; unfold buffer_of_cmd; within_step. Qed.
#[local] Hint Resolve frame_reactivate frame_buffers_of_cmds : within.
Lemma frame_append_buffer_to g : quiet (append_buffer_to g).
Proof. unfold append_buffer_to, buffer_of_cmd, multi_append_buffer, del_append_buffer, mset_append_buffer, set_buffer. within_step. Qed.
Lemma frame_total_cost cs : quiet (total_remote_cost cs).
Proof. induction cs; cbn [total_remote_cost]; within_step. Qed.
#[local] Hint Resolve frame_append_buffer_to frame_total_cost : within.
Lemma frame_collect_stats g : quiet (collect_stats g).
Proof. unfold collect_stats, avg_commands_remote_cost, stat_proccessed. within_step. Qed.
Lemma frame_new_command b g cls : quiet (new_command b g cls).
Proof. unfold new_command, new_buffer. within_step. Qed.
#[local] Hint Resolve frame_new_command : within.
Lemma frame_new_commands g cmds : quiet (new_commands g cmds).
Proof. induction cmds as [|[b ks] cmds IH]; cbn [new_commands]; within_step. Qed.
#[local] Hint Resolve frame_new_commands : within.

(** A group for a long connection has a new name. *)
Lemma frame_insert_grp w g x : long_connection x = false \/ (w_next w <= g)%nat -> forall n, (w_next w <= n)%nat ->
  nudge h w (w <| w_next := n |> <| w_grps ::= <[g := x]> |>).
Proof.
  intros Hx n Hn. apply frame_intro; cbn; [done..|by apply clis_same| |by apply svrs_same].
  intros gi g'. rewrite lookup_insert_Some. intros [[<- <-]|[_ Hg]]; [by right|left; eauto].
Qed.
Lemma frame_new_group cli g cls t : long_connection (mkGroup cli cls t false) = false -> quiet (new_group cli g cls t).
Proof. intros Hl w. apply (frame_insert_grp w); auto. Qed.
Lemma frame_new_long_group cli cls t : quiet (g ← fresh; new_group cli g cls t ;; mret g).
Proof. intros w. apply (frame_insert_grp w); [by right|lia]. Qed.
#[local] Hint Extern 1 (within (nudge _) (new_group _ _ _ _)) => (apply frame_new_group; reflexivity) : within.
#[local] Hint Resolve frame_new_long_group : within.
Lemma frame_make_group stats cli sp : quiet (make_group stats cli sp).
Proof.
  unfold make_group, notify_each_thread_update_slot_map, update_slot_map, new_direct_group, new_single_group, new_multi_group, new_buffer. within_step.
Qed.
Lemma frame_delete_group g : quiet (delete_group g).
Proof.
  unfold delete_group. within_step. intros w. apply frame_intro; cbn; [done..|by apply clis_same| |by apply svrs_same].
  intros gi g'. rewrite lookup_delete_Some. intros [_ Hg]. left. eauto.
Qed.
End Operations.

#[export] Hint Resolve frame_set_conn_poll_rw frame_set_conn_poll_ro frame_get_by_slot frame_get_server_by_slot frame_select_server
  frame_reactivate frame_retry frame_append_buffer_to frame_collect_stats frame_new_command frame_new_commands
  frame_make_group frame_delete_group : within.
Lemma within_frame E h {A} (c : W A) : within (nudge h) c -> within (awake E h) c.
Proof. apply within_mono. intros w w'. apply frame_awake. Qed.
#[export] Hint Extern 4 (within (awake _ _) _) => (apply within_frame) : within.

(** ** Assertions on the returns *)

Definition triple (P : World -> Prop) {A} (c : W A) (Q : A -> World -> Prop) : Prop :=
  forall w, P w -> match c w with (Ret a, w') => Q a w' | _ => True end.

Lemma triple_bind P {A B} (c : W A) (f : A -> W B) Q R : triple P c Q -> (forall a, triple (Q a) (f a) R) -> triple P (c ≫= f) R.
Proof. intros Hc Hf w Hw. specialize (Hc w Hw). unfold mbind, M_bind. destruct (c w) as [[a|e|k|] w']; try done. by apply Hf. Qed.
Lemma triple_ret P {A} (a : A) (Q : A -> World -> Prop) : (forall w, P w -> Q a w) -> triple P (mret a) Q.
Proof. intros HQ w Hw. by apply HQ. Qed.
Lemma triple_any P {A} (c : W A) : triple P c (fun _ _ => True).
Proof. intros w _. by destruct (c w) as [[] ?]. Qed.
Lemma triple_pre P P' {A} (c : W A) Q : (forall w, P w -> P' w) -> triple P' c Q -> triple P c Q.
Proof. intros HP Hc w Hw. by apply Hc, HP. Qed.
Lemma triple_post P {A} (c : W A) Q Q' : (forall a w, Q a w -> Q' a w) -> triple P c Q -> triple P c Q'.
Proof. intros HQ Hc w Hw. specialize (Hc w Hw). destruct (c w) as [[] w']; auto. Qed.
Lemma triple_and P P' {A} (c : W A) (Q Q' : A -> World -> Prop) :
  triple P c Q -> triple P' c Q' -> triple (fun w => P w /\ P' w) c (fun a w => Q a w /\ Q' a w).
Proof. intros H1 H2 w [HP HP']. specialize (H1 w HP). specialize (H2 w HP'). by destruct (c w) as [[] w']. Qed.
Lemma triple_within (P : World -> Prop) {A} (c : W A) (R : World -> World -> Prop) :
  (forall w w', R w w' -> P w -> P w') -> within R c -> triple P c (fun _ => P).
Proof. intros HP Hc w Hw. specialize (Hc w). destruct (c w) as [[] w']; eauto. Qed.
Lemma triple_for P {A} (l : list A) (body : A -> W unit) : (forall x, triple P (body x) (fun _ => P)) -> triple P (for_each l body) (fun _ => P).
Proof. intros Hb. induction l; cbn [for_each]; [by apply triple_ret|]. eapply triple_bind; [apply Hb|done]. Qed.
Lemma triple_when P b (c : W unit) : triple P c (fun _ => P) -> triple P (when b c) (fun _ => P).
Proof. intros Hc. destruct b; [exact Hc|by apply triple_ret]. Qed.

(** What a computation leaves as it is. *)
Definition keeps {X} (f : World -> X) (w w' : World) : Prop := f w' = f w.
#[export] Instance keeps_preorder {X} (f : World -> X) : PreOrder (keeps f).
Proof. split; [done|]. intros w1 w2 w3 E1 E2. unfold keeps in *. congruence. Qed.
Lemma keep_modify {X} (f : World -> X) g : (forall w, f (g w) = f w) -> within (keeps f) (modify g).
Proof. intros Hf. apply within_modify. exact Hf. Qed.
Lemma keeps_kern {X} (f : World -> X) {A} (c : W A) : (forall w k, f (w <| w_kern := k |>) = f w) -> kern_only c -> within (keeps f) c.
Proof. intros Hf Hc w. destruct (Hc w) as (o & k & -> & _). unfold keeps. by destruct o. Qed.
Lemma keeps_set_cli {X} (f : World -> X) i g : (forall w m, f (w <| w_clis := m |>) = f w) -> within (keeps f) (set_cli i g).
Proof. intros Hf w. unfold set_cli, get_cli, deref_obj, mbind, M_bind. destruct (w_clis w !! i); [|done]. apply Hf. Qed.
Lemma keeps_set_svr {X} (f : World -> X) i g : (forall w m, f (w <| w_svrs := m |>) = f w) -> within (keeps f) (set_svr i g).
Proof. intros Hf w. unfold set_svr, get_svr, deref_obj, mbind, M_bind. destruct (w_svrs w !! i); [|done]. apply Hf. Qed.
Lemma keeps_set_grp {X} (f : World -> X) i g : (forall w m, f (w <| w_grps := m |>) = f w) -> within (keeps f) (set_grp i g).
Proof. intros Hf w. unfold set_grp, get_grp, deref_obj, mbind, M_bind. destruct (w_grps w !! i); [|done]. apply Hf. Qed.
#[export] Hint Extern 2 (within (keeps _) (modify _)) => (apply keep_modify; reflexivity) : within.
#[export] Hint Extern 1 (within (keeps _) (set_cli _ _)) => (apply keeps_set_cli; reflexivity) : within.
#[export] Hint Extern 1 (within (keeps _) (set_svr _ _)) => (apply keeps_set_svr; reflexivity) : within.
#[export] Hint Extern 1 (within (keeps _) (set_grp _ _)) => (apply keeps_set_grp; reflexivity) : within.
#[export] Hint Extern 3 (within (keeps _) _) => (apply keeps_kern; [reflexivity|solve [auto 2 with kern nocore]]) : within.

(** ** Servers *)

Definition on_svr (s : nat) (P : Server -> Prop) (w : World) : Prop := forall x, w_svrs w !! s = Some x -> P x.

Lemma triple_set_svr s f P Q : (forall x, P x -> Q (f x)) -> triple (on_svr s P) (set_svr s f) (fun _ => on_svr s Q).
Proof.
  intros HQ w Hw. unfold set_svr, get_svr, deref_obj, mbind, M_bind. destruct (w_svrs w !! s) as [x|] eqn:Ex; [|done].
  intros x'. cbn. rewrite lookup_insert_eq. intros [= <-]. by apply HQ, Hw.
Qed.

Lemma nothrow_for {A} (l : list A) (body : A -> W unit) : (forall x, nothrow (body x)) -> nothrow (for_each l body).
Proof. intros Hb. induction l; cbn [for_each]; [intros w e w'; done|]. by apply nothrow_bind. Qed.

(** A hole is made and filled. *)
Lemma awake_hole E h w : Awake E None w -> Awake E h w.
Proof. intros [A1 A2 A3 A4 A5 A6]. split; eauto. Qed.
Lemma awake_fill_svr E s w : Awake E (Some (CServer s)) w -> on_svr s (fun x => svr_fd x = -1 -> idle x) w -> Awake E None w.
Proof.
  intros [A1 A2 A3 A4 A5 A6] Hs. split; [done..|by intros i c _; apply A4|by intros i c _; apply A5|].
  intros s' x _ Hx. destruct (decide (s' = s)) as [->|Hne]; [exact (Hs x Hx)|eapply A6; [|exact Hx]; congruence].
Qed.

(** [c] may leave [s] with commands though it is closed, but has none in the end. *)
Lemma awake_svr E s {A} (c : W A) Q :
  within (nudge (Some (CServer s))) c -> nothrow c -> (forall a w, Q a w -> on_svr s idle w) -> triple (fun _ => True) c Q -> within (awake E None) c.
Proof.
  intros Hf Hn HQ Ht w. specialize (Hf w). specialize (Ht w I). destruct (c w) as [[a|e|k|] w'] eqn:Ec; try done.
  - intros HA. eapply (awake_fill_svr E s); [|intros x Hx _; by eapply HQ]. eapply frame_awake; [exact Hf|by apply awake_hole].
  - by destruct (Hn w e w').
Qed.

Lemma awake_close_conn E s : within (awake E None) (close_conn s).
Proof.
  unfold close_conn. apply within_bind; [typeclasses eauto|within_step|]. intros [|]; [within_step|].
  apply (awake_svr E s) with (Q := fun _ => on_svr s idle); [| |done|].
  - unfold close_conn_fd, set_conn_fd, inactivate_long_conn, remove_entry. within_step.
  - unfold close_conn_fd, conn_fd, set_conn_fd, cio_close, retry_move_ask_command_later, inactivate_long_conn, remove_entry.
    repeat first [ progress case_match | apply nothrow_for; intros ? | apply nothrow_bind; [|intros ?]
      | solve [intros ? ? ?; unfold set_svr, get_svr, deref_obj, mbind, M_bind; cbn; by repeat case_match] ].
  - assert (Hp : forall P {A} (l : list A) f, (forall x, exists g, f x = set_proxy g \/ f x = mret tt) ->
      triple (on_svr s P) (for_each l f) (fun _ => on_svr s P)).
    { intros P B l f Hf. apply triple_for. intros x. destruct (Hf x) as [g [-> | ->]]; by intros w Hw. }
    do 4 (eapply triple_bind; [apply triple_any|intros ?]).
    eapply triple_bind; [eapply triple_pre, (triple_set_svr s _ (fun _ => True) (fun x => _commands x = [])); done|intros ?].
    eapply triple_bind; [apply Hp; intros [c|]; [eauto|by exists id; right]|intros ?].
    eapply triple_bind; [apply (triple_set_svr s _ _ idle); by intros x Hx|intros ?].
    eapply triple_bind; [apply Hp; intros l; eexists; by left|intros ?].
    eapply triple_bind; [by apply (triple_set_svr s _ _ idle)|intros ?].
    unfold remove_entry. intros w Hw. unfold get_svr, deref_obj, mbind, M_bind. by destruct (w_svrs w !! s).
Qed.
#[export] Hint Resolve awake_close_conn : within.

(** ** Responses become output *)

Definition on_cli (i : nat) (P : Client -> Prop) (w : World) : Prop := forall c, w_clis w !! i = Some c -> P c.

(** Groups that the servers answer have something to say. *)
Lemma group_bufs_some w g x : w_grps w !! g = Some x -> long_connection x = false -> group_bufs (mem_of w) g <> [].
Proof. intros Hx Hl. unfold group_bufs, mem_of. cbn. rewrite lookup_fmap, Hx. unfold long_connection in Hl. cbn. by destruct (grp_class x) as [| |[]| |]. Qed.

Lemma push_ready_result cli gs : forall w w' c,
  push_ready cli gs w = (Ret tt, w') -> w_clis w !! cli = Some c ->
  (forall g x, g ∈ gs -> w_grps w !! g = Some x -> long_connection x = false) ->
  exists bs, w_clis w' !! cli = Some (c <| cli_output ::= (fun o => o <| _buf_arr ::= (fun l => l ++ bs) |>) |> <| _ready_groups ::= (fun l => l ++ gs) |>) /\
    (gs <> [] -> bs <> []).
Proof.
  induction gs as [|g gs IH]; intros w w' c; cbn [push_ready].
  { intros [= <-] Hc _. exists []. split; [|done]. rewrite Hc. f_equal. destruct c as [? ? ? ? ? ? ? []]. cbn. by rewrite !app_nil_r. }
  intros (bs & w1 & Ha & H)%bind_Ret_inv Hc Hg. destruct (append_buffer_to_eq _ _ _ _ Ha) as [-> Hw1].
  assert (Hb : group_bufs (mem_of w) g <> []).
  { unfold append_buffer_to, get_grp, deref_obj, mbind, M_bind in Ha. destruct (w_grps w !! g) as [x|] eqn:Ex; [|done].
    eapply group_bufs_some; [exact Ex|eapply Hg; [left|done]]. }
  assert (Hc1 : w_clis w1 !! cli = Some c /\ w_grps w1 = w_grps w) by (destruct Hw1 as [->|(? & ? & ? & ? & _ & ->)]; done).
  destruct Hc1 as [Hc1 Hg1]. unfold mbind, M_bind in H. rewrite (set_cli_eq _ _ c _ Hc1) in H.
  eapply IH in H as (bs' & Hc' & _); [|apply lookup_insert_eq|intros g' x Hin; cbn; rewrite Hg1; eapply Hg; by right].
  exists (group_bufs (mem_of w) g ++ bs'). split; [|intros _; by destruct (group_bufs (mem_of w) g)].
  rewrite Hc'. cbn. rewrite foldl_append_arr. cbn. by rewrite <- !app_assoc.
Qed.

Lemma push_awaitings_result cli w c :
  w_clis w !! cli = Some c -> (forall g x, g ∈ _awaiting_groups c -> w_grps w !! g = Some x -> long_connection x = false) ->
  match _push_awaitings_to_ready cli w with
  | (Ret _, w') =>
    w' = w /\ (_awaiting_count c <> 0 \/ _ready_groups c <> []) \/
    exists bs, w_clis w' !! cli = Some (c <| cli_output ::= (fun o => o <| _buf_arr ::= (fun l => l ++ bs) |>) |>
        <| _ready_groups ::= (fun l => l ++ _awaiting_groups c) |> <| _awaiting_groups := [] |>) /\
      (_awaiting_groups c <> [] -> bs <> []) /\
      (_buf_arr (cli_output c) ++ bs <> [] -> polls w' !! CClient cli = Some true)
  | (Throw _, _) => False
  | _ => True
  end.
Proof.
  intros Hc Hg. unfold _push_awaitings_to_ready. unfold mbind at 1, M_bind at 1, get_cli at 1, deref_obj at 1. rewrite Hc.
  destruct (negb (_awaiting_count c =? 0) || _) eqn:Eb.
  { left. split; [done|]. apply orb_true_iff in Eb as [Eb|[Eb _]%andb_true_iff]; [left|right]; [by apply negb_true_iff, Z.eqb_neq in Eb|].
    by apply negb_true_iff, bool_decide_eq_false in Eb. }
  unfold mbind at 1, M_bind at 1. pose proof (nothrow_push_ready cli (_awaiting_groups c) w) as Hn.
  destruct (push_ready cli (_awaiting_groups c) w) as [[[]|e|k|] w1] eqn:Ep; try done; [|naive_solver].
  destruct (push_ready_result _ _ _ _ _ Ep Hc Hg) as (bs & Hc1 & Hbs). unfold mbind at 1, M_bind at 1. rewrite (set_cli_eq _ _ _ _ Hc1).
  unfold mbind at 1, M_bind at 1, get_cli, deref_obj. cbn -[set_conn_poll_rw]. rewrite lookup_insert_eq. cbn -[set_conn_poll_rw].
  clear Eb. unfold bufset_empty. cbn. case_bool_decide as Ea; unfold when, set_conn_poll_rw, set_proxy, modify; cbn; right; exists bs; rewrite lookup_insert_eq; split_and!; try done.
  intros _. unfold polls. cbn. apply lookup_insert_eq.
Qed.

Lemma awake_fill_cli E i w :
  Awake E (Some (CClient i)) w ->
  on_cli i (fun c => cli_fd c <> -1 -> served (E i) c /\ (loaded c -> watched (polls w) (k_epoll (w_kern w)) i c)) w -> Awake E None w.
Proof.
  intros [A1 A2 A3 A4 A5 A6] Hi. split; [done..| | |by intros s x _; apply A6].
  - intros j c _ Hc Hf. destruct (decide (j = i)) as [->|]; [by apply (Hi c Hc)|]. eapply A4; [congruence|exact Hc|done].
  - intros j c _ Hc Hf. destruct (decide (j = i)) as [->|]; [by apply (Hi c Hc)|]. eapply A5; [congruence|exact Hc|done].
Qed.

(** Requests that are not answered yet, or not all sent. *)
Definition early (c : Client) : Prop := (_ready_groups c <> [] -> loaded c) /\ (_parsed_groups c <> [] -> _awaiting_groups c <> [] \/ loaded c).

Lemma served_early e c : served e c -> early c.
Proof. by intros []. Qed.

(** The two ends of [_push_awaitings_to_ready]. *)
Lemma served_waits e c : early c -> _awaiting_count c <> 0 \/ _ready_groups c <> [] -> served e c.
Proof. intros [H1 H2] Hc. split; [done..|]. intros _ Ha Hz. destruct Hc as [|Hr]; [done|auto]. Qed.

Definition pushed (bs : list buf_id) (c : Client) : Client :=
  c <| cli_output ::= (fun o => o <| _buf_arr ::= (fun l => l ++ bs) |>) |> <| _ready_groups ::= (fun l => l ++ _awaiting_groups c) |> <| _awaiting_groups := [] |>.

Lemma served_pushed e bs c : early c -> (_awaiting_groups c <> [] -> bs <> []) -> served e (pushed bs c).
Proof.
  intros [H1 H2] Hb. unfold loaded in *. assert (Hl : _buf_arr (cli_output c) <> [] \/ bs <> [] -> _buf_arr (cli_output c) ++ bs <> []).
  { intros [H|H] [? ?]%app_nil; done. }
  split; unfold loaded; cbn; [|intros Hp|done].
  - intros Hr. apply Hl. destruct (_ready_groups c); [|left; by apply H1]. right. by apply Hb.
  - right. apply Hl. destruct (H2 Hp); auto.
Qed.

Lemma fewer_none c c' : _parsed_groups c' = _parsed_groups c -> _awaiting_groups c' = [] -> cli_fewer c c'.
Proof. intros E1 E2. split; intros g; [by rewrite E1|rewrite E2; by intros []%elem_of_nil]. Qed.
Lemma frame_cli_hole i f : (forall c, cli_fewer c (f c)) -> within (nudge (Some (CClient i))) (set_cli i f).
Proof. intros Hf. apply frame_set_cli. auto. Qed.
#[export] Hint Extern 2 (within (nudge (Some (CClient _))) (set_cli _ _)) =>
  (apply frame_cli_hole; intros ?; first [split; intros; assumption|apply fewer_none; reflexivity]) : within.

Lemma frame_push_ready i gs : within (nudge (Some (CClient i))) (push_ready i gs).
Proof. induction gs; cbn [push_ready]; within_step. Qed.
#[export] Hint Resolve frame_push_ready : within.
Lemma frame_push_awaitings i : within (nudge (Some (CClient i))) (_push_awaitings_to_ready i).
Proof. unfold _push_awaitings_to_ready. within_step. Qed.
#[export] Hint Resolve frame_push_awaitings : within.

Lemma awake_group_responsed E cli : within (awake E None) (group_responsed cli).
Proof.
  intros w. unfold group_responsed. apply bind_set_cli. intros c Hc.
  pose proof (frame_push_awaitings cli (w <| w_clis ::= <[cli := c <| _awaiting_count ::= Z.pred |>]> |>)) as Hf.
  assert (Hf1 : nudge (Some (CClient cli)) w (w <| w_clis ::= <[cli := c <| _awaiting_count ::= Z.pred |>]> |>)).
  { pose proof (frame_cli_hole cli (fun c => c <| _awaiting_count ::= Z.pred |>) ltac:(done) w) as H1. by rewrite (set_cli_eq _ _ c _ Hc) in H1. }
  set (c1 := c <| _awaiting_count ::= Z.pred |>) in *. set (w1 := w <| w_clis ::= _ |>) in *.
  pose proof (push_awaitings_result cli w1 c1 (lookup_insert_eq _ _ _)) as Hr.
  assert (Hcls : Awake E None w -> forall g x, g ∈ _awaiting_groups c1 -> w_grps w1 !! g = Some x -> long_connection x = false).
  { intros HA g x Hin. by apply (aw_class _ _ _ HA cli c). }
  destruct (_push_awaitings_to_ready cli w1) as [[a|e|k|] w2] eqn:E2; try done; intros HA; specialize (Hr (Hcls HA)); [|done].
  assert (HA2 : Awake E (Some (CClient cli)) w2).
  { eapply frame_awake; [etransitivity; [exact Hf1|exact Hf]|by apply awake_hole]. }
  apply (awake_fill_cli E cli); [done|]. intros c2 Hc2 Hfd.
  assert (Hs : cli_fd c <> -1 -> early c1 /\ (loaded c -> watched (polls w) (k_epoll (w_kern w)) cli c)).
  { intros Ho. split; [exact (served_early _ _ (aw_served _ _ _ HA cli c ltac:(done) Hc Ho))|by apply (aw_watched _ _ _ HA)]. }
  destruct Hr as [[-> Hw]|(bs & Hb & Hbs & Hp)].
  - unfold w1 in Hc2. cbn in Hc2. rewrite lookup_insert_eq in Hc2. injection Hc2 as <-. destruct (Hs Hfd) as [Hearly Hwatch].
    split; [by apply served_waits|exact Hwatch].
  - rewrite Hb in Hc2. injection Hc2 as <-. destruct (Hs Hfd) as [Hearly _]. split; [by apply (served_pushed _ bs c1)|]. intros Hl. left. by apply Hp.
Qed.
#[export] Hint Resolve awake_group_responsed : within.

(** ** Answers, and the servers *)

Lemma within_step_cmd i f : within (nudge None) (set_cmd i f).
Proof. unfold set_cmd. within_step. Qed.

Ltac whole' := match goal with |- context [awake ?E ?h ?w _] => match goal with |- context [match ?k w with _ => _ end] => apply (fun H : within (awake E h) k => H w) end end.
Section Servers.
Context (E : nat -> Prop).
#[local] Abbreviation calm c := (within (awake E None) c).

Lemma awake_single g cli : calm (single_command_responsed g cli).
Proof. unfold single_command_responsed. within_step. Qed.
Lemma awake_multi g cli k p cs n : calm (multi_command_responsed g cli k p cs n).
Proof. unfold multi_command_responsed, set_buffer. within_step. Qed.
#[local] Hint Resolve awake_single awake_multi : within.
Lemma awake_command_responsed g : calm (command_responsed g).
Proof. unfold command_responsed. within_step. Qed.
#[local] Hint Resolve awake_command_responsed : within.
Lemma awake_on_remote_responsed c rsp err : calm (on_remote_responsed c rsp err).
Proof. unfold on_remote_responsed, rsp_get, rsp_set, rename_goto, answer, responsed, set_buffer. within_step. Qed.
#[local] Hint Resolve awake_on_remote_responsed : within.
Lemma awake_respond t rsps sent : calm (respond t rsps sent).
Proof. revert sent. induction rsps as [|r rsps IH]; intros [|[c|] sent]; cbn [respond]; unfold rsp_to; within_step. Qed.
#[local] Hint Resolve awake_respond : within.
Lemma awake_recv_from s : calm (_recv_from s).
Proof. unfold _recv_from. frame_step. Qed.
#[local] Hint Resolve awake_recv_from : within.

(** While [s] is open. *)
Definition opened (s : nat) : World -> Prop := on_svr s (fun x => svr_fd x <> -1).
Definition while_open (s : nat) (w w' : World) : Prop := opened s w -> nudge None w w' /\ opened s w'.
#[local] Instance while_open_preorder s : PreOrder (while_open s).
Proof. split; [by intros w|]. intros w1 w2 w3 H1 H2 Ho. destruct (H1 Ho) as [F1 O1]. destruct (H2 O1) as [F2 O2]. split; [by etransitivity|done]. Qed.
Lemma while_open_svr s f : (forall x, svr_fd (f x) = svr_fd x) -> within (while_open s) (set_svr s f).
Proof.
  intros Hf w. unfold set_svr, get_svr, deref_obj, mbind, M_bind. destruct (w_svrs w !! s) as [x|] eqn:Ex; [|done]. intros Ho. split.
  - apply frame_intro; cbn; [done..|by apply clis_same|by apply grps_same|]. intros j x'. rewrite lookup_insert_Some.
    intros [[<- <-]|[_ Hx']]; [right; left; rewrite Hf; by apply Ho|do 3 right; by exists x'].
  - intros x'. cbn. rewrite lookup_insert_eq. intros [= <-]. rewrite Hf. by apply Ho.
Qed.
Lemma while_open_cmd s i f : within (while_open s) (set_cmd i f).
Proof.
  intros w. pose proof (within_step_cmd i f w) as Hw. unfold set_cmd, get_cmd, deref_obj, mbind, M_bind in *. by destruct (w_cmds w !! i).
Qed.
#[local] Hint Resolve while_open_cmd : within.
#[local] Hint Extern 1 (within (while_open _) (set_svr _ _)) => (apply while_open_svr; reflexivity) : within.

Lemma awake_push_to_buffer_set s : calm (_push_to_buffer_set s).
Proof.
  unfold _push_to_buffer_set. apply within_bind; [typeclasses eauto|frame_step|intros t]. intros w.
  unfold mbind at 1, M_bind at 1, get_svr at 1, deref_obj at 1. destruct (w_svrs w !! s) as [x|] eqn:Ex; [|done].
  destruct (decide (svr_fd x = -1)) as [Hf|Hf].
  - destruct (decide (_commands x = [])) as [Hi|Hn]; [rewrite Hi; cbn [for_each]; whole'; frame_step|].
    match goal with |- match ?r with _ => _ end => destruct r as [[] w'] end; try done; intros HA; by destruct Hn; eapply (aw_idle _ _ _ HA).
  - match goal with |- match ?k w with _ => _ end => assert (Hk : within (while_open s) k) by (within_step) end.
    specialize (Hk w). assert (Ho : opened s w) by (intros y Hy; by simplify_eq).
    match goal with |- match ?r with _ => _ end => destruct r as [[] w'] end; try done; apply frame_awake; by apply Hk.
Qed.
#[local] Hint Resolve awake_push_to_buffer_set : within.
Lemma awake_server_on_events s ev : calm (server_on_events s ev).
Proof. unfold server_on_events, catch_bad. frame_step. Qed.

(** *** Commands that leave *)

Lemma erase_client_pure cli cmds w : (erase_client cli cmds w).2 = w.
Proof.
  induction cmds as [|c cmds IH]; cbn [erase_client]; [done|]. unfold cmd_client, get_cmd, get_grp, deref_obj, mbind, M_bind in *.
  destruct (w_cmds w !! c) as [x|]; [|done]. destruct (w_grps w !! cmd_group x); [|done]. cbn. by destruct (erase_client cli cmds w) as [[] w'].
Qed.
Lemma reset_client_pure cli sent w : (reset_client cli sent w).2 = w.
Proof.
  induction sent as [|[c|] sent IH]; cbn [reset_client]; [done|..]; unfold cmd_client, get_cmd, get_grp, deref_obj, mbind, M_bind in *.
  - destruct (w_cmds w !! c) as [x|]; [|done]. destruct (w_grps w !! cmd_group x); [|done]. cbn. by destruct (reset_client cli sent w) as [[] w'].
  - by destruct (reset_client cli sent w) as [[] w'].
Qed.
Lemma reset_client_idle cli sent w l w' : reset_client cli sent w = (Ret l, w') -> omap id sent = [] -> omap id l = [].
Proof.
  revert l w'. induction sent as [|[c|] sent IH]; intros l w'; cbn [reset_client]; [by intros [= <- _]|done|].
  intros (rest & w1 & Hr & H)%bind_Ret_inv. injection H as <- _. cbn. by apply (IH _ w1).
Qed.

Lemma set_svr_eq i f x w : w_svrs w !! i = Some x -> set_svr i f w = (Ret tt, w <| w_svrs ::= <[i := f x]> |>).
Proof. intros Hx. unfold set_svr, get_svr, deref_obj, mbind, M_bind. by rewrite Hx. Qed.
Lemma awake_server_pop s cli : calm (server_pop_client s cli).
Proof.
  apply within_frame. intros w. unfold server_pop_client. unfold mbind at 1, M_bind at 1, get_svr at 1, deref_obj at 1.
  destruct (w_svrs w !! s) as [x|] eqn:Ex; [|done]. unfold mbind at 1, M_bind at 1. pose proof (erase_client_pure cli (_commands x) w) as Hp.
  destruct (erase_client cli (_commands x) w) as [[cmds|e|k|] w1] eqn:Ee; cbn in Hp; subst w1; try done.
  assert (Hc : _commands x = [] -> cmds = []) by (intros E0; rewrite E0 in Ee; by injection Ee).
  unfold mbind at 1, M_bind at 1. rewrite (set_svr_eq _ _ _ _ Ex).
  set (w1 := w <| w_svrs ::= _ |>). unfold mbind at 1, M_bind at 1. pose proof (reset_client_pure cli (_sent_commands x) w1) as Hp.
  assert (Hf : forall l w2, w2 = w1 \/ (w2 = w1 <| w_svrs ::= <[s := x <| _commands := cmds |> <| _sent_commands := l |>]> |> /\ (omap id (_sent_commands x) = [] -> omap id l = [])) -> nudge None w w2).
  { intros l w2 Hw2. assert (Hk : w_next w2 = w_next w /\ w_kern w2 = w_kern w /\ polls w2 = polls w /\ w_clis w2 = w_clis w /\ w_grps w2 = w_grps w) by (by destruct Hw2 as [->|[-> _]]).
    destruct Hk as (K1 & K2 & K3 & K4 & K5). apply frame_intro; [lia|done..|by apply clis_same|by apply grps_same|]. intros j x' Hx'.
    do 3 right. destruct (decide (j = s)) as [->|Hj]; [exists x|exists x'; split_and!; [|done..]].
    - destruct Hw2 as [->|[-> Hl]]; cbn in Hx'; rewrite lookup_insert_eq in Hx'; injection Hx' as <-; split_and!; try done; intros [I1 I2]; split; cbn; auto.
    - destruct Hw2 as [->|[-> Hl]]; cbn in Hx'; by rewrite !lookup_insert_ne in Hx' by done. }
  destruct (reset_client cli (_sent_commands x) w1) as [[sent|e|k|] w2] eqn:Er; cbn in Hp; subst w2; try done; [|by apply (Hf []); left].
  rewrite (set_svr_eq _ _ _ w1 (lookup_insert_eq _ _ _)). apply (Hf sent). right. split; [done|].
  intros Hs. by eapply reset_client_idle.
Qed.
Lemma awake_proxy_pop cli : calm (proxy_pop_client cli).
Proof.
  unfold proxy_pop_client. frame_step. apply within_pure; [typeclasses eauto|]. intros w. apply erase_client_pure.
Qed.
#[local] Hint Resolve awake_server_pop awake_proxy_pop : within.

(** *** Servers that are opened *)

Lemma awake_socket {A} (k : Z -> W A) : (forall fd, fd <> -1 -> calm (k fd)) -> calm (new_stream_socket ≫= k).
Proof.
  intros Hk w. pose proof (within_frame E _ _ (frame_socket None) w) as Hf. unfold mbind, M_bind.
  destruct (new_stream_socket w) as [[fd|e|u|] w1] eqn:Hs; try done. assert (Hfd : Awake E None w -> fd <> -1).
  { intros HA. unfold new_stream_socket, next_script, gets, set_kern, modify, mbind, M_bind in Hs. cbn in Hs.
    destruct (k_sockets (w_kern w)) as [|[fd' c|e] l] eqn:Ek; cbn in Hs; try done. injection Hs as <- _.
    apply (aw_sockets _ _ _ HA fd' c). rewrite Ek. left. }
  destruct (decide (fd = -1)) as [->|Hne]; [destruct (k (-1) w1) as [[] w2]; try done; intros HA; by destruct (Hfd HA)|].
  specialize (Hk fd Hne w1). destruct (k fd w1) as [[] w2]; try done; by etransitivity.
Qed.
Lemma awake_reconnect s addr : calm (_reconnect s addr).
Proof.
  unfold _reconnect, on_server_connected. apply awake_socket. intros fd Hfd.
  apply within_bind; [typeclasses eauto|apply within_frame, frame_set_svr; auto|intros _]. frame_step.
Qed.
#[local] Hint Resolve awake_reconnect : within.
Lemma awake_new_pooled : calm new_pooled_server.
Proof.
  unfold new_pooled_server. frame_step. intros w. apply frame_awake, frame_intro; cbn; [done..|by apply clis_same|by apply grps_same|].
  intros s x. rewrite lookup_insert_Some. intros [[_ <-]|[_ Hx]]; [do 2 right; by left|do 3 right; by exists x].
Qed.
#[local] Hint Resolve awake_new_pooled : within.
Lemma awake_alloc addr : calm (_alloc_server addr).
Proof.
  unfold _alloc_server. apply within_bind; [typeclasses eauto|frame_step|intros pool].
  apply within_bind; [typeclasses eauto|apply within_when; [typeclasses eauto|]; apply within_for; [typeclasses eauto|]; intros; frame_step|intros _]. frame_step.
Qed.
#[local] Hint Resolve awake_alloc : within.
Lemma awake_get_server addr : calm (get_server addr).
Proof. unfold get_server. frame_step. Qed.
#[local] Hint Resolve awake_get_server : within.
Lemma awake_map_slots s first n r : calm (map_slots s first n r).
Proof. revert first r. induction n; intros; cbn [map_slots]; frame_step. Qed.
#[local] Hint Resolve awake_map_slots : within.
Lemma awake_map_ranges s rs r m : calm (map_ranges s rs r m).
Proof. revert r m. induction rs; intros; cbn [map_ranges]; frame_step. Qed.
#[local] Hint Resolve awake_map_ranges : within.
Lemma awake_map_nodes pick nodes r m : calm (map_nodes pick nodes r m).
Proof. revert r m. induction nodes; intros; cbn [map_nodes]; frame_step. Qed.
#[local] Hint Resolve awake_map_nodes : within.
Lemma awake_replace_map nodes : calm (replace_map nodes).
Proof. unfold replace_map. frame_step. Qed.
Lemma awake_slot_map_clear : calm slot_map_clear.
Proof. unfold slot_map_clear. frame_step. Qed.
End Servers.

#[export] Hint Resolve awake_on_remote_responsed awake_server_on_events awake_server_pop awake_proxy_pop awake_replace_map awake_slot_map_clear : within.

(** ** Long connections, with any hole but a server *)

Section Long.
Context (h : option Connection).
#[local] Abbreviation quiet c := (within (nudge h) c).

Lemma frame_set_fd c : (forall s, c <> CServer s) -> quiet (set_conn_fd c (-1)).
Proof. intros Hc. destruct c as [i|s| | | |]; cbn [set_conn_fd]; [frame_step|by destruct (Hc s)|frame_step..]. Qed.
Lemma frame_close_conn_fd c : (forall s, c <> CServer s) -> quiet (close_conn_fd c).
Proof. intros Hc. pose proof (frame_set_fd c Hc). unfold close_conn_fd. frame_step. Qed.
#[local] Hint Resolve frame_close_conn_fd : within.
#[local] Hint Extern 1 (forall s, _ <> CServer s) => (intros ?; discriminate) : within.
Lemma frame_delete_long l : quiet (delete_long l).
Proof. unfold delete_long, detach_long_connection. frame_step. Qed.
#[local] Hint Resolve frame_delete_long : within.
Lemma frame_new_long k fd s b : quiet (new_long k fd s b).
Proof. unfold new_long, attach_long_connection, open_server_conn. frame_step. Qed.
#[local] Hint Resolve frame_new_long : within.
Lemma frame_random_addr : quiet random_addr.
Proof. unfold random_addr. frame_step. Qed.
End Long.

#[export] Hint Resolve frame_set_fd frame_close_conn_fd frame_delete_long frame_new_long frame_random_addr : within.
#[export] Hint Extern 1 (forall s, _ <> CServer s) => (intros ?; discriminate) : within.

(** ** The names of new groups *)

(** [c] gives [g], and no name is given back. *)
Definition gives (g : nat) (c : W nat) : Prop :=
  forall w, match c w with (Ret g', w') => g' = g /\ (w_next w <= w_next w')%nat | _ => True end.

Lemma gives_bind {A} g (c : W A) f : within (nudge None) c -> (forall a, gives g (f a)) -> gives g (c ≫= f).
Proof.
  intros Hc Hf w. specialize (Hc w). unfold mbind, M_bind. destruct (c w) as [[a|e|k|] w1]; try done. specialize (Hf a w1).
  destruct (f a w1) as [[g'|e|k|] w2]; try done. destruct Hf as [-> Hn]. pose proof (fr_next _ _ _ Hc). split; [done|lia].
Qed.

Definition names (c : W nat) : Prop := forall w, match c w with (Ret g, w') => (g < w_next w')%nat | _ => True end.

Lemma names_fresh (f : nat -> W nat) : (forall g, gives g (f g)) -> names (fresh ≫= f).
Proof.
  intros Hf w. specialize (Hf (w_next w) (w <| w_next := S (w_next w) |>)).
  change ((fresh ≫= f) w) with (f (w_next w) (w <| w_next := S (w_next w) |>)). destruct (f (w_next w) _) as [[g'|e|k|] w2]; try done. destruct Hf as [-> Hn]. cbn in Hn. lia.
Qed.
Lemma names_bind {A} (c : W A) f : (forall a, names (f a)) -> names (c ≫= f).
Proof. intros Hf w. unfold mbind, M_bind. destruct (c w) as [[a|e|k|] w1]; try done. by apply Hf. Qed.

Lemma make_group_names stats cli sp : names (make_group stats cli sp).
Proof.
  assert (Hg : forall g cls t, gives g (new_group cli g cls t ;; mret g)) by (by intros g cls t w).
  destruct sp; cbn [make_group]; unfold new_direct_group, new_single_group, new_multi_group;
    repeat first
      [ apply Hg
      | apply names_fresh; intros ?
      | apply gives_bind; [solve [unfold new_buffer; frame_step]|intros ?]
      | match goal with |- names (match ?o with Some _ => _ | None => _ end) => destruct o end
      | done
      | apply names_bind; intros ? ].
Qed.
