(* ===== verification/WakeClient.v ===== *)
(** * A client that is at work

    While a client handles an event it is the hole of [Awake]; when it is done it is open with its
    requests under way or its responses in its output, and polled for writing in the latter case,
    or it is closed. *)
From S2P Require Import Prelude Strings OrderedSet Address SlotCalc Buffer Response SlotMap CommandParser Logic World Kernel Command Server LongConn Client Proxy Concurrence Frames Quiet Order Output Delivery Wake.
#[local] Open Scope Z_scope.

Lemma wk_insert_None (l : list (option nat)) i gi : Some gi ∈ <[i := None]> l -> Some gi ∈ l.
Proof.
  intros (j & Hj)%list_elem_of_lookup. apply list_lookup_insert_Some in Hj as [(_ & ? & _)|(_ & Hj)]; [done|].
  by eapply list_elem_of_lookup_2.
Qed.

Section Hole.
Context (E : nat -> Prop) (cli : nat).
#[local] Abbreviation hole := (Some (CClient cli)).
#[local] Abbreviation busy c := (within (awake E hole) c).

(** Any change of the client but for the names in its queues. *)
Lemma awake_set_hole w c c' :
  Awake E hole w -> w_clis w !! cli = Some c ->
  (forall g, Some g ∈ _parsed_groups c' \/ g ∈ _awaiting_groups c' -> (g < w_next w)%nat) ->
  (forall gi g, gi ∈ _awaiting_groups c' -> w_grps w !! gi = Some g -> long_connection g = false) ->
  Awake E hole (w <| w_clis ::= <[cli := c']> |>).
Proof.
  intros [A1 A2 A3 A4 A5 A6] Hc Hn Hl. split; try done; cbn.
  - intros i x g. rewrite lookup_insert_Some. intros [[<- <-]|[_ Hx]]; [apply Hn|exact (A2 i x g Hx)].
  - intros i x gi g. rewrite lookup_insert_Some. intros [[<- <-]|[_ Hx]]; [apply Hl|exact (A3 i x gi g Hx)].
  - intros i x Hi. rewrite lookup_insert_Some. intros [[<- <-]|[_ Hx]]; [done|exact (A4 i x Hi Hx)].
  - intros i x Hi. rewrite lookup_insert_Some. intros [[<- <-]|[_ Hx]]; [done|exact (A5 i x Hi Hx)].
Qed.

Lemma busy_push_commands stats sps : busy (push_commands stats cli sps).
Proof.
  induction sps as [|sp sps IH]; cbn [push_commands]; [frame_step|]. intros w.
  pose proof (within_frame E _ _ (frame_make_group hole stats cli sp) w) as Hf. pose proof (make_group_names stats cli sp w) as Hn.
  unfold mbind at 1, M_bind at 1. destruct (make_group stats cli sp w) as [[g|e|k|] w1]; try done. apply bind_set_cli. intros c Hc.
  eapply (within_from (awake E hole) w); [|exact IH]. intros HA. apply Hf in HA. eapply awake_set_hole; [done|exact Hc|..]; cbn.
  - intros g'. rewrite elem_of_app, list_elem_of_singleton. intros [[Hg|[= ->]]|Hg]; [|done|]; eapply (aw_names _ _ _ HA); eauto.
  - intros gi x Hin. by eapply (aw_class _ _ _ HA).
Qed.

Lemma busy_select_remote g : busy (select_remote g).
Proof. unfold select_remote. frame_step. Qed.
Lemma busy_deliver_client g : busy (deliver_client g).
Proof. unfold deliver_client, deliver_to. frame_step. Qed.

Lemma long_connection_mem w w' gi g g' : mem_of w' = mem_of w -> w_grps w !! gi = Some g -> w_grps w' !! gi = Some g' -> long_connection g' = long_connection g.
Proof.
  intros Hm Hg Hg'. assert (E1 : m_grps (mem_of w') !! gi = m_grps (mem_of w) !! gi) by (by rewrite Hm). cbn in E1. rewrite !lookup_fmap, Hg, Hg' in E1.
  cbn in E1. unfold long_connection. by destruct (grp_class g), (grp_class g').
Qed.

Lemma busy_process_loop i n : busy (process_loop cli i n).
Proof.
  revert i. induction n as [|n IH]; intros i; cbn [process_loop]; [frame_step|]. intros w. apply bind_get_cli. intros c Hc.
  destruct (_parsed_groups c !! i) as [[gi|]|] eqn:Ei; [|done..].
  unfold mbind at 1, M_bind at 1, get_grp, deref_obj. destruct (w_grps w !! gi) as [g|] eqn:Eg; [|done].
  destruct (long_connection g) eqn:El; [pose proof busy_deliver_client; whole'; frame_step|].
  assert (Hs : within still (when (wait_remote g) (set_cli cli (fun c => c <| _awaiting_count ::= Z.succ |>) ;; select_remote g))) by within_step.
  assert (Hb : busy (when (wait_remote g) (set_cli cli (fun c => c <| _awaiting_count ::= Z.succ |>) ;; select_remote g))) by (pose proof busy_select_remote; frame_step).
  specialize (Hs w). specialize (Hb w). unfold mbind at 1, M_bind at 1. destruct (when _ _ w) as [[[]|e|k|] w1]; try done.
  apply bind_set_cli. intros c1 Hc1. eapply (within_from (awake E hole) w); [|apply IH]. intros HA. apply Hb in HA.
  destruct (calm_cli _ _ _ _ (still_calm _ _ Hs) Hc) as (c1' & Hc1' & Hl). rewrite Hc1 in Hc1'. injection Hc1' as <-.
  assert (H3 : _parsed_groups c1 = _parsed_groups c) by (unfold lists in Hl; congruence). rewrite <- H3 in Ei.
  eapply awake_set_hole; [done|exact Hc1|..]; cbn.
  - intros g'. rewrite elem_of_app, list_elem_of_singleton. intros [Hg%wk_insert_None|[Hg| ->]]; eapply (aw_names _ _ _ HA); eauto using list_elem_of_lookup_2.
  - intros gj x. rewrite elem_of_app, list_elem_of_singleton. intros [Hg| ->] Hx; [by eapply (aw_class _ _ _ HA)|].
    rewrite (long_connection_mem w w1 gi g x); [done|by destruct Hs|done..].
Qed.

Lemma wk_drop {A} n (l : list A) x : x ∈ drop n l -> x ∈ l.
Proof. intros Hx. rewrite <- (take_drop n l). apply elem_of_app. by right. Qed.
Lemma busy_drop n : busy (set_cli cli (fun c => c <| _parsed_groups ::= drop n |>)).
Proof. apply within_frame, frame_cli_hole. intros c. split; cbn; [intros g; apply wk_drop|done]. Qed.
#[local] Hint Resolve busy_push_commands busy_process_loop busy_drop : within.
Lemma busy_process : busy (_process cli).
Proof. unfold _process. frame_step. Qed.
#[local] Hint Resolve busy_process : within.
Lemma busy_send_buffer_set : busy (_send_buffer_set cli).
Proof. unfold _send_buffer_set. frame_step. Qed.
#[local] Hint Resolve busy_send_buffer_set : within.
Lemma busy_write_response : busy (_write_response cli).
Proof. unfold _write_response. frame_step. Qed.
Lemma busy_read_request stats : busy (_read_request stats cli).
Proof. unfold _read_request. frame_step. Qed.
#[local] Hint Resolve busy_write_response busy_read_request : within.

(** ** Requests are handed over *)

Lemma hand_over_closes g w :
  match (poll_del (CClient cli) ;; deliver_client g ;; close_conn_fd (CClient cli) ;; mret false) w with
  | (Ret b, w') => b = false /\ on_cli cli (fun c => cli_fd c = -1) w'
  | _ => True
  end.
Proof.
  unfold mbind at 1, M_bind at 1. destruct (poll_del (CClient cli) w) as [[a|e|k|] w1]; try done.
  unfold mbind at 1, M_bind at 1. destruct (deliver_client g w1) as [[b|e|k|] w2]; try done.
  unfold mbind at 1, M_bind at 1. pose proof (close_client cli w2) as Hc. destruct (close_conn_fd (CClient cli) w2) as [[a'|e|k|] w3]; try done.
  split; [done|]. intros c. by apply Hc.
Qed.

(** The groups taken are awaited; nothing else changes but the count. *)
Lemma process_loop_result n : forall i w c, w_clis w !! cli = Some c ->
  match process_loop cli i n w with
  | (Ret true, w') => exists c', w_clis w' !! cli = Some c' /\ (cli_fd c' = cli_fd c \/ cli_fd c' = -1) /\
      _ready_groups c' = _ready_groups c /\ cli_output c' = cli_output c /\ length (_parsed_groups c') = length (_parsed_groups c) /\
      (n <> O \/ _awaiting_groups c <> [] -> _awaiting_groups c' <> [])
  | (Ret false, w') => on_cli cli (fun c => cli_fd c = -1) w'
  | _ => True
  end.
Proof.
  induction n as [|n IH]; intros i w c Hc; cbn [process_loop].
  { exists c. split_and!; auto. by intros [|]. }
  unfold mbind at 1, M_bind at 1, get_cli, deref_obj. rewrite Hc. destruct (_parsed_groups c !! i) as [[gi|]|]; [|done..].
  unfold mbind at 1, M_bind at 1, get_grp, deref_obj. destruct (w_grps w !! gi) as [g|]; [|done]. destruct (long_connection g).
  { pose proof (hand_over_closes g w) as Hh. destruct ((poll_del _ ;; _) w) as [[b|e|k|] w1]; try done. by destruct Hh as [-> Hh]. }
  assert (Hs : within still (when (wait_remote g) (set_cli cli (fun c => c <| _awaiting_count ::= Z.succ |>) ;; select_remote g))) by within_step.
  specialize (Hs w). unfold mbind at 1, M_bind at 1. destruct (when _ _ w) as [[[]|e|k|] w1]; try done.
  pose proof (still_clis _ _ Hs cli) as Hl. rewrite Hc in Hl. destruct (w_clis w1 !! cli) as [c1|] eqn:Hc1; [|done]. destruct Hl as (Hl & Ho & Hf).
  unfold mbind at 1, M_bind at 1. rewrite (set_cli_eq _ _ c1 _ Hc1). set (w2 := w1 <| w_clis ::= _ |>).
  specialize (IH (S i) w2 _ (lookup_insert_eq _ _ _)). destruct (process_loop cli (S i) n w2) as [[[|]|e|k|] w3]; try done.
  destruct IH as (c' & Hc' & H1 & H2 & H3 & H4 & H5). cbn in *. rewrite length_insert in H4. unfold lists in Hl. injection Hl as L1 L2 L3.
  exists c'. split_and!; [done|intuition congruence|congruence..|]. intros _. apply H5. right. by destruct (_awaiting_groups c1).
Qed.

(** ** What an open client is left with *)

Definition if_open (P : Client -> Prop) : World -> Prop := on_cli cli (fun c => cli_fd c <> -1 -> P c).
Definition left_with (P : Client -> Prop) (w : World) : Prop := Awake E hole w /\ if_open P w.

Lemma triple_left {A} P Q (c : W A) : busy c -> triple (left_with P) c (fun _ => if_open Q) -> triple (left_with P) c (fun _ => left_with Q).
Proof.
  intros Hb Ht w Hw. specialize (Hb w). specialize (Ht w Hw). destruct (c w) as [[a|e|k|] w']; try done. split; [by apply Hb, Hw|done].
Qed.


Lemma push_awaitings_left e w : left_with early w ->
  match _push_awaitings_to_ready cli w with (Ret _, w') => if_open (served e) w' | (Throw _, _) => False | _ => True end.
Proof.
  intros [HA Hw]. destruct (w_clis w !! cli) as [c|] eqn:Hc.
  2: { unfold _push_awaitings_to_ready, get_cli, deref_obj, mbind, M_bind. by rewrite Hc. }
  pose proof (push_awaitings_result cli w c Hc (fun g x => aw_class _ _ _ HA cli c g x Hc)) as Hr.
  destruct (_push_awaitings_to_ready cli w) as [[a|e'|k|] w']; try done. destruct Hr as [[-> Hr]|(bs & Hb & Hbs & _)].
  - intros c' Hc' Hf. simplify_eq. apply served_waits; auto.
  - intros c' Hc' Hf. rewrite Hb in Hc'. injection Hc' as <-. apply (served_pushed _ bs c); auto.
Qed.

Definition sending (c : Client) : Prop := _ready_groups c <> [] -> loaded c.

Lemma poll_all_clis l w : match for_each l (fun s => set_conn_poll_rw (CServer s)) w with (Ret _, w') => w_clis w' = w_clis w | _ => True end.
Proof.
  revert w. induction l as [|s l IH]; intros w; cbn [for_each]; [done|]. unfold mbind, M_bind. unfold set_conn_poll_rw at 1, set_proxy, modify.
  match goal with |- context [for_each l _ ?x] => specialize (IH x); destruct (for_each l _ x) as [[] w'] end; done.
Qed.

Lemma process_left e : triple (left_with sending) (_process cli) (fun _ => left_with (served e)).
Proof.
  apply triple_left; [apply busy_process|]. intros w [HA Hw]. unfold _process. unfold mbind at 1, M_bind at 1, get_cli at 1, deref_obj at 1.
  destruct (w_clis w !! cli) as [c|] eqn:Hc; [|done]. set (n := Z.to_nat _). unfold mbind at 1, M_bind at 1.
  pose proof (process_loop_result n 0 w c Hc) as Hl. pose proof (busy_process_loop 0 n w) as Hb.
  destruct (process_loop cli 0 n w) as [[[|]|e'|k|] w1]; try done; cbn [negb]; [|by intros c' Hc' Hf; destruct Hf; apply Hl].
  destruct Hl as (c1 & Hc1 & Hf1 & Hr1 & Ho1 & Hp1 & Ha1). pose proof (busy_drop n w1) as Hb1. unfold mbind at 1, M_bind at 1.
  rewrite (set_cli_eq _ _ c1 _ Hc1) in *. set (w2 := w1 <| w_clis ::= _ |>) in *.
  assert (He : cli_fd c1 <> -1 -> early (c1 <| _parsed_groups ::= drop n |>)).
  { intros Hf. assert (Hs : sending c) by (apply (Hw c Hc); intuition congruence). split; unfold sending, loaded in *; cbn; [by rewrite Hr1, Ho1|].
    intros Hd. left. apply Ha1. left. intros E0. unfold n in *. destruct (_parsed_groups c1) as [|x l]; [by rewrite drop_nil in Hd|].
    unfold MAX_PIPE in *. cbn in Hp1. destruct (_parsed_groups c) as [|y m]; [done|]. rewrite zlen_cons in E0. pose_zlen_nonneg. lia. }
  assert (Hc2 : w_clis w2 !! cli = Some (c1 <| _parsed_groups ::= drop n |>)) by apply lookup_insert_eq.
  unfold mbind at 1, M_bind at 1, get_cli, deref_obj. rewrite Hc2. destruct (Z.ltb_spec 0 (_awaiting_count (c1 <| _parsed_groups ::= drop n |>))) as [Hz|Hz].
  - pose proof (poll_all_clis (elements (_peers (c1 <| _parsed_groups ::= drop n |>))) w2) as Hp. destruct (for_each _ _ w2) as [[a|e'|k|] w3]; try done.
    intros c3. rewrite Hp, Hc2. intros [= <-] Hf. apply served_waits; [by apply He|]. left. cbn in *. lia.
  - pose proof (push_awaitings_left e w2) as Hq. destruct (_push_awaitings_to_ready cli w2) as [[a|e'|k|] w3]; try done.
    apply Hq. split; [by apply Hb1, Hb|]. intros c3. rewrite Hc2. by intros [= <-].
Qed.

(** *** Rules *)

Lemma left_mono (P Q : Client -> Prop) w : (forall c, P c -> Q c) -> left_with P w -> left_with Q w.
Proof. intros HQ [HA Hw]. split; [done|]. intros c Hc Hf. by apply HQ, Hw. Qed.

Lemma left_set P Q f : busy (set_cli cli f) -> (forall c, cli_fd (f c) = cli_fd c) -> (forall c, P c -> Q (f c)) ->
  triple (left_with P) (set_cli cli f) (fun _ => left_with Q).
Proof.
  intros Hb Hf HQ. apply triple_left; [done|]. intros w [_ Hw]. unfold set_cli, get_cli, deref_obj, mbind, M_bind.
  destruct (w_clis w !! cli) as [c|] eqn:Hc; [|done]. intros c'. cbn. rewrite lookup_insert_eq. intros [= <-]. rewrite Hf. intros Ho. by apply HQ, Hw.
Qed.

Lemma left_get {A} P Q (k : Client -> W A) :
  (forall c, triple (left_with (fun x => P x /\ x = c)) (k c) Q) -> triple (left_with P) (get_cli cli ≫= k) Q.
Proof.
  intros Hk w [HA Hw]. unfold mbind, M_bind, get_cli, deref_obj. destruct (w_clis w !! cli) as [c|] eqn:Hc; [|done]. apply Hk.
  split; [done|]. intros x Hx Hf. simplify_eq. split; [by apply Hw|done].
Qed.

Lemma left_same P {A} (c : W A) : busy c -> within (keeps w_clis) c -> triple (left_with P) c (fun _ => left_with P).
Proof.
  intros Hb Hc. apply triple_left; [done|]. intros w [_ Hw]. specialize (Hc w). destruct (c w) as [[a|e|k|] w']; try done.
  unfold if_open, on_cli. by rewrite Hc.
Qed.
Lemma same_total_cost cs : within (keeps w_clis) (total_remote_cost cs).
Proof. induction cs; cbn [total_remote_cost]; frame_step. Qed.
#[local] Hint Resolve same_total_cost : within.
Lemma same_collect_stats g : within (keeps w_clis) (collect_stats g).
Proof. unfold collect_stats, avg_commands_remote_cost, stat_proccessed. frame_step. Qed.
Lemma same_delete_group g : within (keeps w_clis) (delete_group g).
Proof. unfold delete_group. frame_step. Qed.
#[local] Hint Resolve same_collect_stats same_delete_group : within.

Lemma writev_fd_left P fd bs :
  triple (left_with P) (writev_fd fd bs) (fun r w => left_with P w /\ (r.1 = Ret true -> _buf_arr r.2 = []) /\ (r.1 = Ret false -> _buf_arr r.2 <> [])).
Proof.
  intros w Hw. pose proof (left_same P (writev_fd fd bs) ltac:(frame_step) ltac:(frame_step) w Hw) as Hl.
  assert (Hr : forall c o bs', (writev (w_bufs w) bs c).1 = o -> (writev (w_bufs w) bs c).2.1 = bs' ->
    (o = Ret true -> _buf_arr bs' = []) /\ (o = Ret false -> _buf_arr bs' <> [])).
  { intros c o bs' <- <-. destruct (writev (w_bufs w) bs c) as [o [bs' c']] eqn:Ev. split; cbn; intros ->; [by eapply writev_true|by eapply writev_false]. }
  unfold writev_fd, with_chan, gets, mbind, M_bind in *. destruct (k_chans (w_kern w) !! fd) as [c|].
  - specialize (Hr c). destruct (writev (w_bufs w) bs c) as [o [bs' c']]. split; [exact Hl|by apply Hr].
  - specialize (Hr closed_chan). cbn in *. destruct (writev (w_bufs w) bs closed_chan) as [o [bs' c']]. split; [exact Hl|by apply Hr].
Qed.

Lemma busy_set f : (forall c, lists (f c) = lists c) -> busy (set_cli cli f).
Proof. intros Hf. apply within_frame, frame_cli_hole. intros c. specialize (Hf c). unfold lists in Hf. injection Hf as _ E2 E3. unfold cli_fewer. by rewrite E2, E3. Qed.
Lemma busy_ready f : (forall c, _parsed_groups (f c) = _parsed_groups c /\ _awaiting_groups (f c) = _awaiting_groups c) -> busy (set_cli cli f).
Proof. intros Hf. apply within_frame, frame_cli_hole. intros c. destruct (Hf c) as [E1 E2]. unfold cli_fewer. by rewrite E1, E2. Qed.

(** All is sent. *)
Lemma all_sent_left P :
  triple (left_with P)
    (c ← get_cli cli;
     for_each (_ready_groups c) collect_stats ;;
     for_each (_ready_groups c) delete_group ;;
     set_cli cli (fun c => c <| _ready_groups := [] |>) ;;
     when (bool_decide (_awaiting_groups c = [])) (set_cli cli (fun c => c <| _peers := ∅ |>)) ;;
     when (negb (bool_decide (_parsed_groups c = []))) (_process cli)) (fun _ => left_with early).
Proof.
  apply left_get. intros c. eapply triple_pre; [intros w; apply (left_mono _ (fun x => x = c)); by intros x []|].
  eapply triple_bind; [apply left_same; frame_step|intros []]. eapply triple_bind; [apply left_same; frame_step|intros []].
  set (Q := fun x => _ready_groups x = [] /\ _parsed_groups x = _parsed_groups c).
  eapply triple_bind; [by apply (left_set _ Q); [by apply busy_ready|..|by intros x ->]|intros []].
  eapply triple_bind; [apply triple_when; by apply (left_set Q Q); [by apply busy_set|..]|intros []].
  case_bool_decide as Ep; cbn.
  - apply triple_ret. intros w. apply left_mono. intros x [E1 E2]. split; congruence.
  - eapply triple_pre; [|eapply triple_post; [|apply (process_left True)]].
    + intros w. apply left_mono. intros x [E1 _]. unfold sending. by rewrite E1.
    + intros [] w. apply left_mono. apply served_early.
Qed.

Lemma send_left P : triple (left_with P) (_send_buffer_set cli) (fun _ => left_with early).
Proof.
  unfold _send_buffer_set. apply left_get. intros c. eapply triple_bind; [apply writev_fd_left|intros [o bs]]. cbn [fst snd].
  eapply triple_bind with (Q := fun _ w => left_with (fun x => cli_output x = bs) w /\ (o = Ret false -> _buf_arr bs <> [])).
  { intros w (Hw & _ & Hf). pose proof (left_set _ (fun x => cli_output x = bs) (fun c => c <| cli_output := bs |>) ltac:(by apply busy_set) ltac:(done) ltac:(done) w Hw) as Hs.
    destruct (set_cli _ _ w) as [[] w']; done. }
  intros []. eapply triple_bind with (Q := fun all w => left_with (fun x => all = false -> loaded x) w).
  { intros w [Hw Hf]. unfold lift. destruct o as [[|]|e|k|]; try done; revert Hw; apply left_mono; intros x E0; [done|]. intros _. unfold loaded. rewrite E0. by apply Hf. }
  intros [|]; cbn [when]; [apply all_sent_left|]. apply triple_ret. intros w. apply left_mono. intros x Hl. split; auto.
Qed.

Lemma write_response_left : triple (left_with early) (_write_response cli) (fun _ => left_with early).
Proof.
  unfold _write_response. apply left_get. intros c. eapply triple_pre; [intros w; apply (left_mono _ early); by intros x []|].
  eapply triple_bind; [apply triple_when, send_left|intros []]. apply left_get. intros c'. eapply triple_pre; [intros w; apply (left_mono _ early); by intros x []|].
  case_match; [by apply triple_ret|]. eapply (triple_bind _ _ _ (fun _ => left_with (served True))); [|intros []; apply send_left].
  apply (triple_left _ (served True)); [frame_step|]. intros w Hw. pose proof (push_awaitings_left True w Hw). by destruct (_push_awaitings_to_ready cli w) as [[] w'].
Qed.

(** Requests that are read wait, or are handed over. *)
Definition taken (e : Prop) (c : Client) : Prop := sending c /\ (e -> _awaiting_groups c <> [] -> _awaiting_count c = 0 -> loaded c).

Lemma same_new_commands g cmds : within (keeps w_clis) (new_commands g cmds).
Proof. induction cmds as [|[b ks] cmds IH]; cbn [new_commands]; unfold new_command, new_buffer; frame_step. Qed.
#[local] Hint Resolve same_new_commands : within.
Lemma same_make_group stats sp : within (keeps w_clis) (make_group stats cli sp).
Proof.
  unfold make_group, notify_each_thread_update_slot_map, update_slot_map, new_direct_group, new_single_group, new_multi_group, new_group, new_command, new_buffer. frame_step.
Qed.

Lemma push_commands_left e stats sps : triple (left_with (taken e)) (push_commands stats cli sps) (fun _ => left_with (taken e)).
Proof.
  apply triple_left; [frame_step|]. apply (triple_post _ _ (fun _ => if_open (taken e))); [done|]. eapply triple_pre; [by intros w []|].
  induction sps as [|sp sps IH]; cbn [push_commands]; [by apply triple_ret|].
  eapply triple_bind with (Q := fun _ => if_open (taken e)).
  { eapply triple_within, same_make_group. intros w w' Hw. unfold if_open, on_cli. by rewrite Hw. }
  intros g. eapply (triple_bind _ _ _ (fun _ => if_open (taken e))); [|intros []; exact IH]. intros w Hw. unfold set_cli, get_cli, deref_obj, mbind, M_bind.
  destruct (w_clis w !! cli) as [c|] eqn:Hc; [|done]. intros c'. cbn. rewrite lookup_insert_eq. intros [= <-]. exact (Hw c Hc).
Qed.

Lemma closes_left P : triple (left_with P) (close_conn_fd (CClient cli)) (fun _ => left_with (fun _ => False)).
Proof.
  apply triple_left; [frame_step|]. intros w _. pose proof (close_client cli w) as Hc. destruct (close_conn_fd (CClient cli) w) as [[a|e|k|] w']; try done.
  intros c Hx Hf. by rewrite (proj2 Hc c Hx) in Hf.
Qed.

Lemma read_request_left e stats : triple (left_with (served e)) (_read_request stats cli) (fun _ => left_with (served e)).
Proof.
  eapply triple_pre; [intros w; apply (left_mono _ (taken e)); by intros x []|].
  unfold _read_request. apply left_get. intros c. eapply triple_pre; [intros w; apply (left_mono _ (taken e)); by intros x []|].
  eapply triple_bind; [apply (left_same (taken e)); frame_step|intros [o buf]].
  eapply triple_bind; [apply (left_set _ (taken e)); [by apply busy_set|done..]|intros []].
  eapply triple_bind; [apply (left_same (taken e)); frame_step|intros n].
  case_match; [eapply triple_post; [|apply closes_left]; intros [] w; by apply left_mono|].
  eapply triple_bind; [apply (left_same (taken e)); frame_step|intros t]. destruct (split_client_command t buf) as [o' [gs rest]].
  eapply triple_bind; [apply push_commands_left|intros []].
  eapply triple_bind; [apply (left_set _ (taken e)); [by apply busy_set|done..]|intros []].
  eapply triple_bind; [apply (left_same (taken e)); frame_step|intros []]. apply left_get. intros c'. case_bool_decide as Ea; cbn [when].
  - eapply triple_pre, process_left. intros w. apply left_mono. by intros x [[] _].
  - apply triple_ret. intros w. apply left_mono. intros x [[H1 H2] ->]. split; auto.
Qed.

(** ** The event *)

Lemma left_filled w : left_with (fun _ => False) w -> Awake E None w.
Proof. intros [HA Hw]. apply (awake_fill_cli E cli); [done|]. intros c Hc Hf. by destruct (Hw c Hc Hf). Qed.

Lemma early_served c : ~ E cli -> early c -> served (E cli) c.
Proof. intros HE [H1 H2]. by split. Qed.

(** The end of the event: the client is polled for writing if there is output. *)
Lemma poll_left :
  triple (left_with (served (E cli)))
    (c ← get_cli cli; if bufset_empty (cli_output c) then set_conn_poll_ro (CClient cli) else set_conn_poll_rw (CClient cli)) (fun _ => Awake E None).
Proof.
  intros w [HA Hw]. unfold mbind, M_bind, get_cli, deref_obj. destruct (w_clis w !! cli) as [c|] eqn:Hc; [|done].
  assert (Hb : busy (set_conn_poll_ro (CClient cli)) /\ busy (set_conn_poll_rw (CClient cli))) by (split; frame_step). destruct Hb as [Hr Hrw].
  unfold bufset_empty. case_bool_decide as Ee; [specialize (Hr w)|specialize (Hrw w)]; unfold set_conn_poll_ro, set_conn_poll_rw, set_proxy, modify in *.
  - apply (awake_fill_cli E cli); [by apply Hr|]. intros c'. cbn. rewrite Hc. intros [= <-] Hf. split; [by apply Hw|]. by intros [].
  - apply (awake_fill_cli E cli); [by apply Hrw|]. intros c'. cbn. rewrite Hc. intros [= <-] Hf. split; [by apply Hw|].
    intros _. left. unfold polls. cbn. apply lookup_insert_eq.
Qed.

Lemma awake_client_on_events stats ev : event_is_write ev = false \/ ~ E cli -> kept (awake E None) (client_on_events stats cli ev).
Proof.
  intros He. unfold client_on_events. case_match; [apply kept_within, within_frame; frame_step|]. intros w. unfold try_catch.
  set (body := when (event_is_read ev) _ ;; _).
  assert (Hb : busy body) by (unfold body; frame_step).
  assert (Ht : triple (left_with (served (E cli))) body (fun _ => Awake E None)).
  { unfold body. eapply triple_bind; [apply triple_when, read_request_left|intros []].
    eapply triple_bind with (Q := fun b : bool => left_with (if b then fun _ => False else served (E cli))).
    - intros w1 [HA Hw1]. unfold is_closed, conn_fd, get_cli, deref_obj, mbind, M_bind. destruct (w_clis w1 !! cli) as [c|] eqn:Hc; [|done]. cbn.
      destruct (Z.eqb_spec (cli_fd c) (-1)); (split; [done|]); [|done]. intros c' Hc'. by simplify_eq.
    - intros [|]; [apply triple_ret, left_filled|]. eapply (triple_bind _ _ _ (fun _ => left_with (served (E cli)))); [|intros []; apply poll_left].
      destruct (event_is_write ev) eqn:Ew; cbn [when]; [|by apply triple_ret]. destruct He as [|He]; [done|].
      eapply triple_pre, triple_post, write_response_left; [intros w1; apply left_mono, served_early|intros [] w1; apply left_mono; intros c; by apply early_served]. }
  specialize (Hb w). specialize (Ht w). assert (Hs : Awake E None w -> left_with (served (E cli)) w).
  { intros HA. split; [by apply awake_hole|]. intros c Hc Hf. by apply (aw_served _ _ _ HA cli c). }
  destruct (body w) as [[a|e|k|] w1]; try done; [by intros HA; apply Ht, Hs|].
  destruct (is_bad_redis_message e || is_io_error_base e) eqn:Ee; [|unfold fatal; by rewrite Ee].
  pose proof (closes_left (fun _ => True) w1) as Hc. pose proof (close_client cli w1) as Hn. destruct (close_conn_fd (CClient cli) w1) as [[a|e'|k|] w2]; try done.
  intros HA. apply left_filled, Hc. split; [by apply Hb, awake_hole|done].
Qed.
End Hole.

#[export] Hint Resolve awake_client_on_events : within.
