(* ===== verification/Updaters.v ===== *)
(** * Someone asks for the slot map

    Commands that no server can take wait in [_retrying_commands] for a new slot map.  [Asking]: the
    updaters the proxy waits for are not done, and if there are any then one of them is open; so a
    command never waits for a slot map nobody asks for. *)
From S2P Require Import Prelude Strings OrderedSet Address SlotCalc Buffer Response SlotMap CommandParser Logic World Kernel Command Server LongConn Client Proxy Concurrence Frames Quiet Order Output Delivery Wake.
#[local] Open Scope Z_scope.

Abbreviation waited w := (_slot_updaters (w_proxy w)).
Abbreviation finished w := (_finished_slot_updaters (w_proxy w)).

(** The waited updater that is open. *)
Definition open_updater (w : World) : Prop := exists u x, u ∈ waited w /\ w_upds w !! u = Some x /\ upd_fd x <> -1.

Record Tidy (w : World) : Prop := {
  td_new : forall u x, u ∈ waited w -> w_upds w !! u = Some x -> _proxy_already_updated x = false;
  td_done : forall u x, u ∈ finished w -> w_upds w !! u = Some x -> _proxy_already_updated x = true
}.

Definition Asking (w : World) : Prop := Tidy w /\ (waited w = [] \/ open_updater w).

Definition asking (w w' : World) : Prop := Asking w -> Asking w'.
#[export] Instance asking_preorder : PreOrder asking.
Proof. split; [intros w Hw; exact Hw|]. intros w1 w2 w3 H1 H2 H. auto. Qed.

(** ** Operations that leave the updaters alone *)

(** All that [Asking] depends on. *)
Definition asks (w : World) : gmap nat (Z * bool) * list nat * list nat :=
  ((fun x => (upd_fd x, _proxy_already_updated x)) <$> w_upds w, waited w, finished w).

Lemma asks_lookup w w' u x' : asks w' = asks w -> w_upds w' !! u = Some x' ->
  exists x, w_upds w !! u = Some x /\ upd_fd x = upd_fd x' /\ _proxy_already_updated x = _proxy_already_updated x'.
Proof.
  intros [= Ha _ _] Hx. assert (E1 : ((fun x => (upd_fd x, _proxy_already_updated x)) <$> w_upds w) !! u = Some (upd_fd x', _proxy_already_updated x')).
  { rewrite <- Ha, lookup_fmap, Hx. done. }
  rewrite lookup_fmap in E1. destruct (w_upds w !! u) as [x|]; [|done]. exists x. split; [done|]. by injection E1.
Qed.

Lemma asks_tidy w w' : keeps asks w w' -> Tidy w -> Tidy w'.
Proof.
  intros Hk [A1 A2]. assert (Hw : waited w' = waited w /\ finished w' = finished w) by (by injection Hk). destruct Hw as [Hw Hf].
  split; intros u x Hu Hx; rewrite ?Hw, ?Hf in Hu; destruct (asks_lookup _ _ _ _ Hk Hx) as (y & Hy & _ & <-); eauto.
Qed.

Lemma asks_asking w w' : keeps asks w w' -> asking w w'.
Proof.
  intros Hk [HT A3]. split; [by eapply asks_tidy|]. assert (Hw : waited w' = waited w) by (by injection Hk). rewrite Hw.
  destruct A3 as [|(u & x & Hu & Hx & Ho)]; [by left|right]. symmetry in Hk.
  destruct (asks_lookup w' w u x Hk Hx) as (y & Hy & Hfd & _). exists u, y. rewrite Hw. split_and!; [done..|congruence].
Qed.

Lemma keeps_set_upd u f : (forall x, upd_fd (f x) = upd_fd x /\ _proxy_already_updated (f x) = _proxy_already_updated x) -> within (keeps asks) (set_upd u f).
Proof.
  intros Hf w. unfold set_upd, get_upd, deref_obj, mbind, M_bind. destruct (w_upds w !! u) as [x|] eqn:Ex; [|done].
  unfold keeps, asks. cbn. destruct (Hf x) as [E1 E2]. rewrite fmap_insert, E1, E2. do 2 f_equal. apply insert_id. by rewrite lookup_fmap, Ex.
Qed.
#[local] Hint Extern 1 (within (keeps asks) (set_upd _ _)) => (apply keeps_set_upd; intros ?; split; reflexivity) : within.

#[local] Abbreviation apart c := (within (keeps asks) c).
Section Apart.
Lemma apart_conn_fd c : apart (conn_fd c).
Proof. destruct c; cbn [conn_fd]; frame_step. Qed.
#[local] Hint Resolve apart_conn_fd : within.
Lemma apart_is_closed c : apart (is_closed c).
Proof. unfold is_closed. frame_step. Qed.
Lemma apart_poll_add_ro c : apart (poll_add_ro c).
Proof. unfold poll_add_ro. frame_step. Qed.
Lemma apart_poll_add_rw c : apart (poll_add_rw c).
Proof. unfold poll_add_rw. frame_step. Qed.
Lemma apart_poll_ro c : apart (poll_ro c).
Proof. unfold poll_ro. frame_step. Qed.
Lemma apart_poll_rw c : apart (poll_rw c).
Proof. unfold poll_rw. frame_step. Qed.
Lemma apart_poll_del c : apart (poll_del c).
Proof. unfold poll_del. frame_step. Qed.
#[local] Hint Resolve apart_is_closed apart_poll_add_ro apart_poll_add_rw apart_poll_ro apart_poll_rw apart_poll_del : within.
Lemma apart_close_fd c : (forall u, c <> CUpdater u) -> apart (close_conn_fd c).
Proof. intros Hc. unfold close_conn_fd, set_conn_fd. destruct c as [| | | |u|]; [..|by destruct (Hc u)|]; frame_step. Qed.
#[local] Hint Extern 1 (forall u, _ <> CUpdater u) => (intros ?; discriminate) : within.
#[local] Hint Resolve apart_close_fd : within.

Lemma apart_set_conn_poll_rw c : apart (set_conn_poll_rw c).
Proof. unfold set_conn_poll_rw. frame_step. Qed.
Lemma apart_set_conn_poll_ro c : apart (set_conn_poll_ro c).
Proof. unfold set_conn_poll_ro. frame_step. Qed.
Lemma apart_get_server_by_slot ks : apart (get_server_by_slot ks).
Proof. unfold get_server_by_slot, get_by_slot. frame_step. Qed.
#[local] Hint Resolve apart_set_conn_poll_rw apart_set_conn_poll_ro apart_get_server_by_slot : within.
Lemma apart_select_server c : apart (select_server c).
Proof. unfold select_server, select_server_for, push_client_command, add_peer, retry_move_ask_command_later. frame_step. Qed.
#[local] Hint Resolve apart_select_server : within.
Lemma apart_buffers_of_cmds cs : apart (buffers_of_cmds cs).
Proof. induction cs; cbn [buffers_of_cmds]; unfold buffer_of_cmd; frame_step. Qed.
#[local] Hint Resolve apart_buffers_of_cmds : within.
Lemma apart_push_ready cli gs : apart (push_ready cli gs).
Proof. induction gs; cbn [push_ready]; unfold append_buffer_to, buffer_of_cmd, multi_append_buffer, del_append_buffer, mset_append_buffer, set_buffer; frame_step. Qed.
#[local] Hint Resolve apart_push_ready : within.
Lemma apart_push_awaitings cli : apart (_push_awaitings_to_ready cli).
Proof. unfold _push_awaitings_to_ready. frame_step. Qed.
#[local] Hint Resolve apart_push_awaitings : within.
Lemma apart_responsed c : apart (responsed c).
Proof. unfold responsed, command_responsed, single_command_responsed, multi_command_responsed, group_responsed, set_buffer. frame_step. Qed.
#[local] Hint Resolve apart_responsed : within.
Lemma apart_on_remote_responsed c rsp err : apart (on_remote_responsed c rsp err).
Proof. unfold on_remote_responsed, rsp_get, rsp_set, rename_goto, reactivate, answer, set_buffer. frame_step. Qed.
#[local] Hint Resolve apart_on_remote_responsed : within.
Lemma apart_total_cost cs : apart (total_remote_cost cs).
Proof. induction cs; cbn [total_remote_cost]; frame_step. Qed.
#[local] Hint Resolve apart_total_cost : within.
Lemma apart_collect_stats g : apart (collect_stats g).
Proof. unfold collect_stats, avg_commands_remote_cost, stat_proccessed. frame_step. Qed.
Lemma apart_delete_group g : apart (delete_group g).
Proof. unfold delete_group. frame_step. Qed.
Lemma apart_new_commands g cmds : apart (new_commands g cmds).
Proof. induction cmds as [|[b ks] cmds IH]; cbn [new_commands]; unfold new_command, new_buffer; frame_step. Qed.
#[local] Hint Resolve apart_collect_stats apart_delete_group apart_new_commands : within.
Lemma apart_make_group stats cli sp : apart (make_group stats cli sp).
Proof.
  unfold make_group, notify_each_thread_update_slot_map, update_slot_map, new_direct_group, new_single_group, new_multi_group, new_group, new_command, new_buffer. frame_step.
Qed.
#[local] Hint Resolve apart_make_group : within.
Lemma apart_push_commands stats cli sps : apart (push_commands stats cli sps).
Proof. induction sps; cbn [push_commands]; frame_step. Qed.

(** Servers *)
Lemma apart_close_conn s : apart (close_conn s).
Proof. unfold close_conn, retry_move_ask_command_later, inactivate_long_conn, remove_entry. frame_step. Qed.
#[local] Hint Resolve apart_push_commands apart_close_conn : within.
Lemma apart_respond t rsps sent : apart (respond t rsps sent).
Proof. revert sent. induction rsps as [|r rsps IH]; intros [|[c|] sent]; cbn [respond]; unfold rsp_to, retry_move_ask_command_later; frame_step. Qed.
#[local] Hint Resolve apart_respond : within.
Lemma apart_server_on_events s ev : apart (server_on_events s ev).
Proof. unfold server_on_events, catch_bad, _recv_from, _push_to_buffer_set. frame_step. Qed.
Lemma apart_get_server addr : apart (get_server addr).
Proof. unfold get_server, _alloc_server, new_pooled_server, _reconnect, on_server_connected. frame_step. Qed.
#[local] Hint Resolve apart_get_server : within.
Lemma apart_map_slots s first n r : apart (map_slots s first n r).
Proof. revert first r. induction n; intros; cbn [map_slots]; frame_step. Qed.
#[local] Hint Resolve apart_map_slots : within.
Lemma apart_map_ranges s rs r m : apart (map_ranges s rs r m).
Proof. revert r m. induction rs; intros; cbn [map_ranges]; frame_step. Qed.
#[local] Hint Resolve apart_map_ranges : within.
Lemma apart_map_nodes pick nodes r m : apart (map_nodes pick nodes r m).
Proof. revert r m. induction nodes; intros; cbn [map_nodes]; frame_step. Qed.
#[local] Hint Resolve apart_map_nodes : within.
Lemma apart_retry_commands cmds svrs : apart (retry_commands cmds svrs).
Proof. revert svrs. induction cmds; intros; cbn [retry_commands]; frame_step. Qed.
#[local] Hint Resolve apart_retry_commands : within.
Lemma apart_set_slot_map nodes remotes : apart (_set_slot_map nodes remotes).
Proof. unfold _set_slot_map, replace_map. frame_step. Qed.
Lemma apart_slot_map_clear : apart slot_map_clear.
Proof. unfold slot_map_clear. frame_step. Qed.

(** Clients and long connections *)
Lemma apart_delete_long l : apart (delete_long l).
Proof. unfold delete_long, detach_long_connection. frame_step. Qed.
#[local] Hint Resolve apart_delete_long : within.
Lemma apart_deliver_client g : apart (deliver_client g).
Proof. unfold deliver_client, deliver_to, new_long, attach_long_connection, open_server_conn, random_addr, get_by_slot, set_conn_fd. frame_step. Qed.
Lemma apart_select_remote g : apart (select_remote g).
Proof. unfold select_remote. frame_step. Qed.
#[local] Hint Resolve apart_deliver_client apart_select_remote : within.
Lemma apart_process_loop cli i n : apart (process_loop cli i n).
Proof. revert i. induction n; intros i; cbn [process_loop]; frame_step. Qed.
#[local] Hint Resolve apart_process_loop : within.
Lemma apart_process cli : apart (_process cli).
Proof. unfold _process. frame_step. Qed.
#[local] Hint Resolve apart_process : within.
Lemma apart_send_buffer_set cli : apart (_send_buffer_set cli).
Proof. unfold _send_buffer_set. frame_step. Qed.
#[local] Hint Resolve apart_send_buffer_set : within.
Lemma apart_client_on_events stats cli ev : apart (client_on_events stats cli ev).
Proof. unfold client_on_events, _read_request, _write_response. frame_step. Qed.
Lemma apart_erase cli cmds : apart (erase_client cli cmds).
Proof. apply within_pure; [typeclasses eauto|]. intros w. apply erase_client_pure. Qed.
Lemma apart_reset cli sent : apart (reset_client cli sent).
Proof. apply within_pure; [typeclasses eauto|]. intros w. apply reset_client_pure. Qed.
#[local] Hint Resolve apart_erase apart_reset : within.
Lemma apart_delete_client cli : apart (delete_client cli).
Proof. unfold delete_client, server_pop_client, proxy_pop_client. frame_step. Qed.
Lemma apart_new_client fd : apart (new_client fd).
Proof. unfold new_client. frame_step. Qed.
#[local] Hint Resolve apart_delete_client apart_new_client : within.
Lemma apart_accept_loop fuel : apart (accept_loop fuel).
Proof. induction fuel; cbn [accept_loop]; frame_step. Qed.
Lemma apart_restore_client l rsp upd : apart (restore_client l rsp upd).
Proof. unfold restore_client, update_slot_map, set_conn_fd. frame_step. Qed.
#[local] Hint Resolve apart_accept_loop apart_restore_client : within.
Lemma apart_server_conn_on_error l : apart (server_conn_on_error l).
Proof. unfold server_conn_on_error. frame_step. Qed.
#[local] Hint Resolve apart_server_conn_on_error : within.
Lemma apart_long_on_events l ev : apart (long_on_events l ev).
Proof. unfold long_on_events. frame_step. Qed.
Lemma apart_long_server_on_events l ev : apart (long_server_on_events l ev).
Proof. unfold long_server_on_events, subscription_server_on_events, blocked_server_on_events. frame_step. Qed.
Lemma apart_after_all conns active : apart (after_all conns active).
Proof.
  revert active. induction conns as [|c conns IH]; intros active; cbn [after_all]; [frame_step|]. case_bool_decide; [|apply IH].
  apply within_bind; [typeclasses eauto| |intros; apply IH].
  destruct c; cbn [after_events]; unfold client_after_events, server_after_events, long_after_events, long_server_after_events, update_slot_map; frame_step.
Qed.
Lemma apart_poll_ctl : apart poll_ctl.
Proof. unfold poll_ctl. frame_step. Qed.
Lemma apart_turn_on : apart turn_on_accepting.
Proof. unfold turn_on_accepting. frame_step. Qed.
End Apart.

#[local] Hint Resolve apart_is_closed apart_poll_ro apart_on_remote_responsed apart_slot_map_clear apart_close_fd apart_close_conn
  apart_client_on_events apart_server_on_events apart_long_on_events apart_long_server_on_events apart_accept_loop apart_server_conn_on_error
  apart_after_all apart_poll_ctl apart_turn_on : within.
#[local] Hint Extern 1 (forall u, _ <> CUpdater u) => (intros ?; discriminate) : within.

(** ** Exceptions of a slot map update *)

Definition throws (P : exn -> Prop) {A} (c : W A) : Prop := forall w e w', c w = (Throw e, w') -> P e.
Definition is_fatal (e : exn) : Prop := fatal e = true.

Section Throws.
Context (P : exn -> Prop).

Lemma throws_bind {A B} (c : W A) (f : A -> W B) : throws P c -> (forall a, throws P (f a)) -> throws P (c ≫= f).
Proof. intros Hc Hf w e w'. unfold mbind, M_bind. specialize (Hc w). destruct (c w) as [[a|e'|k|] w1]; try done; [apply Hf|]. intros [= <- <-]. by eapply Hc. Qed.
Lemma throws_throw {A} e : P e -> throws P (throw (A := A) e).
Proof. intros He w e' w' [= <- _]. done. Qed.
Lemma throws_for {A} (l : list A) body : (forall x, throws P (body x)) -> throws P (for_each l body).
Proof. intros Hb. induction l; cbn [for_each]; [done|]. by apply throws_bind. Qed.
Lemma throws_when b (c : W unit) : throws P c -> throws P (when b c).
Proof. by destruct b. Qed.
End Throws.

Create HintDb throws discriminated.
Ltac throws_step :=
  repeat first
    [ solve [eauto 3 with throws nocore]
    | apply throws_throw; reflexivity
    | apply throws_bind; [|intros ?]
    | apply throws_for; intros ?
    | apply throws_when
    | solve [intros ? ? ?; unfold get_cmd, get_grp, get_cli, get_svr, get_upd, get_long, deref_obj; cbn; repeat case_match; discriminate]
    | progress unfold set_cmd, set_grp, set_cli, set_svr, set_long, set_upd, set_proxy, set_glob, set_kern
    | case_match ].

(** What [catch (IOErrorBase&)] leaves is fatal. *)
Definition not_bad (e : exn) : Prop := is_bad_redis_message e = false.

Lemma throws_flush fd b : throws not_bad (flush_fd fd b).
Proof.
  assert (Hl : forall ws sent rest e r, flush_loop ws sent rest = (Throw e, r) -> not_bad e).
  { induction ws as [|[n|e0] ws IH]; intros sent [|b0 rest] e r; cbn [flush_loop]; try done; [apply IH|].
    unfold io_on_error. repeat case_match; simplify_eq; try (by intros [= <- _]). by apply IH. }
  intros w e w'. unfold flush_fd, with_chan, flush_string, flush_mem. destruct (k_chans (w_kern w) !! fd) as [c|].
  - destruct (flush_loop _ _ _) as [o [ws sent]] eqn:Ef. intros [= -> _]. by eapply Hl.
  - match goal with |- context [flush_loop ?a ?b ?c] => destruct (flush_loop a b c) as [o [ws sent]] eqn:Ef end. cbn. intros [= -> _]. by eapply Hl.
Qed.
#[local] Hint Resolve throws_flush : throws.

Lemma throws_socket : throws not_bad new_stream_socket.
Proof. unfold new_stream_socket, next_script. throws_step. Qed.
Lemma throws_nonblocking fd : throws not_bad (set_nonblocking fd).
Proof. unfold set_nonblocking, next_script. throws_step. Qed.
Lemma throws_connect h p fd : throws not_bad (connect_fd h p fd).
Proof. unfold connect_fd, next_script. throws_step. Qed.
Lemma throws_poll_add_rw c : throws not_bad (poll_add_rw c).
Proof. unfold poll_add_rw, poll_add_write, epoll_ctl_add, poll_check. apply throws_bind; [destruct c; cbn [conn_fd]; throws_step|intros fd]. throws_step. Qed.
#[local] Hint Resolve throws_socket throws_nonblocking throws_connect throws_poll_add_rw : throws.
Lemma throws_reconnect s addr : throws not_bad (_reconnect s addr).
Proof. unfold _reconnect, on_server_connected. throws_step. Qed.
Lemma throws_is_closed P c : throws P (is_closed c).
Proof. unfold is_closed, conn_fd. throws_step. Qed.
Lemma throws_close_conn P s : throws P (close_conn s).
Proof.
  unfold close_conn, close_conn_fd, set_conn_fd, cio_close, retry_move_ask_command_later, inactivate_long_conn, remove_entry, is_closed, conn_fd. throws_step.
Qed.
#[local] Hint Resolve throws_is_closed throws_close_conn : throws.
Lemma throws_try_reconnect s addr :
  throws is_fatal (try_catch (_reconnect s addr) (fun e => if is_io_error_base e then Some (close_conn s) else None)).
Proof.
  intros w e w'. unfold try_catch. destruct (_reconnect s addr w) as [[r|e'|k|] w1] eqn:Er; try done. apply throws_reconnect in Er.
  destruct (is_io_error_base e') eqn:Ei; [apply throws_close_conn|]. intros [= <- _]. unfold is_fatal, fatal. by rewrite Ei, Er.
Qed.
Lemma throws_new_pooled : throws is_fatal new_pooled_server.
Proof. unfold new_pooled_server, fresh. throws_step. Qed.
#[local] Hint Resolve throws_try_reconnect throws_new_pooled : throws.
Lemma throws_alloc addr : throws is_fatal (_alloc_server addr).
Proof.
  unfold _alloc_server. apply throws_bind; [done|intros pool]. apply throws_bind; [apply throws_when, throws_for; intros; apply throws_new_pooled|intros _].
  throws_step.
Qed.
#[local] Hint Resolve throws_alloc : throws.
Lemma throws_get_server addr : throws is_fatal (get_server addr).
Proof. unfold get_server. throws_step. Qed.
#[local] Hint Resolve throws_get_server : throws.
Lemma throws_map_slots s first n r : throws is_fatal (map_slots s first n r).
Proof. revert first r. induction n; intros; cbn [map_slots]; throws_step. Qed.
#[local] Hint Resolve throws_map_slots : throws.
Lemma throws_map_ranges s rs r m : throws is_fatal (map_ranges s rs r m).
Proof. revert r m. induction rs; intros; cbn [map_ranges]; throws_step. Qed.
#[local] Hint Resolve throws_map_ranges : throws.
Lemma throws_map_nodes pick nodes r m : throws is_fatal (map_nodes pick nodes r m).
Proof. revert r m. induction nodes; intros; cbn [map_nodes]; throws_step. Qed.
#[local] Hint Resolve throws_map_nodes : throws.
Lemma throws_select_server c : throws is_fatal (select_server c).
Proof. unfold select_server, select_server_for, get_server_by_slot, get_by_slot, push_client_command, add_peer, retry_move_ask_command_later. throws_step. Qed.
#[local] Hint Resolve throws_select_server : throws.
Lemma throws_retry cmds svrs : throws is_fatal (retry_commands cmds svrs).
Proof. revert svrs. induction cmds; intros; cbn [retry_commands]; throws_step. Qed.
#[local] Hint Resolve throws_retry : throws.
Lemma throws_set_slot_map nodes remotes : throws is_fatal (_set_slot_map nodes remotes).
Proof. unfold _set_slot_map, replace_map, poll_rw, conn_fd, poll_write, epoll_ctl_mod, poll_check. throws_step. Qed.

(** ** The end of an update *)

(** [c] may start when the last updater has been closed. *)
Definition settles {A} (c : W A) : Prop := kept (fun w w' => Tidy w -> Asking w') c.

Lemma settles_then {A B} (c : W A) (d : A -> W B) : within (keeps asks) c -> throws is_fatal c -> (forall a, settles (d a)) -> settles (c ≫= d).
Proof.
  intros Hc Hf Hd w. specialize (Hc w). specialize (Hf w). unfold mbind, M_bind. destruct (c w) as [[a|e|k|] w1]; try done.
  - specialize (Hd a w1). destruct (d a w1) as [[b|e|k|] w2]; try done; [intros HT|intros He HT; specialize (Hd He)]; apply Hd; by eapply asks_tidy.
  - intros He. specialize (Hf e w1 eq_refl). unfold is_fatal in Hf. congruence.
Qed.
Lemma settles_apart {A B} (c : W A) (d : A -> W B) : settles c -> (forall a, within (keeps asks) (d a)) -> settles (c ≫= d).
Proof.
  intros Hc Hd w. specialize (Hc w). unfold mbind, M_bind. destruct (c w) as [[a|e|k|] w1]; try done.
  specialize (Hd a w1). destruct (d a w1) as [[b|e|k|] w2]; try done; intros; eapply asks_asking; eauto.
Qed.

Lemma set_flags_lookup us : forall w, match for_each us (fun u => set_upd u (fun x => x <| _proxy_already_updated := true |>)) w with
  | (Ret _, w') => w_proxy w' = w_proxy w /\ forall u x, w_upds w' !! u = Some x -> _proxy_already_updated x = true \/ ((u ∉ us) /\ w_upds w !! u = Some x)
  | (Throw _, _) => False
  | _ => True
  end.
Proof.
  induction us as [|v us IH]; intros w; cbn [for_each]; [split; [done|]; intros u x Hx; right; split; [by apply not_elem_of_nil|done]|].
  unfold mbind, M_bind, set_upd at 1, get_upd, deref_obj, mbind, M_bind. destruct (w_upds w !! v) as [y|] eqn:Ey; [|done]. cbn.
  match goal with |- context [for_each us _ ?x] => specialize (IH x); destruct (for_each us _ x) as [[[]|e|k|] w'] end; try done.
  destruct IH as [E1 IH]. split; [done|]. intros u x Hx. destruct (IH u x Hx) as [|[Hu Hl]]; [by left|]. cbn in Hl. apply lookup_insert_Some in Hl as [[<- <-]|[Hne Hl]]; [by left|].
  right. split; [|done]. by rewrite not_elem_of_cons.
Qed.

Lemma settles_move : settles _move_closed_slot_updaters.
Proof.
  intros w. unfold _move_closed_slot_updaters. unfold mbind at 1, M_bind at 1, gets. unfold mbind at 1, M_bind at 1.
  pose proof (set_flags_lookup (waited w) w) as Hs. destruct (for_each _ _ w) as [[[]|e|k|] w1]; try done. destruct Hs as [Ep Hs].
  intros [T1 T2]. split; [split|]; cbn; [by intros u x []%elem_of_nil| |by left]. rewrite Ep. intros u x Hu Hx.
  destruct (Hs u x Hx) as [|[Hn Hl]]; [done|]. apply elem_of_app in Hu as [Hu|Hu]; [by eapply T2|done].
Qed.

Lemma any_open_result us : forall w, match any_open us w with
  | (Ret b, w') => w' = w /\ (b = true -> exists u x, u ∈ us /\ w_upds w !! u = Some x /\ upd_fd x <> -1)
  | (Throw _, _) => False
  | _ => True
  end.
Proof.
  induction us as [|u us IH]; intros w; cbn [any_open]; [done|]. unfold is_closed, conn_fd, get_upd, deref_obj, mbind, M_bind in *.
  destruct (w_upds w !! u) as [x|] eqn:Ex; [|done]. cbn. destruct (Z.eqb_spec (upd_fd x) (-1)) as [Hf|Hf].
  - specialize (IH w). destruct (any_open us w) as [[b|e|k|] w']; try done. destruct IH as [-> IH]. split; [done|]. intros Hb.
    destruct (IH Hb) as (v & y & Hv & Hy). exists v, y. split; [by right|done].
  - split; [done|]. intros _. exists u, x. split; [left|done].
Qed.

Lemma apart_max_covered best us : within (keeps asks) (max_covered best us).
Proof. revert best. induction us; intros; cbn [max_covered]; frame_step. Qed.
Lemma throws_max_covered best us : throws is_fatal (max_covered best us).
Proof. revert best. induction us; intros; cbn [max_covered]; throws_step. Qed.

(** With no updater open the update ends, one way or the other. *)
#[local] Abbreviation cluster_down := (
  _move_closed_slot_updaters ;;
  set_glob (fun g => g <| cluster_ok := false |>) ;;
  slot_map_clear ;;
  cmds ← gets (fun w => _retrying_commands (w_proxy w));
  set_proxy (fun p => p <| _retrying_commands := [] |>) ;;
  for_each cmds (fun c => on_remote_responsed c CLUSTERDOWN_RSP true) ;;
  set_proxy (fun p => p <| _slot_map_expired := false |>)).

Lemma settles_failed : settles cluster_down.
Proof. apply settles_apart; [apply settles_move|intros _]. frame_step. Qed.

Lemma settles_set nodes remotes : settles (_set_slot_map nodes remotes ;; _move_closed_slot_updaters).
Proof. apply settles_then; [apply apart_set_slot_map|apply throws_set_slot_map|intros _; apply settles_move]. Qed.

(** [true]: the update has ended. *)
Definition decides (c : W bool) : Prop := forall w,
  match c w with
  | (Ret true, w') => Tidy w -> Asking w'
  | (Ret false, w') => keeps asks w w'
  | (Throw e, w') => fatal e = false -> Tidy w -> Asking w'
  | _ => True
  end.

Lemma decides_then {A} (c : W A) (d : A -> W bool) : within (keeps asks) c -> throws is_fatal c -> (forall a, decides (d a)) -> decides (c ≫= d).
Proof.
  intros Hc Hf Hd w. specialize (Hc w). specialize (Hf w). unfold mbind, M_bind. destruct (c w) as [[a|e|k|] w1]; try done.
  - specialize (Hd a w1). destruct (d a w1) as [[[|]|e|k|] w2]; try done; [intros HT|by etransitivity|intros He HT; specialize (Hd He)]; apply Hd; by eapply asks_tidy.
  - intros He. specialize (Hf e w1 eq_refl). unfold is_fatal in Hf. congruence.
Qed.
Lemma decides_done {A} (c : W A) : settles c -> decides (c ;; mret true).
Proof. intros Hc w. specialize (Hc w). unfold mbind, M_bind. by destruct (c w) as [[a|e|k|] w1]. Qed.
Lemma settles_decided (c : W bool) (d : W unit) : decides c -> settles d -> settles (used ← c; if used : bool then mret tt else d).
Proof.
  intros Hc Hd w. specialize (Hc w). unfold mbind, M_bind. destruct (c w) as [[[|]|e|k|] w1]; try done.
  specialize (Hd w1). destruct (d w1) as [[[]|e|k|] w2]; try done; [intros HT|intros He HT; specialize (Hd He)]; apply Hd; by eapply asks_tidy.
Qed.

Lemma settles_update_failed : settles _update_slot_map_failed.
Proof.
  intros w. unfold _update_slot_map_failed. unfold mbind at 1, M_bind at 1, gets at 1. unfold mbind at 1, M_bind at 1.
  pose proof (any_open_result (waited w) w) as Ho. destruct (any_open (waited w) w) as [[[|]|e|k|] w1]; try done; destruct Ho as [-> Ho].
  { intros HT. split; [done|]. right. by apply Ho. }
  unfold mbind at 1, M_bind at 1, gets at 1. clear Ho. generalize (waited w), (req_full_cov (w_glob w)). intros us full. revert w.
  apply settles_decided, settles_failed. destruct us as [|u us]; [done|]. destruct full; [done|].
  apply decides_then; [apply apart_max_covered|apply throws_max_covered|intros best]. apply decides_then; [frame_step|throws_step|intros x].
  case_match; [done|]. pose proof (decides_done _ (settles_set (_nodes x) (_remotes x))) as Hd. intros w. specialize (Hd w).
  unfold mbind, M_bind in *. by destruct (_set_slot_map _ _ w) as [[[]|e|k|] w1].
Qed.

(** An updater is done. *)
Lemma close_updater u w :
  match close_conn_fd (CUpdater u) w with
  | (Ret _, w') => waited w' = waited w /\ finished w' = finished w /\
      (forall v, v <> u -> w_upds w' !! v = w_upds w !! v) /\
      (forall x', w_upds w' !! u = Some x' -> exists x, w_upds w !! u = Some x /\ _proxy_already_updated x' = _proxy_already_updated x)
  | (Throw _, _) => False
  | _ => True
  end.
Proof.
  unfold close_conn_fd, conn_fd, set_conn_fd, set_upd, get_upd, deref_obj, mbind, M_bind. destruct (w_upds w !! u) as [x|] eqn:Ex; [|done]. cbn.
  destruct (upd_fd x =? -1).
  - split_and!; try done. intros x'. rewrite Ex. intros [= <-]. by exists x.
  - cbn. rewrite Ex. cbn. split_and!; try done; [intros v Hv; by rewrite lookup_insert_ne|]. rewrite lookup_insert_eq. intros x' [= <-]. by exists x.
Qed.

Lemma asking_notify_updated u : kept asking (_notify_updated u).
Proof.
  intros w. unfold _notify_updated. unfold mbind at 1, M_bind at 1. pose proof (close_updater u w) as Hc.
  destruct (close_conn_fd (CUpdater u) w) as [[[]|e|k|] w1]; try done. destruct Hc as (Hw & Hf & Hne & Hu).
  assert (HT : Tidy w -> Tidy w1).
  { intros [T1 T2]. split; intros v x Hv Hx; rewrite ?Hw, ?Hf in Hv; (destruct (decide (v = u)) as [->|Hvu]; [destruct (Hu x Hx) as (y & Hy & ->)|rewrite Hne in Hx by done]); eauto. }
  unfold mbind, M_bind, get_upd, deref_obj. destruct (w_upds w1 !! u) as [x|] eqn:Ex; [|done]. destruct (_proxy_already_updated x) eqn:Eu.
  - intros [T [Ho|(v & y & Hv & Hy & Ho)]]; (split; [by apply HT|]); [left; congruence|right]. exists v, y. rewrite Hw. split_and!; [done| |done].
    rewrite Hne; [done|]. intros ->. destruct (Hu x eq_refl) as (z & Hz & Ez). pose proof (td_new _ T u z Hv Hz). congruence.
  - assert (Hs : settles (notify_slot_map_updated (_nodes x) (_remotes x) (Z.of_nat (size (_covered_slots x))))).
    { unfold notify_slot_map_updated. case_match; [apply settles_update_failed|apply settles_set]. }
    specialize (Hs w1). destruct (notify_slot_map_updated _ _ _ w1) as [[b|e|k|] w2]; try done; [intros [HA _]|intros He [HA _]]; auto.
Qed.

Lemma kept_apart {A} (c : W A) : within (keeps asks) c -> kept asking c.
Proof. intros Hc. apply kept_within. eapply within_mono; [|exact Hc]. apply asks_asking. Qed.

Lemma cover_nodes_same nodes x : upd_fd (foldl cover_node x nodes) = upd_fd x /\ _proxy_already_updated (foldl cover_node x nodes) = _proxy_already_updated x.
Proof.
  revert x. induction nodes as [|n nodes IH]; intros x; cbn [foldl]; [done|]. destruct (IH (cover_node x n)) as [-> ->]. unfold cover_node. by case_match.
Qed.

Lemma apart_cover u nodes : within (keeps asks) (set_upd u (fun x => foldl cover_node (x <| _nodes := nodes |>) nodes)).
Proof. apply keeps_set_upd. intros y. by destruct (cover_nodes_same nodes (y <| _nodes := nodes |>)). Qed.
#[local] Hint Resolve apart_cover : within.

Ltac kept_step :=
  repeat first
    [ apply asking_notify_updated
    | solve [apply kept_apart; frame_step]
    | apply kept_bind; [typeclasses eauto| |intros ?]
    | case_match ].

Lemma asking_updater_on_events u ev : kept asking (updater_on_events u ev).
Proof.
  assert (Hr : kept asking (_recv_rsp u)).
  { unfold _recv_rsp. do 2 (apply kept_bind; [typeclasses eauto|kept_step|intros ?]). kept_step. }
  unfold updater_on_events, _send_cmd. case_match; [kept_step|]. case_match; [kept_step|]. destruct (event_is_read ev); cbn [when]; [|kept_step].
  apply kept_try; [typeclasses eauto|done|]. intros e k. destruct (is_bad_redis_message e) eqn:Eb; [|done]. intros [= <-].
  split; [unfold fatal; by rewrite Eb|kept_step].
Qed.

Lemma asking_on_events stats c ev : kept asking (on_events stats c ev).
Proof. destruct c; cbn [on_events]; [..|apply asking_updater_on_events|]; unfold acceptor_on_events; kept_step. Qed.
Lemma asking_conn_on_error c : kept asking (conn_on_error c).
Proof. destruct c; cbn [conn_on_error]; kept_step. Qed.

Lemma asking_process_events stats events : forall closed active, kept asking (process_events stats events closed active).
Proof.
  induction events as [|[c ev] events IH]; intros closed active; cbn [process_events]; [kept_step|]. case_bool_decide; [apply IH|].
  apply kept_bind; [typeclasses eauto| |intros failed; apply IH]. apply kept_try; [typeclasses eauto| |].
  - apply kept_bind; [typeclasses eauto|apply asking_on_events|intros _; kept_step].
  - intros e k. destruct (is_io_error_base e) eqn:Ee; [|done]. intros [= <-]. split; [unfold fatal; rewrite Ee; by destruct (is_bad_redis_message e)|].
    apply kept_bind; [typeclasses eauto|apply asking_conn_on_error|intros _; kept_step].
Qed.

(** ** Updaters that are done go away *)

Lemma delete_updater_result u w :
  match delete_updater u w with
  | (Ret _, w') => w_proxy w' = w_proxy w /\ w_next w' = w_next w /\ forall v, w_upds w' !! v = if decide (v = u) then None else w_upds w !! v
  | (Throw _, _) => False
  | _ => True
  end.
Proof.
  unfold delete_updater, close_conn_fd, conn_fd, set_conn_fd, set_upd, get_upd, deref_obj, mbind, M_bind. destruct (w_upds w !! u) as [x|] eqn:Ex; [|done]. cbn.
  destruct (upd_fd x =? -1); cbn; [|rewrite Ex; cbn]; (split; [done|]; split; [done|]); intros v; case_decide; subst; rewrite ?lookup_delete_eq, ?lookup_delete_ne by done; try done.
  by rewrite lookup_insert_ne.
Qed.

Lemma asking_delete u w : u ∈ finished w -> Asking w ->
  match delete_updater u w with (Ret _, w') => Asking w' /\ finished w' = finished w | _ => True end.
Proof.
  intros Hu [[T1 T2] Ho]. pose proof (delete_updater_result u w) as Hd. destruct (delete_updater u w) as [[[]|e|k|] w']; try done. destruct Hd as (Ep & _ & Hl).
  split; [|congruence]. unfold Asking, open_updater. rewrite Ep. split; [split|].
  - intros v x Hv Hx. rewrite Ep in Hv. rewrite Hl in Hx. case_decide; [done|]. eauto.
  - intros v x Hv Hx. rewrite Ep in Hv. rewrite Hl in Hx. case_decide; [done|]. eauto.
  - destruct Ho as [|(v & x & Hv & Hx & Hf)]; [by left|right]. exists v, x. rewrite Hl. split_and!; [done| |done].
    rewrite decide_False; [done|]. intros ->. pose proof (T1 _ _ Hv Hx). pose proof (T2 _ _ Hu Hx). congruence.
Qed.

Lemma asking_delete_all us : triple (fun w => Asking w /\ finished w = us) (for_each us delete_updater) (fun _ => Asking).
Proof.
  intros w [HA Hf]. assert (Hin : forall u, u ∈ us -> u ∈ finished w) by (by rewrite Hf). clear Hf. revert w HA Hin.
  induction us as [|u us IH]; intros w HA Hin; cbn [for_each]; [done|]. unfold mbind, M_bind.
  pose proof (asking_delete u w (Hin u ltac:(left)) HA) as Hd. destruct (delete_updater u w) as [[[]|e|k|] w1]; try done. destruct Hd as [HA1 Ef].
  apply IH; [done|]. intros v Hv. rewrite Ef. apply Hin. by right.
Qed.

Lemma asking_forget : triple Asking (set_proxy (fun p => p <| _finished_slot_updaters := [] |>)) (fun _ w => Asking w /\ finished w = []).
Proof. intros w [[T1 T2] Ho]. split; [|done]. split; [split|done]; cbn; [exact T1|by intros u x []%elem_of_nil]. Qed.

(** ** New updaters *)

Lemma new_updater_result addr w :
  (forall fd c, SockFd fd c ∈ k_sockets (w_kern w) -> fd <> -1) ->
  match new_updater addr w with
  | (Ret u, w') => u = w_next w /\ w_next w' = S (w_next w) /\ w_proxy w' = w_proxy w /\
      exists x, w_upds w' = <[u := x]> (w_upds w) /\ upd_fd x <> -1 /\ _proxy_already_updated x = false
  | (Throw _, w') => (w_next w <= w_next w')%nat /\ w_proxy w' = w_proxy w /\ forall v, (v < w_next w)%nat -> w_upds w' !! v = w_upds w !! v
  | _ => True
  end.
Proof.
  intros Hs. unfold new_updater. unfold mbind at 1, M_bind at 1.
  assert (Hn : match new_stream_socket w with (Ret fd, w1) => fd <> -1 /\ w1 = w <| w_kern := w_kern w1 |> | (Throw _, w1) => w1 = w <| w_kern := w_kern w1 |> | _ => True end).
  { unfold new_stream_socket, next_script, gets, set_kern, modify, mbind, M_bind. cbn. destruct (k_sockets (w_kern w)) as [|[fd c|e] l] eqn:Ek; cbn; try by destruct w.
    split; [|by destruct w]. apply (Hs fd c). rewrite ?Ek. left. }
  destruct (new_stream_socket w) as [[fd|e|k|] w1]; try done; [destruct Hn as [Hfd ->]|rewrite Hn; cbn; split_and!; done].
  generalize (w_kern w1). clear w1. intros k1. set (u := w_next w). set (x := mkUpdater fd [] [] [] ∅ false addr).
  set (w2 := w <| w_kern := k1 |> <| w_next := S u |> <| w_upds ::= <[u := x]> |>).
  set (body := set_nonblocking fd ;; connect_fd (host addr) (port addr) fd ;; poll_add_rw (CUpdater u)).
  change ((fresh ≫= _) (w <| w_kern := k1 |>)) with ((on_throw body (delete_updater u) ;; mret u) w2).
  assert (Hb : within (keeps (fun w => (w_next w, w_proxy w, w_upds w))) body) by (unfold body, poll_add_rw, conn_fd; frame_step).
  specialize (Hb w2). unfold mbind, M_bind, on_throw, try_catch. destruct (body w2) as [[[]|e|k|] w3]; try done; injection Hb as E1 E2 E3.
  - split_and!; [done..|]. by exists x.
  - unfold mbind, M_bind. pose proof (delete_updater_result u w3) as Hd. destruct (delete_updater u w3) as [[[]|e'|k|] w4]; try done.
    destruct Hd as (D1 & D2 & D3). cbn. split_and!; [rewrite D2, E1; cbn; lia|by rewrite D1|]. intros v Hv. rewrite D3, decide_False by lia.
    rewrite E3. cbn. apply lookup_insert_ne. lia.
Qed.

(** All the waited updaters are open, and there are none that are done. *)
Record Fresh (w : World) : Prop := {
  fs_sockets : forall fd c, SockFd fd c ∈ k_sockets (w_kern w) -> fd <> -1;
  fs_finished : finished w = [];
  fs_open : forall u, u ∈ waited w -> (u < w_next w)%nat /\ exists x, w_upds w !! u = Some x /\ upd_fd x <> -1 /\ _proxy_already_updated x = false
}.

Lemma fresh_tidy w : Fresh w -> Tidy w.
Proof.
  intros [F1 F2 F3]. split; intros u x Hu Hx; [|rewrite F2 in Hu; by apply elem_of_nil in Hu].
  destruct (F3 u Hu) as (_ & y & Hy & _ & Ey). by simplify_eq.
Qed.

Lemma fresh_add addr :
  triple Fresh
    (try_catch
      (u ← new_updater addr; set_proxy (fun p => p <| _slot_updaters ::= (fun l => l ++ [u]) |>))
      (fun e => match e with ConnectionRefused _ _ _ | UnknownHost _ => Some (mret tt) | _ => None end)) (fun _ => Fresh).
Proof.
  intros w [F1 F2 F3]. assert (Hf : within (nudge None) (new_updater addr)) by (unfold new_updater; frame_step). specialize (Hf w).
  pose proof (new_updater_result addr w F1) as Hn. unfold try_catch, mbind at 1, M_bind at 1. destruct (new_updater addr w) as [[u|e|k|] w1]; try done.
  - destruct Hn as (-> & En & Ep & x & Eu & Hx & Ex). split; cbn; [intros fd c ?; eapply F1, (fr_sockets _ _ _ Hf); done|by rewrite Ep|].
    rewrite Ep, En, Eu. intros v [Hv|Hv%list_elem_of_singleton]%elem_of_app.
    + destruct (F3 v Hv) as (Hlt & y & Hy & Hfy). split; [lia|]. exists y. rewrite lookup_insert_ne by lia. done.
    + subst v. split; [lia|]. exists x. by rewrite lookup_insert_eq.
  - destruct Hn as (Hn & Ep & Hl). assert (Hw1 : Fresh w1).
    { split; [intros fd c ?; eapply F1, (fr_sockets _ _ _ Hf); done|by rewrite Ep|]. rewrite Ep. intros v Hv. destruct (F3 v Hv) as (Hlt & y & Hy & Hfy).
      split; [lia|]. exists y. by rewrite Hl. }
    by destruct e.
Qed.

(** ** Without a slot map the commands are answered *)

Definition retrying (w : World) : list nat := _retrying_commands (w_proxy w).
#[local] Abbreviation content_with c := (within (keeps retrying) c).

Lemma retrying_buffers_of_cmds cs : content_with (buffers_of_cmds cs).
Proof. induction cs; cbn [buffers_of_cmds]; unfold buffer_of_cmd; frame_step. Qed.
#[local] Hint Resolve retrying_buffers_of_cmds : within.
Lemma retrying_push_ready cli gs : content_with (push_ready cli gs).
Proof. induction gs; cbn [push_ready]; unfold append_buffer_to, buffer_of_cmd, multi_append_buffer, del_append_buffer, mset_append_buffer, set_buffer; frame_step. Qed.
#[local] Hint Resolve retrying_push_ready : within.
Lemma retrying_answer c b : content_with (answer c b).
Proof.
  unfold answer, responsed, command_responsed, single_command_responsed, multi_command_responsed, group_responsed, _push_awaitings_to_ready, set_conn_poll_rw, set_buffer. frame_step.
Qed.
#[local] Hint Resolve retrying_answer : within.
Lemma retrying_error c rsp : content_with (on_remote_responsed c rsp true).
Proof. unfold on_remote_responsed, rsp_get, rsp_set. frame_step. Qed.
#[local] Hint Resolve retrying_error : within.

Definition Learning (w : World) : Prop := Asking w /\ (retrying w <> [] -> open_updater w).

Lemma learning_failed : triple (fun w => Tidy w /\ waited w = []) _update_slot_map_failed (fun _ => Learning).
Proof.
  intros w [HT Hw]. pose proof (settles_update_failed w) as Hs.
  assert (Ef : _update_slot_map_failed w = cluster_down w).
  { unfold _update_slot_map_failed. unfold mbind at 1, M_bind at 1, gets at 1. rewrite Hw. reflexivity. }
  assert (Hr : triple (fun _ => True) cluster_down (fun _ w => retrying w = [])).
  { do 4 (eapply triple_bind; [apply triple_any|intros ?]).
    eapply (triple_bind _ _ _ (fun _ w => retrying w = [])); [by intros w0 _|intros []].
    eapply (triple_bind _ _ _ (fun _ w => retrying w = [])); [|by intros [] w0 Hr].
    apply (triple_within _ _ (keeps retrying)); [unfold keeps; congruence|]. frame_step. }
  specialize (Hr w I). rewrite Ef in *. destruct (cluster_down w) as [[[]|e|k|] w']; try done. split; [by apply Hs|]. by rewrite Hr.
Qed.

Lemma learning_retrieve : triple (fun w => Fresh w /\ waited w = []) _retrieve_slot_map (fun _ => Learning).
Proof.
  unfold _retrieve_slot_map. eapply (triple_bind _ _ _ (fun _ w => Fresh w /\ waited w = [])); [by intros w Hw|intros remotes]. case_bool_decide.
  - eapply triple_pre, learning_failed. intros w [HF Hw]. split; [by apply fresh_tidy|done].
  - eapply triple_pre with (P' := Fresh); [by intros w []|]. eapply triple_bind; [apply triple_for; intros addr; apply fresh_add|intros []].
    intros w HF. unfold mbind, M_bind, gets. case_bool_decide as Ew; cbn [when].
    + apply learning_failed. split; [by apply fresh_tidy|done].
    + destruct (waited w) as [|u us] eqn:Eu; [done|]. assert (Hopen : open_updater w).
      { destruct (fs_open _ HF u) as (_ & x & Hx & Hf & _); [rewrite Eu; left|]. exists u, x. rewrite Eu. split; [left|done]. }
      split; [split; [by apply fresh_tidy|by right]|done].
Qed.

(** What leaves [_retrying_commands] and the updaters alone. *)
Lemma learning_same w w' : keeps asks w w' -> keeps retrying w w' -> Learning w -> Learning w'.
Proof.
  intros Ha Hr [HA Ho]. split; [by eapply asks_asking|]. rewrite Hr. intros Hn. specialize (Ho Hn). apply (asks_asking _ _ Ha) in HA as [_ [Hw|]]; [|done].
  destruct Ho as (u & x & Hu & _). assert (Ew : waited w' = waited w) by (by injection Ha). rewrite <- Ew, Hw in Hu. by apply elem_of_nil in Hu.
Qed.
Lemma retrying_poll_ctl : content_with poll_ctl.
Proof. unfold poll_ctl, is_closed, poll_rw, poll_ro, conn_fd. frame_step. Qed.
Lemma retrying_turn_on : content_with turn_on_accepting.
Proof. unfold turn_on_accepting, poll_add_ro, conn_fd. frame_step. Qed.
#[export] Hint Resolve apart_close_fd apart_after_all apart_poll_ctl apart_turn_on retrying_poll_ctl retrying_turn_on : within.
#[export] Hint Extern 1 (forall u, _ <> CUpdater u) => (intros ?; discriminate) : within.
