(* ===== verification/WakeTurn.v ===== *)
(** * A turn of the loop leaves nobody behind

    The rest of the operations of a turn: long connections, clients that come and go, the slot
    map, and [poll_ctl], after which epoll asks for what [_conn_poll_type] asked for. *)
From S2P Require Import Prelude Strings OrderedSet Address SlotCalc Buffer Response SlotMap CommandParser Logic World Kernel Command Server LongConn Client Proxy Concurrence Frames Quiet Order Output Delivery Wake WakeClient Updaters.
#[local] Open Scope Z_scope.

Section Turn.
Context (E : nat -> Prop).
#[local] Abbreviation calm c := (within (awake E None) c).

(** ** Clients that come and go *)

Lemma frame_delete_name h cli : within (nudge h) (modify (fun w => w <| w_clis ::= delete cli |>)).
Proof.
  intros w. apply frame_intro; cbn; [done..| |by apply grps_same|by apply svrs_same].
  intros i c. rewrite lookup_delete_Some. intros [_ Hc]. left. exists c. auto using cli_like_refl.
Qed.
#[local] Hint Resolve frame_delete_name : within.

Lemma awake_delete_client cli : calm (delete_client cli).
Proof. unfold delete_client. frame_step. Qed.
#[local] Hint Resolve awake_delete_client : within.

Lemma frame_new_name fd w : let i := w_next w in
  nudge None w (w <| w_next := S i |> <| w_clis ::= <[i := mkClient fd ∅ [] [] [] 0 [] new_bufset]> |>).
Proof.
  intros i. apply frame_intro; cbn; [lia|done..| |by apply grps_same|by apply svrs_same].
  intros j c. rewrite lookup_insert_Some. intros [[_ <-]|[_ Hc]]; [right; by left|left; exists c; auto using cli_like_refl].
Qed.

(** A client without output may be polled for reading only. *)
Lemma same_poll_add_ro c : within (keeps w_clis) (poll_add_ro c).
Proof. unfold poll_add_ro, conn_fd. frame_step. Qed.

Lemma awake_blank_ctl cli (c : W unit) :
  within (nudge (Some (CClient cli))) c -> within (keeps w_clis) c -> forall w, on_cli cli blank w ->
  match c w with (Ret _, w') | (Throw _, w') => awake E None w w' | _ => True end.
Proof.
  intros Hf Hs w Hb. specialize (Hf w). specialize (Hs w). destruct (c w) as [[] w']; try done; intros HA;
    (apply (awake_fill_cli E cli); [by eapply frame_awake, awake_hole|]; intros x Hx _; rewrite Hs in Hx; pose proof (Hb x Hx) as B;
     split; [by apply served_blank|]; intros Hl; by destruct B).
Qed.

Lemma awake_new_client fd : calm (new_client fd).
Proof.
  intros w. unfold new_client. change (fresh ≫= ?f) with (fresh ≫= f).
  set (i := w_next w). set (w1 := w <| w_next := S i |> <| w_clis ::= <[i := mkClient fd ∅ [] [] [] 0 [] new_bufset]> |>).
  set (k := on_throw (poll_add_ro (CClient i)) (close_conn_fd (CClient i) ;; modify (fun w => w <| w_clis ::= delete i |>)) ;;
            set_proxy (fun p => p <| _clients_count ::= Z.succ |>) ;; mret i).
  change ((fresh ≫= _) w) with (k w1).
  assert (Hk : match k w1 with (Ret _, w') | (Throw _, w') => awake E None w1 w' | _ => True end).
  { unfold k. apply from_bind; [typeclasses eauto| |intros [] w2 _; whole'; frame_step]. unfold on_throw, try_catch.
    assert (Hb : on_cli i blank w1) by (intros c; cbn; rewrite lookup_insert_eq; by intros [= <-]).
    pose proof (awake_blank_ctl i (poll_add_ro (CClient i)) ltac:(frame_step) (same_poll_add_ro _) w1 Hb) as Hp.
    destruct (poll_add_ro (CClient i) w1) as [[a|e|u|] w2]; try done. eapply (within_from (awake E None) w1); [exact Hp|]. frame_step. }
  assert (Hw : awake E None w w1) by (apply frame_awake, frame_new_name). destruct (k w1) as [[] w']; try done; by etransitivity.
Qed.
#[local] Hint Resolve awake_new_client : within.
Lemma awake_accept_loop fuel : calm (accept_loop fuel).
Proof. induction fuel; cbn [accept_loop]; frame_step. Qed.
#[local] Hint Resolve awake_accept_loop : within.

(** ** Long connections *)

Lemma awake_restore_client l rsp upd : calm (restore_client l rsp upd).
Proof. unfold restore_client, update_slot_map. frame_step. Qed.
#[local] Hint Resolve awake_restore_client : within.
Lemma awake_server_conn_on_error l : calm (server_conn_on_error l).
Proof. unfold server_conn_on_error. frame_step. Qed.
#[local] Hint Resolve awake_server_conn_on_error : within.
Lemma awake_long_on_events l ev : calm (long_on_events l ev).
Proof. unfold long_on_events. frame_step. Qed.
Lemma awake_long_server_on_events l ev : calm (long_server_on_events l ev).
Proof. unfold long_server_on_events, subscription_server_on_events, blocked_server_on_events. frame_step. Qed.
#[local] Hint Resolve awake_long_on_events awake_long_server_on_events : within.

Lemma awake_after_events c active : calm (after_events c active).
Proof.
  destruct c; cbn [after_events]; unfold client_after_events, server_after_events, long_after_events, long_server_after_events, update_slot_map; frame_step.
Qed.
#[local] Hint Resolve awake_after_events : within.
Lemma awake_after_all conns active : calm (after_all conns active).
Proof. revert active. induction conns; intros; cbn [after_all]; frame_step. Qed.

(** ** The slot map *)

Lemma awake_move_closed : calm _move_closed_slot_updaters.
Proof. unfold _move_closed_slot_updaters. frame_step. Qed.
#[local] Hint Resolve awake_move_closed : within.
Lemma awake_retry_commands cmds svrs : calm (retry_commands cmds svrs).
Proof. revert svrs. induction cmds; intros; cbn [retry_commands]; frame_step. Qed.
#[local] Hint Resolve awake_retry_commands : within.
Lemma awake_set_slot_map nodes remotes : calm (_set_slot_map nodes remotes).
Proof. unfold _set_slot_map. frame_step. Qed.
#[local] Hint Resolve awake_set_slot_map : within.
Lemma awake_any_open us : calm (any_open us).
Proof. induction us; cbn [any_open]; frame_step. Qed.
Lemma awake_max_covered best us : calm (max_covered best us).
Proof. revert best. induction us; intros; cbn [max_covered]; frame_step. Qed.
#[local] Hint Resolve awake_any_open awake_max_covered : within.
Lemma awake_update_failed : calm _update_slot_map_failed.
Proof. unfold _update_slot_map_failed. frame_step. Qed.
#[local] Hint Resolve awake_update_failed : within.
Lemma awake_notify_updated u : calm (_notify_updated u).
Proof. unfold _notify_updated, notify_slot_map_updated. frame_step. Qed.
#[local] Hint Resolve awake_notify_updated : within.
Lemma awake_recv_rsp u : calm (_recv_rsp u).
Proof. unfold _recv_rsp. frame_step. Qed.
#[local] Hint Resolve awake_recv_rsp : within.
Lemma awake_updater_on_events u ev : calm (updater_on_events u ev).
Proof. unfold updater_on_events, _send_cmd, catch_bad. frame_step. Qed.
Lemma awake_new_updater addr : calm (new_updater addr).
Proof. unfold new_updater. frame_step. Qed.
#[local] Hint Resolve awake_updater_on_events awake_new_updater : within.
Lemma awake_retrieve : calm _retrieve_slot_map.
Proof.
  unfold _retrieve_slot_map. frame_step; done.
Qed.
#[local] Hint Resolve awake_retrieve : within.

(** ** Events *)

Lemma awake_on_events stats c ev : (forall i, c = CClient i -> event_is_write ev = false \/ ~ E i) -> kept (awake E None) (on_events stats c ev).
Proof.
  intros Hc. destruct c as [i| | | | |]; cbn [on_events]; [by apply awake_client_on_events, Hc|apply kept_within..]; unfold acceptor_on_events; frame_step.
Qed.
Lemma awake_conn_on_error c : calm (conn_on_error c).
Proof. destruct c; cbn [conn_on_error]; frame_step. Qed.

(** No client that is to be [E] gets an event for writing. *)
Definition spared (events : list (Connection * Z)) : Prop := forall i ev, (CClient i, ev) ∈ events -> event_is_write ev = false \/ ~ E i.

Lemma awake_process_events stats events : spared events -> forall closed active, kept (awake E None) (process_events stats events closed active).
Proof.
  induction events as [|[c ev] events IH]; intros Hs closed active; cbn [process_events]; [apply kept_within; frame_step|].
  assert (Hs' : spared events) by (intros i ev' Hin; apply Hs; by right). case_bool_decide; [by apply IH|].
  apply kept_bind; [typeclasses eauto| |intros failed; by apply IH]. apply kept_try; [typeclasses eauto| |].
  - apply kept_bind; [typeclasses eauto|apply awake_on_events; intros i ->; apply Hs; by left|intros _; apply kept_within; frame_step].
  - intros e k. destruct (is_io_error_base e) eqn:Ee; [|done]. intros [= <-]. split; [unfold fatal; rewrite Ee; by destruct (is_bad_redis_message e)|].
    pose proof (awake_conn_on_error c). apply kept_within. frame_step.
Qed.

(** ** [poll_ctl] *)

(** The state as if the polls [m] were still to be made. *)
Definition with_polls (m : gmap Connection bool) (w : World) : World := w <| w_proxy ::= (fun p => p <| _conn_poll_type := m |>) |>.

Lemma with_polls_kern m w w' (K : Kernel) : w' <| w_kern := K |> = w <| w_kern := K |> -> with_polls m w' = (with_polls m w) <| w_kern := w_kern w' |>.
Proof. destruct w, w'. cbn. intros [=]. by subst. Qed.

Lemma frame_with_polls h m w w' (K : Kernel) : w' <| w_kern := K |> = w <| w_kern := K |> -> nudge h w w' -> nudge h (with_polls m w) (with_polls m w').
Proof.
  intros HK [_ S _ _ Ep _ _]. rewrite (with_polls_kern m w w' K HK). apply (frame_kern h (with_polls m w)); [exact S|exact Ep].
Qed.

Lemma only_kern_poll (K : Kernel) c b : within (keeps (fun w => w <| w_kern := K |>)) (if b : bool then poll_rw c else poll_ro c).
Proof. unfold poll_rw, poll_ro, conn_fd. destruct b; frame_step. Qed.

(** What was asked for is forgotten. *)
Lemma awake_forget h c m w : (forall i, c = CClient i -> h = Some (CClient i)) -> Awake E h (with_polls m w) -> Awake E h (with_polls (delete c m) w).
Proof.
  intros Hc [A1 A2 A3 A4 A5 A6]. split; try done. intros i x Hi Hx Hf Hl. specialize (A5 i x Hi Hx Hf Hl). unfold watched, polls in *. cbn in *.
  rewrite lookup_delete_ne; [done|]. intros ->. by destruct (Hi (Hc i eq_refl)).
Qed.

Lemma poll_rw_asks i w : triple (fun w0 => w0 = w) (poll_rw (CClient i)) (fun _ w' => w_clis w' = w_clis w /\
  on_cli i (fun x => exists ev, k_epoll (w_kern w') !! cli_fd x = Some (CClient i, ev) /\ event_is_write ev = true) w').
Proof.
  intros ? ->. unfold poll_rw, conn_fd, poll_write, epoll_ctl_mod, get_cli, deref_obj, set_kern, modify, gets, mbind, M_bind.
  destruct (w_clis w !! i) as [x|] eqn:Ex; [|done]. cbn. destruct (k_chans _ !! _); [|done]. destruct (k_epoll _ !! _); [|done]. cbn.
  split; [done|]. intros x'. cbn. rewrite Ex. intros [= <-]. rewrite lookup_insert_eq. by eexists.
Qed.

Lemma is_closed_eq c w b w' : is_closed c w = (Ret b, w') -> w' = w /\ (b = true -> forall i, c = CClient i -> on_cli i (fun x => cli_fd x = -1) w).
Proof.
  unfold is_closed, conn_fd, get_cli, get_svr, get_long, get_upd, deref_obj, mbind, M_bind.
  destruct c as [j| | | | |]; cbn; repeat case_match; intros; unfold mret, M_ret in *; simplify_eq; (split; [done|]); try (by intros _ ? [=]).
  intros Hb%Z.eqb_eq i [= <-] x Hx. by simplify_eq.
Qed.

(** A poll that is made. *)
Lemma awake_poll c (b : bool) m w : (forall i, c = CClient i -> m !! c = Some b) -> Awake E None (with_polls m w) ->
  match (closed ← is_closed c; if closed : bool then mret tt else if b then poll_rw c else poll_ro c) w with
  | (Ret _, w') => Awake E None (with_polls (delete c m) w') /\ polls w' = polls w
  | _ => True
  end.
Proof.
  intros Hm HA. set (h := match c with CClient _ => Some c | _ => None end).
  assert (Hh : forall i, c = CClient i -> h = Some (CClient i)) by (by intros i ->).
  assert (HAh : Awake E h (with_polls (delete c m) w)) by (apply awake_forget; [done|]; unfold h; case_match; [by apply awake_hole|done..]).
  assert (Hfill : forall w', Awake E h (with_polls (delete c m) w') -> (forall i, c = CClient i -> w_clis w' = w_clis w /\
      on_cli i (fun x => cli_fd x <> -1 -> loaded x -> forall ev, k_epoll (w_kern w') !! cli_fd x = Some (CClient i, ev) -> event_is_write ev = true) w') ->
      Awake E None (with_polls (delete c m) w')).
  { intros w' HA' Hi. unfold h in HA'. destruct c as [i| | | | |]; try done. destruct (Hi i eq_refl) as [Hcl Hi']. apply (awake_fill_cli E i); [done|].
    intros x Hx Hf. assert (Hx0 : w_clis w !! i = Some x) by (by rewrite <- Hcl). split; [by apply (aw_served _ _ _ HA i x)|].
    intros Hl. right. split; [apply lookup_delete_eq|]. cbn. by apply Hi'. }
  unfold mbind, M_bind. destruct (is_closed c w) as [[closed|e|k|] w0] eqn:Ec; try done. apply is_closed_eq in Ec as [-> Hcl]. destruct closed.
  { split; [|done]. apply Hfill; [done|]. intros i Hi. split; [done|]. intros x Hx Hf. by destruct Hf; apply (Hcl eq_refl i Hi). }
  assert (Hk : within (nudge h) (if b then poll_rw c else poll_ro c)) by (destruct b; frame_step; by apply frame_poll_ro).
  specialize (Hk w). pose proof (only_kern_poll (w_kern w) c b w) as Ho. pose proof (poll_rw_asks) as Ha.
  destruct ((if b then poll_rw c else poll_ro c) w) as [[a|e|k|] w'] eqn:Ep; try done. unfold keeps in Ho.
  assert (Hpw : polls w' = polls w /\ w_clis w' = w_clis w) by (destruct w, w'; cbn in Ho; injection Ho as; by subst). destruct Hpw as [Hpw Hcw].
  split; [|done]. apply Hfill; [eapply frame_awake; [by eapply frame_with_polls|done]|]. intros i ->. split; [done|]. destruct b.
  - specialize (Ha i w w eq_refl). rewrite Ep in Ha. destruct Ha as [_ Ha]. intros x Hx _ _ ev Hev. destruct (Ha x Hx) as (ev' & Hev' & Hw). congruence.
  - intros x Hx Hf Hl. rewrite Hcw in Hx. destruct (aw_watched _ _ _ HA i x ltac:(done) Hx Hf Hl) as [Ht|[Hn _]]; unfold polls in *; cbn in *; rewrite (Hm i eq_refl) in *; done.
Qed.

Lemma awake_poll_ctl : triple (Awake E None) poll_ctl (fun _ w => Awake E None w /\ polls w = ∅).
Proof.
  intros w HA. unfold poll_ctl. unfold mbind at 1, M_bind at 1, gets, set_proxy. unfold mbind at 1, M_bind at 1, modify at 1.
  set (m := _conn_poll_type (w_proxy w)). match goal with |- context [for_each _ _ ?x] => set (w1 := x) end.
  assert (Hl : NoDup (map_to_list m).*1 /\ Awake E None (with_polls (list_to_map (map_to_list m)) w1) /\ polls w1 = ∅).
  { split_and!; [apply NoDup_fst_map_to_list| |done]. rewrite list_to_map_to_list. by destruct w as [? ? ? ? ? ? ? ? []]. }
  generalize dependent w1. generalize (map_to_list m). intros l. clear HA m w. induction l as [|[c b] l IH]; intros w (Hnd & HA & Hp); cbn [for_each].
  { split; [|done]. replace w with (with_polls ∅ w); [done|]. unfold with_polls, polls in *. destruct w as [? ? ? ? ? ? ? ? []]. cbn in *. by subst. }
  apply NoDup_cons in Hnd as [Hc Hnd]. cbn [list_to_map foldr] in HA. pose proof (awake_poll c b (<[c := b]> (list_to_map l)) w ltac:(intros; apply lookup_insert_eq) HA) as Hs.
  unfold mbind at 1, M_bind at 1. destruct ((closed ← is_closed c; _) w) as [[[]|e|k|] w1]; try done. destruct Hs as [Hs Hp1].
  apply IH. split_and!; [done| |congruence]. cbn in Hs. rewrite delete_insert_id in Hs; [done|]. by apply not_elem_of_list_to_map_1.
Qed.

(** Nothing is left to ask for when a turn ends. *)
Lemma keeps_close_fd c : within (keeps polls) (close_conn_fd c).
Proof. unfold close_conn_fd, conn_fd, set_conn_fd. destruct c; frame_step. Qed.
#[local] Hint Resolve keeps_close_fd : within.
Lemma keeps_erase cli cmds : within (keeps polls) (erase_client cli cmds).
Proof. apply within_pure; [typeclasses eauto|]. intros w. apply erase_client_pure. Qed.
Lemma keeps_reset cli sent : within (keeps polls) (reset_client cli sent).
Proof. apply within_pure; [typeclasses eauto|]. intros w. apply reset_client_pure. Qed.
#[local] Hint Resolve keeps_erase keeps_reset : within.
Lemma keeps_delete_client cli : within (keeps polls) (delete_client cli).
Proof. unfold delete_client, server_pop_client, proxy_pop_client, delete_group. frame_step. Qed.
Lemma keeps_delete_long l : within (keeps polls) (delete_long l).
Proof. unfold delete_long, detach_long_connection. frame_step. Qed.
Lemma keeps_is_closed c : within (keeps polls) (is_closed c).
Proof. unfold is_closed, conn_fd. destruct c; frame_step. Qed.
#[local] Hint Resolve keeps_delete_client keeps_delete_long keeps_is_closed : within.
Lemma keeps_after_all conns active : within (keeps polls) (after_all conns active).
Proof.
  revert active. induction conns as [|c conns IH]; intros active; cbn [after_all]; [frame_step|]. case_bool_decide; [|apply IH].
  apply within_bind; [typeclasses eauto| |intros; apply IH].
  destruct c; cbn [after_events]; unfold client_after_events, server_after_events, long_after_events, long_server_after_events, update_slot_map; frame_step.
Qed.

(** *** The whole turn *)

Definition Steady (w : World) : Prop := (Awake E None w /\ polls w = ∅) /\ Asking w.

Lemma steady_keeps {A} (c : W A) : within (awake E None) c -> within (keeps polls) c -> within (keeps asks) c -> triple Steady c (fun _ => Steady).
Proof.
  intros H1 H2 H3 w [[HA Hp] Hk]. specialize (H1 w). specialize (H2 w). specialize (H3 w). destruct (c w) as [[] w']; try done.
  split; [split; [by apply H1|by rewrite H2]|by eapply asks_asking].
Qed.

(** From the updaters that are done to the end. *)
Lemma steady_end :
  triple Steady
    (us ← gets (fun w => finished w);
     for_each us delete_updater ;;
     set_proxy (fun p => p <| _finished_slot_updaters := [] |>) ;;
     p ← gets w_proxy;
     when (_should_update_slot_map p) (_retrieve_slot_map ;; poll_ctl) ;;
     p ← gets w_proxy;
     when (_fd_closed p) (set_proxy (fun p => p <| _fd_closed := false |>) ;; turn_on_accepting))
    (fun _ w => (Awake E None w /\ polls w = ∅) /\ Learning w).
Proof.
  set (S1 := fun w => Awake E None w /\ polls w = ∅).
  assert (HS : forall A (c : W A), within (awake E None) c -> within (keeps polls) c -> triple S1 c (fun _ => S1)).
  { intros A c H1 H2 w [HA Hp]. specialize (H1 w). specialize (H2 w). destruct (c w) as [[] w']; try done. split; [by apply H1|by rewrite H2]. }
  eapply (triple_bind _ _ _ (fun us w => S1 w /\ Asking w /\ finished w = us)); [by intros w []|intros us].
  eapply triple_bind; [apply triple_and; [apply HS; unfold delete_updater; frame_step|apply asking_delete_all]|intros []].
  eapply triple_bind; [apply triple_and; [apply HS; frame_step|apply asking_forget]|intros []].
  eapply (triple_bind _ _ _ (fun p w => S1 w /\ (Asking w /\ finished w = []) /\ p = w_proxy w)); [by intros w []|intros p].
  eapply (triple_bind _ _ _ (fun _ w => S1 w /\ Learning w)).
  { unfold _should_update_slot_map. case_bool_decide as Ew; cbn [andb when].
    2: { apply triple_ret. intros w (HS1 & ([HT [Ho|Ho]] & Hf) & ->); [done|]. split; [done|]. split; [split; auto|done]. }
    destruct (_ || _) eqn:Es; cbn [when].
    - eapply (triple_bind _ _ _ (fun _ w => Awake E None w /\ Learning w)).
      + eapply triple_pre, (triple_and (Awake E None) (fun w => Fresh w /\ waited w = [])), learning_retrieve.
        * intros w ((HA & Hp) & ([HT Ho] & Hf) & ->). split; [done|]. split; [|done]. split; [apply (aw_sockets _ _ _ HA)|done|]. rewrite Ew. by intros u []%elem_of_nil.
        * eapply triple_within; [|apply awake_retrieve]. by intros w w' Hw.
      + intros []. apply triple_and; [apply awake_poll_ctl|]. intros w Hl. pose proof (apart_poll_ctl w) as H1. pose proof (retrying_poll_ctl w) as H2.
        destruct (poll_ctl w) as [[] w']; try done. by eapply learning_same.
    - apply triple_ret. intros w (HS1 & (HA & Hf) & ->). split; [done|]. split; [done|]. intros Hn. exfalso. apply Hn.
      apply orb_false_iff in Es as [Es _]. by apply negb_false_iff, bool_decide_eq_true in Es. }
  intros []. assert (HL : forall A (c : W A), within (awake E None) c -> within (keeps polls) c -> within (keeps asks) c -> within (keeps retrying) c ->
    triple (fun w => S1 w /\ Learning w) c (fun _ w => S1 w /\ Learning w)).
  { intros A c H1 H2 H3 H4. apply triple_and; [by apply HS|]. intros w Hl. specialize (H3 w). specialize (H4 w). destruct (c w) as [[] w']; try done. by eapply learning_same. }
  eapply triple_bind; [apply HL; frame_step|intros p']. apply HL; [unfold turn_on_accepting; frame_step|unfold turn_on_accepting, poll_add_ro, conn_fd; frame_step|frame_step..].
Qed.

Lemma steady_turn stats r :
  (forall events, r = WaitEvents events -> spared events) ->
  triple (fun w => Awake E None w /\ Asking w) (thread_turn stats r) (fun _ w => (Awake E None w /\ polls w = ∅) /\ Learning w).
Proof.
  intros Hr. set (P := fun w => Awake E None w /\ Asking w). unfold thread_turn. eapply triple_bind with (Q := fun events w => P w /\ spared events).
  { intros w HA. unfold lift. destruct r as [events|e]; cbn [poll_wait]; [by auto|]. destruct (e =? EINTR); [|done]. split; [done|]. intros i ev []%elem_of_nil. }
  intros events w [HA Hs]. revert w HA. change (triple P (handle_events stats events) (fun _ w => (Awake E None w /\ polls w = ∅) /\ Learning w)).
  assert (HP : forall A (c : W A), within (awake E None) c -> within (keeps asks) c -> triple P c (fun _ => P)).
  { intros A c H1 H2 w [HA Hk]. specialize (H1 w). specialize (H2 w). destruct (c w) as [[] w']; try done. split; [by apply H1|by eapply asks_asking]. }
  unfold handle_events. eapply triple_bind; [apply HP; frame_step|intros inactive]. cbn beta.
  eapply triple_bind; [apply HP; frame_step|intros []]. eapply triple_bind; [apply HP; frame_step|intros []].
  eapply (triple_bind _ _ _ (fun _ => P)).
  { intros w [HA Hk]. pose proof (awake_process_events stats events Hs (set_map CLong inactive) ∅ w) as H1.
    pose proof (asking_process_events stats events (set_map CLong inactive) ∅ w) as H2. destruct (process_events _ _ _ _ w) as [[] w']; try done. split; [by apply H1|by apply H2]. }
  intros active. eapply (triple_bind _ _ _ (fun _ => Steady)).
  { apply triple_and; [apply awake_poll_ctl|]. intros w Hk. pose proof (apart_poll_ctl w) as H1. destruct (poll_ctl w) as [[] w']; try done. by eapply asks_asking. }
  intros []. eapply triple_bind; [apply steady_keeps; [apply awake_after_all|apply keeps_after_all|apply apart_after_all]|intros []]. apply steady_end.
Qed.
End Turn.
