(* ===== verification/Safety.v ===== *)
(** * No use after free, and every response is awaited once

    The operations of the program keep the invariant of Graph.v and never use a
    command, a group, a client, a server or an updater that was deleted. *)
From S2P Require Import Prelude Strings Address SlotCalc Buffer Response SlotMap CommandParser Logic Clean World Kernel Command Server LongConn Client Proxy Graph Links Frames.
#[local] Open Scope Z_scope.

(** The invariant of a world. *)
Definition Ok (H X L : list nat) (cur : option nat) (C : list Connection) (w : World) : Prop :=
  Links H X L cur (view w) /\ Regs C (view w).

(** Between operations. *)
Definition Inv (C : list Connection) (w : World) : Prop := exists H, Ok H [] [] None C w.

Lemma ok_view H X L cur C w w' : view w' = view w -> Ok H X L cur C w -> Ok H X L cur C w'.
Proof. unfold Ok. by intros ->. Qed.

Lemma inv_view C w w' : view w' = view w -> Inv C w -> Inv C w'.
Proof. unfold Inv, Ok. by intros ->. Qed.

(** ** The other pointers *)

Definition same_regs (g g' : Graph) : Prop :=
  o_slots g' = o_slots g /\ o_smap g' = o_smap g /\ o_pool g' = o_pool g /\ o_polls g' = o_polls g /\
  o_upds g' = o_upds g /\ o_slot_upds g' = o_slot_upds g /\ o_fin_upds g' = o_fin_upds g /\
  o_longs g' = o_longs g /\ o_next g' = o_next g.

Lemma regs_doms C g g' :
  Regs C g -> same_regs g g' ->
  (forall i, is_Some (o_svrs g' !! i) <-> is_Some (o_svrs g !! i)) ->
  (forall i, is_Some (o_clis g' !! i) <-> is_Some (o_clis g !! i)) ->
  (forall i, is_Some (o_cmds g' !! i) -> is_Some (o_cmds g !! i)) ->
  (forall i, is_Some (o_grps g' !! i) -> is_Some (o_grps g !! i)) ->
  (forall c gi gr, o_direct g' !! c = Some true -> o_cmds g' !! c = Some gi -> o_grps g' !! gi = Some gr -> ~ waits gr) ->
  Regs C g'.
Proof.
  intros [H1 H2 H3 H4 H5 H6 H7 (N1 & N2 & N3 & N4 & N5) H9 _] (E1 & E2 & E3 & E4 & E5 & E6 & E7 & E8 & E9) Hs Hc Hm Hg Hd.
  assert (Hlive : forall c, live g c -> live g' c) by (intros []; cbn; rewrite ?Hs, ?Hc, ?E5; done).
  split; rewrite ?E1, ?E2, ?E3, ?E4, ?E5, ?E6, ?E7, ?E8, ?E9; try done.
  - intros k s Hk. rewrite Hs. by eapply H1.
  - intros k s Hk. rewrite Hs. by eapply H2.
  - intros s Hk. rewrite Hs. by eapply H3.
  - intros c b Hb. destruct (H4 _ _ Hb). auto.
  - intros l s Hk. rewrite Hs. by eapply H7.
  - split_and!; try done; intros i x Hx.
    + destruct (Hm i) as [y Hy]; [by rewrite Hx|]. by eapply N1.
    + destruct (Hg i) as [y Hy]; [by rewrite Hx|]. by eapply N2.
    + destruct (proj1 (Hc i)) as [y Hy]; [by rewrite Hx|]. by eapply N3.
    + destruct (proj1 (Hs i)) as [y Hy]; [by rewrite Hx|]. by eapply N4.
  - auto.
Qed.

(** The commands and the groups are the same, and so are the names of the servers and of the
    clients. *)
Lemma regs_same C g g' :
  Regs C g -> same_regs g g' -> o_cmds g' = o_cmds g -> o_direct g' = o_direct g -> o_grps g' = o_grps g ->
  (forall i, is_Some (o_svrs g' !! i) <-> is_Some (o_svrs g !! i)) ->
  (forall i, is_Some (o_clis g' !! i) <-> is_Some (o_clis g !! i)) -> Regs C g'.
Proof.
  intros Hr Hs E1 E2 E3 H1 H2. eapply regs_doms; [exact Hr|done|done|done|by rewrite E1|by rewrite E3|].
  rewrite E1, E2, E3. apply (rg_direct _ _ Hr).
Qed.

Lemma insert_is_Some {A} (m : gmap nat A) i x j : is_Some (m !! i) -> is_Some (<[i := x]> m !! j) <-> is_Some (m !! j).
Proof.
  intros Hi. destruct (decide (i = j)) as [->|]; [rewrite lookup_insert_eq|by rewrite lookup_insert_ne].
  split; [done|]. by eexists.
Qed.

(** ** Selecting a server *)

Lemma wp_get_server_by_slot H X L cur C ks (Q : option nat -> World -> Prop) E w :
  Ok H X L cur C w -> Q None w -> (forall s, is_Some (o_svrs (view w) !! s) -> Q (Some s) w) ->
  wp (get_server_by_slot ks) Q E w.
Proof.
  intros [_ Hr] HN HS. apply wp_bind. unfold get_by_slot. apply wp_if; intros _; [|apply wp_undefined].
  apply wp_gets. destruct (_server_map (w_proxy w) !! ks) as [i|] eqn:Ei; [|by apply wp_ret].
  pose proof (rg_slots _ _ Hr _ _ Ei) as Hs. apply wp_bind, wp_is_closed; [done|]. intros [|]; apply wp_ret; auto.
Qed.

(** Handing a command over touches the queue of a server or of the proxy and the
    client's peers. *)
Definition handed (w w' : World) : Prop :=
  w_cmds w' = w_cmds w /\ w_grps w' = w_grps w /\
  (forall ci, (fun c => c <| _peers := ∅ |>) <$> (w_clis w' !! ci) = (fun c => c <| _peers := ∅ |>) <$> (w_clis w !! ci)) /\
  (forall s, _sent_commands <$> (w_svrs w' !! s) = _sent_commands <$> (w_svrs w !! s)).

#[export] Instance handed_preorder : PreOrder handed.
Proof.
  split; [by intros w|]. intros w1 w2 w3 (A1 & A2 & A3 & A4) (B1 & B2 & B3 & B4).
  split; [congruence|]. split; [congruence|]. split; intros i; [by rewrite B3|by rewrite B4].
Qed.

Lemma wp_push_client_command H X L cur C s c (Q : unit -> World -> Prop) E w :
  Ok H X (c :: L) cur C w -> c ∈ H -> is_Some (o_svrs (view w) !! s) ->
  (forall w', Ok H X L cur C w' -> handed w w' -> Q tt w') -> wp (push_client_command s c) Q E w.
Proof.
  intros [Hl Hr] HcH Hs HQ. destruct (lk_held _ _ _ _ _ Hl c HcH) as (gi & gr & cl & Hch & _ & _).
  destruct Hch as (Hc & Hg & Hcl). destruct (view_cmd_inv _ _ _ Hc) as (x & Hx & <-).
  destruct (view_grp_inv _ _ _ Hg) as (y & Hy & <-). destruct (view_cli_inv _ _ _ Hcl) as (z & Hz & <-). cbn in Hz.
  apply wp_bind, wp_set_svr; [done|]. intros sv Hsv.
  apply wp_bind, wp_get_cmd; [exact (mk_is_Some _ _ Hc)|]. cbn. intros ? Hx'. rewrite Hx in Hx'. injection Hx' as <-.
  apply wp_bind, wp_get_grp; [exact (mk_is_Some _ _ Hg)|]. cbn. intros ? Hy'. rewrite Hy in Hy'. injection Hy' as <-.
  apply wp_set_cli; [exact (mk_is_Some _ _ Hcl)|]. cbn. intros ? Hz'. rewrite Hz in Hz'. injection Hz' as <-.
  apply HQ.
  - split.
    + set (w1 := w <| w_clis ::= <[grp_client y := z <| _peers ::= union {[s]} |>]> |>).
      apply (links_give H X L cur (view w1) _ s (svr_view sv) (svr_view (sv <| _commands ::= (fun l => l ++ [c]) |>)) c
               (cmd_group x) (grp_view y) (cli_view (z <| _peers ::= union {[s]} |>))).
      * eapply (links_add_peer _ _ _ _ _ _ (grp_client y) (cli_view z) s Hl); try done. cbn. by rewrite fmap_insert.
      * split; [done|]. split; [done|]. cbn. by rewrite fmap_insert, lookup_insert_eq.
      * by apply view_svr.
      * cbn. set_solver.
      * done.
      * done.
      * unfold svr_view. cbn. rewrite <- app_assoc. cbn. by rewrite <- Permutation_middle.
      * cbn. by rewrite fmap_insert.
    + eapply regs_same; [exact Hr|done..| |]; intros i; cbn; rewrite fmap_insert; by rewrite insert_is_Some.
  - split_and!; try done; intros i; cbn.
    + destruct (decide (grp_client y = i)) as [<-|]; [by rewrite lookup_insert_eq, Hz|by rewrite lookup_insert_ne].
    + destruct (decide (s = i)) as [<-|]; [by rewrite lookup_insert_eq, Hsv|by rewrite lookup_insert_ne].
Qed.

Lemma wp_retry_later H X L cur C c (Q : unit -> World -> Prop) E w :
  Ok H X (c :: L) cur C w -> (forall w', Ok H X L cur C w' -> handed w w' -> Q tt w') ->
  wp (retry_move_ask_command_later c) Q E w.
Proof.
  intros [Hl Hr] HQ. apply wp_modify, HQ; [|done]. split; [|by eapply regs_same].
  eapply links_refs; [exact Hl|done| |done|by eauto].
  pose proof (lk_perm _ _ _ _ _ Hl) as Hp. unfold held in *. cbn in *. rewrite <- Hp. solve_Permutation.
Qed.

(** The server a command was handed to, if any. *)
Definition is_server (w : World) (r : option nat) : Prop := forall s, r = Some s -> is_Some (o_svrs (view w) !! s).

Lemma handed_is_server w w' r : handed w w' -> is_server w r -> is_server w' r.
Proof.
  intros (_ & _ & _ & Hs) Hr s Heq. specialize (Hr s Heq) as [? (x & Hx & _)%view_svr_inv].
  specialize (Hs s). rewrite Hx in Hs. apply fmap_Some in Hs as (y & Hy & _). by rewrite (view_svr _ _ _ Hy).
Qed.

Lemma wp_select_server_for H X L cur C c ks (Q : option nat -> World -> Prop) E w :
  Ok H X (c :: L) cur C w -> c ∈ H ->
  (forall r w', Ok H X L cur C w' -> handed w w' -> is_server w' r -> Q r w') -> wp (select_server_for c ks) Q E w.
Proof.
  intros Hok HcH HQ. apply wp_bind. eapply wp_get_server_by_slot; [exact Hok|..].
  - apply wp_bind. eapply wp_retry_later; [exact Hok|]. intros w' Hok' Hh. by apply wp_ret, HQ.
  - intros s Hs. apply wp_bind. eapply wp_push_client_command; [exact Hok|done..|]. intros w' Hok' Hh.
    apply wp_ret, HQ; [done..|]. eapply handed_is_server; [done|]. by intros ? [= <-].
Qed.

Lemma wp_select_server H X L cur C c (Q : option nat -> World -> Prop) E w :
  Ok H X (c :: L) cur C w -> c ∈ H ->
  (forall r w', Ok H X L cur C w' -> handed w w' -> is_server w' r -> Q r w') -> wp (select_server c) Q E w.
Proof.
  intros Hok HcH HQ. destruct (lk_held _ _ _ _ _ (proj1 Hok) c HcH) as (gi & gr & cl & (Hc & Hg & _) & Hw & _).
  apply wp_bind, wp_get_cmd; [by rewrite Hc|]. intros x Hx.
  destruct (cmd_class x) eqn:Ec; [exfalso|by eapply wp_select_server_for..].
  eapply (rg_direct _ _ (proj2 Hok) c); [|done..]. cbn. rewrite lookup_fmap, Hx. cbn. unfold is_direct. by rewrite Ec.
Qed.

(** ** Polling *)

Lemma regs_polls C g m :
  Regs C g -> (forall c b, m !! c = Some b -> polled c /\ live g c) -> Regs C (g <| o_polls := m |>).
Proof. intros [] Hm. by split. Qed.

Lemma ok_polls H X L cur C w m :
  Ok H X L cur C w -> (forall c b, m !! c = Some b -> polled c /\ live (view w) c) ->
  Ok H X L cur C (w <| w_proxy ::= (fun p => p <| _conn_poll_type := m |>) |>).
Proof. intros [Hl Hr] Hm. split; [by eapply links_same; [exact Hl|..]|]. exact (regs_polls _ _ _ Hr Hm). Qed.

Lemma wp_set_poll H X L cur C c (b : gmap Connection bool -> bool) (Q : unit -> World -> Prop) E w :
  Ok H X L cur C w -> polled c -> live (view w) c ->
  (forall p, Ok H X L cur C (w <| w_proxy := p |>) -> Q tt (w <| w_proxy := p |>)) ->
  wp (set_proxy (fun p => p <| _conn_poll_type ::= (fun m => <[c := b m]> m) |>)) Q E w.
Proof.
  intros Hok Hp Hc HQ. apply wp_modify.
  apply (HQ ((w_proxy w) <| _conn_poll_type ::= (fun m => <[c := b m]> m) |>)).
  apply (ok_polls _ _ _ _ _ _ (<[c := b (_conn_poll_type (w_proxy w))]> (_conn_poll_type (w_proxy w))) Hok).
  intros c' b'. rewrite lookup_insert_Some. intros [[<- _]|[_ Hc']]; [done|]. by apply (rg_polls _ _ (proj2 Hok) _ b').
Qed.

Lemma wp_set_conn_poll_rw H X L cur C c (Q : unit -> World -> Prop) E w :
  Ok H X L cur C w -> polled c -> live (view w) c ->
  (forall p, Ok H X L cur C (w <| w_proxy := p |>) -> Q tt (w <| w_proxy := p |>)) -> wp (set_conn_poll_rw c) Q E w.
Proof. apply (wp_set_poll H X L cur C c (fun _ => true)). Qed.

Lemma wp_set_conn_poll_ro H X L cur C c (Q : unit -> World -> Prop) E w :
  Ok H X L cur C w -> polled c -> live (view w) c ->
  (forall p, Ok H X L cur C (w <| w_proxy := p |>) -> Q tt (w <| w_proxy := p |>)) -> wp (set_conn_poll_ro c) Q E w.
Proof. apply (wp_set_poll H X L cur C c (fun m => default false (m !! c) || false)). Qed.

Lemma wp_reactivate H X L cur C c (Q : unit -> World -> Prop) E w :
  Ok H X (c :: L) cur C w -> c ∈ H -> (forall w', Ok H X L cur C w' -> handed w w' -> Q tt w') -> wp (reactivate c) Q E w.
Proof.
  intros Hok HcH HQ. apply wp_bind. eapply wp_select_server; [done..|]. intros [s|] w' Hok' Hh Hs; [|by apply HQ].
  eapply wp_set_conn_poll_rw; [done|done|by apply Hs|]. intros p Hok''. by apply HQ.
Qed.

(** ** Groups that are ready *)

(** The groups [gs] exist, with their commands. *)
Definition owned (g : Graph) (gi : nat) : Prop :=
  exists gr, o_grps g !! gi = Some gr /\ forall c, c ∈ g_cmds gr -> is_Some (o_cmds g !! c).

Lemma links_owned H X L cur g ci cl gi :
  Links H X L cur g -> o_clis g !! ci = Some cl -> gi ∈ c_groups cl -> owned g gi.
Proof.
  intros Hl Hcl Hin. destruct (lk_cli _ _ _ _ _ Hl _ _ Hcl) as (_ & _ & Hall). destruct (Hall _ Hin) as (gr & Hgr & _).
  exists gr. split; [done|]. intros c Hc. destruct (lk_grp _ _ _ _ _ Hl _ _ Hgr) as (_ & _ & Hown & _). by rewrite Hown.
Qed.

Lemma wp_buffers_of_cmds cs (Q : list buf_id -> World -> Prop) E w :
  (forall c, c ∈ cs -> is_Some (o_cmds (view w) !! c)) -> (forall bs, Q bs w) -> wp (buffers_of_cmds cs) Q E w.
Proof.
  revert Q. induction cs as [|c cs IH]; intros Q Hc HQ; cbn [buffers_of_cmds]; [by apply wp_ret|].
  apply wp_bind. unfold buffer_of_cmd. apply wp_bind, wp_get_cmd; [apply Hc; left|]. intros x _. apply wp_ret.
  apply wp_bind, IH; [intros; apply Hc; by right|]. intros bs. by apply wp_ret.
Qed.

Lemma wp_append_buffer_to gi (Q : list buf_id -> World -> Prop) E w :
  owned (view w) gi -> (forall bs b, Q bs (w <| w_bufs := b |>)) -> wp (append_buffer_to gi) Q E w.
Proof.
  intros (gr & Hgr & Hcs) HQ. destruct (view_grp_inv _ _ _ Hgr) as (g & Hg & <-). cbn in Hcs.
  assert (HQ' : forall bs, Q bs w) by (intros bs; specialize (HQ bs (w_bufs w)); by destruct w).
  apply wp_bind, wp_get_grp; [by rewrite Hgr|]. intros g' Hg'. rewrite Hg in Hg'. injection Hg' as <-.
  unfold group_commands in Hcs. destruct (grp_class g) as [c|c|[] p cs n|b|b ks]; try by apply wp_ret.
  - apply wp_bind, wp_bind, wp_get_cmd; [apply Hcs; left|]. intros x _. by apply wp_ret, wp_ret.
  - apply wp_bind, wp_bind, wp_get_cmd; [apply Hcs; left|]. intros x _. by apply wp_ret, wp_ret.
  - apply wp_bind, wp_buffers_of_cmds; [done|]. intros bs. by apply wp_ret.
  - apply wp_bind, wp_buffers_of_cmds; [done|]. intros bs. apply wp_bind, wp_gets.
    apply wp_bind, wp_modify, wp_ret. apply HQ.
Qed.

Lemma wp_push_ready cli cl grps (Q : unit -> World -> Prop) E w :
  o_clis (view w) !! cli = Some cl -> (forall gi, gi ∈ grps -> owned (view w) gi) ->
  (forall w', view w' = (view w) <| o_clis ::= <[cli := cl <| c_ready := c_ready cl ++ grps |>]> |> ->
    w_svrs w' = w_svrs w -> w_grps w' = w_grps w -> w_cmds w' = w_cmds w -> Q tt w') ->
  wp (push_ready cli grps) Q E w.
Proof.
  revert cl w. induction grps as [|gi grps IH]; intros cl w Hcl Hown HQ; cbn [push_ready].
  { apply wp_ret, HQ; [|done..]. rewrite app_nil_r. destruct w. unfold view. cbn in *. f_equal. symmetry. apply insert_id.
    rewrite Hcl. by destruct cl. }
  apply wp_bind, wp_append_buffer_to; [apply Hown; left|]. intros bs b.
  destruct (view_cli_inv _ _ _ Hcl) as (x & Hx & <-).
  apply wp_bind, wp_set_cli; [by eexists|]. cbn. intros x' Hx'. rewrite Hx in Hx'. injection Hx' as <-.
  eapply IH.
  - cbn. by rewrite fmap_insert, lookup_insert_eq.
  - intros gj Hgj. destruct (Hown gj) as (gr & ? & ?); [by right|]. by exists gr.
  - intros w' Hw' Hs' Hg' Hc'. apply HQ; [|done..]. rewrite Hw'. unfold view. cbn. f_equal.
    rewrite fmap_insert, insert_insert_eq. cbn. by rewrite <- app_assoc.
Qed.

Lemma wp_push_awaitings_to_ready H X L C cli (Q : unit -> World -> Prop) E w :
  Ok H X L None C w -> is_Some (o_clis (view w) !! cli) ->
  (forall w', Ok H X L None C w' -> w_svrs w' = w_svrs w -> w_grps w' = w_grps w -> w_cmds w' = w_cmds w ->
    is_Some (o_clis (view w') !! cli) -> Q tt w') ->
  wp (_push_awaitings_to_ready cli) Q E w.
Proof.
  intros [Hl Hr] Hcli HQ. apply wp_bind, wp_get_cli; [done|]. intros x Hx. pose proof (view_cli _ _ _ Hx) as Hcl.
  destruct (negb (_awaiting_count x =? 0) || _) eqn:E0; [by apply wp_ret, HQ|].
  apply orb_false_iff in E0 as [E0%negb_false_iff%Z.eqb_eq _].
  apply wp_bind. eapply wp_push_ready; [exact Hcl|..].
  { intros gi Hgi. eapply links_owned; [exact Hl|exact Hcl|]. by apply awaiting_group. }
  intros w1 Hw1 Hs1 Hg1 Hc1. apply wp_bind, wp_set_cli; [rewrite Hw1; cbn; by rewrite lookup_insert_eq|]. intros y Hy.
  pose proof (view_cli _ _ _ Hy) as Hy'. rewrite Hw1 in Hy'. cbn in Hy'. rewrite lookup_insert_eq in Hy'. injection Hy' as Hp Hpa Ha Hre Hco.
  set (w2 := w1 <| w_clis ::= <[cli := y <| _awaiting_groups := [] |>]> |>).
  assert (Hw2 : view w2 = (view w) <| o_clis ::= <[cli := (cli_view x) <| c_awaiting := [] |> <| c_ready := _ready_groups x ++ _awaiting_groups x |>]> |>).
  { transitivity ((view w1) <| o_clis ::= <[cli := cli_view (y <| _awaiting_groups := [] |>)]> |>).
    - unfold view, w2. cbn. by rewrite fmap_insert.
    - rewrite Hw1. cbn. f_equal. rewrite insert_insert_eq. f_equal. unfold cli_view. cbn. by rewrite <- Hp, <- Hpa, <- Hre, <- Hco. }
  assert (Hok2 : Ok H X L None C w2).
  { split; rewrite Hw2.
    - eapply (links_ready _ _ _ _ _ cli (cli_view x) Hl Hcl); done.
    - eapply regs_same; [exact Hr|done..|]. intros i. cbn. by rewrite insert_is_Some. }
  assert (Hc2 : is_Some (o_clis (view w2) !! cli)) by (rewrite Hw2; cbn; by rewrite lookup_insert_eq).
  apply wp_bind, wp_get_cli; [done|]. intros z _. apply wp_when; intros _; [|by apply HQ].
  eapply wp_set_conn_poll_rw; [exact Hok2|done|done|]. intros p Hok3. by apply HQ.
Qed.

(** ** Responses *)

(** [group_responsed] and the mark that follows, when they complete the answer to [c] of
    the group [gi], whose class has become that of [y]. *)
Lemma wp_group_complete c H X L C gi g0 y z (Q : unit -> World -> Prop) E w0 w :
  Links (c :: H) X (c :: L) None (view w0) -> Regs C (view w0) ->
  chain (view w0) c gi (grp_view g0) (cli_view z) -> answered (grp_view g0) (cli_view z) (g_kind (grp_view y)) (_awaiting_count z - 1) ->
  grp_view y = (grp_view g0) <| g_kind := g_kind (grp_view y) |> ->
  w_cmds w = w_cmds w0 -> w_svrs w = w_svrs w0 -> w_proxy w = w_proxy w0 -> w_glob w = w_glob w0 ->
  w_upds w = w_upds w0 -> w_longs w = w_longs w0 -> w_next w = w_next w0 -> w_clis w = w_clis w0 ->
  w_grps w = <[gi := y]> (w_grps w0) -> w_clis w0 !! grp_client g0 = Some z ->
  (forall w', Ok H X L None C w' -> w_svrs w' = w_svrs w0 -> w_cmds w' = w_cmds w0 -> Q tt w') ->
  wp (group_responsed (grp_client g0) ;; set_grp gi (fun g => g <| complete := true |>)) Q E w.
Proof.
  intros Hl Hr Hch Hans Hy E1 E2 E3 E4 E5 E6 E7 E8 Eg Hz HQ. pose proof Hch as (Hc & Hg & Hcl).
  apply wp_bind, wp_bind, wp_set_cli; [cbn; rewrite E8, lookup_fmap, Hz; by eexists|].
  intros z' Hz'. rewrite E8, Hz in Hz'. injection Hz' as <-.
  set (w1 := w <| w_clis ::= <[grp_client g0 := z <| _awaiting_count ::= Z.pred |>]> |>).
  assert (Hv : view w1 = (view w0) <| o_grps ::= <[gi := grp_view y]> |>
                 <| o_clis ::= <[grp_client g0 := (cli_view z) <| c_count := _awaiting_count z - 1 |>]> |>).
  { unfold view, w1. cbn. by rewrite E1, E2, E3, E4, E5, E6, E7, E8, Eg, !fmap_insert. }
  assert (Hok1 : Ok H X L None C w1).
  { split; rewrite Hv.
    - eapply (links_answer c H X L _ _ _ _ _ _ _ Hl Hch Hans); try done. by rewrite <- Hy.
    - eapply regs_doms; [exact Hr|done|done| |done| |]; cbn.
      + intros i. rewrite insert_is_Some; [done|]. by eexists.
      + intros i. rewrite insert_is_Some; [done|]. by eexists.
      + intros c' gj gr' Hd Hc' Hgj. pose proof (rg_direct _ _ Hr) as Hdir. cbn in Hdir.
        apply lookup_insert_Some in Hgj as [[<- <-]|[_ Hgj]]; [|by eapply Hdir].
        intros Hw. eapply (Hdir c' gi); [done..|]. unfold waits, answered in *. cbn in *. by repeat case_match. }
  eapply (wp_push_awaitings_to_ready H X L C); [exact Hok1|rewrite Hv; cbn; by rewrite lookup_insert_eq|].
  intros w2 Hok2 Hs2 Hg2 Hc2 _. apply wp_set_grp; [cbn; rewrite Hg2; cbn; rewrite Eg, fmap_insert, lookup_insert_eq; by eexists|].
  intros y2 Hy2. apply HQ; [|exact (eq_trans Hs2 E2)|exact (eq_trans Hc2 E1)]. eapply ok_view; [|exact Hok2]. by eapply set_grp_view.
Qed.

Lemma wp_command_responsed c H X L C x (Q : unit -> World -> Prop) E w :
  Ok (c :: H) X (c :: L) None C w -> w_cmds w !! c = Some x ->
  (forall w', Ok H X L None C w' -> w_svrs w' = w_svrs w -> w_cmds w' = w_cmds w -> Q tt w') -> wp (command_responsed (cmd_group x)) Q E w.
Proof.
  intros [Hl Hr] Hx HQ. destruct (lk_held _ _ _ _ _ Hl c) as (gi & gr & cl & Hch & Hw & _); [left|].
  pose proof Hch as (Hc & Hg & Hcl). rewrite (view_cmd _ _ _ Hx) in Hc. injection Hc as <-.
  destruct (view_grp_inv _ _ _ Hg) as (y & Hy & <-). destruct (view_cli_inv _ _ _ Hcl) as (z & Hz & <-). cbn in Hcl, Hz.
  apply wp_bind, wp_get_grp; [by rewrite Hg|]. intros y' Hy'. rewrite Hy in Hy'. injection Hy' as <-.
  unfold waits in Hw. cbn in Hw. destruct (grp_class y) as [|c0|k p cs n| |] eqn:Ey; try done.
  - eapply (wp_group_complete c H X L C _ y y z _ _ w); try done; unfold answered, grp_view; cbn; rewrite ?Ey; try done.
    by rewrite insert_id.
  - apply wp_bind, wp_set_grp; [by rewrite Hg|]. intros y' Hy'. rewrite Hy in Hy'. injection Hy' as <-.
    apply wp_when; intros Hn.
    + apply wp_bind, wp_modify.
      eapply (wp_group_complete c H X L C _ y (y <| grp_class := MultipleCommandsGroup k p cs (n - 1) |>) z _ _ w); try done;
        unfold answered, grp_view, group_commands; cbn; rewrite ?Ey; cbn; by rewrite ?Hn.
    + apply HQ; [|done..]. split.
      * eapply (links_answer c H X L _ _ _ _ _ (KMulti (n - 1)) (_awaiting_count z) Hl Hch); try done.
        -- unfold answered. cbn. rewrite Ey. by rewrite Hn.
        -- cbn. rewrite fmap_insert. unfold grp_view, group_commands. cbn. by rewrite Ey.
        -- cbn. symmetry. apply insert_id. by rewrite Hcl.
      * eapply regs_doms; [exact Hr|done|done|done|done| |]; cbn; rewrite fmap_insert.
        -- intros i. rewrite insert_is_Some; [done|]. by eexists.
        -- intros c' gj gr' Hd Hc' Hgj. pose proof (rg_direct _ _ Hr) as Hdir. cbn in Hdir.
           apply lookup_insert_Some in Hgj as [[<- <-]|[_ Hgj]]; [|by eapply Hdir].
           intros _. eapply (Hdir c' (cmd_group x)); [done..|]. unfold waits, grp_view. cbn. by rewrite Ey.
Qed.

(** A response, or an error of the proxy, for the command [c] in hand: the command is
    answered, or goes on to its next step. *)
Definition sents (w w' : World) : Prop :=
  (forall s, _sent_commands <$> (w_svrs w' !! s) = _sent_commands <$> (w_svrs w !! s)) /\
  o_cmds (view w') = o_cmds (view w).

Lemma sents_eq w w' : w_svrs w' = w_svrs w -> w_cmds w' = w_cmds w -> sents w w'.
Proof. intros E1 E2. split; [intros s; by rewrite E1|cbn; by rewrite E2]. Qed.

Lemma handed_sents w w' : handed w w' -> sents w w'.
Proof. intros (E & _ & _ & Hs). split; [done|]. cbn. by rewrite E. Qed.

Lemma sents_trans w1 w2 w3 : sents w1 w2 -> sents w2 w3 -> sents w1 w3.
Proof. intros [H1 E1] [H2 E2]. split; [intros s; by rewrite H2|congruence]. Qed.

Lemma wp_answer c H X L C b (Q : unit -> World -> Prop) E w :
  Ok (c :: H) X (c :: L) None C w ->
  (forall w', Ok H X L None C w' -> sents w w' -> Q tt w') -> wp (answer c b) Q E w.
Proof.
  intros Hok HQ. destruct (lk_held _ _ _ _ _ (proj1 Hok) c) as (gi & gr & cl & (Hc & _) & _); [left|].
  apply wp_bind, wp_get_cmd; [by rewrite Hc|]. intros x Hx. apply wp_bind, wp_modify.
  apply wp_bind, wp_get_cmd; [exact (mk_is_Some _ _ Hc)|]. cbn. intros x' Hx'. rewrite Hx in Hx'. injection Hx' as <-.
  eapply (wp_command_responsed c H X L C x); [by eapply ok_view; [|exact Hok]|done|].
  intros w' Hok' Hs Hcm. apply HQ; [done|]. by apply sents_eq.
Qed.

Lemma wp_rename_goto c H X L C b o n os ns ks step (Q : unit -> World -> Prop) E w :
  Ok H X (c :: L) None C w -> c ∈ H -> (forall x, w_cmds w !! c = Some x -> is_direct x = false) ->
  (forall w', Ok H X L None C w' -> sents w w' -> Q tt w') ->
  wp (rename_goto c b (RenameCommand o n os ns ks step)) Q E w.
Proof.
  intros Hok HcH Hd HQ. destruct (lk_held _ _ _ _ _ (proj1 Hok) c HcH) as (gi & gr & cl & (Hc & _) & _).
  apply wp_bind, wp_get_cmd; [by rewrite Hc|]. intros x Hx. apply wp_bind, wp_modify.
  apply wp_bind, wp_set_cmd; [exact (mk_is_Some _ _ Hc)|]. cbn. intros x' Hx'. rewrite Hx in Hx'. injection Hx' as <-.
  eapply (wp_reactivate H X L None C); [|done|].
  - eapply ok_view; [|exact Hok]. apply (set_cmd_view _ _ x); [done|done|]. by rewrite (Hd x Hx).
  - intros w' Hok' Hh%handed_sents. apply HQ; [done|]. eapply sents_trans; [|exact Hh].
    split; [done|]. cbn. by rewrite (fmap_insert_same _ _ _ x).
Qed.

Lemma wp_on_remote_responsed c H X L C rsp err (Q : unit -> World -> Prop) E w :
  Ok (c :: H) X (c :: L) None C w ->
  (forall H' w', Ok H' X L None C w' -> sents w w' -> Q tt w') -> wp (on_remote_responsed c rsp err) Q E w.
Proof.
  intros Hok HQ. destruct (lk_held _ _ _ _ _ (proj1 Hok) c) as (gi & gr & cl & (Hc & _) & _); [left|].
  apply wp_bind, wp_get_cmd; [by rewrite Hc|]. intros x Hx.
  assert (Hans : forall b, wp (answer c b) Q E w) by (intros b; eapply wp_answer; [exact Hok|eauto]).
  destruct (cmd_class x) as [| |o n os ns ks []] eqn:Ex; try apply Hans.
  - unfold rsp_get. apply wp_if; [by intros|]. intros _. apply wp_if; [by intros|]. intros _.
    eapply (wp_rename_goto c (c :: H)); [exact Hok|left| |eauto].
    intros x' Hx'. rewrite Hx in Hx'. injection Hx' as <-. unfold is_direct. by rewrite Ex.
  - unfold rsp_set. apply wp_if; [by intros|]. intros _.
    eapply (wp_rename_goto c (c :: H)); [exact Hok|left| |eauto].
    intros x' Hx'. rewrite Hx in Hx'. injection Hx' as <-. unfold is_direct. by rewrite Ex.
Qed.

Lemma wp_rsp_to c H X L C r (Q : unit -> World -> Prop) E w :
  Ok (c :: H) X (c :: L) None C w ->
  (forall H' w', Ok H' X L None C w' -> sents w w' -> Q tt w') -> wp (rsp_to r c) Q E w.
Proof.
  intros Hok HQ. destruct r as [rsp err|]; [by eapply wp_on_remote_responsed|].
  eapply wp_retry_later; [exact Hok|]. intros w' Hok' Hh. eapply HQ; [done|by apply handed_sents].
Qed.

(** [svr] has the commands [sent] to be answered. *)
Definition has_sent (svr : nat) (sent : list (option nat)) (w : World) : Prop :=
  _sent_commands <$> (w_svrs w !! svr) = Some sent.

Lemma sents_has_sent svr sent w w' : sents w w' -> has_sent svr sent w -> has_sent svr sent w'.
Proof. intros [Hs _] H. unfold has_sent in *. by rewrite Hs. Qed.

Lemma held_sent svr sent w :
  has_sent svr sent w -> exists rest, held (view w) ≡ₚ omap id sent ++ rest.
Proof.
  intros (s & Hs & ->)%fmap_Some. exists (o_retry (view w) ++ _commands s ++ svr_held (delete svr (o_svrs (view w)))).
  unfold held. rewrite (svr_held_lookup _ _ _ (view_svr _ _ _ Hs)). unfold svr_view. solve_Permutation.
Qed.

(** The next command of the queue is one without a response: take it in hand. *)
Lemma ok_take svr done c rem H X C w :
  Ok H X [] None C w -> X ≡ₚ omap id done -> has_sent svr (done ++ Some c :: rem) w ->
  exists H0, Ok (c :: H0) (c :: X) [c] None C w.
Proof.
  intros [Hl Hr] HX Hs. destruct (held_sent _ _ _ Hs) as (rest & Hheld).
  pose proof (lk_perm _ _ _ _ _ Hl) as Hp. rewrite app_nil_r in Hp.
  assert (HH : H ≡ₚ c :: omap id rem ++ rest).
  { apply (Permutation_app_inv_r X). rewrite <- Hp, Hheld, omap_app, HX. cbn. solve_Permutation. }
  exists (omap id rem ++ rest). split; [|done]. eapply links_perm; [exact HH|done|done|].
  eapply links_refs; [exact Hl|done| |done|by eauto]. rewrite Hp. solve_Permutation.
Qed.

Lemma wp_respond svr t rsps done rem H X C (Q : unit -> World -> Prop) E w :
  Ok H X [] None C w -> X ≡ₚ omap id done -> has_sent svr (done ++ rem) w ->
  (forall H' X' w', Ok H' X' [] None C w' -> X' ≡ₚ omap id (done ++ take (length rsps) rem) ->
    has_sent svr (done ++ rem) w' -> Q tt w') ->
  wp (respond t rsps rem) Q E w.
Proof.
  revert done rem H X w. induction rsps as [|r rsps IH]; intros done rem H X w Hok HX Hs HQ; cbn [respond].
  { apply wp_ret. eapply HQ; [done| |done]. by rewrite app_nil_r. }
  assert (Hassoc : forall o rem', (done ++ [o]) ++ rem' = done ++ o :: rem') by (intros; by rewrite <- app_assoc).
  destruct rem as [|[c|] rem]; [apply wp_undefined|..].
  - destruct (ok_take _ _ _ _ _ _ _ _ Hok HX Hs) as (H0 & Hok0).
    assert (Hc : is_Some (o_cmds (view w) !! c)).
    { destruct (lk_held _ _ _ _ _ (proj1 Hok0) c) as (gi & gr & cl & (Hc & _) & _); [left|]. by rewrite Hc. }
    apply wp_bind. eapply wp_rsp_to; [exact Hok0|]. intros H' w' Hok' Hss.
    apply wp_bind, wp_set_cmd; [rewrite (proj2 Hss); done|]. intros x Hx.
    eapply (IH (done ++ [Some c]) rem H' (c :: X)).
    + eapply ok_view; [|exact Hok']. by apply (set_cmd_view _ _ x).
    + rewrite omap_app, HX. cbn. by rewrite Permutation_cons_append.
    + rewrite Hassoc. exact (sents_has_sent _ _ _ _ Hss Hs).
    + intros H'' X'' w''. rewrite Hassoc, <- app_assoc. cbn. apply HQ.
  - eapply (IH (done ++ [None]) rem H X); [done| |by rewrite Hassoc|].
    + rewrite omap_app, HX. cbn. by rewrite app_nil_r.
    + intros H'' X'' w''. rewrite Hassoc, <- app_assoc. cbn. apply HQ.
Qed.

(** ** Closing a server *)

Lemma wp_for_retry l (Q : unit -> World -> Prop) E w :
  Q tt (w <| w_proxy ::= (fun p => p <| _retrying_commands ::= (fun r => r ++ l) |>) |>) ->
  wp (for_each l retry_move_ask_command_later) Q E w.
Proof.
  revert w. induction l as [|c l IH]; intros w HQ; cbn [for_each].
  - apply wp_ret. cbn in HQ. rewrite app_nil_r in HQ. by destruct w as [? ? ? ? ? ? ? ? [] ? ?].
  - apply wp_bind, wp_modify, IH. cbn in *. by rewrite <- app_assoc.
Qed.

Lemma wp_for_retry_sent l (Q : unit -> World -> Prop) E w :
  wp (for_each (omap id l) retry_move_ask_command_later) Q E w ->
  wp (for_each l (fun c => match c with None => mret tt | Some c => retry_move_ask_command_later c end)) Q E w.
Proof.
  revert w. induction l as [|[c|] l IH]; intros w HQ; cbn [for_each omap list_omap id] in *.
  - done.
  - apply wp_bind, wp_modify. by apply IH.
  - apply wp_bind, wp_ret. by apply IH.
Qed.

Lemma wp_for_inactivate l (Q : unit -> World -> Prop) E w :
  (forall i, Q tt (w <| w_proxy ::= (fun p => p <| _inactive_long_connections := i |>) |>)) ->
  wp (for_each l inactivate_long_conn) Q E w.
Proof.
  revert w. induction l as [|x l IH]; intros w HQ; cbn [for_each].
  - specialize (HQ (_inactive_long_connections (w_proxy w))). by destruct w as [? ? ? ? ? ? ? ? [] ? ?].
  - apply wp_bind, wp_modify, IH. exact HQ.
Qed.

Lemma regs_server_map C g m p :
  Regs C g -> (forall a s, m !! a = Some s -> is_Some (o_svrs g !! s)) -> (forall s, s ∈ p -> is_Some (o_svrs g !! s)) ->
  Regs C (g <| o_smap := m |> <| o_pool := p |>).
Proof. intros [] Hm Hp. by split. Qed.

(** A server without pointers, which the proxy has taken. *)
Lemma ok_close H X L cur C w w' svr refs a :
  Ok H X L cur C w -> o_svrs (view w) !! svr = Some refs ->
  view w' = (view w) <| o_svrs ::= <[svr := []]> |> <| o_retry ::= (fun r => r ++ refs) |>
              <| o_smap ::= delete a |> <| o_pool ::= (fun p => p ++ [svr]) |> ->
  Ok H X L cur C w'.
Proof.
  intros [Hl Hr] Hs Hv. split; rewrite Hv.
  - eapply links_refs; [exact Hl|done|..]; cbn.
    + rewrite <- (lk_perm _ _ _ _ _ Hl). unfold held. cbn. rewrite svr_held_insert, (svr_held_lookup _ _ _ Hs). solve_Permutation.
    + rewrite dom_insert_L. set_solver.
    + intros s refs' c. rewrite lookup_insert_Some. intros [[<- <-]|[_ Hs']] Hc; [by apply elem_of_nil in Hc|eauto].
  - set (g1 := (view w) <| o_svrs ::= <[svr := []]> |> <| o_retry ::= (fun r => r ++ refs) |>).
    assert (H1 : Regs C g1).
    { eapply regs_same; [exact Hr|done..| |done]. intros i. cbn in *. rewrite insert_is_Some; [done|]. by rewrite Hs. }
    apply (regs_server_map C g1); [done|..].
    + intros b s [_ Hb]%lookup_delete_Some. by eapply (rg_smap _ _ H1).
    + intros s [Hin|Hin]%elem_of_app; [by apply (rg_pool _ _ H1)|]. apply list_elem_of_singleton in Hin as ->. cbn. by rewrite lookup_insert_eq.
Qed.

Lemma wp_close_conn H X L cur C svr (Q : unit -> World -> Prop) E w :
  Ok H X L cur C w -> is_Some (o_svrs (view w) !! svr) ->
  (forall w', Ok H X L cur C w' -> Q tt w') -> wp (close_conn svr) Q E w.
Proof.
  intros Hok Hs HQ. apply wp_bind, wp_is_closed; [done|]. intros [|]; [by apply wp_ret, HQ|].
  apply wp_bind, wp_close_conn_fd; [done|]. intros w1 Hw1. rewrite <- Hw1 in Hs.
  apply wp_bind, wp_set_svr; [done|]. intros s Hs1.
  eapply wp_bind, wp_get_svr_at; [apply lookup_insert_eq|].
  apply wp_bind, wp_for_retry. eapply wp_bind, wp_set_svr_at; [apply lookup_insert_eq|].
  apply wp_bind, wp_for_retry_sent, wp_for_retry. eapply wp_bind, wp_set_svr_at; [apply lookup_insert_eq|].
  apply wp_bind, wp_for_inactivate. intros i. eapply wp_bind, wp_set_svr_at; [apply lookup_insert_eq|].
  eapply wp_bind, wp_get_svr_at; [apply lookup_insert_eq|]. apply wp_modify, HQ.
  eapply (ok_close _ _ _ _ _ _ _ svr (svr_view s)); [exact Hok|by rewrite <- Hw1; apply view_svr|].
  rewrite <- Hw1. unfold view. cbn. rewrite !insert_insert_eq, fmap_insert, <- app_assoc. done.
Qed.
