(* ===== verification/SafetyServer.v ===== *)
(** * Servers and the slot table keep the invariant

    The events of a server, its opening and closing, and the slot table: no object that
    was deleted is used, and [Graph.Links], [Graph.Regs] hold afterwards, also when the
    operation throws. *)
From S2P Require Import Prelude Strings Address SlotCalc Buffer Response SlotMap CommandParser Logic Clean World Kernel Command Server Graph Links Frames Safety.
#[local] Open Scope Z_scope.

Section Servers.
Context (H X L : list nat) (cur : option nat).
Implicit Types (C : list Connection) (w : World) (E : World -> Prop).

Lemma ok_weaken C C' w : (forall c, c ∈ C -> c ∈ C') -> Ok H X L cur C' w -> Ok H X L cur C w.
Proof. intros HC [Hl []]. split; [done|]. split; auto. Qed.

Lemma ok_extend C D w : Ok H X L cur C w -> (forall c, c ∈ D -> live (view w) c) -> Ok H X L cur (D ++ C) w.
Proof. intros [Hl []] HD. split; [done|]. split; try done. intros c [Hc|Hc]%elem_of_app; auto. Qed.

Lemma ok_live C c w : Ok H X L cur C w -> c ∈ C -> live (view w) c.
Proof. intros [_ Hr]. apply (rg_live _ _ Hr). Qed.

Lemma ok_server C s w : Ok H X L cur C w -> CServer s ∈ C -> is_Some (o_svrs (view w) !! s).
Proof. exact (ok_live C (CServer s) w). Qed.
Lemma ok_client C i w : Ok H X L cur C w -> CClient i ∈ C -> is_Some (o_clis (view w) !! i).
Proof. exact (ok_live C (CClient i) w). Qed.
(** The pointers [D], which are to be removed, leave a server's queues. *)
Lemma ok_svr D C w w' svr refs refs' :
  Ok H (D ++ X) L cur C w -> o_svrs (view w) !! svr = Some refs -> refs ≡ₚ D ++ refs' ->
  view w' = (view w) <| o_svrs ::= <[svr := refs']> |> -> Ok H X L cur C w'.
Proof.
  intros [Hl Hr] Hs Hp Hv. split; rewrite Hv.
  - eapply links_refs; [exact Hl|done|..]; cbn.
    + apply (Permutation_app_inv_l D). transitivity (H ++ D ++ X); [|solve_Permutation].
      rewrite <- (lk_perm _ _ _ _ _ Hl). unfold held. cbn. rewrite svr_held_insert, (svr_held_lookup _ _ _ Hs), Hp. solve_Permutation.
    + rewrite dom_insert_L. set_solver.
    + intros s rs c. rewrite lookup_insert_Some. intros [[<- <-]|[_ Hs']] Hc; [|eauto].
      exists refs. split; [done|]. rewrite Hp. apply elem_of_app. by right.
  - eapply regs_same; [exact Hr|done..| |done]. intros i. cbn in *. rewrite insert_is_Some; [done|]. by rewrite Hs.
Qed.
End Servers.

(** ** Events of a server *)

(** The loop of [_push_to_buffer_set]: the commands are also in the second queue. *)
Lemma wp_push_loop svr s0 t done rem (Q : unit -> World -> Prop) E w :
  (forall c, c ∈ rem -> is_Some (o_cmds (view w) !! c)) ->
  (exists s, w_svrs w !! svr = Some s /\ _commands s = _commands s0 /\
    _sent_commands s = _sent_commands s0 ++ (Some <$> done)) ->
  (forall w' s, view w' = (view w) <| o_svrs ::= <[svr := svr_view s]> |> -> w_svrs w' !! svr = Some s ->
    _commands s = _commands s0 -> _sent_commands s = _sent_commands s0 ++ (Some <$> (done ++ rem)) -> Q tt w') ->
  wp (for_each rem (fun c =>
    set_svr svr (fun s => s <| _sent_commands ::= (fun l => l ++ [Some c]) |>) ;;
    cmd ← get_cmd c;
    set_svr svr (fun s => s <| svr_output ::= bufset_append (cmd_buffer cmd) |>) ;;
    set_cmd c (fun cmd => cmd <| sent_time := t |>))) Q E w.
Proof.
  revert done w. induction rem as [|c rem IH]; intros done w Hrem (s & Hs & Ec & Es) HQ; cbn [for_each].
  { apply wp_ret. eapply (HQ w s); [|done..|by rewrite app_nil_r].
    unfold view. cbn. f_equal. rewrite insert_id; [done|]. by rewrite lookup_fmap, Hs. }
  apply wp_bind, wp_bind. eapply wp_set_svr_at; [exact Hs|].
  apply wp_bind, wp_get_cmd; [apply (Hrem c); left|]. intros x Hx.
  eapply wp_bind, wp_set_svr_at; [apply lookup_insert_eq|].
  apply wp_set_cmd; [apply (Hrem c); left|]. cbn. intros x' Hx'.
  eapply (IH (done ++ [c])).
  - intros c' Hc'. cbn. rewrite (fmap_insert_same _ _ _ x') by done. apply (Hrem c'). by right.
  - eexists. split; [apply lookup_insert_eq|]. cbn. split; [done|]. by rewrite Es, fmap_app, app_assoc.
  - intros w' s' Hv Hs' Ec' Es'. rewrite <- app_assoc in Es'. eapply HQ; [|done..].
    rewrite Hv. unfold view. cbn. rewrite !(fmap_insert_same _ _ _ x') by done.
    by rewrite !insert_insert_eq, fmap_insert, insert_insert_eq.
Qed.

Lemma omap_Some {A} (l : list A) : omap id (Some <$> l) = l.
Proof. induction l; cbn; by f_equal. Qed.

Section Events.
Implicit Types (C : list Connection) (w : World) (E : World -> Prop).

Lemma held_cmd H L cur C w svr s c :
  Ok H [] L cur C w -> w_svrs w !! svr = Some s -> c ∈ svr_view s -> is_Some (o_cmds (view w) !! c).
Proof.
  intros [Hl _] Hs Hc. destruct (lk_held _ _ _ _ _ Hl c) as (gi & gr & cl & (Hgi & _) & _); [|by rewrite Hgi].
  eapply held_subset; [exact Hl|done|]. unfold held. rewrite elem_of_app, elem_of_svr_held. right.
  exists svr, (svr_view s). split; [by apply view_svr|done].
Qed.

Lemma wp_push_to_buffer_set H L cur C svr (Q : unit -> World -> Prop) E w :
  Ok H [] L cur C w -> CServer svr ∈ C -> (forall w', Ok H [] L cur C w' -> Q tt w') -> (forall w', Ok H [] L cur C w' -> E w') ->
  wp (_push_to_buffer_set svr) Q E w.
Proof.
  intros Hok Hs HQ HE. apply wp_bind, wp_kern; [eauto with kern| |intros k; by apply HE]. intros t k.
  apply wp_bind, wp_get_svr; [exact (ok_live _ _ _ _ _ _ _ Hok Hs)|]. cbn. intros s Es. apply wp_bind.
  eapply (wp_push_loop svr s t []).
  - intros c Hc. eapply (held_cmd H L cur C); [exact Hok|exact Es|]. unfold svr_view. apply elem_of_app. by left.
  - exists s. by rewrite app_nil_r.
  - intros w' s' Hv Hs' Ec Esent. eapply wp_set_svr_at; [exact Hs'|]. apply HQ.
    eapply (ok_svr H [] L cur [] C w _ svr (svr_view s)); [exact Hok|by apply view_svr| |].
    2: { unfold view in Hv |- *. cbn in *. injection Hv as -> -> -> -> Hsv -> -> -> -> -> -> -> -> -> ->.
         by rewrite fmap_insert, Hsv, insert_insert_eq. }
    unfold svr_view. cbn. rewrite Esent, omap_app, omap_Some. solve_Permutation.
Qed.

(** A server's members that the graph does not have. *)
Lemma wp_set_svr_view svr f (Q : unit -> World -> Prop) E w :
  is_Some (o_svrs (view w) !! svr) -> (forall s, _commands (f s) = _commands s) ->
  (forall s, _sent_commands (f s) = _sent_commands s) ->
  (forall w', view w' = view w -> sents w w' -> Q tt w') -> wp (set_svr svr f) Q E w.
Proof.
  intros Hs Hcmd Hsent HQ. apply wp_set_svr; [done|]. intros s Es.
  apply HQ; [eapply set_svr_view; [done|]; unfold svr_view; by rewrite Hcmd, Hsent|].
  split; [|done]. intros i. cbn. destruct (decide (svr = i)) as [<-|]; [|by rewrite lookup_insert_ne].
  by rewrite lookup_insert_eq, Es; cbn; rewrite Hsent.
Qed.

Lemma wp_recv_from H C svr (Q : unit -> World -> Prop) E w :
  Ok H [] [] None C w -> CServer svr ∈ C -> (forall w', Inv C w' -> Q tt w') -> (forall w', Inv C w' -> E w') ->
  wp (_recv_from svr) Q E w.
Proof.
  intros Hok HC HQ HE. pose proof (ok_live _ _ _ _ _ _ _ Hok HC) as Hs.
  apply wp_bind, wp_get_svr; [done|]. intros s Es. apply wp_bind, wp_read_fd. intros o b k Ho.
  apply wp_bind, wp_set_svr_view; [done..|]. intros w1 Hw1 Hs1. apply (ok_view _ _ _ _ _ _ _ Hw1) in Hok.
  assert (HE1 : forall w', view w' = view w1 -> E w') by (intros w' Hw'; apply HE; exists H; by eapply ok_view).
  apply wp_bind, wp_lift_clean; [done| |by apply HE1]. intros n _. apply wp_if; intros _; [by apply wp_throw, HE1|].
  apply wp_bind, wp_lift_clean; [apply split_server_response_clean| |by apply HE1]. intros [rsps rest] _.
  apply wp_bind, wp_set_svr_view; [by rewrite Hw1|done..|]. intros w2 Hw2 Hs2. apply (ok_view _ _ _ _ _ _ _ Hw2) in Hok.
  apply wp_if; intros _.
  { eapply wp_close_conn; [exact Hok|exact (ok_live _ _ _ _ _ _ _ Hok HC)|]. intros w' Hw'. apply HQ. by exists H. }
  apply wp_bind, wp_kern; [eauto with kern| |intros k'; apply HE1; exact Hw2]. intros t k'.
  apply wp_bind. eapply (wp_respond svr t rsps [] (_sent_commands s) H []); [exact Hok|done| |].
  { apply (sents_has_sent _ _ w1); [done|]. apply (sents_has_sent _ _ (w <| w_kern := k |>)); [done|].
    unfold has_sent. cbn. by rewrite Es. }
  intros H' X' w3 Hok3 HX' (s' & Hs' & Es')%fmap_Some. cbn in HX'. eapply wp_set_svr_at; [exact Hs'|]. apply HQ. exists H'.
  eapply (ok_svr H' [] [] None X' C w3 _ svr (svr_view s')); [by rewrite app_nil_r|by apply view_svr| |unfold view; cbn; by rewrite fmap_insert].
  unfold svr_view. cbn. cbn in Es'. rewrite <- Es', HX'.
  rewrite <- (take_drop (length rsps) (_sent_commands s)) at 1. rewrite omap_app. solve_Permutation.
Qed.

Lemma wp_server_on_events C svr ev (Q : unit -> World -> Prop) E w :
  Inv C w -> CServer svr ∈ C -> (forall w', Inv C w' -> Q tt w') -> (forall w', Inv C w' -> E w') ->
  wp (server_on_events svr ev) Q E w.
Proof.
  intros [H Hok] HC HQ HE. pose proof (ok_live _ _ _ _ _ _ _ Hok HC) as Hs.
  apply wp_bind, wp_is_closed; [done|]. intros [|]; [apply wp_ret, HQ; by exists H|].
  assert (Hclose : forall H' w' (Q' : unit -> World -> Prop), Ok H' [] [] None C w' -> (forall w', Inv C w' -> Q' tt w') -> wp (close_conn svr) Q' E w').
  { intros H' w' Q' Hok' HQ'. eapply wp_close_conn; [exact Hok'|exact (ok_live _ _ _ _ _ _ _ Hok' HC)|]. intros w'' ?. apply HQ'. by eexists. }
  apply wp_if; intros _; [by eapply Hclose|]. apply wp_bind.
  assert (Hrest : forall (b : bool) w', Inv C w' -> wp (if negb b then mret tt else
    _push_to_buffer_set svr ;;
    when (event_is_write ev)
      (s ← get_svr svr;
       '(o, bs) ← writev_fd (svr_fd s) (svr_output s);
       set_svr svr (fun s => s <| svr_output := bs |>) ;;
       _ ← lift o; mret tt) ;;
    s ← get_svr svr;
    if bufset_empty (svr_output s) then set_conn_poll_ro (CServer svr) else set_conn_poll_rw (CServer svr)) Q E w').
  { intros [|] w' [H' Hok']; [|apply wp_ret, HQ; by eexists]. cbn.
    apply wp_bind. eapply wp_push_to_buffer_set; [exact Hok'|done| |intros w1 Hok1; apply HE; by eexists].
    intros w1 Hok1. apply wp_bind.
    assert (Hend : forall w2, view w2 = view w1 -> wp (s ← get_svr svr;
      if bufset_empty (svr_output s) then set_conn_poll_ro (CServer svr) else set_conn_poll_rw (CServer svr)) Q E w2).
    { intros w2 Hw2. apply (ok_view _ _ _ _ _ _ _ Hw2) in Hok1. pose proof (ok_live _ _ _ _ _ _ _ Hok1 HC) as Hs1.
      apply wp_bind, wp_get_svr; [done|]. intros s _.
      apply wp_if; intros _; [eapply wp_set_conn_poll_ro|eapply wp_set_conn_poll_rw]; [done..| |done|done|done|];
        intros p Hp; apply HQ; by eexists. }
    apply wp_when; intros _; [|by apply Hend].
    apply wp_bind, wp_get_svr; [exact (ok_live _ _ _ _ _ _ _ Hok1 HC)|]. intros s _.
    apply wp_bind, wp_writev_fd. intros o bs k Ho. apply wp_bind, wp_set_svr_view; [exact (ok_live _ _ _ _ _ _ _ Hok1 HC)|done..|].
    intros w2 Hw2 _. apply wp_bind, wp_lift_clean; [done|intros _ _; apply wp_ret, Hend, Hw2|].
    apply HE. exists H'. by eapply ok_view. }
  apply wp_if; intros _; [|apply wp_ret, Hrest; by exists H].
  eapply (wp_try_catch _ _ _ _ (Inv C)).
  - apply wp_bind. eapply wp_recv_from; [exact Hok|done| |done]. intros w' Hw'. by apply wp_ret, Hrest.
  - intros e c w' He [H' Hok']. destruct (is_bad_redis_message e); [|done]. injection He as <-.
    apply wp_bind. eapply Hclose; [exact Hok'|]. intros w'' Hw''. by apply wp_ret, Hrest.
  - done.
Qed.

Lemma wp_server_after_events C svr (Q : unit -> World -> Prop) E w :
  live (view w) (CServer svr) -> (forall w', view w' = view w -> Q tt w') -> wp (server_after_events svr) Q E w.
Proof. intros Hs HQ. apply wp_bind, wp_is_closed; [done|]. intros [|]; by apply HQ. Qed.
End Events.

(** ** Opening a server *)

Section Opening.
Context (H X L : list nat) (cur : option nat).
Implicit Types (C : list Connection) (w : World) (E : World -> Prop).
#[local] Abbreviation Ok := (Ok H X L cur).

Lemma wp_on_server_connected C svr (Q : unit -> World -> Prop) E w :
  Ok C w -> CServer svr ∈ C -> (forall w', Ok C w' -> Q tt w') -> (forall w', Ok C w' -> E w') ->
  wp (on_server_connected svr) Q E w.
Proof.
  intros Hok HC HQ HE. apply wp_bind, wp_gets, wp_when; intros _; [|by apply HQ].
  apply wp_bind, wp_get_svr; [exact (ok_live _ _ _ _ _ _ _ Hok HC)|]. intros s _.
  apply wp_bind, wp_kern; [eauto with kern| |intros k; by apply HE]. intros [] k.
  apply wp_set_svr; [exact (ok_live _ _ _ _ _ _ _ Hok HC)|]. intros s' Hs'. apply HQ.
  eapply (ok_view _ _ _ _ _ (w <| w_kern := k |>)); [|exact Hok]. apply (set_svr_view _ _ s'); [done|].
  unfold svr_view. cbn. by rewrite omap_app, app_nil_r.
Qed.

Lemma wp_reconnect C svr addr (Q : unit -> World -> Prop) E w :
  Ok C w -> CServer svr ∈ C -> (forall w', Ok C w' -> Q tt w') -> (forall w', Ok C w' -> E w') ->
  wp (_reconnect svr addr) Q E w.
Proof.
  intros Hok HC HQ HE.
  apply wp_bind, wp_kern; [eauto with kern| |intros k; by apply HE]. intros fd k0.
  apply wp_bind, wp_set_svr_view; [exact (ok_live _ _ _ _ _ _ _ Hok HC)|done..|]. intros w1 Hw1 _.
  assert (Hok1 : Ok C w1) by (by eapply ok_view).
  apply wp_bind, wp_kern; [eauto with kern| |intros k; by apply HE]. intros [] k1.
  apply wp_bind, wp_kern; [eauto with kern| |intros k; by apply HE]. intros [] k2.
  apply wp_bind, wp_poll_add_rw; [exact (ok_live _ _ _ _ _ _ _ Hok1 HC)| |]; intros w2 Hw2;
    [|apply HE; by eapply ok_view].
  apply (wp_on_server_connected C); [by eapply ok_view|done..].
Qed.

(** A new server, without pointers. *)
Lemma ok_new_server C w w' :
  Ok C w ->
  view w' = (view w) <| o_svrs ::= <[o_next (view w) := []]> |> <| o_pool ::= (fun p => p ++ [o_next (view w)]) |>
              <| o_next ::= S |> ->
  Ok C w'.
Proof.
  intros [Hl Hr] Hv. pose proof Hr as [H1 H2 H3 H4 H5 H6 H7 (N1 & N2 & N3 & N4 & N5) H9 H10].
  assert (Hnew : o_svrs (view w) !! o_next (view w) = None).
  { destruct (o_svrs (view w) !! o_next (view w)) eqn:Ei; [|done]. apply N4 in Ei. lia. }
  assert (Hsome : forall s, is_Some (o_svrs (view w) !! s) -> is_Some (<[o_next (view w) := []]> (o_svrs (view w)) !! s)).
  { intros s Hs. destruct (decide (o_next (view w) = s)) as [<-|]; [by rewrite lookup_insert_eq|by rewrite lookup_insert_ne]. }
  split; rewrite Hv.
  - eapply links_refs; [exact Hl|done|..]; cbn -[view].
    + rewrite <- (lk_perm _ _ _ _ _ Hl). unfold held. cbn -[view]. by rewrite svr_held_insert, delete_id.
    + rewrite dom_insert_L. set_solver.
    + intros s refs c. rewrite lookup_insert_Some. intros [[<- <-]|[_ Hs]] Hc; [by apply elem_of_nil in Hc|eauto].
  - split; cbn -[view]; try done.
    + intros k s Hk. by eapply Hsome, H1.
    + intros a s Ha. by eapply Hsome, H2.
    + intros s [Hs|Hs%list_elem_of_singleton]%elem_of_app; [by apply Hsome, H3|]. subst s. by rewrite lookup_insert_eq.
    + intros c b Hb. destruct (H4 _ _ Hb) as [? Hlc]. split; [done|]. destruct c; try done. by apply Hsome.
    + intros l s Hls. by eapply Hsome, H7.
    + split_and!; intros i; try (intros x Hx); try (intros Hx);
        [apply N1 in Hx|apply N2 in Hx|apply N3 in Hx| |apply N5 in Hx]; try lia.
      apply lookup_insert_Some in Hx as [[<- _]|[_ Hx]]; [|apply N4 in Hx]; lia.
    + intros c Hc. specialize (H9 c Hc). destruct c; try done. by apply Hsome.
Qed.

Lemma wp_new_pooled_server C (Q : unit -> World -> Prop) E w :
  Ok C w -> (forall w', Ok C w' -> Q tt w') -> wp new_pooled_server Q E w.
Proof.
  intros Hok HQ. apply wp_bind, wp_bind, wp_gets, wp_bind, wp_modify, wp_ret, wp_bind, wp_modify, wp_modify, HQ.
  eapply ok_new_server; [exact Hok|]. unfold view. cbn. by rewrite fmap_insert.
Qed.

Lemma ok_server_map C w m p :
  Ok C w -> (forall a s, m !! a = Some s -> is_Some (o_svrs (view w) !! s)) ->
  (forall s, s ∈ p -> is_Some (o_svrs (view w) !! s)) ->
  Ok C (w <| w_glob ::= (fun g => g <| servers_map := m |> <| servers_pool := p |>) |>).
Proof. intros [Hl Hr] Hm Hp. split; [by eapply links_same; [exact Hl|..]|]. exact (regs_server_map _ _ _ _ Hr Hm Hp). Qed.

Lemma wp_take_pooled C s (Q : nat -> World -> Prop) E w :
  Ok (CServer s :: C) w -> (forall w', Ok (CServer s :: C) w' -> Q s w') ->
  wp (set_glob (fun g => g <| servers_pool ::= (fun l => take (length l - 1) l) |>) ;; mret s) Q E w.
Proof.
  intros Hok HQ. apply wp_bind, wp_modify, wp_ret, HQ.
  apply (ok_server_map _ _ (servers_map (w_glob w)) (take (length (servers_pool (w_glob w)) - 1) (servers_pool (w_glob w)))) in Hok as Hok'.
  - destruct w as [? ? ? ? ? ? ? ? ? [] ?]. exact Hok'.
  - apply (rg_smap _ _ (proj2 Hok)).
  - intros s' Hs'. apply (rg_pool _ _ (proj2 Hok)). by apply (subseteq_take (length (servers_pool (w_glob w)) - 1)).
Qed.

Lemma wp_use_pooled C addr (Q : nat -> World -> Prop) E w :
  Ok C w -> (forall s w', Ok (CServer s :: C) w' -> Q s w') -> (forall w', Ok C w' -> E w') ->
  wp (pool ← gets (fun w => servers_pool (w_glob w));
      match last pool with
      | None => undefined
      | Some s =>
        try_catch (_reconnect s addr) (fun e => if is_io_error_base e then Some (close_conn s) else None) ;;
        set_glob (fun g => g <| servers_pool ::= (fun l => take (length l - 1) l) |>) ;;
        mret s
      end) Q E w.
Proof.
  intros Hok HQ HE. apply wp_bind, wp_gets.
  destruct (last (servers_pool (w_glob w))) as [s|] eqn:El; [|apply wp_undefined].
  assert (Hok1 : Ok (CServer s :: C) w).
  { apply (ok_extend _ _ _ _ _ [CServer s]); [done|]. intros c ->%list_elem_of_singleton.
    apply (rg_pool _ _ (proj2 Hok)). cbn. apply last_Some in El as (l & ->). apply elem_of_app. right. left. }
  apply wp_bind. eapply (wp_try_catch _ _ _ _ (Ok (CServer s :: C))).
  - eapply (wp_reconnect (CServer s :: C)); [done|left| |done]. intros w' Hw'. eapply wp_take_pooled; [exact Hw'|auto].
  - intros e c w' He Hw'. destruct (is_io_error_base e); [|done]. injection He as <-.
    eapply wp_close_conn; [exact Hw'|eapply ok_server; [exact Hw'|left]|]. intros w'' Hw''. eapply wp_take_pooled; [exact Hw''|auto].
  - intros w' Hw'. apply HE. eapply ok_weaken; [|exact Hw']. intros c ?. by right.
Qed.

Lemma wp_alloc_server C addr (Q : nat -> World -> Prop) E w :
  Ok C w -> (forall s w', Ok (CServer s :: C) w' -> Q s w') -> (forall w', Ok C w' -> E w') ->
  wp (_alloc_server addr) Q E w.
Proof.
  intros Hok HQ HE. apply wp_bind, wp_gets, wp_bind, wp_when; intros _; [|by eapply wp_use_pooled].
  apply (wp_for_each (fun _ => Ok C)); [done| |intros w' Hw'; by eapply wp_use_pooled].
  intros _ _ w' Hw'. eapply wp_new_pooled_server; [exact Hw'|auto].
Qed.

Lemma wp_get_server C addr (Q : nat -> World -> Prop) E w :
  Ok C w -> (forall s w', Ok (CServer s :: C) w' -> Q s w') -> (forall w', Ok C w' -> E w') ->
  wp (get_server addr) Q E w.
Proof.
  intros Hok HQ HE. apply wp_bind, wp_gets.
  assert (Hnew : forall w', Ok C w' -> wp (s ← _alloc_server addr;
    set_glob (fun g => g <| servers_map ::= (fun m => match m !! addr with Some _ => m | None => <[addr := s]> m end) |>) ;;
    mret s) Q E w').
  { intros w' Hw'. apply wp_bind. eapply wp_alloc_server; [exact Hw'| |done]. intros s w1 Hok1.
    apply wp_bind, wp_modify, wp_ret, HQ.
    apply (ok_server_map _ _ (match servers_map (w_glob w1) !! addr with Some _ => servers_map (w_glob w1) | None => <[addr := s]> (servers_map (w_glob w1)) end)
             (servers_pool (w_glob w1))) in Hok1 as Hok2.
    - destruct w1 as [? ? ? ? ? ? ? ? ? [] ?]. exact Hok2.
    - pose proof (rg_smap _ _ (proj2 Hok1)) as Hm. intros a s'. case_match; [apply Hm|].
      rewrite lookup_insert_Some. intros [[_ <-]|[_ Ha]]; [eapply ok_server; [exact Hok1|left]|by eapply Hm].
    - apply (rg_pool _ _ (proj2 Hok1)). }
  apply wp_bind. destruct (servers_map (w_glob w) !! addr) as [s|] eqn:Es; [|by apply wp_ret, Hnew].
  pose proof (rg_smap _ _ (proj2 Hok) _ _ Es) as Hs. apply wp_bind, wp_is_closed; [done|].
  intros [|]; apply wp_ret; [by apply Hnew|]. apply wp_ret, HQ.
  apply (ok_extend _ _ _ _ _ [CServer s]); [done|]. by intros c ->%list_elem_of_singleton.
Qed.

(** ** The slot table *)

Definition all_live (C : list Connection) (l : gset nat) : Prop := forall s, s ∈ l -> CServer s ∈ C.

Lemma ok_slots C w m :
  Ok C w -> (forall k s, m !! k = Some s -> is_Some (o_svrs (view w) !! s)) ->
  Ok C (w <| w_proxy ::= (fun p => p <| _server_map := m |>) |>).
Proof. intros [Hl []] Hm. split; [by eapply links_same; [exact Hl|..]|]. by split. Qed.

Lemma wp_map_slots C svr first n removed (Q : gset nat -> World -> Prop) E w :
  Ok C w -> CServer svr ∈ C -> all_live C removed ->
  (forall C' r w', Ok C' w' -> C ⊆ C' -> all_live C' r -> Q r w') ->
  wp (map_slots svr first n removed) Q E w.
Proof.
  revert C first removed w. induction n as [|n IH]; intros C first removed w Hok HC Hrem HQ; cbn [map_slots].
  { apply wp_ret. by eapply HQ. }
  apply wp_if; intros _; [|apply wp_undefined]. apply wp_bind, wp_gets, wp_bind, wp_modify.
  set (old := _server_map (w_proxy w) !! first).
  assert (Hold : forall s, old = Some s -> live (view w) (CServer s)) by (intros s Hs; exact (rg_slots _ _ (proj2 Hok) _ _ Hs)).
  set (D := match old with Some o => [CServer o] | None => [] end).
  assert (HD : forall c, c ∈ D -> live (view w) c).
  { unfold D. destruct old; [|by intros ? []%elem_of_nil]. intros c ->%list_elem_of_singleton. by apply Hold. }
  apply (IH (D ++ C)).
  - apply (ok_slots _ w (<[first := svr]> (_server_map (w_proxy w)))); [by apply ok_extend|].
    intros k s. rewrite lookup_insert_Some. intros [[_ <-]|[_ Hk]]; [exact (ok_live _ _ _ _ _ _ _ Hok HC)|].
    exact (rg_slots _ _ (proj2 Hok) _ _ Hk).
  - apply elem_of_app. by right.
  - unfold D. intros s Hs. apply elem_of_app. destruct old as [o|]; [|by right; apply Hrem].
    apply elem_of_union in Hs as [->%elem_of_singleton|Hs]; [left; left|by right; apply Hrem].
  - intros C' r w' Hok' HC' Hr. eapply HQ; [exact Hok'| |done]. intros c Hc. apply HC', elem_of_app. by right.
Qed.

Lemma wp_map_ranges C svr ranges removed mapped (Q : gset nat * gset nat -> World -> Prop) E w :
  Ok C w -> CServer svr ∈ C -> all_live C removed -> all_live C mapped ->
  (forall C' r m w', Ok C' w' -> C ⊆ C' -> all_live C' r -> all_live C' m -> Q (r, m) w') ->
  wp (map_ranges svr ranges removed mapped) Q E w.
Proof.
  revert C removed mapped w. induction ranges as [|rg ranges IH]; intros C removed mapped w Hok HC Hr Hm HQ; cbn [map_ranges].
  { apply wp_ret. by eapply HQ. }
  apply wp_bind. eapply (wp_map_slots C); [done..|]. intros C' r w' Hok' HC' Hr'. eapply (IH C'); [done|by apply HC'|done| |].
  - intros s Hs. apply HC'. case_match; [|by apply Hm]. apply elem_of_union in Hs as [->%elem_of_singleton|Hs]; [done|by apply Hm].
  - intros C'' r' m' w'' Hok'' HC'' Hr'' Hm''. eapply HQ; [exact Hok''|set_solver|done..].
Qed.

Lemma wp_map_nodes C pick nodes removed mapped (Q : gset nat * gset nat -> World -> Prop) E w :
  Ok C w -> all_live C removed -> all_live C mapped ->
  (forall C' r m w', Ok C' w' -> C ⊆ C' -> all_live C' r -> all_live C' m -> Q (r, m) w') ->
  (forall w', Ok C w' -> E w') -> wp (map_nodes pick nodes removed mapped) Q E w.
Proof.
  revert C removed mapped w. induction nodes as [|node nodes IH]; intros C removed mapped w Hok Hr Hm HQ HE; cbn [map_nodes].
  { apply wp_ret. by eapply HQ. }
  apply wp_if; intros _; [by eapply IH|].
  apply wp_bind. eapply (wp_get_server C); [done| |done]. intros s w1 Hok1.
  apply wp_bind. eapply (wp_map_ranges (CServer s :: C)); [done|left|intros s' ?; right; auto..|].
  intros C' r m w' Hok' HC' Hr' Hm'. eapply (IH C'); [done..| |].
  - intros C'' r' m' w'' Hok'' HC'' Hr'' Hm''. eapply HQ; [exact Hok''|set_solver|done..].
  - intros w'' Hw''. apply HE. eapply ok_weaken; [|exact Hw'']. set_solver.
Qed.

Lemma wp_close_all C l (Q : unit -> World -> Prop) E w :
  Ok C w -> all_live C l -> (forall w', Ok C w' -> Q tt w') -> wp (for_each (elements l) close_conn) Q E w.
Proof.
  intros Hok Hl HQ. apply (wp_for_each (fun rem w' => Ok C w' /\ forall s, s ∈ rem -> CServer s ∈ C)).
  - split; [done|]. intros s Hs%elem_of_elements. by apply Hl.
  - intros s rem w' [Hok' Hrem]. eapply wp_close_conn; [exact Hok'|eapply ok_server; [exact Hok'|apply Hrem; left]|].
    intros w'' Hw''. split; [done|]. intros s' Hs'. apply Hrem. by right.
  - intros w' [Hok' _]. by apply HQ.
Qed.

Lemma wp_replace_map C nodes (Q : unit -> World -> Prop) E w :
  Ok C w -> (forall w', Ok C w' -> Q tt w') -> (forall w', Ok C w' -> E w') -> wp (replace_map nodes) Q E w.
Proof.
  intros Hok HQ HE. apply wp_bind, wp_gets, wp_bind. eapply wp_map_nodes; [exact Hok|by intros ? ?%elem_of_empty..| |done].
  intros C' r m w' Hok' HC' Hr Hm. eapply (wp_close_all C'); [done| |].
  - intros s [Hs _]%elem_of_difference. by apply Hr.
  - intros w'' Hw''. apply HQ. eapply ok_weaken; [|exact Hw'']. set_solver.
Qed.

Lemma wp_slot_map_clear C (Q : unit -> World -> Prop) E w :
  Ok C w -> (forall w', Ok C w' -> Q tt w') -> wp slot_map_clear Q E w.
Proof.
  intros Hok HQ. apply wp_bind, wp_gets, wp_bind. set (l := map_img (_server_map (w_proxy w)) : gset nat).
  eapply (wp_close_all ((CServer <$> elements l) ++ C)).
  - apply ok_extend; [done|]. intros c (s & -> & Hs)%list_elem_of_fmap. apply elem_of_elements, elem_of_map_img in Hs as (k & Hk).
    exact (rg_slots _ _ (proj2 Hok) _ _ Hk).
  - intros s Hs. apply elem_of_app. left. apply list_elem_of_fmap. exists s. by rewrite elem_of_elements.
  - intros w' Hw'. apply wp_modify, HQ. apply (ok_slots _ w' ∅); [|done]. eapply ok_weaken; [|exact Hw']. set_solver.
Qed.

Lemma wp_random_addr C (Q : option nat -> World -> Prop) E w :
  Ok C w -> (forall r w', Ok C w' -> is_server w' r -> Q r w') -> (forall w', Ok C w' -> E w') -> wp random_addr Q E w.
Proof.
  intros Hok HQ HE. apply wp_bind, wp_kern; [eauto with kern| |intros k; by apply HE]. intros ks k.
  unfold get_by_slot. apply wp_if; intros _; [|apply wp_undefined]. apply wp_gets, HQ; [exact Hok|].
  intros s Hs. exact (rg_slots _ _ (proj2 Hok) _ _ Hs).
Qed.
End Opening.
