(* ===== verification/SafetyLong.v ===== *)
(** * Long connections keep the invariant

    The operations of a [Subscription] or a [BlockedListPop], and [Proxy::new_client].  That
    a long connection itself may be used after it was deleted is the subject of Scenarios.v;
    here, that these operations use no other object that was deleted. *)
From S2P Require Import Prelude Strings Address SlotCalc Buffer Response CommandParser Logic Clean World Kernel Command Server LongConn Graph Links Frames Safety SafetyServer.
#[local] Open Scope Z_scope.

Lemma wp_on_throw {A} (c : W A) (cleanup : W unit) (Q : A -> World -> Prop) (E E' : World -> Prop) w :
  wp c Q E' w -> (forall w', E' w' -> wp cleanup (fun _ => E) E w') -> wp (on_throw c cleanup) Q E w.
Proof.
  unfold wp, on_throw, try_catch, mbind, M_bind. intros Hc Hh. destruct (c w) as [[a|e|k|] w']; try done.
  specialize (Hh w' Hc). by destruct (cleanup w') as [[] ?].
Qed.

Lemma wp_fresh (Q : nat -> World -> Prop) E w : Q (w_next w) (w <| w_next ::= S |>) -> wp fresh Q E w.
Proof. intros HQ. apply wp_bind, wp_gets, wp_bind, wp_modify, wp_ret, HQ. Qed.

(** A name is taken. *)
Lemma regs_next C g n : Regs C g -> (o_next g <= n)%nat -> Regs C (g <| o_next := n |>).
Proof.
  intros [? ? ? ? ? ? ? (N1 & N2 & N3 & N4 & N5) ? ?] Hn. split; try done.
  split_and!; cbn; intros i; [intros x Hx%N1|intros x Hx%N2|intros x Hx%N3|intros x Hx%N4|intros Hx%N5]; lia.
Qed.

Section Long.
Context (H X L : list nat) (cur : option nat).
Implicit Types (C : list Connection) (w : World) (E : World -> Prop).
#[local] Abbreviation Ok := (Ok H X L cur).

Lemma ok_next C w w' n : Ok C w -> (o_next (view w) <= n)%nat -> view w' = (view w) <| o_next := n |> -> Ok C w'.
Proof.
  intros [Hl Hr] Hn Hv. split; rewrite Hv; [by eapply links_same; [exact Hl|..]|]. by apply regs_next.
Qed.

(** ** [Proxy::new_client] *)

Lemma next_client C w : Ok C w -> o_clis (view w) !! o_next (view w) = None.
Proof.
  intros [_ Hr]. destruct (rg_next _ _ Hr) as (_ & _ & N3 & _). destruct (o_clis (view w) !! _) eqn:Ei; [|done].
  apply N3 in Ei. lia.
Qed.

Lemma ok_new_client C w w' :
  Ok C w ->
  view w' = (view w) <| o_clis ::= <[o_next (view w) := mkCli ∅ [] [] [] 0]> |> <| o_next ::= S |> ->
  Ok C w'.
Proof.
  intros Hok Hv. pose proof (next_client _ _ Hok) as Hnew. destruct Hok as [Hl Hr]. split; rewrite Hv.
  - by eapply links_new_client.
  - destruct Hr as [H1 H2 H3 H4 H5 H6 H7 (N1 & N2 & N3 & N4 & N5) H9 H10].
    assert (Hlive : forall c, live (view w) c -> live ((view w) <| o_clis ::= <[o_next (view w) := mkCli ∅ [] [] [] 0]> |> <| o_next ::= S |>) c).
    { intros []; try done. cbn -[view]. destruct (decide (o_next (view w) = c)) as [<-|]; [by rewrite lookup_insert_eq|by rewrite lookup_insert_ne]. }
    split; cbn -[view]; try done.
    + intros c b Hb. destruct (H4 _ _ Hb). split; [done|by apply Hlive].
    + split_and!; intros i; [intros x Hx%N1|intros x Hx%N2|intros x|intros x Hx%N4|intros Hx%N5]; try lia.
      rewrite lookup_insert_Some. intros [[<- _]|[_ Hx%N3]]; lia.
    + intros c Hc. by apply Hlive, H9.
Qed.

Lemma new_client_preserves C fd : preserves (Ok C) (new_client fd).
Proof.
  intros w Hok. apply wp_bind, wp_fresh, wp_bind, wp_modify. set (i := w_next w).
  set (w1 := _ : World). assert (Hv : view w1 = (view w) <| o_clis ::= <[i := mkCli ∅ [] [] [] 0]> |> <| o_next ::= S |>)
    by (unfold view, w1; cbn; by rewrite fmap_insert).
  assert (Hok1 : Ok C w1) by (by eapply ok_new_client).
  assert (Hlive : forall w', view w' = view w1 -> live (view w') (CClient i))
    by (intros w' ->; rewrite Hv; cbn; by rewrite lookup_insert_eq).
  apply wp_bind. eapply (wp_on_throw _ _ _ _ (fun w' => view w' = view w1)).
  - apply wp_poll_add_ro; [by apply Hlive| |done]. intros w' Hw'. apply wp_bind, wp_modify, wp_ret.
    by eapply ok_view.
  - intros w' Hw'. apply wp_bind, wp_close_conn_fd; [by apply Hlive|]. intros w2 Hw2. apply wp_modify.
    eapply (ok_next _ w); [exact Hok| |]; [apply Nat.le_succ_diag_r|].
    assert (Hv2 : view w2 = view w1) by congruence. rewrite Hv in Hv2.
    transitivity ((view w2) <| o_clis ::= delete i |>); [unfold view; cbn; by rewrite fmap_delete|].
    rewrite Hv2. unfold view. cbn. f_equal. rewrite delete_insert_id; [done|]. exact (next_client _ _ Hok).
Qed.

(** ** Long connections *)

Lemma ok_longs C w m n :
  Ok C w -> (forall l x, m !! l = Some x -> is_Some (o_svrs (view w) !! _attached_server x)) -> (w_next w <= n)%nat ->
  Ok C (w <| w_longs := m |> <| w_next := n |>).
Proof.
  intros [Hl Hr] Hm Hn. split; [by eapply links_same; [exact Hl|..]|].
  assert (Hr' := regs_next _ _ n Hr Hn). destruct Hr'. split; try done.
  intros l s. cbn. rewrite lookup_fmap_Some. intros (x & <- & Hx). by eapply Hm.
Qed.

Lemma long_server C l x w : Ok C w -> w_longs w !! l = Some x -> is_Some (o_svrs (view w) !! _attached_server x).
Proof. intros [_ Hr] Hx. apply (rg_longs _ _ Hr l). cbn. by rewrite lookup_fmap, Hx. Qed.

Lemma wp_detach C s l (Q : unit -> World -> Prop) E w :
  Ok C w -> is_Some (o_svrs (view w) !! s) -> (forall w', Ok C w' -> Q tt w') -> wp (detach_long_connection s l) Q E w.
Proof.
  intros Hok Hs HQ. apply wp_bind, wp_set_svr_view; [done..|]. intros w1 Hw1 _.
  apply wp_bind, wp_get_svr; [by rewrite Hw1|]. intros x _. apply wp_if; intros _; [|apply wp_null_pointer].
  apply wp_modify, HQ. by eapply ok_view.
Qed.

Lemma wp_attach C s l (Q : unit -> World -> Prop) E w :
  Ok C w -> is_Some (o_svrs (view w) !! s) -> (forall w', Ok C w' -> Q tt w') -> wp (attach_long_connection s l) Q E w.
Proof.
  intros Hok Hs HQ. apply wp_bind, wp_set_svr_view; [done..|]. intros w1 Hw1 _.
  apply wp_bind, wp_get_svr; [by rewrite Hw1|]. intros x _. apply wp_if; intros _; [|apply wp_null_pointer].
  apply wp_modify, HQ. by eapply ok_view.
Qed.

Lemma delete_long_preserves C l : preserves (Ok C) (delete_long l).
Proof.
  intros w Hok. apply wp_bind, wp_close_conn_fd; [done|]. intros w1 Hw1. apply (ok_view _ _ _ _ _ _ _ Hw1) in Hok.
  apply wp_bind, wp_get_long. intros x Hx. apply wp_bind. eapply (wp_detach C); [exact Hok|by eapply long_server|].
  intros w2 Hok2. apply wp_bind, wp_close_conn_fd; [done|]. intros w3 Hw3. apply (ok_view _ _ _ _ _ _ _ Hw3) in Hok2.
  apply wp_modify. assert (Hd := ok_longs C w3 (delete l (w_longs w3)) (w_next w3) Hok2). destruct w3. apply Hd; [|done].
  intros l' x' [_ Hx']%lookup_delete_Some. by eapply long_server.
Qed.

Lemma new_long_preserves C k fd svr b : CServer svr ∈ C -> preserves (Ok C) (new_long k fd svr b).
Proof.
  intros HC w Hok. apply wp_bind, wp_fresh, wp_bind, wp_modify. apply wp_bind.
  assert (Hok1 := ok_longs C w (<[w_next w := mkLong k fd svr (-1) []]> (w_longs w)) (S (w_next w)) Hok).
  eapply (wp_attach C).
  - apply Hok1; [|lia]. intros l x. rewrite lookup_insert_Some.
    intros [[_ <-]|[_ Hx]]; [exact (ok_server _ _ _ _ _ _ _ Hok HC)|by eapply long_server].
  - exact (ok_server _ _ _ _ _ _ _ Hok HC).
  - clear Hok1. generalize (w_next w) as l. intros l w1 Hok1. apply wp_bind.
    eapply (wp_on_throw _ _ _ _ (Ok C)); [|by apply delete_long_preserves].
    apply wp_bind, wp_get_svr; [by eapply ok_server|]. intros s _.
    eapply wp_preserves; [|exact Hok1|by intros|done].
    pose proof (ok_view H X L cur C) as HI. apply preserves_bind; [|intros _; apply preserves_bind; [|intros _]].
    + apply preserves_bind; [apply (preserves_kern _ HI); eauto with kern|intros sfd].
      apply preserves_bind; [by apply (preserves_set_long _ HI)|intros _].
      repeat (apply preserves_bind; [apply (preserves_kern _ HI); eauto with kern|intros ?]). apply preserves_ret.
    + apply (preserves_poll _ HI); [done|]. intros. kern_step.
    + apply (preserves_poll _ HI); [done|]. intros. kern_step.
Qed.

(** ** Events *)

Section Events.
Context (C : list Connection).
Let HI := ok_view H X L cur C.

Definition is_long (c : Connection) : bool := match c with CLong _ | CLongServer _ => true | _ => false end.

Lemma long_live c w : is_long c = true -> live (view w) c.
Proof. by destruct c. Qed.

Lemma long_closed_preserves c : is_long c = true -> preserves (Ok C) (is_closed c).
Proof. intros Hc. apply preserves_is_closed. intros w _. by apply long_live. Qed.
Lemma long_fd_preserves c : is_long c = true -> preserves (Ok C) (conn_fd c).
Proof. intros Hc. apply preserves_conn_fd. intros w _. by apply long_live. Qed.
Lemma long_set_fd_preserves c fd : is_long c = true -> preserves (Ok C) (set_conn_fd c fd).
Proof. intros Hc. apply (preserves_set_conn_fd _ HI). intros w _. by apply long_live. Qed.
Lemma long_close_preserves c : is_long c = true -> preserves (Ok C) (close_conn_fd c).
Proof. intros Hc. apply (preserves_close_conn_fd _ HI). intros w _. by apply long_live. Qed.
Lemma long_poll_del_preserves c : is_long c = true -> preserves (Ok C) (poll_del c).
Proof. intros Hc. apply (preserves_poll _ HI); [intros w _; by apply long_live|intros; kern_step]. Qed.
Lemma write_preserves fd b : preserves (Ok C) (write_fd fd b).
Proof. apply (preserves_kern _ HI). eauto with kern. Qed.
Lemma get_long_preserves l : preserves (Ok C) (get_long l).
Proof. intros w Hw. by apply wp_get_long. Qed.
Lemma set_long_preserves l f : (forall x, _attached_server (f x) = _attached_server x) -> preserves (Ok C) (set_long l f).
Proof. apply (preserves_set_long _ HI). Qed.
Lemma update_slot_map_preserves : preserves (Ok C) update_slot_map.
Proof. by apply (preserves_proxy _ HI). Qed.
#[local] Hint Extern 1 (is_long _ = true) => reflexivity : preserves.
#[local] Hint Extern 1 (forall x, _attached_server _ = _) => reflexivity : preserves.
#[local] Hint Resolve long_closed_preserves long_fd_preserves long_set_fd_preserves long_close_preserves
  long_poll_del_preserves write_preserves get_long_preserves set_long_preserves update_slot_map_preserves
  new_client_preserves delete_long_preserves : preserves.

Ltac long_step :=
  repeat first
    [ apply (preserves_read _ HI); intros ? ? ?
    | apply preserves_lift; solve [auto using split_server_response_clean]
    | preserves_step ].

Lemma long_on_events_preserves l ev : preserves (Ok C) (long_on_events l ev).
Proof. unfold long_on_events. long_step. Qed.

Lemma restore_client_preserves l rsp upd : preserves (Ok C) (restore_client l rsp upd).
Proof. unfold restore_client. long_step. Qed.
#[local] Hint Resolve restore_client_preserves : preserves.

Lemma server_conn_on_error_preserves l : preserves (Ok C) (server_conn_on_error l).
Proof. unfold server_conn_on_error. long_step. Qed.
#[local] Hint Resolve server_conn_on_error_preserves : preserves.

Lemma long_server_on_events_preserves l ev : preserves (Ok C) (long_server_on_events l ev).
Proof. unfold long_server_on_events, subscription_server_on_events, blocked_server_on_events. long_step. Qed.

Lemma long_after_events_preserves l a : preserves (Ok C) (long_after_events l a).
Proof. unfold long_after_events. long_step. Qed.
Lemma long_server_after_events_preserves l a : preserves (Ok C) (long_server_after_events l a).
Proof. unfold long_server_after_events. long_step. Qed.
End Events.
End Long.

#[export] Hint Resolve new_client_preserves delete_long_preserves new_long_preserves long_on_events_preserves
  server_conn_on_error_preserves long_server_on_events_preserves long_after_events_preserves
  long_server_after_events_preserves update_slot_map_preserves write_preserves : preserves.
