(* ===== verification/SafetyGroup.v ===== *)
(** * Groups that are built and deleted keep the invariant

    [push_commands] and [~CommandGroup]. *)
From S2P Require Import Prelude Strings Address SlotCalc Buffer Response CommandParser Logic Clean World Kernel Command Server LongConn Graph Links Frames Safety SafetyServer SafetyLong.
#[local] Open Scope Z_scope.

(** ** Building *)

(** The commands [cs], of the group [gi], are added, all direct or none. *)
Record adds (gi : nat) (d : bool) (cs : list nat) (g g' : Graph) : Prop := {
  ad_rest : g' = g <| o_cmds := o_cmds g' |> <| o_direct := o_direct g' |> <| o_next := o_next g' |>;
  ad_next : (o_next g <= o_next g')%nat;
  ad_nodup : NoDup cs;
  ad_range : forall c, c ∈ cs -> (o_next g <= c < o_next g')%nat;
  ad_cmds : forall c gj, o_cmds g' !! c = Some gj <-> c ∈ cs /\ gj = gi \/ o_cmds g !! c = Some gj;
  ad_direct : forall c b, o_direct g' !! c = Some b -> c ∈ cs /\ b = d \/ o_direct g !! c = Some b
}.

Definition below (g : Graph) : Prop := forall c gi, o_cmds g !! c = Some gi -> (c < o_next g)%nat.

Lemma adds_none gi d g n : (o_next g <= n)%nat -> adds gi d [] g (g <| o_next := n |>).
Proof.
  intros Hn. split; cbn; try done; try lia; [constructor|by intros c []%elem_of_nil|..]; intros; [|auto].
  split; [auto|]. by intros [[[]%elem_of_nil _]|].
Qed.

Lemma adds_trans gi d cs cs' g g1 g2 : adds gi d cs g g1 -> adds gi d cs' g1 g2 -> adds gi d (cs ++ cs') g g2.
Proof.
  intros [A1 A2 A3 A4 A5 A6] [B1 B2 B3 B4 B5 B6]. split.
  - rewrite B1, A1. done.
  - lia.
  - apply NoDup_app. split_and!; [done| |done]. intros c Hc%A4 Hc'%B4. lia.
  - intros c [Hc%A4|Hc%B4]%elem_of_app; lia.
  - intros c gj. rewrite B5, A5, elem_of_app. naive_solver.
  - intros c b. rewrite elem_of_app. intros [[? ?]|[[? ?]|?]%A6]%B6; naive_solver.
Qed.

Lemma adds_below gi d cs g g' : adds gi d cs g g' -> below g -> below g'.
Proof.
  intros Ha Hb c gj. rewrite (ad_cmds _ _ _ _ _ Ha). intros [[Hc%(ad_range _ _ _ _ _ Ha) _]|Hc%Hb]; [lia|].
  pose proof (ad_next _ _ _ _ _ Ha). lia.
Qed.

Lemma wp_new_command b gi cls (Q : nat -> World -> Prop) E w :
  below (view w) ->
  (forall c w', adds gi (match cls with DirectCommand => true | _ => false end) [c] (view w) (view w') -> Q c w') ->
  wp (new_command b gi cls) Q E w.
Proof.
  intros Hb HQ. apply wp_bind. unfold new_buffer. apply wp_bind, wp_fresh, wp_bind, wp_modify, wp_ret.
  apply wp_bind, wp_fresh, wp_bind, wp_modify, wp_ret, HQ. cbn.
  assert (Hnew : forall m : gmap nat nat, (forall c x, m !! c = Some x -> (c < w_next w)%nat) -> m !! S (w_next w) = None).
  { intros m Hm. destruct (m !! S (w_next w)) eqn:Em; [|done]. apply Hm in Em. lia. }
  split; cbn.
  - done.
  - lia.
  - apply NoDup_singleton.
  - intros c ->%list_elem_of_singleton. lia.
  - intros c gj. rewrite fmap_insert, lookup_insert_Some, list_elem_of_singleton. cbn.
    pose proof (Hnew _ Hb) as Hn. cbn in Hn. split; [naive_solver|]. intros [[-> ->]|Hc]; [by left|right]. split; [|done].
    intros <-. by rewrite Hn in Hc.
  - intros c x. rewrite fmap_insert, lookup_insert_Some, list_elem_of_singleton. cbn. unfold is_direct. cbn. naive_solver.
Qed.

Lemma wp_new_commands gi cmds (Q : list nat -> World -> Prop) E w :
  below (view w) ->
  (forall cs w', adds gi false cs (view w) (view w') -> length cs = length cmds -> Q cs w') ->
  wp (new_commands gi cmds) Q E w.
Proof.
  revert w Q. induction cmds as [|[b ks] cmds IH]; intros w Q Hb HQ; cbn [new_commands].
  { apply wp_ret, HQ; [|done]. exact (adds_none gi false (view w) (w_next w) (le_n _)). }
  apply wp_bind, wp_new_command; [done|]. intros c w1 Hc. cbn in Hc.
  apply wp_bind, IH; [by eapply adds_below|]. intros cs w2 Hcs Hlen. apply wp_ret, HQ; [|cbn; by rewrite Hlen].
  exact (adds_trans _ _ [c] cs _ _ _ Hc Hcs).
Qed.

(** A group [gi] of the client [cli] is built, with its commands. *)
Record built (cli gi : nat) (gr : Grp) (g g' : Graph) : Prop := {
  bt_grps : o_grps g' = <[gi := gr]> (o_grps g);
  bt_rest : g' = g <| o_grps := o_grps g' |> <| o_cmds := o_cmds g' |> <| o_direct := o_direct g' |> <| o_next := o_next g' |>;
  bt_next : (o_next g <= gi < o_next g')%nat;
  bt_client : g_client gr = cli;
  bt_shape : shape gr;
  bt_multi : forall n, g_kind gr = KMulti n -> n = Z.of_nat (length (g_cmds gr));
  bt_nodup : NoDup (g_cmds gr);
  bt_range : forall c, c ∈ g_cmds gr -> (o_next g <= c < o_next g')%nat;
  bt_cmds : forall c gj, o_cmds g' !! c = Some gj <-> c ∈ g_cmds gr /\ gj = gi \/ o_cmds g !! c = Some gj;
  bt_direct : forall c b, o_direct g' !! c = Some b -> c ∈ g_cmds gr /\ (b = true -> ~ waits gr) \/ o_direct g !! c = Some b
}.

(** The object of a group whose commands are there. *)
Lemma adds_built cli gi d cs cls t w w1 :
  adds gi d cs ((view w) <| o_next ::= S |>) (view w1) -> gi = w_next w ->
  let gr := grp_view (mkGroup cli cls t false) in
  g_cmds gr = cs -> shape gr -> (forall n, g_kind gr = KMulti n -> n = Z.of_nat (length cs)) -> (d = true -> ~ waits gr) ->
  built cli gi gr (view w) (view (w1 <| w_grps ::= <[gi := mkGroup cli cls t false]> |>)).
Proof.
  intros [A1 A2 A3 A4 A5 A6] -> gr Hcs Hsh Hm Hd. cbn -[view gr] in *.
  assert (Eg : o_grps (view w1) = o_grps (view w)) by (by rewrite A1).
  split.
  - cbn -[grp_view] in *. rewrite fmap_insert. by rewrite Eg.
  - unfold view in A1 |- *. cbn -[grp_view] in A1 |- *. injection A1 as ? ? ? ? ? ? ? ? ? ? ? ?. f_equal; congruence.
  - split; [done|]. cbn in *. lia.
  - done.
  - done.
  - by rewrite Hcs.
  - by rewrite Hcs.
  - rewrite Hcs. intros c Hc%A4. cbn in *. lia.
  - rewrite Hcs. exact A5.
  - rewrite Hcs. intros c b [[Hc ->]|Hc]%A6; auto.
Qed.


Lemma wp_now (Q : Time -> World -> Prop) E w : (forall t k, Q t (w <| w_kern := k |>)) -> wp now Q E w.
Proof.
  intros HQ. apply wp_bind, wp_gets.
  assert (HQ' : forall t, Q t w) by (intros t; specialize (HQ t (w_kern w)); by destruct w).
  destruct (k_clock (w_kern w)) as [|t [|t' l]]; [apply HQ'..|]. apply wp_bind, wp_modify, wp_ret, HQ.
Qed.

Lemma wp_randint a b (Q : Z -> World -> Prop) E w : (forall r k, Q r (w <| w_kern := k |>)) -> wp (randint a b) Q E w.
Proof. intros HQ. apply wp_bind, wp_bind, wp_gets, wp_bind, wp_modify, wp_ret, wp_ret, HQ. Qed.

Section Make.
Context (cli : nat).
Implicit Types (w : World) (E : World -> Prop).

Lemma wp_new_direct_group b (Q : nat -> World -> Prop) E w :
  below (view w) -> (forall gi gr w', built cli gi gr (view w) (view w') -> Q gi w') -> wp (new_direct_group cli b) Q E w.
Proof.
  intros Hb HQ. apply wp_bind, wp_fresh, wp_bind, wp_new_command; [intros c gi Hc%Hb; cbn in *; lia|].
  intros c w1 Hc. apply wp_bind, wp_modify, wp_ret. eapply HQ, adds_built; [exact Hc|done..|].
  unfold waits. by intros _ [].
Qed.

Lemma wp_new_single_group b cls (Q : nat -> World -> Prop) E w :
  below (view w) -> cls <> DirectCommand ->
  (forall gi gr w', built cli gi gr (view w) (view w') -> Q gi w') -> wp (new_single_group cli b cls) Q E w.
Proof.
  intros Hb Hcls HQ. apply wp_bind, wp_fresh, wp_bind, wp_now. intros t k.
  apply wp_bind, wp_new_command; [intros c gi Hc%Hb; cbn in *; lia|].
  intros c w1 Hc. apply wp_bind, wp_modify, wp_ret. eapply HQ, adds_built; [exact Hc|done..|]. by destruct cls.
Qed.

Lemma wp_new_multi_group k cmds (Q : nat -> World -> Prop) E w :
  below (view w) -> cmds <> [] ->
  (forall gi gr w', built cli gi gr (view w) (view w') -> Q gi w') -> wp (new_multi_group cli k cmds) Q E w.
Proof.
  intros Hb Hne HQ. apply wp_bind, wp_fresh, wp_bind, wp_now. intros t k0.
  unfold new_buffer. apply wp_bind, wp_bind, wp_fresh, wp_bind, wp_modify, wp_ret.
  apply wp_bind, wp_new_commands; [intros c gi Hc%Hb; cbn in *; lia|]. intros cs w1 Hcs Hlen.
  apply wp_bind, wp_modify, wp_ret. eapply HQ, (adds_built cli _ false cs _ t w); [|done|done|..].
  - eapply (adds_trans _ _ [] cs); [|exact Hcs].
    pose proof (adds_none (w_next w) false ((view w) <| o_next ::= S |>) (S (S (w_next w)))) as Ha. cbn in Ha |- *. apply Ha. lia.
  - unfold shape. cbn. by destruct cs, cmds.
  - cbn. by intros n [= <-].
  - done.
Qed.

Lemma wp_new_long_group cls (Q : nat -> World -> Prop) E w :
  below (view w) -> match cls with Subscribe _ | BlockedPop _ _ => True | _ => False end ->
  (forall gi gr w', built cli gi gr (view w) (view w') -> Q gi w') ->
  wp (g ← fresh; new_group cli g cls 0 ;; mret g) Q E w.
Proof.
  intros Hb Hcls HQ. apply wp_bind, wp_fresh, wp_bind, wp_modify, wp_ret.
  eapply HQ, (adds_built cli _ false [] cls 0 w (w <| w_next ::= S |>)); [|done|by destruct cls..|done].
  pose proof (adds_none (w_next w) false ((view w) <| o_next ::= S |>) (S (w_next w))) as Ha. cbn in Ha |- *. apply Ha. lia.
Qed.

Lemma wp_make_group stats sp (Q : nat -> World -> Prop) E w :
  below (view w) -> proper sp ->
  (forall gi gr w', built cli gi gr (view w) (view w') -> Q gi w') -> wp (make_group stats cli sp) Q E w.
Proof.
  intros Hb Hp HQ. destruct sp as [rsp| | |remotes|b ks|b|k cmds|o n os ns|b|b ks]; cbn [make_group].
  - by apply wp_new_direct_group.
  - apply wp_bind, wp_gets. destruct (stats w); [by apply wp_new_direct_group|done].
  - by apply wp_bind, wp_bind, wp_modify, wp_modify, wp_new_direct_group.
  - by apply wp_bind, wp_modify, wp_bind, wp_bind, wp_modify, wp_modify, wp_new_direct_group.
  - by apply wp_new_single_group.
  - apply wp_bind, wp_randint. intros r k. by apply wp_new_single_group.
  - by apply wp_new_multi_group.
  - by apply wp_new_single_group.
  - by apply wp_new_long_group.
  - by apply wp_new_long_group.
Qed.
End Make.

(** The group joins the client's queue. *)
Lemma ok_built H X L C cli cl gi gr w w' :
  Ok H X L None C w -> o_clis (view w) !! cli = Some cl -> built cli gi gr (view w) (view w') ->
  forall w'', view w'' = (view w') <| o_clis ::= <[cli := cl <| c_parsed ::= (fun l => l ++ [gi]) |>]> |> -> Ok H X L None C w''.
Proof.
  intros [Hl Hr] Hcl Hb w'' Hv. pose proof (bt_rest _ _ _ _ _ Hb) as Hrest.
  destruct (rg_next _ _ Hr) as (N1 & N2 & N3 & N4 & N5). pose proof (bt_next _ _ _ _ _ Hb) as Hn.
  split; rewrite Hv.
  - eapply (links_add_group _ _ _ (view w) _ cli cl gi gr Hl Hcl); try apply Hb; try by rewrite Hrest.
    + destruct (o_grps (view w) !! gi) eqn:Eg; [|done]. apply N2 in Eg. lia.
    + intros c Hc%(bt_range _ _ _ _ _ Hb). destruct (o_cmds (view w) !! c) eqn:Ec; [|done]. apply N1 in Ec. lia.
  - assert (Hlive : forall c, live (view w) c -> live ((view w') <| o_clis ::= <[cli := cl <| c_parsed ::= (fun l => l ++ [gi]) |>]> |>) c).
    { intros c. rewrite Hrest. destruct c; cbn -[view]; try done. by rewrite insert_is_Some. }
    split; try (rewrite Hrest; apply Hr).
    + intros c b Hc. rewrite Hrest in Hc. destruct (rg_polls _ _ Hr c b Hc). auto.
    + split_and!.
      * intros c gj. cbn -[view]. rewrite (bt_cmds _ _ _ _ _ Hb). intros [[Hc%(bt_range _ _ _ _ _ Hb) _]|Hc%N1]; lia.
      * intros gj x. cbn -[view]. rewrite (bt_grps _ _ _ _ _ Hb), lookup_insert_Some. intros [[<- _]|[_ Hx%N2]]; lia.
      * intros i x. cbn -[view]. rewrite lookup_insert_Some. intros [[<- _]|[_ Hx]].
        -- apply N3 in Hcl. lia.
        -- rewrite Hrest in Hx. apply N3 in Hx. lia.
      * intros i x Hx. rewrite Hrest in Hx. apply N4 in Hx. cbn -[view]. lia.
      * intros i Hx. rewrite Hrest in Hx. apply N5 in Hx. cbn -[view]. lia.
    + intros c Hc. by apply Hlive, (rg_live _ _ Hr).
    + intros c gj grj Hd Hc Hg. cbn -[view] in Hd, Hc, Hg. rewrite (bt_cmds _ _ _ _ _ Hb) in Hc.
      rewrite (bt_grps _ _ _ _ _ Hb) in Hg. destruct (bt_direct _ _ _ _ _ Hb _ _ Hd) as [[Hin Hw]|Hd'].
      * destruct Hc as [[_ ->]|Hc%N1]; [rewrite lookup_insert_eq in Hg; injection Hg as <-; auto|].
        apply (bt_range _ _ _ _ _ Hb) in Hin. lia.
      * destruct Hc as [[Hin ->]|Hc].
        -- apply (bt_range _ _ _ _ _ Hb) in Hin. assert (is_Some (o_cmds (view w) !! c)) as [? Hc%N1]; [|lia].
           cbn in Hd' |- *. apply lookup_fmap_Some in Hd' as (x & _ & Hx). rewrite lookup_fmap, Hx. by eexists.
        -- apply lookup_insert_Some in Hg as [[<- _]|[_ Hg]]; [|by eapply (rg_direct _ _ Hr)].
           destruct (lk_cmd _ _ _ _ _ Hl _ _ Hc) as (? & Hg%N2 & _). lia.
Qed.

Lemma wp_push_commands H X L C stats cli sps (Q : unit -> World -> Prop) E w :
  Ok H X L None C w -> CClient cli ∈ C -> Forall proper sps -> (forall w', Ok H X L None C w' -> Q tt w') ->
  wp (push_commands stats cli sps) Q E w.
Proof.
  revert w. induction sps as [|sp sps IH]; intros w Hok HC Hp HQ; cbn [push_commands]; [by apply wp_ret, HQ|].
  apply Forall_cons in Hp as [Hsp Hp]. destruct (ok_client _ _ _ _ _ _ _ Hok HC) as [cl Hcl].
  apply wp_bind, wp_make_group; [|done|].
  { intros c gi Hc. destruct (rg_next _ _ (proj2 Hok)) as (N1 & _). by eapply N1. }
  intros gi gr w1 Hb. apply wp_bind, wp_set_cli; [rewrite (bt_rest _ _ _ _ _ Hb); by eexists|].
  intros x Hx. apply IH; [|done..]. eapply (ok_built _ _ _ _ cli (cli_view x)); [exact Hok| |exact Hb|].
  - apply view_cli in Hx. by rewrite (bt_rest _ _ _ _ _ Hb) in Hx.
  - unfold view. cbn. rewrite fmap_insert. unfold cli_view at 1. cbn. by rewrite omap_app.
Qed.

(** ** Deleting *)

Record deleted (gone : list nat) (g g' : Graph) : Prop := {
  dl_purged : purged gone g g';
  dl_rest : g' = g <| o_cmds := o_cmds g' |> <| o_direct := o_direct g' |> <| o_grps := o_grps g' |>;
  dl_direct : forall c b, o_direct g' !! c = Some b -> o_direct g !! c = Some b
}.

Lemma deleted_none g : deleted [] g g.
Proof.
  split; [|by destruct g|done]. split; [intros; rewrite decide_False; [done|]; by intros []%elem_of_nil|].
  intros c gi. split; [|naive_solver]. intros; split; [done|]. by intros []%elem_of_nil.
Qed.

(** The commands of a group are those that point to it. *)
Definition owns (g : Graph) : Prop := forall c gi gr, o_grps g !! gi = Some gr -> (c ∈ g_cmds gr <-> o_cmds g !! c = Some gi).

Lemma links_owns H X L cur g : Links H X L cur g -> owns g.
Proof.
  intros Hl c gi gr Hg. split; [by apply (lk_grp _ _ _ _ _ Hl _ _ Hg)|].
  intros Hc. destruct (lk_cmd _ _ _ _ _ Hl _ _ Hc) as (gr' & Hg' & Hin). by simplify_eq.
Qed.

Lemma deleted_cons gone gi gr g g' :
  owns g -> deleted gone g g' -> gi ∉ gone -> o_grps g !! gi = Some gr ->
  deleted (gi :: gone) g (g' <| o_grps ::= delete gi |> <| o_cmds ::= (fun m => foldr delete m (g_cmds gr)) |>
                            <| o_direct ::= (fun m => foldr delete m (g_cmds gr)) |>).
Proof.
  intros Hown [[Hpg Hpc] Hrest Hdir] Hgi Hgr. split; [split|..]; cbn.
  - intros gj. destruct (decide (gj = gi)) as [->|Hne]; [rewrite lookup_delete_eq, decide_True by left; done|].
    rewrite lookup_delete_ne, Hpg by done. destruct (decide (gj ∈ gone)); [by rewrite decide_True by (by right)|].
    rewrite decide_False; [done|]. rewrite elem_of_cons. naive_solver.
  - intros c gj. rewrite lookup_foldr_delete, Hpc, elem_of_cons. rewrite (Hown c gi gr Hgr). naive_solver.
  - rewrite Hrest. done.
  - intros c b. rewrite lookup_foldr_delete. intros [Hc _]. by apply Hdir.
Qed.

Lemma wp_delete_groups g gone (Q : unit -> World -> Prop) E w :
  owns g -> view w = g -> NoDup gone -> (forall gi, gi ∈ gone -> is_Some (o_grps g !! gi)) ->
  (forall w', deleted gone g (view w') -> Q tt w') -> wp (for_each gone delete_group) Q E w.
Proof.
  intros Hown Hv Hnd Hs HQ.
  apply (wp_for_each (fun rem w' => exists before, deleted before g (view w') /\ gone ≡ₚ before ++ rem)).
  - exists []. rewrite Hv. split; [apply deleted_none|done].
  - intros gi rem w' (before & Hd & Hperm).
    assert (Hgi : gi ∉ before) by (rewrite Hperm in Hnd; apply NoDup_app in Hnd as (_ & Hn & _); intros Hin; apply (Hn gi Hin); left).
    destruct (Hs gi) as [gr Hgr]; [rewrite Hperm; apply elem_of_app; right; left|].
    assert (Hgw : o_grps (view w') !! gi = Some gr) by (by rewrite (pg_grps _ _ _ (dl_purged _ _ _ Hd)), decide_False).
    apply wp_bind, wp_get_grp; [by rewrite Hgw|]. intros x Hx. apply wp_modify.
    exists (gi :: before). split; [|rewrite Hperm; by rewrite <- Permutation_middle].
    pose proof (deleted_cons _ _ _ _ _ Hown Hd Hgi Hgr) as Hd'.
    apply view_grp in Hx. rewrite Hgw in Hx. injection Hx as ->.
    assert (Hv' : view (w' <| w_grps ::= delete gi |> <| w_cmds ::= (fun m => foldr delete m (group_commands x)) |>) =
      (view w') <| o_grps ::= delete gi |> <| o_cmds ::= (fun m => foldr delete m (group_commands x)) |>
                <| o_direct ::= (fun m => foldr delete m (group_commands x)) |>)
      by (unfold view; cbn; by rewrite fmap_delete, !fmap_foldr_delete).
    by rewrite Hv'.
  - intros w' (before & Hd & Hperm). rewrite app_nil_r in Hperm. apply HQ.
    destruct Hd as [[Hpg Hpc] Hrest Hdir]. split; [split|done..].
    + intros gi. rewrite Hpg. apply decide_ext. by rewrite Hperm.
    + intros c gi. rewrite Hpc. by rewrite Hperm.
Qed.

Lemma regs_deleted gone C g g' : deleted gone g g' -> Regs C g -> Regs C g'.
Proof.
  intros [[Hpg Hpc] Hrest Hdir] Hr.
  assert (Hg : forall gi gr, o_grps g' !! gi = Some gr -> o_grps g !! gi = Some gr) by (intros gi gr; rewrite Hpg; by case_decide).
  eapply regs_doms; [exact Hr|by rewrite Hrest|intros i; by rewrite Hrest..| | |].
  - intros i [x [Hx _]%Hpc]. by eexists.
  - intros i [x Hx%Hg]. by eexists.
  - intros c gi gr Hd [Hc _]%Hpc Hgr%Hg. eapply (rg_direct _ _ Hr); eauto.
Qed.
