(* ===== verification/SafetyClient.v ===== *)
(** * Clients keep the invariant

    Handing groups to the servers, writing responses, reading requests, and the deletion of
    a client. *)
From S2P Require Import Prelude Strings Address SlotCalc Buffer Response CommandParser Logic Clean World Kernel Command Server LongConn Client Graph Links Frames Safety SafetyServer SafetyLong SafetyGroup.
#[local] Open Scope Z_scope.

Lemma preserves_inv {A} C (c : W A) : (forall H, preserves (Ok H [] [] None C) c) -> preserves (Inv C) c.
Proof.
  intros Hc w [H Hok]. eapply wp_preserves; [apply (Hc H)|exact Hok|..]; [intros _ w' ?|intros w' ?]; by exists H.
Qed.

(** ** Handing a group to the servers *)

Lemma handed_grp w w' gi gr : handed w w' -> o_grps (view w) !! gi = Some gr -> o_grps (view w') !! gi = Some gr.
Proof. intros (_ & E & _) H. cbn in *. by rewrite E. Qed.

Lemma handed_cli w w' ci x : handed w w' -> w_clis w !! ci = Some x ->
  exists x', w_clis w' !! ci = Some x' /\ x' <| _peers := ∅ |> = x <| _peers := ∅ |>.
Proof.
  intros (_ & _ & E & _) Hx. specialize (E ci). rewrite Hx in E. cbn in E. apply fmap_Some in E as (x' & Hx' & E). by exists x'.
Qed.

Lemma handed_parsed w w' ci cl gi : handed w w' -> o_clis (view w) !! ci = Some cl -> gi ∈ c_parsed cl ->
  exists cl', o_clis (view w') !! ci = Some cl' /\ gi ∈ c_parsed cl'.
Proof.
  intros Hh (x & Hx & <-)%view_cli_inv Hgi. destruct (handed_cli _ _ _ _ Hh Hx) as (x' & Hx' & E).
  exists (cli_view x'). split; [by apply view_cli|]. cbn in *. by injection E as _ ->.
Qed.

Lemma wp_select_all C gi gr cs H (Q : unit -> World -> Prop) E w :
  Ok H [] [] (Some gi) C w -> o_grps (view w) !! gi = Some gr -> waits gr ->
  (exists cl, o_clis (view w) !! g_client gr = Some cl /\ gi ∈ c_parsed cl) ->
  NoDup cs -> (forall c, c ∈ cs -> c ∈ g_cmds gr /\ c ∉ H) ->
  (forall H' w', Ok H' [] [] (Some gi) C w' -> handed w w' -> (forall c, c ∈ cs \/ c ∈ H -> c ∈ H') -> Q tt w') ->
  wp (for_each cs (fun c => _ ← select_server c; mret tt)) Q E w.
Proof.
  revert H w. induction cs as [|c cs IH]; intros H w Hok Hgr Hw (cl & Hcl & Hgi) Hnd Hcs HQ; cbn [for_each].
  { apply wp_ret. eapply HQ; [exact Hok|done|]. intros c [[]%elem_of_nil|]; done. }
  apply NoDup_cons in Hnd as [Hc Hnd]. destruct (Hcs c) as [Hin HcH]; [left|].
  apply wp_bind, wp_bind. eapply (wp_select_server (c :: H) [] [] (Some gi) C).
  { split; [|apply Hok]. by eapply links_activate; [apply Hok|..]. }
  { left. }
  intros r w' Hok' Hh _. apply wp_ret. eapply (IH (c :: H)); [exact Hok'|by eapply handed_grp|done|by eapply handed_parsed|done| |].
  - intros c' Hc'. destruct (Hcs c') as [? ?]; [by right|]. split; [done|]. rewrite elem_of_cons. by intros [->|].
  - intros H' w'' Hok'' Hh' HH'. eapply HQ; [exact Hok''|by etrans|]. intros c'. rewrite elem_of_cons.
    intros [[->|]|]; apply HH'; [right; left|by left|right; by right].
Qed.

Lemma select_remote_all g :
  wait_remote g = true -> select_remote g = (for_each (group_commands g) (fun c => _ ← select_server c; mret tt) : W unit) \/
  (exists c, group_commands g = [c] /\ select_remote g = (_ ← select_server c; mret tt)).
Proof. unfold wait_remote, select_remote, group_commands. destruct (grp_class g); try done; [right; by eexists|by left]. Qed.

Lemma wp_select_remote C gi g H (Q : unit -> World -> Prop) E w :
  Ok H [] [] (Some gi) C w -> w_grps w !! gi = Some g -> wait_remote g = true ->
  (exists cl, o_clis (view w) !! grp_client g = Some cl /\ gi ∈ c_parsed cl) -> (forall c, c ∈ group_commands g -> c ∉ H) ->
  (forall H' w', Ok H' [] [] (Some gi) C w' -> handed w w' -> (forall c, c ∈ group_commands g -> c ∈ H') -> Q tt w') ->
  wp (select_remote g) Q E w.
Proof.
  intros Hok Hg Hw Hcl HcH HQ. apply view_grp in Hg.
  assert (Hwp : wp (for_each (group_commands g) (fun c => _ ← select_server c; mret tt)) Q E w).
  { eapply (wp_select_all C gi (grp_view g)); [exact Hok|done| |done|apply (lk_grp _ _ _ _ _ (proj1 Hok) _ _ Hg)|by auto|].
    - unfold waits, wait_remote in *. cbn. by destruct (grp_class g).
    - intros H' w' Hok' Hh HH'. eapply HQ; [exact Hok'|done|auto]. }
  destruct (select_remote_all g Hw) as [->|(c & Hc & ->)]; [done|]. rewrite Hc in Hwp. cbn in Hwp.
  unfold wp in *. cbn in *. unfold mbind, M_bind in *. destruct (select_server c w) as [[] ?]; exact Hwp.
Qed.

Lemma omap_insert_None (l : list (option nat)) i gi :
  l !! i = Some (Some gi) -> omap id l ≡ₚ gi :: omap id (<[i := None]> l).
Proof.
  intros Hi. rewrite <- (take_drop_middle _ _ _ Hi) at 1. rewrite insert_take_drop by (by eapply lookup_lt_Some).
  rewrite !omap_app. cbn. by rewrite <- Permutation_middle.
Qed.

(** A group that is not a long connection goes to the awaiting ones. *)
Lemma wp_hand_over H C cli x i gi g (Q : unit -> World -> Prop) E w :
  Ok H [] [] None C w -> w_clis w !! cli = Some x -> _parsed_groups x !! i = Some (Some gi) -> w_grps w !! gi = Some g ->
  long_connection g = false ->
  (forall H' w' x', Ok H' [] [] None C w' -> w_clis w' !! cli = Some x' -> _parsed_groups x' = <[i := None]> (_parsed_groups x) -> Q tt w') ->
  wp (when (wait_remote g)
        (set_cli cli (fun c => c <| _awaiting_count ::= Z.succ |>) ;; select_remote g) ;;
      set_cli cli (fun c => c <| _awaiting_groups ::= (fun l => l ++ [gi]) |> <| _parsed_groups ::= <[i := None]> |>)) Q E w.
Proof.
  intros Hok Hx Hi Hg Hlong HQ. pose proof (view_cli _ _ _ Hx) as Hcl. pose proof (view_grp _ _ _ Hg) as Hgr.
  assert (Hgi : gi ∈ c_parsed (cli_view x)).
  { cbn. rewrite (omap_insert_None _ _ _ Hi). left. }
  pose proof (group_once _ _ _ _ _ _ _ _ _ (proj1 Hok) Hgr Hcl (parsed_group _ _ Hgi)) as Hown. cbn in Hown.
  assert (Hend : forall H' cur w' x', Ok H' [] [] cur C w' -> w_clis w' !! cli = Some x' -> w_grps w' = w_grps w ->
    _parsed_groups x' = _parsed_groups x -> cur = (if wait_remote g then Some gi else None) ->
    (wait_remote g = true -> forall c, c ∈ group_commands g -> c ∈ H') ->
    wp (set_cli cli (fun c => c <| _awaiting_groups ::= (fun l => l ++ [gi]) |> <| _parsed_groups ::= <[i := None]> |>)) Q E w').
  { intros H' cur w' x' [Hl' Hr'] Hx' Eg Ep Ecur Hall. eapply wp_set_cli_at; [exact Hx'|].
    eapply (HQ H'); [|apply lookup_insert_eq|cbn; by rewrite Ep]. split.
    - eapply (links_end H' [] [] cur (view w') _ cli (cli_view x') gi (grp_view g)); [exact Hl'|by apply view_cli| | | | |done..|].
      + cbn. rewrite Eg. by apply view_grp.
      + cbn. rewrite Ep. by apply omap_insert_None.
      + rewrite Ecur. unfold wait_remote. destruct (waits_dec (grp_view g)) as [Hw|Hw]; unfold waits in Hw; cbn in Hw;
          [rewrite decide_True by done|rewrite decide_False by done]; by destruct (grp_class g).
      + intros Hw c Hc. apply Hall; [|done]. unfold wait_remote, waits in *. cbn in Hw. by destruct (grp_class g).
      + cbn. rewrite fmap_insert. unfold cli_view. cbn. by rewrite Ep.
    - eapply regs_same; [exact Hr'|done..|]. intros j. cbn. rewrite fmap_insert, insert_is_Some; [done|].
      rewrite lookup_fmap, Hx'. by eexists. }
  apply wp_bind, wp_when; intros Hw.
  2: { eapply Hend; [exact Hok|done..|by rewrite Hw|by rewrite Hw]. }
  eapply wp_bind, wp_set_cli_at; [exact Hx|]. set (w1 := w <| w_clis ::= _ |>).
  assert (Hok1 : Ok H [] [] (Some gi) C w1).
  { split.
    - eapply (links_begin H [] [] (view w) _ cli (cli_view x) gi (grp_view g)); [apply Hok|done..|]. cbn. by rewrite fmap_insert.
    - eapply regs_same; [apply Hok|done..|]. intros j. cbn. rewrite fmap_insert, insert_is_Some; [done|]. rewrite lookup_fmap, Hx. by eexists. }
  eapply (wp_select_remote C gi g H); [exact Hok1|done|done| | |].
  - exists (cli_view (x <| _awaiting_count ::= Z.succ |>)). split; [|exact Hgi]. rewrite Hown. cbn. by rewrite fmap_insert, lookup_insert_eq.
  - intros c Hc HcH. destruct (lk_held _ _ _ _ _ (proj1 Hok) c HcH) as (gi' & gr & cl & (Hc' & Hgr' & Hcl') & _ & [Haw|[[=] _]]).
    apply (links_owns _ _ _ _ _ (proj1 Hok) c gi _ Hgr) in Hc. simplify_eq. cbn in Hcl'. cbn in Hcl. simplify_eq.
    destruct (lk_cli _ _ _ _ _ (proj1 Hok) _ _ Hcl) as (Hnd & _). by destruct (groups_disjoint _ gi Hnd) as [Hd _]; destruct (Hd Hgi).
  - intros H' w2 Hok2 Hh HH'. destruct (handed_cli _ _ _ (x <| _awaiting_count ::= Z.succ |>) Hh (lookup_insert_eq _ _ _)) as (x' & Hx' & E').
    eapply (Hend H' _ w2 x'); [exact Hok2|done|apply Hh| |by rewrite Hw|done]. by injection E' as _ ->.
Qed.

(** ** The client's own connection *)

Section Connection.
Context (H X L : list nat) (cur : option nat) (C : list Connection) (cli : nat) (HC : CClient cli ∈ C).
Let HI := ok_view H X L cur C.
Let Hlive := fun w (Hok : Ok H X L cur C w) => ok_live H X L cur C (CClient cli) w Hok HC.

Lemma cli_close_preserves : preserves (Ok H X L cur C) (close_conn_fd (CClient cli)).
Proof. apply (preserves_close_conn_fd _ HI), Hlive. Qed.
Lemma cli_is_closed_preserves : preserves (Ok H X L cur C) (is_closed (CClient cli)).
Proof. apply preserves_is_closed, Hlive. Qed.
Lemma cli_poll_del_preserves : preserves (Ok H X L cur C) (poll_del (CClient cli)).
Proof. apply (preserves_poll _ HI); [apply Hlive|intros; kern_step]. Qed.
Lemma cli_poll_ro_preserves : preserves (Ok H X L cur C) (set_conn_poll_ro (CClient cli)).
Proof. intros w Hok. eapply wp_set_conn_poll_ro; [exact Hok|done|by apply Hlive|auto]. Qed.
Lemma cli_poll_rw_preserves : preserves (Ok H X L cur C) (set_conn_poll_rw (CClient cli)).
Proof. intros w Hok. eapply wp_set_conn_poll_rw; [exact Hok|done|by apply Hlive|auto]. Qed.
Lemma get_cli_preserves : preserves (Ok H X L cur C) (get_cli cli).
Proof. intros w Hok. apply wp_get_cli; [by apply Hlive|done]. Qed.

(** An update of members the graph does not have. *)
Lemma set_cli_preserves f : (forall x, cli_view (f x) = cli_view x) -> preserves (Ok H X L cur C) (set_cli cli f).
Proof.
  intros Hf w Hok. apply wp_set_cli; [by apply Hlive|]. intros x Hx. eapply ok_view; [|exact Hok]. by apply (set_cli_view _ _ x).
Qed.

Lemma deliver_some_preserves k s b : CServer s ∈ C -> preserves (Ok H X L cur C) (deliver_to k cli (Some s) b).
Proof.
  intros Hs. apply preserves_bind; [apply preserves_conn_fd, Hlive|intros fd].
  apply preserves_bind; [by apply new_long_preserves|intros _]. apply (preserves_set_conn_fd _ HI), Hlive.
Qed.
End Connection.

(** A server that is found is live while the operation runs. *)
Lemma wp_found {A} H X L cur C s (c : W A) (Q : A -> World -> Prop) E w :
  Ok H X L cur C w -> is_Some (o_svrs (view w) !! s) -> preserves (Ok H X L cur (CServer s :: C)) c ->
  (forall a w', Ok H X L cur C w' -> Q a w') -> (forall w', Ok H X L cur C w' -> E w') -> wp c Q E w.
Proof.
  intros Hok Hs Hc HQ HE.
  assert (Hdown : forall w', Ok H X L cur (CServer s :: C) w' -> Ok H X L cur C w')
    by (intros w'; apply ok_weaken; intros c' ?; by right).
  eapply wp_preserves; [exact Hc| |auto..]. apply (ok_extend _ _ _ _ _ [CServer s]); [done|]. by intros c' ->%list_elem_of_singleton.
Qed.

(** ** [Client::_process] *)

Section Process.
Context (C : list Connection) (cli : nat) (HC : CClient cli ∈ C).
Implicit Types (w : World) (E : World -> Prop).

Lemma deliver_client_preserves H X L cur g : grp_client g = cli -> preserves (Ok H X L cur C) (deliver_client g).
Proof.
  intros Hg. unfold deliver_client. rewrite Hg.
  assert (Hto : forall k svr b w, Ok H X L cur C w -> is_server w svr ->
    wp (deliver_to k cli svr b) (fun _ => Ok H X L cur C) (Ok H X L cur C) w).
  { intros k [s|] b w Hok Hs; [|by eapply cli_close_preserves].
    eapply wp_found; [exact Hok|by apply Hs| |done..]. apply deliver_some_preserves; [by right|left]. }
  intros w Hok. destruct (grp_class g); try done; apply wp_bind.
  - eapply wp_random_addr; [exact Hok| |done]. intros r w' Hok' Hs. by apply Hto.
  - eapply wp_get_server_by_slot; [exact Hok|..]; [by apply Hto|]. intros s Hs. apply Hto; [done|]. by intros ? [= <-].
Qed.

(** The first [n] entries of a client's queue are null. *)
Definition nulls (n : nat) (w : World) : Prop :=
  exists x, w_clis w !! cli = Some x /\ omap id (take n (_parsed_groups x)) = [].

Lemma wp_process_loop i n H (Q : bool -> World -> Prop) E w :
  Ok H [] [] None C w -> nulls i w ->
  (forall b w', Inv C w' -> (b = true -> nulls (i + n) w') -> Q b w') -> (forall w', Inv C w' -> E w') ->
  wp (process_loop cli i n) Q E w.
Proof.
  revert i H w. induction n as [|n IH]; intros i H w Hok (x & Hx & Hnull) HQ HE; cbn [process_loop].
  { apply wp_ret, HQ; [by exists H|]. intros _. exists x. by rewrite Nat.add_0_r. }
  eapply wp_bind, wp_get_cli_at; [exact Hx|].
  destruct (_parsed_groups x !! i) as [[gi|]|] eqn:Ei; [|apply wp_null_pointer|apply wp_undefined].
  assert (Hgi : gi ∈ c_groups (cli_view x)) by (apply parsed_group; cbn; rewrite (omap_insert_None _ _ _ Ei); left).
  destruct (lk_cli _ _ _ _ _ (proj1 Hok) _ _ (view_cli _ _ _ Hx)) as (_ & _ & Hall). destruct (Hall _ Hgi) as (gr & Hgr & Hown).
  apply wp_bind, wp_get_grp; [by eexists|]. intros g Hg. rewrite (view_grp _ _ _ Hg) in Hgr. injection Hgr as <-.
  apply wp_if; intros Hlong.
  - apply wp_bind. eapply wp_preserves; [by apply (cli_poll_del_preserves H [] [] None C)|exact Hok| |intros w' ?; apply HE; by exists H].
    intros _ w1 Hok1. apply wp_bind. eapply wp_preserves; [by apply (deliver_client_preserves H [] [] None)|exact Hok1| |intros w' ?; apply HE; by exists H].
    intros _ w2 Hok2. apply wp_bind. eapply wp_preserves; [by apply (cli_close_preserves H [] [] None C)|exact Hok2| |intros w' ?; apply HE; by exists H].
    intros _ w3 Hok3. apply wp_ret, HQ; [by exists H|done].
  - apply wp_assoc. eapply (wp_hand_over H C cli x i gi g); [done..|]. intros H' w' x' Hok' Hx' Hp'.
    eapply (IH (S i)); [exact Hok'| | |done].
    + exists x'. split; [done|]. rewrite Hp'. erewrite take_S_r by (apply list_lookup_insert_eq; by eapply lookup_lt_Some).
      rewrite omap_app, take_insert_ge by lia. by rewrite Hnull.
    + intros b w'' Hinv Hn. apply HQ; [done|]. by rewrite <- Nat.add_succ_comm.
Qed.

Lemma push_awaitings_inv : preserves (Inv C) (_push_awaitings_to_ready cli).
Proof.
  apply preserves_inv. intros H w Hok. eapply (wp_push_awaitings_to_ready H [] [] C); [exact Hok|by eapply ok_client|auto].
Qed.

Lemma process_inv : preserves (Inv C) (_process cli).
Proof.
  intros w [H Hok]. destruct (ok_client _ _ _ _ _ _ _ Hok HC) as [? (x & Hx & _)%view_cli_inv].
  eapply wp_bind, wp_get_cli_at; [exact Hx|]. set (n := Z.to_nat _).
  apply wp_bind. eapply (wp_process_loop 0 n H); [exact Hok|by exists x| |done].
  intros [|] w1 Hinv Hn; cbn [negb]; [|by apply wp_ret]. destruct (Hn eq_refl) as (y & Hy & Hnull). destruct Hinv as [H1 Hok1].
  eapply wp_bind, wp_set_cli_at; [exact Hy|]. eapply wp_bind, wp_get_cli_at; [apply lookup_insert_eq|]. set (w2 := w1 <| w_clis ::= _ |>).
  assert (Hok2 : Ok H1 [] [] None C w2).
  { eapply ok_view; [|exact Hok1]. apply (set_cli_view _ _ y); [done|]. unfold cli_view. cbn. f_equal.
    rewrite <- (take_drop n (_parsed_groups y)) at 2. cbn in Hnull. by rewrite omap_app, Hnull. }
  apply wp_if; intros _; [|apply push_awaitings_inv; by exists H1].
  destruct (lk_cli _ _ _ _ _ (proj1 Hok2) cli (cli_view (y <| _parsed_groups ::= drop n |>))) as (_ & Hpeers & _).
  { apply view_cli, lookup_insert_eq. }
  set (D := CServer <$> elements (_peers (y <| _parsed_groups ::= drop n |>))).
  assert (Hok3 : Ok H1 [] [] None (D ++ C) w2).
  { apply ok_extend; [done|]. intros c (s & -> & Hs)%list_elem_of_fmap. apply elem_of_elements in Hs.
    specialize (Hpeers s Hs). by apply elem_of_dom in Hpeers. }
  assert (Hdown : forall w', Ok H1 [] [] None (D ++ C) w' -> Inv C w').
  { intros w' Hw'. exists H1. eapply ok_weaken; [|exact Hw']. intros c ?. apply elem_of_app. by right. }
  eapply wp_preserves; [|exact Hok3|intros _; apply Hdown|apply Hdown]. apply preserves_for. intros s Hs w' Hok'.
  eapply wp_set_conn_poll_rw; [exact Hok'|done| |auto]. eapply ok_live; [exact Hok'|]. apply elem_of_app. left.
  apply list_elem_of_fmap. eauto.
Qed.
End Process.

(** ** Writing and reading *)

Lemma wp_total_remote_cost cs (Q : Interval -> World -> Prop) E w :
  (forall c, c ∈ cs -> is_Some (o_cmds (view w) !! c)) -> (forall t, Q t w) -> wp (total_remote_cost cs) Q E w.
Proof.
  revert Q. induction cs as [|c cs IH]; intros Q Hc HQ; cbn [total_remote_cost]; [by apply wp_ret|].
  apply wp_bind, wp_get_cmd; [apply Hc; left|]. intros x _. apply wp_bind, IH; [intros; apply Hc; by right|].
  intros t. by apply wp_ret.
Qed.

Lemma wp_avg_cost g (Q : Interval -> World -> Prop) E w :
  (forall c, c ∈ group_commands g -> is_Some (o_cmds (view w) !! c)) -> (forall t, Q t w) -> wp (avg_commands_remote_cost g) Q E w.
Proof.
  intros Hcs HQ. unfold avg_commands_remote_cost, group_commands in *. destruct (grp_class g); try by apply wp_ret.
  - apply wp_bind, wp_get_cmd; [apply Hcs; left|]. intros x _. by apply wp_ret.
  - apply wp_bind, wp_total_remote_cost; [done|]. intros t. by apply wp_ret.
Qed.

Lemma wp_collect_stats gi (Q : unit -> World -> Prop) E w :
  owned (view w) gi -> (forall w', view w' = view w -> w_clis w' = w_clis w -> Q tt w') -> wp (collect_stats gi) Q E w.
Proof.
  intros (gr & Hgr & Hcs) HQ. destruct (view_grp_inv _ _ _ Hgr) as (g & Hg & <-).
  apply wp_bind, wp_get_grp; [by rewrite Hgr|]. intros g' Hg'. rewrite Hg in Hg'. injection Hg' as <-.
  assert (Hstat : wp (t ← now; avg ← avg_commands_remote_cost g; stat_proccessed (interval (t - creation g)) avg) Q E w).
  { apply wp_bind, wp_now. intros t k. apply wp_bind, wp_avg_cost; [exact Hcs|]. intros avg. by apply wp_modify, HQ. }
  destruct (grp_class g); try exact Hstat; by apply wp_ret, HQ.
Qed.

Lemma wp_collect_all gs (Q : unit -> World -> Prop) E w :
  (forall gi, gi ∈ gs -> owned (view w) gi) -> (forall w', view w' = view w -> w_clis w' = w_clis w -> Q tt w') ->
  wp (for_each gs collect_stats) Q E w.
Proof.
  intros Hgs HQ. apply (wp_for_each (fun rem w' => (view w' = view w /\ w_clis w' = w_clis w) /\ forall gi, gi ∈ rem -> gi ∈ gs)).
  - done.
  - intros gi rem w' [[Hv Hc] Hrem]. apply wp_collect_stats; [rewrite Hv; apply Hgs, Hrem; left|].
    intros w'' Hv' Hc'. split; [split; congruence|]. intros gj Hgj. apply Hrem. by right.
  - intros w' [[Hv Hc] _]. by apply HQ.
Qed.

(** The ready groups go. *)
Lemma ok_ready_deleted H C cli cl w w' :
  Ok H [] [] None C w -> o_clis (view w) !! cli = Some cl ->
  forall g', deleted (c_ready cl) (view w) g' -> view w' = g' <| o_clis ::= <[cli := cl <| c_ready := [] |>]> |> ->
  Ok H [] [] None C w'.
Proof.
  intros [Hl Hr] Hcl g' Hd Hv. pose proof (dl_rest _ _ _ Hd) as Hrest. split; rewrite Hv.
  - assert (Hkeep : filter (kept_cmd (view w) (c_ready cl)) H = H).
    { apply filter_all. intros c HcH. unfold kept_cmd.
      destruct (lk_held _ _ _ _ _ Hl c HcH) as (gi & gr & clj & (Hc & Hg & Hj) & _ & [Haw|[[=] _]]). rewrite Hc. cbn. intros Hin.
      pose proof (group_once _ _ _ _ _ _ _ _ _ Hl Hg Hcl (ready_group _ _ Hin)) as Hcj. rewrite Hcj in Hj. simplify_eq.
      destruct (lk_cli _ _ _ _ _ Hl _ _ Hcl) as (Hnd & _). by destruct (groups_disjoint _ gi Hnd) as [_ Hdis]; destruct (Hdis Haw). }
    rewrite <- Hkeep. eapply (links_purge H (view w) _ (c_ready cl) cli cl); [done|done| | | | |].
    + destruct (dl_purged _ _ _ Hd) as [Hpg Hpc]. by split.
    + rewrite Hrest. split; [intros cj Hne; cbn -[view]; by rewrite lookup_insert_ne|right]. cbn -[view]. by rewrite lookup_insert_eq.
    + rewrite Hkeep, Hrest. pose proof (lk_perm _ _ _ _ _ Hl) as Hp. rewrite !app_nil_r in Hp. exact Hp.
    + by rewrite Hrest.
    + rewrite Hrest. eauto.
  - eapply regs_same; [by eapply regs_deleted|done..|]. intros i. cbn -[view]. rewrite insert_is_Some; [done|]. rewrite Hrest. by eexists.
Qed.

Section Requests.
Context (C : list Connection) (cli : nat) (HC : CClient cli ∈ C).
Implicit Types (w : World) (E : World -> Prop).

(** The responses are written: the ready groups go, and the next requests are processed. *)
Lemma all_sent_inv :
  preserves (Inv C)
    (c ← get_cli cli;
     for_each (_ready_groups c) collect_stats ;;
     for_each (_ready_groups c) delete_group ;;
     set_cli cli (fun c => c <| _ready_groups := [] |>) ;;
     when (bool_decide (_awaiting_groups c = [])) (set_cli cli (fun c => c <| _peers := ∅ |>)) ;;
     when (negb (bool_decide (_parsed_groups c = []))) (_process cli)).
Proof.
  intros w [H Hok]. destruct (ok_client _ _ _ _ _ _ _ Hok HC) as [? (x & Hx & _)%view_cli_inv].
  pose proof (view_cli _ _ _ Hx) as Hcl. eapply wp_bind, wp_get_cli_at; [exact Hx|].
  destruct (lk_cli _ _ _ _ _ (proj1 Hok) _ _ Hcl) as (Hnd & _ & Hgrps).
  apply wp_bind, wp_collect_all; [intros gi Hgi; eapply links_owned; [apply Hok|exact Hcl|by apply ready_group]|].
  intros w1 Hw1 _. apply wp_bind. eapply (wp_delete_groups (view w)); [by eapply links_owns, (proj1 Hok)|done| | |].
  { unfold c_groups in Hnd. cbn in Hnd. rewrite !NoDup_app in Hnd. naive_solver. }
  { intros gi Hgi. destruct (Hgrps gi) as (gr & Hgr & _); [by apply ready_group|]. by eexists. }
  intros w2 Hd. assert (Hcl2 : o_clis (view w2) !! cli = Some (cli_view x)) by (by rewrite (dl_rest _ _ _ Hd)).
  destruct (view_cli_inv _ _ _ Hcl2) as (y & Hy & Ey). eapply wp_bind, wp_set_cli_at; [exact Hy|].
  set (w3 := w2 <| w_clis ::= _ |>).
  assert (Hok3 : Ok H [] [] None C w3).
  { eapply (ok_ready_deleted H C cli (cli_view x) w); [done..|]. rewrite <- Ey. unfold view. cbn. by rewrite fmap_insert. }
  assert (Hrest : forall w', Inv C w' -> wp (when (negb (bool_decide (_parsed_groups x = []))) (_process cli)) (fun _ => Inv C) (Inv C) w').
  { intros w' Hinv. apply preserves_when; [by apply process_inv|done]. }
  apply wp_bind, wp_when; intros Haw; [|apply Hrest; by exists H].
  apply bool_decide_eq_true in Haw. eapply wp_set_cli_at; [apply lookup_insert_eq|]. apply Hrest. exists H.
  assert (Hcl3 : o_clis (view w3) !! cli = Some (cli_view (y <| _ready_groups := [] |>))) by apply view_cli, lookup_insert_eq.
  split.
  - eapply (links_clear_peers H [] [] (view w3) _ cli); [apply Hok3|exact Hcl3| |done..|].
    + injection Ey as _ _ Eaw _ _. cbn. congruence.
    + unfold w3. cbn. by rewrite !fmap_insert.
  - eapply regs_same; [apply Hok3|done..|]. intros i. unfold w3. cbn. rewrite !fmap_insert, !insert_is_Some; [done|..];
      rewrite ?insert_is_Some; rewrite lookup_fmap, Hy; by eexists.
Qed.

Lemma client_output_preserves H bs : preserves (Ok H [] [] None C) (set_cli cli (fun c => c <| cli_output := bs |>)).
Proof. by apply set_cli_preserves. Qed.
Lemma client_buffer_preserves H b : preserves (Ok H [] [] None C) (set_cli cli (fun c => c <| cli_buffer := b |>)).
Proof. by apply set_cli_preserves. Qed.

Let HI := inv_view C.

Lemma get_cli_inv : preserves (Inv C) (get_cli cli).
Proof. apply preserves_inv. intros H. by apply get_cli_preserves. Qed.

Lemma send_buffer_set_inv : preserves (Inv C) (_send_buffer_set cli).
Proof.
  apply preserves_bind; [apply get_cli_inv|intros c]. apply (preserves_writev _ HI). intros o bs Ho.
  apply preserves_bind; [apply preserves_inv; intros; by apply client_output_preserves|intros _].
  apply preserves_bind; [by apply preserves_lift|intros b]. apply preserves_when, all_sent_inv.
Qed.

Lemma write_response_inv : preserves (Inv C) (_write_response cli).
Proof.
  apply preserves_bind; [apply get_cli_inv|intros c].
  apply preserves_bind; [apply preserves_when, send_buffer_set_inv|intros _].
  apply preserves_bind; [apply get_cli_inv|intros c'].
  case_match; [apply preserves_ret|].
  apply preserves_bind; [by apply push_awaitings_inv|intros _]. apply send_buffer_set_inv.
Qed.

Lemma read_request_inv stats : preserves (Inv C) (_read_request stats cli).
Proof.
  apply preserves_bind; [apply get_cli_inv|intros c]. apply (preserves_read _ HI). intros o b Ho.
  apply preserves_bind; [apply preserves_inv; intros; by apply client_buffer_preserves|intros _].
  apply preserves_bind; [by apply preserves_lift|intros n].
  case_match; [apply preserves_inv; intros; by apply cli_close_preserves|].
  apply preserves_bind; [apply preserves_gets|intros t].
  pose proof (split_client_command_clean t b) as Hclean. pose proof (split_client_command_proper t b) as Hproper.
  destruct (split_client_command t b) as [o' [gs rest]]. cbn in Hclean, Hproper.
  apply preserves_bind; [|intros _; apply preserves_bind; [apply preserves_inv; intros; by apply client_buffer_preserves|intros _]].
  { apply preserves_inv. intros H0 w Hok. by eapply wp_push_commands. }
  apply preserves_bind; [by apply preserves_lift|intros _]. apply preserves_bind; [apply get_cli_inv|intros c'].
  apply preserves_when. by apply process_inv.
Qed.

Lemma client_on_events_inv stats ev : preserves (Inv C) (client_on_events stats cli ev).
Proof.
  unfold client_on_events. assert (Hclose : preserves (Inv C) (close_conn_fd (CClient cli)))
    by (apply preserves_inv; intros; by apply cli_close_preserves).
  case_match; [done|]. apply preserves_try; [|intros e k; case_match; [by intros [= <-]|done]].
  apply preserves_bind; [apply preserves_when, read_request_inv|intros _].
  apply preserves_bind; [apply preserves_inv; intros; by apply cli_is_closed_preserves|intros b].
  case_match; [apply preserves_ret|]. apply preserves_bind; [apply preserves_when, write_response_inv|intros _].
  apply preserves_bind; [apply get_cli_inv|intros c].
  case_match; apply preserves_inv; intros; [by apply cli_poll_ro_preserves|by apply cli_poll_rw_preserves].
Qed.
End Requests.

(** ** [~Client] *)

Section Delete.
Context (H : list nat) (g : Graph) (Hl : Links H [] [] None g) (cli : nat) (cl : Cli) (Hcl : o_clis g !! cli = Some cl).
Implicit Types (w : World) (E : World -> Prop).
#[local] Abbreviation kept := (kept_cmd g (c_groups cl)).

(** The commands and the groups are still those of [g]. *)
Definition same_objects (w : World) : Prop := o_cmds (view w) = o_cmds g /\ o_grps (view w) = o_grps g.

Lemma wp_cmd_client c (Q : nat -> World -> Prop) E w :
  same_objects w -> c ∈ H -> (forall owner, (owner = cli <-> ~ kept c) -> Q owner w) -> wp (cmd_client c) Q E w.
Proof.
  intros [E1 E2] HcH HQ. destruct (lk_held _ _ _ _ _ Hl c HcH) as (gi & gr & clj & (Hc & Hg & Hj) & _ & [Haw|[[=] _]]).
  apply wp_bind, wp_get_cmd; [rewrite E1; by eexists|]. intros x Hx. apply view_cmd in Hx. rewrite E1, Hc in Hx. injection Hx as <-.
  apply wp_bind, wp_get_grp; [rewrite E2; by eexists|]. intros y Hy. apply view_grp in Hy. rewrite E2, Hg in Hy. injection Hy as ->.
  apply wp_ret, HQ. unfold kept_cmd. rewrite Hc. cbn in *. split.
  - intros Heq. rewrite Heq in Hj. simplify_eq. intros Hn. by apply Hn, awaiting_group.
  - intros Hn. destruct (decide (gi ∈ c_groups cl)) as [Hin|]; [|done]. exact (group_once _ _ _ _ _ _ _ _ _ Hl Hg Hcl Hin).
Qed.

Lemma wp_erase_client cmds (Q : list nat -> World -> Prop) E w :
  same_objects w -> (forall c, c ∈ cmds -> c ∈ H) -> Q (filter kept cmds) w -> wp (erase_client cli cmds) Q E w.
Proof.
  intros Hw. revert Q. induction cmds as [|c cmds IH]; intros Q HcH HQ; cbn [erase_client]; [by apply wp_ret|].
  apply wp_bind, wp_cmd_client; [done|apply HcH; left|]. intros owner Ho. apply wp_bind, IH; [intros; apply HcH; by right|].
  apply wp_ret. rewrite filter_cons in HQ. case_bool_decide; case_decide; tauto.
Qed.

Lemma wp_reset_client sent (Q : list (option nat) -> World -> Prop) E w :
  same_objects w -> (forall c, c ∈ omap id sent -> c ∈ H) ->
  (forall sent', omap id sent' = filter kept (omap id sent) -> Q sent' w) -> wp (reset_client cli sent) Q E w.
Proof.
  intros Hw. revert Q. induction sent as [|[c|] sent IH]; intros Q HcH HQ; cbn [reset_client]; [by apply wp_ret, HQ|..].
  - apply wp_bind, wp_cmd_client; [done|apply HcH; left|]. intros owner Ho. apply wp_bind, IH; [intros; apply HcH; by right|].
    intros rest Hr. apply wp_ret, HQ. change (omap id (Some c :: sent)) with (c :: omap id sent). rewrite filter_cons. case_bool_decide; case_decide; cbn; rewrite Hr; tauto.
  - apply wp_bind, IH; [done|]. intros rest Hr. by apply wp_ret, HQ.
Qed.

Lemma wp_server_pop s refs (Q : unit -> World -> Prop) E w :
  same_objects w -> o_svrs (view w) !! s = Some refs -> (forall c, c ∈ refs -> c ∈ H) ->
  (forall w', view w' = (view w) <| o_svrs ::= <[s := filter kept refs]> |> -> Q tt w') -> wp (server_pop_client s cli) Q E w.
Proof.
  intros Hw (x & Hx & <-)%view_svr_inv HcH HQ. eapply wp_bind, wp_get_svr_at; [exact Hx|].
  apply wp_bind, wp_erase_client; [done|intros c Hc; apply HcH; unfold svr_view; apply elem_of_app; by left|].
  eapply wp_bind, wp_set_svr_at; [exact Hx|].
  apply wp_bind, wp_reset_client; [done|intros c Hc; apply HcH; unfold svr_view; apply elem_of_app; by right|].
  intros sent' Hs. eapply wp_set_svr_at; [apply lookup_insert_eq|]. apply HQ.
  unfold view. cbn. rewrite insert_insert_eq, fmap_insert. unfold svr_view. cbn. by rewrite Hs, filter_app.
Qed.

Lemma held_refs s refs c : o_svrs g !! s = Some refs -> c ∈ refs -> c ∈ H.
Proof.
  intros Hs Hc. eapply held_subset; [exact Hl|done|]. unfold held. rewrite elem_of_app, elem_of_svr_held. right. by exists s, refs.
Qed.

(** A server that is not a peer has no command of the client. *)
Lemma not_peer s refs : o_svrs g !! s = Some refs -> s ∉ c_peers cl -> filter kept refs = refs.
Proof.
  intros Hs Hp. apply filter_all. intros c Hc. unfold kept_cmd. pose proof (held_refs _ _ _ Hs Hc) as HcH.
  destruct (lk_held _ _ _ _ _ Hl c HcH) as (gi & gr & clj & (Hci & Hg & Hj) & _ & _). rewrite Hci. cbn. intros Hin. apply Hp.
  pose proof (group_once _ _ _ _ _ _ _ _ _ Hl Hg Hcl Hin) as Heq. rewrite Heq in Hj. simplify_eq.
  eapply (lk_peer _ _ _ _ _ Hl s refs c gi gr cl); [done..|]. split; [done|]. split; [done|]. congruence.
Qed.

Lemma wp_pop_servers (Q : unit -> World -> Prop) E w :
  view w = g -> (forall w', view w' = g <| o_svrs := filter kept <$> o_svrs g |> -> Q tt w') ->
  wp (for_each (elements (c_peers cl)) (fun s => server_pop_client s cli)) Q E w.
Proof.
  intros Hv HQ.
  apply (wp_for_each (fun rem w' => NoDup rem /\ (forall s, s ∈ rem -> s ∈ c_peers cl) /\ exists m, view w' = g <| o_svrs := m |> /\
    forall s, m !! s = if decide (s ∈ rem) then o_svrs g !! s else filter kept <$> (o_svrs g !! s))).
  - split; [apply NoDup_elements|]. split; [by intros s ?%elem_of_elements|]. exists (o_svrs g). split; [rewrite Hv; by destruct g|].
    intros s. case_decide as Hs; [done|]. rewrite elem_of_elements in Hs. destruct (o_svrs g !! s) as [refs|] eqn:Er; [|done].
    cbn. f_equal. symmetry. by apply (not_peer s).
  - intros s rem w' ([Hs Hnd]%NoDup_cons & Hsub & m & Hm & Hms).
    destruct (lk_cli _ _ _ _ _ Hl _ _ Hcl) as (_ & Hpeers & _). specialize (Hpeers s (Hsub s ltac:(left))).
    apply elem_of_dom in Hpeers as [refs Hrefs].
    apply (wp_server_pop s refs); [split; by rewrite Hm| |intros c Hc; by eapply held_refs|].
    { rewrite Hm. cbn. rewrite Hms, decide_True by left. done. }
    intros w'' Hw''. split; [done|]. split; [intros s' ?; apply Hsub; by right|]. exists (<[s := filter kept refs]> m).
    split; [rewrite Hw'', Hm; done|]. intros s'. destruct (decide (s = s')) as [<-|Hne].
    + by rewrite lookup_insert_eq, decide_False, Hrefs by done.
    + rewrite lookup_insert_ne, Hms by done. apply decide_ext. rewrite elem_of_cons. naive_solver.
  - intros w' (_ & _ & m & Hm & Hms). apply HQ. rewrite Hm.
    assert (m = filter kept <$> o_svrs g) as ->; [|done]. apply map_eq. intros s.
    rewrite Hms, decide_False, lookup_fmap; [done|]. by intros []%elem_of_nil.
Qed.

(** The graph without the commands of the client in the servers and in the proxy. *)
Definition popped : Graph := g <| o_svrs := filter kept <$> o_svrs g |> <| o_retry := filter kept (o_retry g) |>.

Lemma wp_proxy_pop (Q : unit -> World -> Prop) E w :
  view w = g <| o_svrs := filter kept <$> o_svrs g |> -> (forall w', view w' = popped -> Q tt w') -> wp (proxy_pop_client cli) Q E w.
Proof.
  intros Hv HQ. assert (Hretry : _retrying_commands (w_proxy w) = o_retry g) by (change (o_retry (view w) = o_retry g); by rewrite Hv).
  apply wp_bind, wp_gets, wp_bind. rewrite Hretry. apply wp_erase_client; [split; by rewrite Hv| |].
  - intros c Hc. eapply held_subset; [exact Hl|done|]. unfold held. apply elem_of_app. by left.
  - apply wp_modify, HQ. unfold popped.
    transitivity ((view w) <| o_retry := filter kept (o_retry g) |>); [done|by rewrite Hv].
Qed.

Lemma links_client_gone g' :
  deleted (c_groups cl) popped g' -> Links (filter kept H) [] [] None (g' <| o_clis ::= delete cli |>).
Proof.
  intros [[Hpg Hpc] Hrest _]. eapply (links_purge H g _ (c_groups cl) cli cl); [done|done| | | | |].
  - split; [exact Hpg|exact Hpc].
  - rewrite Hrest. split; [intros cj Hne; cbn; by rewrite lookup_delete_ne|left]. cbn. by rewrite lookup_delete_eq.
  - rewrite Hrest. pose proof (lk_perm _ _ _ _ _ Hl) as Hp. rewrite !app_nil_r in Hp. unfold held in *. cbn.
    by rewrite svr_held_filter, <- Hp, filter_app.
  - rewrite Hrest. cbn. by rewrite dom_fmap_L.
  - rewrite Hrest. cbn. intros s refs c. rewrite lookup_fmap_Some. intros (refs0 & <- & Hs) [_ Hc]%list_elem_of_filter. eauto.
Qed.

Lemma regs_client_gone C g' :
  Regs C g -> CClient cli ∉ C -> o_polls g = ∅ -> deleted (c_groups cl) popped g' -> Regs C (g' <| o_clis ::= delete cli |>).
Proof.
  intros Hr HC Hpolls Hd. assert (Hr1 : Regs C popped).
  { eapply regs_same; [exact Hr|done..| |done]. intros i. unfold popped. cbn. rewrite lookup_fmap. by destruct (o_svrs g !! i). }
  apply (regs_deleted _ _ _ _ Hd) in Hr1. pose proof (dl_rest _ _ _ Hd) as Hrest.
  destruct Hr1 as [H1 H2 H3 H4 H5 H6 H7 (N1 & N2 & N3 & N4 & N5) H9 H10]. split; try done.
  - intros c b Hb. cbn in Hb. rewrite Hrest in Hb. cbn in Hb. rewrite Hpolls in Hb. by rewrite lookup_empty in Hb.
  - split_and!; try done. cbn. intros i x [_ Hx]%lookup_delete_Some. by eapply N3.
  - intros c Hc. specialize (H9 c Hc). destruct c as [i| | | | |]; try done. cbn. rewrite lookup_delete_ne; [done|].
    by intros ->.
Qed.
End Delete.

Lemma wp_delete_client H C cli (Q : unit -> World -> Prop) E w :
  Ok H [] [] None C w -> is_Some (o_clis (view w) !! cli) -> CClient cli ∉ C -> o_polls (view w) = ∅ ->
  (forall w', Inv C w' -> o_polls (view w') = ∅ -> Q tt w') -> wp (delete_client cli) Q E w.
Proof.
  intros [Hl Hr] [cl Hcl] HC Hpolls HQ. destruct (view_cli_inv _ _ _ Hcl) as (x & Hx & Ex).
  eapply wp_bind, wp_get_cli_at; [exact Hx|]. subst cl.
  apply wp_bind. eapply (wp_pop_servers H (view w) Hl cli (cli_view x) Hcl); [done|]. intros w1 Hw1.
  apply wp_bind. eapply (wp_proxy_pop H (view w) Hl cli (cli_view x) Hcl); [done|]. intros w2 Hw2.
  destruct (lk_cli _ _ _ _ _ Hl _ _ Hcl) as (Hnd & _ & Hgrps).
  apply wp_bind. eapply (wp_delete_groups _ (c_groups (cli_view x))); [|exact Hw2|done| |].
  { intros c gi gr. exact (links_owns _ _ _ _ _ Hl c gi gr). }
  { intros gi Hgi. destruct (Hgrps gi Hgi) as (gr & Hgr & _). by eexists. }
  intros w3 Hd. apply wp_bind, wp_close_conn_fd; [cbn -[view]; rewrite (dl_rest _ _ _ Hd); by eexists|].
  intros w4 Hw4. apply wp_modify.
  assert (Hv : view (w4 <| w_clis ::= delete cli |>) = (view w3) <| o_clis ::= delete cli |>)
    by (rewrite <- Hw4; unfold view; cbn; by rewrite fmap_delete).
  apply HQ.
  - eexists. split; rewrite Hv; [by eapply (links_client_gone H (view w) Hl cli (cli_view x) Hcl)|by eapply regs_client_gone].
  - rewrite Hv, (dl_rest _ _ _ Hd). exact Hpolls.
Qed.
