(* ===== verification/SafetyProxy.v ===== *)
(** * The proxy keeps the invariant

    The slot map updaters, the acceptor and a turn of the event loop. *)
From S2P Require Import Prelude Strings OrderedSet Address SlotCalc Buffer Response SlotMap CommandParser Logic Clean World Kernel Command Server LongConn Client Proxy Graph Links Frames Safety SafetyServer SafetyLong SafetyGroup SafetyClient.
#[local] Open Scope Z_scope.

Section Slots.
Context (C : list Connection).
Implicit Types (w : World) (E : World -> Prop).

Lemma ok_drop H X L cur D w : Ok H X L cur (D ++ C) w -> Ok H X L cur C w.
Proof. apply ok_weaken. intros c ?. apply elem_of_app. by right. Qed.

Lemma move_closed_preserves H X L cur : preserves (Ok H X L cur C) _move_closed_slot_updaters.
Proof.
  intros w Hok. apply wp_bind, wp_gets, wp_bind. set (us := _slot_updaters (w_proxy w)).
  eapply (wp_for_each (fun rem w' => view w' = view w /\ forall u, u ∈ rem -> u ∈ us)); [done|..].
  - intros u rem w' [Hv Hrem]. apply wp_set_upd.
    { rewrite Hv. apply (rg_upds _ _ (proj2 Hok)). apply elem_of_app. left. apply Hrem. left. }
    intros x Hx. split; [by rewrite (set_upd_view _ _ x)|]. intros u' ?. apply Hrem. by right.
  - intros w' [Hv _]. apply wp_modify. destruct Hok as [Hl Hr].
    assert (Hv' : view (w' <| w_proxy ::= (fun p => p <| _finished_slot_updaters ::= (fun l => l ++ us) |> <| _slot_updaters := [] |>) |>) =
      (view w) <| o_fin_upds ::= (fun l => l ++ us) |> <| o_slot_upds := [] |>) by (rewrite <- Hv; done).
    split; rewrite Hv'; [by eapply links_same; [exact Hl|..]|]. destruct Hr. split; try done; cbn.
    + intros u [Hu|Hu]%elem_of_app; apply rg_upds; apply elem_of_app; auto.
    + by rewrite (Permutation_app_comm (_finished_slot_updaters _) us).
Qed.

(** ** Commands that are retried *)

Lemma wp_retry_commands H cmds svrs D (Q : gset nat -> World -> Prop) E w :
  Ok H [] cmds None (D ++ C) w -> all_live (D ++ C) svrs ->
  (forall D' r w', Ok H [] [] None (D' ++ C) w' -> all_live (D' ++ C) r -> Q r w') ->
  wp (retry_commands cmds svrs) Q E w.
Proof.
  revert svrs D w. induction cmds as [|c cmds IH]; intros svrs D w Hok Hs HQ; cbn [retry_commands]; [by eapply wp_ret, HQ|].
  apply wp_bind. eapply (wp_select_server H [] cmds None (D ++ C)); [exact Hok| |].
  { pose proof (lk_perm _ _ _ _ _ (proj1 Hok)) as Hp. rewrite app_nil_r in Hp. rewrite <- Hp. apply elem_of_app. right. left. }
  intros [s|] w' Hok' _ Hsv.
  - eapply (IH _ (CServer s :: D)); [| |done].
    + apply (ok_extend _ _ _ _ _ [CServer s] w' Hok'). intros d ->%list_elem_of_singleton. by apply Hsv.
    + intros s' [->%elem_of_singleton|Hs']%elem_of_union; [left|right; by apply Hs].
  - apply wp_bind, wp_modify. by eapply IH.
Qed.

Lemma wp_set_slot_map H nodes remotes (Q : unit -> World -> Prop) E w :
  Ok H [] [] None C w -> (forall w', Inv C w' -> Q tt w') -> (forall w', Inv C w' -> E w') ->
  wp (_set_slot_map nodes remotes) Q E w.
Proof.
  intros Hok HQ HE. apply wp_bind. eapply wp_replace_map; [exact Hok| |intros w' ?; apply HE; by exists H].
  clear w Hok. intros w Hok. apply wp_bind, wp_modify, wp_bind, wp_modify, wp_bind, wp_gets, wp_if; intros _; [apply wp_ret, HQ; by exists H|].
  apply wp_bind, wp_modify, wp_bind. eapply (wp_retry_commands H _ ∅ []).
  - destruct Hok as [Hl Hr]. split; [|by eapply regs_same; [exact Hr|..]].
    eapply links_refs; [exact Hl|done| |done|by eauto]. rewrite <- (lk_perm _ _ _ _ _ Hl). unfold held. cbn. solve_Permutation.
  - by intros s []%elem_of_empty.
  - intros D r w' Hok' Hr. apply (wp_for_each (fun rem w'' => Ok H [] [] None (D ++ C) w'' /\ forall s, s ∈ rem -> s ∈ r)).
    + split; [done|]. by intros s ?%elem_of_elements.
    + intros s rem w'' [Hok'' Hrem]. apply wp_poll_rw; [by eapply ok_live, Hr, Hrem; [|left]|..].
      * intros w3 Hw3. split; [by eapply ok_view|]. intros s' ?. apply Hrem. by right.
      * intros w3 Hw3. apply HE. exists H. eapply ok_drop, ok_view; [exact Hw3|exact Hok''].
    + intros w'' [Hok'' _]. apply HQ. exists H. by eapply ok_drop.
Qed.

(** ** A failed update: the commands to retry are answered *)

Lemma ok_in_hand H c L w : Ok H [] (c :: L) None C w -> exists H0, Ok (c :: H0) [] (c :: L) None C w.
Proof.
  intros [Hl Hr]. pose proof (lk_perm _ _ _ _ _ Hl) as Hp. rewrite app_nil_r in Hp.
  exists (held (view w) ++ L). split; [|done]. eapply links_perm; [|done..|exact Hl]. rewrite <- Hp. by rewrite <- Permutation_middle.
Qed.

Lemma wp_answer_all cmds rsp err H (Q : unit -> World -> Prop) E w :
  Ok H [] cmds None C w -> (forall w', Inv C w' -> Q tt w') -> wp (for_each cmds (fun c => on_remote_responsed c rsp err)) Q E w.
Proof.
  intros Hok HQ. apply (wp_for_each (fun rem w' => exists H', Ok H' [] rem None C w')); [by exists H| |].
  - intros c rem w' [H' [H0 Hok']%ok_in_hand]. eapply wp_on_remote_responsed; [exact Hok'|]. intros H'' w'' Hok'' _. by exists H''.
  - intros w' Hinv. by apply HQ.
Qed.

Lemma wp_any_open us (Q : bool -> World -> Prop) E w :
  (forall u, u ∈ us -> u ∈ o_upds (view w)) -> (forall b, Q b w) -> wp (any_open us) Q E w.
Proof.
  revert Q. induction us as [|u us IH]; intros Q Hus HQ; cbn [any_open]; [by apply wp_ret|].
  apply wp_bind, wp_is_closed; [apply (Hus u); left|]. intros [|]; [|by apply wp_ret]. apply IH; [intros; apply Hus; by right|done].
Qed.

Lemma wp_max_covered best us (Q : nat -> World -> Prop) E w :
  (forall u, u ∈ best :: us -> u ∈ o_upds (view w)) -> (forall u, u ∈ o_upds (view w) -> Q u w) -> wp (max_covered best us) Q E w.
Proof.
  revert best. induction us as [|u us IH]; intros best Hus HQ; cbn [max_covered]; [apply wp_ret, HQ, Hus; left|].
  apply wp_bind, wp_get_upd; [apply Hus; left|]. intros x _. apply wp_bind, wp_get_upd; [apply Hus; right; left|]. intros y _.
  apply IH; [|done]. intros v. case_match; rewrite elem_of_cons; intros [->|]; apply Hus; set_solver.
Qed.

Lemma wp_give_up H (Q : unit -> World -> Prop) E w :
  Ok H [] [] None C w -> (forall w', Inv C w' -> Q tt w') -> (forall w', Inv C w' -> E w') ->
  wp (_move_closed_slot_updaters ;;
      set_glob (fun g => g <| cluster_ok := false |>) ;;
      slot_map_clear ;;
      cmds ← gets (fun w => _retrying_commands (w_proxy w));
      set_proxy (fun p => p <| _retrying_commands := [] |>) ;;
      for_each cmds (fun c => on_remote_responsed c CLUSTERDOWN_RSP true) ;;
      set_proxy (fun p => p <| _slot_map_expired := false |>)) Q E w.
Proof.
  intros Hok HQ HE. apply wp_bind. eapply wp_preserves; [apply move_closed_preserves|exact Hok| |intros w' ?; apply HE; by exists H].
  intros _ w1 Hok1. apply wp_bind, wp_modify, wp_bind. eapply (wp_slot_map_clear H [] [] None C); [exact Hok1|].
  intros w2 Hok2. apply wp_bind, wp_gets, wp_bind, wp_modify, wp_bind. eapply (wp_answer_all _ _ _ H).
  - destruct Hok2 as [Hl Hr]. split; [|by eapply regs_same; [exact Hr|..]].
    eapply links_refs; [exact Hl|done| |done|by eauto]. rewrite <- (lk_perm _ _ _ _ _ Hl). unfold held. cbn. solve_Permutation.
  - intros w' Hinv. apply wp_modify, HQ. by eapply inv_view.
Qed.

Lemma update_failed_inv : preserves (Inv C) _update_slot_map_failed.
Proof.
  intros w [H Hok]. apply wp_bind, wp_gets. set (us := _slot_updaters (w_proxy w)).
  assert (Hus : forall u, u ∈ us -> u ∈ o_upds (view w)) by (intros u Hu; apply (rg_upds _ _ (proj2 Hok)), elem_of_app; by left).
  apply wp_bind, wp_any_open; [done|]. intros [|]; [apply wp_ret; by exists H|].
  apply wp_bind, wp_gets, wp_bind.
  assert (Hgive : forall w' H', Ok H' [] [] None C w' -> wp (mret false) (fun used => wp (if used : bool then mret tt else
      _move_closed_slot_updaters ;; set_glob (fun g => g <| cluster_ok := false |>) ;; slot_map_clear ;;
      cmds ← gets (fun w => _retrying_commands (w_proxy w)); set_proxy (fun p => p <| _retrying_commands := [] |>) ;;
      for_each cmds (fun c => on_remote_responsed c CLUSTERDOWN_RSP true) ;;
      set_proxy (fun p => p <| _slot_map_expired := false |>)) (fun _ => Inv C) (Inv C)) (Inv C) w').
  { intros w' H' Hok'. apply wp_ret. by eapply wp_give_up. }
  destruct us as [|u us'] eqn:Eu; [by eapply Hgive|]. apply wp_if; intros _; [by eapply Hgive|].
  apply wp_bind, wp_max_covered; [done|]. intros best Hb. apply wp_bind, wp_get_upd; [done|]. intros x _.
  apply wp_if; intros _; [by eapply Hgive|].
  apply wp_bind. eapply (wp_set_slot_map H); [exact Hok| |done]. intros w1 [H1 Hok1]. apply wp_bind.
  eapply wp_preserves; [apply move_closed_preserves|exact Hok1| |intros w' ?; by exists H1].
  intros _ w2 Hok2. apply wp_ret, wp_ret. by exists H1.
Qed.

Lemma notify_inv nodes remotes covered : preserves (Inv C) (notify_slot_map_updated nodes remotes covered).
Proof.
  unfold notify_slot_map_updated. case_match; [apply update_failed_inv|].
  apply preserves_bind; [intros w [H' Hok]; by eapply wp_set_slot_map|intros _]. apply preserves_inv. intros. apply move_closed_preserves.
Qed.
End Slots.

(** ** Updaters *)

Section Updaters.
Context (C : list Connection) (u : nat) (HC : CUpdater u ∈ C).
Let HI := inv_view C.

Lemma upd_live w : Inv C w -> live (view w) (CUpdater u).
Proof. intros [H Hok]. by eapply ok_live. Qed.

Lemma get_upd_inv : preserves (Inv C) (get_upd u).
Proof. intros w Hw. apply wp_get_upd; [exact (upd_live _ Hw)|done]. Qed.
Lemma set_upd_inv f : preserves (Inv C) (set_upd u f).
Proof. intros w Hw. apply wp_set_upd; [exact (upd_live _ Hw)|]. intros x Hx. eapply HI; [|exact Hw]. by apply (set_upd_view _ _ x). Qed.
Lemma upd_poll_ro_inv : preserves (Inv C) (poll_ro (CUpdater u)).
Proof. apply (preserves_poll _ HI); [apply upd_live|intros; kern_step]. Qed.
#[local] Hint Resolve get_upd_inv set_upd_inv upd_poll_ro_inv notify_inv : preserves.

Lemma notify_updated_inv : preserves (Inv C) (_notify_updated u).
Proof.
  apply preserves_bind; [apply (preserves_close_conn_fd _ HI), upd_live|intros _]. repeat preserves_step.
Qed.
#[local] Hint Resolve notify_updated_inv : preserves.

Lemma recv_rsp_inv : preserves (Inv C) (_recv_rsp u).
Proof.
  unfold _recv_rsp.
  repeat first
    [ apply (preserves_read _ HI); intros ? ? ?
    | apply preserves_lift; solve [auto using split_server_response_clean, parse_slot_map_clean]
    | preserves_step ].
Qed.

Lemma updater_on_events_inv ev : preserves (Inv C) (updater_on_events u ev).
Proof.
  unfold updater_on_events. case_match; [apply notify_updated_inv|]. case_match.
  - apply preserves_bind; [apply get_upd_inv|intros x].
    apply preserves_bind; [apply (preserves_kern _ HI); eauto with kern|intros _; apply upd_poll_ro_inv].
  - apply preserves_when, preserves_try; [apply recv_rsp_inv|]. intros e k. case_match; [|done]. intros [= <-]. apply notify_updated_inv.
Qed.
End Updaters.

(** ** The acceptor *)

Section Acceptor.
Context (H X L : list nat) (cur : option nat) (C : list Connection).
Let HI := ok_view H X L cur C.

Lemma turn_on_accepting_preserves : preserves (Ok H X L cur C) turn_on_accepting.
Proof.
  apply preserves_bind; [apply preserves_gets|intros [|]]; [apply preserves_ret|].
  apply preserves_bind; [by apply (preserves_proxy _ HI)|intros _]. apply (preserves_poll _ HI); [done|intros; kern_step].
Qed.

Lemma accept_loop_preserves fuel : preserves (Ok H X L cur C) (accept_loop fuel).
Proof.
  induction fuel as [|fuel IH]; cbn [accept_loop]; [by intros w|].
  apply preserves_bind; [apply (preserves_kern _ HI); eauto with kern|intros [cfd c|e]].
  - case_match; [|apply preserves_ret]. apply preserves_bind; [apply (preserves_kern _ HI); eauto with kern|intros _].
    apply preserves_bind; [apply new_client_preserves|done].
  - case_match; [|case_match; [apply preserves_throw|apply preserves_ret]].
    apply preserves_bind; [by apply (preserves_proxy _ HI)|intros _]. apply (preserves_poll _ HI); [done|intros; kern_step].
Qed.

Lemma acceptor_on_events_preserves : preserves (Ok H X L cur C) acceptor_on_events.
Proof. apply preserves_bind; [apply preserves_gets|intros l]. apply accept_loop_preserves. Qed.
End Acceptor.

(** ** Events *)

Section Loop.
Context (C : list Connection).

Lemma on_events_inv stats c ev : c ∈ C -> preserves (Inv C) (on_events stats c ev).
Proof.
  intros Hc. destruct c; cbn [on_events].
  - by apply client_on_events_inv.
  - intros w Hw. by eapply wp_server_on_events.
  - apply preserves_inv. intros. apply long_on_events_preserves.
  - apply preserves_inv. intros. apply long_server_on_events_preserves.
  - by apply updater_on_events_inv.
  - apply preserves_inv. intros. apply acceptor_on_events_preserves.
Qed.

Lemma conn_on_error_inv c : c ∈ C -> preserves (Inv C) (conn_on_error c).
Proof.
  intros Hc. destruct c; cbn [conn_on_error].
  - apply preserves_inv. intros. by apply cli_close_preserves.
  - intros w [H Hok]. eapply wp_close_conn; [exact Hok|by eapply ok_server|]. intros w' ?. by exists H.
  - apply preserves_inv. intros. by apply long_close_preserves.
  - apply preserves_inv. intros. apply server_conn_on_error_preserves.
  - by apply notify_updated_inv.
  - apply preserves_ret.
Qed.

Lemma on_event_inv stats c ev : c ∈ C ->
  preserves (Inv C) (try_catch (on_events stats c ev ;; mret false)
    (fun e => if is_io_error_base e then Some (conn_on_error c ;; mret true) else None)).
Proof.
  intros Hc. apply preserves_try; [apply preserves_bind; [by apply on_events_inv|intros _; apply (preserves_ret _ false)]|].
  intros e k. case_match; [|done]. intros [= <-]. apply preserves_bind; [by apply conn_on_error_inv|intros _; apply preserves_ret].
Qed.

(** The active connections are those of the events. *)
Lemma wp_process_events stats events closed active (Q : gset Connection -> World -> Prop) (E : World -> Prop) w :
  Inv C w -> (forall c ev, (c, ev) ∈ events -> c ∈ C) -> (forall c, c ∈ active -> c ∈ C) ->
  (forall a w', Inv C w' -> (forall c, c ∈ a -> c ∈ C) -> Q a w') -> (forall w', Inv C w' -> E w') ->
  wp (process_events stats events closed active) Q E w.
Proof.
  revert closed active w. induction events as [|[c ev] events IH]; intros closed active w Hinv Hev Ha HQ HE; cbn [process_events].
  { by apply wp_ret, HQ. }
  assert (Hc : c ∈ C) by (eapply Hev; left). assert (Hev' : forall c ev, (c, ev) ∈ events -> c ∈ C) by (intros ? ? ?; eapply Hev; by right).
  apply wp_if; intros _; [by apply IH|]. apply wp_bind. eapply wp_preserves; [by apply on_event_inv|exact Hinv| |done].
  intros failed w' Hinv'. apply IH; [done..| |done|done]. intros d [->%elem_of_singleton|Hd]%elem_of_union; auto.
Qed.

(** [poll_ctl] empties the table. *)
Lemma wp_poll_ctl (Q : unit -> World -> Prop) (E : World -> Prop) w :
  Inv C w -> (forall w', Inv C w' -> o_polls (view w') = ∅ -> Q tt w') -> (forall w', Inv C w' -> E w') -> wp poll_ctl Q E w.
Proof.
  intros [H Hok] HQ HE. apply wp_bind, wp_gets, wp_bind, wp_modify. set (polls := _conn_poll_type (w_proxy w)).
  set (w0 := w <| w_proxy ::= _ |>). assert (Hok0 : Ok H [] [] None C w0) by (by apply (ok_polls _ _ _ _ _ w ∅ Hok)).
  apply (wp_for_each (fun rem w' => view w' = view w0 /\ forall p, p ∈ rem -> live (view w0) p.1)).
  - split; [done|]. intros [c b] Hc%elem_of_map_to_list. by apply (rg_polls _ _ (proj2 Hok) c b).
  - intros [c b] rem w' [Hv Hrem]. assert (Hlive : live (view w') c) by (rewrite Hv; apply (Hrem (c, b)); left).
    assert (Hrem' : forall p, p ∈ rem -> live (view w0) p.1) by (intros p Hp; apply Hrem; by right).
    assert (HE' : forall w'', view w'' = view w' -> E w'') by (intros w'' Hv'; apply HE; exists H; eapply ok_view; [|exact Hok0]; congruence).
    apply wp_bind, wp_is_closed; [done|]. intros [|]; [by apply wp_ret|].
    apply wp_if; intros _; [apply wp_poll_rw|apply wp_poll_ro]; [done| |done|done| |done]; intros w'' Hv'; split; [congruence|done|congruence|done].
  - intros w' [Hv _]. apply HQ; [exists H; by eapply ok_view|by rewrite Hv].
Qed.
End Loop.

(** ** After the events *)

(** [delete_long] does not touch the table of [poll_ctl]. *)
Definition keeps_polls {A} (c : W A) : Prop := forall w, _conn_poll_type (w_proxy (c w).2) = _conn_poll_type (w_proxy w).

Lemma keeps_bind {A B} (c : W A) (f : A -> W B) : keeps_polls c -> (forall a, keeps_polls (f a)) -> keeps_polls (c ≫= f).
Proof.
  intros Hc Hf w. specialize (Hc w). unfold mbind, M_bind. destruct (c w) as [[a| | |] w']; [|done..]. by rewrite Hf.
Qed.
Lemma keeps_deref {A} p (store : World -> gmap nat A) i : keeps_polls (deref_obj p store i).
Proof. intros w. unfold deref_obj. by destruct (store w !! i). Qed.
Lemma keeps_modify f : (forall w, _conn_poll_type (w_proxy (f w)) = _conn_poll_type (w_proxy w)) -> keeps_polls (modify f).
Proof. intros Hf w. apply Hf. Qed.

Ltac keeps_step :=
  repeat first
    [ apply keeps_bind; [|intros ?]
    | apply keeps_deref
    | apply keeps_modify; done
    | solve [intros w; done]
    | case_match ].

Lemma delete_long_polls l : keeps_polls (delete_long l).
Proof. unfold delete_long, close_conn_fd, conn_fd, set_conn_fd, cio_close, detach_long_connection. keeps_step. Qed.

Lemma is_closed_polls c : keeps_polls (is_closed c).
Proof. unfold is_closed, conn_fd. keeps_step. Qed.

Lemma wp_keeps_polls {A} I (c : W A) (Q : A -> World -> Prop) (E : World -> Prop) w :
  preserves I c -> keeps_polls c -> I w ->
  (forall a w', I w' -> o_polls (view w') = o_polls (view w) -> Q a w') -> (forall w', I w' -> E w') -> wp c Q E w.
Proof.
  intros Hp Hk Hw HQ HE. specialize (Hp w Hw). specialize (Hk w). unfold wp in *. destruct (c w) as [[] w']; auto.
Qed.

Lemma long_after_polls l a : keeps_polls (long_after_events l a) /\ keeps_polls (long_server_after_events l a).
Proof.
  split; (apply keeps_bind; [apply is_closed_polls|intros [|]]; [|by intros w]);
    (apply keeps_bind; [apply delete_long_polls|by intros ? w]).
Qed.

Lemma wp_after_events C c active (Q : gset Connection -> World -> Prop) (E : World -> Prop) w :
  Inv (c :: C) w -> c ∉ C -> o_polls (view w) = ∅ ->
  (forall a w', Inv C w' -> o_polls (view w') = ∅ -> Q a w') -> (forall w', Inv C w' -> E w') ->
  wp (after_events c active) Q E w.
Proof.
  intros [H Hok] Hc Hp HQ HE. assert (Hdown : Ok H [] [] None C w) by (eapply ok_weaken; [|exact Hok]; intros d ?; by right).
  assert (Hlive : live (view w) c) by (eapply ok_live; [exact Hok|left]).
  destruct c as [i|i|i|i|i|]; cbn [after_events].
  - apply wp_bind, wp_bind, wp_is_closed; [done|]. intros b. apply wp_when; intros _.
    + eapply (wp_delete_client H C); [done..|]. intros w' Hinv Hp'. by apply wp_ret, HQ.
    + apply wp_ret, HQ; [by exists H|done].
  - apply wp_bind, (wp_server_after_events C); [done|]. intros w' Hv. apply wp_ret, HQ; [exists H; by eapply ok_view|by rewrite Hv].
  - eapply (wp_keeps_polls (Inv C)); [apply preserves_inv; intros; apply long_after_events_preserves|apply long_after_polls|by exists H| |done].
    intros a w' Hinv Hp'. apply HQ; [done|congruence].
  - eapply (wp_keeps_polls (Inv C)); [apply preserves_inv; intros; apply long_server_after_events_preserves|apply long_after_polls|by exists H| |done].
    intros a w' Hinv Hp'. apply HQ; [done|congruence].
  - apply wp_ret, HQ; [by exists H|done].
  - apply wp_ret, HQ; [by exists H|done].
Qed.

Lemma wp_after_all conns active (Q : unit -> World -> Prop) (E : World -> Prop) w :
  Inv conns w -> NoDup conns -> o_polls (view w) = ∅ -> (forall w', Inv [] w' -> Q tt w') -> (forall w', Inv [] w' -> E w') ->
  wp (after_all conns active) Q E w.
Proof.
  revert active w. induction conns as [|c conns IH]; intros active w Hinv Hnd Hp HQ HE; cbn [after_all]; [by apply wp_ret, HQ|].
  apply NoDup_cons in Hnd as [Hc Hnd]. assert (Hdown : forall C w', Inv C w' -> Inv [] w').
  { intros C w' [H' Hok']. exists H'. eapply ok_weaken; [|exact Hok']. by intros d []%elem_of_nil. }
  apply wp_if; intros _.
  - apply wp_bind. eapply (wp_after_events conns); [done..| |intros w' Hw'; by apply HE, (Hdown conns)]. intros a w' Hinv' Hp'. by apply IH.
  - apply IH; [|done..]. destruct Hinv as [H' Hok']. exists H'. eapply ok_weaken; [|exact Hok']. intros d ?. by right.
Qed.

(** ** Updaters that are finished, and new ones *)

Lemma wp_delete_updaters us (Q : unit -> World -> Prop) (E : World -> Prop) w :
  NoDup us -> (forall u, u ∈ us -> u ∈ o_upds (view w)) ->
  (forall w', view w' = (view w) <| o_upds ::= (fun s => s ∖ list_to_set us) |> -> Q tt w') -> wp (for_each us delete_updater) Q E w.
Proof.
  revert w. induction us as [|u us IH]; intros w Hnd Hus HQ; cbn [for_each].
  { apply wp_ret, HQ. unfold view. cbn. by rewrite difference_empty_L. }
  apply NoDup_cons in Hnd as [Hu Hnd]. apply wp_bind, wp_bind, wp_close_conn_fd; [apply Hus; left|]. intros w1 Hw1. apply wp_modify.
  set (w2 := w1 <| w_upds ::= delete u |>).
  assert (Hv : view w2 = (view w) <| o_upds ::= (fun s => s ∖ {[u]}) |>) by (rewrite <- Hw1; unfold view, w2; cbn; by rewrite dom_delete_L).
  apply IH; [done|..].
  - intros u' Hu'. rewrite Hv. cbn -[view]. apply elem_of_difference. split; [apply Hus; by right|]. intros ->%elem_of_singleton. done.
  - intros w' Hw'. apply HQ. rewrite Hw', Hv. unfold view. cbn. by rewrite difference_difference_l_L.
Qed.

Lemma ok_updaters_gone H w w' :
  Ok H [] [] None [] w ->
  view w' = (view w) <| o_upds ::= (fun s => s ∖ list_to_set (o_fin_upds (view w))) |> <| o_fin_upds := [] |> ->
  Ok H [] [] None [] w'.
Proof.
  intros [Hl Hr] Hv. split; rewrite Hv; [by eapply links_same; [exact Hl|..]|].
  destruct Hr as [? ? ? H4 H5 H6 ? (N1 & N2 & N3 & N4 & N5) ? ?]. split; cbn -[view]; try done.
  - intros c b Hb. destruct (H4 c b Hb) as [Hpc ?]. by destruct c.
  - rewrite app_nil_r. intros u Hu. apply NoDup_app in H6 as (_ & Hdis & _). apply elem_of_difference. split.
    + apply H5, elem_of_app. by left.
    + rewrite elem_of_list_to_set. by apply Hdis.
  - rewrite app_nil_r. by apply NoDup_app in H6 as (? & _).
  - split_and!; try done. intros i [Hi _]%elem_of_difference. by apply N5.
  - by intros c []%elem_of_nil.
Qed.

(** An updater that is new to the queues. *)
Definition new_to (u : nat) (g : Graph) : Prop := u ∈ o_upds g /\ u ∉ o_slot_upds g ++ o_fin_upds g.

Lemma wp_new_updater H C addr (Q : nat -> World -> Prop) (E : World -> Prop) w :
  Ok H [] [] None C w -> (forall u w', Ok H [] [] None C w' -> new_to u (view w') -> Q u w') ->
  (forall w', Ok H [] [] None C w' -> E w') -> wp (new_updater addr) Q E w.
Proof.
  intros Hok HQ HE. apply wp_bind, wp_kern; [eauto with kern| |intros k; by apply HE]. intros fd k.
  apply wp_bind, wp_fresh, wp_bind, wp_modify. set (u := w_next (w <| w_kern := k |>)). set (w1 := _ : World).
  assert (Hv : view w1 = (view w) <| o_upds ::= (fun s => {[u]} ∪ s) |> <| o_next ::= S |>) by (unfold view, w1; cbn; by rewrite dom_insert_L).
  assert (Hnew : u ∉ o_upds (view w)).
  { intros Hu. destruct (rg_next _ _ (proj2 Hok)) as (_ & _ & _ & _ & N5). apply N5 in Hu. cbn in Hu. unfold u in Hu. lia. }
  assert (Hok1 : Ok H [] [] None C w1).
  { destruct Hok as [Hl Hr]. split; rewrite Hv; [by eapply links_same; [exact Hl|..]|].
    destruct Hr as [? ? ? H4 H5 ? ? (N1 & N2 & N3 & N4 & N5) H9 ?]. split; cbn -[view]; try done.
    - intros c b Hb. destruct (H4 c b Hb) as [Hpc ?]. by destruct c.
    - intros v Hv'. apply elem_of_union. right. by apply H5.
    - split_and!; intros i; [intros x Hx%N1|intros x Hx%N2|intros x Hx%N3|intros x Hx%N4|]; try lia.
      intros [->%elem_of_singleton|Hi%N5]%elem_of_union; [|lia]. unfold u. cbn. lia.
    - intros c Hc. specialize (H9 c Hc). destruct c; try done. apply elem_of_union. by right. }
  assert (Hlive : forall w', view w' = view w1 -> live (view w') (CUpdater u)) by (intros w' ->; rewrite Hv; cbn; set_solver).
  apply wp_bind. eapply (wp_on_throw _ _ _ _ (fun w' => view w' = view w1)).
  - apply wp_bind, wp_kern; [eauto with kern| |by intros]. intros [] k1. apply wp_bind, wp_kern; [eauto with kern| |by intros]. intros [] k2.
    apply wp_poll_add_rw; [by apply Hlive| |done]. intros w' Hw'. apply wp_ret, HQ; [eapply ok_view; [|exact Hok1]; exact Hw'|].
    assert (Hw1 : view w' = view w1) by exact Hw'. rewrite Hw1, Hv. split; cbn -[view]; [set_solver|].
    intros Hu. by apply Hnew, (rg_upds _ _ (proj2 Hok)).
  - intros w' Hw'. apply wp_bind, wp_close_conn_fd; [by apply Hlive|]. intros w2 Hw2. apply wp_modify, HE.
    eapply (ok_next _ _ _ _ _ w _ (S (o_next (view w)))); [exact Hok|lia|].
    transitivity ((view w2) <| o_upds ::= (fun s => s ∖ {[u]}) |>); [unfold view; cbn; by rewrite dom_delete_L|].
    rewrite Hw2, Hw', Hv. unfold view. cbn. f_equal. cbn in Hnew. set_solver.
Qed.

Lemma ok_add_updater H C u w :
  Ok H [] [] None C w -> new_to u (view w) ->
  Ok H [] [] None C (w <| w_proxy ::= (fun p => p <| _slot_updaters ::= (fun l => l ++ [u]) |>) |>).
Proof.
  intros [Hl Hr] [Hu Hn]. split; [by eapply links_same; [exact Hl|..]|]. destruct Hr as [? ? ? ? H5 H6 ? ? ? ?].
  assert (Hperm : (o_slot_upds (view w) ++ [u]) ++ o_fin_upds (view w) ≡ₚ u :: o_slot_upds (view w) ++ o_fin_upds (view w)) by solve_Permutation.
  split; try done; cbn -[view].
  - intros v. change (_slot_updaters (w_proxy w)) with (o_slot_upds (view w)). change (_finished_slot_updaters (w_proxy w)) with (o_fin_upds (view w)).
    rewrite Hperm, elem_of_cons. intros [->|Hv]; [done|by apply H5].
  - change (_slot_updaters (w_proxy w)) with (o_slot_upds (view w)). change (_finished_slot_updaters (w_proxy w)) with (o_fin_upds (view w)).
    rewrite Hperm. by constructor.
Qed.

Lemma open_updater_inv C addr :
  preserves (Inv C) (try_catch
      (u ← new_updater addr; set_proxy (fun p => p <| _slot_updaters ::= (fun l => l ++ [u]) |>))
      (fun e => match e with ConnectionRefused _ _ _ | UnknownHost _ => Some (mret tt) | _ => None end)).
Proof.
  apply preserves_try.
  - intros w [H' Hok]. apply wp_bind. eapply wp_new_updater; [exact Hok| |intros w' ?; by exists H'].
    intros u w' Hok' Hu. apply wp_modify. exists H'. by apply ok_add_updater.
  - intros e k He. destruct e; try done; injection He as <-; apply preserves_ret.
Qed.

Lemma retrieve_slot_map_inv C : preserves (Inv C) _retrieve_slot_map.
Proof.
  apply preserves_bind; [apply preserves_gets|intros remotes]. case_match; [apply update_failed_inv|].
  apply preserves_bind; [|intros _; apply preserves_bind; [apply preserves_gets|intros us; apply preserves_when, update_failed_inv]].
  apply preserves_for. intros addr _. apply open_updater_inv.
Qed.

(** ** A turn of the loop *)

Lemma wp_inv_weaken C w : Inv C w -> Inv [] w.
Proof. intros [H Hok]. exists H. eapply ok_weaken; [|exact Hok]. by intros c []%elem_of_nil. Qed.

Lemma end_of_turn_inv :
  preserves (Inv [])
    (us ← gets (fun w => _finished_slot_updaters (w_proxy w));
     for_each us delete_updater ;;
     set_proxy (fun p => p <| _finished_slot_updaters := [] |>) ;;
     p ← gets w_proxy;
     when (_should_update_slot_map p) (_retrieve_slot_map ;; poll_ctl) ;;
     p ← gets w_proxy;
     when (_fd_closed p)
       (set_proxy (fun p => p <| _fd_closed := false |>) ;; turn_on_accepting)).
Proof.
  intros w [H Hok]. apply wp_bind, wp_gets, wp_bind, wp_delete_updaters.
  { pose proof (rg_upds_nodup _ _ (proj2 Hok)) as Hnd. by apply NoDup_app in Hnd as (_ & _ & ?). }
  { intros u Hu. apply (rg_upds _ _ (proj2 Hok)), elem_of_app. by right. }
  intros w1 Hw1. apply wp_bind, wp_modify. set (w2 := w1 <| w_proxy ::= _ |>).
  assert (Hok2 : Ok H [] [] None [] w2).
  { eapply (ok_updaters_gone H w); [exact Hok|]. transitivity ((view w1) <| o_fin_upds := [] |>); [done|by rewrite Hw1]. }
  eapply (wp_preserves (Inv [])); [|by exists H|done..].
  apply preserves_bind; [apply preserves_gets|intros p].
  apply preserves_bind; [|intros _; apply preserves_bind; [apply preserves_gets|intros p']].
  - apply preserves_when, preserves_bind; [apply retrieve_slot_map_inv|intros _ w' Hw']. eapply wp_poll_ctl; [exact Hw'|done..].
  - apply preserves_when, preserves_bind; [by apply (preserves_proxy _ (inv_view []))|intros _].
    apply preserves_inv. intros. apply turn_on_accepting_preserves.
Qed.

(** The turn itself, for events of live connections. *)
Lemma wp_handle_events stats events (Q : unit -> World -> Prop) (E : World -> Prop) w :
  Inv (events.*1) w -> (forall w', Inv [] w' -> Q tt w') -> (forall w', Inv [] w' -> E w') ->
  wp (handle_events stats events) Q E w.
Proof.
  intros Hinv HQ HE. pose proof (inv_view (events.*1)) as HI. unfold handle_events. apply wp_bind, wp_gets, wp_bind.
  assert (HE' : forall w', Inv (events.*1) w' -> E w') by (intros w' ?; by eapply HE, wp_inv_weaken).
  eapply (wp_preserves (Inv (events.*1))); [|done| |done].
  { apply preserves_for. intros l _. apply preserves_bind; [by apply (preserves_close_conn_fd _ HI)|intros _]. by apply (preserves_proxy _ HI). }
  intros _ w1 Hinv1. apply wp_bind, wp_modify. apply (inv_view _ w1 (w1 <| w_proxy ::= (fun p => p <| _inactive_long_connections := ∅ |>) |>) eq_refl) in Hinv1.
  apply wp_bind. eapply (wp_process_events (events.*1)); [exact Hinv1| |by intros c []%elem_of_empty| |done].
  { intros c ev Hc. apply list_elem_of_fmap. by exists (c, ev). }
  intros active w2 Hinv2 Hact. apply wp_bind. eapply (wp_poll_ctl (events.*1)); [done| |done].
  intros w3 [H3 Hok3] Hp3. apply wp_bind. eapply wp_after_all; [|apply NoDup_elements|done| |done].
  - exists H3. eapply ok_weaken; [|exact Hok3]. intros c Hc%elem_of_elements. by apply Hact.
  - intros w4 Hinv4. eapply wp_preserves; [apply end_of_turn_inv|exact Hinv4|intros []; apply HQ|done].
Qed.
