(* ===== verification/Answers.v ===== *)
(** * Answers to commands keep the clients' output

    An answer overwrites the buffer of its command and, with the last one of a group, the payload
    of the group.  In a state of the invariant of Safety.v the group of a command without a
    response is not ready, so that no client's output has these buffers. *)
From S2P Require Import Prelude Strings OrderedSet Address SlotCalc Buffer Response SlotMap CommandParser Logic Clean World Kernel Command Server LongConn Client Proxy Concurrence Graph Links Frames Quiet Order Output Delivery Safety SafetyServer SafetyLong SafetyGroup SafetyClient SafetyProxy.
#[local] Open Scope Z_scope.

(** ** From one state *)

(** [c] run from [w] is good, if [w] is. *)
Definition goes {A} (c : W A) (w : World) : Prop :=
  Good None w -> match c w with (Ret _, w') | (Throw _, w') => Good None w' /\ streams None w w' | _ => True end.

Lemma goes_within {A} (c : W A) w : within (good None) c -> goes c w.
Proof. intros Hc HG. specialize (Hc w). destruct (c w) as [[] w']; try done; by apply Hc. Qed.

(** The continuation runs from a state of which [wp] says more. *)
Lemma goes_bind {A B} (c : W A) (f : A -> W B) w :
  goes c w -> wp c (fun a => goes (f a)) (fun _ => True) w -> goes (c ≫= f) w.
Proof.
  intros Hc Hw HG. specialize (Hc HG). unfold wp in Hw. unfold mbind, M_bind. destruct (c w) as [[a|e|k|] w1]; try done.
  destruct Hc as [G1 S1]. specialize (Hw G1). destruct (f a w1) as [[b|e|k|] w2]; try done; destruct Hw as [G2 S2]; (split; [done|by etransitivity]).
Qed.

Lemma goes_deref {A B} p (store : World -> gmap nat A) i (k : A -> W B) w :
  (forall x, store w !! i = Some x -> goes (k x) w) -> goes (deref_obj p store i ≫= k) w.
Proof. intros Hk HG. unfold mbind, M_bind, deref_obj. destruct (store w !! i) as [x|]; [by apply Hk|done]. Qed.

Lemma goes_after {A B} (c : W A) (f : A -> W B) w :
  within (good None) c -> wp c (fun a => goes (f a)) (fun _ => True) w -> goes (c ≫= f) w.
Proof. intros Hc. apply goes_bind. by apply goes_within. Qed.

Lemma goes_first {A B} (c : W A) (f : A -> W B) w : goes c w -> (forall a, within (good None) (f a)) -> goes (c ≫= f) w.
Proof.
  intros Hc Hf HG. specialize (Hc HG). unfold mbind, M_bind. destruct (c w) as [[a|e|k|] w1]; try done. destruct Hc as [G1 S1].
  by apply good_from; [intros _|..].
Qed.

Lemma goes_try {A} (c : W A) h w : goes c w -> (forall e k, h e = Some k -> within (good None) k) -> goes (try_catch c h) w.
Proof.
  intros Hc Hh HG. specialize (Hc HG). unfold try_catch. destruct (c w) as [[a|e|k|] w1]; try done. destruct (h e) as [k|] eqn:Ek; [|done].
  destruct Hc as [G1 S1]. by apply good_from; [intros _|..|eapply Hh].
Qed.

(** ** One answer *)

(** The group that owns the command, and the one it points to, are not ready. *)
Definition in_flight (w : World) (c : nat) : Prop :=
  (forall x, w_cmds w !! c = Some x -> unready w (cmd_group x)) /\
  forall g cls, m_grps (mem_of w) !! g = Some cls -> c ∈ class_commands cls -> unready w g.

Lemma held_in_flight H X L C c w : Ok H X L None C w -> c ∈ H -> in_flight w c.
Proof.
  intros [Hl _] HcH. destruct (lk_held _ _ _ _ _ Hl c HcH) as (gi & gr & cl & (Hc & Hg & Hcl) & _ & [Haw|[[=] _]]).
  assert (Hu : unready w gi).
  { intros i x Hx Hr. pose proof (view_cli _ _ _ Hx) as Hx'. pose proof (group_once _ _ _ _ _ _ _ _ _ Hl Hg Hx' (ready_group (cli_view x) gi Hr)) as <-.
    rewrite Hcl in Hx'. injection Hx' as ->. destruct (lk_cli _ _ _ _ _ Hl _ _ Hcl) as (Hnd & _).
    by destruct (groups_disjoint _ gi Hnd) as [_ Hd]; destruct (Hd Haw). }
  split.
  - intros x Hx. apply view_cmd in Hx. by simplify_eq.
  - intros g cls Hcls Hin. cbn in Hcls. rewrite lookup_fmap in Hcls. apply fmap_Some in Hcls as (y & Hy & ->).
    rewrite <- group_commands_core in Hin. pose proof (proj1 (links_owns _ _ _ _ _ Hl c g (grp_view y) (view_grp _ _ _ Hy)) Hin) as Hg'.
    rewrite Hc in Hg'. by injection Hg' as ->.
Qed.

Lemma goes_set_buffer b v w : (Bufs (mem_of w) (w_next w) -> free_buf w b) -> goes (set_buffer b v) w.
Proof. intros Hb HG. apply (good_set_buffer None b v w); [apply Hb, HG|done]. Qed.

Lemma good_group_responsed cli : within (good None) (group_responsed cli).
Proof. unfold group_responsed. within_step. Qed.
#[export] Hint Resolve good_group_responsed : within.

Lemma set_grp_eq i f x w : w_grps w !! i = Some x -> set_grp i f w = (Ret tt, w <| w_grps ::= <[i := f x]> |>).
Proof. intros Hx. unfold set_grp, get_grp, deref_obj, mbind, M_bind. by rewrite Hx. Qed.

Lemma goes_multi g cli k p cs n w x :
  w_grps w !! g = Some x -> grp_class x = MultipleCommandsGroup k p cs n -> unready w g -> goes (multi_command_responsed g cli k p cs n) w.
Proof.
  intros Hx Hk Hu. set (cls := MultipleCommandsGroup k p cs (n - 1)). set (w1 := w <| w_grps ::= <[g := x <| grp_class := cls |>]> |>).
  assert (Hst : still w w1).
  { split; [done..| |intros i; apply same_cli_refl]. unfold mem_of. cbn. rewrite (fmap_insert_id _ _ _ x); [done|done|]. cbn. by rewrite Hk. }
  apply goes_bind; [intros HG|unfold wp]; rewrite (set_grp_eq g _ x) by done; [by apply still_good|]. fold cls. fold w1.
  destruct (n - 1 =? 0); [|apply goes_within; cbn; within_step]. apply goes_first; [|intros _; within_step].
  apply goes_set_buffer. intros B. eapply (payload_free w1 g (core cls)); [exact B| |done|exact Hu].
  cbn. by rewrite fmap_insert, lookup_insert_eq.
Qed.

Lemma goes_command_responsed g w : unready w g -> goes (command_responsed g) w.
Proof.
  intros Hu. apply goes_deref. intros x Ex.
  destruct (grp_class x) eqn:Ek; try solve [apply goes_within; unfold single_command_responsed; within_step]. by eapply goes_multi.
Qed.

Lemma goes_swap {A} c b w (k : W A) x :
  w_cmds w !! c = Some x -> in_flight w c -> (forall w', w' = w <| w_bufs ::= <[cmd_buffer x := b]> |> -> goes k w') ->
  goes (set_buffer (cmd_buffer x) b ;; k) w.
Proof.
  intros Hx [_ Hf] Hk. apply goes_bind; [|by apply Hk]. apply goes_set_buffer. intros B.
  eapply (command_free w c); [done| |done]. cbn. by rewrite lookup_fmap, Hx.
Qed.

Lemma goes_answer c b w : in_flight w c -> goes (answer c b) w.
Proof.
  intros Hf. apply goes_deref. intros x Ex.
  eapply goes_swap; [exact Ex|done|]. intros w' ->. apply goes_deref. intros x' Ex'. apply goes_command_responsed. by apply (proj1 Hf).
Qed.

Lemma goes_rename_goto c b cls w : in_flight w c -> goes (rename_goto c b cls) w.
Proof.
  intros Hf. apply goes_deref. intros x Ex.
  eapply goes_swap; [exact Ex|done|]. intros w' _. apply goes_within. within_step.
Qed.

Lemma goes_on_remote_responsed c rsp err w : in_flight w c -> goes (on_remote_responsed c rsp err) w.
Proof.
  intros Hf. pose proof (fun b => goes_answer c b w Hf). apply goes_deref. intros x _. unfold rsp_get, rsp_set.
  repeat case_match; auto using goes_rename_goto.
Qed.

Lemma goes_rsp_to r c w : in_flight w c -> goes (rsp_to r c) w.
Proof.
  intros Hf. destruct r; [by apply goes_on_remote_responsed|]. apply goes_within. cbn [rsp_to]. unfold retry_move_ask_command_later. within_step.
Qed.

(** ** The responses of a server *)

Lemma goes_respond svr t rsps done rem H X C w :
  Ok H X [] None C w -> X ≡ₚ omap id done -> has_sent svr (done ++ rem) w -> goes (respond t rsps rem) w.
Proof.
  revert done rem H X w. induction rsps as [|r rsps IH]; intros done rem H X w Hok HX Hs; cbn [respond]; [apply goes_within; within_step|].
  assert (Hassoc : forall o rem', (done ++ [o]) ++ rem' = done ++ o :: rem') by (intros; by rewrite <- app_assoc).
  destruct rem as [|[c|] rem]; [done|..].
  - destruct (ok_take _ _ _ _ _ _ _ _ Hok HX Hs) as (H0 & Hok0). pose proof (held_in_flight _ _ _ _ c w Hok0 ltac:(left)) as Hf.
    destruct (lk_held _ _ _ _ _ (proj1 Hok0) c) as (gi & gr & cl & (Hc & _) & _); [left|].
    apply goes_bind; [by apply goes_rsp_to|]. eapply wp_rsp_to; [exact Hok0|]. intros H' w' Hok' Hss. apply goes_after; [within_step|].
    apply wp_set_cmd; [by rewrite (proj2 Hss), Hc|]. intros x Hx. eapply (IH (done ++ [Some c]) rem H' (c :: X)).
    + eapply ok_view; [|exact Hok']. by apply (set_cmd_view _ _ x).
    + rewrite omap_app, HX. cbn. by rewrite Permutation_cons_append.
    + rewrite Hassoc. exact (sents_has_sent _ _ _ _ Hss Hs).
  - eapply (IH (done ++ [None]) rem H X); [done| |by rewrite Hassoc]. rewrite omap_app, HX. cbn. by rewrite app_nil_r.
Qed.

Lemma goes_recv_from C svr w : Inv C w -> CServer svr ∈ C -> goes (_recv_from svr) w.
Proof.
  intros [H Hok] HC. pose proof (ok_live _ _ _ _ _ _ _ Hok HC) as Hs. unfold _recv_from.
  apply goes_after; [within_step|]. apply wp_get_svr; [done|]. intros s Es.
  apply goes_after; [within_step|]. apply wp_read_fd. intros o b k Ho.
  apply goes_after; [within_step|]. apply wp_set_svr_view; [done..|]. intros w1 Hw1 Hs1. apply (ok_view _ _ _ _ _ _ _ Hw1) in Hok.
  apply goes_after; [within_step|]. apply wp_lift_clean; [done| |done]. intros n _. destruct (n =? 0); [apply goes_within; within_step|].
  apply goes_after; [within_step|]. apply wp_lift_clean; [apply split_server_response_clean| |done]. intros [rsps rest] _.
  apply goes_after; [within_step|]. apply wp_set_svr_view; [by rewrite Hw1|done..|]. intros w2 Hw2 Hs2. apply (ok_view _ _ _ _ _ _ _ Hw2) in Hok.
  case_match; [apply goes_within; within_step|]. apply goes_after; [within_step|]. apply wp_kern; [eauto with kern| |done]. intros t k'.
  apply goes_first; [|intros _; within_step]. eapply (goes_respond svr t rsps [] (_sent_commands s) H []); [exact Hok|done|].
  apply (sents_has_sent _ _ w1); [done|]. apply (sents_has_sent _ _ (w <| w_kern := k |>)); [done|]. unfold has_sent. cbn. by rewrite Es.
Qed.

Lemma goes_server_on_events C svr ev w : Inv C w -> CServer svr ∈ C -> goes (server_on_events svr ev) w.
Proof.
  intros Hinv HC. pose proof (goes_recv_from C svr w Hinv HC) as Hr. unfold server_on_events, catch_bad.
  apply goes_after; [within_step|]. apply wp_is_closed; [destruct Hinv as [H Hok]; exact (ok_live _ _ _ _ _ _ _ Hok HC)|]. intros closed.
  destruct closed; [apply goes_within; within_step|]. case_match; [apply goes_within; within_step|].
  apply goes_first; [|intros [|]; cbn [negb]; within_step]. case_match; [|apply goes_within; within_step].
  apply goes_try; [apply goes_first; [done|intros _; within_step]|]. intros e k. case_match; [|done]. intros [= <-]. within_step.
Qed.

(** ** Slot map updates *)

Section Slots.
Context (C : list Connection).

Lemma goes_answer_all cmds rsp err H w :
  Ok H [] cmds None C w -> goes (for_each cmds (fun c => on_remote_responsed c rsp err)) w.
Proof.
  revert H w. induction cmds as [|c cmds IH]; intros H w Hok; cbn [for_each]; [apply goes_within; within_step|].
  destruct (ok_in_hand _ _ _ _ _ Hok) as [H0 Hok0]. apply goes_bind; [apply goes_on_remote_responsed; eapply held_in_flight; [exact Hok0|left]|].
  eapply wp_on_remote_responsed; [exact Hok0|]. intros H' w' Hok' _. by eapply IH.
Qed.

Lemma goes_give_up H w :
  Ok H [] [] None C w ->
  goes (_move_closed_slot_updaters ;;
      set_glob (fun g => g <| cluster_ok := false |>) ;;
      slot_map_clear ;;
      cmds ← gets (fun w => _retrying_commands (w_proxy w));
      set_proxy (fun p => p <| _retrying_commands := [] |>) ;;
      for_each cmds (fun c => on_remote_responsed c CLUSTERDOWN_RSP true) ;;
      set_proxy (fun p => p <| _slot_map_expired := false |>)) w.
Proof.
  intros Hok. apply goes_after; [within_step|]. eapply wp_preserves; [apply move_closed_preserves|exact Hok| |done]. intros _ w1 Hok1.
  apply goes_after; [within_step|]. apply wp_modify. apply goes_after; [within_step|].
  eapply (wp_slot_map_clear H [] [] None C); [exact Hok1|]. intros w2 Hok2. apply goes_after; [within_step|]. apply wp_gets.
  apply goes_after; [within_step|]. apply wp_modify. apply goes_first; [|intros _; within_step]. eapply (goes_answer_all _ _ _ H).
  destruct Hok2 as [Hl Hr]. split; [|by eapply regs_same; [exact Hr|..]].
  eapply links_refs; [exact Hl|done| |done|by eauto]. rewrite <- (lk_perm _ _ _ _ _ Hl). unfold held. cbn. solve_Permutation.
Qed.

Lemma goes_update_failed w : Inv C w -> goes _update_slot_map_failed w.
Proof.
  intros [H Hok]. unfold _update_slot_map_failed. apply goes_after; [within_step|]. apply wp_gets. set (us := _slot_updaters (w_proxy w)).
  assert (Hus : forall u, u ∈ us -> u ∈ o_upds (view w)) by (intros u Hu; apply (rg_upds _ _ (proj2 Hok)), elem_of_app; by left).
  apply goes_after; [within_step|]. apply wp_any_open; [done|]. intros [|]; [apply goes_within; within_step|].
  apply goes_after; [within_step|]. apply wp_gets. apply goes_after; [within_step|].
  assert (Hgive : forall (Q := fun used : bool => goes (if used then mret tt else
      _move_closed_slot_updaters ;; set_glob (fun g => g <| cluster_ok := false |>) ;; slot_map_clear ;;
      cmds ← gets (fun w => _retrying_commands (w_proxy w)); set_proxy (fun p => p <| _retrying_commands := [] |>) ;;
      for_each cmds (fun c => on_remote_responsed c CLUSTERDOWN_RSP true) ;;
      set_proxy (fun p => p <| _slot_map_expired := false |>))), wp (mret false) Q (fun _ => True) w)
    by (intros Q; apply wp_ret; by eapply goes_give_up).
  destruct us as [|u us'] eqn:Eu; [exact Hgive|]. apply wp_if; intros _; [exact Hgive|].
  apply wp_bind, wp_max_covered; [done|]. intros best Hb. apply wp_bind, wp_get_upd; [done|]. intros x _. apply wp_if; intros _; [exact Hgive|].
  apply wp_bind. eapply (wp_set_slot_map C H); [exact Hok| |done]. intros w1 [H1 Hok1]. apply wp_bind.
  eapply wp_preserves; [apply move_closed_preserves|exact Hok1| |done]. intros _ w2 _. apply wp_ret, goes_within. within_step.
Qed.

(** ** The invariant and the output together *)

Definition both (w w' : World) : Prop := Inv C w -> Good None w -> Inv C w' /\ Good None w' /\ streams None w w'.

#[export] Instance both_preorder : PreOrder both.
Proof.
  split; [intros w Hi HG; by split_and!|]. intros w1 w2 w3 H1 H2 Hi HG. destruct (H1 Hi HG) as (I2 & G2 & S2). destruct (H2 I2 G2) as (I3 & G3 & S3).
  split_and!; [done..|by etransitivity].
Qed.

Lemma both_goes {A} (c : W A) : preserves (Inv C) c -> (forall w, Inv C w -> goes c w) -> within both c.
Proof.
  intros Hi Hc w. destruct (c w) as [[a|e|k|] w'] eqn:E; try done; intros Hw HG; specialize (Hi w Hw); specialize (Hc w Hw HG);
    unfold wp in Hi; rewrite E in Hi, Hc; by destruct Hc.
Qed.

Lemma both_good {A} (c : W A) : preserves (Inv C) c -> within (good None) c -> within both c.
Proof. intros Hi Hc. apply both_goes; [done|]. intros w _. by apply goes_within. Qed.

Lemma both_kept {A} (c : W A) : preserves (Inv C) c -> kept (good None) c -> kept both c.
Proof.
  intros Hi Hc w. specialize (Hc w). destruct (c w) as [[a|e|k|] w'] eqn:E; try done; [|intros Hf]; intros Hw HG; specialize (Hi w Hw);
    unfold wp in Hi; rewrite E in Hi; [destruct (Hc HG)|destruct (Hc Hf HG)]; done.
Qed.
End Slots.
#[export] Hint Extern 4 (within (both _) _) =>
  (apply both_good; [solve [eauto 3 with preserves nocore]|solve [eauto 5 with within nocore]]) : within.

Lemma both_update_failed C : within (both C) _update_slot_map_failed.
Proof. apply both_goes; [apply update_failed_inv|apply goes_update_failed]. Qed.
#[export] Hint Resolve both_update_failed : within.

Lemma both_notify C nodes remotes covered : within (both C) (notify_slot_map_updated nodes remotes covered).
Proof.
  unfold notify_slot_map_updated. case_match; [apply both_update_failed|]. apply both_good; [|within_step].
  apply preserves_bind; [intros w [H' Hok]; by eapply wp_set_slot_map|intros _]. apply preserves_inv. intros. apply move_closed_preserves.
Qed.
#[export] Hint Resolve both_notify : within.

Section Updaters.
Context (C : list Connection) (u : nat) (HC : CUpdater u ∈ C).
#[local] Hint Resolve get_upd_inv set_upd_inv upd_poll_ro_inv : preserves.

Lemma both_set_upd f : within (both C) (set_upd u f).
Proof. apply both_good; [by apply set_upd_inv|]. within_step. Qed.
#[local] Hint Resolve both_set_upd : within.

Lemma both_notify_updated : within (both C) (_notify_updated u).
Proof.
  unfold _notify_updated. apply within_bind; [typeclasses eauto| |intros _; within_step].
  apply both_good; [|within_step]. apply (preserves_close_conn_fd _ (inv_view C)). by apply upd_live.
Qed.

Lemma both_recv_rsp : within (both C) (_recv_rsp u).
Proof.
  pose proof both_notify_updated. unfold _recv_rsp. apply within_bind; [typeclasses eauto|within_step|intros x].
  apply within_bind; [typeclasses eauto| |intros [o b]].
  { apply both_good; [|within_step]. intros w Hw. apply wp_read_fd. intros o b k _. by eapply inv_view. }
  within_step.
Qed.

Lemma both_updater_on_events ev : within (both C) (updater_on_events u ev).
Proof.
  pose proof both_notify_updated. pose proof both_recv_rsp. unfold updater_on_events, catch_bad.
  case_match; [done|]. case_match; [|within_step; by case_match; simplify_eq]. apply both_good; [|unfold _send_cmd; within_step].
  apply preserves_bind; [by apply get_upd_inv|intros x].
  apply preserves_bind; [apply (preserves_kern _ (inv_view C)); eauto with kern|intros _; by apply upd_poll_ro_inv].
Qed.
End Updaters.

(** ** Events *)

Section Loop.
Context (C : list Connection).

Lemma both_on_events stats c ev : c ∈ C -> kept (both C) (on_events stats c ev).
Proof.
  intros Hc. pose proof (on_events_inv C stats c ev Hc) as Hi. destruct c; cbn [on_events] in *.
  - apply both_kept; [done|apply good_client_on_events].
  - apply kept_within, both_goes; [done|]. intros w Hw. by eapply goes_server_on_events.
  - apply kept_within, both_good; [done|within_step].
  - apply kept_within, both_good; [done|within_step].
  - apply kept_within. by apply both_updater_on_events.
  - apply kept_within, both_good; [done|]. unfold acceptor_on_events. within_step.
Qed.

Lemma both_conn_on_error c : c ∈ C -> within (both C) (conn_on_error c).
Proof.
  intros Hc. pose proof (conn_on_error_inv C c Hc) as Hi. destruct c; cbn [conn_on_error] in *; try solve [apply both_good; [done|within_step]].
  by apply both_notify_updated.
Qed.

Lemma both_process_events stats events closed active :
  (forall c ev, (c, ev) ∈ events -> c ∈ C) -> kept (both C) (process_events stats events closed active).
Proof.
  revert closed active. induction events as [|[c ev] events IH]; intros closed active Hev; cbn [process_events]; [apply kept_within; within_step|].
  assert (Hc : c ∈ C) by (eapply Hev; left). assert (Hev' : forall c ev, (c, ev) ∈ events -> c ∈ C) by (intros ? ? ?; eapply Hev; by right).
  case_match; [by apply IH|]. apply kept_bind; [typeclasses eauto| |intros failed; by apply IH].
  apply kept_try; [typeclasses eauto|apply kept_bind; [typeclasses eauto|by apply both_on_events|intros _; apply kept_within; within_step]|].
  intros e k. destruct (is_io_error_base e) eqn:Ee; [|done]. intros [= <-]. split; [unfold fatal; by rewrite Ee, orb_true_r|].
  apply kept_within. apply within_bind; [typeclasses eauto|by apply both_conn_on_error|intros _; within_step].
Qed.
End Loop.

Lemma both_retrieve C : within (both C) _retrieve_slot_map.
Proof.
  unfold _retrieve_slot_map. apply within_bind; [typeclasses eauto|within_step|intros remotes]. case_match; [within_step|].
  apply within_bind; [typeclasses eauto| |intros _; within_step]. apply within_for; [typeclasses eauto|]. intros addr.
  apply both_good; [apply open_updater_inv|within_step].
Qed.

(** ** A turn of the loop *)

(** [goes], where the computation returns. *)
Definition settles {A} (c : W A) (w : World) : Prop :=
  Good None w -> match c w with (Ret _, w') => Good None w' /\ streams None w w' | _ => True end.

Lemma settles_goes {A} (c : W A) w : goes c w -> settles c w.
Proof. intros Hc HG. specialize (Hc HG). by destruct (c w) as [[] ?]. Qed.

Lemma settles_kept {A} C (c : W A) w : kept (both C) c -> Inv C w -> settles c w.
Proof. intros Hc Hi HG. specialize (Hc w). destruct (c w) as [[] w']; try done. by destruct (Hc Hi HG) as (_ & ? & ?). Qed.

Lemma settles_bind {A B} (c : W A) (f : A -> W B) w :
  settles c w -> wp c (fun a => settles (f a)) (fun _ => True) w -> settles (c ≫= f) w.
Proof.
  intros Hc Hw HG. specialize (Hc HG). unfold wp in Hw. unfold mbind, M_bind. destruct (c w) as [[a|e|k|] w1]; try done.
  destruct Hc as [G1 S1]. specialize (Hw G1). destruct (f a w1) as [[b|e|k|] w2]; try done. destruct Hw as [G2 S2]. split; [done|by etransitivity].
Qed.

Lemma settles_after {A B} (c : W A) (f : A -> W B) w :
  within (good None) c -> wp c (fun a => settles (f a)) (fun _ => True) w -> settles (c ≫= f) w.
Proof. intros Hc. apply settles_bind. by apply settles_goes, goes_within. Qed.

Lemma settles_end w :
  Inv [] w ->
  settles
    (us ← gets (fun w => _finished_slot_updaters (w_proxy w));
     for_each us delete_updater ;;
     set_proxy (fun p => p <| _finished_slot_updaters := [] |>) ;;
     p ← gets w_proxy;
     when (_should_update_slot_map p) (_retrieve_slot_map ;; poll_ctl) ;;
     p ← gets w_proxy;
     when (_fd_closed p)
       (set_proxy (fun p => p <| _fd_closed := false |>) ;; turn_on_accepting)) w.
Proof.
  intros [H Hok]. apply settles_after; [within_step|]. apply wp_gets. apply settles_after; [unfold delete_updater; within_step|]. apply wp_delete_updaters.
  { pose proof (rg_upds_nodup _ _ (proj2 Hok)) as Hnd. by apply NoDup_app in Hnd as (_ & _ & ?). }
  { intros u Hu. apply (rg_upds _ _ (proj2 Hok)), elem_of_app. by right. }
  intros w1 Hw1. apply settles_after; [within_step|]. apply wp_modify. set (w2 := w1 <| w_proxy ::= _ |>).
  assert (Hok2 : Ok H [] [] None [] w2).
  { eapply (ok_updaters_gone H w); [exact Hok|]. transitivity ((view w1) <| o_fin_upds := [] |>); [done|by rewrite Hw1]. }
  apply settles_after; [within_step|]. apply wp_gets. apply settles_goes. apply goes_first; [|intros _; within_step].
  destruct (_should_update_slot_map _); [|apply goes_within; cbn; within_step]. cbn [when].
  apply goes_first; [|intros _; within_step]. intros HG. pose proof (both_retrieve [] w2) as Hr.
  destruct (_retrieve_slot_map w2) as [[] w3]; try done; destruct (Hr ltac:(by exists H) HG) as (_ & ? & ?); done.
Qed.

Lemma settles_handle_events stats events w : Inv (events.*1) w -> settles (handle_events stats events) w.
Proof.
  intros Hinv. pose proof (inv_view (events.*1)) as HI. unfold handle_events. apply settles_after; [within_step|]. apply wp_gets.
  apply settles_after; [within_step|]. eapply (wp_preserves (Inv (events.*1))); [|done| |done].
  { apply preserves_for. intros l _. apply preserves_bind; [by apply (preserves_close_conn_fd _ HI)|intros _]. by apply (preserves_proxy _ HI). }
  intros _ w1 Hinv1. apply settles_after; [within_step|]. apply wp_modify. set (w1' := w1 <| w_proxy ::= _ |>).
  assert (Hinv1' : Inv (events.*1) w1') by (by eapply inv_view; [|exact Hinv1]).
  assert (Hev : forall c ev, (c, ev) ∈ events -> c ∈ events.*1) by (intros c ev Hc; apply list_elem_of_fmap; by exists (c, ev)).
  apply settles_bind; [by apply (settles_kept (events.*1)), Hinv1'; apply both_process_events|].
  eapply (wp_process_events (events.*1)); [exact Hinv1'|done|by intros c []%elem_of_empty| |done].
  intros active w2 Hinv2 Hact. apply settles_after; [within_step|]. eapply (wp_poll_ctl (events.*1)); [done| |done].
  intros w3 [H3 Hok3] Hp3. apply settles_after; [within_step|]. eapply wp_after_all; [|apply NoDup_elements|done| |done].
  - exists H3. eapply ok_weaken; [|exact Hok3]. intros c Hc%elem_of_elements. by apply Hact.
  - intros w4 Hinv4. by apply settles_end.
Qed.
