(* ===== verification/Scenarios.v ===== *)
(** * Runs of the whole proxy

    Executions of [handle_events] from the start of the process, evaluated: the proxy
    learns the slot map, serves clients end to end, retries and renames, and sequences of events that a client, a
    server or the system can cause and that end in a crash, a use after free, a leak, or with a client that
    waits for ever. *)
From S2P Require Import Prelude Strings Address SlotCalc Buffer SlotMap CommandParser World Kernel Command Server LongConn Client Proxy Concurrence.
#[local] Open Scope Z_scope.

(** ** A cluster of one node *)

Definition node_addr1 : Address := mkAddress (s2b "10.0.0.1") 7000.

(** A descriptor whose reads give [l], and which accepts writes of up to 600 bytes. *)
Definition scripted (l : list bytes) : chan := mkChan (Rd <$> l) (repeat (Wr 600) 20) [].

Definition bulk_reply (t : bytes) : bytes := s2b "$" ++ str (zlen t) ++ crlf ++ t ++ crlf.
Definition nodes_reply : bytes :=
  bulk_reply (s2b "id1 10.0.0.1:7000 master - 0 0 1 connected 0-16383" ++ [LF]).

(** Descriptors in the order the proxy opens them: 3 listens, 4 asks for the slot map, 5
    is the node's server connection, 6 the next connection to it; 10 is the client. *)
Definition kernel_of (client server next : list bytes) : Kernel :=
  mkKernel ∅ ∅
    [SockFd 3 (scripted []); SockFd 4 (scripted [nodes_reply]); SockFd 5 (scripted server);
     SockFd 6 (scripted next); SockFd 7 (scripted [])]
    [] [AccFd 10 (scripted client)] [] [] [7] [1; 2; 3; 4; 5; 6; 7; 8; 9].

Definition globals_of : Globals :=
  (initial_globals (allow_write_commands initial_tables)) <| remote_addrs := [node_addr1] |>.

Definition no_stats (_ : World) : option bytes := Some [].

(** Names of the objects, in the order of their allocation. *)
Definition the_updater : nat := 1.
Definition the_server : nat := 9.
Definition the_client : nat := 10.

(** Start, ask for the slot map, receive it, accept the client; then the events of each turn. *)
Definition run (turns : list (list (Connection * Z))) : W unit :=
  start_proxy 8889 ;;
  for_each
    ([[]; [(CUpdater the_updater, EPOLLOUT)]; [(CUpdater the_updater, EPOLLIN)]; [(CAcceptor, EPOLLIN)]] ++ turns)
    (handle_events no_stats).

Definition outcome_of (client server next : list bytes) (turns : list (list (Connection * Z))) :
    outcome unit * World :=
  run turns (initial_world globals_of (kernel_of client server next)).

Definition sent_to (fd : Z) (w : World) : bytes :=
  match k_chans (w_kern w) !! fd with Some c => ch_sent c | None => [] end.


(** A node that answers each request in a turn of its own. *)
Definition answering (l : list bytes) : chan := mkChan (concat ((fun b => [Rd b; RdErr EAGAIN]) <$> l)) (repeat (Wr 600) 20) [].

Definition outcome_answering (client : bytes) (server next : list bytes) (turns : list (list (Connection * Z))) : outcome unit * World :=
  run turns (initial_world globals_of ((kernel_of [client] [] []) <| k_sockets :=
    [SockFd 3 (scripted []); SockFd 4 (scripted [nodes_reply]); SockFd 5 (answering server); SockFd 6 (scripted next)] |>)).



(** ** Long connections *)

Definition subscribe_req : bytes := crlf_lines ["*2"; "$9"; "SUBSCRIBE"; "$1"; "a"].





(** ** Exceptions that leave the loop *)

(** A malformed reply to a blocking pop stops the process: nothing on the way from
    [BlockedListPop::ServerConn::on_events] catches the [BadRedisMessage]. *)
Theorem blocked_reply_aborts :
  let w := (outcome_of [crlf_lines ["*3"; "$5"; "BLPOP"; "$1"; "a"; "$1"; "0"]] [] [s2b "?x"] [[(CClient the_client, EPOLLIN)]]).2 in
  (thread_run no_stats [WaitEvents [(CLongServer 12, EPOLLIN)]; WaitEvents []] w).1 = Aborted.
Proof. vm_compute. reflexivity. Qed.

(** Running out of descriptors stops the process: where [_retrieve_slot_map] finds no socket for
    a slot map updater it catches [ConnectionRefused] and [UnknownHost] only, and the [IOError]
    leaves the loop. *)
Theorem no_descriptor_aborts (errno : Z) (others : list accept_res) :
  let k := mkKernel ∅ ∅ [SockFd 3 (scripted []); SockErr errno] [] others [] [] [] [] in
  let '(o, w) := start_proxy 8889 (initial_world globals_of k) in
  o = Ret tt /\ (thread_run no_stats [WaitEvents []] w).1 = Aborted.
Proof. vm_compute. done. Qed.

(** ** A response before its request *)


(** ** Lost wake-ups *)


(** A client that reads slowly: its socket takes 600 bytes, is full once, and then takes the rest. *)
Definition pings (n : nat) : bytes := concat (repeat (crlf_lines ["*1"; "$4"; "PING"]) n).
Definition slow_client : chan :=
  mkChan (concat ((fun n => [Rd (pings n); RdErr EAGAIN]) <$> [64; 64; 64; 64; 1; 1]%nat)) ([Wr 600; WrErr EAGAIN] ++ repeat (Wr 600) 20) [].

