(* ===== verification/Reach.v ===== *)
(** * What holds in every state the proxy can reach

    The states between the turns of a thread's loop, from the start of the process, for all
    that clients, servers and the kernel can do.  The theorems are about these states and
    about the turn that starts in one of them. *)
From S2P Require Import Prelude Strings OrderedSet Address SlotCalc Buffer Response SlotMap CommandParser Logic World Kernel Command Server LongConn Client Proxy Concurrence Epoll EpollOps Graph Links Frames Safety SafetyServer SafetyLong SafetyGroup SafetyClient SafetyProxy Scenarios.
#[local] Open Scope Z_scope.

(** ** The step relation *)

(** What happens between two turns: the kernel learns new results of its calls, and the other
    threads may ask for a slot map update, be asked for one, or set the shared globals. *)
Record meanwhile (w w' : World) : Prop := {
  mw_world : w' = w <| w_kern := w_kern w' |> <| w_proxy := w_proxy w' |> <| w_glob := w_glob w' |>;
  mw_epoll : k_epoll (w_kern w') = k_epoll (w_kern w);
  mw_kern : descriptors_ok (w_kern w');
  mw_proxy : exists b, w_proxy w' = (w_proxy w) <| _slot_map_expired := b |>;
  mw_glob : exists r ok fl, w_glob w' = (w_glob w) <| remote_addrs := r |> <| cluster_ok := ok |> <| other_threads := fl |>
}.

(** [epoll_wait] returns connections of the epoll set, at most [MAX_EVENTS], with any events. *)
Definition delivers (k : Kernel) (r : wait_res) : Prop :=
  match r with
  | WaitEvents events =>
    (length events <= MAX_EVENTS)%nat /\ forall c ev, (c, ev) ∈ events -> exists fd rw, k_epoll k !! fd = Some (c, rw)
  | WaitErr _ => True
  end.

(** [stats], the text of the statistics, may be another one in each turn. *)
Inductive reachable : World -> Prop :=
  | reach_start g k port :
      servers_map g = ∅ -> servers_pool g = [] -> descriptors_ok k -> k_epoll k = ∅ ->
      (start_proxy port (initial_world g k)).1 = Ret tt ->
      reachable (start_proxy port (initial_world g k)).2
  | reach_turn stats w w' r :
      reachable w -> meanwhile w w' -> delivers (w_kern w') r ->
      (thread_turn stats r w').1 = Ret tt -> reachable (thread_turn stats r w').2.

(** ** The invariant holds *)

Lemma initial_links g k : Links [] [] [] None (view (initial_world g k)).
Proof.
  assert (He : forall {A} i (x : A), (∅ : gmap nat A) !! i <> Some x) by (intros; rewrite lookup_empty; done).
  split; cbn; try (intros *; rewrite fmap_empty; intros H; by destruct (He _ _ _ H)); try (intros *; rewrite ?fmap_empty; by intros []%elem_of_nil).
  - unfold held, svr_held. cbn. by rewrite fmap_empty, map_to_list_empty.
  - constructor.
Qed.

Lemma initial_regs g k : servers_map g = ∅ -> servers_pool g = [] -> Regs [] (view (initial_world g k)).
Proof.
  intros Hm Hp. assert (He : forall {A} i (x : A), (∅ : gmap nat A) !! i <> Some x) by (intros; rewrite lookup_empty; done).
  split; cbn; rewrite ?Hm, ?Hp, ?fmap_empty, ?dom_empty_L; try done; try (by intros ? []%elem_of_nil).
  constructor.
Qed.

Lemma start_inv g k port :
  servers_map g = ∅ -> servers_pool g = [] -> (start_proxy port (initial_world g k)).1 = Ret tt ->
  Inv [] (start_proxy port (initial_world g k)).2.
Proof.
  intros Hm Hp Hret.
  assert (Hw : wp (start_proxy port) (fun _ => Inv []) (fun _ => True) (initial_world g k)).
  { assert (Hok : forall w', view w' = view (initial_world g k) -> Ok [] [] [] None [] w').
    { intros w' Hv. split; rewrite Hv; [apply initial_links|by apply initial_regs]. }
    apply wp_bind, wp_kern; [eauto with kern| |done]. intros [] k0.
    apply wp_bind, wp_kern; [eauto with kern| |done]. intros fd k1.
    apply wp_bind, wp_kern; [eauto with kern| |done]. intros [] k2.
    apply wp_bind, wp_kern; [eauto with kern| |done]. intros [] k3.
    apply wp_bind, wp_modify. eapply wp_preserves; [apply turn_on_accepting_preserves|by apply Hok|intros [] w' ?; by exists []|done]. }
  unfold wp in Hw. destruct (start_proxy port (initial_world g k)) as [[] w]; done.
Qed.

Lemma start_polled g k port :
  descriptors_ok k -> k_epoll k = ∅ -> Polled None (start_proxy port (initial_world g k)).2.
Proof.
  intros Hk He. assert (Hst : stable None (start_proxy port)).
  { unfold start_proxy, bind_to. stable_step. all: by apply stable_set_kern. }
  apply Hst. split; try done; cbn; rewrite ?He.
  - intros fd c rw. by rewrite lookup_empty.
  - intros i [? []%lookup_empty_Some].
  - intros i [? []%lookup_empty_Some].
Qed.

Lemma meanwhile_view w w' : meanwhile w w' -> view w' = view w.
Proof. intros [Hw _ _ (b & Hp) (r & ok & fl & Hg)]. rewrite Hw, Hp, Hg. done. Qed.

Lemma meanwhile_polled w w' : meanwhile w w' -> Polled None w -> Polled None w'.
Proof.
  intros [Hw He Hk (b & Hp) (r & ok & fl & Hg)] HP. pose proof (polled_kern None w (w_kern w') HP Hk) as H1.
  rewrite Hw. eapply polled_same; [apply H1; rewrite He; auto|done..|apply groups_kept_refl].
Qed.

(** The connections of the events are live. *)
Lemma delivers_live w events :
  Inv [] w -> Polled None w -> delivers (w_kern w) (WaitEvents events) -> Inv (events.*1) w.
Proof.
  intros [H Hok] HP [_ Hd]. exists H. rewrite <- (app_nil_r events.*1). apply ok_extend; [done|].
  intros c ([c' ev] & -> & Hin)%list_elem_of_fmap. destruct (Hd _ _ Hin) as (fd & rw & Hfd).
  pose proof (pl_entry _ _ HP _ _ _ Hfd) as He. cbn [fst]. destruct c' as [i|i|i|i|i|]; cbn in *; try done.
  - apply fmap_Some in He as (x & Hx & _). rewrite lookup_fmap, Hx. by eexists.
  - destruct He as [x Hx]. rewrite lookup_fmap, Hx. by eexists.
  - apply fmap_Some in He as (x & Hx & _). by eapply elem_of_dom_2.
Qed.

Lemma wp_thread_turn stats r w :
  Inv [] w -> Polled None w -> delivers (w_kern w) r ->
  wp (thread_turn stats r) (fun _ w' => Inv [] w') (fun w' => Inv [] w') w.
Proof.
  intros Hinv HP Hd. unfold thread_turn. destruct r as [events|e]; cbn [poll_wait].
  - apply wp_bind, wp_ret. apply wp_handle_events; [by apply delivers_live|done..].
  - destruct (e =? EINTR); [|done]. apply wp_bind, wp_ret. apply wp_handle_events; done.
Qed.

Lemma reachable_inv w : reachable w -> Inv [] w /\ Polled None w.
Proof.
  induction 1 as [g k port Hm Hp Hk He Hret|stats w w' r _ [IH1 IH2] Hmw Hd Hret].
  - split; [by apply start_inv|by apply start_polled].
  - assert (Hinv : Inv [] w') by (eapply inv_view; [by apply meanwhile_view|done]).
    assert (HP : Polled None w') by (by eapply meanwhile_polled). split.
    + pose proof (wp_thread_turn stats r w' Hinv HP Hd) as Hw. unfold wp in Hw.
      destruct (thread_turn stats r w') as [[] w'']; cbn in *; done.
    + apply stable_bind; [apply stable_lift|intros events; apply stable_handle_events|done].
Qed.

(** ** Unanswered commands *)

(** The commands the proxy is to retry and those the servers hold, sent or not. *)
Definition unanswered (w : World) : list nat := held (view w).

(** Those of a group. *)
Definition pending (w : World) (gi : nat) : list nat :=
  filter (fun c => cmd_group <$> (w_cmds w !! c) = Some gi) (unanswered w).

Lemma pending_out w gi : length (pending w gi) = out (o_cmds (view w)) (unanswered w) gi.
Proof. unfold pending, out. f_equal. apply filter_ext_in. intros c _. cbn. by rewrite lookup_fmap. Qed.

Lemma pending_nil w gi : pending w gi = [] <-> out (o_cmds (view w)) (unanswered w) gi = 0%nat.
Proof. rewrite <- pending_out. by rewrite length_zero_iff_nil. Qed.

(** The invariant with [unanswered] for the commands without a response. *)
Lemma reachable_links w : reachable w -> Links (unanswered w) [] [] None (view w).
Proof.
  intros [[H [Hl _]] _]%reachable_inv. eapply links_perm; [|done..|exact Hl].
  pose proof (lk_perm _ _ _ _ _ Hl) as Hp. rewrite !app_nil_r in Hp. by symmetry.
Qed.

(** ** A run to a state in which a client waits *)

Definition deliverable (w : World) (events : list (Connection * Z)) : bool :=
  (length events <=? MAX_EVENTS)%nat &&
  forallb (fun e => bool_decide (e.1 ∈ ((map_to_list (k_epoll (w_kern w))).*2).*1)) events.

Lemma meanwhile_nothing w : reachable w -> meanwhile w w.
Proof.
  intros [_ HP]%reachable_inv. split; [by destruct w|done|apply HP|..].
  - exists (_slot_map_expired (w_proxy w)). by destruct (w_proxy w).
  - exists (remote_addrs (w_glob w)), (cluster_ok (w_glob w)), (other_threads (w_glob w)). by destruct (w_glob w).
Qed.

Lemma deliverable_delivers w events : deliverable w events = true -> delivers (w_kern w) (WaitEvents events).
Proof.
  intros [Hlen%Nat.leb_le Hall]%andb_true_iff. rewrite forallb_forall in Hall. split; [done|]. intros c ev Hin%list_elem_of_In.
  specialize (Hall _ Hin). cbn in Hall. apply bool_decide_eq_true, list_elem_of_fmap in Hall as ([c' rw] & -> & Hc).
  apply list_elem_of_fmap in Hc as ([fd e] & He & Hc). apply elem_of_map_to_list in Hc. cbn in He. subst e. by exists fd, rw.
Qed.

Lemma reach_events stats w events :
  reachable w -> deliverable w events = true -> (thread_turn stats (WaitEvents events) w).1 = Ret tt ->
  reachable (thread_turn stats (WaitEvents events) w).2.
Proof. intros Hr Hd Hret. eapply reach_turn; [exact Hr|by eapply meanwhile_nothing|by apply deliverable_delivers|done]. Qed.

(** A slot map that covers the slots of the keys k, a and b is learnt, which is enough for a proxy that does
    not require full coverage, and a client has sent a GET, an MGET of two keys and a PING. *)
Definition waiting_turns : list (list (Connection * Z)) :=
  [[]; [(CUpdater the_updater, EPOLLOUT)]; [(CUpdater the_updater, EPOLLIN)]; [(CAcceptor, EPOLLIN)]; [(CClient the_client, EPOLLIN)]].

Definition three_slots_reply : bytes :=
  bulk_reply (s2b "id1 10.0.0.1:7000 master - 0 0 1 connected 3300 7629 15495" ++ [LF]).

Definition waiting_start : World :=
  (start_proxy 8889 (initial_world (globals_of <| req_full_cov := false |>)
    ((kernel_of [crlf_lines ["*2"; "$3"; "GET"; "$1"; "k"; "*3"; "$4"; "MGET"; "$1"; "a"; "$1"; "b"; "*1"; "$4"; "PING"]] [] [])
      <| k_sockets := [SockFd 3 (scripted []); SockFd 4 (scripted [three_slots_reply]);
                       SockFd 5 (scripted [crlf_lines ["$1"; "v"; "$-1"; "$2"; "bb"]])] |>))).2.

Definition after_turns (w : World) (turns : list (list (Connection * Z))) : World :=
  foldl (fun w events => (thread_turn no_stats (WaitEvents events) w).2) w turns.

Fixpoint turns_ok (w : World) (turns : list (list (Connection * Z))) : bool :=
  match turns with
  | [] => true
  | events :: turns' =>
    deliverable w events &&
    match thread_turn no_stats (WaitEvents events) w with
    | (Ret _, w') => turns_ok w' turns'
    | _ => false
    end
  end.

Lemma reach_turns w turns : reachable w -> turns_ok w turns = true -> reachable (after_turns w turns).
Proof.
  revert w. induction turns as [|events turns IH]; intros w Hr Hok; [done|]. cbn in Hok |- *.
  apply andb_true_iff in Hok as [Hd Hok]. pose proof (reach_events no_stats w events Hr Hd) as Hre.
  destruct (thread_turn no_stats (WaitEvents events) w) as [[[]| | |] w']; try done. by apply IH, Hok; apply Hre.
Qed.

Definition waiting_world : World := after_turns waiting_start waiting_turns.

Lemma waiting_start_reachable : reachable waiting_start.
Proof.
  apply reach_start; [done..| |done|by vm_compute]. split_and!; [done..| |]; intros fd c Hin%list_elem_of_In;
    cbn -[scripted] in Hin; intros ->; intuition congruence.
Qed.

Lemma waiting_reachable : reachable waiting_world.
Proof. apply reach_turns; [apply waiting_start_reachable|]. vm_compute. reflexivity. Qed.

(** The node has answered the three requests. *)
Definition answered_world : World :=
  after_turns waiting_world [[(CServer the_server, EPOLLOUT)]; [(CServer the_server, EPOLLIN)]].

Lemma answered_reachable : reachable answered_world.
Proof. apply reach_turns; [apply waiting_reachable|]. vm_compute. reflexivity. Qed.

(** ** The theorems *)

(** C10. Every request is answered or on its way, once: in a reachable state, no command is held twice
    by the servers' queues and the proxy's retry queue, and each one that is held belongs to a
    group that its client waits for. *)
Theorem unanswered_once (w : World) :
  reachable w ->
  NoDup (unanswered w) /\
  forall c, c ∈ unanswered w -> exists cmd g cl,
    w_cmds w !! c = Some cmd /\ w_grps w !! cmd_group cmd = Some g /\ c ∈ group_commands g /\
    w_clis w !! grp_client g = Some cl /\ cmd_group cmd ∈ _awaiting_groups cl.
Proof.
  intros Hl%reachable_links. split; [apply (lk_nodup _ _ _ _ _ Hl)|]. intros c Hc.
  destruct (lk_held _ _ _ _ _ Hl c Hc) as (gi & gr & cl & (Hci & Hg & Hcl) & _ & [Haw|[[=] _]]).
  pose proof (links_owns _ _ _ _ _ Hl c gi gr Hg) as Hown.
  destruct (view_cmd_inv _ _ _ Hci) as (x & Hx & <-). destruct (view_grp_inv _ _ _ Hg) as (y & Hy & <-).
  destruct (view_cli_inv _ _ _ Hcl) as (z & Hz & <-). exists x, y, z. split_and!; try done. by apply Hown.
Qed.

Lemma unanswered_once_witness : unanswered waiting_world = [13; 17; 19]%nat /\ NoDup (unanswered waiting_world).
Proof. split; [vm_compute; reflexivity|]. exact (proj1 (unanswered_once waiting_world waiting_reachable)). Defined.

(** C9. [_awaiting_count] is exact: in a reachable state a client waits for as many groups as have a
    command without a response, no more and no fewer, so that it neither answers early nor
    waits for ever on its own count. *)
Theorem awaiting_count_exact (w : World) (ci : nat) (cl : Client) :
  reachable w -> w_clis w !! ci = Some cl ->
  _awaiting_count cl = Z.of_nat (length (filter (fun gi => pending w gi <> []) (_awaiting_groups cl))).
Proof.
  intros Hl%reachable_links Hcl. pose proof (lk_count _ _ _ _ _ Hl _ _ (view_cli _ _ _ Hcl)) as Hc.
  cbn [cli_view c_count c_awaiting cur_in] in Hc. rewrite Hc, Z.add_0_r. unfold pend. do 2 f_equal. apply filter_ext_in. intros gi _. by rewrite pending_nil.
Qed.

Lemma awaiting_count_exact_witness :
  exists cl, w_clis waiting_world !! the_client = Some cl /\ _awaiting_count cl = 2 /\
    _awaiting_count cl = Z.of_nat (length (filter (fun gi => pending waiting_world gi <> []) (_awaiting_groups cl))).
Proof.
  eexists. split; [vm_compute; reflexivity|]. split; [reflexivity|].
  apply (awaiting_count_exact waiting_world the_client); [apply waiting_reachable|vm_compute; reflexivity].
Defined.

(** A group of several commands counts the responses it still waits for: those of its commands
    that are without one. *)
Theorem multi_count_exact (w : World) (gi ci : nat) g k payload cs n cl :
  reachable w -> w_grps w !! gi = Some g -> grp_class g = MultipleCommandsGroup k payload cs n ->
  w_clis w !! ci = Some cl -> gi ∈ _awaiting_groups cl -> n = zlen (pending w gi).
Proof.
  intros Hl%reachable_links Hg Hk Hcl Hin. pose proof (view_grp _ _ _ Hg) as Hgr. pose proof (view_cli _ _ _ Hcl) as Hcl'.
  pose proof (group_once _ _ _ _ _ _ _ _ _ Hl Hgr Hcl' (awaiting_group (cli_view cl) gi Hin)) as Hown.
  destruct (lk_multi _ _ _ _ _ Hl gi (grp_view g) (cli_view cl) n Hgr) as [Hm _]; [cbn; by rewrite Hk|by rewrite Hown|].
  unfold zlen. rewrite pending_out. by apply Hm.
Qed.

Lemma multi_count_exact_witness : 2 = zlen (pending waiting_world 14).
Proof.
  eapply (multi_count_exact waiting_world 14 the_client); [apply waiting_reachable|vm_compute; reflexivity|reflexivity|
    vm_compute; reflexivity|]. apply (bool_decide_eq_true_1 (14%nat ∈ [11; 14; 20]%nat)). reflexivity.
Defined.

(** C17. No response is sent early: a group whose output is queued for the client has no command
    without a response. *)
Theorem ready_groups_answered (w : World) (ci : nat) (cl : Client) (gi : nat) :
  reachable w -> w_clis w !! ci = Some cl -> gi ∈ _ready_groups cl -> pending w gi = [].
Proof.
  intros Hl%reachable_links Hcl Hin. apply pending_nil. pose proof (view_cli _ _ _ Hcl) as Hcl'.
  destruct (decide (out (o_cmds (view w)) (unanswered w) gi = 0%nat)) as [|Hn]; [done|].
  destruct (pending_group _ _ _ _ _ _ _ _ Hl Hcl' (ready_group (cli_view cl) gi Hin) Hn) as [Haw|[[=] _]].
  destruct (lk_cli _ _ _ _ _ Hl _ _ Hcl') as (Hnd & _). by destruct (groups_disjoint _ gi Hnd) as [_ Hd]; destruct (Hd Haw).
Qed.

Lemma ready_groups_answered_witness : pending answered_world 14 = [].
Proof.
  eapply (ready_groups_answered answered_world the_client); [apply answered_reachable|vm_compute; reflexivity|].
  apply (bool_decide_eq_true_1 (14%nat ∈ [11; 14; 20]%nat)). reflexivity.
Defined.

(** C18. Ownership: in a reachable state every command belongs to the group that owns it, every
    group is in exactly one place of the three queues of its client, every group in a queue
    exists, and every server in the slot table, the server map and the pool exists. *)
Theorem objects_owned (w : World) :
  reachable w ->
  (forall c cmd, w_cmds w !! c = Some cmd -> exists g, w_grps w !! cmd_group cmd = Some g /\ c ∈ group_commands g) /\
  (forall gi g, w_grps w !! gi = Some g -> NoDup (group_commands g) /\
    exists cl, w_clis w !! grp_client g = Some cl /\ gi ∈ c_groups (cli_view cl)) /\
  (forall ci cl, w_clis w !! ci = Some cl -> NoDup (c_groups (cli_view cl)) /\
    forall gi, gi ∈ c_groups (cli_view cl) -> exists g, w_grps w !! gi = Some g /\ grp_client g = ci) /\
  (forall s, (exists ks, _server_map (w_proxy w) !! ks = Some s) \/ (exists a, servers_map (w_glob w) !! a = Some s) \/
    s ∈ servers_pool (w_glob w) -> is_Some (w_svrs w !! s)).
Proof.
  intros Hr. pose proof (reachable_links _ Hr) as Hl. apply reachable_inv in Hr as [[H0 [_ Hreg]] _]. split_and!.
  - intros c x Hx. destruct (lk_cmd _ _ _ _ _ Hl _ _ (view_cmd _ _ _ Hx)) as (gr & Hg & Hin).
    destruct (view_grp_inv _ _ _ Hg) as (g & Hg' & <-). by exists g.
  - intros gi g Hg. destruct (lk_grp _ _ _ _ _ Hl _ _ (view_grp _ _ _ Hg)) as (Hnd & _ & _ & cl & Hcl & Hin). split; [done|].
    destruct (view_cli_inv _ _ _ Hcl) as (x & Hx & <-). by exists x.
  - intros ci x Hx. destruct (lk_cli _ _ _ _ _ Hl _ _ (view_cli _ _ _ Hx)) as (Hnd & _ & Hall). split; [done|].
    intros gi Hin. destruct (Hall gi Hin) as (gr & Hg & Hc). destruct (view_grp_inv _ _ _ Hg) as (g & Hg' & <-). by exists g.
  - intros s Hs. assert (is_Some (o_svrs (view w) !! s)) as [? (x & Hx & _)%view_svr_inv]; [|by rewrite Hx].
    destruct Hs as [[ks Hs]|[[a Hs]|Hs]]; [by eapply (rg_slots _ _ Hreg)|by eapply (rg_smap _ _ Hreg)|by apply (rg_pool _ _ Hreg)].
Qed.

Lemma objects_owned_witness :
  exists g, w_grps waiting_world !! 14%nat = Some g /\ NoDup (group_commands g).
Proof.
  destruct (objects_owned waiting_world waiting_reachable) as (_ & Hg & _).
  eexists. split; [vm_compute; reflexivity|]. apply (Hg 14%nat). vm_compute. reflexivity.
Defined.

(** C19. A server that holds a command of a client is among the client's peers, so that
    the client's destructor finds every pointer to its commands. *)
Theorem holders_are_peers (w : World) s svr c cmd g cl :
  reachable w -> w_svrs w !! s = Some svr -> c ∈ _commands svr ++ omap id (_sent_commands svr) ->
  w_cmds w !! c = Some cmd -> w_grps w !! cmd_group cmd = Some g -> w_clis w !! grp_client g = Some cl -> s ∈ _peers cl.
Proof.
  intros Hl%reachable_links Hs Hc Hcmd Hg Hcl. pose proof (view_svr _ _ _ Hs) as Hsv.
  apply (lk_peer _ _ _ _ _ Hl s (svr_view svr) c (cmd_group cmd) (grp_view g) (cli_view cl)); [done|done| |].
  - unfold unanswered, held. rewrite elem_of_app, elem_of_svr_held. right. by exists s, (svr_view svr).
  - split; [by apply view_cmd|]. split; [by apply view_grp|by apply view_cli].
Qed.

Lemma holders_are_peers_witness :
  exists cl, w_clis waiting_world !! the_client = Some cl /\ the_server ∈ _peers cl.
Proof.
  eexists. split; [vm_compute; reflexivity|].
  eapply (holders_are_peers waiting_world the_server _ 13); [apply waiting_reachable|vm_compute; reflexivity| |vm_compute; reflexivity..].
  apply (bool_decide_eq_true_1 (13%nat ∈ [13; 17; 19]%nat)). reflexivity.
Defined.

(** C20. The epoll set, which holds raw pointers, only names clients, servers and updaters that
    exist, and the clients and updaters under their own descriptors. *)
Theorem epoll_entries_live (w : World) fd c rw :
  reachable w -> k_epoll (w_kern w) !! fd = Some (c, rw) -> entry_ok w fd c.
Proof. intros [_ HP]%reachable_inv. apply (pl_entry _ _ HP). Qed.

Lemma epoll_entries_live_witness : entry_ok waiting_world 10 (CClient the_client).
Proof. eapply (epoll_entries_live waiting_world 10 (CClient the_client)); [apply waiting_reachable|vm_compute; reflexivity]. Defined.
