(* ===== verification/Waits.v ===== *)
(** * Nobody waits in vain

    In every state the proxy can reach, a client with requests has output that epoll is asked to
    send, or a command that an open server or an open updater is to bring an answer for; the one
    exception is a client whose answered requests were left behind ([left_behind]), which only an
    event for writing can bring about. *)
From S2P Require Import Prelude Strings OrderedSet Address SlotCalc Buffer Response SlotMap CommandParser Logic World Kernel Command Server LongConn Client Proxy Concurrence Epoll EpollOps Graph Links Frames Quiet Order Output Delivery Wake WakeClient Updaters WakeTurn Safety SafetyServer SafetyLong SafetyGroup SafetyClient SafetyProxy Scenarios Reach.
#[local] Open Scope Z_scope.

(** ** The invariants hold *)

(** No object but the proxy. *)
Definition bare (w : World) : Prop :=
  (w_clis w, w_svrs w, w_upds w) = (∅, ∅, ∅) /\ (polls w, waited w, finished w, retrying w) = (∅, [], [], []) /\
  forall fd c, SockFd fd c ∈ k_sockets (w_kern w) -> fd <> -1.

Lemma bare_awake E w : bare w -> (Awake E None w /\ polls w = ∅) /\ Learning w.
Proof.
  intros ([= E1 E2 E3] & [= F1 F2 F3 F4] & Hs). split; [split; [|done]|split; [split; [split|by left]|done]].
  - split; try done; rewrite ?E1, ?E2; intros *; rewrite ?lookup_empty; done.
  - intros u x. by rewrite F2, elem_of_nil.
  - intros u x. by rewrite F3, elem_of_nil.
Qed.

Lemma bare_kern {A} (c : W A) : kern_only c -> within (nudge None) c -> triple bare c (fun _ => bare).
Proof.
  intros Hk Hf w (H1 & H2 & Hs). specialize (Hf w). destruct (Hk w) as (o & k & Hc & _). rewrite Hc in *. destruct o; try done.
  split_and!; [done..|]. intros fd c' Hin. eapply Hs, (fr_sockets _ _ _ Hf), Hin.
Qed.

Lemma bare_start E g k port : descriptors_ok k -> (start_proxy port (initial_world g k)).1 = Ret tt ->
  let w := (start_proxy port (initial_world g k)).2 in (Awake E None w /\ polls w = ∅) /\ Learning w.
Proof.
  intros (_ & _ & Hs & _) Hr. assert (Ht : triple bare (start_proxy port) (fun _ => bare)).
  { unfold start_proxy. eapply triple_bind; [apply bare_kern; [eauto with kern|unfold poll_create; frame_step; by apply frame_set_kern]|intros []].
    eapply triple_bind; [apply bare_kern; [eauto with kern|frame_step]|intros fd]. eapply triple_bind; [apply bare_kern; [eauto with kern|frame_step]|intros []].
    eapply triple_bind; [apply bare_kern; [eauto with kern|unfold bind_to; frame_step; by apply frame_set_kern]|intros []].
    eapply (triple_bind _ _ _ (fun _ => bare)); [by intros w (? & _ & ?)|intros []].
    unfold turn_on_accepting. eapply (triple_bind _ _ _ (fun _ => bare)); [by intros w Hw|intros []]; [by apply triple_ret|].
    eapply (triple_bind _ _ _ (fun _ => bare)); [by intros w (? & ? & ?)|intros []]. apply bare_kern; [|frame_step]. unfold poll_add_ro, conn_fd.
    apply kern_bind; [apply kern_pure; intros w; by eexists|intros fd']. apply kern_bind; [eauto with kern|intros e]. eauto with kern. }
  assert (Hb : bare (initial_world g k)) by done. specialize (Ht _ Hb). destruct (start_proxy port (initial_world g k)) as [[] w]; try done. by apply bare_awake.
Qed.

Lemma awake_meanwhile E w w' : meanwhile w w' -> Awake E None w -> Awake E None w'.
Proof.
  intros [Hw He Hk (b & Hp) _] [A1 A2 A3 A4 A5 A6].
  assert (Hs : w_clis w' = w_clis w /\ w_grps w' = w_grps w /\ w_svrs w' = w_svrs w /\ w_next w' = w_next w) by (by rewrite Hw).
  destruct Hs as (S1 & S2 & S3 & S4). assert (Hpo : polls w' = polls w) by (unfold polls; by rewrite Hp).
  split; rewrite ?S1, ?S2, ?S3, ?S4, ?Hpo, ?He; try done. apply Hk.
Qed.

Lemma learning_meanwhile w w' : meanwhile w w' -> Asking w -> Asking w'.
Proof.
  intros [Hw _ _ (b & Hp) _]. apply asks_asking. unfold keeps, asks. assert (Hu : w_upds w' = w_upds w) by (by rewrite Hw). by rewrite Hu, Hp.
Qed.

Lemma reachable_awake w : reachable w -> (Awake (fun _ => False) None w /\ polls w = ∅) /\ Learning w.
Proof.
  induction 1 as [g k port Hm Hp Hk He Hret|stats w w' r _ [[IH1 _] [IH2 _]] Hmw Hd Hret]; [by apply bare_start|].
  pose proof (steady_turn (fun _ => False) stats r ltac:(intros events _ i ev _; right; tauto) w') as Ht.
  destruct (thread_turn stats r w') as [[] w'']; try done. apply Ht. split; [by eapply awake_meanwhile|by eapply learning_meanwhile].
Qed.

(** ** Who waits for what *)

Definition has_requests (cl : Client) : Prop := _parsed_groups cl <> [] \/ _awaiting_groups cl <> [] \/ _ready_groups cl <> [].

(** The client's output will be sent: epoll never watches it for reading alone. *)
Definition to_be_sent (w : World) (i : nat) (cl : Client) : Prop :=
  _buf_arr (cli_output cl) <> [] /\ forall fd ev, k_epoll (w_kern w) !! fd = Some (CClient i, ev) -> event_is_write ev = true.

(** The command is with an open server, or with the proxy while an open updater asks for the slot map. *)
Definition in_hands (w : World) (c : nat) : Prop :=
  (exists s x, w_svrs w !! s = Some x /\ svr_fd x <> -1 /\ c ∈ _commands x ++ omap id (_sent_commands x)) \/
  (c ∈ _retrying_commands (w_proxy w) /\
   exists u x, u ∈ _slot_updaters (w_proxy w) /\ w_upds w !! u = Some x /\ upd_fd x <> -1).

(** All the requests are answered, and nothing of them is in the output. *)
Definition left_behind (w : World) (cl : Client) : Prop :=
  _buf_arr (cli_output cl) = [] /\ _ready_groups cl = [] /\ _awaiting_groups cl <> [] /\ forall gi, gi ∈ _awaiting_groups cl -> pending w gi = [].

Lemma count_zero w i cl : reachable w -> w_clis w !! i = Some cl ->
  _awaiting_count cl = 0 <-> forall gi, gi ∈ _awaiting_groups cl -> pending w gi = [].
Proof.
  intros Hl%reachable_links Hcl. pose proof (lk_count _ _ _ _ _ Hl _ _ (view_cli _ _ _ Hcl)) as Hc. cbn [cli_view c_count c_awaiting cur_in] in Hc.
  rewrite Hc, Z.add_0_r. unfold pend. split.
  - intros Hz gi Hin. apply pending_nil. destruct (decide (out (o_cmds (view w)) (unanswered w) gi = 0%nat)) as [|Hn]; [done|].
    assert (Hf : gi ∈ filter (fun gi => out (o_cmds (view w)) (unanswered w) gi <> 0%nat) (_awaiting_groups cl)) by (by apply list_elem_of_filter).
    destruct (filter _ _); [by apply elem_of_nil in Hf|cbn in Hz; lia].
  - intros Hall. destruct (filter _ _) as [|gi l] eqn:Ef; [done|]. assert (Hin : gi ∈ filter (fun gi => out (o_cmds (view w)) (unanswered w) gi <> 0%nat) (_awaiting_groups cl)) by (rewrite Ef; left).
    apply list_elem_of_filter in Hin as [Hn Hin]. by destruct Hn; apply pending_nil, Hall.
Qed.

Lemma unanswered_in_hands w c : reachable w -> c ∈ unanswered w -> in_hands w c.
Proof.
  intros Hr. destruct (reachable_awake w Hr) as [[HA _] [_ HL]]. unfold unanswered, held. rewrite elem_of_app, elem_of_svr_held.
  intros [Hc|(s & v & Hv & Hc)].
  - right. split; [exact Hc|]. apply HL. intros E0. unfold retrying in E0. cbn in Hc. rewrite E0 in Hc. by apply elem_of_nil in Hc.
  - left. destruct (view_svr_inv _ _ _ Hv) as (x & Hx & <-). change (c ∈ _commands x ++ omap id (_sent_commands x)) in Hc. exists s, x. split_and!; [done| |exact Hc]. intros Hf.
    destruct (aw_idle _ _ _ HA s x ltac:(done) Hx Hf) as [I1 I2]. rewrite I1, I2 in Hc. by apply elem_of_nil in Hc.
Qed.




