(* ===== verification/Process.v ===== *)
(** * The whole process

    [main] starts the threads; then they take their turns in any order, and share the remote
    addresses, the state of the cluster and the flags that ask for a slot map update.  The
    sharing is seen between turns: a turn is one step. *)
From S2P Require Import Prelude Strings OrderedSet Address SlotCalc Buffer Response SlotMap CommandParser CommandSpec Logic World Kernel Command Server LongConn Client Proxy Concurrence Main Epoll Graph Links Frames Safety Quiet Order Scenarios Reach.
#[local] Open Scope Z_scope.

(** ** Turns of one thread *)

Definition turn (w w'' : World) : Prop :=
  exists stats w' r, meanwhile w w' /\ delivers (w_kern w') r /\ thread_turn stats r w' = (Ret tt, w'').

Lemma turns_reachable w w' : reachable w -> rtc turn w w' -> reachable w'.
Proof.
  intros Hr Ht. revert Hr. induction Ht as [|w w1 w2 (stats & wm & r & Hm & Hd & Ht) _ IH]; [done|]. intros Hr. apply IH.
  replace w1 with (thread_turn stats r wm).2 by (by rewrite Ht). eapply reach_turn; [done..|by rewrite Ht].
Qed.

Lemma meanwhile_fifo w w' : meanwhile w w' -> fifo w w'.
Proof.
  intros [Hw _ _ _ (r & ok & fl & Hg)]. apply calm_fifo. rewrite Hw. split; [done|by cbn; rewrite Hg|done].
Qed.

Lemma turn_fifo w w' : turn w w' -> fifo w w'.
Proof.
  intros (stats & wm & r & Hm & _ & Ht). etransitivity; [by apply meanwhile_fifo|]. pose proof (fifo_thread_turn stats r wm) as Hf. by rewrite Ht in Hf.
Qed.

Lemma turns_fifo w w' : rtc turn w w' -> fifo w w'.
Proof. induction 1 as [|w w1 w2 H1 _ IH]; [reflexivity|]. etransitivity; [by eapply turn_fifo|done]. Qed.


Lemma turns_ok_turns w turns : reachable w -> turns_ok w turns = true -> rtc turn w (after_turns w turns).
Proof.
  revert w. induction turns as [|events turns IH]; intros w Hr Hok; [done|]. cbn in Hok |- *.
  apply andb_true_iff in Hok as [Hd Hok]. pose proof (reach_events no_stats w events Hr Hd) as Hre.
  destruct (thread_turn no_stats (WaitEvents events) w) as [[[]| | |] w'] eqn:Et; try done. eapply rtc_l; [|apply IH; [by apply Hre|done]].
  exists no_stats, w, (WaitEvents events). split_and!; [by eapply meanwhile_nothing|by apply deliverable_delivers|done].
Qed.


(** ** All threads *)

(** The flags of the other threads, as thread [i] finds them. *)
Definition others {A} (i : nat) (l : list A) : list A := take i l ++ drop (S i) l.

Definition load (ws : list World) (i : nat) (k : Kernel) (w : World) : World :=
  w <| w_kern := k |> <| w_glob ::= (fun g => g <| other_threads := (fun w => _slot_map_expired (w_proxy w)) <$> others i ws |>) |>.

(** What a thread sees of the turn of thread [i], which ended in [w1]. *)
Definition share (i j : nat) (w1 w : World) : World :=
  let b := default (_slot_map_expired (w_proxy w)) (other_threads (w_glob w1) !! (if (j <? i)%nat then j else pred j)) in
  w <| w_proxy ::= (fun p => p <| _slot_map_expired := b |>) |>
    <| w_glob ::= (fun g => g <| remote_addrs := remote_addrs (w_glob w1) |> <| cluster_ok := cluster_ok (w_glob w1) |>) |>.

Definition store (i : nat) (w1 : World) (ws : list World) : list World :=
  imap (fun j w => if decide (j = i) then w1 else share i j w1 w) ws.

Inductive process_step (ws : list World) : list World -> Prop :=
  | process_turn stats i w k r w1 :
      ws !! i = Some w -> descriptors_ok k -> k_epoll k = k_epoll (w_kern w) -> delivers k r ->
      thread_turn stats r (load ws i k w) = (Ret tt, w1) -> process_step ws (store i w1 ws).

(** A thread between two turns. *)
Definition idle (w0 w : World) : Prop := exists w1, rtc turn w0 w1 /\ meanwhile w1 w.

Lemma meanwhile_trans w1 w2 w3 : meanwhile w1 w2 -> meanwhile w2 w3 -> meanwhile w1 w3.
Proof.
  intros [W1 E1 K1 (b1 & P1) (r1 & o1 & f1 & G1)] [W2 E2 K2 (b2 & P2) (r2 & o2 & f2 & G2)]. split.
  - rewrite W2 at 1. rewrite W1 at 1. done.
  - congruence.
  - done.
  - exists b2. by rewrite P2, P1.
  - exists r2, o2, f2. by rewrite G2, G1.
Qed.

Lemma load_meanwhile ws i k w : descriptors_ok k -> k_epoll k = k_epoll (w_kern w) -> meanwhile w (load ws i k w).
Proof.
  intros Hk He. split; [by destruct w|done..| |].
  - exists (_slot_map_expired (w_proxy w)). by destruct w as [? ? ? ? ? ? ? ? [] ? ?].
  - eexists (remote_addrs (w_glob w)), (cluster_ok (w_glob w)), _. by destruct w as [? ? ? ? ? ? ? ? ? [] ?].
Qed.

Lemma share_meanwhile i j w1 w : descriptors_ok (w_kern w) -> meanwhile w (share i j w1 w).
Proof.
  intros Hk. split; [by destruct w|done..|by eexists|]. exists (remote_addrs (w_glob w1)), (cluster_ok (w_glob w1)), (other_threads (w_glob w)). by destruct w as [? ? ? ? ? ? ? ? ? [] ?].
Qed.

Lemma idle_reachable w0 w : reachable w0 -> idle w0 w -> exists w1, reachable w1 /\ meanwhile w1 w.
Proof. intros Hr (w1 & Ht & Hm). exists w1. split; [by eapply turns_reachable|done]. Qed.

(** Every thread is idle after the turns it has taken. *)
Lemma process_idle ws ws' : Forall reachable ws -> rtc process_step ws ws' -> Forall2 idle ws ws'.
Proof.
  intros Hr Hs. assert (H0 : Forall2 idle ws ws).
  { apply Forall2_same_length_lookup. split; [done|]. intros i w0 w H0 H1. assert (w0 = w) as -> by congruence. exists w. split; [done|].
    apply meanwhile_nothing. by eapply (Forall_lookup_1 _ _ i). }
  assert (Hgen : forall wa, Forall2 idle ws wa -> rtc process_step wa ws' -> Forall2 idle ws ws'); [|by apply (Hgen ws)]. clear H0 Hs.
  intros wa Ha Hs. induction Hs as [|wa wb wc [stats i w k r w1 Hi Hk He Hd Ht] _ IH]; [done|]. apply IH. clear IH.
  apply Forall2_same_length_lookup. rewrite Forall2_same_length_lookup in Ha. destruct Ha as [Hlen Ha].
  split; [by unfold store; rewrite length_imap|]. intros j w0 w2 Hj0 Hj. unfold store in Hj. rewrite list_lookup_imap in Hj.
  apply fmap_Some in Hj as (w3 & Hj & ->). destruct (Ha j w0 w3 Hj0 Hj) as (w4 & Ht4 & Hm4).
  assert (Hr4 : reachable w4) by (eapply turns_reachable; [by eapply (Forall_lookup_1 _ _ j)|done]).
  case_decide as Hij.
  - subst j. rewrite Hi in Hj. injection Hj as <-. exists w1. assert (Ht1 : rtc turn w0 w1).
    { eapply rtc_r; [exact Ht4|]. exists stats, (load wa i k w), r. split_and!; [|done..].
      eapply meanwhile_trans; [exact Hm4|]. by apply load_meanwhile. }
    split; [done|]. apply meanwhile_nothing. eapply turns_reachable; [by eapply (Forall_lookup_1 _ _ i)|done].
  - exists w4. split; [done|]. eapply meanwhile_trans; [exact Hm4|]. apply share_meanwhile. apply Hm4.
Qed.

(** ** The threads [main] starts *)

Lemma configure_globals config s :
  configure config = Ret (Goes s) -> servers_map (run_globals s) = ∅ /\ servers_pool (run_globals s) = [] /\
  settings (run_globals s) = settings (set_coverage config (set_read_slave config (initial_globals initial_tables))).
Proof.
  unfold configure, mbind, outcome_bind. set (g := set_coverage _ _). assert (Hg : servers_map g = ∅ /\ servers_pool g = []).
  { unfold g, set_coverage, set_read_slave. by repeat case_bool_decide. }
  destruct (atoi _) as [slow| | |]; cbn; try done. destruct (slow <=? 0); try done. destruct (get _ _) as [b| | |]; cbn; try done.
  destruct (atoi b) as [bind| | |]; cbn; try done. destruct (atoi _) as [n| | |]; cbn; try done. destruct (n <=? 0); try done.
  destruct (contains _ _); cbn; [|by intros [= <-]; destruct Hg].
  destruct (get _ _) as [nt| | |]; cbn; try done. destruct (from_hosts_ports nt) as [rs| | |]; cbn; try done. intros [= <-]. by destruct Hg.
Qed.

(** The kernels the threads are given: nothing is open. *)
Definition fresh_kernels (kernel : nat -> Kernel) : Prop := forall i, descriptors_ok (kernel i) /\ k_epoll (kernel i) = ∅.

Lemma new_threads_start port g ks ws :
  new_threads port g ks = Ret ws -> Forall2 (fun k w => start_proxy port (initial_world g k) = (Ret tt, w)) ks ws.
Proof.
  revert ws. induction ks as [|k ks IH]; intros ws; cbn; [intros [= <-]; constructor|].
  destruct (start_proxy port (initial_world g k)) as [[[]| | |] w] eqn:Es; try done.
  destruct (new_threads port g ks) as [ws'| | |]; cbn; try done. intros [= <-]. constructor; auto.
Qed.


(** A thread of [main] is in the first state of a reachable run, with the settings of the
    configuration. *)
Definition started_with (config : Configuration) (w : World) : Prop :=
  reachable w /\ settings (w_glob w) = settings (set_coverage config (set_read_slave config (initial_globals initial_tables))).

Lemma run_started config kernel ws :
  fresh_kernels kernel -> Main.run config kernel = Ret (Goes ws) -> Forall (started_with config) ws.
Proof.
  intros Hk. unfold Main.run, mbind, outcome_bind. destruct (configure config) as [[s|]| | |] eqn:Ec; try done.
  destruct (configure_globals _ _ Ec) as (Hm & Hp & Hs). set (g := (run_globals s) <| other_threads := _ |>).
  destruct (new_threads _ _ _) as [ws'| | |] eqn:En; try done. intros [= <-]. apply new_threads_start in En.
  apply Forall_lookup_2. intros i w Hi. destruct (Forall2_lookup_r _ _ _ _ _ En Hi) as (k & Hki & Hst).
  apply list_lookup_fmap_Some in Hki as (j & -> & Hj). destruct (Hk j) as [Hd He].
  pose proof (still_start_proxy (bind_port s) (initial_world g (kernel j))) as Hc. rewrite Hst in Hc. split.
  - replace w with (start_proxy (bind_port s) (initial_world g (kernel j))).2 by (by rewrite Hst). apply reach_start; try done. by rewrite Hst.
  - rewrite (still_settings _ _ Hc). exact Hs.
Qed.

Lemma main_started file kernel args ws :
  fresh_kernels kernel -> main file kernel args = Ret (Goes ws) ->
  exists config path argv, args = path :: argv /\ new_Configuration file path argv = Goes config /\ Forall (started_with config) ws.
Proof.
  intros Hk. unfold main. destruct args as [|path argv]; [done|]. destruct (new_Configuration file path argv) as [config|] eqn:Ec; [|done].
  destruct (Main.run config kernel) as [o| | |] eqn:Er; try done. intros [= ->]. exists config, path, argv. split_and!; [done..|]. by eapply run_started.
Qed.

(** C2. The whole process is free of uses after free: from the start with any arguments, over any
    interleaving of the threads' turns, no thread's next turn follows a pointer to a command, a
    group, a client, a server or a slot map updater that was deleted. *)
Theorem process_no_use_after_free (file : bytes -> option bytes) (kernel : nat -> Kernel) (args : list bytes) (ws ws' : list World) :
  fresh_kernels kernel -> main file kernel args = Ret (Goes ws) -> rtc process_step ws ws' ->
  forall i w stats r p, ws' !! i = Some w -> delivers (w_kern w) r ->
    (thread_turn stats r w).1 = UB (Dangling p) -> p = ALongConnection.
Proof.
  intros Hk Hm Hs i w stats r p Hi Hd Hub. destruct (main_started _ _ _ _ Hk Hm) as (config & _ & _ & _ & _ & Hst).
  assert (Hr : Forall reachable ws) by (eapply Forall_impl; [exact Hst|]; by intros ? []).
  destruct (Forall2_lookup_r _ _ _ _ _ (process_idle _ _ Hr Hs) Hi) as (w0 & H0 & Hidle).
  destruct (idle_reachable w0 w) as (w1 & Hr1 & Hm1); [by eapply (Forall_lookup_1 _ _ i)|done|].
  destruct (reachable_inv _ Hr1) as [Hinv HP]. pose proof (wp_thread_turn stats r w) as Hw. unfold wp in Hw.
  destruct (thread_turn stats r w) as [[] w2]; cbn in Hub; try done. injection Hub as ->.
  assert (Ht : tolerated (Dangling p)); [|by destruct p]. apply Hw; [eapply inv_view; [by apply meanwhile_view|done]|by eapply meanwhile_polled|done].
Qed.

(** ** Settings and writes *)

Lemma idle_fifo w0 w : idle w0 w -> fifo w0 w.
Proof. intros (w1 & Ht & Hm). etransitivity; [by apply turns_fifo|by apply meanwhile_fifo]. Qed.

(** The settings of the configuration hold in every thread for ever. *)
Lemma process_settings file kernel path argv config ws ws' i w :
  fresh_kernels kernel -> new_Configuration file path argv = Goes config -> main file kernel (path :: argv) = Ret (Goes ws) ->
  rtc process_step ws ws' -> ws' !! i = Some w ->
  settings (w_glob w) = settings (set_coverage config (set_read_slave config (initial_globals initial_tables))).
Proof.
  intros Hk Hc Hm Hs Hi. destruct (main_started _ _ _ _ Hk Hm) as (config' & path' & argv' & [= <- <-] & Hc' & Hst).
  assert (config' = config) as -> by congruence. assert (Hr : Forall reachable ws) by (eapply Forall_impl; [exact Hst|]; by intros ? []).
  destruct (Forall2_lookup_r _ _ _ _ _ (process_idle _ _ Hr Hs) Hi) as (w0 & H0 & Hidle).
  destruct (Forall_lookup_1 _ _ _ _ Hst H0) as [_ Hset]. rewrite (fifo_settings _ _ (idle_fifo _ _ Hidle)). exact Hset.
Qed.

(** A command that only [allow_write_commands] adds to the tables. *)
Definition write_command (cmd : bytes) : Prop := (cmd ∈ WRITE_COMMANDS /\ cmd ∉ STD_COMMANDS) \/ cmd ∈ SPECIAL_WRITE_COMMAND.*1.

Lemma write_command_unknown cmd : write_command cmd -> (cmd ∉ std_commands initial_tables) /\ special_rsp initial_tables !! cmd = None.
Proof.
  assert (Hsp : forall c, c ∈ WRITE_COMMANDS ++ SPECIAL_WRITE_COMMAND.*1 -> c ∉ SPECIAL_RSP.*1).
  { intros c Hc. apply (Forall_forall (fun c => c ∉ SPECIAL_RSP.*1) (WRITE_COMMANDS ++ SPECIAL_WRITE_COMMAND.*1)); [|done].
    apply (bool_decide_eq_true_1 _). vm_compute. reflexivity. }
  assert (Hstd : forall c, c ∈ SPECIAL_WRITE_COMMAND.*1 -> c ∉ STD_COMMANDS).
  { intros c Hc. apply (Forall_forall (fun c => c ∉ STD_COMMANDS) (SPECIAL_WRITE_COMMAND.*1)); [|done].
    apply (bool_decide_eq_true_1 _). vm_compute. reflexivity. }
  intros Hw. cbn [initial_tables std_commands special_rsp]. rewrite elem_of_list_to_set. split.
  - destruct Hw as [[_ H]|H]; [done|by apply Hstd].
  - apply not_elem_of_list_to_map_1, Hsp. rewrite elem_of_app. destruct Hw as [[H _]|H]; auto.
Qed.

(** C21. A read-only proxy writes nothing: started with [read-slave yes], in every thread and after any
    interleaving of turns, a client's request for a write command, in whatever case and with
    whatever arguments, is answered by the proxy itself with an error and goes to no server. *)
Theorem readonly_refuses_writes (file : bytes -> option bytes) (kernel : nat -> Kernel) (path : bytes) (argv : list bytes)
    (config : Configuration) (ws ws' : list World) (i : nat) (w : World) (name : bytes) (args : list bytes) :
  fresh_kernels kernel -> new_Configuration file path argv = Goes config -> get_def config (s2b "read-slave") [] = s2b "yes" ->
  main file kernel (path :: argv) = Ret (Goes ws) -> rtc process_step ws ws' -> ws' !! i = Some w ->
  write_command (toupper <$> name) -> request_size_ok (name :: args) -> zlen (Resp.encode (request (name :: args))) < 2 ^ 63 ->
  split_client_command (cmd_tables (w_glob w)) (Resp.encode (request (name :: args))) = (Ret tt, ([SpDirect UNKNOWN_COMMAND], [])).
Proof.
  intros Hk Hc Hro Hm Hs Hi Hw Hsz Hlen. assert (Ht : cmd_tables (w_glob w) = initial_tables).
  { pose proof (process_settings _ _ _ _ _ _ _ _ _ Hk Hc Hm Hs Hi) as E. unfold set_coverage, set_read_slave in E.
    rewrite (bool_decide_true (get_def config (s2b "read-slave") [] = s2b "yes")) in E by done.
    destruct (bool_decide _); cbn in E; by injection E. }
  rewrite Ht. destruct (write_command_unknown _ Hw) as [Hstd Hsp].
  pose proof (split_client_command_spec initial_tables [name :: args] [SpDirect UNKNOWN_COMMAND] []) as Hsplit.
  cbn [fmap list_fmap flat_map] in Hsplit. rewrite !app_nil_r in Hsplit. apply Hsplit; [apply initial_tables_ok| |by left|done].
  repeat constructor; [done|]. unfold command_spec. cbv zeta. rewrite bool_decide_false by done. by rewrite Hsp.
Qed.

(** ** A small process: [example.conf] with two threads *)

Definition example_kernel (i : nat) : Kernel := kernel_of [] [] [].

Lemma example_kernel_fresh : fresh_kernels example_kernel.
Proof.
  intros i. split; [|done]. split_and!; [done..| |]; intros fd c Hin%list_elem_of_In; cbn -[scripted] in Hin; intros ->; intuition congruence.
Qed.

Definition example_args : list bytes := s2b <$> ["example.conf"; "-t"; "2"].
Definition readonly_args : list bytes := s2b <$> ["example.conf"; "-t"; "2"; "-r"; "yes"].

Definition threads_of (args : list bytes) : list World :=
  match main example_file example_kernel args with Ret (Goes ws) => ws | _ => [] end.

(** The second thread asks the nodes for the slot map. *)
Definition second_turn (ws : list World) : list World :=
  match ws !! 1%nat with
  | Some w => store 1 (thread_turn no_stats (WaitEvents []) (load ws 1 (w_kern w) w)).2 ws
  | None => ws
  end.

Lemma second_turn_step args w :
  reachable w -> threads_of args !! 1%nat = Some w ->
  (thread_turn no_stats (WaitEvents []) (load (threads_of args) 1 (w_kern w) w)).1 = Ret tt ->
  process_step (threads_of args) (second_turn (threads_of args)).
Proof.
  intros [_ HP]%reachable_inv Hw Ht. unfold second_turn. rewrite Hw.
  apply (process_turn _ no_stats 1 w (w_kern w) (WaitEvents [])); [done|apply HP|done| |].
  - split; [cbn; unfold MAX_EVENTS; lia|by intros c ev []%elem_of_nil].
  - destruct (thread_turn _ _ _) as [[[]| | |] w1]; done.
Qed.

Lemma threads_second args w :
  main example_file example_kernel args = Ret (Goes (threads_of args)) -> threads_of args !! 1%nat = Some w -> reachable w.
Proof.
  intros Hm Hw. destruct (main_started _ _ _ _ example_kernel_fresh Hm) as (config & _ & _ & _ & _ & Hst).
  by destruct (Forall_lookup_1 _ _ _ _ Hst Hw).
Qed.

Lemma second_turn_steps args :
  main example_file example_kernel args = Ret (Goes (threads_of args)) ->
  match threads_of args !! 1%nat with
  | Some w => match (thread_turn no_stats (WaitEvents []) (load (threads_of args) 1 (w_kern w) w)).1 with Ret _ => true | _ => false end
  | None => false
  end = true ->
  rtc process_step (threads_of args) (second_turn (threads_of args)).
Proof.
  intros Hm Ht. destruct (threads_of args !! 1%nat) as [w|] eqn:Ew; [|done].
  apply rtc_once. eapply second_turn_step; [by eapply threads_second|done|]. by destruct (thread_turn _ _ _) as [[[]| | |] ?].
Qed.

(** The example starts, its second thread takes a turn, and there are still two threads. *)
Definition example_runs (args : list bytes) : bool :=
  match main example_file example_kernel args with
  | Ret (Goes ws) =>
    bool_decide (length ws = 2%nat) &&
    match ws !! 1%nat with
    | Some w => match (thread_turn no_stats (WaitEvents []) (load ws 1 (w_kern w) w)).1 with Ret _ => true | _ => false end
    | None => false
    end
  | _ => false
  end.

Lemma example_run args :
  example_runs args = true -> length (threads_of args) = 2%nat /\
  main example_file example_kernel args = Ret (Goes (threads_of args)) /\
  rtc process_step (threads_of args) (second_turn (threads_of args)) /\ exists w, second_turn (threads_of args) !! 1%nat = Some w.
Proof.
  unfold example_runs. destruct (main example_file example_kernel args) as [[ws|]| | |] eqn:Em; try done.
  intros [Hl%bool_decide_eq_true_1 Ht]%andb_true_iff. assert (Hws : threads_of args = ws) by (unfold threads_of; by rewrite Em).
  assert (Hm : main example_file example_kernel args = Ret (Goes (threads_of args))) by (by rewrite Em, Hws).
  split_and!; [by rewrite Hws|by rewrite Hws|by apply second_turn_steps; [done|by rewrite Hws]|].
  apply lookup_lt_is_Some. unfold second_turn. rewrite Hws. destruct (ws !! 1%nat); [|lia]. unfold store. rewrite length_imap. lia.
Qed.

Lemma process_no_use_after_free_witness :
  length (threads_of example_args) = 2%nat /\
  exists w, second_turn (threads_of example_args) !! 1%nat = Some w /\
    forall stats r p, delivers (w_kern w) r -> (thread_turn stats r w).1 = UB (Dangling p) -> p = ALongConnection.
Proof.
  destruct (example_run example_args) as (Hl & Hm & Hs & w & Hw); [vm_compute; reflexivity|].
  split; [exact Hl|]. exists w. split; [exact Hw|]. intros stats r p.
  exact (process_no_use_after_free example_file example_kernel example_args _ _ example_kernel_fresh Hm Hs 1%nat w stats r p Hw).
Defined.

Lemma readonly_refuses_writes_witness :
  exists w, second_turn (threads_of readonly_args) !! 1%nat = Some w /\
    split_client_command (cmd_tables (w_glob w)) (crlf_lines ["*3"; "$3"; "Set"; "$1"; "k"; "$1"; "v"]) =
      (Ret tt, ([SpDirect UNKNOWN_COMMAND], [])).
Proof.
  destruct (example_run readonly_args) as (_ & Hm & Hs & w & Hw); [vm_compute; reflexivity|].
  assert (Hc : match new_Configuration example_file (s2b "example.conf") (s2b <$> ["-t"; "2"; "-r"; "yes"]) with
               | Goes c => bool_decide (get_def c (s2b "read-slave") [] = s2b "yes") | _ => false end = true) by (vm_compute; reflexivity).
  destruct (new_Configuration _ _ _) as [c|] eqn:Ec; [|done]. apply bool_decide_eq_true_1 in Hc. exists w. split; [exact Hw|].
  replace (crlf_lines _) with (Resp.encode (request (s2b "Set" :: (s2b <$> ["k"; "v"])))) by (vm_compute; reflexivity).
  apply (readonly_refuses_writes example_file example_kernel (s2b "example.conf") (s2b <$> ["-t"; "2"; "-r"; "yes"]) c _ _ 1%nat w
    (s2b "Set") (s2b <$> ["k"; "v"]) example_kernel_fresh Ec Hc Hm Hs Hw).
  - left. split; [apply (bool_decide_eq_true_1 _)|apply (bool_decide_eq_true_1 _)]; vm_compute; reflexivity.
  - vm_compute. discriminate.
  - vm_compute. reflexivity.
Defined.
