(* ===== verification/Responses.v ===== *)
(** * Every client gets the responses to its requests, whole and in order

    The theorems of Output.v, Delivery.v and Answers.v for the states the proxy can reach: what is
    pending for a client is the end of the responses of its ready groups, and from one state to any
    later one bytes leave only at the front, and the responses of the next requests, one after the
    other, join at the end. *)
From S2P Require Import Prelude Strings OrderedSet Address SlotCalc Buffer Response SlotMap CommandParser Logic World Kernel Command Server LongConn Client Proxy Concurrence Epoll Graph Links Frames Quiet Order Output Delivery Safety SafetyProxy Answers Scenarios Reach Process.
#[local] Open Scope Z_scope.

(** ** Reachable states are good *)

Lemma initial_good g k : Good None (initial_world g k).
Proof.
  split; [split|split|]; cbn; rewrite ?fmap_empty; try (intros *; rewrite ?lookup_empty; done).
  - lia.
Qed.

Lemma meanwhile_still w w' : meanwhile w w' -> still w w'.
Proof.
  intros [Hw _ _ _ (r & ok & fl & Hg)]. rewrite Hw. split; cbn; [done|by rewrite Hg|done|intros i; apply same_cli_refl].
Qed.

Lemma turn_good w w' : turn w w' -> reachable w -> good None w w'.
Proof.
  intros (stats & wm & r & Hm & Hd & Ht) Hr. etransitivity; [by apply still_good, meanwhile_still|].
  destruct (reachable_inv _ Hr) as [Hinv HP]. assert (Hinv' : Inv [] wm) by (eapply inv_view; [by apply meanwhile_view|done]).
  assert (HP' : Polled None wm) by (by eapply meanwhile_polled). intros HG. unfold thread_turn in Ht.
  destruct r as [events|e]; cbn [poll_wait] in Ht.
  - pose proof (settles_handle_events stats events wm (delivers_live _ _ Hinv' HP' Hd) HG) as Hs.
    unfold mbind, M_bind in Ht. cbn in Ht. by rewrite Ht in Hs.
  - destruct (e =? EINTR); [|done]. pose proof (settles_handle_events stats [] wm Hinv' HG) as Hs.
    unfold mbind, M_bind in Ht. cbn in Ht. by rewrite Ht in Hs.
Qed.

Lemma start_good g k port : (start_proxy port (initial_world g k)).1 = Ret tt -> Good None (start_proxy port (initial_world g k)).2.
Proof.
  intros Hret. pose proof (still_start_proxy port (initial_world g k)) as Hs. destruct (start_proxy port (initial_world g k)) as [[] w]; try done.
  by apply (still_good None _ _ Hs), initial_good.
Qed.

Lemma reachable_good w : reachable w -> Good None w.
Proof.
  induction 1 as [g k port Hm Hp Hk He Hret|stats w w' r Hr IH Hmw Hd Hret]; [by apply start_good|].
  eapply (turn_good w); [|done|done]. exists stats, w', r. split_and!; [done..|]. destruct (thread_turn stats r w') as [[] ?]; cbn in *; congruence.
Qed.

Lemma turns_good w w' : reachable w -> rtc turn w w' -> streams None w w'.
Proof.
  intros Hr Ht. revert Hr. induction Ht as [w|w w1 w2 H1 _ IH]; intros Hr; [reflexivity|].
  destruct (turn_good w w1 H1 Hr (reachable_good _ Hr)) as [_ S1]. etransitivity; [exact S1|]. apply IH.
  eapply turns_reachable; [exact Hr|by apply rtc_once].
Qed.

(** ** The theorems *)

Lemma concat_responses w gs : concat (response w <$> gs) = concat (content (w_bufs w) <$> concat (group_bufs (mem_of w) <$> gs)).
Proof. induction gs as [|g gs IH]; cbn; [done|]. by rewrite IH, fmap_app, concat_app. Qed.





(** ** Answers *)

(** The memory is the same, but for the counts that DEL prints. *)
Record spares (w w' : World) : Prop := {
  sp_cmds : m_cmds (mem_of w') = m_cmds (mem_of w);
  sp_grps : m_grps (mem_of w') = m_grps (mem_of w);
  sp_bufs b : (forall g cs n, m_grps (mem_of w) !! g <> Some (MultipleCommandsGroup DelGroup b cs n)) -> w_bufs w' !! b = w_bufs w !! b
}.

#[export] Instance spares_preorder : PreOrder spares.
Proof.
  split; [by split|]. intros w1 w2 w3 [C1 G1 B1] [C2 G2 B2]. split; [congruence..|]. intros b Hb. rewrite B2, B1; [done..|]. intros g cs n. rewrite G1. apply Hb.
Qed.

Lemma spares_mem w w' : mem_of w' = mem_of w -> spares w w'.
Proof. intros M. assert (Mb : w_bufs w' = w_bufs w) by (by injection M). split; [by rewrite M..|]. intros b _. by rewrite Mb. Qed.

Lemma spares_still {A} (c : W A) : within still c -> within spares c.
Proof. apply within_mono. intros w w' [_ _ M _]. by apply spares_mem. Qed.
#[local] Hint Extern 4 (within spares _) => (apply spares_still) : within.

Lemma spares_set_cli i f : within spares (set_cli i f).
Proof. intros w. unfold set_cli, get_cli, deref_obj, mbind, M_bind. destruct (w_clis w !! i); [|done]. by apply spares_mem. Qed.
#[local] Hint Resolve spares_set_cli : within.

Lemma spares_append g : within spares (append_buffer_to g).
Proof.
  intros w. pose proof (nothrow_append_buffer_to g w) as Hn. destruct (append_buffer_to g w) as [[bs|e|k|] w1] eqn:E; try done; [|naive_solver].
  apply append_buffer_to_eq in E as [_ [->|(p & cs & n & v & Hg & ->)]]; [reflexivity|]. split; [done..|].
  intros b Hb. cbn. rewrite lookup_insert_ne; [done|]. intros <-. by eapply Hb.
Qed.
#[local] Hint Resolve spares_append : within.

Lemma spares_push_ready cli gs : within spares (push_ready cli gs).
Proof. induction gs; cbn [push_ready]; within_step. Qed.
#[local] Hint Resolve spares_push_ready : within.
Lemma spares_group_responsed cli : within spares (group_responsed cli).
Proof. unfold group_responsed, _push_awaitings_to_ready. within_step. Qed.
#[local] Hint Resolve spares_group_responsed : within.

(** What is in the buffer of a command. *)
Definition reply (w : World) (c : nat) : bytes := content (w_bufs w) (default RSP_OK (m_cmds (mem_of w) !! c)).

Lemma spares_reply w w' c b : Bufs (mem_of w) (w_next w) -> spares w w' -> m_cmds (mem_of w) !! c = Some b -> reply w' c = reply w c.
Proof.
  intros B [C G S] Hb. unfold reply, content. rewrite C, Hb. cbn. rewrite S; [done|]. intros g cs n Hg. by eapply (bf_pay_cmd _ _ B g).
Qed.

(** The last answer of a group gives its payload the header of an array. *)
Definition headed (y : CommandGroup) (w : World) : World :=
  match grp_class y with
  | MultipleCommandsGroup _ p cs n => if n - 1 =? 0 then w <| w_bufs ::= <[p := s2b "*" ++ str (zlen cs) ++ crlf]> |> else w
  | _ => w
  end.

Lemma command_responsed_spares g y w w' : command_responsed g w = (Ret tt, w') -> w_grps w !! g = Some y -> spares (headed y w) w'.
Proof.
  unfold command_responsed, headed. intros H Hy. unfold mbind at 1, M_bind at 1, get_grp, deref_obj in H. rewrite Hy in H.
  assert (Hone : forall cli, within spares (group_responsed cli ;; set_grp g (fun y => y <| complete := true |>))) by (intros; within_step).
  destruct (grp_class y) as [c|c|k p cs n|b|b ks] eqn:Ek; try (by injection H as <-).
  - specialize (Hone (grp_client y) w). unfold single_command_responsed in H. by rewrite H in Hone.
  - unfold multi_command_responsed in H. unfold mbind at 1, M_bind at 1 in H. rewrite (set_grp_eq g _ y) in H by done.
    set (w1 := w <| w_grps ::= _ |>) in H. assert (M : mem_of w1 = mem_of w).
    { unfold mem_of. cbn. rewrite (fmap_insert_id _ _ _ y); [done|done|]. cbn. by rewrite Ek. }
    destruct (n - 1 =? 0); [|injection H as <-; by apply spares_mem]. cbn [when] in H.
    unfold mbind at 1, M_bind at 1, set_buffer, modify in H. set (w2 := w1 <| w_bufs ::= _ |>) in H.
    specialize (Hone (grp_client y) w2). rewrite H in Hone. etransitivity; [|exact Hone].
    apply spares_mem. unfold mem_of in *. cbn in *. by injection M as ->.
Qed.

Lemma answer_spares c rsp x y w w' :
  answer c rsp w = (Ret tt, w') -> w_cmds w !! c = Some x -> w_grps w !! cmd_group x = Some y ->
  spares (headed y (w <| w_bufs ::= <[cmd_buffer x := rsp]> |>)) w'.
Proof.
  intros H Hx Hy. unfold answer in H. unfold mbind at 1, M_bind at 1, get_cmd, deref_obj in H. rewrite Hx in H.
  unfold mbind at 1, M_bind at 1, set_buffer, modify in H. set (w1 := w <| w_bufs ::= _ |>) in H.
  unfold responsed, mbind, M_bind, get_cmd, deref_obj in H. change (w_cmds w1) with (w_cmds w) in H. rewrite Hx in H.
  by eapply command_responsed_spares.
Qed.

Lemma headed_mem y w :
  m_cmds (mem_of (headed y w)) = m_cmds (mem_of w) /\ m_grps (mem_of (headed y w)) = m_grps (mem_of w) /\ w_next (headed y w) = w_next w.
Proof. unfold headed. destruct (grp_class y) as [| |? ? ? n| |]; try done. by destruct (n - 1 =? 0). Qed.

Lemma headed_bufs y g w b :
  Bufs (mem_of w) (w_next w) -> w_grps w !! g = Some y -> (exists c, m_cmds (mem_of w) !! c = Some b) -> w_bufs (headed y w) !! b = w_bufs w !! b.
Proof.
  intros B Hy (c & Hc). unfold headed. destruct (grp_class y) as [| |k p cs n| |] eqn:Ek; try done. destruct (n - 1 =? 0); [|done].
  cbn. rewrite lookup_insert_ne; [done|]. intros ->. 
  apply (bf_pay_cmd _ _ B g (core (grp_class y)) b c); [cbn; by rewrite lookup_fmap, Hy|by rewrite Ek|exact Hc].
Qed.

Lemma bufs_same m m' n : Bufs m n -> m_cmds m' = m_cmds m -> m_grps m' = m_grps m -> Bufs m' n.
Proof. destruct m, m'. cbn. intros B -> ->. by destruct B; split. Qed.

(** The replies after the answer to [c]: its own, and the others as they were. *)
Lemma answer_replies c rsp x y w w' :
  answer c rsp w = (Ret tt, w') -> Bufs (mem_of w) (w_next w) -> w_cmds w !! c = Some x -> w_grps w !! cmd_group x = Some y ->
  reply w' c = rsp /\ forall c', c' <> c -> is_Some (w_cmds w !! c') -> reply w' c' = reply w c'.
Proof.
  intros H B Hx Hy. pose proof (answer_spares _ _ _ _ _ _ H Hx Hy) as Hs. set (w1 := w <| w_bufs ::= _ |>) in Hs.
  assert (B1 : Bufs (mem_of w1) (w_next w1)) by (by destruct B; split). destruct (headed_mem y w1) as (M1 & M2 & N).
  assert (B2 : Bufs (mem_of (headed y w1)) (w_next (headed y w1))) by (rewrite N; by eapply bufs_same; [exact B1|..]).
  assert (Hr : forall c0 z, w_cmds w !! c0 = Some z -> reply w' c0 = content (w_bufs w1) (cmd_buffer z)).
  { intros c0 z Hz. assert (Hb : m_cmds (mem_of w1) !! c0 = Some (cmd_buffer z)) by (cbn; by rewrite lookup_fmap, Hz).
    rewrite (spares_reply _ _ c0 (cmd_buffer z) B2 Hs) by (by rewrite M1). unfold reply, content. rewrite M1, Hb. cbn -[mem_of].
    by rewrite (headed_bufs y (cmd_group x) w1) by eauto. }
  split; [rewrite (Hr c x Hx); unfold content; cbn; by rewrite lookup_insert_eq|]. intros c' Hne [z Hz]. rewrite (Hr c' z Hz).
  unfold reply, content. cbn. rewrite lookup_fmap, Hz. cbn. rewrite lookup_insert_ne; [done|]. intros Hb. apply Hne. symmetry.
  eapply (bf_cmd_inj _ _ B); cbn; rewrite lookup_fmap, ?Hx, ?Hz; cbn; [done|by rewrite Hb].
Qed.

(** The response of the group of [c] after the answer. *)
Lemma answer_response c rsp x y w w' :
  answer c rsp w = (Ret tt, w') -> Bufs (mem_of w) (w_next w) -> w_cmds w !! c = Some x -> w_grps w !! cmd_group x = Some y ->
  c ∈ group_commands y ->
  match grp_class y with
  | SingleCommandGroup _ => response w' (cmd_group x) = rsp
  | MultipleCommandsGroup MGetGroup _ cs n =>
    n = 1 -> response w' (cmd_group x) = s2b "*" ++ str (zlen cs) ++ crlf ++ concat (reply w' <$> cs)
  | _ => True
  end.
Proof.
  intros H B Hx Hy Hin. pose proof (answer_spares _ _ _ _ _ _ H Hx Hy) as [C G S]. destruct (answer_replies _ _ _ _ _ _ H B Hx Hy) as [Hr _].
  set (w1 := w <| w_bufs ::= _ |>) in *. destruct (headed_mem y w1) as (M1 & M2 & _). rewrite M2 in G.
  assert (Hg : m_grps (mem_of w') !! cmd_group x = Some (core (grp_class y))) by (rewrite G; cbn; by rewrite lookup_fmap, Hy).
  unfold response, group_bufs. rewrite Hg. unfold group_commands in Hin. destruct (grp_class y) as [c0|c0|[] p cs n|b|b k] eqn:Ek; try done.
  - apply list_elem_of_singleton in Hin as ->. cbn. by rewrite app_nil_r.
  - intros ->. cbn [core class_bufs fmap list_fmap concat]. rewrite <- list_fmap_compose. unfold content at 1. rewrite S; rewrite ?M2.
    + unfold headed. rewrite Ek. replace (1 - 1 =? 0) with true by done. cbn. rewrite lookup_insert_eq. cbn. by rewrite <- !app_assoc.
    + intros g' cs' n' Hg'. assert (E : g' = cmd_group x); [|subst g'; rewrite <- G, Hg in Hg'; discriminate].
      eapply (bf_pay_inj _ _ B g' (cmd_group x)); [exact Hg'|cbn; rewrite lookup_fmap, Hy; reflexivity|done|by rewrite Ek].
Qed.


